(* ===== verification/_CoqProject ===== *)
-Q . S2P
Prelude.v
Core.v
Redb.v
Keys.v
Storage.v
Atomicity.v
StorageSpec.v
StorageReads.v
StorageWrites.v
StorageTrait.v
Channel.v
Engine.v
EngineSpec.v
EngineRun.v
Dispatch.v
System.v
Concrete.v
StorageProps.v
EngineProps.v
EngineExamples.v
Restart.v
Frame.v
Messages.v
Wire.v
WireProps.v
WireExamples.v
Server.v
Live.v
LiveProps.v
LiveProgress.v
GuardProps.v
LiveExamples.v
Text.v
Daemon.v
DaemonProps.v
Sdk.v
SdkProps.v
SdkExamples.v
EndToEnd.v
EndToEndExamples.v
Smash.v
SmashProps.v
SmashExamples.v
Ctl.v
CtlExamples.v
Scan.v
Concurrent.v
Interleave.v
ScanProps.v
ConcurrentProps.v
RoundProps.v
ConcurrentExamples.v
Process.v
ProcessProps.v
ProcessExamples.v
Conformance.v
ConformanceProto.v
ConformanceWire.v
