(* ===== verification/Prelude.v ===== *)
(** * StateMaster: a verification of the database's core

    StateMaster is a database of finite-state machines. A client defines
    machines (states, an initial state, transition rules with guards, effects)
    and fires events on entities; the server commits each transition atomically
    to an embedded key-value store together with the entity's new state, its
    outbox effects and its idempotency key, and streams the committed log to
    subscribers. This library models the program from the data types up to the
    processes and proves what makes it correct.

    ** The parts of the program and the files that model them

    - [smdb-core] (crates/smdb-core/src): types, [MachineDefinition::validate],
      [MachineBuilder], [FsmPlanner]. File [Core] (modules [Machine], [Builder],
      [FsmPlanner]): one definition per function, loops as fixpoints.
    - [smdb-storage] (crates/smdb-storage/src): the [StorageEngine] trait and its
      redb implementation. Files [Redb] (the interfaces of redb tables, redb
      transactions and rmp_serde, with their laws and concrete instances), [Keys]
      (the key formats), [Storage] (every method of [RedbEngine]), [StorageTrait]
      (the trait as a class of operations with a class of laws, and the redb
      engine as an instance of both).
    - [smdb-engine] (crates/smdb-engine/src): guards, transitions, subscriptions,
      delivery and the dispatcher's round. Files [Channel] (tokio's channels,
      clock, identifiers and hashes as interfaces), [Engine] (every method, the
      record [Engine] holding what the methods mutate), [Scan] ([dispatch_pass] taken
      apart at its accesses to shared state) and [Concurrent] (a call of
      [transition] as a thread, the stripe locks, [Dispatcher::run] with its round
      step by step, and the relation [conf_step] that interleaves them).
    - [smdb-proto] (crates/smdb-proto/src): frames, codec, messages. Files [Frame]
      and [Messages].
    - [smdb-wire] (crates/smdb-wire/src): handshake, request loop, replies,
      subscriptions, the accept loop, server settings and TLS. Files [Wire] (a
      connection as a sequential run), [Live] (an open session whose main task and
      forwarding tasks share the write half, in every interleaving with the rest
      of the program) and [Server].
    - [smdbd] (crates/smdbd/src): configuration and the health endpoint, file
      [Daemon]; start-up, the metrics server's loop and the process until [main]
      returns, file [Process].
    - [smdb-sdk] (crates/smdb-sdk/src): the client library: handshake, the table
      of pending requests and its reader task, the methods, subscriptions, the
      connect retry. File [Sdk].
    - [smash] (crates/smash/src): the interactive shell over a local engine:
      tokenizer, parser, executor, loop, one-shot mode. File [Smash].
    - [smdbctl] (crates/smdbctl/src): the administration command. File [Ctl].
    - String functions of the Standard Library that the binaries use (splitting,
      trimming, padding, number parsing): file [Text].
    - The inline unit tests of the crates and the integration tests of smdb-wire:
      files [Conformance], [ConformanceProto] and [ConformanceWire] run them on
      the model, one definition per test with its name, so that the model is compared with the results that the authors
      expect.

    A call of the engine goes through the trait, so the engine's theorems are
    proved against the class [StorageOk] of what a storage engine promises, and
    [redb_storage_ok] discharges it from the theorems about the redb engine; the
    server's theorems are proved over any such engine.

    ** How code becomes definitions

    Fallible code returns [Res]; a method that mutates is a function of its state
    in the monad [St] of this file, whose bind is Rust's [?]. Unsigned integers
    are [N], with the wrap-around of the release profile written out in [add64].
    Strings are byte strings. A write transaction stages its changes in a copy of
    the tables and installs them at the commit; every redb call may fail, at any
    point, with an error of the interface. [HashMap]s are finite maps, [Vec]s
    lists. Instants, identifiers and hashes are streams indexed by the number of
    earlier calls.

    ** What the theorems show

    - Planner: [validate] accepts exactly the well-formed definitions; on those
      the planner is the transition table; guards are checked in order
      ([Core]).
    - Storage: [Atomicity] relates each method on a failing database to the same
      method on one that never fails; [StorageSpec] gives the tables a meaning
      as an abstract store ([Repr]); [StorageReads] and [StorageWrites] show that
      the methods compute functions of that store; [StorageProps] states the
      results: [execute_transition] is all or nothing and implements the abstract
      commit, and the reads return exactly what the store says. [Keys] shows that
      the key formats are injective, ordered and isolated for identifiers without
      NUL, and that they are not with it.
    - Engine: [EngineSpec] is the specification of a transition, one rule per
      branch, and the invariant [consistent]; [EngineRun] shows that the handler
      refines it; [Dispatch] follows the delivery loops; [System] is the engine
      as a transition system over every public operation and over restarts of the
      process on the store it left, with its invariant by induction on
      [reachable]. [EngineProps] states the results: refinement,
      histories are runs of the machine and only grow, idempotency keys act once,
      expected versions exclude each other, legal requests succeed (an entity's
      first one, too), errors change nothing, streams are gap-free and in order, passes terminate and are
      complete, the outbox drains.
    - Restarts: [Restart] shows that [RedbEngine::open] keeps what was committed, so
      that the restarts of [System] are those of the redb engine, that queries
      answer after a restart as before, and that a subscriber which resumes from
      the last record it got misses nothing and gets nothing twice.
    - Concurrency: [Interleave] has the invariant of a pool of calls under the
      stripe locks and the effect of each of their steps; [ScanProps] has the
      invariant of a round of the dispatcher that calls and clients interrupt
      ([flight], [done_so_far]). [ConcurrentProps] shows
      that a thread alone computes what [Engine::transition] computes, that every
      interleaving keeps the store consistent and the sections of a stripe
      exclusive, crashes included, that each call's outcome is the specification's
      at the step that decides it, for the definition and the key lookup that this
      very call read ([reads_of]) and the guards of this engine, that the dispatcher misses no commit, and that calls do not
      deadlock. [RoundProps] shows that the dispatcher's steps add up to its
      sequential round (the two lemmas [solo_transition] and [solo_round] tie the
      step models to the sequential ones and claim nothing more), that every
      channel is an in-order stream of the log between any two steps, and that a
      round leaves no live subscriber behind.
    - Protocol and server: [Frame] shows that a stream of frames survives any
      chunking, says what the decoder does on every input and what becomes of a
      frame over the size limit; [WireProps] shows
      that nothing happens before authentication, that requests are answered one
      by one in order, that the answer to a Transition frame says what happened to
      the store ([transition_answer], field by field), that subscriptions are forwarded
      in order, and that connections stay within their limit. [LiveProps] has the
      invariant of a live connection: each forwarding task has written, in order,
      a prefix of what its channel was given, whatever else is written in
      between. [LiveProgress] shows that a round of the dispatcher and the steps of
      the task put every wanted record on the wire. [GuardProps] shows that a server in which nobody registers a guard
      never refuses a transition by one.
    - Client: [SdkProps] treats a connection as a transition system of callers,
      whose registering and writing are separate steps, and reader, and shows that replies reach their requests and that a lost
      connection wakes every caller; against the server, the handshakes agree and
      a request returns what the engine returned, while error replies and the
      results of transitions do not get through to the caller. [EndToEnd] puts the
      client on one end of a live connection and follows a subscription from the
      call to the records in its channel; it also shows that a subscription never
      ends after a disconnect.
    - Daemon: [DaemonProps] gives the precedence and validity of the
      configuration, the round trip of the token list and the metrics page.
      [ProcessProps] says when start-up fails, that a configured TLS is never
      downgraded to plain TCP, and what holds from start-up to exit in every order
      of the process's tasks.
    - Shell and administration: [SmashProps] shows that the tokenizer computes the
      words of a line, that a command with non-empty fields without single quotes
      is parsed back from its quoted text, that whatever is typed keeps the store
      consistent, and that any line with the words of a transition makes the
      specified step and prints its outcome; [Ctl] shows the same exactness for
      the subcommands of [smdbctl].

    [Concrete] instantiates the interfaces of the engine; the files named
    [...Examples] and the ends of other files apply the properties to concrete
    runs. [ProcessExamples] also has two runs in which the daemon does not do what
    one expects of it: an exit before the last delivery, and an accept loop that
    has ended unnoticed. [ConcurrentExamples] has races of calls for one key and one
    definition, and a round that marks an effect published before its record is
    sent.

    ** Bounds and fuel

    The delivery loop of [dispatch_pass] needs fuel (the loop ends when a batch is
    short). [dispatch_terminates] shows that any fuel above the number
    of steps taken so far is enough, since each round advances the cursor through
    a log that is no longer than that. The theorems over reachable states assume
    fewer than 2^64 steps, so that sequence numbers do not wrap. A call of
    [transition] takes at most nine steps, each of which lowers the measure [work].
    [trim] in [Text] uses the length of the string as fuel, as every round removes
    a character. The retry loop of [Sdk] ends within [max_retries + 2] rounds.
    Entity and machine names are assumed free of NUL where the key formats need
    it.

    ** What is not modelled

    In the concurrent model a storage call is one step (redb runs it as one
    transaction), and so are the reading of a record's effects and its sending; in
    the model of a live connection a request, a pass of the dispatcher and a send
    under the lock of the sink are (calls and passes are taken apart in
    [Concurrent] only). [read_frames] in [Frame] states the documented behaviour of
    tokio_util's [Framed], to put the codec in its place. The connections of the
    process are counted, and the handler of one connection runs against the steps
    of an arbitrary rest. A crash keeps what was committed and nothing else: that
    a commit is durable is redb's promise. A panicking handler (the join
    error of the blocking worker) does not occur in the model. Serialization
    (rmp_serde, serde_json, TOML), clap's argument parsing, the formatting of
    instants, Unicode lower case, the line editor, TLS, HTTP, sockets and the file
    system are parameters with the laws that the code relies on; logging is left
    out. [EngineConfig] is read by no code and [smdb-wal] is empty. The four unit
    tests that parse TOML text are not run, as the parser is a parameter. *)
From stdpp Require Export base list gmap strings sorting pretty.
From Stdlib Require Export Lia.

(** ** Results *)

(** Rust's [Result<A, E>]. *)
Inductive Res (A E : Type) : Type :=
| Ok (a : A)
| Err (e : E).
Arguments Ok {A E} _.
Arguments Err {A E} _.

Definition res_bind {A B E} (r : Res A E) (k : A → Res B E) : Res B E :=
  match r with Ok a => k a | Err e => Err e end.

(** [Result::map_err]. *)
Definition map_err {A E F} (f : E → F) (r : Res A E) : Res A F :=
  match r with Ok a => Ok a | Err e => Err (f e) end.

(** [Option::ok_or_else]. *)
Definition ok_or {A E} (o : option A) (e : E) : Res A E :=
  match o with Some a => Ok a | None => Err e end.

Definition is_ok {A E} (r : Res A E) : bool :=
  match r with Ok _ => true | Err _ => false end.

Declare Scope res_scope.
Delimit Scope res_scope with res.
Notation "'let?' x := m 'in' k" := (res_bind m (λ x, k))
  (at level 10, x name, m at level 100, k at level 200) : res_scope.

(** ** Fallible computations over a state *)

Definition St (S E A : Type) : Type := S → Res A E * S.

Definition st_ret {S E A} (a : A) : St S E A := λ s, (Ok a, s).
Definition st_err {S E A} (e : E) : St S E A := λ s, (Err e, s).
Definition st_bind {S E A B} (m : St S E A) (k : A → St S E B) : St S E B :=
  λ s, match m s with
       | (Ok a, s') => k a s'
       | (Err e, s') => (Err e, s')
       end.
Definition st_res {S E A} (r : Res A E) : St S E A := λ s, (r, s).

Declare Scope st_scope.
Delimit Scope st_scope with st.
Notation "x <- m ;; k" := (st_bind m (λ x, k))
  (at level 100, m at next level, right associativity) : st_scope.
Notation "m ;; k" := (st_bind m (λ _, k))
  (at level 100, right associativity) : st_scope.

(** ** Machine integers *)

(** Unsigned machine integers are values of [N]; the arithmetic of the release
    profile wraps at the width. *)
Definition u64_max : N := 18446744073709551615.
Definition u32_max : N := 4294967295.

Definition add64 (a b : N) : N := ((a + b) mod 18446744073709551616)%N.

Lemma add64_small (a b : N) : (a + b <= u64_max)%N → add64 a b = (a + b)%N.
Proof. unfold add64, u64_max. intros. apply N.mod_small. lia. Qed.

Lemma add64_max_1 : add64 u64_max 1 = 0%N.
Proof. reflexivity. Qed.

(** Arithmetic against the widths. *)
Ltac width := unfold u64_max, u32_max in *; lia.

(** ** Lists *)

(** In a duplicate-free flattening, an element identifies the part it comes
    from. *)
Lemma NoDup_bind_inj {A B} (f : A → list B) (l : list A) (a b : A) (x : B) :
  NoDup (l ≫= f) → a ∈ l → b ∈ l → x ∈ f a → x ∈ f b → a = b.
Proof.
  induction l as [|c l IH]; simpl; [set_solver|].
  intros (_ & Hdisj & Hnd)%NoDup_app Ha Hb Hxa Hxb.
  assert (∀ d, d ∈ l → x ∈ f d → x ∈ f c → False) as Hno.
  { intros d Hd Hxd Hxc. apply (Hdisj x Hxc). apply list_elem_of_bind. eauto. }
  apply elem_of_cons in Ha as [->|Ha]; apply elem_of_cons in Hb as [->|Hb]; eauto;
    exfalso; eauto.
Qed.

Lemma StronglySorted_filter {A} (R : relation A) (P : A → Prop) `{∀ x, Decision (P x)}
    (l : list A) : StronglySorted R l → StronglySorted R (filter P l).
Proof.
  induction 1 as [|x l HS IH Hall]; [constructor|]. rewrite filter_cons.
  case_decide; [|done]. constructor; [done|].
  rewrite Forall_forall in *. intros y [_ Hy]%list_elem_of_filter. auto.
Qed.

Lemma StronglySorted_fmap {A B} (R : relation A) (S : relation B) (f : A → B) (l : list A) :
  (∀ x y, x ∈ l → y ∈ l → R x y → S (f x) (f y)) →
  StronglySorted R l → StronglySorted S (f <$> l).
Proof.
  intros Hf HS. induction HS as [|x l HS IH Hall]; simpl; constructor.
  - apply IH. intros y z Hy Hz. apply Hf; by apply elem_of_cons; right.
  - apply Forall_forall. intros y (z & -> & Hz)%list_elem_of_fmap.
    rewrite Forall_forall in Hall.
    apply Hf; [constructor|by apply elem_of_cons; right|by apply Hall].
Qed.

(** A strictly sorted list has no duplicates. *)
Lemma StronglySorted_NoDup {A} (R : relation A) (l : list A) :
  (∀ x, ¬ R x x) → StronglySorted R l → NoDup l.
Proof.
  intros Hirr. induction 1 as [|x l HS IH Hall]; constructor; [|done].
  intros Hx. rewrite Forall_forall in Hall. by apply (Hirr x), Hall.
Qed.

Lemma last_snoc_eq {A} (l : list A) (x : A) : last (l ++ [x]) = Some x.
Proof. apply last_snoc. Qed.

Lemma StronglySorted_omap {A B} (R : relation A) (S : relation B) (f : A → option B) (l : list A) :
  (∀ x y x' y', x ∈ l → y ∈ l → f x = Some x' → f y = Some y' → R x y → S x' y') →
  StronglySorted R l → StronglySorted S (omap f l).
Proof.
  intros Hf HS. induction HS as [|x l HS IH Hall]; simpl; [constructor|].
  assert (StronglySorted S (omap f l)) as HS'.
  { apply IH. intros y z y' z' Hy Hz. apply Hf; by apply elem_of_cons; right. }
  destruct (f x) as [x'|] eqn:Hx; [|done]. constructor; [done|].
  apply Forall_forall. intros y' (y & Hy & Hfy)%list_elem_of_omap.
  rewrite Forall_forall in Hall.
  apply (Hf x y); [constructor|by apply elem_of_cons; right|done|done|by apply Hall].
Qed.

(** Strictly sorted lists with the same members are equal. *)
Lemma strictly_sorted_unique {A} (R : relation A) (l1 l2 : list A) :
  (∀ x, ¬ R x x) → Transitive R →
  StronglySorted R l1 → StronglySorted R l2 → (∀ x, x ∈ l1 ↔ x ∈ l2) → l1 = l2.
Proof.
  intros Hirr Htr H1 H2 Heq. apply (StronglySorted_unique_strong R); [|done|done|].
  - intros x y _ _ Hxy Hyx. destruct (Hirr x). by trans y.
  - apply NoDup_Permutation; [by eapply StronglySorted_NoDup..|done].
Qed.

(** Related lists are related at members. *)
Lemma Forall2_and_elem {A B} (P : A → B → Prop) (l : list A) (k : list B) :
  Forall2 P l k → Forall2 (λ x y, x ∈ l ∧ y ∈ k ∧ P x y) l k.
Proof.
  intros HF. apply Forall2_same_length_lookup_2; [by eapply Forall2_length|].
  intros i x y Hx Hy. split_and!; [by eapply list_elem_of_lookup_2..|].
  by eapply Forall2_lookup_lr.
Qed.

Lemma filter_all {A} (P : A → Prop) `{∀ x, Decision (P x)} (l : list A) :
  (∀ x, x ∈ l → P x) → filter P l = l.
Proof.
  induction l as [|x l IH]; intros Hall; [done|]. rewrite filter_cons, decide_True.
  - rewrite IH; [done|]. intros. apply Hall. by constructor.
  - apply Hall. constructor.
Qed.

(** Sortedness of filtered and mapped lists. *)
Create HintDb sorted.
#[export] Hint Resolve StronglySorted_filter StronglySorted_NoDup : sorted.
