(* ===== verification/Core.v ===== *)
(** * smdb-core: data types, machine definitions and the planner

    Models [crates/smdb-core/src]: the records of [types.rs], [machine.rs],
    [transition.rs], [entity.rs], [effect.rs] and [change_record.rs], the
    errors of [error.rs], [MachineDefinition::validate], the [MachineBuilder]
    and the four functions of [FsmPlanner] ([engine.rs]).

    Rust strings are byte strings ([string]); [u32]/[u64] fields are [N];
    [DateTime<Utc>] is an instant in [Z] (nanoseconds), supplied by the clock
    of the caller; [serde_json::Value] is the JSON tree [Value]. *)
From S2P Require Import Prelude.

(** ** Types ([types.rs]) *)

Abbreviation Sequence := N (only parsing).
Abbreviation Version := N (only parsing).
Abbreviation Time := Z (only parsing).

(** [serde_json::Number]: non-negative, negative, or the bits of an [f64]. *)
Inductive Number : Type :=
| PosInt (n : N)
| NegInt (z : Z)
| Float (bits : N).

(** [serde_json::Value]. *)
Inductive Value : Type :=
| VNull
| VBool (b : bool)
| VNumber (n : Number)
| VString (s : string)
| VArray (l : list Value)
| VObject (m : list (string * Value)).

(** [Value::default()]. *)
Definition value_default : Value := VNull.

(** ** Machine definitions ([machine.rs]) *)

Record TransitionRule : Type := {
  rule_event : string;
  rule_from_states : list string;
  rule_to_state : string;
  rule_guards : list string;
}.

Record EffectRule : Type := {
  er_on_event : string;
  er_effect : string;
  er_payload : option Value;
}.

Record MachineDefinition : Type := {
  md_name : string;
  md_version : N;
  md_states : list string;
  md_initial_state : string;
  md_transitions : list TransitionRule;
  md_effects : list EffectRule;
  md_created_at : Time;
}.

(** ** Entity state, transition records, effects, change records *)

Record EntityState : Type := {
  es_entity_id : string;
  es_machine : string;
  es_current_state : string;
  es_version : Version;
  es_updated_at : Time;
  es_created_at : Time;
}.

Record TransitionRecord : Type := {
  rec_id : string;
  rec_sequence : Sequence;
  rec_entity_id : string;
  rec_machine : string;
  rec_from_state : string;
  rec_to_state : string;
  rec_event : string;
  rec_actor : string;
  rec_ctx : Value;
  rec_idempotency_key : option string;
  rec_version : Version;
  rec_timestamp : Time;
}.

(** [record.sequence = seq] and [record.version = v]. *)
Definition set_rec_sequence (r : TransitionRecord) (seq : Sequence) : TransitionRecord :=
  {| rec_id := rec_id r; rec_sequence := seq;
     rec_entity_id := rec_entity_id r; rec_machine := rec_machine r;
     rec_from_state := rec_from_state r; rec_to_state := rec_to_state r;
     rec_event := rec_event r; rec_actor := rec_actor r; rec_ctx := rec_ctx r;
     rec_idempotency_key := rec_idempotency_key r;
     rec_version := rec_version r; rec_timestamp := rec_timestamp r |}.

Definition set_rec_version (r : TransitionRecord) (v : Version) : TransitionRecord :=
  {| rec_id := rec_id r; rec_sequence := rec_sequence r;
     rec_entity_id := rec_entity_id r; rec_machine := rec_machine r;
     rec_from_state := rec_from_state r; rec_to_state := rec_to_state r;
     rec_event := rec_event r; rec_actor := rec_actor r; rec_ctx := rec_ctx r;
     rec_idempotency_key := rec_idempotency_key r;
     rec_version := v; rec_timestamp := rec_timestamp r |}.

Inductive EffectStatus : Type := Pending | Published | Failed.
#[global] Instance EffectStatus_eq_dec : EqDecision EffectStatus.
Proof. solve_decision. Defined.

Record Effect : Type := {
  eff_id : string;
  eff_transition_id : string;
  eff_effect_name : string;
  eff_payload : Value;
  eff_status : EffectStatus;
  eff_created_at : Time;
}.

(** [effect.status = status]. *)
Definition set_eff_status (e : Effect) (st : EffectStatus) : Effect :=
  {| eff_id := eff_id e; eff_transition_id := eff_transition_id e;
     eff_effect_name := eff_effect_name e; eff_payload := eff_payload e;
     eff_status := st; eff_created_at := eff_created_at e |}.

(** [Effect::new]; the identifier and the instant are those that
    [Uuid::new_v4] and [Utc::now] return at the call. *)
Definition Effect_new (uuid : string) (now : Time)
    (transition_id effect_name : string) (payload : Value) : Effect :=
  {| eff_id := uuid; eff_transition_id := transition_id;
     eff_effect_name := effect_name; eff_payload := payload;
     eff_status := Pending; eff_created_at := now |}.

Record EffectPayload : Type := {
  ep_effect_name : string;
  ep_payload : Value;
}.

Record ChangeRecord : Type := {
  cr_sequence : Sequence;
  cr_transition_id : string;
  cr_entity_id : string;
  cr_machine : string;
  cr_from_state : string;
  cr_to_state : string;
  cr_event : string;
  cr_actor : string;
  cr_version : Version;
  cr_timestamp : Time;
  cr_ctx : Value;
  cr_effects : list EffectPayload;
}.

(** ** Errors ([error.rs]) *)

Inductive CoreError : Type :=
| IllegalTransition (entity_id machine event current_state : string)
| GuardFailed (guard_name reason : string)
| VersionConflict (entity_id machine : string) (expected actual : Version)
| UnknownMachine (name : string)
| UnknownEntity (entity_id machine : string)
| InvalidDefinition (reason : string)
| DuplicateState (name : string)
| DuplicateEvent (name : string).

(** ** [MachineDefinition::validate] *)

Module Machine.
Local Open Scope res_scope.

Definition reason_initial (s : string) : string :=
  "initial_state '" +:+ s +:+ "' is not in the states list".
Definition reason_from (ev s : string) : string :=
  "transition '" +:+ ev +:+ "' references unknown from_state '" +:+ s +:+ "'".
Definition reason_pair (ev s : string) : string :=
  "duplicate (event, from_state) pair: ('" +:+ ev +:+ "', '" +:+ s +:+ "')".
Definition reason_to (ev s : string) : string :=
  "transition '" +:+ ev +:+ "' references unknown to_state '" +:+ s +:+ "'".

(** The first loop: [seen_states.insert(state)] fails on a repeated state. *)
Fixpoint check_states (seen : gset string) (states : list string)
    : Res (gset string) CoreError :=
  match states with
  | [] => Ok seen
  | s :: rest =>
      if decide (s ∈ seen) then Err (DuplicateState s)
      else check_states ({[s]} ∪ seen) rest
  end.

(** The inner loop over [rule.from_states]. *)
Fixpoint check_from_states (seen : gset string) (event : string)
    (pair_seen : gset (string * string)) (froms : list string)
    : Res (gset (string * string)) CoreError :=
  match froms with
  | [] => Ok pair_seen
  | from :: rest =>
      if decide (from ∉ seen) then Err (InvalidDefinition (reason_from event from))
      else if decide ((event, from) ∈ pair_seen)
      then Err (InvalidDefinition (reason_pair event from))
      else check_from_states seen event ({[(event, from)]} ∪ pair_seen) rest
  end.

(** The outer loop over [self.transitions]. *)
Fixpoint check_rules (seen : gset string) (pair_seen : gset (string * string))
    (rules : list TransitionRule) : Res unit CoreError :=
  match rules with
  | [] => Ok tt
  | rule :: rest =>
      let? pair_seen' :=
        check_from_states seen (rule_event rule) pair_seen (rule_from_states rule) in
      if decide (rule_to_state rule ∉ seen)
      then Err (InvalidDefinition (reason_to (rule_event rule) (rule_to_state rule)))
      else check_rules seen pair_seen' rest
  end.

Definition validate (def : MachineDefinition) : Res unit CoreError :=
  let? seen_states := check_states ∅ (md_states def) in
  if decide (md_initial_state def ∉ seen_states)
  then Err (InvalidDefinition (reason_initial (md_initial_state def)))
  else check_rules seen_states ∅ (md_transitions def).

End Machine.

(** ** [MachineBuilder] *)

Module Builder.
Local Open Scope res_scope.

Record MachineBuilder : Type := {
  mb_name : option string;
  mb_version : N;
  mb_states : list string;
  mb_initial_state : option string;
  mb_transitions : list TransitionRule;
  mb_effects : list EffectRule;
}.

(** [MachineBuilder::new] (the derived [Default]). *)
Definition new : MachineBuilder :=
  {| mb_name := None; mb_version := 0; mb_states := []; mb_initial_state := None;
     mb_transitions := []; mb_effects := [] |}.

Definition name (n : string) (b : MachineBuilder) : MachineBuilder :=
  {| mb_name := Some n; mb_version := mb_version b; mb_states := mb_states b;
     mb_initial_state := mb_initial_state b; mb_transitions := mb_transitions b;
     mb_effects := mb_effects b |}.

Definition version (v : N) (b : MachineBuilder) : MachineBuilder :=
  {| mb_name := mb_name b; mb_version := v; mb_states := mb_states b;
     mb_initial_state := mb_initial_state b; mb_transitions := mb_transitions b;
     mb_effects := mb_effects b |}.

Definition states (ss : list string) (b : MachineBuilder) : MachineBuilder :=
  {| mb_name := mb_name b; mb_version := mb_version b; mb_states := mb_states b ++ ss;
     mb_initial_state := mb_initial_state b; mb_transitions := mb_transitions b;
     mb_effects := mb_effects b |}.

Definition state (s : string) (b : MachineBuilder) : MachineBuilder :=
  {| mb_name := mb_name b; mb_version := mb_version b; mb_states := mb_states b ++ [s];
     mb_initial_state := mb_initial_state b; mb_transitions := mb_transitions b;
     mb_effects := mb_effects b |}.

Definition initial_state (s : string) (b : MachineBuilder) : MachineBuilder :=
  {| mb_name := mb_name b; mb_version := mb_version b; mb_states := mb_states b;
     mb_initial_state := Some s; mb_transitions := mb_transitions b;
     mb_effects := mb_effects b |}.

Definition transition_with_guards (event : string) (froms : list string)
    (to : string) (guards : list string) (b : MachineBuilder) : MachineBuilder :=
  {| mb_name := mb_name b; mb_version := mb_version b; mb_states := mb_states b;
     mb_initial_state := mb_initial_state b;
     mb_transitions := mb_transitions b ++
       [{| rule_event := event; rule_from_states := froms;
           rule_to_state := to; rule_guards := guards |}];
     mb_effects := mb_effects b |}.

Definition transition (event : string) (froms : list string) (to : string)
    (b : MachineBuilder) : MachineBuilder :=
  {| mb_name := mb_name b; mb_version := mb_version b; mb_states := mb_states b;
     mb_initial_state := mb_initial_state b;
     mb_transitions := mb_transitions b ++
       [{| rule_event := event; rule_from_states := froms;
           rule_to_state := to; rule_guards := [] |}];
     mb_effects := mb_effects b |}.

Definition effect (on_event eff : string) (payload : option Value)
    (b : MachineBuilder) : MachineBuilder :=
  {| mb_name := mb_name b; mb_version := mb_version b; mb_states := mb_states b;
     mb_initial_state := mb_initial_state b; mb_transitions := mb_transitions b;
     mb_effects := mb_effects b ++
       [{| er_on_event := on_event; er_effect := eff; er_payload := payload |}] |}.

(** [MachineBuilder::build]; [now] is what [Utc::now] returns. *)
Definition build (now : Time) (b : MachineBuilder) : Res MachineDefinition CoreError :=
  let? n := ok_or (mb_name b) (InvalidDefinition "machine name is required") in
  let? init := ok_or (mb_initial_state b) (InvalidDefinition "initial_state is required") in
  let def := {| md_name := n; md_version := mb_version b; md_states := mb_states b;
                md_initial_state := init; md_transitions := mb_transitions b;
                md_effects := mb_effects b; md_created_at := now |} in
  let? _ok := Machine.validate def in
  Ok def.

End Builder.

(** ** [FsmPlanner] ([engine.rs]) *)

Module FsmPlanner.

(** The closure given to [find]. *)
Definition rule_matches (current_state event : string) (rule : TransitionRule) : bool :=
  bool_decide (rule_event rule = event)
  && existsb (λ s, bool_decide (s = current_state)) (rule_from_states rule).

Definition plan_transition (def : MachineDefinition)
    (current_state event entity_id : string) : Res TransitionRule CoreError :=
  ok_or (List.find (rule_matches current_state event) (md_transitions def))
        (IllegalTransition entity_id (md_name def) event current_state).

(** The loop of [validate_guards]: a guard passes when the results map holds
    [true] for it. *)
Fixpoint check_guards (guards : list string) (guard_results : gmap string bool)
    : Res unit CoreError :=
  match guards with
  | [] => Ok tt
  | g :: rest =>
      if default false (guard_results !! g) then check_guards rest guard_results
      else Err (GuardFailed g "guard evaluated to false")
  end.

Definition validate_guards (rule : TransitionRule) (guard_results : gmap string bool)
    : Res unit CoreError :=
  check_guards (rule_guards rule) guard_results.

Definition compute_effects (def : MachineDefinition) (event : string) : list EffectRule :=
  List.filter (λ e, bool_decide (er_on_event e = event)) (md_effects def).

(** [uuid] and [now] are what [Uuid::new_v4] and [Utc::now] return. *)
Definition build_transition_record (uuid : string) (now : Time)
    (entity_id machine from_state to_state event actor : string) (ctx : Value)
    (idempotency_key : option string) : TransitionRecord :=
  {| rec_id := uuid; rec_sequence := 0; rec_entity_id := entity_id;
     rec_machine := machine; rec_from_state := from_state; rec_to_state := to_state;
     rec_event := event; rec_actor := actor; rec_ctx := ctx;
     rec_idempotency_key := idempotency_key; rec_version := 0; rec_timestamp := now |}.

End FsmPlanner.

(** ** What a valid definition is *)

(** The [(event, from_state)] pairs a rule claims. *)
Definition rule_pairs (r : TransitionRule) : list (string * string) :=
  pair (rule_event r) <$> rule_from_states r.

Record well_formed (def : MachineDefinition) : Prop := {
  wf_states : NoDup (md_states def);
  wf_initial : md_initial_state def ∈ md_states def;
  wf_from r s : r ∈ md_transitions def → s ∈ rule_from_states r → s ∈ md_states def;
  wf_to r : r ∈ md_transitions def → rule_to_state r ∈ md_states def;
  wf_pairs : NoDup (md_transitions def ≫= rule_pairs);
}.

Section machine_proofs.
Import Machine.

Lemma check_states_ok seen l seen' :
  check_states seen l = Ok seen' ↔
  NoDup l ∧ (∀ s, s ∈ l → s ∉ seen) ∧ seen' = list_to_set l ∪ seen.
Proof.
  revert seen. induction l as [|s l IH]; intros seen; simpl.
  - split; [intros [= ->]|intros (_ & _ & ->)]; [|f_equal; set_solver].
    split_and!; [constructor|set_solver|set_solver].
  - rewrite NoDup_cons. case_decide as Hs.
    + split; [done|]. intros (_ & H & _). set_solver.
    + rewrite IH. split.
      * intros (Hnd & Hout & ->). split_and!; [set_solver|done|set_solver|set_solver].
      * intros ((Hs' & Hnd) & Hout & ->). split_and!; [done|set_solver|set_solver].
Qed.

Lemma check_states_err seen l e :
  check_states seen l = Err e →
  ∃ s l1 l2, e = DuplicateState s ∧ l = l1 ++ s :: l2 ∧ NoDup l1
             ∧ (∀ x, x ∈ l1 → x ∉ seen) ∧ (s ∈ seen ∨ s ∈ l1).
Proof.
  revert seen. induction l as [|s l IH]; intros seen; simpl; [done|].
  case_decide as Hs.
  - intros [= <-]. exists s, [], l. split_and!; [done|done|constructor|set_solver|by left].
  - intros (s' & l1 & l2 & -> & -> & Hnd & Hout & Hin)%IH.
    exists s', (s :: l1), l2. split_and!; [done|done| |set_solver|set_solver].
    constructor; set_solver.
Qed.

Lemma check_from_states_ok seen ev ps l ps' :
  check_from_states seen ev ps l = Ok ps' ↔
  (∀ s, s ∈ l → s ∈ seen) ∧ NoDup l ∧ (∀ s, s ∈ l → (ev, s) ∉ ps)
  ∧ ps' = list_to_set (pair ev <$> l) ∪ ps.
Proof.
  revert ps. induction l as [|s l IH]; intros ps; simpl.
  - split; [intros [= ->]|intros (_ & _ & _ & ->); f_equal; set_solver].
    split_and!; [set_solver|constructor|set_solver|set_solver].
  - rewrite NoDup_cons. case_decide as Hs; [|case_decide as Hp].
    + split; [done|set_solver].
    + split; [done|set_solver].
    + rewrite IH. split.
      * intros (Hin & Hnd & Hout & ->).
        split_and!; [set_solver|set_solver|done|set_solver|set_solver].
      * intros (Hin & (Hs' & Hnd) & Hout & ->).
        split_and!; [set_solver|done|set_solver|set_solver].
Qed.

Lemma check_from_states_err seen ev ps l e :
  check_from_states seen ev ps l = Err e → ∃ why, e = InvalidDefinition why.
Proof.
  revert ps. induction l as [|s l IH]; intros ps; simpl; [done|].
  repeat case_decide; naive_solver.
Qed.

Lemma NoDup_rule_pairs r : NoDup (rule_pairs r) ↔ NoDup (rule_from_states r).
Proof. unfold rule_pairs. apply NoDup_fmap. intros ?? [=]. done. Qed.

Lemma elem_of_rule_pairs ev s r :
  (ev, s) ∈ rule_pairs r ↔ rule_event r = ev ∧ s ∈ rule_from_states r.
Proof. unfold rule_pairs. rewrite list_elem_of_fmap. naive_solver. Qed.

Lemma check_rules_ok seen ps rules :
  check_rules seen ps rules = Ok tt ↔
  (∀ r, r ∈ rules → (∀ s, s ∈ rule_from_states r → s ∈ seen) ∧ rule_to_state r ∈ seen)
  ∧ NoDup (rules ≫= rule_pairs) ∧ (∀ p, p ∈ rules ≫= rule_pairs → p ∉ ps).
Proof.
  revert ps. induction rules as [|r rules IH]; intros ps; simpl.
  - split; [|done]. intros _. split_and!; [set_solver|constructor|set_solver].
  - rewrite NoDup_app, NoDup_rule_pairs.
    assert (∀ q, q ∈ list_to_set (C:=gset _) (pair (rule_event r) <$> rule_from_states r) ∪ ps
              ↔ q ∈ rule_pairs r ∨ q ∈ ps) as Hps.
    { intros q. unfold rule_pairs. rewrite elem_of_union, elem_of_list_to_set. done. }
    assert (∀ q, q ∈ rule_pairs r → q.1 = rule_event r ∧ q.2 ∈ rule_from_states r) as Hpr.
    { intros [ev s] [??]%elem_of_rule_pairs. done. }
    destruct (check_from_states _ _ _ _) as [ps'|e] eqn:Hf; simpl.
    + apply check_from_states_ok in Hf as (Hin & Hnd & Hout & ->).
      case_decide as Hto; [split; [done|]; intros (Hall & _); destruct (Hall r); set_solver|].
      rewrite IH. split.
      * intros (Hall & Hnd' & Hdis). split_and!.
        -- intros r' [->|?]%elem_of_cons; eauto.
        -- done.
        -- intros q Hq Hq'. apply (Hdis q Hq'). rewrite Hps. by left.
        -- done.
        -- intros q [Hq|Hq]%elem_of_app.
           ++ destruct q as [ev s]. apply elem_of_rule_pairs in Hq as [<- ?]. eauto.
           ++ intros ?. apply (Hdis q Hq). rewrite Hps. by right.
      * intros (Hall & (_ & Hdj & Hnd') & Hdis). split_and!; [set_solver|done|].
        intros q Hq. rewrite Hps. intros [?|?]; [eapply Hdj; eauto|eapply (Hdis q); set_solver].
    + split; [done|]. intros (Hall & (Hnd & _) & Hdis). exfalso.
      assert (check_from_states seen (rule_event r) ps (rule_from_states r)
              = Ok (list_to_set (pair (rule_event r) <$> rule_from_states r) ∪ ps)) as Hok.
      { apply check_from_states_ok. split_and!; [|done| |done].
        - by apply (Hall r); constructor.
        - intros s Hs. apply Hdis, elem_of_app. left. by apply elem_of_rule_pairs. }
      congruence.
Qed.

Lemma check_rules_err seen ps rules e :
  check_rules seen ps rules = Err e → ∃ why, e = InvalidDefinition why.
Proof.
  revert ps. induction rules as [|r rules IH]; intros ps; simpl; [done|].
  destruct (check_from_states _ _ _ _) as [ps'|e'] eqn:Hf; simpl.
  - case_decide; naive_solver.
  - intros [= ->]. eauto using check_from_states_err.
Qed.

Lemma validate_well_formed def : validate def = Ok tt ↔ well_formed def.
Proof.
  unfold validate. destruct (check_states ∅ (md_states def)) as [seen|e] eqn:Hc; simpl.
  - apply check_states_ok in Hc as (Hnd & _ & ->).
    case_decide as Hi.
    + split; [done|]. intros [_ Hin _ _ _]. set_solver.
    + rewrite check_rules_ok. split.
      * intros (Hall & Hp & _). split; [done|set_solver| |set_solver|done].
        intros r s Hr Hs. destruct (Hall r Hr). set_solver.
      * intros [_ _ Hf Ht Hp]. split_and!; [|done|set_solver].
        intros r Hr. split; [intros s Hs; specialize (Hf r s Hr Hs)|specialize (Ht r Hr)];
          set_solver.
  - split; [done|]. intros [Hnd _ _ _ _].
    apply check_states_err in Hc as (s & l1 & l2 & -> & Heq & _ & _ & [?|?]); [set_solver|].
    rewrite Heq in Hnd. apply NoDup_app in Hnd as (_ & Hdj & _).
    by destruct (Hdj s); [|constructor].
Qed.

End machine_proofs.

Section planner_proofs.
Import FsmPlanner.

Lemma rule_matches_spec cs ev r :
  rule_matches cs ev r = true ↔ rule_event r = ev ∧ cs ∈ rule_from_states r.
Proof.
  unfold rule_matches. rewrite andb_true_iff, bool_decide_eq_true, existsb_exists.
  setoid_rewrite bool_decide_eq_true. setoid_rewrite <- list_elem_of_In. naive_solver.
Qed.

Lemma find_rule_elem cs ev rules r :
  List.find (rule_matches cs ev) rules = Some r →
  r ∈ rules ∧ rule_event r = ev ∧ cs ∈ rule_from_states r.
Proof.
  intros [Hin Hm]%find_some. rewrite <- list_elem_of_In in Hin.
  by apply rule_matches_spec in Hm as [??].
Qed.

(** A planned rule is a rule of the definition for this event and state. *)
Lemma plan_transition_elem def cs ev e r :
  plan_transition def cs ev e = Ok r →
  r ∈ md_transitions def ∧ rule_event r = ev ∧ cs ∈ rule_from_states r.
Proof.
  unfold plan_transition. destruct (List.find _ _) as [r'|] eqn:Hf; [|done].
  intros [= ->]. by apply find_rule_elem.
Qed.

Lemma plan_transition_err def cs ev e err :
  plan_transition def cs ev e = Err err ↔
  err = IllegalTransition e (md_name def) ev cs
  ∧ ∀ r, r ∈ md_transitions def → rule_event r = ev → cs ∉ rule_from_states r.
Proof.
  unfold plan_transition. destruct (List.find _ _) as [r'|] eqn:Hf; simpl.
  - split; [done|]. intros (_ & Hno). apply find_rule_elem in Hf as (?&?&?).
    by destruct (Hno r').
  - split; [intros [= <-]|by intros (-> & _)]. split; [done|].
    intros r Hr Hev Hcs. apply list_elem_of_In in Hr.
    pose proof (find_none _ _ Hf r Hr) as Hm.
    assert (rule_matches cs ev r = true) by by apply rule_matches_spec. congruence.
Qed.

Lemma well_formed_rule_unique def ev cs r1 r2 :
  well_formed def → r1 ∈ md_transitions def → r2 ∈ md_transitions def →
  rule_event r1 = ev → rule_event r2 = ev →
  cs ∈ rule_from_states r1 → cs ∈ rule_from_states r2 → r1 = r2.
Proof.
  intros Hwf H1 H2 E1 E2 F1 F2.
  apply (NoDup_bind_inj rule_pairs (md_transitions def) r1 r2 (ev, cs));
    [apply Hwf|done|done|by apply elem_of_rule_pairs|by apply elem_of_rule_pairs].
Qed.

Lemma check_guards_ok guards res :
  check_guards guards res = Ok tt ↔ ∀ g, g ∈ guards → res !! g = Some true.
Proof.
  induction guards as [|g guards IH]; simpl; [split; [set_solver|done]|].
  destruct (res !! g) as [[]|] eqn:Hg; simpl.
  - rewrite IH. split; [intros H g' [->|?]%elem_of_cons; eauto|set_solver].
  - split; [done|]. intros H. assert (g ∈ g :: guards) as Hin by constructor.
    specialize (H g Hin). congruence.
  - split; [done|]. intros H. assert (g ∈ g :: guards) as Hin by constructor.
    specialize (H g Hin). congruence.
Qed.

Lemma check_guards_err guards res e :
  check_guards guards res = Err e ↔
  ∃ g l1 l2, guards = l1 ++ g :: l2 ∧ e = GuardFailed g "guard evaluated to false"
    ∧ res !! g ≠ Some true ∧ ∀ g', g' ∈ l1 → res !! g' = Some true.
Proof.
  induction guards as [|g guards IH]; simpl.
  { split; [done|]. intros (?&[]&?&?&_); done. }
  destruct (default false (res !! g)) eqn:Hg; simpl.
  - assert (res !! g = Some true) as Hg' by (destruct (res !! g); naive_solver).
    rewrite IH. split.
    + intros (g' & l1 & l2 & -> & -> & Hne & Hall). exists g', (g :: l1), l2.
      split_and!; [done|done|done|]. intros ? [->|?]%elem_of_cons; eauto.
    + intros (g' & [|g0 l1] & l2 & [= -> Heq] & -> & Hne & Hall); [done|]. subst.
      exists g', l1, l2. split_and!; [done|done|done|]. set_solver.
  - split.
    + intros [= <-]. exists g, [], guards. split_and!; [done|done| |set_solver].
      intros Heq. by rewrite Heq in Hg.
    + intros (g' & [|g0 l1] & l2 & [= -> Heq] & -> & Hne & Hall); [done|].
      rewrite (Hall g0) in Hg; [done|constructor].
Qed.

Lemma elem_of_compute_effects def ev r :
  r ∈ compute_effects def ev ↔ r ∈ md_effects def ∧ er_on_event r = ev.
Proof.
  unfold compute_effects.
  rewrite !list_elem_of_In, filter_In, bool_decide_eq_true. done.
Qed.

End planner_proofs.

(** ** Properties *)

(** C37. [MachineDefinition::validate] accepts exactly the well-formed
    definitions (distinct states, known initial/from/to states, no repeated
    [(event, from_state)] pair); it reports [DuplicateState s] exactly when [s]
    is the first repeated state, and every other rejection is
    [InvalidDefinition]. *)
Theorem validate_correct (def : MachineDefinition) :
  (Machine.validate def = Ok tt ↔ well_formed def)
  ∧ (∀ s, Machine.validate def = Err (DuplicateState s) ↔
      ∃ l1 l2, md_states def = l1 ++ s :: l2 ∧ NoDup l1 ∧ s ∈ l1)
  ∧ (∀ e, Machine.validate def = Err e →
      (∃ s, e = DuplicateState s) ∨ (∃ why, e = InvalidDefinition why)).
Proof.
  split; [apply validate_well_formed|]. unfold Machine.validate.
  destruct (Machine.check_states _ _) as [seen|e'] eqn:Hc; simpl; split.
  - intros s. apply check_states_ok in Hc as (Hnd & _). split.
    + case_decide; [done|]. by intros (? & [=])%check_rules_err.
    + intros (l1 & l2 & Heq & _ & Hin). rewrite Heq in Hnd.
      apply NoDup_app in Hnd as (_ & Hdj & _). by destruct (Hdj s); [|constructor].
  - intros e. case_decide; [intros [= <-]|intros ?%check_rules_err]; eauto.
  - intros s. apply check_states_err in Hc as (s' & l1 & l2 & -> & Heq & Hnd & _ & [?|Hin]);
      [set_solver|].
    split; [intros [= ->]; eauto|].
    intros (k1 & k2 & Heq' & Hnd' & Hin'). do 2 f_equal.
    rewrite Heq in Heq'.
    destruct (app_eq_inv _ _ _ _ Heq') as [(k & -> & Hk)|(k & -> & Hk)];
      destruct k as [|x k]; simplify_eq/=; try done;
      apply NoDup_app in Hnd as (_ & Hdj & _) || apply NoDup_app in Hnd' as (_ & Hdj & _);
      exfalso; eapply Hdj; eauto; constructor.
  - intros e [= <-]. apply check_states_err in Hc as (? & ? & ? & -> & _). eauto.
Qed.

(** On a well-formed definition the planner is the definition's transition
    table: it returns a rule exactly when that rule is the one for this event
    and state (so the lookup is deterministic), and answers
    [IllegalTransition], naming entity, machine, event and state, exactly when
    the table has no such rule. *)
Theorem plan_transition_table (def : MachineDefinition) (cs ev e : string) :
  well_formed def →
  (∀ r, FsmPlanner.plan_transition def cs ev e = Ok r ↔
        r ∈ md_transitions def ∧ rule_event r = ev ∧ cs ∈ rule_from_states r)
  ∧ (∀ err, FsmPlanner.plan_transition def cs ev e = Err err ↔
        err = IllegalTransition e (md_name def) ev cs
        ∧ ∀ r, r ∈ md_transitions def → rule_event r = ev → cs ∉ rule_from_states r).
Proof.
  intros Hwf. split; [|intros err; apply plan_transition_err].
  intros r. split; [apply plan_transition_elem|]. intros (Hr & Hev & Hcs).
  destruct (FsmPlanner.plan_transition def cs ev e) as [r'|err] eqn:Hp.
  - apply plan_transition_elem in Hp as (?&?&?). f_equal.
    by eapply (well_formed_rule_unique def ev cs).
  - apply plan_transition_err in Hp as (_ & Hno). by destruct (Hno r).
Qed.

(** [validate_guards] succeeds exactly when every guard of the rule has a
    [true] entry in the results map, and otherwise reports [GuardFailed] for the
    first guard in rule order whose entry is [false] or missing. *)
Theorem validate_guards_first_failure (rule : TransitionRule) (res : gmap string bool) :
  (FsmPlanner.validate_guards rule res = Ok tt ↔
     ∀ g, g ∈ rule_guards rule → res !! g = Some true)
  ∧ (∀ err, FsmPlanner.validate_guards rule res = Err err ↔
     ∃ g l1 l2, rule_guards rule = l1 ++ g :: l2
       ∧ err = GuardFailed g "guard evaluated to false"
       ∧ res !! g ≠ Some true ∧ ∀ g', g' ∈ l1 → res !! g' = Some true).
Proof. split; [apply check_guards_ok|intros; apply check_guards_err]. Qed.

(** [MachineBuilder::build] only yields well-formed definitions carrying
    what the builder collected, and it yields one whenever a name and an initial
    state were given and the collected parts are well formed. *)
Theorem build_well_formed (now : Time) (b : Builder.MachineBuilder) (def : MachineDefinition) :
  Builder.build now b = Ok def ↔
  Builder.mb_name b = Some (md_name def)
  ∧ Builder.mb_initial_state b = Some (md_initial_state def)
  ∧ md_version def = Builder.mb_version b ∧ md_states def = Builder.mb_states b
  ∧ md_transitions def = Builder.mb_transitions b
  ∧ md_effects def = Builder.mb_effects b ∧ md_created_at def = now
  ∧ well_formed def.
Proof.
  unfold Builder.build. destruct (Builder.mb_name b) as [n|]; simpl; [|naive_solver].
  destruct (Builder.mb_initial_state b) as [i|]; simpl; [|naive_solver].
  match goal with |- context [Machine.validate ?d] => set (d0 := d) end.
  split.
  - destruct (Machine.validate d0) as [[]|e] eqn:Hv; simpl; [|done]. intros [= <-].
    apply validate_well_formed in Hv. naive_solver.
  - intros ([= Hn] & [= Hi] & Hv & Hs & Ht & He & Hc & Hwf).
    assert (d0 = def) as ->.
    { destruct def; unfold d0; simpl in *. by subst. }
    apply validate_well_formed in Hwf. by rewrite Hwf.
Qed.

(** ** Examples: the fulfillment machine of the repository's tests *)

Definition fulfillment_builder : Builder.MachineBuilder :=
  Builder.effect "ship" "notify_customer" None $
  Builder.transition "cancel" ["pending"; "paid"; "packed"] "canceled" $
  Builder.transition "deliver" ["shipped"] "delivered" $
  Builder.transition_with_guards "ship" ["packed"] "shipped" ["payment_captured"] $
  Builder.transition "pack" ["paid"] "packed" $
  Builder.transition "pay" ["pending"] "paid" $
  Builder.initial_state "pending" $
  Builder.states ["pending"; "paid"; "packed"; "shipped"; "delivered"; "canceled"] $
  Builder.version 1 $ Builder.name "fulfillment" Builder.new.

Definition fulfillment : MachineDefinition :=
  {| md_name := "fulfillment"; md_version := 1;
     md_states := ["pending"; "paid"; "packed"; "shipped"; "delivered"; "canceled"];
     md_initial_state := "pending";
     md_transitions := Builder.mb_transitions fulfillment_builder;
     md_effects := Builder.mb_effects fulfillment_builder; md_created_at := 0 |}.

Example fulfillment_builds : Builder.build 0 fulfillment_builder = Ok fulfillment.
Proof. vm_compute. reflexivity. Qed.

Lemma fulfillment_well_formed : well_formed fulfillment.
Proof. apply validate_well_formed. vm_compute. reflexivity. Qed.

Lemma plan_transition_table_witness :
  ∃ r, FsmPlanner.plan_transition fulfillment "packed" "cancel" "order_1" = Ok r
       ∧ rule_to_state r = "canceled".
Proof.
  destruct (plan_transition_table fulfillment "packed" "cancel" "order_1"
              fulfillment_well_formed) as [Hok _].
  exists {| rule_event := "cancel"; rule_from_states := ["pending"; "paid"; "packed"];
            rule_to_state := "canceled"; rule_guards := [] |}.
  split; [apply Hok; split_and!; [|reflexivity|]|reflexivity].
  - apply list_elem_of_lookup_2 with 4. reflexivity.
  - apply list_elem_of_lookup_2 with 2. reflexivity.
Defined.
