(* ===== verification/Redb.v ===== *)
(** * The third-party code the storage engine is written against

    - [redb] tables: ordered maps with [get], [insert], [iter] and
      [range(start..)], as the class [Redb] with its laws [RedbOk]; keys are
      ordered by [RedbKey] ([u64] numerically, [&str] bytewise).
    - [redb] transactions: the class [RedbTx] with its laws [RedbTxOk]: every
      call may fail; a read or a failed commit leaves the committed state alone
      and a successful commit installs the staged one (dropping a transaction
      discards it).
    - [rmp_serde]: the class [Serde] with the round-trip law [SerdeOk].

    The storage and engine models take these classes as parameters. Each class
    has an instance here: tables as [gmap]s iterated in key order, the
    transaction layer [ideal] that never fails and the layer [faulty] that fails
    on a given schedule, and an encoding of every countable type. *)
From S2P Require Import Prelude.

(** ** Ordered keys *)

Class RedbKey (K : Type) : Type := {
  key_eq_dec :: EqDecision K;
  key_countable :: Countable K;
  key_le : relation K;
  key_le_dec :: RelDecision key_le;
  key_le_order :: PartialOrder key_le;
  key_le_total :: Total key_le;
}.

#[export] Instance N_key : RedbKey N := {| key_le := N.le |}.

#[export] Instance string_key : RedbKey string := {| key_le := String.le |}.

(** ** Tables *)

Class Redb : Type := {
  table (K : Type) (HK : RedbKey K) (V : Type) : Type;
  t_empty {K V : Type} {HK : RedbKey K} : table K HK V;
  t_get {K V : Type} {HK : RedbKey K} : table K HK V → K → option V;
  t_insert {K V : Type} {HK : RedbKey K} : table K HK V → K → V → table K HK V;
  t_iter {K V : Type} {HK : RedbKey K} : table K HK V → list (K * V);
  t_range {K V : Type} {HK : RedbKey K} : table K HK V → K → list (K * V);
}.
Arguments table {_} K {HK} V.

Class RedbOk (R : Redb) : Prop := {
  get_empty {K V} {HK : RedbKey K} (k : K) : t_get (V:=V) t_empty k = None;
  get_insert {K V} {HK : RedbKey K} (t : table K V) (k k' : K) (v : V) :
    t_get (t_insert t k v) k' = if decide (k = k') then Some v else t_get t k';
  iter_sorted {K V} {HK : RedbKey K} (t : table K V) :
    StronglySorted key_le (t_iter t).*1;
  iter_nodup {K V} {HK : RedbKey K} (t : table K V) : NoDup (t_iter t).*1;
  iter_elem {K V} {HK : RedbKey K} (t : table K V) (k : K) (v : V) :
    (k, v) ∈ t_iter t ↔ t_get t k = Some v;
  range_iter {K V} {HK : RedbKey K} (t : table K V) (start : K) :
    t_range t start = filter (λ kv, key_le start kv.1) (t_iter t);
}.

(** ** Transactions *)

(** [S] is the type of the staged tables. [tx_call] stands for any call on an
    open transaction or table; [tx_begin] opens a transaction. *)
Class RedbTx (S : Type) : Type := {
  db : Type;
  snapshot : db → S;
  healthy : db → Prop;
  tx_begin : db → Res unit string * db;
  tx_call : db → Res unit string * db;
  tx_commit : db → S → Res unit string * db;
}.
Arguments db {_} _.

Class RedbTxOk {S : Type} (T : RedbTx S) : Prop := {
  begin_snapshot d r d' : tx_begin d = (r, d') → snapshot d' = snapshot d;
  call_snapshot d r d' : tx_call d = (r, d') → snapshot d' = snapshot d;
  commit_ok d t d' : tx_commit d t = (Ok tt, d') → snapshot d' = t;
  commit_err d t m d' : tx_commit d t = (Err m, d') → snapshot d' = snapshot d;
  healthy_begin d : healthy d → ∃ d', tx_begin d = (Ok tt, d') ∧ healthy d';
  healthy_call d : healthy d → ∃ d', tx_call d = (Ok tt, d') ∧ healthy d';
  healthy_commit d t : healthy d → ∃ d', tx_commit d t = (Ok tt, d') ∧ healthy d';
}.

(** ** MessagePack *)

Abbreviation bytes := (list Byte.byte) (only parsing).

(** [rmp_serde::to_vec] / [to_vec_named] and [from_slice]; the errors are the
    displayed messages. *)
Class Serde (A : Type) : Type := {
  to_vec : A → Res bytes string;
  from_slice : bytes → Res A string;
}.

(** What decodes from an encoding; [canon] is what serialisation forgets. *)
Class SerdeOk (A : Type) {S : Serde A} (canon : A → A) : Prop :=
  from_to_vec x b : to_vec x = Ok b → from_slice b = Ok (canon x).

(** ** Facts about ordered tables *)

Section tables.
Context {R : Redb} {RO : RedbOk R} {K V : Type} {HK : RedbKey K}.
Implicit Types (t : table K V) (k : K) (v : V).

Lemma get_insert_eq t k v : t_get (t_insert t k v) k = Some v.
Proof. rewrite get_insert. by case_decide. Qed.

Lemma get_insert_ne t k k' v : k ≠ k' → t_get (t_insert t k v) k' = t_get t k'.
Proof. intros. rewrite get_insert. by case_decide. Qed.

(** Two key-sorted lists with the same entries and no repeated key agree. *)
Lemma sorted_entries_unique (l1 l2 : list (K * V)) :
  StronglySorted key_le l1.*1 → StronglySorted key_le l2.*1 →
  NoDup l1.*1 → NoDup l2.*1 → (∀ kv, kv ∈ l1 ↔ kv ∈ l2) → l1 = l2.
Proof.
  intros S1 S2 N1 N2 Heq.
  assert (l1 ≡ₚ l2) as Hp.
  { apply NoDup_Permutation; eauto using NoDup_fmap_1. }
  assert (l1.*1 = l2.*1) as Hk.
  { apply (StronglySorted_unique key_le); auto. by apply Permutation_map. }
  clear S1 S2 N2 Hp.
  revert l2 Heq Hk N1. induction l1 as [|[k v] l1 IH]; intros [|[k2 v2] l2] Heq Hk N1;
    simplify_eq/=; [done|].
  apply NoDup_cons in N1 as [Hk1 N1].
  assert (v = v2) as <-.
  { assert ((k2, v) ∈ (k2, v2) :: l2) as [Hh|Hin]%elem_of_cons.
    { apply Heq. constructor. }
    - by simplify_eq.
    - exfalso. apply Hk1. rewrite H0. apply list_elem_of_fmap. by exists (k2, v). }
  f_equal. apply IH; [|done|done]. intros [k' v'].
  assert (k' = k2 → (k', v') ∉ l1 ∧ (k', v') ∉ l2) as Hno.
  { intros ->. split; intros Hin; apply Hk1; [|rewrite H0];
      apply list_elem_of_fmap; by exists (k2, v'). }
  specialize (Heq (k', v')). rewrite !elem_of_cons in Heq.
  destruct (decide (k' = k2)) as [E|E]; [naive_solver|].
  split; intros Hin; [destruct (proj1 Heq (or_intror Hin))|destruct (proj2 Heq (or_intror Hin))];
    naive_solver.
Qed.

Lemma iter_unique t (l : list (K * V)) :
  StronglySorted key_le l.*1 → NoDup l.*1 →
  (∀ k v, (k, v) ∈ l ↔ t_get t k = Some v) → t_iter t = l.
Proof.
  intros HS HN Heq. apply sorted_entries_unique;
    [apply iter_sorted|done|apply iter_nodup|done|].
  intros [k v]. by rewrite iter_elem, Heq.
Qed.

Lemma iter_empty : t_iter (V:=V) (t_empty (K:=K)) = [].
Proof.
  apply iter_unique; [constructor|constructor|]. intros k v. rewrite get_empty. set_solver.
Qed.

(** A key above every present one is appended to the iteration. *)
Lemma iter_insert_last t k v :
  (∀ k', is_Some (t_get t k') → key_le k' k ∧ k' ≠ k) →
  t_iter (t_insert t k v) = t_iter t ++ [(k, v)].
Proof.
  intros Hlast.
  assert (∀ k', k' ∈ (t_iter t).*1 → key_le k' k ∧ k' ≠ k) as Hlast'.
  { intros k' ([k'' v'] & -> & Hin)%list_elem_of_fmap. apply Hlast.
    apply iter_elem in Hin. simpl. rewrite Hin. eauto. }
  apply iter_unique.
  - rewrite fmap_app. apply StronglySorted_app_2; [|apply iter_sorted|repeat constructor].
    intros x1 x2 H1 ->%list_elem_of_singleton. by apply Hlast'.
  - rewrite fmap_app. apply NoDup_app. split_and!; [apply iter_nodup| |apply NoDup_singleton].
    intros x H1 ->%list_elem_of_singleton. by destruct (Hlast' k H1).
  - intros k' v'. rewrite elem_of_app, iter_elem, list_elem_of_singleton, get_insert.
    case_decide as E; [subst|naive_solver].
    split; [|naive_solver]. intros [H|H]; [|naive_solver].
    destruct (Hlast k'); eauto. done.
Qed.

(** The iteration is strictly increasing in the keys. *)
Lemma iter_strict t :
  StronglySorted (λ x y, key_le x.1 y.1 ∧ x.1 ≠ y.1) (t_iter t).
Proof.
  pose proof (iter_sorted t) as HS. pose proof (iter_nodup t) as HN.
  induction (t_iter t) as [|x l IH]; [constructor|]. cbn in HS, HN.
  apply StronglySorted_cons in HS as [Hall HS]. apply NoDup_cons in HN as [Hx HN].
  constructor; [auto|]. apply Forall_forall. intros y Hy.
  assert (y.1 ∈ l.*1) as Hy1 by by apply list_elem_of_fmap_2.
  rewrite Forall_forall in Hall. split; [by apply Hall|]. intros Heq. by rewrite Heq in Hx.
Qed.

Lemma get_iter_None t k : t_get t k = None ↔ ∀ v, (k, v) ∉ t_iter t.
Proof.
  split.
  - intros Hn v Hin. apply iter_elem in Hin. congruence.
  - intros Hno. destruct (t_get t k) as [v|] eqn:E; [|done].
    destruct (Hno v). by apply iter_elem.
Qed.

End tables.

#[export] Hint Rewrite @get_insert_eq @get_empty using done : redb.

(** ** Instances *)

(** Tables as finite maps, iterated in key order. *)
Definition fst_le {K V} {HK : RedbKey K} (x y : K * V) : Prop := key_le x.1 y.1.
#[export] Instance fst_le_dec {K V} {HK : RedbKey K} : RelDecision (fst_le (K:=K) (V:=V)) :=
  λ x y, decide (key_le x.1 y.1).

#[export] Instance fst_le_trans {K V} {HK : RedbKey K} : Transitive (fst_le (K:=K) (V:=V)).
Proof. intros x y z H1 H2. unfold fst_le in *. by etrans. Qed.
#[export] Instance fst_le_total {K V} {HK : RedbKey K} : Total (fst_le (K:=K) (V:=V)).
Proof. intros x y. apply (total key_le). Qed.

Definition gmap_iter {K V} {HK : RedbKey K} (m : gmap K V) : list (K * V) :=
  merge_sort fst_le (map_to_list m).

Definition gmap_redb : Redb := {|
  table K HK V := gmap K V;
  t_empty K V HK := ∅;
  t_get K V HK m k := m !! k;
  t_insert K V HK m k v := <[k:=v]> m;
  t_iter K V HK m := gmap_iter m;
  t_range K V HK m start := filter (λ kv, key_le start kv.1) (gmap_iter m);
|}.

Lemma gmap_iter_perm {K V} {HK : RedbKey K} (m : gmap K V) :
  gmap_iter m ≡ₚ map_to_list m.
Proof. apply merge_sort_Permutation. Qed.

Lemma StronglySorted_fst {K V} (R : relation K) (l : list (K * V)) :
  StronglySorted (λ x y, R x.1 y.1) l → StronglySorted R l.*1.
Proof.
  induction 1 as [|x l HS IH Hall]; simpl; constructor; [done|].
  rewrite Forall_fmap. done.
Qed.

#[export] Instance gmap_redb_ok : RedbOk gmap_redb.
Proof.
  split; simpl.
  - intros. apply lookup_empty.
  - intros. rewrite lookup_insert. done.
  - intros K V HK m. apply StronglySorted_fst. unfold gmap_iter.
    apply (StronglySorted_merge_sort fst_le _).
  - intros K V HK m. rewrite gmap_iter_perm. apply NoDup_fst_map_to_list.
  - intros K V HK m k v. rewrite gmap_iter_perm. apply elem_of_map_to_list.
  - done.
Qed.

(** A transaction layer that never fails. *)
Definition ideal (S : Type) : RedbTx S := {|
  db := S;
  snapshot s := s;
  healthy _ := True;
  tx_begin s := (Ok tt, s);
  tx_call s := (Ok tt, s);
  tx_commit _ t := (Ok tt, t);
|}.

#[export] Instance ideal_ok (S : Type) : RedbTxOk (ideal S).
Proof. split; simpl; naive_solver. Qed.

(** A transaction layer that fails on a schedule: [Some m] at the head of the
    schedule makes the next call fail with message [m]. *)
Definition faulty_call {S : Type} (d : S * list (option string))
    : Res unit string * (S * list (option string)) :=
  match d with
  | (s, Some m :: fs) => (Err m, (s, fs))
  | (s, None :: fs) => (Ok tt, (s, fs))
  | (s, []) => (Ok tt, (s, []))
  end.

Definition faulty (S : Type) : RedbTx S := {|
  db := S * list (option string);
  snapshot := fst;
  healthy d := d.2 = [];
  tx_begin := faulty_call;
  tx_call := faulty_call;
  tx_commit d t := match faulty_call d with
                   | (Ok _, (_, fs)) => (Ok tt, (t, fs))
                   | (Err m, d') => (Err m, d')
                   end;
|}.

#[export] Instance faulty_ok (S : Type) : RedbTxOk (faulty S).
Proof.
  split; simpl; unfold faulty_call.
  1,2: intros [s [|[m|] fs]] r d' [= <- <-]; done.
  1,2: intros [s [|[m'|] fs]]; intros; simplify_eq/=; done.
  all: intros [s fs]; simpl; intros; simplify_eq/=; eauto.
Qed.

(** Every countable type has an encoding: its code, bit by bit. *)
Fixpoint pos_bytes (p : positive) : bytes :=
  match p with
  | xH => []
  | xO p => Byte.x00 :: pos_bytes p
  | xI p => Byte.x01 :: pos_bytes p
  end.

Fixpoint bytes_pos (b : bytes) : positive :=
  match b with
  | [] => xH
  | Byte.x00 :: b => xO (bytes_pos b)
  | _ :: b => xI (bytes_pos b)
  end.

Lemma bytes_pos_bytes p : bytes_pos (pos_bytes p) = p.
Proof. induction p; simpl; by f_equal. Qed.

Definition countable_serde {A} `{Countable A} (canon : A → A) : Serde A := {|
  to_vec x := Ok (pos_bytes (encode x));
  from_slice b := match decode (bytes_pos b) with
                  | Some x => Ok (canon x)
                  | None => Err "invalid data"
                  end;
|}.

Lemma countable_serde_ok {A} `{Countable A} (canon : A → A) :
  SerdeOk A (S := countable_serde canon) canon.
Proof.
  intros x b [= <-]. simpl. by rewrite bytes_pos_bytes, decode_encode.
Qed.
