(* ===== verification/Keys.v ===== *)
(** * Key formats of the redb tables

    Models the key builders of [RedbEngine] (the [*_key] and [*_prefix]
    functions of [crates/smdb-storage/src/redb_engine.rs]) and the string
    operations they and their readers use: NUL separators, the zero-padded
    [{:020}] format, [starts_with], [contains] and the bytewise key order. *)
From S2P Require Import Prelude.
From Stdlib Require Import Ascii.

(** The separator ["\x00"]. *)
Definition nul : string := String "000" EmptyString.

(** [format!("{:0w}", n)] for [n] of at most [w] digits. *)
Definition digit (d : N) : ascii := ascii_of_N (48 + d).
Fixpoint dec_pad (w : nat) (n : N) : string :=
  match w with
  | 0 => EmptyString
  | S w => String (digit (n / 10 ^ N.of_nat w)) (dec_pad w (n mod 10 ^ N.of_nat w))
  end.

Definition entity_state_key (entity_id machine : string) : string :=
  entity_id +:+ nul +:+ machine.

Definition entity_transition_key (entity_id machine : string) (seq : N) : string :=
  entity_id +:+ nul +:+ machine +:+ nul +:+ dec_pad 20 seq.

Definition entity_transition_prefix (entity_id machine : string) : string :=
  entity_id +:+ nul +:+ machine +:+ nul.

Definition effect_by_txn_key (transition_id effect_id : string) : string :=
  transition_id +:+ nul +:+ effect_id.

Definition effect_by_txn_prefix (transition_id : string) : string :=
  transition_id +:+ nul.

(** [str::starts_with] and [str::contains]. *)
Definition starts_with (s p : string) : bool := String.prefix p s.
Fixpoint contains (s p : string) : bool :=
  String.prefix p s
  || match s with EmptyString => false | String _ s' => contains s' p end.

(** Strings without a NUL byte. *)
Fixpoint nul_free (s : string) : bool :=
  match s with
  | EmptyString => true
  | String c s => negb (Ascii.eqb c "000") && nul_free s
  end.

(** ** Appending *)

Lemma app_nil_string (s : string) : EmptyString +:+ s = s.
Proof. reflexivity. Qed.

Lemma app_nil_r_string (s : string) : s +:+ EmptyString = s.
Proof. induction s as [|c s IH]; [done|]. change (String c (s +:+ EmptyString) = String c s). by rewrite IH. Qed.

Lemma app_cons_string c (s t : string) : String c s +:+ t = String c (s +:+ t).
Proof. reflexivity. Qed.

Lemma app_assoc_string (a b c : string) : (a +:+ b) +:+ c = a +:+ (b +:+ c).
Proof.
  induction a as [|x a IH]; [done|]. rewrite !app_cons_string. by f_equal.
Qed.

Lemma app_inj_string (p a b : string) : p +:+ a = p +:+ b → a = b.
Proof.
  induction p as [|c p IH]; [done|]. rewrite !app_cons_string. intros [= H]. auto.
Qed.

(** A NUL-free string up to the first separator is determined. *)
Lemma split_nul (a b x y : string) :
  nul_free a = true → nul_free b = true →
  a +:+ nul +:+ x = b +:+ nul +:+ y → a = b ∧ x = y.
Proof.
  revert b. unfold nul. induction a as [|c a IH]; intros [|d b]; simpl;
    rewrite ?app_cons_string, ?app_nil_string, ?app_cons_string, ?app_nil_string.
  - intros _ _ H. by injection H.
  - intros _ Hd H. injection H as <- _. done.
  - intros Hc _ H. injection H as -> _. done.
  - intros [_ Ha]%andb_true_iff [_ Hb]%andb_true_iff H. injection H as -> H.
    destruct (IH b Ha Hb H) as [-> ->]. done.
Qed.

(** ** Prefixes *)

Lemma starts_with_spec (s p : string) : starts_with s p = true ↔ ∃ t, s = p +:+ t.
Proof.
  unfold starts_with. revert s. induction p as [|c p IH]; intros s; simpl.
  - split; [intros _; by exists s|intros _; by destruct s].
  - destruct s as [|d s]; [split; [done|by intros (t & [=])]|].
    assert (String.prefix (String c p) (String d s) = true
            ↔ c = d ∧ String.prefix p s = true) as ->.
    { simpl. destruct (ascii_dec c d); naive_solver. }
    rewrite IH. setoid_rewrite app_cons_string.
    split; [intros [-> (t & ->)]; eauto|]. intros (t & [= -> ->]). eauto.
Qed.

(** The projection key of an entity contains the machine it belongs to. *)
Lemma contains_suffix (e m : string) : contains (entity_state_key e m) (nul +:+ m) = true.
Proof.
  unfold entity_state_key. induction e as [|c e IH].
  - rewrite app_nil_string. destruct (nul +:+ m) as [|d s] eqn:E; [done|].
    cbn [contains]. apply orb_true_iff. left.
    change (starts_with (String d s) (String d s) = true).
    apply starts_with_spec. exists EmptyString. by rewrite app_nil_r_string.
  - rewrite app_cons_string. cbn [contains]. rewrite IH. apply orb_true_r.
Qed.

Lemma entity_transition_prefix_match (e m e' m' : string) (seq : N) :
  nul_free e = true → nul_free m = true → nul_free e' = true → nul_free m' = true →
  starts_with (entity_transition_key e' m' seq) (entity_transition_prefix e m) = true
  ↔ e' = e ∧ m' = m.
Proof.
  intros He Hm He' Hm'. rewrite starts_with_spec.
  unfold entity_transition_key, entity_transition_prefix. split.
  - intros (t & Heq). rewrite !app_assoc_string in Heq.
    apply split_nul in Heq as [<- Heq]; [|done|done].
    apply split_nul in Heq as [<- _]; done.
  - intros [-> ->]. exists (dec_pad 20 seq). by rewrite !app_assoc_string.
Qed.

Lemma entity_state_key_inj (e m e' m' : string) :
  nul_free e = true → nul_free e' = true →
  entity_state_key e m = entity_state_key e' m' → e = e' ∧ m = m'.
Proof. intros. by apply split_nul. Qed.

Lemma effect_by_txn_prefix_match (t t' e : string) :
  nul_free t = true → nul_free t' = true →
  starts_with (effect_by_txn_key t' e) (effect_by_txn_prefix t) = true ↔ t' = t.
Proof.
  intros Ht Ht'. rewrite starts_with_spec. unfold effect_by_txn_key, effect_by_txn_prefix.
  split.
  - intros (x & Heq). rewrite !app_assoc_string in Heq. by apply split_nul in Heq as [<- _].
  - intros ->. exists e. by rewrite !app_assoc_string.
Qed.

(** ** The byte order *)

Lemma string_le_app (p a b : string) : String.le (p +:+ a) (p +:+ b) ↔ String.le a b.
Proof.
  unfold String.le, String.leb. induction p as [|c p IH]; [done|].
  rewrite !app_cons_string. simpl. unfold Ascii.compare. by rewrite N.compare_refl.
Qed.

Lemma string_le_cons c (a : string) d (b : string) :
  String.le (String c a) (String d b) ↔
  (N_of_ascii c < N_of_ascii d)%N ∨ c = d ∧ String.le a b.
Proof.
  unfold String.le, String.leb. simpl. unfold Ascii.compare.
  destruct (N.compare_spec (N_of_ascii c) (N_of_ascii d)) as [Heq|Hlt|Hgt].
  - apply (f_equal ascii_of_N) in Heq. rewrite !ascii_N_embedding in Heq. subst.
    split; [by right|]. intros [?|[_ ?]]; [lia|done].
  - split; [by left|done].
  - split; [done|]. intros [?|[-> _]]; lia.
Qed.

(** The strings with a given prefix are an interval of the byte order. *)
Lemma prefix_interval (p k x : string) :
  String.le p k → String.le k (p +:+ x) → ∃ y, k = p +:+ y.
Proof.
  revert k. induction p as [|c p IH]; intros k H1 H2; [by exists k|].
  destruct k as [|d k]; [done|]. rewrite app_cons_string in H2.
  apply string_le_cons in H1. apply string_le_cons in H2.
  assert (c = d ∧ String.le p k ∧ String.le k (p +:+ x)) as (<- & H1' & H2').
  { destruct H1 as [?|[-> ?]], H2 as [?|[? ?]]; subst; first [lia|done]. }
  destruct (IH k H1' H2') as [y ->]. by exists y.
Qed.

Lemma digit_N (d : N) : (d < 10)%N → N_of_ascii (digit d) = (48 + d)%N.
Proof. intros. unfold digit. apply N_ascii_embedding. lia. Qed.

Lemma div_lt_10 (w : nat) (n : N) :
  (n < 10 ^ N.of_nat (S w) → n / 10 ^ N.of_nat w < 10)%N.
Proof.
  intros H. apply N.Div0.div_lt_upper_bound.
  rewrite Nat2N.inj_succ, N.pow_succ_r' in H. lia.
Qed.

Lemma mod_lt_pow (w : nat) (n : N) : (n mod 10 ^ N.of_nat w < 10 ^ N.of_nat w)%N.
Proof. apply N.mod_lt. apply N.pow_nonzero. lia. Qed.

(** Zero padding preserves the numeric order. *)
Lemma dec_pad_lt (w : nat) (n m : N) :
  (m < 10 ^ N.of_nat w)%N → (n < m)%N → (dec_pad w n ?= dec_pad w m)%string = Lt.
Proof.
  revert n m. induction w as [|w IH]; intros n m Hm Hnm; [simpl in Hm; lia|].
  assert (n < 10 ^ N.of_nat (S w))%N as Hn by lia.
  pose proof (div_lt_10 w n Hn) as Hdn. pose proof (div_lt_10 w m Hm) as Hdm.
  pose proof (mod_lt_pow w m) as Hmm.
  cbn [dec_pad]. set (P := (10 ^ N.of_nat w)%N) in *.
  assert (P ≠ 0)%N as HP by (apply N.pow_nonzero; lia).
  pose proof (N.div_mod' n P) as En. pose proof (N.div_mod' m P) as Em.
  assert (n / P <= m / P)%N as Hle by (apply N.Div0.div_le_mono; lia).
  unfold String.compare; fold String.compare. unfold Ascii.compare.
  rewrite !digit_N by done.
  destruct (decide (n / P = m / P)%N) as [Heq|Hne].
  - rewrite Heq, N.compare_refl. apply IH; [done|]. rewrite Heq in En. lia.
  - assert (48 + n / P ?= 48 + m / P = Lt)%N as -> by (apply N.compare_lt_iff; lia). done.
Qed.

Lemma dec_pad_le (w : nat) (n m : N) :
  (m < 10 ^ N.of_nat w)%N → (n <= m)%N → String.le (dec_pad w n) (dec_pad w m).
Proof.
  intros Hm [Hlt| ->]%N.le_lteq; [|done].
  unfold String.le, String.leb. by rewrite dec_pad_lt.
Qed.

Lemma dec_pad_inj (w : nat) (n m : N) :
  (n < 10 ^ N.of_nat w)%N → (m < 10 ^ N.of_nat w)%N → dec_pad w n = dec_pad w m → n = m.
Proof.
  intros Hn Hm Heq. destruct (N.lt_trichotomy n m) as [H|[H|H]]; [|done|].
  - pose proof (dec_pad_lt w n m Hm H) as Hc. rewrite Heq in Hc.
    pose proof (String.compare_antisym (dec_pad w m) (dec_pad w m)) as Ha. by rewrite Hc in Ha.
  - pose proof (dec_pad_lt w m n Hn H) as Hc. rewrite Heq in Hc.
    pose proof (String.compare_antisym (dec_pad w m) (dec_pad w m)) as Ha. by rewrite Hc in Ha.
Qed.

Lemma dec_pad_nul_free (w : nat) (n : N) :
  (n < 10 ^ N.of_nat w)%N → nul_free (dec_pad w n) = true.
Proof.
  revert n. induction w as [|w IH]; intros n Hn; [done|]. simpl.
  rewrite IH by apply mod_lt_pow. rewrite andb_true_r. apply negb_true_iff, Ascii.eqb_neq.
  intros Heq%(f_equal N_of_ascii). rewrite digit_N in Heq by by apply div_lt_10.
  assert (48 + n / 10 ^ N.of_nat w = 0)%N as H0 by exact Heq. clear -H0.
  generalize dependent (n / 10 ^ N.of_nat w)%N. lia.
Qed.

Lemma u64_20_digits (n : N) : (n <= u64_max)%N → (n < 10 ^ N.of_nat 20)%N.
Proof. unfold u64_max. change (10 ^ N.of_nat 20)%N with 100000000000000000000%N. lia. Qed.

Lemma entity_transition_key_inj (e m e' m' : string) (n n' : N) :
  nul_free e = true → nul_free m = true → nul_free e' = true → nul_free m' = true →
  (n <= u64_max)%N → (n' <= u64_max)%N →
  entity_transition_key e m n = entity_transition_key e' m' n' →
  e = e' ∧ m = m' ∧ n = n'.
Proof.
  intros He Hm He' Hm' Hn Hn'. unfold entity_transition_key.
  intros [-> [-> Heq]%split_nul]%split_nul; try done.
  split_and!; [done..|]. eapply dec_pad_inj; eauto using u64_20_digits.
Qed.

Lemma entity_transition_key_le (e m : string) (n n' : N) :
  (n' <= u64_max)%N → (n <= n')%N →
  String.le (entity_transition_key e m n) (entity_transition_key e m n').
Proof.
  intros Hn' Hle. unfold entity_transition_key. rewrite !string_le_app.
  by apply dec_pad_le; [apply u64_20_digits|].
Qed.

#[export] Hint Resolve entity_transition_key_inj entity_state_key_inj u64_20_digits : keys.

(** ** Properties *)

(** The entity index is sound for identifiers without NUL: a key of the index
    starts with the prefix of an entity and a machine exactly when it belongs to
    that entity in that machine, keys of different entries differ, and within
    one entity the byte order of the keys is the order of the sequence numbers
    over the whole 64-bit range. *)
Theorem entity_index_sound (e m e' m' : string) (n n' : N) :
  nul_free e = true → nul_free m = true → nul_free e' = true → nul_free m' = true →
  (n <= u64_max)%N → (n' <= u64_max)%N →
  (starts_with (entity_transition_key e' m' n) (entity_transition_prefix e m) = true
     ↔ e' = e ∧ m' = m)
  ∧ (entity_transition_key e m n = entity_transition_key e' m' n' ↔ e = e' ∧ m = m' ∧ n = n')
  ∧ (String.le (entity_transition_key e m n) (entity_transition_key e m n') ↔ (n <= n')%N).
Proof.
  intros He Hm He' Hm' Hn Hn'. split_and!.
  - rewrite entity_transition_prefix_match by done. naive_solver.
  - split; [by apply entity_transition_key_inj|]. by intros (-> & -> & ->).
  - split; [|by apply entity_transition_key_le]. intros Hle.
    destruct (N.le_gt_cases n n') as [|Hgt]; [done|].
    pose proof (entity_transition_key_le e m n' n Hn ltac:(lia)) as Hle'.
    assert (entity_transition_key e m n = entity_transition_key e m n') as Heq
      by by apply (anti_symm String.le).
    apply entity_transition_key_inj in Heq as (_ & _ & ->); done.
Qed.

Lemma entity_index_sound_witness :
  (starts_with (entity_transition_key "doc-1" "document" 9)
     (entity_transition_prefix "doc-1" "document") = true
     ↔ "doc-1" = "doc-1" ∧ "document" = "document")
  ∧ (entity_transition_key "doc-1" "document" 9 = entity_transition_key "doc-1" "document" 10
     ↔ "doc-1" = "doc-1" ∧ "document" = "document" ∧ 9%N = 10%N)
  ∧ (String.le (entity_transition_key "doc-1" "document" 9)
       (entity_transition_key "doc-1" "document" 10) ↔ (9 <= 10)%N).
Proof. apply (entity_index_sound "doc-1" "document" "doc-1" "document" 9 10); done. Defined.

(** Identifiers that contain a NUL byte break the isolation: two different
    (entity, machine) pairs share one projection key, and the index entries of
    one pair are found under the prefix of another. *)
Theorem nul_ids_collide (a b c : string) (n : N) :
  entity_state_key (a +:+ nul +:+ b) c = entity_state_key a (b +:+ nul +:+ c)
  ∧ starts_with (entity_transition_key a (b +:+ nul +:+ c) n) (entity_transition_prefix a b) = true.
Proof.
  unfold entity_state_key, entity_transition_key, entity_transition_prefix. split.
  - by rewrite !app_assoc_string.
  - apply starts_with_spec. exists (c +:+ nul +:+ dec_pad 20 n). by rewrite !app_assoc_string.
Qed.
