(* ===== verification/Storage.v ===== *)
(** * smdb-storage: the [RedbEngine]

    Models [crates/smdb-storage/src/redb_engine.rs] (every method of
    [impl StorageEngine for RedbEngine] and its helpers) and [error.rs], over
    the [redb] and [rmp_serde] interfaces of [Redb].

    A method is a computation [St db StorageError A]: it threads the database
    through its calls and returns on the first error, as [?] does. A write
    method stages its changes in a copy of the tables and installs them with
    [commit]; an early return drops the copy. The [write_lock] makes write
    methods sequential, which is what a state-passing function is. *)
From S2P Require Import Prelude Core Redb Keys.

(** ** Errors ([error.rs]) *)

Inductive StorageError : Type :=
| NotFound (what : string)
| AlreadyExists (what : string)
| StorageVersionConflict (entity_id : string) (expected actual : N)
| TransactionFailed (msg : string)
| Corrupted (msg : string)
| Io (msg : string)
| Internal (msg : string).

(** The [From] conversions of [error.rs]: transaction and commit errors become
    [TransactionFailed], table and storage errors [Internal], codec errors
    [Corrupted]. *)
Definition from_encode_error (e : string) : StorageError :=
  Corrupted ("serialization error: " +:+ e).
Definition from_decode_error (e : string) : StorageError :=
  Corrupted ("deserialization error: " +:+ e).

(** ** Tables *)

(** The codecs of the stored types. *)
Class Codecs : Type := {
  codec_machine :: Serde MachineDefinition;
  codec_state :: Serde EntityState;
  codec_record :: Serde TransitionRecord;
  codec_effect :: Serde Effect;
}.

Record Tables {R : Redb} : Type := {
  MACHINES : table string bytes;
  ENTITY_STATES : table string bytes;
  TRANSITIONS : table N bytes;
  TRANSITIONS_BY_ID : table string N;
  ENTITY_TRANSITIONS : table string N;
  EFFECTS : table string bytes;
  EFFECTS_BY_TXN : table string string;
  IDEMPOTENCY : table string N;
  META : table string N;
}.
Arguments Tables : clear implicits.
Arguments Tables {_}.

Definition META_SEQUENCE : string := "sequence".

Section storage.
Context {R : Redb} {C : Codecs} {T : RedbTx Tables}.

(** A fresh database after [ensure_tables]. *)
Definition empty_tables : Tables :=
  {| MACHINES := t_empty; ENTITY_STATES := t_empty; TRANSITIONS := t_empty;
     TRANSITIONS_BY_ID := t_empty; ENTITY_TRANSITIONS := t_empty;
     EFFECTS := t_empty; EFFECTS_BY_TXN := t_empty; IDEMPOTENCY := t_empty;
     META := t_empty |}.

Definition set_machines (t : Tables) x : Tables :=
  {| MACHINES := x; ENTITY_STATES := ENTITY_STATES t; TRANSITIONS := TRANSITIONS t;
     TRANSITIONS_BY_ID := TRANSITIONS_BY_ID t; ENTITY_TRANSITIONS := ENTITY_TRANSITIONS t;
     EFFECTS := EFFECTS t; EFFECTS_BY_TXN := EFFECTS_BY_TXN t;
     IDEMPOTENCY := IDEMPOTENCY t; META := META t |}.
Definition set_entity_states (t : Tables) x : Tables :=
  {| MACHINES := MACHINES t; ENTITY_STATES := x; TRANSITIONS := TRANSITIONS t;
     TRANSITIONS_BY_ID := TRANSITIONS_BY_ID t; ENTITY_TRANSITIONS := ENTITY_TRANSITIONS t;
     EFFECTS := EFFECTS t; EFFECTS_BY_TXN := EFFECTS_BY_TXN t;
     IDEMPOTENCY := IDEMPOTENCY t; META := META t |}.
Definition set_transitions (t : Tables) x by_id et : Tables :=
  {| MACHINES := MACHINES t; ENTITY_STATES := ENTITY_STATES t; TRANSITIONS := x;
     TRANSITIONS_BY_ID := by_id; ENTITY_TRANSITIONS := et;
     EFFECTS := EFFECTS t; EFFECTS_BY_TXN := EFFECTS_BY_TXN t;
     IDEMPOTENCY := IDEMPOTENCY t; META := META t |}.
Definition set_effects (t : Tables) x by_txn : Tables :=
  {| MACHINES := MACHINES t; ENTITY_STATES := ENTITY_STATES t; TRANSITIONS := TRANSITIONS t;
     TRANSITIONS_BY_ID := TRANSITIONS_BY_ID t; ENTITY_TRANSITIONS := ENTITY_TRANSITIONS t;
     EFFECTS := x; EFFECTS_BY_TXN := by_txn;
     IDEMPOTENCY := IDEMPOTENCY t; META := META t |}.
Definition set_idempotency (t : Tables) x : Tables :=
  {| MACHINES := MACHINES t; ENTITY_STATES := ENTITY_STATES t; TRANSITIONS := TRANSITIONS t;
     TRANSITIONS_BY_ID := TRANSITIONS_BY_ID t; ENTITY_TRANSITIONS := ENTITY_TRANSITIONS t;
     EFFECTS := EFFECTS t; EFFECTS_BY_TXN := EFFECTS_BY_TXN t;
     IDEMPOTENCY := x; META := META t |}.
Definition set_meta (t : Tables) x : Tables :=
  {| MACHINES := MACHINES t; ENTITY_STATES := ENTITY_STATES t; TRANSITIONS := TRANSITIONS t;
     TRANSITIONS_BY_ID := TRANSITIONS_BY_ID t; ENTITY_TRANSITIONS := ENTITY_TRANSITIONS t;
     EFFECTS := EFFECTS t; EFFECTS_BY_TXN := EFFECTS_BY_TXN t;
     IDEMPOTENCY := IDEMPOTENCY t; META := x |}.

(** ** Calls into redb and rmp_serde, each with its [?] *)

Abbreviation M A := (St (db T) StorageError A).

Definition redb_run (call : db T → Res unit string * db T) (mk : string → StorageError)
    : M unit :=
  λ d, match call d with
       | (Ok _, d') => (Ok tt, d')
       | (Err m, d') => (Err (mk m), d')
       end.

Local Open Scope st_scope.

(** [begin_read]/[begin_write]: a view of the committed tables. *)
Definition begin_tx : M Tables :=
  redb_run tx_begin TransactionFailed ;; λ d, (Ok (snapshot d), d).
Definition commit (tx : Tables) : M unit := redb_run (λ d, tx_commit d tx) TransactionFailed.
Definition open_table {A} (tbl : A) : M A := redb_run tx_call Internal ;; st_ret tbl.
Definition tbl_get {K V} {HK : RedbKey K} (tbl : table K V) (k : K) : M (option V) :=
  redb_run tx_call Internal ;; st_ret (t_get tbl k).
Definition tbl_insert {K V} {HK : RedbKey K} (tbl : table K V) (k : K) (v : V) : M (table K V) :=
  redb_run tx_call Internal ;; st_ret (t_insert tbl k v).
Definition tbl_iter {K V} {HK : RedbKey K} (tbl : table K V) : M (list (K * V)) :=
  redb_run tx_call Internal ;; st_ret (t_iter tbl).
Definition tbl_range {K V} {HK : RedbKey K} (tbl : table K V) (k : K) : M (list (K * V)) :=
  redb_run tx_call Internal ;; st_ret (t_range tbl k).
(** [let (k, v) = entry?]. *)
Definition next_entry {A} (entry : A) : M A := redb_run tx_call Internal ;; st_ret entry.
Definition encode_value {A} `{Serde A} (x : A) : M bytes :=
  st_res (map_err from_encode_error (to_vec x)).
Definition decode_value {A} `{Serde A} (b : bytes) : M A :=
  st_res (map_err from_decode_error (from_slice b)).

(** ** Opening *)

(** [ensure_tables] opens each of the nine tables once and commits. *)
Definition ensure_tables : M unit :=
  tx <- begin_tx ;;
  open_table (MACHINES tx) ;; open_table (ENTITY_STATES tx) ;;
  open_table (TRANSITIONS tx) ;; open_table (TRANSITIONS_BY_ID tx) ;;
  open_table (ENTITY_TRANSITIONS tx) ;; open_table (EFFECTS tx) ;;
  open_table (EFFECTS_BY_TXN tx) ;; open_table (IDEMPOTENCY tx) ;;
  open_table (META tx) ;;
  commit tx.

(** A database that redb has opened or created, or redb's error. *)
Definition open_database (created : Res (db T) string) : Res (db T) StorageError :=
  match created with
  | Err e => Err (Internal e)
  | Ok d => match ensure_tables d with (Ok _, d) => Ok d | (Err e, _) => Err e end
  end.

(** [RedbEngine::open]: the file at the path, as redb finds it. *)
Definition open (create : string → Res (db T) string) (path : string) : Res (db T) StorageError :=
  open_database (create path).

(** [RedbEngine::in_memory]. *)
Definition in_memory (create_with_backend : Res (db T) string) : Res (db T) StorageError :=
  open_database create_with_backend.

(** [next_sequence_in_tx]. *)
Definition next_sequence_in_tx (tx : Tables) : M (Sequence * Tables) :=
  meta <- open_table (META tx) ;;
  v <- tbl_get meta META_SEQUENCE ;;
  let next := add64 (default 0%N v) 1 in
  meta <- tbl_insert meta META_SEQUENCE next ;;
  st_ret (next, set_meta tx meta).

(** ** Machine definitions *)

Definition store_machine (machine : MachineDefinition) : M unit :=
  tx <- begin_tx ;;
  tbl <- open_table (MACHINES tx) ;;
  b <- encode_value machine ;;
  tbl <- tbl_insert tbl (md_name machine) b ;;
  commit (set_machines tx tbl).

Definition get_machine (name : string) (_version : option N) : M MachineDefinition :=
  tx <- begin_tx ;;
  tbl <- open_table (MACHINES tx) ;;
  v <- tbl_get tbl name ;;
  match v with
  | Some b => decode_value b
  | None => st_err (NotFound ("machine '" +:+ name +:+ "'"))
  end.

Fixpoint collect_machines (entries : list (string * bytes)) (results : list MachineDefinition)
    : M (list MachineDefinition) :=
  match entries with
  | [] => st_ret results
  | e :: rest =>
      kv <- next_entry e ;;
      def <- decode_value kv.2 ;;
      collect_machines rest (results ++ [def])
  end.

Definition list_machines : M (list MachineDefinition) :=
  tx <- begin_tx ;;
  tbl <- open_table (MACHINES tx) ;;
  entries <- tbl_iter tbl ;;
  collect_machines entries [].

(** ** Entity state *)

Definition get_entity_state (entity_id machine : string) : M EntityState :=
  tx <- begin_tx ;;
  tbl <- open_table (ENTITY_STATES tx) ;;
  v <- tbl_get tbl (entity_state_key entity_id machine) ;;
  match v with
  | Some b => decode_value b
  | None => st_err (NotFound
      ("entity '" +:+ entity_id +:+ "' in machine '" +:+ machine +:+ "'"))
  end.

Definition upsert_entity_state (state : EntityState) : M unit :=
  tx <- begin_tx ;;
  let key := entity_state_key (es_entity_id state) (es_machine state) in
  tbl <- open_table (ENTITY_STATES tx) ;;
  v <- tbl_get tbl key ;;
  (match v with
   | Some b =>
       existing <- decode_value b ;;
       if (1 <? es_version state)%N
          && negb (es_version existing =? es_version state - 1)%N
       then st_err (StorageVersionConflict (es_entity_id state)
                      (es_version state - 1) (es_version existing))
       else st_ret tt
   | None => st_ret tt
   end) ;;
  b <- encode_value state ;;
  tbl <- tbl_insert tbl key b ;;
  commit (set_entity_states tx tbl).

Fixpoint collect_entities (machine state_name : string) (entries : list (string * bytes))
    (results : list EntityState) : M (list EntityState) :=
  match entries with
  | [] => st_ret results
  | e :: rest =>
      kv <- next_entry e ;;
      if contains kv.1 (nul +:+ machine) then
        state <- decode_value kv.2 ;;
        collect_entities machine state_name rest
          (if bool_decide (es_machine state = machine)
              && bool_decide (es_current_state state = state_name)
           then results ++ [state] else results)
      else collect_entities machine state_name rest results
  end.

Definition list_entities_in_state (machine state_name : string) : M (list EntityState) :=
  tx <- begin_tx ;;
  tbl <- open_table (ENTITY_STATES tx) ;;
  entries <- tbl_iter tbl ;;
  collect_entities machine state_name entries [].

(** ** Transition log *)

(** The writes of one log entry: the record, the id index and the entity index. *)
Definition write_log_entry (tx : Tables) (record : TransitionRecord) (seq : Sequence)
    : M Tables :=
  b <- encode_value record ;;
  tbl <- open_table (TRANSITIONS tx) ;;
  tbl <- tbl_insert tbl seq b ;;
  by_id <- open_table (TRANSITIONS_BY_ID tx) ;;
  by_id <- tbl_insert by_id (rec_id record) seq ;;
  entity_tbl <- open_table (ENTITY_TRANSITIONS tx) ;;
  entity_tbl <- tbl_insert entity_tbl
    (entity_transition_key (rec_entity_id record) (rec_machine record) seq) seq ;;
  st_ret (set_transitions tx tbl by_id entity_tbl).

(** The result carries the record with the sequence written back into it. *)
Definition append_transition (record : TransitionRecord) : M (Sequence * TransitionRecord) :=
  tx <- begin_tx ;;
  p <- next_sequence_in_tx tx ;;
  let record := set_rec_sequence record p.1 in
  tx <- write_log_entry p.2 record p.1 ;;
  commit tx ;;
  st_ret (p.1, record).

(** [tbl.get(seq)?.map(from_slice).ok_or_else(..)??]. *)
Definition get_record_at (tbl : table N bytes) (seq : Sequence) : M TransitionRecord :=
  v <- tbl_get tbl seq ;;
  match v with
  | Some b => decode_value b
  | None => st_err (NotFound ("transition seq " +:+ pretty seq))
  end.

Definition get_transition (id : string) : M TransitionRecord :=
  tx <- begin_tx ;;
  by_id <- open_table (TRANSITIONS_BY_ID tx) ;;
  v <- tbl_get by_id id ;;
  match v with
  | None => st_err (NotFound ("transition '" +:+ id +:+ "'"))
  | Some seq =>
      tbl <- open_table (TRANSITIONS tx) ;;
      get_record_at tbl seq
  end.

(** The loop of [get_history]: skip other entities and the sequences up to
    [after], stop at [limit] results. *)
Fixpoint collect_history (trans_tbl : table N bytes) (prefix : string) (limit : N)
    (after : Sequence) (entries : list (string * N)) (results : list TransitionRecord)
    : M (list TransitionRecord) :=
  match entries with
  | [] => st_ret results
  | e :: rest =>
      kv <- next_entry e ;;
      if negb (starts_with kv.1 prefix) then
        collect_history trans_tbl prefix limit after rest results
      else if (kv.2 <=? after)%N then
        collect_history trans_tbl prefix limit after rest results
      else if (limit <=? N.of_nat (length results))%N then st_ret results
      else
        v <- tbl_get trans_tbl kv.2 ;;
        match v with
        | Some b =>
            record <- decode_value b ;;
            collect_history trans_tbl prefix limit after rest (results ++ [record])
        | None => collect_history trans_tbl prefix limit after rest results
        end
  end.

Definition get_history (entity_id machine : string) (limit : option N)
    (after_sequence : option Sequence) : M (list TransitionRecord) :=
  let prefix := entity_transition_prefix entity_id machine in
  tx <- begin_tx ;;
  entity_tbl <- open_table (ENTITY_TRANSITIONS tx) ;;
  trans_tbl <- open_table (TRANSITIONS tx) ;;
  entries <- tbl_iter entity_tbl ;;
  collect_history trans_tbl prefix (default u32_max limit) (default 0%N after_sequence)
    entries [].

(** The loop of [get_transitions_after]. *)
Fixpoint collect_after (limit : N) (entries : list (N * bytes))
    (results : list TransitionRecord) : M (list TransitionRecord) :=
  match entries with
  | [] => st_ret results
  | e :: rest =>
      if (limit <=? N.of_nat (length results))%N then st_ret results
      else
        kv <- next_entry e ;;
        record <- decode_value kv.2 ;;
        collect_after limit rest (results ++ [record])
  end.

Definition get_transitions_after (after_sequence : Sequence) (limit : N)
    : M (list TransitionRecord) :=
  tx <- begin_tx ;;
  tbl <- open_table (TRANSITIONS tx) ;;
  entries <- tbl_range tbl (add64 after_sequence 1) ;;
  collect_after limit entries [].

(** ** Outbox *)

(** The loop that writes each effect and its by-transition index entry. *)
Fixpoint write_effects (tbl : table string bytes) (by_txn : table string string)
    (effects : list Effect) : M (table string bytes * table string string) :=
  match effects with
  | [] => st_ret (tbl, by_txn)
  | effect :: rest =>
      b <- encode_value effect ;;
      tbl <- tbl_insert tbl (eff_id effect) b ;;
      by_txn <- tbl_insert by_txn
        (effect_by_txn_key (eff_transition_id effect) (eff_id effect)) (eff_id effect) ;;
      write_effects tbl by_txn rest
  end.

(** The outbox block shared by [insert_effects] and [execute_transition]. *)
Definition insert_effects_in_tx (tx : Tables) (effects : list Effect) : M Tables :=
  tbl <- open_table (EFFECTS tx) ;;
  by_txn <- open_table (EFFECTS_BY_TXN tx) ;;
  p <- write_effects tbl by_txn effects ;;
  st_ret (set_effects tx p.1 p.2).

Definition insert_effects (effects : list Effect) : M unit :=
  tx <- begin_tx ;;
  tx <- insert_effects_in_tx tx effects ;;
  commit tx.

Fixpoint collect_pending (limit : N) (entries : list (string * bytes)) (results : list Effect)
    : M (list Effect) :=
  match entries with
  | [] => st_ret results
  | e :: rest =>
      if (limit <=? N.of_nat (length results))%N then st_ret results
      else
        kv <- next_entry e ;;
        effect <- decode_value kv.2 ;;
        collect_pending limit rest
          (if decide (eff_status effect = Pending) then results ++ [effect] else results)
  end.

Definition get_pending_effects (limit : N) : M (list Effect) :=
  tx <- begin_tx ;;
  tbl <- open_table (EFFECTS tx) ;;
  entries <- tbl_iter tbl ;;
  collect_pending limit entries [].

Fixpoint collect_effects_for (effects_tbl : table string bytes) (prefix : string)
    (entries : list (string * string)) (results : list Effect) : M (list Effect) :=
  match entries with
  | [] => st_ret results
  | e :: rest =>
      kv <- next_entry e ;;
      if negb (starts_with kv.1 prefix) then st_ret results
      else
        v <- tbl_get effects_tbl kv.2 ;;
        match v with
        | Some b =>
            effect <- decode_value b ;;
            collect_effects_for effects_tbl prefix rest (results ++ [effect])
        | None => collect_effects_for effects_tbl prefix rest results
        end
  end.

Definition get_effects_for_transition (transition_id : string) : M (list Effect) :=
  let prefix := effect_by_txn_prefix transition_id in
  tx <- begin_tx ;;
  by_txn <- open_table (EFFECTS_BY_TXN tx) ;;
  effects_tbl <- open_table (EFFECTS tx) ;;
  entries <- tbl_range by_txn prefix ;;
  collect_effects_for effects_tbl prefix entries [].

Definition update_effect_status (effect_id : string) (status : EffectStatus) : M unit :=
  tx <- begin_tx ;;
  tbl <- open_table (EFFECTS tx) ;;
  v <- tbl_get tbl effect_id ;;
  match v with
  | None => st_err (NotFound ("effect '" +:+ effect_id +:+ "'"))
  | Some b =>
      effect <- decode_value b ;;
      updated <- encode_value (set_eff_status effect status) ;;
      tbl <- tbl_insert tbl effect_id updated ;;
      commit (set_effects tx tbl (EFFECTS_BY_TXN tx))
  end.

Definition mark_effect_published (effect_id : string) : M unit :=
  update_effect_status effect_id Published.
Definition mark_effect_failed (effect_id : string) : M unit :=
  update_effect_status effect_id Failed.

(** ** Idempotency *)

Definition check_idempotency (key : string) : M (option TransitionRecord) :=
  tx <- begin_tx ;;
  idem <- open_table (IDEMPOTENCY tx) ;;
  v <- tbl_get idem key ;;
  match v with
  | None => st_ret None
  | Some seq =>
      tbl <- open_table (TRANSITIONS tx) ;;
      record <- get_record_at tbl seq ;;
      st_ret (Some record)
  end.

(** ** The atomic transition *)

(** Step 2: the optimistic check and the projection write. *)
Definition upsert_state_in_tx (tx : Tables) (new_state : EntityState) : M Tables :=
  let key := entity_state_key (es_entity_id new_state) (es_machine new_state) in
  tbl <- open_table (ENTITY_STATES tx) ;;
  v <- tbl_get tbl key ;;
  (match v with
   | Some b =>
       existing <- decode_value b ;;
       let expected_prev := (es_version new_state - 1)%N in
       if negb (es_version existing =? expected_prev)%N
       then st_err (StorageVersionConflict (es_entity_id new_state)
                      expected_prev (es_version existing))
       else st_ret tt
   | None => st_ret tt
   end) ;;
  b <- encode_value new_state ;;
  tbl <- tbl_insert tbl key b ;;
  st_ret (set_entity_states tx tbl).

(** Step 4: the idempotency key, a conflict when it is already there. *)
Definition store_idempotency_in_tx (tx : Tables) (key : option string) (seq : Sequence)
    : M Tables :=
  match key with
  | None => st_ret tx
  | Some idem_key =>
      tbl <- open_table (IDEMPOTENCY tx) ;;
      v <- tbl_get tbl idem_key ;;
      match v with
      | Some _ => st_err (AlreadyExists ("idempotency key '" +:+ idem_key +:+ "'"))
      | None =>
          tbl <- tbl_insert tbl idem_key seq ;;
          st_ret (set_idempotency tx tbl)
      end
  end.

Definition execute_transition (record : TransitionRecord) (new_state : EntityState)
    (effects : list Effect) : M (Sequence * TransitionRecord) :=
  tx <- begin_tx ;;
  p <- next_sequence_in_tx tx ;;
  let record := set_rec_sequence record p.1 in
  tx <- write_log_entry p.2 record p.1 ;;
  tx <- upsert_state_in_tx tx new_state ;;
  tx <- insert_effects_in_tx tx effects ;;
  tx <- store_idempotency_in_tx tx (rec_idempotency_key record) p.1 ;;
  commit tx ;;
  st_ret (p.1, record).

(** ** Sequence counter *)

Definition current_sequence : M Sequence :=
  tx <- begin_tx ;;
  tbl <- open_table (META tx) ;;
  v <- tbl_get tbl META_SEQUENCE ;;
  st_ret (default 0%N v).

End storage.
