(* ===== verification/Atomicity.v ===== *)
(** * Failure atomicity of the storage engine

    Every method of [RedbEngine] over a database whose calls may fail refines
    the same method over the [ideal] database that never fails: it returns the
    ideal result and leaves the ideal committed state, or it returns a redb
    error ([TransactionFailed] or [Internal]) and leaves the committed state
    unchanged; on a healthy database it is the ideal method. [Refines] is the
    relation, closed under sequencing as long as the first part only reads. *)
From S2P Require Import Prelude Core Redb Keys Storage.

(** The errors that come from redb itself. *)
Definition is_fault (e : StorageError) : Prop :=
  match e with TransactionFailed _ | Internal _ => True | _ => False end.

Section refinement.
Context {R : Redb} {C : Codecs} {T : RedbTx Tables} {TO : RedbTxOk T}.

Abbreviation M A := (St (db T) StorageError A).
Abbreviation M0 A := (St (@db Tables (ideal Tables)) StorageError A).

Record Refines {A} (m : M A) (m0 : M0 A) : Prop := {
  refines_run d r d' : m d = (r, d') →
    (r, snapshot d') = m0 (snapshot d)
    ∨ (∃ e, r = Err e ∧ is_fault e) ∧ snapshot d' = snapshot d;
  refines_healthy d : healthy d → ∃ r d', m d = (r, d')
    ∧ (r, snapshot d') = m0 (snapshot d) ∧ healthy d';
}.

(** Computations that leave the committed tables alone. *)
Definition ReadOnly {A} (m0 : M0 A) : Prop := ∀ t, (m0 t).2 = t.

Lemma refines_bind {A B} (m : M A) m0 (k : A → M B) k0 :
  Refines m m0 → ReadOnly m0 → (∀ a, Refines (k a) (k0 a)) →
  Refines (st_bind m k) (st_bind m0 k0).
Proof.
  intros [Hr Hh] Hro Hk. split; unfold st_bind.
  - intros d r d'. destruct (m d) as [r1 d1] eqn:Hm. specialize (Hr _ _ _ Hm).
    pose proof (Hro (snapshot d)) as Hro1.
    destruct Hr as [Heq|[(e & -> & He) Hs]].
    + rewrite <- Heq in Hro1 |- *. simpl in Hro1. destruct r1 as [a|e].
      * intros Hrun. apply (refines_run _ _ (Hk a)) in Hrun. by rewrite Hro1 in *.
      * intros [= <- <-]. by left.
    + intros [= <- <-]. right. eauto.
  - intros d Hd. destruct (Hh d Hd) as (r1 & d1 & -> & Heq & Hd1).
    rewrite <- Heq. destruct r1 as [a|e]; [|eauto].
    apply (refines_healthy _ _ (Hk a) d1 Hd1).
Qed.

Lemma refines_res {A} (r : Res A StorageError) : Refines (st_res r) (st_res r).
Proof. split; unfold st_res; [intros ??? [= <- <-]; auto|eauto]. Qed.

Lemma refines_ret {A} (a : A) : Refines (st_ret a) (st_ret a).
Proof. apply (refines_res (Ok a)). Qed.

Lemma refines_err {A} e : Refines (st_err (A:=A) e) (st_err e).
Proof. apply (refines_res (Err e)). Qed.

Lemma refines_call : Refines (redb_run tx_call Internal) (redb_run tx_call Internal).
Proof.
  split; unfold redb_run; simpl.
  - intros d r d'. destruct (tx_call d) as [[[]|m] d1] eqn:Hc; intros [= <- <-];
      apply call_snapshot in Hc; rewrite Hc; [by left|right; split; [by eexists|done]].
  - intros d Hd. destruct (healthy_call d Hd) as (d1 & Hc & ?).
    rewrite Hc. apply call_snapshot in Hc. rewrite <- Hc. eauto.
Qed.

Lemma refines_begin : Refines begin_tx begin_tx.
Proof.
  split; unfold begin_tx, redb_run, st_bind; simpl.
  - intros d r d'. destruct (tx_begin d) as [[[]|m] d1] eqn:Hc; intros [= <- <-];
      apply begin_snapshot in Hc; rewrite Hc; [by left|right; split; [by eexists|done]].
  - intros d Hd. destruct (healthy_begin d Hd) as (d1 & Hc & ?).
    rewrite Hc. apply begin_snapshot in Hc. rewrite <- Hc. eauto.
Qed.

Lemma refines_commit tx : Refines (commit tx) (commit tx).
Proof.
  split; unfold commit, redb_run; simpl.
  - intros d r d'. destruct (tx_commit d tx) as [[[]|m] d1] eqn:Hc; intros [= <- <-].
    + apply commit_ok in Hc. rewrite Hc. by left.
    + apply commit_err in Hc. rewrite Hc. right. split; [by eexists|done].
  - intros d Hd. destruct (healthy_commit d tx Hd) as (d1 & Hc & ?).
    rewrite Hc. apply commit_ok in Hc. exists (Ok tt), d1. by rewrite Hc.
Qed.

(** A final commit followed by a constant result. *)
Lemma refines_commit_ret {A} tx (a : A) :
  Refines (st_bind (commit tx) (λ _, st_ret a)) (st_bind (commit tx) (λ _, st_ret a)).
Proof.
  destruct (refines_commit tx) as [Hr Hh]. split; unfold st_bind.
  - intros d r d'. destruct (commit tx d) as [[[]|e] d1] eqn:Hc;
      intros [= <- <-]; destruct (Hr _ _ _ Hc) as [Heq|[(e' & He & Hf) Hs]];
      rewrite <- ?Heq; simplify_eq; eauto.
  - intros d Hd. destruct (Hh d Hd) as ([[]|e] & d1 & -> & <- & Hd1); unfold st_ret; eauto.
Qed.

Lemma readonly_bind {A B} (m0 : M0 A) (k0 : A → M0 B) :
  ReadOnly m0 → (∀ a, ReadOnly (k0 a)) → ReadOnly (st_bind m0 k0).
Proof.
  intros Hm Hk t. unfold st_bind. specialize (Hm t).
  destruct (m0 t) as [[a|e] t'] eqn:E; simpl in Hm; subst; [apply Hk|done].
Qed.

Lemma readonly_res {A} (r : Res A StorageError) : ReadOnly (st_res r).
Proof. done. Qed.
Lemma readonly_call : ReadOnly (redb_run tx_call Internal).
Proof. done. Qed.
Lemma readonly_begin : ReadOnly begin_tx.
Proof. done. Qed.

End refinement.

(** [ro] proves [ReadOnly]; [refine_op] proves [Refines] by following the code. *)
Ltac ro :=
  repeat first
    [ progress cbn [fst snd] | assumption
    | apply readonly_begin | apply readonly_call | apply readonly_res
    | apply readonly_bind; [|intros ?]
    | progress unfold open_table, tbl_get, tbl_insert, tbl_iter, tbl_range, next_entry,
        encode_value, decode_value, st_ret, st_err
    | match goal with
      | H : ∀ _, _ |- ReadOnly _ => apply H
      | |- ReadOnly (match ?x with _ => _ end) => destruct x eqn:?
      | |- ReadOnly (λ s, (?r, s)) => exact (readonly_res r)
      end ].

Ltac refine_op :=
  repeat first
    [ progress cbn [fst snd] | assumption
    | apply refines_begin | apply refines_call | apply refines_ret | apply refines_err
    | apply refines_res | apply refines_commit | apply refines_commit_ret
    | apply refines_bind; [|solve [ro]|intros ?]
    | progress unfold open_table, tbl_get, tbl_insert, tbl_iter, tbl_range, next_entry,
        encode_value, decode_value
    | match goal with
      | H : ∀ _, _ |- Refines _ _ => apply H
      | |- Refines (match ?x with _ => _ end) _ => destruct x eqn:?
      end ].

Section methods.
Context {R : Redb} {C : Codecs} {T : RedbTx Tables} {TO : RedbTxOk T}.

(** The building blocks of the write methods. *)
Lemma next_sequence_ro tx : ReadOnly (next_sequence_in_tx tx).
Proof. unfold next_sequence_in_tx. ro. Qed.
Lemma write_log_entry_ro tx r seq : ReadOnly (write_log_entry tx r seq).
Proof. unfold write_log_entry. ro. Qed.
Lemma upsert_state_ro tx s : ReadOnly (upsert_state_in_tx tx s).
Proof. unfold upsert_state_in_tx. ro. Qed.
Lemma write_effects_ro tbl by_txn es : ReadOnly (write_effects tbl by_txn es).
Proof. revert tbl by_txn. induction es; intros; simpl; ro. Qed.
Lemma insert_effects_in_tx_ro tx es : ReadOnly (insert_effects_in_tx tx es).
Proof. unfold insert_effects_in_tx. ro. apply write_effects_ro. Qed.
Lemma store_idempotency_ro tx k seq : ReadOnly (store_idempotency_in_tx tx k seq).
Proof. unfold store_idempotency_in_tx. ro. Qed.

Lemma next_sequence_refines tx :
  Refines (T:=T) (next_sequence_in_tx tx) (next_sequence_in_tx tx).
Proof. unfold next_sequence_in_tx. refine_op. Qed.
Lemma write_log_entry_refines tx r seq :
  Refines (T:=T) (write_log_entry tx r seq) (write_log_entry tx r seq).
Proof. unfold write_log_entry. refine_op. Qed.
Lemma upsert_state_refines tx s :
  Refines (T:=T) (upsert_state_in_tx tx s) (upsert_state_in_tx tx s).
Proof. unfold upsert_state_in_tx. refine_op. Qed.
Lemma write_effects_refines tbl by_txn es :
  Refines (T:=T) (write_effects tbl by_txn es) (write_effects tbl by_txn es).
Proof. revert tbl by_txn. induction es; intros; simpl; refine_op. Qed.
Lemma insert_effects_in_tx_refines tx es :
  Refines (T:=T) (insert_effects_in_tx tx es) (insert_effects_in_tx tx es).
Proof.
  unfold insert_effects_in_tx. refine_op.
  apply refines_bind; [apply write_effects_refines|apply write_effects_ro|intros; refine_op].
Qed.
Lemma store_idempotency_refines tx k seq :
  Refines (T:=T) (store_idempotency_in_tx tx k seq) (store_idempotency_in_tx tx k seq).
Proof. unfold store_idempotency_in_tx. refine_op. Qed.

Lemma execute_transition_refines r s es :
  Refines (T:=T) (execute_transition r s es) (execute_transition r s es).
Proof.
  unfold execute_transition.
  apply refines_bind; [apply refines_begin|ro|intros tx].
  apply refines_bind; [apply next_sequence_refines|apply next_sequence_ro|intros p].
  apply refines_bind; [apply write_log_entry_refines|apply write_log_entry_ro|intros tx1].
  apply refines_bind; [apply upsert_state_refines|apply upsert_state_ro|intros tx2].
  apply refines_bind; [apply insert_effects_in_tx_refines|apply insert_effects_in_tx_ro|intros tx3].
  apply refines_bind; [apply store_idempotency_refines|apply store_idempotency_ro|intros tx4].
  apply refines_commit_ret.
Qed.

Lemma append_transition_refines r :
  Refines (T:=T) (append_transition r) (append_transition r).
Proof.
  unfold append_transition.
  apply refines_bind; [apply refines_begin|ro|intros tx].
  apply refines_bind; [apply next_sequence_refines|apply next_sequence_ro|intros p].
  apply refines_bind; [apply write_log_entry_refines|apply write_log_entry_ro|intros tx1].
  apply refines_commit_ret.
Qed.

Lemma insert_effects_refines es : Refines (T:=T) (insert_effects es) (insert_effects es).
Proof.
  unfold insert_effects.
  apply refines_bind; [apply refines_begin|ro|intros tx].
  apply refines_bind; [apply insert_effects_in_tx_refines|apply insert_effects_in_tx_ro|intros].
  apply refines_commit.
Qed.

Lemma store_machine_refines m : Refines (T:=T) (store_machine m) (store_machine m).
Proof. unfold store_machine. refine_op. Qed.
Lemma upsert_entity_state_refines s :
  Refines (T:=T) (upsert_entity_state s) (upsert_entity_state s).
Proof. unfold upsert_entity_state. refine_op. Qed.
Lemma update_effect_status_refines id st :
  Refines (T:=T) (update_effect_status id st) (update_effect_status id st).
Proof. unfold update_effect_status. refine_op. Qed.
Lemma ensure_tables_refines : Refines (T:=T) ensure_tables ensure_tables.
Proof. unfold ensure_tables. refine_op. Qed.

(** The read methods. *)
Lemma get_machine_ro n v : ReadOnly (get_machine n v).
Proof. unfold get_machine. ro. Qed.
Lemma get_machine_refines n v : Refines (T:=T) (get_machine n v) (get_machine n v).
Proof. unfold get_machine. refine_op. Qed.
Lemma get_entity_state_ro e m : ReadOnly (get_entity_state e m).
Proof. unfold get_entity_state. ro. Qed.
Lemma get_entity_state_refines e m :
  Refines (T:=T) (get_entity_state e m) (get_entity_state e m).
Proof. unfold get_entity_state. refine_op. Qed.
Lemma check_idempotency_ro k : ReadOnly (check_idempotency k).
Proof. unfold check_idempotency, get_record_at. ro. Qed.
Lemma check_idempotency_refines k :
  Refines (T:=T) (check_idempotency k) (check_idempotency k).
Proof. unfold check_idempotency, get_record_at. refine_op. Qed.
Lemma get_transition_ro i : ReadOnly (get_transition i).
Proof. unfold get_transition, get_record_at. ro. Qed.
Lemma get_transition_refines i : Refines (T:=T) (get_transition i) (get_transition i).
Proof. unfold get_transition, get_record_at. refine_op. Qed.
Lemma current_sequence_refines : Refines (T:=T) current_sequence current_sequence.
Proof. unfold current_sequence. refine_op. Qed.

Lemma collect_after_ro l es rs : ReadOnly (collect_after l es rs).
Proof. revert rs. induction es; intros; simpl; ro. Qed.
Lemma collect_after_refines l es rs :
  Refines (T:=T) (collect_after l es rs) (collect_after l es rs).
Proof. revert rs. induction es; intros; simpl; refine_op. Qed.
Lemma get_transitions_after_ro a l : ReadOnly (get_transitions_after a l).
Proof. unfold get_transitions_after. ro. apply collect_after_ro. Qed.
Lemma get_transitions_after_refines a l :
  Refines (T:=T) (get_transitions_after a l) (get_transitions_after a l).
Proof. unfold get_transitions_after. refine_op. apply collect_after_refines. Qed.

Lemma collect_history_ro tbl p l a es rs : ReadOnly (collect_history tbl p l a es rs).
Proof. revert rs. induction es; intros; simpl; ro. Qed.
Lemma collect_history_refines tbl p l a es rs :
  Refines (T:=T) (collect_history tbl p l a es rs) (collect_history tbl p l a es rs).
Proof. revert rs. induction es; intros; simpl; refine_op. Qed.
Lemma get_history_ro e m l a : ReadOnly (get_history e m l a).
Proof. unfold get_history. ro. apply collect_history_ro. Qed.
Lemma get_history_refines e m l a :
  Refines (T:=T) (get_history e m l a) (get_history e m l a).
Proof. unfold get_history. refine_op. apply collect_history_refines. Qed.

Lemma collect_pending_ro l es rs : ReadOnly (collect_pending l es rs).
Proof. revert rs. induction es; intros; simpl; ro. Qed.
Lemma collect_pending_refines l es rs :
  Refines (T:=T) (collect_pending l es rs) (collect_pending l es rs).
Proof. revert rs. induction es; intros; simpl; refine_op. Qed.
Lemma get_pending_effects_ro l : ReadOnly (get_pending_effects l).
Proof. unfold get_pending_effects. ro. apply collect_pending_ro. Qed.
Lemma get_pending_effects_refines l :
  Refines (T:=T) (get_pending_effects l) (get_pending_effects l).
Proof. unfold get_pending_effects. refine_op. apply collect_pending_refines. Qed.

Lemma collect_effects_for_ro tbl p es rs : ReadOnly (collect_effects_for tbl p es rs).
Proof. revert rs. induction es; intros; simpl; ro. Qed.
Lemma collect_effects_for_refines tbl p es rs :
  Refines (T:=T) (collect_effects_for tbl p es rs) (collect_effects_for tbl p es rs).
Proof. revert rs. induction es; intros; simpl; refine_op. Qed.
Lemma get_effects_for_transition_ro i : ReadOnly (get_effects_for_transition i).
Proof. unfold get_effects_for_transition. ro. apply collect_effects_for_ro. Qed.
Lemma get_effects_for_transition_refines i :
  Refines (T:=T) (get_effects_for_transition i) (get_effects_for_transition i).
Proof. unfold get_effects_for_transition. refine_op. apply collect_effects_for_refines. Qed.

Lemma collect_machines_ro es rs : ReadOnly (collect_machines es rs).
Proof. revert rs. induction es; intros; simpl; ro. Qed.
Lemma collect_machines_refines es rs :
  Refines (T:=T) (collect_machines es rs) (collect_machines es rs).
Proof. revert rs. induction es; intros; simpl; refine_op. Qed.
Lemma list_machines_refines : Refines (T:=T) list_machines list_machines.
Proof. unfold list_machines. refine_op. apply collect_machines_refines. Qed.

Lemma collect_entities_refines m s es rs :
  Refines (T:=T) (collect_entities m s es rs) (collect_entities m s es rs).
Proof. revert rs. induction es; intros; simpl; refine_op. Qed.
Lemma list_entities_in_state_refines m s :
  Refines (T:=T) (list_entities_in_state m s) (list_entities_in_state m s).
Proof. unfold list_entities_in_state. refine_op. apply collect_entities_refines. Qed.

(** ** What an error leaves behind *)

(** A refined read-only method never changes the committed tables. *)
Lemma refines_ro_snapshot {A} (m : St (db T) StorageError A) m0 d r d' :
  Refines m m0 → ReadOnly m0 → m d = (r, d') → snapshot d' = snapshot d.
Proof.
  intros [Hrun _] Hro Hm. destruct (Hrun _ _ _ Hm) as [Heq|[_ ?]]; [|done].
  specialize (Hro (snapshot d)). by rewrite <- Heq in Hro.
Qed.

(** On the ideal database a final commit cannot fail, so an error comes before
    it. *)
Lemma ideal_commit_last {A B} (m0 : St (@db Tables (ideal Tables)) StorageError A)
    (k0 : A → St (@db Tables (ideal Tables)) StorageError B) t e t' :
  ReadOnly m0 → (∀ a t e t', k0 a t = (Err e, t') → t' = t) →
  st_bind m0 k0 t = (Err e, t') → t' = t.
Proof.
  intros Hro Hk. unfold st_bind. specialize (Hro t). destruct (m0 t) as [[a|e0] t1]; cbn in Hro; subst.
  - apply Hk.
  - by intros [= _ <-].
Qed.

Lemma execute_transition_err_snapshot r s es d e d' :
  execute_transition (T:=T) r s es d = (Err e, d') → snapshot d' = snapshot d.
Proof.
  intros Hm. destruct (refines_run _ _ (execute_transition_refines r s es) _ _ _ Hm)
    as [Heq|[_ ?]]; [|done].
  revert Heq. unfold execute_transition. intros Heq. symmetry in Heq. revert Heq.
  apply ideal_commit_last; [ro|intros tx]. intros t e0 t'.
  apply ideal_commit_last; [apply next_sequence_ro|intros p]. clear t e0 t'. intros t e0 t'.
  apply ideal_commit_last; [apply write_log_entry_ro|intros tx1]. clear t e0 t'. intros t e0 t'.
  apply ideal_commit_last; [apply upsert_state_ro|intros tx2]. clear t e0 t'. intros t e0 t'.
  apply ideal_commit_last; [apply insert_effects_in_tx_ro|intros tx3]. clear t e0 t'. intros t e0 t'.
  apply ideal_commit_last; [apply store_idempotency_ro|intros tx4]. clear t e0 t'. intros t e0 t'.
  done.
Qed.

End methods.
