(* ===== verification/StorageSpec.v ===== *)
(** * What the tables mean: the abstract store

    The specification of the storage engine is the store [Abs]: a map of
    machine definitions, a map of entity states, the transition log as a list,
    and the outbox as a map. [Repr t a] says that the nine redb tables [t]
    represent [a]. The reads of the engine are shown to compute the
    corresponding functions of [a], and the writes to take representing tables
    to representing tables, on the [ideal] database (the file [Atomicity] lifts
    this to databases that fail). *)
From S2P Require Import Prelude Core Redb Keys Storage.

(** Serialisation forgets the difference between an effect payload
    [Some(Value::Null)] and [None]: both are written as nil. *)
Definition canon_effect_rule (e : EffectRule) : EffectRule :=
  {| er_on_event := er_on_event e; er_effect := er_effect e;
     er_payload := match er_payload e with Some VNull => None | p => p end |}.
Definition canon_machine (d : MachineDefinition) : MachineDefinition :=
  {| md_name := md_name d; md_version := md_version d; md_states := md_states d;
     md_initial_state := md_initial_state d; md_transitions := md_transitions d;
     md_effects := canon_effect_rule <$> md_effects d; md_created_at := md_created_at d |}.

(** Decoding gives back what was encoded. *)
Class CodecsOk (C : Codecs) : Prop := {
  codec_machine_ok :: SerdeOk MachineDefinition canon_machine;
  codec_state_ok :: SerdeOk EntityState id;
  codec_record_ok :: SerdeOk TransitionRecord id;
  codec_effect_ok :: SerdeOk Effect id;
}.

(** Encoding never fails. *)
Record EncodesAll (C : Codecs) : Prop := {
  enc_machine (x : MachineDefinition) : is_ok (to_vec x) = true;
  enc_state (x : EntityState) : is_ok (to_vec x) = true;
  enc_record (x : TransitionRecord) : is_ok (to_vec x) = true;
  enc_effect (x : Effect) : is_ok (to_vec x) = true;
}.

(** An error that comes from a failed encoding. *)
Definition encode_error {C : Codecs} (e : StorageError) : Prop :=
  (∃ m, e = Corrupted m) ∧ ¬ EncodesAll C.
Definition encode_failed {C : Codecs} {A} (res : Res A StorageError) : Prop :=
  ∃ e, res = Err e ∧ encode_error e.

Section encode.
Context {C : Codecs}.

Lemma encode_failed_err {A} e : encode_error e → encode_failed (A:=A) (Err e).
Proof. intros ?. by exists e. Qed.
Lemma encode_error_machine (x : MachineDefinition) m :
  to_vec x = Err m → encode_error (from_encode_error m).
Proof. intros H. split; [by eexists|]. intros [Hc _ _ _]. specialize (Hc x). by rewrite H in Hc. Qed.
Lemma encode_error_state (x : EntityState) m :
  to_vec x = Err m → encode_error (from_encode_error m).
Proof. intros H. split; [by eexists|]. intros [_ Hc _ _]. specialize (Hc x). by rewrite H in Hc. Qed.
Lemma encode_error_record (x : TransitionRecord) m :
  to_vec x = Err m → encode_error (from_encode_error m).
Proof. intros H. split; [by eexists|]. intros [_ _ Hc _]. specialize (Hc x). by rewrite H in Hc. Qed.
Lemma encode_error_effect (x : Effect) m :
  to_vec x = Err m → encode_error (from_encode_error m).
Proof. intros H. split; [by eexists|]. intros [_ _ _ Hc]. specialize (Hc x). by rewrite H in Hc. Qed.

End encode.

Create HintDb encode.
#[export] Hint Resolve encode_failed_err encode_error_machine encode_error_state
  encode_error_record encode_error_effect : encode.

Record Abs : Type := {
  a_machines : gmap string MachineDefinition;
  a_states : gmap (string * string) EntityState;
  a_log : list TransitionRecord;
  a_outbox : gmap string Effect;
}.

Definition set_machs (a : Abs) x : Abs :=
  {| a_machines := x; a_states := a_states a; a_log := a_log a; a_outbox := a_outbox a |}.
Definition set_states (a : Abs) x : Abs :=
  {| a_machines := a_machines a; a_states := x; a_log := a_log a; a_outbox := a_outbox a |}.
Definition set_log (a : Abs) x : Abs :=
  {| a_machines := a_machines a; a_states := a_states a; a_log := x; a_outbox := a_outbox a |}.
Definition set_outbox (a : Abs) x : Abs :=
  {| a_machines := a_machines a; a_states := a_states a; a_log := a_log a; a_outbox := x |}.

Definition empty_abs : Abs :=
  {| a_machines := ∅; a_states := ∅; a_log := []; a_outbox := ∅ |}.

(** The record at sequence number [k]; sequence numbers start at 1. *)
Definition log_at (log : list TransitionRecord) (k : N) : option TransitionRecord :=
  if decide (k = 0)%N then None else log !! N.to_nat (k - 1).

(** The records of one entity in one machine, in log order. *)
Definition hist (e m : string) (log : list TransitionRecord) : list TransitionRecord :=
  filter (λ r, rec_entity_id r = e ∧ rec_machine r = m) log.

Definition idem_used (log : list TransitionRecord) (key : string) : bool :=
  existsb (λ r, bool_decide (rec_idempotency_key r = Some key)) log.

Definition outbox_add (o : gmap string Effect) (es : list Effect) : gmap string Effect :=
  foldl (λ o e, <[eff_id e := e]> o) o es.

Lemma outbox_add_lookup o es i e :
  outbox_add o es !! i = Some e → o !! i = Some e ∨ e ∈ es.
Proof.
  revert o. induction es as [|e0 es IH]; intros o; cbn; [by left|].
  intros [Hi|?]%IH; [|right; by constructor]. rewrite lookup_insert in Hi.
  case_decide; [|by left]. simplify_eq. right. constructor.
Qed.

Lemma outbox_add_dom o es i :
  is_Some (outbox_add o es !! i) → is_Some (o !! i) ∨ i ∈ eff_id <$> es.
Proof.
  revert o. induction es as [|e0 es IH]; intros o; cbn; [by left|].
  intros [Hi|?]%IH; [|right; by constructor]. rewrite lookup_insert in Hi.
  case_decide; [|by left]. subst. right. constructor.
Qed.

(** The atomic transition on the abstract store. *)
Definition spec_execute (a : Abs) (record : TransitionRecord) (new_state : EntityState)
    (effects : list Effect) : Res (Sequence * TransitionRecord) StorageError * Abs :=
  let seq := N.of_nat (S (length (a_log a))) in
  let record := set_rec_sequence record seq in
  let key := (es_entity_id new_state, es_machine new_state) in
  let conflict :=
    match a_states a !! key with
    | Some ex => if decide (es_version ex = es_version new_state - 1)%N then None
                 else Some (es_version ex)
    | None => None
    end in
  match conflict with
  | Some actual =>
      (Err (StorageVersionConflict (es_entity_id new_state)
              (es_version new_state - 1) actual), a)
  | None =>
      match rec_idempotency_key record with
      | Some k =>
          if idem_used (a_log a) k
          then (Err (AlreadyExists ("idempotency key '" +:+ k +:+ "'")), a)
          else (Ok (seq, record),
                {| a_machines := a_machines a; a_states := <[key:=new_state]> (a_states a);
                   a_log := a_log a ++ [record];
                   a_outbox := outbox_add (a_outbox a) effects |})
      | None =>
          (Ok (seq, record),
           {| a_machines := a_machines a; a_states := <[key:=new_state]> (a_states a);
              a_log := a_log a ++ [record];
              a_outbox := outbox_add (a_outbox a) effects |})
      end
  end.

(** The projection write of [upsert_entity_state]: versions 0 and 1 are written
    unchecked. *)
Definition spec_upsert (a : Abs) (state : EntityState) : Res unit StorageError * Abs :=
  let key := (es_entity_id state, es_machine state) in
  let done := (Ok tt, set_states a (<[key := state]> (a_states a))) in
  match a_states a !! key with
  | Some existing =>
      if decide (1 < es_version state ∧ es_version existing ≠ es_version state - 1)%N
      then (Err (StorageVersionConflict (es_entity_id state)
                   (es_version state - 1) (es_version existing)), a)
      else done
  | None => done
  end.

(** ** The functions the reads compute *)

Definition find_idem (log : list TransitionRecord) (key : string) : option TransitionRecord :=
  List.find (λ r, bool_decide (rec_idempotency_key r = Some key)) log.

Definition find_id (log : list TransitionRecord) (i : string) : option TransitionRecord :=
  List.find (λ r, bool_decide (rec_id r = i)) log.

(** The page of a history: after a cursor, at most [limit] records. *)
Definition page (limit : N) (after : N) (l : list TransitionRecord) : list TransitionRecord :=
  take (N.to_nat limit) (filter (λ r, (after < rec_sequence r)%N) l).

(** The order of the effect table. *)
Definition eff_lt (e e' : Effect) : Prop :=
  String.le (eff_id e) (eff_id e') ∧ eff_id e ≠ eff_id e'.

(** The order of the machine table. *)
Definition name_lt (d d' : MachineDefinition) : Prop :=
  String.le (md_name d) (md_name d') ∧ md_name d ≠ md_name d'.

(** The effects handed over are new, distinct and carry a NUL-free transition id. *)
Record fresh_effects (o : gmap string Effect) (es : list Effect) : Prop := {
  fe_nodup : NoDup (eff_id <$> es);
  fe_new e : e ∈ es → o !! eff_id e = None;
  fe_nul e : e ∈ es → nul_free (eff_transition_id e) = true;
}.

Lemma fresh_effects_cons o e es :
  fresh_effects o (e :: es) →
  o !! eff_id e = None ∧ nul_free (eff_transition_id e) = true
  ∧ fresh_effects (<[eff_id e := e]> o) es.
Proof.
  intros [Hnd Hnew Hnul]. rewrite fmap_cons in Hnd. apply NoDup_cons in Hnd as [Hout Hnd].
  split_and!; [apply Hnew; constructor|apply Hnul; constructor|]. split; [done| |].
  - intros e' He'. rewrite lookup_insert_ne; [apply Hnew; by apply elem_of_cons; right|].
    intros Heq. apply Hout. rewrite Heq. by apply list_elem_of_fmap_2.
  - intros e' He'. apply Hnul. by apply elem_of_cons; right.
Qed.

(** What the caller of [execute_transition] must provide: room in the sequence
    counter, identifiers without NUL, a new record id and new effects. *)
Record exec_ok (a : Abs) (r : TransitionRecord) (s : EntityState) (es : list Effect) : Prop := {
  ex_room : (N.of_nat (S (length (a_log a))) <= u64_max)%N;
  ex_nul : nul_free (rec_entity_id r) = true ∧ nul_free (rec_machine r) = true
           ∧ nul_free (rec_id r) = true;
  ex_state_nul : nul_free (es_entity_id s) = true ∧ nul_free (es_machine s) = true;
  ex_id r0 : r0 ∈ a_log a → rec_id r0 ≠ rec_id r;
  ex_effects : fresh_effects (a_outbox a) es;
}.

Section repr.
Context {R : Redb} {RO : RedbOk R} {C : Codecs} {CO : CodecsOk C}.

(** An optional stored value and the optional value it encodes. *)
Definition decodes {A} `{Serde A} (b : option bytes) (x : option A) : Prop :=
  option_Forall2 (λ b x, from_slice b = Ok x) b x.

Record effects_repr (tbl : table string bytes) (by_txn : table string string)
    (o : gmap string Effect) : Prop := {
  er_tbl i : decodes (t_get tbl i) (o !! i);
  er_index key i : t_get by_txn key = Some i ↔
    ∃ e, o !! i = Some e ∧ key = effect_by_txn_key (eff_transition_id e) i;
  er_keys i e : o !! i = Some e → eff_id e = i ∧ nul_free (eff_transition_id e) = true;
}.

Record Repr (t : Tables) (a : Abs) : Prop := {
  r_machines n : decodes (t_get (MACHINES t) n) (a_machines a !! n);
  r_machine_name n d : a_machines a !! n = Some d → md_name d = n;
  r_states_dom key : is_Some (t_get (ENTITY_STATES t) key) →
    ∃ e m s, a_states a !! (e, m) = Some s ∧ key = entity_state_key e m;
  r_states_ids e m s : a_states a !! (e, m) = Some s →
    es_entity_id s = e ∧ es_machine s = m ∧ nul_free e = true ∧ nul_free m = true;
  r_states e m : nul_free e = true → nul_free m = true →
    decodes (t_get (ENTITY_STATES t) (entity_state_key e m)) (a_states a !! (e, m));
  r_seq : default 0%N (t_get (META t) META_SEQUENCE) = N.of_nat (length (a_log a));
  r_bound : (N.of_nat (length (a_log a)) <= u64_max)%N;
  r_log k : decodes (t_get (TRANSITIONS t) k) (log_at (a_log a) k);
  r_log_seq k r : log_at (a_log a) k = Some r → rec_sequence r = k;
  r_log_nul r : r ∈ a_log a → nul_free (rec_entity_id r) = true
    ∧ nul_free (rec_machine r) = true ∧ nul_free (rec_id r) = true;
  r_by_id i k : t_get (TRANSITIONS_BY_ID t) i = Some k ↔
    ∃ r, log_at (a_log a) k = Some r ∧ rec_id r = i;
  r_index key k : t_get (ENTITY_TRANSITIONS t) key = Some k ↔
    ∃ r, log_at (a_log a) k = Some r
         ∧ key = entity_transition_key (rec_entity_id r) (rec_machine r) k;
  r_idem key k : t_get (IDEMPOTENCY t) key = Some k ↔
    ∃ r, log_at (a_log a) k = Some r ∧ rec_idempotency_key r = Some key;
  r_effects : effects_repr (EFFECTS t) (EFFECTS_BY_TXN t) (a_outbox a);
}.

(** ** The log as a list *)

Lemma log_at_elem log k r : log_at log k = Some r → r ∈ log.
Proof. unfold log_at. case_decide; [done|]. intros ?. by eapply list_elem_of_lookup_2. Qed.

Lemma log_at_lookup log i r :
  log !! i = Some r ↔ log_at log (N.of_nat (S i)) = Some r.
Proof.
  unfold log_at. case_decide; [lia|].
  replace (N.to_nat (N.of_nat (S i) - 1)) with i by lia. done.
Qed.

Lemma log_at_bound log k r :
  log_at log k = Some r → (1 <= k <= N.of_nat (length log))%N.
Proof.
  unfold log_at. case_decide; [done|]. intros ?%lookup_lt_Some. lia.
Qed.

Lemma log_at_snoc log r k :
  log_at (log ++ [r]) k
  = if decide (k = N.of_nat (S (length log))) then Some r else log_at log k.
Proof.
  unfold log_at. repeat case_decide; try done; [lia| |].
  - subst. rewrite lookup_app_r by lia.
    by replace (N.to_nat (N.of_nat (S (length log)) - 1) - length log) with 0 by lia.
  - destruct (decide (N.to_nat (k - 1) < length log)).
    + by rewrite lookup_app_l.
    + rewrite lookup_app_r by lia. rewrite (lookup_ge_None_2 log) by lia.
      apply lookup_ge_None_2. simpl. lia.
Qed.

Lemma elem_log_at log r : r ∈ log → ∃ k, log_at log k = Some r.
Proof. intros [i Hi]%list_elem_of_lookup. exists (N.of_nat (S i)). by apply (proj1 (log_at_lookup _ _ _)). Qed.

(** A log whose records carry their position is strictly increasing. *)
Lemma log_sorted log :
  (∀ k r, log_at log k = Some r → rec_sequence r = k) →
  StronglySorted (λ r r', (rec_sequence r < rec_sequence r')%N) log.
Proof.
  induction log as [|r log IH] using rev_ind; intros Hseq; [constructor|].
  apply StronglySorted_app_2; [| |repeat constructor].
  - intros x y [k Hk]%elem_log_at ->%list_elem_of_singleton.
    assert (rec_sequence r = N.of_nat (S (length log))) as ->.
    { apply Hseq. rewrite log_at_snoc. by case_decide. }
    pose proof (log_at_bound _ _ _ Hk). rewrite (Hseq k x); [lia|].
    rewrite log_at_snoc. case_decide; [lia|done].
  - apply IH. intros k x Hk. apply Hseq. rewrite log_at_snoc.
    pose proof (log_at_bound _ _ _ Hk). case_decide; [lia|done].
Qed.

Lemma idem_used_spec log key :
  idem_used log key = true ↔ ∃ k r, log_at log k = Some r ∧ rec_idempotency_key r = Some key.
Proof.
  unfold idem_used. rewrite existsb_exists. setoid_rewrite bool_decide_eq_true.
  setoid_rewrite <- list_elem_of_In. split.
  - intros (r & [k Hk]%elem_log_at & Hr). eauto.
  - intros (k & r & Hk%log_at_elem & Hr). eauto.
Qed.

Lemma decodes_Some {A} `{Serde A} b (x : A) : from_slice b = Ok x → decodes (Some b) (Some x).
Proof. by constructor. Qed.

Lemma decodes_inv_Some {A} `{Serde A} o (x : A) :
  decodes o (Some x) → ∃ b, o = Some b ∧ from_slice b = Ok x.
Proof. intros H0. inv H0. eauto. Qed.

Lemma decodes_inv_None {A} `{Serde A} o : decodes (A:=A) o None → o = None.
Proof. intros H0. by inv H0. Qed.

Lemma repr_empty : Repr empty_tables empty_abs.
Proof.
  assert (∀ k r, log_at [] k ≠ Some r) as Hno.
  { unfold log_at. intros. by case_decide. }
  split; simpl; intros; rewrite ?get_empty, ?lookup_empty; try (by constructor); try done.
  - rewrite get_empty in H. by apply is_Some_None in H.
  - unfold log_at. case_decide; constructor.
  - by destruct (Hno k r).
  - by apply elem_of_nil in H.
  - split; [done|]. intros (r & ? & _). by destruct (Hno k r).
  - split; [done|]. intros (r & ? & _). by destruct (Hno k r).
  - split; [done|]. intros (r & ? & _). by destruct (Hno k r).
  - split; intros; rewrite ?get_empty, ?lookup_empty; [constructor| |done].
    split; [done|]. intros (e & ? & _). done.
Qed.

End repr.

(** ** Running the [ideal] database: every redb call succeeds *)

Section ideal_steps.
Context {R : Redb} {C : Codecs}.
Implicit Types (t : Tables).
Abbreviation M0 A := (St (@db Tables (ideal Tables)) StorageError A).

Lemma ideal_begin {B} (k : Tables → M0 B) t : st_bind begin_tx k t = k t t.
Proof. reflexivity. Qed.
Lemma ideal_open {A B} (x : A) (k : A → M0 B) t : st_bind (open_table x) k t = k x t.
Proof. reflexivity. Qed.
Lemma ideal_get {K V B} {HK : RedbKey K} (tbl : table K V) x (k : option V → M0 B) t :
  st_bind (tbl_get tbl x) k t = k (t_get tbl x) t.
Proof. reflexivity. Qed.
Lemma ideal_insert {K V B} {HK : RedbKey K} (tbl : table K V) x v (k : table K V → M0 B) t :
  st_bind (tbl_insert tbl x v) k t = k (t_insert tbl x v) t.
Proof. reflexivity. Qed.
Lemma ideal_iter {K V B} {HK : RedbKey K} (tbl : table K V) (k : list (K * V) → M0 B) t :
  st_bind (tbl_iter tbl) k t = k (t_iter tbl) t.
Proof. reflexivity. Qed.
Lemma ideal_range {K V B} {HK : RedbKey K} (tbl : table K V) x (k : list (K * V) → M0 B) t :
  st_bind (tbl_range tbl x) k t = k (t_range tbl x) t.
Proof. reflexivity. Qed.
Lemma ideal_entry {A B} (x : A) (k : A → M0 B) t : st_bind (next_entry x) k t = k x t.
Proof. reflexivity. Qed.
Lemma ideal_ret {A B} (x : A) (k : A → M0 B) t : st_bind (st_ret x) k t = k x t.
Proof. reflexivity. Qed.
Lemma ideal_commit_bind {B} tx (k : unit → M0 B) t : st_bind (commit tx) k t = k tt tx.
Proof. reflexivity. Qed.
Lemma ideal_commit tx t : commit (T:=ideal _) tx t = (Ok tt, tx).
Proof. reflexivity. Qed.
Lemma ideal_encode {A B} `{Serde A} (x : A) (k : bytes → M0 B) t :
  st_bind (encode_value x) k t
  = match to_vec x with Ok b => k b t | Err e => (Err (from_encode_error e), t) end.
Proof. unfold st_bind, encode_value, st_res. by destruct (to_vec x). Qed.
Lemma ideal_decode {A B} `{Serde A} b (k : A → M0 B) t :
  st_bind (decode_value b) k t
  = match from_slice b with Ok x => k x t | Err e => (Err (from_decode_error e), t) end.
Proof. unfold st_bind, decode_value, st_res. by destruct (from_slice b). Qed.
Lemma ideal_decode_last {A} `{Serde A} b t :
  decode_value (T:=ideal _) b t = (map_err from_decode_error (from_slice (A:=A) b), t).
Proof. reflexivity. Qed.

(** A successful or failed first part. *)
Lemma bind_ok {S E A B} (m : St S E A) (k : A → St S E B) s a s' :
  m s = (Ok a, s') → st_bind m k s = k a s'.
Proof. intros H. unfold st_bind. by rewrite H. Qed.
Lemma bind_err {S E A B} (m : St S E A) (k : A → St S E B) s e s' :
  m s = (Err e, s') → st_bind m k s = (Err e, s').
Proof. intros H. unfold st_bind. by rewrite H. Qed.

End ideal_steps.

#[export] Hint Rewrite @ideal_begin @ideal_open @ideal_get @ideal_insert @ideal_iter @ideal_range
  @ideal_entry @ideal_ret @ideal_commit_bind @ideal_commit @ideal_encode @ideal_decode
  @ideal_decode_last : ideal.

Ltac ideal_run := autorewrite with ideal; cbv beta zeta; cbn [fst snd].
