(* ===== verification/StorageReads.v ===== *)
(** * The reads of the storage engine compute functions of the abstract store

    Over tables that represent a store ([Repr]), each read method of
    [RedbEngine] on the [ideal] database returns the corresponding function of
    the store and changes nothing. *)
From S2P Require Import Prelude Core Redb Keys Storage StorageSpec.

Section reads.
Context {R : Redb} {RO : RedbOk R} {C : Codecs} {CO : CodecsOk C}.
Implicit Types (t : Tables) (a : Abs).

Abbreviation M0 A := (St (@db Tables (ideal Tables)) StorageError A).

Lemma get_machine_read t a n v :
  Repr t a →
  get_machine (T:=ideal _) n v t
  = (ok_or (a_machines a !! n) (NotFound ("machine '" +:+ n +:+ "'")), t).
Proof.
  intros HR. unfold get_machine. ideal_run. pose proof (r_machines _ _ HR n) as Hm.
  destruct (a_machines a !! n) as [d|].
  - apply decodes_inv_Some in Hm as (b & -> & Hb). ideal_run. by rewrite Hb.
  - by apply decodes_inv_None in Hm as ->.
Qed.

Lemma get_entity_state_read t a e m :
  Repr t a → nul_free e = true → nul_free m = true →
  get_entity_state (T:=ideal _) e m t
  = (ok_or (a_states a !! (e, m))
       (NotFound ("entity '" +:+ e +:+ "' in machine '" +:+ m +:+ "'")), t).
Proof.
  intros HR He Hm. unfold get_entity_state. ideal_run.
  pose proof (r_states _ _ HR e m He Hm) as Hs.
  destruct (a_states a !! (e, m)) as [d|].
  - apply decodes_inv_Some in Hs as (b & -> & Hb). ideal_run. by rewrite Hb.
  - by apply decodes_inv_None in Hs as ->.
Qed.

Lemma get_record_at_read t a k r :
  Repr t a → log_at (a_log a) k = Some r →
  get_record_at (T:=ideal _) (TRANSITIONS t) k t = (Ok r, t).
Proof.
  intros HR Hk. unfold get_record_at. ideal_run. pose proof (r_log _ _ HR k) as Hl.
  rewrite Hk in Hl. apply decodes_inv_Some in Hl as (b & -> & Hb). ideal_run. by rewrite Hb.
Qed.

Lemma check_idempotency_read t a key :
  Repr t a → check_idempotency (T:=ideal _) key t = (Ok (find_idem (a_log a) key), t).
Proof.
  intros HR. unfold check_idempotency, find_idem. ideal_run.
  destruct (t_get (IDEMPOTENCY t) key) as [k|] eqn:Hk.
  - pose proof Hk as (r & Hr & Hkey)%(r_idem _ _ HR). ideal_run.
    rewrite (bind_ok _ _ _ _ _ (get_record_at_read t a k r HR Hr)). unfold st_ret. do 2 f_equal.
    destruct (List.find _ _) as [r'|] eqn:Hf.
    + apply find_some in Hf as [Hin Hr'%bool_decide_eq_true].
      apply list_elem_of_In, elem_log_at in Hin as [k' Hk'].
      assert (t_get (IDEMPOTENCY t) key = Some k') by (apply (r_idem _ _ HR); eauto). congruence.
    + apply log_at_elem, list_elem_of_In in Hr.
      pose proof (find_none _ _ Hf r Hr) as Hn. simpl in Hn.
      by apply bool_decide_eq_false in Hn.
  - destruct (List.find _ _) as [r'|] eqn:Hf; [|done].
    apply find_some in Hf as [Hin Hr'%bool_decide_eq_true].
    apply list_elem_of_In, elem_log_at in Hin as [k' Hk'].
    assert (t_get (IDEMPOTENCY t) key = Some k') by (apply (r_idem _ _ HR); eauto). congruence.
Qed.

Lemma get_transition_read t a i :
  Repr t a →
  get_transition (T:=ideal _) i t
  = (ok_or (find_id (a_log a) i) (NotFound ("transition '" +:+ i +:+ "'")), t).
Proof.
  intros HR. unfold get_transition, find_id. ideal_run.
  destruct (t_get (TRANSITIONS_BY_ID t) i) as [k|] eqn:Hk.
  - pose proof Hk as (r & Hr & Hkey)%(r_by_id _ _ HR). ideal_run.
    rewrite (get_record_at_read t a k r) by done. f_equal.
    destruct (List.find _ _) as [r'|] eqn:Hf.
    + apply find_some in Hf as [Hin Hr'%bool_decide_eq_true].
      apply list_elem_of_In, elem_log_at in Hin as [k' Hk'].
      assert (t_get (TRANSITIONS_BY_ID t) i = Some k') by (apply (r_by_id _ _ HR); eauto).
      simpl. congruence.
    + apply log_at_elem, list_elem_of_In in Hr.
      pose proof (find_none _ _ Hf r Hr) as Hn. simpl in Hn.
      by apply bool_decide_eq_false in Hn.
  - destruct (List.find _ _) as [r'|] eqn:Hf; [|done].
    apply find_some in Hf as [Hin Hr'%bool_decide_eq_true].
    apply list_elem_of_In, elem_log_at in Hin as [k' Hk'].
    assert (t_get (TRANSITIONS_BY_ID t) i = Some k') by (apply (r_by_id _ _ HR); eauto).
    congruence.
Qed.

Lemma current_sequence_read t a :
  Repr t a → current_sequence (T:=ideal _) t = (Ok (N.of_nat (length (a_log a))), t).
Proof. intros HR. unfold current_sequence. ideal_run. by rewrite (r_seq _ _ HR). Qed.

(** ** Log order *)

Definition seq_lt (r r' : TransitionRecord) : Prop := (rec_sequence r < rec_sequence r')%N.

Lemma seq_sorted_unique (l1 l2 : list TransitionRecord) :
  StronglySorted seq_lt l1 → StronglySorted seq_lt l2 → (∀ r, r ∈ l1 ↔ r ∈ l2) → l1 = l2.
Proof.
  apply strictly_sorted_unique; unfold seq_lt; [lia|]. intros x y z. lia.
Qed.

Lemma repr_log_sorted t a : Repr t a → StronglySorted seq_lt (a_log a).
Proof. intros HR. apply log_sorted. apply (r_log_seq _ _ HR). Qed.
Hint Resolve repr_log_sorted : sorted.

Lemma repr_log_at_elem t a r :
  Repr t a → r ∈ a_log a ↔ log_at (a_log a) (rec_sequence r) = Some r.
Proof.
  intros HR. split; [|apply log_at_elem].
  intros [k Hk]%elem_log_at. by rewrite (r_log_seq _ _ HR _ _ Hk).
Qed.

(** ** Histories *)

(** The loop of [get_history] over index entries whose records are known. *)
Lemma collect_history_run t tbl prefix limit after (entries : list (string * N))
    (f : string * N → option TransitionRecord) results :
  (∀ kv, kv ∈ entries →
     if starts_with kv.1 prefix
     then ∃ r b, f kv = Some r ∧ rec_sequence r = kv.2
                 ∧ t_get tbl kv.2 = Some b ∧ from_slice b = Ok r
     else f kv = None) →
  collect_history (T:=ideal _) tbl prefix limit after entries results t
  = (Ok (results ++ take (N.to_nat limit - length results)
       (filter (λ r, (after < rec_sequence r)%N) (omap f entries))), t).
Proof.
  revert results. induction entries as [|[key k] entries IH]; intros results Hf;
    cbn [collect_history].
  { simpl. by rewrite filter_nil, take_nil, app_nil_r. }
  assert (∀ kv, kv ∈ entries → kv ∈ (key, k) :: entries) as Hsub.
  { intros. by apply elem_of_cons; right. }
  pose proof (λ rs, IH rs (λ kv Hkv, Hf kv (Hsub kv Hkv))) as IH'. clear IH.
  pose proof (Hf (key, k) ltac:(constructor)) as Hk. cbn [fst snd] in Hk.
  ideal_run. cbn [omap list_omap].
  destruct (starts_with key prefix) eqn:Hp; cbn [negb]; [|rewrite Hk; apply IH'].
  destruct Hk as (r & b & -> & <- & Hb & Hdec). rewrite filter_cons.
  destruct (N.leb_spec (rec_sequence r) after) as [Hle|Hlt].
  { rewrite decide_False by lia. apply IH'. }
  rewrite decide_True by lia.
  destruct (N.leb_spec limit (N.of_nat (length results))) as [Hfull|Hroom].
  { replace (N.to_nat limit - length results) with 0 by lia. by rewrite take_0, app_nil_r. }
  ideal_run. rewrite Hb. ideal_run. rewrite Hdec, IH', length_app. cbn [length].
  replace (N.to_nat limit - length results) with (S (N.to_nat limit - (length results + 1))) by lia.
  rewrite firstn_cons, <- app_assoc. done.
Qed.

(** The index entries of one entity, in key order, are its history. *)
Definition hist_entry (log : list TransitionRecord) (prefix : string) (kv : string * N)
    : option TransitionRecord :=
  if starts_with kv.1 prefix then log_at log kv.2 else None.

Lemma index_entry t a kv :
  Repr t a → kv ∈ t_iter (ENTITY_TRANSITIONS t) →
  ∃ r, log_at (a_log a) kv.2 = Some r
       ∧ kv.1 = entity_transition_key (rec_entity_id r) (rec_machine r) kv.2
       ∧ nul_free (rec_entity_id r) = true ∧ nul_free (rec_machine r) = true
       ∧ rec_sequence r = kv.2 ∧ (kv.2 <= u64_max)%N.
Proof.
  intros HR Hin. destruct kv as [key k]. apply iter_elem, (r_index _ _ HR) in Hin.
  destruct Hin as (r & Hr & Hkey). exists r. cbn.
  destruct (r_log_nul _ _ HR r) as (? & ? & _); [by eapply log_at_elem|].
  pose proof (log_at_bound _ _ _ Hr). pose proof (r_bound _ _ HR).
  split_and!; [done|done|done|done| |lia]. by apply (r_log_seq _ _ HR).
Qed.

Lemma index_history t a e m :
  Repr t a → nul_free e = true → nul_free m = true →
  omap (hist_entry (a_log a) (entity_transition_prefix e m)) (t_iter (ENTITY_TRANSITIONS t))
  = hist e m (a_log a).
Proof.
  intros HR He Hm. apply seq_sorted_unique.
  - eapply StronglySorted_omap; [|apply iter_strict].
    intros x y rx ry Hx Hy Hfx Hfy [Hle Hne].
    destruct (index_entry t a x HR Hx) as (r1 & Hr1 & Hk1 & ? & ? & Hs1 & Hb1).
    destruct (index_entry t a y HR Hy) as (r2 & Hr2 & Hk2 & ? & ? & Hs2 & Hb2).
    unfold hist_entry in Hfx, Hfy. rewrite Hk1 in Hfx. rewrite Hk2 in Hfy.
    destruct (starts_with (entity_transition_key (rec_entity_id r1) _ _) _) eqn:Hp1; [|done].
    destruct (starts_with (entity_transition_key (rec_entity_id r2) _ _) _) eqn:Hp2; [|done].
    apply entity_transition_prefix_match in Hp1 as [E1 E1']; [|done..].
    apply entity_transition_prefix_match in Hp2 as [E2 E2']; [|done..].
    assert (r1 = rx) as -> by congruence. assert (r2 = ry) as -> by congruence.
    unfold seq_lt.
    destruct (N.lt_ge_cases (rec_sequence rx) (rec_sequence ry)) as [|Hge]; [done|].
    exfalso. apply Hne. rewrite Hk1, Hk2, E1, E1', E2, E2' in Hle.
    rewrite Hk1, Hk2, E1, E1', E2, E2'.
    apply (anti_symm String.le); [exact Hle|]. apply entity_transition_key_le; lia.
  - eauto with sorted.
  - intros r. unfold hist. rewrite list_elem_of_omap, list_elem_of_filter. split.
    + intros (x & Hx & Hfx). destruct (index_entry t a x HR Hx) as (r1 & Hr1 & Hk1 & ? & ? & _ & _).
      unfold hist_entry in Hfx. rewrite Hk1 in Hfx.
      destruct (starts_with _ _) eqn:Hp1; [|done].
      apply entity_transition_prefix_match in Hp1 as [E1 E1']; [|done..].
      simplify_eq. eauto using log_at_elem.
    + intros ([<- <-] & Hin). pose proof Hin as Hk%(repr_log_at_elem _ _ _ HR).
      exists (entity_transition_key (rec_entity_id r) (rec_machine r) (rec_sequence r),
              rec_sequence r). split; [apply iter_elem, (r_index _ _ HR); eauto|].
      unfold hist_entry. cbn [fst snd].
      destruct (starts_with _ _) eqn:Hp; [done|].
      destruct (r_log_nul _ _ HR r Hin) as (? & ? & _).
      by rewrite (proj2 (entity_transition_prefix_match (rec_entity_id r) (rec_machine r)
        (rec_entity_id r) (rec_machine r) _ ltac:(done) ltac:(done) ltac:(done) ltac:(done))
        (conj eq_refl eq_refl)) in Hp.
Qed.

Lemma get_history_read t a e m limit after :
  Repr t a → nul_free e = true → nul_free m = true →
  get_history (T:=ideal _) e m limit after t
  = (Ok (page (default u32_max limit) (default 0%N after) (hist e m (a_log a))), t).
Proof.
  intros HR He Hm. unfold get_history. ideal_run.
  rewrite (collect_history_run _ _ _ _ _ _
    (hist_entry (a_log a) (entity_transition_prefix e m))).
  { rewrite (index_history t a e m HR He Hm), Nat.sub_0_r. done. }
  intros kv Hkv. destruct (index_entry t a kv HR Hkv) as (r & Hr & _ & _ & _ & Hs & _).
  unfold hist_entry. destruct (starts_with kv.1 _); [|done].
  pose proof (r_log _ _ HR kv.2) as Hl. rewrite Hr in Hl.
  apply decodes_inv_Some in Hl as (b & Hb & Hd). eauto 10.
Qed.

(** ** The log after a cursor *)

Lemma collect_after_run t limit (entries : list (N * bytes))
    (f : N * bytes → option TransitionRecord) results :
  (∀ kv, kv ∈ entries → ∃ r, f kv = Some r ∧ from_slice kv.2 = Ok r) →
  collect_after (T:=ideal _) limit entries results t
  = (Ok (results ++ take (N.to_nat limit - length results) (omap f entries)), t).
Proof.
  revert results. induction entries as [|kv entries IH]; intros results Hf;
    cbn [collect_after].
  { simpl. by rewrite take_nil, app_nil_r. }
  assert (∀ x, x ∈ entries → ∃ r, f x = Some r ∧ from_slice x.2 = Ok r) as Hf'.
  { intros. apply Hf. by apply elem_of_cons; right. }
  destruct (Hf kv ltac:(constructor)) as (r & Hr & Hd). cbn [omap list_omap]. rewrite Hr.
  destruct (N.leb_spec limit (N.of_nat (length results))) as [Hfull|Hroom].
  { replace (N.to_nat limit - length results) with 0 by lia. by rewrite take_0, app_nil_r. }
  ideal_run. rewrite Hd, IH, length_app by done. cbn [length].
  replace (N.to_nat limit - length results) with (S (N.to_nat limit - (length results + 1))) by lia.
  rewrite firstn_cons, <- app_assoc. done.
Qed.

Lemma log_entry t a kv :
  Repr t a → kv ∈ t_iter (TRANSITIONS t) →
  ∃ r, log_at (a_log a) kv.1 = Some r ∧ from_slice kv.2 = Ok r ∧ rec_sequence r = kv.1.
Proof.
  intros HR Hin. destruct kv as [k b]. apply iter_elem in Hin.
  pose proof (r_log _ _ HR k) as Hl. rewrite Hin in Hl. cbn.
  destruct (log_at (a_log a) k) as [r|] eqn:Hr; [|by inv Hl].
  apply decodes_inv_Some in Hl as (b' & [= <-] & Hd).
  exists r. split_and!; [done|done|]. by apply (r_log_seq _ _ HR).
Qed.

Lemma range_log t a start :
  Repr t a →
  omap (λ kv, log_at (a_log a) kv.1) (t_range (TRANSITIONS t) start)
  = filter (λ r, (start <= rec_sequence r)%N) (a_log a).
Proof.
  intros HR. rewrite range_iter. apply seq_sorted_unique.
  - eapply StronglySorted_omap; [|apply StronglySorted_filter, iter_strict].
    intros x y rx ry [_ Hx]%list_elem_of_filter [_ Hy]%list_elem_of_filter Hfx Hfy [Hle Hne].
    unfold seq_lt.
    rewrite (r_log_seq _ _ HR _ _ Hfx), (r_log_seq _ _ HR _ _ Hfy). simpl in Hle. lia.
  - eauto with sorted.
  - intros r. rewrite list_elem_of_omap, list_elem_of_filter. split.
    + intros (x & [Hs Hx]%list_elem_of_filter & Hr).
      rewrite (r_log_seq _ _ HR _ _ Hr). eauto using log_at_elem.
    + intros [Hs Hin]. pose proof Hin as Hk%(repr_log_at_elem _ _ _ HR).
      pose proof (r_log _ _ HR (rec_sequence r)) as Hl. rewrite Hk in Hl.
      apply decodes_inv_Some in Hl as (b & Hb & _).
      exists (rec_sequence r, b). split; [|done]. apply list_elem_of_filter.
      split; [done|]. by apply iter_elem.
Qed.

Lemma get_transitions_after_read t a after limit :
  Repr t a →
  get_transitions_after (T:=ideal _) after limit t
  = (Ok (take (N.to_nat limit)
           (filter (λ r, (add64 after 1 <= rec_sequence r)%N) (a_log a))), t).
Proof.
  intros HR. unfold get_transitions_after. ideal_run.
  rewrite (collect_after_run _ _ _ (λ kv, log_at (a_log a) kv.1)).
  { rewrite (range_log t a _ HR), Nat.sub_0_r. done. }
  intros kv. rewrite range_iter. intros [_ Hkv]%list_elem_of_filter.
  destruct (log_entry t a kv HR Hkv) as (r & ? & ? & _). eauto.
Qed.

(** ** The outbox *)

Lemma collect_effects_run t tbl prefix (entries : list (string * string))
    (f : string * string → option Effect) results :
  (∀ kv, kv ∈ entries →
     if starts_with kv.1 prefix
     then ∃ e b, f kv = Some e ∧ t_get tbl kv.2 = Some b ∧ from_slice b = Ok e
     else f kv = None) →
  StronglySorted (λ x y, starts_with x.1 prefix = false → starts_with y.1 prefix = false)
    entries →
  collect_effects_for (T:=ideal _) tbl prefix entries results t
  = (Ok (results ++ omap f entries), t).
Proof.
  intros Hf HS. revert results Hf. induction HS as [|kv entries HS IH Hall]; intros results Hf;
    cbn [collect_effects_for].
  { simpl. by rewrite app_nil_r. }
  pose proof (λ rs, IH rs (λ x Hx, Hf x (proj2 (elem_of_cons _ _ _) (or_intror Hx)))) as IH'.
  pose proof (Hf kv ltac:(constructor)) as Hk. ideal_run. cbn [omap list_omap].
  destruct (starts_with kv.1 prefix) eqn:Hp; cbn [negb].
  - destruct Hk as (e & b & -> & Hb & Hd). ideal_run. rewrite Hb. ideal_run.
    rewrite Hd, IH', <- app_assoc. done.
  - assert (omap f entries = []) as Hnil.
    { clear -Hf Hall Hp. rewrite Forall_forall in Hall.
      destruct (omap f entries) as [|e l] eqn:E; [done|].
      assert (e ∈ omap f entries) as (x & Hx & Hfx)%list_elem_of_omap
        by (rewrite E; constructor).
      pose proof (Hf x (proj2 (elem_of_cons _ _ _) (or_intror Hx))) as Hfx'.
      rewrite (Hall x Hx eq_refl) in Hfx'. congruence. }
    rewrite Hk, Hnil, app_nil_r. done.
Qed.

Definition effect_entry (o : gmap string Effect) (prefix : string) (kv : string * string)
    : option Effect :=
  if starts_with kv.1 prefix then o !! kv.2 else None.

Lemma effects_entry tbl by_txn o kv :
  effects_repr tbl by_txn o → kv ∈ t_iter by_txn →
  ∃ e, o !! kv.2 = Some e ∧ kv.1 = effect_by_txn_key (eff_transition_id e) kv.2
       ∧ eff_id e = kv.2 ∧ nul_free (eff_transition_id e) = true.
Proof.
  intros HR Hin. destruct kv as [key i]. apply iter_elem, (er_index _ _ _ HR) in Hin.
  destruct Hin as (e & He & Hkey). exists e. destruct (er_keys _ _ _ HR i e He). done.
Qed.

(** An entry under the prefix of a transition is an effect of it. *)
Lemma effect_entry_inv tbl by_txn o kv i e :
  effects_repr tbl by_txn o → kv ∈ t_iter by_txn → nul_free i = true →
  effect_entry o (effect_by_txn_prefix i) kv = Some e →
  o !! eff_id e = Some e ∧ eff_transition_id e = i ∧ kv.1 = effect_by_txn_key i (eff_id e).
Proof.
  intros HE Hin Hi. destruct (effects_entry _ _ _ kv HE Hin) as (e1 & He1 & Hk & Hid & Hn).
  unfold effect_entry. destruct (starts_with kv.1 _) eqn:P; [|done]. intros He.
  assert (e1 = e) as -> by congruence. rewrite Hk in P. apply effect_by_txn_prefix_match in P; [|done..].
  split_and!; [by rewrite Hid|done|by rewrite Hk, P, Hid].
Qed.

(** From the prefix on, the keys under it come first. *)
Lemma prefix_first p (l : list (string * string)) :
  StronglySorted (λ x y, key_le x.1 y.1 ∧ x.1 ≠ y.1) l → (∀ kv, kv ∈ l → String.le p kv.1) →
  StronglySorted (λ x y, starts_with x.1 p = false → starts_with y.1 p = false) l.
Proof.
  intros HS Hge. induction HS as [|x l HS IH Hall]; constructor.
  - apply IH. intros kv Hkv. apply Hge. by apply elem_of_cons; right.
  - apply Forall_forall. intros y Hy Hx. rewrite Forall_forall in Hall.
    destruct (starts_with y.1 p) eqn:Hyp; [|done].
    apply starts_with_spec in Hyp as [z Hz]. destruct (Hall y Hy) as [Hle _].
    rewrite Hz in Hle. destruct (prefix_interval p x.1 z (Hge x ltac:(constructor)) Hle) as [w Hw].
    assert (starts_with x.1 p = true) by (apply starts_with_spec; eauto). congruence.
Qed.

Lemma get_effects_read t a i :
  Repr t a → nul_free i = true →
  ∃ l, get_effects_for_transition (T:=ideal _) i t = (Ok l, t)
    ∧ StronglySorted eff_lt l
    ∧ ∀ e, e ∈ l ↔ a_outbox a !! eff_id e = Some e ∧ eff_transition_id e = i.
Proof.
  intros HR Hi. pose proof (r_effects _ _ HR) as HE.
  set (p := effect_by_txn_prefix i). set (entries := t_range (EFFECTS_BY_TXN t) p).
  assert (∀ kv, kv ∈ entries → kv ∈ t_iter (EFFECTS_BY_TXN t) ∧ String.le p kv.1) as Hent.
  { intros kv. unfold entries. rewrite range_iter. by intros [??]%list_elem_of_filter. }
  assert (StronglySorted (λ x y, key_le x.1 y.1 ∧ x.1 ≠ y.1) entries) as HS.
  { unfold entries. rewrite range_iter. apply StronglySorted_filter, iter_strict. }
  exists (omap (effect_entry (a_outbox a) p) entries). split_and!.
  - unfold get_effects_for_transition. ideal_run.
    rewrite (collect_effects_run _ _ _ _ (effect_entry (a_outbox a) p)); [done| |].
    + intros kv [Hkv _]%Hent. destruct (effects_entry _ _ _ kv HE Hkv) as (e & He & _).
      unfold effect_entry. fold p. destruct (starts_with kv.1 p); [|done].
      pose proof (er_tbl _ _ _ HE kv.2) as Hd. rewrite He in Hd.
      apply decodes_inv_Some in Hd as (b & Hb & Hd). eauto.
    + apply prefix_first; [exact HS|]. by intros kv [_ ?]%Hent.
  - eapply StronglySorted_omap; [|exact HS].
    intros x y ex ey [Hx _]%Hent [Hy _]%Hent Hfx Hfy [Hle Hne].
    destruct (effect_entry_inv _ _ _ _ _ _ HE Hx Hi Hfx) as (_ & _ & Hk1).
    destruct (effect_entry_inv _ _ _ _ _ _ HE Hy Hi Hfy) as (_ & _ & Hk2).
    rewrite Hk1, Hk2 in Hle, Hne. split.
    + simpl in Hle. unfold effect_by_txn_key in Hle. by rewrite !string_le_app in Hle.
    + intros E. by rewrite E in Hne.
  - intros e. rewrite list_elem_of_omap. split.
    + intros (x & [Hx _]%Hent & Hfx). by destruct (effect_entry_inv _ _ _ _ _ _ HE Hx Hi Hfx) as (? & ? & _).
    + intros [He Ht]. destruct (er_keys _ _ _ HE _ _ He) as [_ Hn].
      exists (effect_by_txn_key (eff_transition_id e) (eff_id e), eff_id e).
      assert (starts_with (effect_by_txn_key (eff_transition_id e) (eff_id e)) p = true) as P.
      { unfold p. rewrite Ht in *. by apply effect_by_txn_prefix_match. }
      split; [|unfold effect_entry; cbn [fst snd]; by rewrite P].
      unfold entries. rewrite range_iter. apply list_elem_of_filter. split.
      * cbn. apply starts_with_spec in P as [z ->].
        rewrite <- (app_nil_r_string p) at 1. apply string_le_app. by destruct z.
      * apply iter_elem, (er_index _ _ _ HE). eauto.
Qed.

Lemma collect_pending_run t limit (entries : list (string * bytes))
    (f : string * bytes → option Effect) results :
  (∀ kv, kv ∈ entries → ∃ e, f kv = Some e ∧ from_slice kv.2 = Ok e) →
  collect_pending (T:=ideal _) limit entries results t
  = (Ok (results ++ take (N.to_nat limit - length results)
       (filter (λ e, eff_status e = Pending) (omap f entries))), t).
Proof.
  revert results. induction entries as [|kv entries IH]; intros results Hf;
    cbn [collect_pending].
  { simpl. by rewrite filter_nil, take_nil, app_nil_r. }
  assert (∀ x, x ∈ entries → ∃ e, f x = Some e ∧ from_slice x.2 = Ok e) as Hf'.
  { intros. apply Hf. by apply elem_of_cons; right. }
  destruct (Hf kv ltac:(constructor)) as (e & He & Hd). cbn [omap list_omap]. rewrite He.
  destruct (N.leb_spec limit (N.of_nat (length results))) as [Hfull|Hroom].
  { replace (N.to_nat limit - length results) with 0 by lia. by rewrite take_0, app_nil_r. }
  ideal_run. rewrite Hd, IH by done. rewrite filter_cons. case_decide; [|done].
  rewrite length_app. cbn [length].
  replace (N.to_nat limit - length results) with (S (N.to_nat limit - (length results + 1))) by lia.
  rewrite firstn_cons, <- app_assoc. done.
Qed.

(** Decoding the entries of a byte table. *)
Definition entry_value {A} `{Serde A} {K} (kv : K * bytes) : option A :=
  match from_slice kv.2 with Ok x => Some x | Err _ => None end.

Lemma get_pending_read t a limit :
  Repr t a →
  ∃ l, get_pending_effects (T:=ideal _) limit t = (Ok (take (N.to_nat limit) l), t)
    ∧ StronglySorted eff_lt l
    ∧ ∀ e, e ∈ l ↔ a_outbox a !! eff_id e = Some e ∧ eff_status e = Pending.
Proof.
  intros HR. pose proof (r_effects _ _ HR) as HE.
  assert (∀ kv, kv ∈ t_iter (EFFECTS t) →
    ∃ e, a_outbox a !! kv.1 = Some e ∧ from_slice kv.2 = Ok e ∧ eff_id e = kv.1) as Hent.
  { intros [i b] Hi%iter_elem. pose proof (er_tbl _ _ _ HE i) as Hd. rewrite Hi in Hd.
    cbn. destruct (a_outbox a !! i) as [e|] eqn:He; [|by inv Hd].
    apply decodes_inv_Some in Hd as (b' & [= <-] & Hd).
    exists e. split_and!; [done|done|]. by apply (er_keys _ _ _ HE). }
  exists (filter (λ e, eff_status e = Pending) (omap entry_value (t_iter (EFFECTS t)))).
  split_and!.
  - unfold get_pending_effects. ideal_run.
    rewrite (collect_pending_run _ _ _ entry_value), Nat.sub_0_r; [done|].
    intros kv (e & _ & Hd & _)%Hent. exists e. unfold entry_value. cbn [snd]. by rewrite Hd.
  - apply StronglySorted_filter. eapply StronglySorted_omap; [|apply iter_strict].
    intros x y ex ey (e1 & _ & Hd1 & Hi1)%Hent (e2 & _ & Hd2 & Hi2)%Hent.
    unfold entry_value. rewrite Hd1, Hd2. intros [= <-] [= <-].
    unfold eff_lt. by rewrite Hi1, Hi2.
  - intros e. rewrite list_elem_of_filter, list_elem_of_omap. split.
    + intros (Hp & x & Hx & Hv). destruct (Hent x Hx) as (e' & Ho & Hd & Hi).
      unfold entry_value in Hv. rewrite Hd in Hv. simplify_eq. by rewrite Hi.
    + intros [Ho Hp]. split; [done|]. pose proof (er_tbl _ _ _ HE (eff_id e)) as Hd.
      rewrite Ho in Hd. apply decodes_inv_Some in Hd as (b & Hb & Hd).
      exists (eff_id e, b). split; [by apply iter_elem|]. unfold entry_value. cbn [snd]. by rewrite Hd.
Qed.

(** ** Listings *)

Lemma collect_machines_run t (entries : list (string * bytes)) results :
  (∀ kv, kv ∈ entries → is_Some (entry_value (A:=MachineDefinition) kv)) →
  collect_machines (T:=ideal _) entries results t
  = (Ok (results ++ omap entry_value entries), t).
Proof.
  revert results. induction entries as [|kv entries IH]; intros results Hf;
    cbn [collect_machines].
  { simpl. by rewrite app_nil_r. }
  destruct (Hf kv ltac:(constructor)) as [d Hd]. cbn [omap list_omap]. rewrite Hd.
  unfold entry_value in Hd. ideal_run. destruct (from_slice kv.2); simplify_eq.
  rewrite IH, <- app_assoc; [done|]. intros. apply Hf. by apply elem_of_cons; right.
Qed.

Lemma list_machines_read t a :
  Repr t a →
  ∃ l, list_machines (T:=ideal _) t = (Ok l, t)
    ∧ StronglySorted name_lt l
    ∧ ∀ d, d ∈ l ↔ a_machines a !! md_name d = Some d.
Proof.
  intros HR.
  assert (∀ kv, kv ∈ t_iter (MACHINES t) →
    ∃ d, a_machines a !! kv.1 = Some d ∧ entry_value kv = Some d ∧ md_name d = kv.1) as Hent.
  { intros [n b] Hi%iter_elem. pose proof (r_machines _ _ HR n) as Hd. rewrite Hi in Hd.
    cbn. destruct (a_machines a !! n) as [d|] eqn:He; [|by inv Hd].
    apply decodes_inv_Some in Hd as (b' & [= <-] & Hd). exists d.
    unfold entry_value. cbn. rewrite Hd. split_and!; [done|done|]. by apply (r_machine_name _ _ HR). }
  exists (omap entry_value (t_iter (MACHINES t))). split_and!.
  - unfold list_machines. ideal_run. rewrite collect_machines_run; [done|].
    intros kv (d & _ & Hd & _)%Hent. eauto.
  - eapply StronglySorted_omap; [|apply iter_strict].
    intros x y dx dy (d1 & _ & Hd1 & Hi1)%Hent (d2 & _ & Hd2 & Hi2)%Hent. rewrite Hd1, Hd2.
    intros [= <-] [= <-]. unfold name_lt. by rewrite Hi1, Hi2.
  - intros d. rewrite list_elem_of_omap. split.
    + intros (x & Hx & Hv). destruct (Hent x Hx) as (d' & Ho & Hd & Hi).
      simplify_eq. by rewrite Hi.
    + intros Ho. pose proof (r_machines _ _ HR (md_name d)) as Hd. rewrite Ho in Hd.
      apply decodes_inv_Some in Hd as (b & Hb & Hd).
      exists (md_name d, b). split; [by apply iter_elem|]. unfold entry_value. cbn [snd]. by rewrite Hd.
Qed.

Lemma collect_entities_run t m st (entries : list (string * bytes)) results :
  (∀ kv, kv ∈ entries → ∃ s, entry_value kv = Some s
     ∧ (es_machine s = m → contains kv.1 (nul +:+ m) = true)) →
  collect_entities (T:=ideal _) m st entries results t
  = (Ok (results ++ filter (λ s, es_machine s = m ∧ es_current_state s = st)
       (omap entry_value entries)), t).
Proof.
  revert results. induction entries as [|kv entries IH]; intros results Hf;
    cbn [collect_entities].
  { simpl. by rewrite filter_nil, app_nil_r. }
  destruct (Hf kv ltac:(constructor)) as (s & Hs & Hc). cbn [omap list_omap]. rewrite Hs.
  pose proof (λ rs, IH rs (λ x Hx, Hf x (proj2 (elem_of_cons _ _ _) (or_intror Hx)))) as IH'.
  unfold entry_value in Hs. ideal_run. destruct (from_slice kv.2) eqn:Hd; simplify_eq.
  rewrite filter_cons. destruct (contains kv.1 (nul +:+ m)).
  - ideal_run. rewrite Hd, IH'. repeat case_bool_decide; case_decide; try tauto; cbn [andb]; try done.
    by rewrite <- app_assoc.
  - rewrite IH', decide_False; [done|]. intros [Hm _]. by specialize (Hc Hm).
Qed.

Lemma list_entities_read t a m st :
  Repr t a →
  ∃ l, list_entities_in_state (T:=ideal _) m st t = (Ok l, t)
    ∧ NoDup l
    ∧ ∀ s, s ∈ l ↔ a_states a !! (es_entity_id s, es_machine s) = Some s
                   ∧ es_machine s = m ∧ es_current_state s = st.
Proof.
  intros HR.
  assert (∀ kv, kv ∈ t_iter (ENTITY_STATES t) →
    ∃ s, a_states a !! (es_entity_id s, es_machine s) = Some s ∧ entry_value kv = Some s
         ∧ kv.1 = entity_state_key (es_entity_id s) (es_machine s)) as Hent.
  { intros [key b] Hi%iter_elem.
    destruct (r_states_dom _ _ HR key) as (e & mm & s & Hs & ->); [by rewrite Hi|].
    destruct (r_states_ids _ _ HR e mm s Hs) as (<- & <- & ? & ?).
    pose proof (r_states _ _ HR (es_entity_id s) (es_machine s) ltac:(done) ltac:(done)) as Hd.
    rewrite Hi, Hs in Hd. apply decodes_inv_Some in Hd as (b' & [= <-] & Hd).
    exists s. unfold entry_value. cbn. by rewrite Hd. }
  exists (filter (λ s, es_machine s = m ∧ es_current_state s = st)
    (omap entry_value (t_iter (ENTITY_STATES t)))). split_and!.
  - unfold list_entities_in_state. ideal_run. rewrite collect_entities_run; [done|].
    intros kv (s & _ & Hs & Hk)%Hent. exists s. split; [done|]. intros <-. rewrite Hk.
    apply contains_suffix.
  - apply NoDup_filter, (StronglySorted_NoDup (λ s s',
      entity_state_key (es_entity_id s) (es_machine s)
      ≠ entity_state_key (es_entity_id s') (es_machine s'))); [naive_solver|].
    eapply StronglySorted_omap; [|apply iter_strict].
    intros x y sx sy (s1 & _ & Hd1 & Hi1)%Hent (s2 & _ & Hd2 & Hi2)%Hent. rewrite Hd1, Hd2.
    intros [= <-] [= <-] [_ Hne]. by rewrite <- Hi1, <- Hi2.
  - intros s. rewrite list_elem_of_filter, list_elem_of_omap. split.
    + intros (Hp & x & Hx & Hv). destruct (Hent x Hx) as (s' & Ho & Hd & Hi). by simplify_eq.
    + intros (Ho & Hm & Hst). split; [done|].
      destruct (r_states_ids _ _ HR _ _ s Ho) as (_ & _ & ? & ?).
      pose proof (r_states _ _ HR (es_entity_id s) (es_machine s) ltac:(done) ltac:(done)) as Hd.
      rewrite Ho in Hd. apply decodes_inv_Some in Hd as (b & Hb & Hd).
      eexists (_, b). split; [by apply iter_elem|]. unfold entry_value. cbn [snd]. by rewrite Hd.
Qed.

End reads.

#[export] Hint Resolve repr_log_sorted : sorted.
