(* ===== verification/StorageWrites.v ===== *)
(** * The writes of the storage engine implement the abstract store

    On the [ideal] database each write method takes tables that represent a
    store to tables that represent the store after the corresponding abstract
    operation; the only other outcome is an encoding error that changes
    nothing. *)
From S2P Require Import Prelude Core Redb Keys Storage StorageSpec.

Section writes.
Context {R : Redb} {RO : RedbOk R} {C : Codecs} {CO : CodecsOk C}.
Implicit Types (t : Tables) (a : Abs).

(** ** Indexes over the log *)

Definition log_index (tbl : table string N) (log : list TransitionRecord)
    (P : N → TransitionRecord → string → Prop) : Prop :=
  ∀ key k, t_get tbl key = Some k ↔ ∃ r, log_at log k = Some r ∧ P k r key.

Lemma log_index_insert tbl log P r key :
  log_index tbl log P →
  let seq := N.of_nat (S (length log)) in
  P seq r key → (∀ key', P seq r key' → key' = key) →
  (∀ k r0, log_at log k = Some r0 → ¬ P k r0 key) →
  log_index (t_insert tbl key seq) (log ++ [r]) P.
Proof.
  intros HI seq HP Huniq Hfresh key' k. rewrite get_insert. case_decide as Hk.
  - subst key'. split.
    + intros [= <-]. exists r. split; [|done]. rewrite log_at_snoc. by case_decide.
    + intros (r0 & Hr0 & HP0). rewrite log_at_snoc in Hr0. case_decide; [by subst|].
      by destruct (Hfresh k r0).
  - rewrite (HI key' k). split; intros (r0 & Hr0 & HP0).
    + exists r0. split; [|done]. rewrite log_at_snoc. pose proof (log_at_bound _ _ _ Hr0).
      case_decide; [lia|done].
    + rewrite log_at_snoc in Hr0. case_decide; [|eauto]. simplify_eq.
      by rewrite (Huniq key' HP0) in Hk.
Qed.

Lemma log_index_skip tbl log P r :
  log_index tbl log P → (∀ key, ¬ P (N.of_nat (S (length log))) r key) →
  log_index tbl (log ++ [r]) P.
Proof.
  intros HI Hno key k. rewrite (HI key k). split; intros (r0 & Hr0 & HP0); exists r0; (split; [|done]).
  - rewrite log_at_snoc. pose proof (log_at_bound _ _ _ Hr0). case_decide; [lia|done].
  - rewrite log_at_snoc in Hr0. case_decide; [|done]. simplify_eq. by destruct (Hno key).
Qed.

(** ** The blocks of [execute_transition] *)

Lemma next_sequence_run t a s :
  Repr t a → (N.of_nat (S (length (a_log a))) <= u64_max)%N →
  next_sequence_in_tx (T:=ideal _) t s
  = (Ok (N.of_nat (S (length (a_log a))),
         set_meta t (t_insert (META t) META_SEQUENCE (N.of_nat (S (length (a_log a)))))), s).
Proof.
  intros HR Hb. unfold next_sequence_in_tx. ideal_run.
  rewrite (r_seq _ _ HR), add64_small by lia.
  by replace (N.of_nat (length (a_log a)) + 1)%N with (N.of_nat (S (length (a_log a)))) by lia.
Qed.

Lemma write_log_entry_run tx r seq s :
  write_log_entry (T:=ideal _) tx r seq s =
  match to_vec r with
  | Ok b => (Ok (set_transitions tx (t_insert (TRANSITIONS tx) seq b)
                   (t_insert (TRANSITIONS_BY_ID tx) (rec_id r) seq)
                   (t_insert (ENTITY_TRANSITIONS tx)
                      (entity_transition_key (rec_entity_id r) (rec_machine r) seq) seq)), s)
  | Err e => (Err (from_encode_error e), s)
  end.
Proof. unfold write_log_entry. ideal_run. by destruct (to_vec r). Qed.

(** The version check of the projection. *)
Definition version_conflict (existing : option EntityState) (new_state : EntityState)
    : option N :=
  match existing with
  | Some ex => if decide (es_version ex = es_version new_state - 1)%N then None
               else Some (es_version ex)
  | None => None
  end.

Lemma upsert_state_run tx new_state existing s :
  decodes (t_get (ENTITY_STATES tx)
             (entity_state_key (es_entity_id new_state) (es_machine new_state))) existing →
  upsert_state_in_tx (T:=ideal _) tx new_state s =
  match version_conflict existing new_state with
  | Some v => (Err (StorageVersionConflict (es_entity_id new_state)
                      (es_version new_state - 1) v), s)
  | None =>
      match to_vec new_state with
      | Ok b => (Ok (set_entity_states tx (t_insert (ENTITY_STATES tx)
                   (entity_state_key (es_entity_id new_state) (es_machine new_state)) b)), s)
      | Err e => (Err (from_encode_error e), s)
      end
  end.
Proof.
  intros Hd. unfold upsert_state_in_tx. ideal_run. destruct existing as [ex|]; cbn [version_conflict].
  - apply decodes_inv_Some in Hd as (b & -> & Hb).
    destruct (N.eqb_spec (es_version ex) (es_version new_state - 1)) as [Heq|Hne].
    + rewrite decide_True by done. erewrite bind_ok; [ideal_run; by destruct (to_vec new_state)|].
      ideal_run. rewrite Hb, Heq, N.eqb_refl. done.
    + rewrite decide_False by done. erewrite bind_err; [done|].
      ideal_run. rewrite Hb. by apply N.eqb_neq in Hne as ->.
  - apply decodes_inv_None in Hd as ->. erewrite bind_ok; [|reflexivity].
    ideal_run. by destruct (to_vec new_state).
Qed.

Lemma effects_repr_insert tbl by_txn o e b :
  effects_repr tbl by_txn o → to_vec e = Ok b → o !! eff_id e = None →
  nul_free (eff_transition_id e) = true →
  effects_repr (t_insert tbl (eff_id e) b)
    (t_insert by_txn (effect_by_txn_key (eff_transition_id e) (eff_id e)) (eff_id e))
    (<[eff_id e := e]> o).
Proof.
  intros HE Hb Hnew Hnul. split.
  - intros i. rewrite get_insert, lookup_insert. repeat case_decide; try done; [|apply HE].
    apply decodes_Some. by apply from_to_vec in Hb.
  - intros key i. rewrite get_insert. case_decide as Hk.
    + split.
      * intros [= <-]. exists e. by rewrite lookup_insert_eq.
      * intros (e' & He' & Hkey). rewrite lookup_insert in He'. case_decide; [by subst|].
        assert (eff_transition_id e' = eff_transition_id e ∧ i = eff_id e) as [_ ?]; [|done].
        destruct (er_keys _ _ _ HE i e' He') as [_ ?]. subst key.
        unfold effect_by_txn_key in Hkey. by apply split_nul in Hkey as [? ?].
    + rewrite (er_index _ _ _ HE). split; intros (e' & He' & Hkey); exists e'; (split; [|done]).
      * rewrite lookup_insert. case_decide; [|done]. congruence.
      * rewrite lookup_insert in He'. case_decide; [|done]. by simplify_eq.
  - intros i e'. rewrite lookup_insert. case_decide as Hi; [intros [= <-]; done|apply HE].
Qed.

Lemma write_effects_run tbl by_txn o es s :
  effects_repr tbl by_txn o → fresh_effects o es →
  (∃ e, write_effects (T:=ideal _) tbl by_txn es s = (Err e, s) ∧ encode_error e)
  ∨ ∃ tbl' by_txn', write_effects (T:=ideal _) tbl by_txn es s = (Ok (tbl', by_txn'), s)
      ∧ effects_repr tbl' by_txn' (outbox_add o es).
Proof.
  revert tbl by_txn o. induction es as [|e es IH]; intros tbl by_txn o HE Hf;
    cbn [write_effects]; [right; eauto|].
  apply fresh_effects_cons in Hf as (Hnew & Hnul & Hf).
  ideal_run. destruct (to_vec e) as [b|m] eqn:Hb; [|left; eauto with encode].
  ideal_run. apply IH; [by apply effects_repr_insert|done].
Qed.

Lemma insert_effects_in_tx_run tx o es s :
  effects_repr (EFFECTS tx) (EFFECTS_BY_TXN tx) o → fresh_effects o es →
  (∃ e, insert_effects_in_tx (T:=ideal _) tx es s = (Err e, s) ∧ encode_error e)
  ∨ ∃ tbl by_txn, insert_effects_in_tx (T:=ideal _) tx es s = (Ok (set_effects tx tbl by_txn), s)
      ∧ effects_repr tbl by_txn (outbox_add o es).
Proof.
  intros HE Hf. unfold insert_effects_in_tx. ideal_run.
  destruct (write_effects_run _ _ o es s HE Hf) as [(m & Hm & Hee)|(tbl & by_txn & Hw & HE')].
  - left. rewrite (bind_err _ _ _ _ _ Hm). eauto.
  - right. rewrite (bind_ok _ _ _ _ _ Hw). eauto.
Qed.

Lemma store_idempotency_run tx key seq s :
  store_idempotency_in_tx (T:=ideal _) tx key seq s =
  match key with
  | None => (Ok tx, s)
  | Some k =>
      match t_get (IDEMPOTENCY tx) k with
      | Some _ => (Err (AlreadyExists ("idempotency key '" +:+ k +:+ "'")), s)
      | None => (Ok (set_idempotency tx (t_insert (IDEMPOTENCY tx) k seq)), s)
      end
  end.
Proof.
  unfold store_idempotency_in_tx. destruct key as [k|]; [|done]. ideal_run.
  by destruct (t_get _ k).
Qed.

Lemma idem_lookup t a k :
  Repr t a → is_Some (t_get (IDEMPOTENCY t) k) ↔ idem_used (a_log a) k = true.
Proof.
  intros HR. rewrite idem_used_spec. split.
  - intros [n (r & ? & ?)%(r_idem _ _ HR)]. eauto.
  - intros (n & r & ? & ?). exists n. apply (r_idem _ _ HR). eauto.
Qed.

(** ** The representation after each group of writes *)

Lemma repr_append_log t a r br idem :
  Repr t a → (N.of_nat (S (length (a_log a))) <= u64_max)%N →
  nul_free (rec_entity_id r) = true → nul_free (rec_machine r) = true →
  nul_free (rec_id r) = true → (∀ r0, r0 ∈ a_log a → rec_id r0 ≠ rec_id r) →
  let seq := N.of_nat (S (length (a_log a))) in
  let r' := set_rec_sequence r seq in
  to_vec r' = Ok br →
  log_index idem (a_log a ++ [r']) (λ _ r key, rec_idempotency_key r = Some key) →
  Repr (set_idempotency (set_meta (set_transitions t
          (t_insert (TRANSITIONS t) seq br)
          (t_insert (TRANSITIONS_BY_ID t) (rec_id r) seq)
          (t_insert (ENTITY_TRANSITIONS t)
            (entity_transition_key (rec_entity_id r) (rec_machine r) seq) seq))
          (t_insert (META t) META_SEQUENCE seq)) idem)
       (set_log a (a_log a ++ [r'])).
Proof.
  intros HR Hroom Hn1 Hn2 Hn3 Hid seq r' Hbr HI.
  split; cbn [MACHINES ENTITY_STATES TRANSITIONS TRANSITIONS_BY_ID ENTITY_TRANSITIONS
    EFFECTS EFFECTS_BY_TXN IDEMPOTENCY META a_machines a_states a_log a_outbox
    set_idempotency set_meta set_transitions set_log]; try apply HR.
  - rewrite get_insert_eq, length_app. cbn. unfold seq. lia.
  - rewrite length_app. cbn. unfold seq in *. lia.
  - intros k. rewrite get_insert, log_at_snoc. fold seq.
    case_decide as Hk; case_decide as Hk'; subst; try done.
    + apply decodes_Some. by apply from_to_vec in Hbr.
    + apply HR.
  - intros k r0. rewrite log_at_snoc. case_decide; [by intros [= <-]|apply HR].
  - intros r0 [Hr0|Hr0%list_elem_of_singleton]%elem_of_app; [by apply (r_log_nul _ _ HR)|].
    by subst.
  - apply (log_index_insert _ _ (λ _ r i, rec_id r = i)); [exact (r_by_id _ _ HR)|done|by intros ? <-|].
    intros k r0 Hr0%log_at_elem. by apply Hid.
  - apply (log_index_insert _ _ (λ k r key,
      key = entity_transition_key (rec_entity_id r) (rec_machine r) k));
      [exact (r_index _ _ HR)|done|by intros ? ->|].
    intros k r0 Hr0 Hkey. pose proof (log_at_bound _ _ _ Hr0) as Hb.
    destruct (r_log_nul _ _ HR r0) as (? & ? & _); [by eapply log_at_elem|].
    apply entity_transition_key_inj in Hkey as (_ & _ & ?); [|done..|unfold seq in *; lia].
    unfold seq in *. lia.
  - exact HI.
Qed.

Lemma repr_set_state t a s bs :
  Repr t a → nul_free (es_entity_id s) = true → nul_free (es_machine s) = true →
  to_vec s = Ok bs →
  Repr (set_entity_states t (t_insert (ENTITY_STATES t)
          (entity_state_key (es_entity_id s) (es_machine s)) bs))
       (set_states a (<[(es_entity_id s, es_machine s) := s]> (a_states a))).
Proof.
  intros HR Hn4 Hn5 Hbs. split; try apply HR; cbn.
  - intros key. rewrite get_insert. case_decide as Hk.
    + intros _. exists (es_entity_id s), (es_machine s), s. by rewrite lookup_insert_eq.
    + intros (e & m & s0 & Hs0 & ->)%(r_states_dom _ _ HR).
      exists e, m, s0. rewrite lookup_insert_ne; [done|]. by intros [= <- <-].
  - intros e m s0. rewrite lookup_insert. case_decide; [|apply HR]. intros [= <-].
    by simplify_eq.
  - intros e m He Hm. rewrite get_insert, lookup_insert.
    case_decide as Hk; case_decide as Hk'.
    + apply decodes_Some. by apply from_to_vec in Hbs.
    + destruct Hk'. apply entity_state_key_inj in Hk as [-> ->]; done.
    + destruct Hk. by simplify_eq.
    + by apply (r_states _ _ HR).
Qed.

Lemma repr_set_effects t a tbl by_txn o :
  Repr t a → effects_repr tbl by_txn o → Repr (set_effects t tbl by_txn) (set_outbox a o).
Proof. intros HR HE. split; try apply HR. exact HE. Qed.

Lemma repr_after_execute t a r s es br bs tbl by_txn idem :
  Repr t a → exec_ok a r s es →
  let seq := N.of_nat (S (length (a_log a))) in
  let r' := set_rec_sequence r seq in
  to_vec r' = Ok br → to_vec s = Ok bs →
  effects_repr tbl by_txn (outbox_add (a_outbox a) es) →
  log_index idem (a_log a ++ [r']) (λ _ r key, rec_idempotency_key r = Some key) →
  Repr {| MACHINES := MACHINES t;
          ENTITY_STATES := t_insert (ENTITY_STATES t)
            (entity_state_key (es_entity_id s) (es_machine s)) bs;
          TRANSITIONS := t_insert (TRANSITIONS t) seq br;
          TRANSITIONS_BY_ID := t_insert (TRANSITIONS_BY_ID t) (rec_id r) seq;
          ENTITY_TRANSITIONS := t_insert (ENTITY_TRANSITIONS t)
            (entity_transition_key (rec_entity_id r) (rec_machine r) seq) seq;
          EFFECTS := tbl; EFFECTS_BY_TXN := by_txn; IDEMPOTENCY := idem;
          META := t_insert (META t) META_SEQUENCE seq |}
       {| a_machines := a_machines a;
          a_states := <[(es_entity_id s, es_machine s) := s]> (a_states a);
          a_log := a_log a ++ [r']; a_outbox := outbox_add (a_outbox a) es |}.
Proof.
  intros HR [Hroom (Hn1 & Hn2 & Hn3) [Hn4 Hn5] Hid _] seq r' Hbr Hbs HE HI.
  pose proof (repr_append_log t a r br idem HR Hroom Hn1 Hn2 Hn3 Hid Hbr HI) as HR1.
  pose proof (repr_set_effects _ _ _ _ _ HR1 HE) as HR2.
  exact (repr_set_state _ _ s bs HR2 Hn4 Hn5 Hbs).
Qed.

(** [execute_transition] implements [spec_execute]. *)
Lemma execute_transition_spec t a r s es res t' :
  Repr t a → exec_ok a r s es →
  execute_transition (T:=ideal _) r s es t = (res, t') →
  encode_failed res ∧ t' = t
  ∨ ∃ a', spec_execute a r s es = (res, a') ∧ Repr t' a'.
Proof.
  intros HR Hok. unfold execute_transition. ideal_run.
  rewrite (bind_ok _ _ _ _ _ (next_sequence_run t a t HR (ex_room _ _ _ _ Hok))). cbn [fst snd].
  set (seq := N.of_nat (S (length (a_log a)))). set (r' := set_rec_sequence r seq).
  destruct (to_vec r') as [br|m] eqn:Hbr.
  2: { erewrite bind_err; [|by rewrite write_log_entry_run, Hbr].
       intros [= <- <-]. left. eauto with encode. }
  erewrite bind_ok; [|by rewrite write_log_entry_run, Hbr].
  match goal with |- context [upsert_state_in_tx ?x] => set (tx1 := x) end.
  assert (decodes (t_get (ENTITY_STATES tx1)
            (entity_state_key (es_entity_id s) (es_machine s)))
          (a_states a !! (es_entity_id s, es_machine s))) as Hd.
  { destruct (ex_state_nul _ _ _ _ Hok). by apply (r_states _ _ HR). }
  pose proof (upsert_state_run tx1 s _ t Hd) as Hup.
  unfold spec_execute. fold seq r'. unfold version_conflict in Hup.
  destruct (match a_states a !! _ with Some _ => _ | None => _ end) as [v|] eqn:Hv.
  { rewrite (bind_err _ _ _ _ _ Hup). intros [= <- <-]. right. eauto. }
  destruct (to_vec s) as [bs|m] eqn:Hbs.
  2: { rewrite (bind_err _ _ _ _ _ Hup). intros [= <- <-]. left. eauto with encode. }
  rewrite (bind_ok _ _ _ _ _ Hup).
  match goal with |- context [insert_effects_in_tx ?x] => set (tx2 := x) end.
  destruct (insert_effects_in_tx_run tx2 (a_outbox a) es t (r_effects _ _ HR)
    (ex_effects _ _ _ _ Hok)) as [(m & Hm & Hee)|(tbl & by_txn & Hw & HE)].
  { rewrite (bind_err _ _ _ _ _ Hm). intros [= <- <-]. left. eauto with encode. }
  rewrite (bind_ok _ _ _ _ _ Hw).
  match goal with |- context [store_idempotency_in_tx ?x] => set (tx3 := x) end.
  pose proof (store_idempotency_run tx3 (rec_idempotency_key r') seq t) as Hs.
  pose proof (repr_after_execute t a r s es br bs tbl by_txn) as Hrepr.
  destruct (rec_idempotency_key r') as [k|] eqn:Hkey.
  - pose proof (idem_lookup t a k HR) as Hidem. change (IDEMPOTENCY t) with (IDEMPOTENCY tx3) in Hidem.
    destruct (t_get (IDEMPOTENCY tx3) k) as [n|] eqn:Hn.
    + rewrite (bind_err _ _ _ _ _ Hs), (proj1 Hidem) by eauto. intros [= <- <-]. right. eauto.
    + rewrite (bind_ok _ _ _ _ _ Hs). ideal_run.
      destruct (idem_used (a_log a) k) eqn:Hu; [by destruct (proj2 Hidem eq_refl)|].
      intros [= <- <-]. right. eexists. split; [done|]. apply (Hrepr _ HR Hok Hbr Hbs HE).
      apply log_index_insert; [exact (r_idem _ _ HR)|done| |].
      { intros key' Hkey'. change (rec_idempotency_key r' = Some key') in Hkey'. congruence. }
      intros n r0 Hr0 Hk0. assert (idem_used (a_log a) k = true); [|congruence].
      apply idem_used_spec. eauto.
  - rewrite (bind_ok _ _ _ _ _ Hs). ideal_run.
    intros [= <- <-]. right. eexists. split; [done|]. apply (Hrepr _ HR Hok Hbr Hbs HE).
    apply log_index_skip; [exact (r_idem _ _ HR)|]. intros key. cbn. intros ?. 
    assert (rec_idempotency_key r' = Some key) by done. congruence.
Qed.

(** [store_machine] replaces the definition stored under the name. *)
Lemma store_machine_spec t a def res t' :
  Repr t a → store_machine (T:=ideal _) def t = (res, t') →
  encode_failed res ∧ t' = t
  ∨ res = Ok tt ∧ Repr t' (set_machs a (<[md_name def := canon_machine def]> (a_machines a))).
Proof.
  intros HR. unfold store_machine. ideal_run.
  destruct (to_vec def) as [b|m] eqn:Hb; [|intros [= <- <-]; left; eauto with encode].
  ideal_run. intros [= <- <-]. right. split; [done|].
  destruct HR. split; try done; cbn.
  - intros n. rewrite get_insert, lookup_insert. repeat case_decide; try done.
    apply decodes_Some. by apply from_to_vec in Hb.
  - intros n d. rewrite lookup_insert. case_decide; [intros [= <-]; done|eauto].
Qed.

(** [update_effect_status] rewrites the status of a known effect. *)
Lemma update_effect_status_spec t a i st res t' :
  Repr t a → update_effect_status (T:=ideal _) i st t = (res, t') →
  match a_outbox a !! i with
  | None => res = Err (NotFound ("effect '" +:+ i +:+ "'")) ∧ t' = t
  | Some e =>
      encode_failed res ∧ t' = t
      ∨ res = Ok tt ∧ Repr t' (set_outbox a (<[i := set_eff_status e st]> (a_outbox a)))
  end.
Proof.
  intros HR. unfold update_effect_status. ideal_run.
  pose proof (er_tbl _ _ _ (r_effects _ _ HR) i) as Hd.
  destruct (a_outbox a !! i) as [e|] eqn:He.
  2: { apply decodes_inv_None in Hd as ->. by intros [= <- <-]. }
  apply decodes_inv_Some in Hd as (b & -> & Hb). ideal_run. rewrite Hb. ideal_run.
  destruct (to_vec (set_eff_status e st)) as [b'|m] eqn:Hb';
    [|intros [= <- <-]; left; eauto with encode].
  ideal_run. intros [= <- <-]. right. split; [done|].
  pose proof (r_effects _ _ HR) as HE. apply repr_set_effects; [done|].
  destruct (er_keys _ _ _ HE i e He) as [Hid Hnul]. split.
  - intros j. rewrite get_insert, lookup_insert. repeat case_decide; try done; [|apply HE].
    apply decodes_Some. by apply from_to_vec in Hb'.
  - intros key j. rewrite (er_index _ _ _ HE). split; intros (e' & He' & Hkey).
    + destruct (decide (i = j)) as [->|Hne].
      * exists (set_eff_status e st). rewrite lookup_insert_eq. by simplify_eq.
      * exists e'. by rewrite lookup_insert_ne.
    + rewrite lookup_insert in He'. case_decide; [|eauto]. simplify_eq. eauto.
  - intros j e'. rewrite lookup_insert. case_decide; [intros [= <-]; by subst|apply HE].
Qed.

(** The tooling methods: [append_transition] extends the log alone,
    [insert_effects] the outbox alone, [upsert_entity_state] the projection
    alone. *)
Lemma append_transition_spec t a r res t' :
  Repr t a → (N.of_nat (S (length (a_log a))) <= u64_max)%N →
  nul_free (rec_entity_id r) = true → nul_free (rec_machine r) = true →
  nul_free (rec_id r) = true → (∀ r0, r0 ∈ a_log a → rec_id r0 ≠ rec_id r) →
  rec_idempotency_key r = None →
  append_transition (T:=ideal _) r t = (res, t') →
  let seq := N.of_nat (S (length (a_log a))) in
  encode_failed res ∧ t' = t
  ∨ res = Ok (seq, set_rec_sequence r seq)
    ∧ Repr t' (set_log a (a_log a ++ [set_rec_sequence r seq])).
Proof.
  intros HR Hroom Hn1 Hn2 Hn3 Hid Hkey. unfold append_transition. ideal_run.
  rewrite (bind_ok _ _ _ _ _ (next_sequence_run t a t HR Hroom)). cbn [fst snd].
  destruct (to_vec (set_rec_sequence r (N.of_nat (S (length (a_log a)))))) as [br|m] eqn:Hbr.
  2: { erewrite bind_err; [|by rewrite write_log_entry_run, Hbr].
       intros [= <- <-]. left. eauto with encode. }
  erewrite bind_ok; [|by rewrite write_log_entry_run, Hbr]. ideal_run.
  intros [= <- <-]. right. split; [done|].
  apply (repr_append_log t a r br (IDEMPOTENCY t)); try done.
  apply log_index_skip; [exact (r_idem _ _ HR)|]. cbn. congruence.
Qed.

Lemma insert_effects_spec t a es res t' :
  Repr t a → fresh_effects (a_outbox a) es →
  insert_effects (T:=ideal _) es t = (res, t') →
  encode_failed res ∧ t' = t
  ∨ res = Ok tt ∧ Repr t' (set_outbox a (outbox_add (a_outbox a) es)).
Proof.
  intros HR Hf. unfold insert_effects. ideal_run.
  destruct (insert_effects_in_tx_run t (a_outbox a) es t (r_effects _ _ HR) Hf)
    as [(m & Hm & Hee)|(tbl & by_txn & Hw & HE)].
  - rewrite (bind_err _ _ _ _ _ Hm). intros [= <- <-]. eauto with encode.
  - rewrite (bind_ok _ _ _ _ _ Hw). ideal_run. intros [= <- <-]. right. split; [done|].
    by apply repr_set_effects.
Qed.

Lemma upsert_entity_state_spec t a s res t' :
  Repr t a → nul_free (es_entity_id s) = true → nul_free (es_machine s) = true →
  upsert_entity_state (T:=ideal _) s t = (res, t') →
  encode_failed res ∧ t' = t
  ∨ ∃ a', spec_upsert a s = (res, a') ∧ Repr t' a'.
Proof.
  intros HR He Hm. unfold upsert_entity_state, spec_upsert. ideal_run.
  pose proof (r_states _ _ HR _ _ He Hm) as Hd.
  destruct (a_states a !! (es_entity_id s, es_machine s)) as [ex|].
  - apply decodes_inv_Some in Hd as (b & -> & Hb). case_decide as Hc.
    + erewrite bind_err; [intros [= <- <-]; eauto|]. ideal_run. rewrite Hb.
      destruct (N.ltb_spec 1 (es_version s)); [|lia].
      destruct (N.eqb_spec (es_version ex) (es_version s - 1)); [lia|done].
    + erewrite bind_ok; [|ideal_run; rewrite Hb;
        destruct (N.ltb_spec 1 (es_version s)), (N.eqb_spec (es_version ex) (es_version s - 1));
        try lia; reflexivity].
      ideal_run. destruct (to_vec s) as [bs|m] eqn:Hbs;
        [|intros [= <- <-]; left; eauto with encode].
      ideal_run. intros [= <- <-]. right. eauto using repr_set_state.
  - apply decodes_inv_None in Hd as ->. erewrite bind_ok; [|reflexivity]. ideal_run.
    destruct (to_vec s) as [bs|m] eqn:Hbs;
      [|intros [= <- <-]; left; eauto with encode].
    ideal_run. intros [= <- <-]. right. eauto using repr_set_state.
Qed.

End writes.
