(* ===== verification/StorageTrait.v ===== *)
(** * The [StorageEngine] trait and its contract

    Models the trait of [crates/smdb-storage/src/engine.rs] as a class of
    operations, and states the contract its clients rely on as the class
    [StorageOk]: every operation implements a function or relation on the
    abstract store [Abs], or fails with a storage failure that leaves the store
    as it was. [redb_storage] is the [RedbEngine] as an instance, and
    [redb_storage_ok] discharges the contract from the theorems of
    [StorageReads], [StorageWrites] and [Atomicity]. *)
From S2P Require Import Prelude Core Redb Keys Storage Atomicity StorageSpec StorageReads.
From S2P Require Import StorageWrites.

(** ** The operations *)

Class StorageEngine : Type := {
  store : Type;
  s_store_machine : MachineDefinition → St store StorageError unit;
  s_get_machine : string → option N → St store StorageError MachineDefinition;
  s_list_machines : St store StorageError (list MachineDefinition);
  s_get_entity_state : string → string → St store StorageError EntityState;
  s_upsert_entity_state : EntityState → St store StorageError unit;
  s_list_entities_in_state : string → string → St store StorageError (list EntityState);
  s_append_transition : TransitionRecord → St store StorageError (Sequence * TransitionRecord);
  s_get_transition : string → St store StorageError TransitionRecord;
  s_get_history : string → string → option N → option Sequence →
    St store StorageError (list TransitionRecord);
  s_get_transitions_after : Sequence → N → St store StorageError (list TransitionRecord);
  s_insert_effects : list Effect → St store StorageError unit;
  s_get_pending_effects : N → St store StorageError (list Effect);
  s_get_effects_for_transition : string → St store StorageError (list Effect);
  s_mark_effect_published : string → St store StorageError unit;
  s_mark_effect_failed : string → St store StorageError unit;
  s_check_idempotency : string → St store StorageError (option TransitionRecord);
  s_execute_transition : TransitionRecord → EntityState → list Effect →
    St store StorageError (Sequence * TransitionRecord);
  s_current_sequence : St store StorageError Sequence;
}.

(** ** The contract *)

(** Failures of the storage layer itself. *)
Definition is_failure (e : StorageError) : Prop :=
  match e with TransactionFailed _ | Internal _ | Corrupted _ => True | _ => False end.

Definition failed {A} (r : Res A StorageError) : Prop := ∃ e, r = Err e ∧ is_failure e.

(** [Implements holds fit pre m spec]: on a store that holds [a] with [pre a],
    [m] answers as [spec] relates it to [a] and leaves a store that holds the
    related one, or fails and leaves a store that still holds [a]; a fit store
    does not fail and stays fit. *)
Record Implements {D A} (holds : D → Abs → Prop) (fit : D → Prop) (pre : Abs → Prop)
    (m : St D StorageError A) (spec : Abs → Res A StorageError → Abs → Prop) : Prop := {
  impl_run d a r d' : holds d a → pre a → m d = (r, d') →
    (∃ a', spec a r a' ∧ holds d' a') ∨ failed r ∧ holds d' a;
  impl_fit d a r d' : fit d → holds d a → pre a → m d = (r, d') →
    fit d' ∧ ∃ a', spec a r a' ∧ holds d' a';
}.

(** A read that computes a function of the store, and one that returns some
    list with a property. *)
Definition reads {A} (f : Abs → Res A StorageError)
    (a : Abs) (r : Res A StorageError) (a' : Abs) : Prop := r = f a ∧ a' = a.
Definition returns {A} (P : Abs → A → Prop)
    (a : Abs) (r : Res A StorageError) (a' : Abs) : Prop :=
  a' = a ∧ ∃ x, r = Ok x ∧ P a x.
(** A write given by a function on the store. *)
Definition writes {A} (f : Abs → Res A StorageError * Abs)
    (a : Abs) (r : Res A StorageError) (a' : Abs) : Prop := f a = (r, a').

Definition always (_ : Abs) : Prop := True.

(** The effects of a transition, in the order of their identifiers. *)
Definition effects_of (a : Abs) (i : string) (l : list Effect) : Prop :=
  StronglySorted eff_lt l
  ∧ ∀ e, e ∈ l ↔ a_outbox a !! eff_id e = Some e ∧ eff_transition_id e = i.

(** The pending effects, in the order of their identifiers, up to a limit. *)
Definition pending_of (limit : N) (a : Abs) (l : list Effect) : Prop :=
  ∃ l', l = take (N.to_nat limit) l' ∧ StronglySorted eff_lt l'
    ∧ ∀ e, e ∈ l' ↔ a_outbox a !! eff_id e = Some e ∧ eff_status e = Pending.

Definition spec_set_status (i : string) (st : EffectStatus) (a : Abs)
    : Res unit StorageError * Abs :=
  match a_outbox a !! i with
  | Some e => (Ok tt, set_outbox a (<[i := set_eff_status e st]> (a_outbox a)))
  | None => (Err (NotFound ("effect '" +:+ i +:+ "'")), a)
  end.

Definition log_after (after : Sequence) (log : list TransitionRecord) : list TransitionRecord :=
  filter (λ r, (add64 after 1 <= rec_sequence r)%N) log.

(** What every held store satisfies. *)
Record abs_wf (a : Abs) : Prop := {
  aw_seq k r : log_at (a_log a) k = Some r → rec_sequence r = k;
  aw_bound : (N.of_nat (length (a_log a)) <= u64_max)%N;
  aw_nul r : r ∈ a_log a → nul_free (rec_entity_id r) = true
    ∧ nul_free (rec_machine r) = true ∧ nul_free (rec_id r) = true;
  aw_machine n d : a_machines a !! n = Some d → md_name d = n;
  aw_outbox i e : a_outbox a !! i = Some e → eff_id e = i;
}.

Class StorageOk (SE : StorageEngine) : Type := {
  holds : store → Abs → Prop;
  fit : store → Prop;
  holds_wf d a : holds d a → abs_wf a;
  store_machine_ok def : Implements holds fit always (s_store_machine def)
    (writes (λ a, (Ok tt, set_machs a (<[md_name def := canon_machine def]> (a_machines a)))));
  get_machine_ok n v : Implements holds fit always (s_get_machine n v)
    (reads (λ a, ok_or (a_machines a !! n) (NotFound ("machine '" +:+ n +:+ "'"))));
  list_machines_ok : Implements holds fit always s_list_machines
    (returns (λ a l, StronglySorted name_lt l
                     ∧ ∀ d, d ∈ l ↔ a_machines a !! md_name d = Some d));
  get_entity_state_ok e m : nul_free e = true → nul_free m = true →
    Implements holds fit always (s_get_entity_state e m)
      (reads (λ a, ok_or (a_states a !! (e, m))
         (NotFound ("entity '" +:+ e +:+ "' in machine '" +:+ m +:+ "'"))));
  upsert_entity_state_ok s : nul_free (es_entity_id s) = true → nul_free (es_machine s) = true →
    Implements holds fit always (s_upsert_entity_state s) (writes (λ a, spec_upsert a s));
  list_entities_ok m st : Implements holds fit always (s_list_entities_in_state m st)
    (returns (λ a l, NoDup l
       ∧ ∀ s, s ∈ l ↔ a_states a !! (es_entity_id s, es_machine s) = Some s
                      ∧ es_machine s = m ∧ es_current_state s = st));
  append_transition_ok r : nul_free (rec_entity_id r) = true → nul_free (rec_machine r) = true →
    nul_free (rec_id r) = true → rec_idempotency_key r = None →
    Implements holds fit
      (λ a, (N.of_nat (S (length (a_log a))) <= u64_max)%N
            ∧ ∀ r0, r0 ∈ a_log a → rec_id r0 ≠ rec_id r)
      (s_append_transition r)
      (writes (λ a, let seq := N.of_nat (S (length (a_log a))) in
         (Ok (seq, set_rec_sequence r seq), set_log a (a_log a ++ [set_rec_sequence r seq]))));
  get_transition_ok i : Implements holds fit always (s_get_transition i)
    (reads (λ a, ok_or (find_id (a_log a) i) (NotFound ("transition '" +:+ i +:+ "'"))));
  get_history_ok e m limit after : nul_free e = true → nul_free m = true →
    Implements holds fit always (s_get_history e m limit after)
      (reads (λ a, Ok (page (default u32_max limit) (default 0%N after) (hist e m (a_log a)))));
  get_transitions_after_ok after limit :
    Implements holds fit always (s_get_transitions_after after limit)
      (reads (λ a, Ok (take (N.to_nat limit) (log_after after (a_log a)))));
  insert_effects_ok es : Implements holds fit (λ a, fresh_effects (a_outbox a) es)
    (s_insert_effects es)
    (writes (λ a, (Ok tt, set_outbox a (outbox_add (a_outbox a) es))));
  get_pending_ok limit : Implements holds fit always (s_get_pending_effects limit)
    (returns (pending_of limit));
  get_effects_ok i : nul_free i = true →
    Implements holds fit always (s_get_effects_for_transition i)
      (returns (λ a l, effects_of a i l));
  mark_published_ok i : Implements holds fit always (s_mark_effect_published i)
    (writes (spec_set_status i Published));
  mark_failed_ok i : Implements holds fit always (s_mark_effect_failed i)
    (writes (spec_set_status i Failed));
  check_idempotency_ok key : Implements holds fit always (s_check_idempotency key)
    (reads (λ a, Ok (find_idem (a_log a) key)));
  execute_transition_ok r s es : Implements holds fit (λ a, exec_ok a r s es)
    (s_execute_transition r s es) (writes (λ a, spec_execute a r s es));
  current_sequence_ok : Implements holds fit always s_current_sequence
    (reads (λ a, Ok (N.of_nat (length (a_log a)))));
}.

(** ** [RedbEngine] as an instance *)

Section redb.
Context {R : Redb} {RO : RedbOk R} {C : Codecs} {CO : CodecsOk C}.
Context {T : RedbTx Tables} {TO : RedbTxOk T}.

#[export] Instance redb_storage : StorageEngine := {|
  store := db T;
  s_store_machine := store_machine;
  s_get_machine := get_machine;
  s_list_machines := list_machines;
  s_get_entity_state := get_entity_state;
  s_upsert_entity_state := upsert_entity_state;
  s_list_entities_in_state := list_entities_in_state;
  s_append_transition := append_transition;
  s_get_transition := get_transition;
  s_get_history := get_history;
  s_get_transitions_after := get_transitions_after;
  s_insert_effects := insert_effects;
  s_get_pending_effects := get_pending_effects;
  s_get_effects_for_transition := get_effects_for_transition;
  s_mark_effect_published := mark_effect_published;
  s_mark_effect_failed := mark_effect_failed;
  s_check_idempotency := check_idempotency;
  s_execute_transition := execute_transition;
  s_current_sequence := current_sequence;
|}.

Definition redb_holds (d : db T) (a : Abs) : Prop := Repr (snapshot d) a.
Definition redb_fit (d : db T) : Prop := healthy d ∧ EncodesAll C.

(** A method that refines its ideal run inherits what the ideal run implements. *)
Lemma implements_refines {A} (pre : Abs → Prop) (m : St (db T) StorageError A)
    (m0 : St (@db Tables (ideal Tables)) StorageError A) spec :
  Refines m m0 →
  (∀ t a r t', Repr t a → pre a → m0 t = (r, t') →
     encode_failed r ∧ t' = t ∨ ∃ a', spec a r a' ∧ Repr t' a') →
  Implements redb_holds redb_fit pre m spec.
Proof.
  intros [Hrun Hfit] H0. split; unfold redb_holds, redb_fit.
  - intros d a r d' HR Hpre Hm. destruct (Hrun _ _ _ Hm) as [Heq|[(e & -> & He) Hs]].
    + destruct (H0 _ _ _ _ HR Hpre (eq_sym Heq)) as [[(e & -> & (m1 & ->) & _) Ht]|?]; [|by left].
      right. rewrite Ht. split; [by eexists|done].
    + right. rewrite Hs. split; [|done]. exists e. split; [done|]. by destruct e.
  - intros d a r d' [Hd HE] HR Hpre Hm. destruct (Hfit d Hd) as (r1 & d1 & Hm1 & Heq & Hd1).
    rewrite Hm in Hm1. injection Hm1 as <- <-. split; [done|].
    destruct (H0 _ _ _ _ HR Hpre (eq_sym Heq)) as [[(e & _ & _ & Hno) _]|?]; [by destruct Hno|done].
Qed.

Lemma implements_read {A} (m : St (db T) StorageError A)
    (m0 : St (@db Tables (ideal Tables)) StorageError A) (f : Abs → Res A StorageError) :
  Refines m m0 → (∀ t a, Repr t a → m0 t = (f a, t)) →
  Implements redb_holds redb_fit always m (reads f).
Proof.
  intros HR H0. apply (implements_refines _ _ m0); [done|]. intros t a r t' HRt _ Hm.
  rewrite (H0 t a HRt) in Hm. injection Hm as <- <-. right. by exists a.
Qed.

Lemma implements_returns {A} (m : St (db T) StorageError A)
    (m0 : St (@db Tables (ideal Tables)) StorageError A) (P : Abs → A → Prop) :
  Refines m m0 → (∀ t a, Repr t a → ∃ x, m0 t = (Ok x, t) ∧ P a x) →
  Implements redb_holds redb_fit always m (returns P).
Proof.
  intros HR H0. apply (implements_refines _ _ m0); [done|]. intros t a r t' HRt _ Hm.
  destruct (H0 t a HRt) as (x & Hx & HP). rewrite Hx in Hm. injection Hm as <- <-.
  right. exists a. split; [|done]. split; eauto.
Qed.

Lemma repr_abs_wf t a : Repr t a → abs_wf a.
Proof.
  intros HR. split; try apply HR; apply (r_effects _ _ HR).
Qed.

Lemma implements_status i st :
  Implements redb_holds redb_fit always (update_effect_status i st) (writes (spec_set_status i st)).
Proof.
  eapply implements_refines; [apply update_effect_status_refines|].
  intros t a r t' HR _ Hm. pose proof (update_effect_status_spec _ _ _ _ _ _ HR Hm) as Hs.
  unfold writes, spec_set_status. destruct (a_outbox a !! i); [|naive_solver].
  destruct Hs as [?|[-> ?]]; eauto.
Qed.

#[export] Instance redb_storage_ok : StorageOk redb_storage.
Proof.
  refine {| holds := (redb_holds : store → Abs → Prop); fit := (redb_fit : store → Prop) |}.
  - intros d a. apply repr_abs_wf.
  - intros def. eapply implements_refines; [apply store_machine_refines|].
    intros t a r t' HR _ Hm. destruct (store_machine_spec _ _ _ _ _ HR Hm) as [?|[-> ?]];
      [by left|right; by eexists].
  - intros n v. eapply implements_read; [apply get_machine_refines|].
    intros t a HR. by apply get_machine_read.
  - eapply implements_returns; [apply list_machines_refines|].
    intros t a HR. by apply list_machines_read.
  - intros e m He Hm. eapply implements_read; [apply get_entity_state_refines|].
    intros t a HR. by apply get_entity_state_read.
  - intros s He Hm. eapply implements_refines; [apply upsert_entity_state_refines|].
    intros t a r t' HR _ Hr. by apply (upsert_entity_state_spec _ _ _ _ _ HR He Hm).
  - intros m st. eapply implements_returns; [apply list_entities_in_state_refines|].
    intros t a HR. by apply list_entities_read.
  - intros r He Hm Hi Hk. eapply implements_refines; [apply append_transition_refines|].
    intros t a res t' HR [Hroom Hid] Hr.
    destruct (append_transition_spec _ _ _ _ _ HR Hroom He Hm Hi Hid Hk Hr) as [?|[-> ?]];
      [by left|right; by eexists].
  - intros i. eapply implements_read; [apply get_transition_refines|].
    intros t a HR. by apply get_transition_read.
  - intros e m limit after He Hm. eapply implements_read; [apply get_history_refines|].
    intros t a HR. by apply get_history_read.
  - intros after limit. eapply implements_read; [apply get_transitions_after_refines|].
    intros t a HR. by apply get_transitions_after_read.
  - intros es. eapply implements_refines; [apply insert_effects_refines|].
    intros t a r t' HR Hf Hr. destruct (insert_effects_spec _ _ _ _ _ HR Hf Hr) as [?|[-> ?]];
      [by left|right; by eexists].
  - intros limit. eapply implements_returns; [apply get_pending_effects_refines|].
    intros t a HR. destruct (get_pending_read t a limit HR) as (l & Hl & ?). unfold pending_of. eauto.
  - intros i Hi. eapply implements_returns; [apply get_effects_for_transition_refines|].
    intros t a HR. by apply get_effects_read.
  - intros i. apply implements_status.
  - intros i. apply implements_status.
  - intros key. eapply implements_read; [apply check_idempotency_refines|].
    intros t a HR. by apply check_idempotency_read.
  - intros r s es. eapply implements_refines; [apply execute_transition_refines|].
    intros t a res t' HR Hok Hr. by apply (execute_transition_spec _ _ _ _ _ _ _ HR Hok).
  - eapply implements_read; [apply current_sequence_refines|].
    intros t a HR. by apply current_sequence_read.
Defined.

End redb.
