(* ===== verification/Channel.v ===== *)
(** * The tokio primitives the engine is written against

    [tokio::sync::mpsc::unbounded_channel] as the class [Mpsc] with its laws
    [MpscOk]: [send] appends to what the channel was given and succeeds while
    the receiver is alive, and fails without effect once it was dropped, which is final.
    [Env] holds the sources of instants, identifiers and hashes
    ([chrono::Utc::now], [uuid::Uuid::new_v4], [DefaultHasher]) as streams
    indexed by the number of earlier calls. *)
From S2P Require Import Prelude Keys.

Class Mpsc (A : Type) : Type := {
  chan : Type;
  unbounded_channel : chan;
  send : chan → A → Res unit unit * chan;
}.
Arguments chan _ {_}.

Class MpscOk (A : Type) {M : Mpsc A} : Type := {
  sent : chan A → list A;
  is_open : chan A → Prop;
  sent_new : sent unbounded_channel = [];
  open_new : is_open unbounded_channel;
  send_ok c x c' : send c x = (Ok tt, c') → sent c' = sent c ++ [x];
  send_err c x c' : send c x = (Err tt, c') → sent c' = sent c;
  send_open c x : is_open c → ∃ c', send c x = (Ok tt, c') ∧ is_open c';
  send_closed c x c' : send c x = (Err tt, c') → ¬ is_open c';
}.

(** A queue with a flag for the receiver's life. *)
Definition queue_mpsc (A : Type) : Mpsc A := {|
  chan := bool * list A;
  unbounded_channel := (true, []);
  send c x := match c with
              | (true, q) => (Ok tt, (true, q ++ [x]))
              | (false, q) => (Err tt, (false, q))
              end;
|}.

#[export] Instance queue_mpsc_ok (A : Type) : MpscOk A (M := queue_mpsc A).
Proof.
  refine {| sent := (snd : chan A (Mpsc := queue_mpsc A) → list A);
            is_open c := c.1 = true |}; simpl; try done.
  - by intros [[] q] x c' [= <-].
  - by intros [[] q] x c' [= <-].
  - intros [[] q] x [=]. by eexists.
  - by intros [[] q] x c' [= <-].
Defined.

(** Instants, identifiers and hashes. *)
Class Env : Type := {
  utc_now : nat → Z;
  new_v4 : nat → string;
  hasher_finish : string → string → N;
}.

(** Version 4 identifiers are distinct and print as hexadecimal digits and
    hyphens. *)
Class EnvOk (E : Env) : Prop := {
  new_v4_inj i j : new_v4 i = new_v4 j → i = j;
  new_v4_nul_free i : nul_free (new_v4 i) = true;
}.

(** Counting instances. *)
Definition counting_env : Env := {|
  utc_now n := Z.of_nat n;
  new_v4 n := pretty (N.of_nat n);
  hasher_finish e m := (N.of_nat (String.length e) * 31 + N.of_nat (String.length m))%N;
|}.

Lemma pretty_N_go_nul_free x s : nul_free s = true → nul_free (pretty_N_go x s) = true.
Proof.
  revert s. induction x as [x IH] using (well_founded_ind N.lt_wf_0). intros s Hs.
  destruct (decide (0 < x)%N) as [Hx|Hx].
  - rewrite pretty_N_go_step by done. apply IH; [by apply N.div_lt|].
    cbn [nul_free]. rewrite Hs, andb_true_r. apply negb_true_iff.
    unfold pretty_N_char. repeat case_match; reflexivity.
  - assert (x = 0)%N as -> by lia. by rewrite pretty_N_go_0.
Qed.

#[export] Instance counting_env_ok : EnvOk counting_env.
Proof.
  split; simpl.
  - intros i j Hij%(inj pretty). lia.
  - intros i. unfold pretty, pretty_N. case_decide; [done|]. by apply pretty_N_go_nul_free.
Qed.
