(* ===== verification/Engine.v ===== *)
(** * smdb-engine: the transition engine, its subscriptions and the dispatcher

    Models [crates/smdb-engine/src]: the guard registry ([guard.rs]), the
    errors ([error.rs]), the [Engine] ([engine.rs]) and one round of the
    [Dispatcher] ([dispatcher.rs]), over the [StorageEngine] trait.

    The record [Engine] is the engine with everything its methods mutate: the
    store, the guard registry, the subscriber list, the channels (a sender and
    its receiver share an entry of [e_channels]), the permit of [commit_notify],
    the shutdown flag, and the positions in the streams of instants and
    identifiers. A method is a computation [St Engine EngineError A]. *)
From S2P Require Import Prelude Core Storage StorageTrait Keys Channel.

(** ** Settings ([config.rs]) *)

Inductive FsyncMode : Type := Synchronous | Relaxed.

Record EngineConfig : Type := {
  ec_data_dir : string;
  ec_fsync_mode : FsyncMode;
  ec_dispatcher_interval_ms : N;
  ec_max_subscribers : N;
}.

Definition EngineConfig_default : EngineConfig :=
  {| ec_data_dir := "data"; ec_fsync_mode := Synchronous; ec_dispatcher_interval_ms := 100;
     ec_max_subscribers := 1024 |}.

(** ** Guards ([guard.rs]) *)

Definition GuardFn : Type := EntityState → Value → bool.

Module GuardRegistry.

Definition GuardRegistry : Type := gmap string GuardFn.

Definition new : GuardRegistry := ∅.
Definition register (name : string) (guard : GuardFn) (r : GuardRegistry) : GuardRegistry :=
  <[name := guard]> r.
(** An unregistered guard passes. *)
Definition evaluate (r : GuardRegistry) (name : string) (state : EntityState) (ctx : Value)
    : bool :=
  match r !! name with
  | Some f => f state ctx
  | None => true
  end.

End GuardRegistry.

(** ** Errors and results *)

Inductive EngineError : Type :=
| ECore (e : CoreError)
| EStorage (e : StorageError)
| MachineNotFound (name : string)
| EntityLocked (name : string)
| ShuttingDown.

Record TransitionResult : Type := {
  tr_entity_id : string;
  tr_machine : string;
  tr_from_state : string;
  tr_to_state : string;
  tr_version : Version;
  tr_transition_id : string;
  tr_sequence : Sequence;
  tr_timestamp : Time;
}.

Record Subscriber : Type := {
  sub_id : string;
  sub_machine_filter : option string;
  sub_sender : nat;
  sub_delivered_through : Sequence;
}.

Definition set_delivered_through (s : Subscriber) (seq : Sequence) : Subscriber :=
  {| sub_id := sub_id s; sub_machine_filter := sub_machine_filter s;
     sub_sender := sub_sender s; sub_delivered_through := seq |}.

(** ** The stripe of an entity *)

Definition ENTITY_LOCK_STRIPES : N := 1024.
Definition entity_lock {EN : Env} (entity_id machine : string) : N :=
  (hasher_finish entity_id machine mod ENTITY_LOCK_STRIPES)%N.

Section engine.
Context {SE : StorageEngine} {MP : Mpsc ChangeRecord} {EN : Env}.

Record Engine : Type := {
  e_storage : store;
  e_guards : GuardRegistry.GuardRegistry;
  e_subscribers : list Subscriber;
  e_channels : list (chan ChangeRecord);
  e_commit_notify : bool;
  e_shutdown : bool;
  e_clock : nat;
  e_uuids : nat;
}.

Definition new (storage : store) (clock uuids : nat) : Engine :=
  {| e_storage := storage; e_guards := GuardRegistry.new; e_subscribers := [];
     e_channels := []; e_commit_notify := false; e_shutdown := false;
     e_clock := clock; e_uuids := uuids |}.

Definition set_storage (e : Engine) x : Engine :=
  {| e_storage := x; e_guards := e_guards e; e_subscribers := e_subscribers e;
     e_channels := e_channels e; e_commit_notify := e_commit_notify e;
     e_shutdown := e_shutdown e; e_clock := e_clock e; e_uuids := e_uuids e |}.
Definition set_guards (e : Engine) x : Engine :=
  {| e_storage := e_storage e; e_guards := x; e_subscribers := e_subscribers e;
     e_channels := e_channels e; e_commit_notify := e_commit_notify e;
     e_shutdown := e_shutdown e; e_clock := e_clock e; e_uuids := e_uuids e |}.
Definition set_subscribers (e : Engine) x cs : Engine :=
  {| e_storage := e_storage e; e_guards := e_guards e; e_subscribers := x;
     e_channels := cs; e_commit_notify := e_commit_notify e;
     e_shutdown := e_shutdown e; e_clock := e_clock e; e_uuids := e_uuids e |}.
Definition set_shutdown (e : Engine) x : Engine :=
  {| e_storage := e_storage e; e_guards := e_guards e; e_subscribers := e_subscribers e;
     e_channels := e_channels e; e_commit_notify := e_commit_notify e;
     e_shutdown := x; e_clock := e_clock e; e_uuids := e_uuids e |}.

(** [notify_one] stores at most one permit. *)
Definition notify_one (e : Engine) : Engine :=
  {| e_storage := e_storage e; e_guards := e_guards e; e_subscribers := e_subscribers e;
     e_channels := e_channels e; e_commit_notify := true;
     e_shutdown := e_shutdown e; e_clock := e_clock e; e_uuids := e_uuids e |}.

Abbreviation M A := (St Engine EngineError A).
Local Open Scope st_scope.

(** ** Primitive steps *)

Definition gets {A} (f : Engine → A) : M A := λ e, (Ok (f e), e).
Definition modify (f : Engine → Engine) : M unit := λ e, (Ok tt, f e).

(** A storage call whose result is inspected, and one under [?]. *)
Definition try_storage {A} (op : St store StorageError A) : M (Res A StorageError) :=
  λ e, let '(r, d) := op (e_storage e) in (Ok r, set_storage e d).
Definition storage {A} (op : St store StorageError A) : M A :=
  λ e, let '(r, d) := op (e_storage e) in (map_err EStorage r, set_storage e d).
Definition core {A} (r : Res A CoreError) : M A := st_res (map_err ECore r).

Definition now : M Time := λ e,
  (Ok (utc_now (e_clock e)),
   {| e_storage := e_storage e; e_guards := e_guards e; e_subscribers := e_subscribers e;
      e_channels := e_channels e; e_commit_notify := e_commit_notify e;
      e_shutdown := e_shutdown e; e_clock := S (e_clock e); e_uuids := e_uuids e |}).
Definition uuid : M string := λ e,
  (Ok (new_v4 (e_uuids e)),
   {| e_storage := e_storage e; e_guards := e_guards e; e_subscribers := e_subscribers e;
      e_channels := e_channels e; e_commit_notify := e_commit_notify e;
      e_shutdown := e_shutdown e; e_clock := e_clock e; e_uuids := S (e_uuids e) |}).

(** ** Administration *)

Definition shutdown (e : Engine) : Engine := set_shutdown e true.

Definition register_guard (name : string) (guard : GuardFn) (e : Engine) : Engine :=
  set_guards e (GuardRegistry.register name guard (e_guards e)).

Definition define_machine (definition : MachineDefinition) : M unit :=
  core (Machine.validate definition) ;;
  storage (s_store_machine definition).

Definition get_machine (name : string) : M MachineDefinition :=
  storage (s_get_machine name None).

Definition list_machines : M (list MachineDefinition) := storage s_list_machines.

(** ** Transitions *)

(** The result of a committed record, returned again for its key. *)
Definition replay_result (existing : TransitionRecord) : TransitionResult :=
  {| tr_entity_id := rec_entity_id existing; tr_machine := rec_machine existing;
     tr_from_state := rec_from_state existing; tr_to_state := rec_to_state existing;
     tr_version := rec_version existing; tr_transition_id := rec_id existing;
     tr_sequence := rec_sequence existing; tr_timestamp := rec_timestamp existing |}.

(** [if let Ok(Some(existing)) = check_idempotency(key)]: an error of the check
    counts as a miss. *)
Definition lookup_idempotency (idempotency_key : option string) : M (option TransitionRecord) :=
  match idempotency_key with
  | Some key =>
      r <- try_storage (s_check_idempotency key) ;;
      st_ret (match r with Ok (Some existing) => Some existing | _ => None end)
  | None => st_ret None
  end.

(** The state, version and creation instant to start from: the projection, or
    the initial state at version 0 for an unseen entity. *)
Definition load_current (definition : MachineDefinition) (now : Time)
    (entity_id machine_name : string) : M (string * Version * Time) :=
  r <- try_storage (s_get_entity_state entity_id machine_name) ;;
  match r with
  | Ok state => st_ret (es_current_state state, es_version state, es_created_at state)
  | Err (NotFound _) => st_ret (md_initial_state definition, 0%N, now)
  | Err e => st_err (EStorage e)
  end.

Definition check_expected (entity_id machine_name : string) (expected_version : option Version)
    (current_version : Version) : Res unit CoreError :=
  match expected_version with
  | Some expected =>
      if (expected =? current_version)%N then Ok tt
      else Err (VersionConflict entity_id machine_name expected current_version)
  | None => Ok tt
  end.

(** The guard results collected into a map. *)
Definition eval_guards (registry : GuardRegistry.GuardRegistry) (guards : list string)
    (state : EntityState) (ctx : Value) : gmap string bool :=
  foldl (λ m g, <[g := GuardRegistry.evaluate registry g state ctx]> m) ∅ guards.

(** One [Effect::new] per effect rule. *)
Fixpoint new_effects (transition_id : string) (rules : list EffectRule) : M (list Effect) :=
  match rules with
  | [] => st_ret []
  | er :: rest =>
      id <- uuid ;;
      t <- now ;;
      effects <- new_effects transition_id rest ;;
      st_ret (Effect_new id t transition_id (er_effect er)
                (default value_default (er_payload er)) :: effects)
  end.

(** The part of [transition] after the guards: build the record, the effects and
    the new projection, commit them and wake the dispatcher. *)
Definition commit_transition (definition : MachineDefinition) (rule : TransitionRule)
    (entity_id machine_name event actor : string) (ctx : Value)
    (idempotency_key : option string) (current_state : string) (current_version : Version)
    (created_at now0 : Time) : M TransitionResult :=
  id <- uuid ;;
  ts <- now ;;
  let record := FsmPlanner.build_transition_record id ts entity_id machine_name
                  current_state (rule_to_state rule) event actor ctx idempotency_key in
  effects <- new_effects (rec_id record) (FsmPlanner.compute_effects definition event) ;;
  let new_version := add64 current_version 1 in
  let record := set_rec_version record new_version in
  let new_state :=
    {| es_entity_id := entity_id; es_machine := machine_name;
       es_current_state := rule_to_state rule; es_version := new_version;
       es_updated_at := now0; es_created_at := created_at |} in
  p <- storage (s_execute_transition record new_state effects) ;;
  modify notify_one ;;
  st_ret
    {| tr_entity_id := entity_id; tr_machine := machine_name;
       tr_from_state := current_state; tr_to_state := rule_to_state rule;
       tr_version := new_version; tr_transition_id := rec_id p.2;
       tr_sequence := p.1; tr_timestamp := rec_timestamp p.2 |}.

Definition transition (entity_id machine_name event actor : string) (ctx : Value)
    (expected_version : option Version) (idempotency_key : option string)
    : M TransitionResult :=
  shutting_down <- gets e_shutdown ;;
  if shutting_down : bool then st_err ShuttingDown else
  hit <- lookup_idempotency idempotency_key ;;
  match hit with
  | Some existing => st_ret (replay_result existing)
  | None =>
    definition <- storage (s_get_machine machine_name None) ;;
    now0 <- now ;;
    cur <- load_current definition now0 entity_id machine_name ;;
    let '(current_state, current_version, created_at) := cur in
    core (check_expected entity_id machine_name expected_version current_version) ;;
    rule <- core (FsmPlanner.plan_transition definition current_state event entity_id) ;;
    registry <- gets e_guards ;;
    updated <- now ;;
    created <- now ;;
    let dummy_state :=
      {| es_entity_id := entity_id; es_machine := machine_name;
         es_current_state := current_state; es_version := current_version;
         es_updated_at := updated; es_created_at := created |} in
    core (FsmPlanner.validate_guards rule
            (eval_guards registry (rule_guards rule) dummy_state ctx)) ;;
    commit_transition definition rule entity_id machine_name event actor ctx idempotency_key
      current_state current_version created_at now0
  end.

Definition current (entity_id machine : string) : M EntityState :=
  storage (s_get_entity_state entity_id machine).

Definition history (entity_id machine : string) (limit : option N)
    (after_sequence : option Sequence) : M (list TransitionRecord) :=
  storage (s_get_history entity_id machine limit after_sequence).

(** ** Subscriptions *)

(** The receiver handed back is the channel's index. *)
Definition subscribe (id : string) (machine_filter : option string) (after_sequence : Sequence)
    (e : Engine) : nat * Engine :=
  let rx := length (e_channels e) in
  (rx, notify_one (set_subscribers e
    (e_subscribers e ++
      [{| sub_id := id; sub_machine_filter := machine_filter; sub_sender := rx;
          sub_delivered_through := after_sequence |}])
    (e_channels e ++ [unbounded_channel]))).

Definition unsubscribe (id : string) (e : Engine) : Engine :=
  set_subscribers e (filter (λ s, sub_id s ≠ id) (e_subscribers e)) (e_channels e).

(** ** Delivery *)

Definition BATCH : N := 256.

Definition change_record (rec : TransitionRecord) (effects : list Effect) : ChangeRecord :=
  {| cr_sequence := rec_sequence rec; cr_transition_id := rec_id rec;
     cr_entity_id := rec_entity_id rec; cr_machine := rec_machine rec;
     cr_from_state := rec_from_state rec; cr_to_state := rec_to_state rec;
     cr_event := rec_event rec; cr_actor := rec_actor rec; cr_version := rec_version rec;
     cr_timestamp := rec_timestamp rec; cr_ctx := rec_ctx rec;
     cr_effects := (λ e, {| ep_effect_name := eff_effect_name e;
                            ep_payload := eff_payload e |}) <$> effects |}.

Definition send_on (cs : list (chan ChangeRecord)) (i : nat) (x : ChangeRecord)
    : Res unit unit * list (chan ChangeRecord) :=
  match cs !! i with
  | Some c => let '(r, c') := send c x in (r, <[i := c']> cs)
  | None => (Err tt, cs)
  end.

(** [if &rec.machine != filter { continue; }]. *)
Definition skips (filter : option string) (rec : TransitionRecord) : bool :=
  match filter with Some f => negb (bool_decide (rec_machine rec = f)) | None => false end.

(** The state of a pass: the store, the channels, the cursor of the current
    subscriber and the count of deliveries. *)
Record Pass : Type := {
  p_storage : store;
  p_channels : list (chan ChangeRecord);
  p_cursor : Sequence;
  p_delivered : nat;
}.

(** The loop over one batch; [false] when the receiver is gone. *)
Fixpoint deliver_batch (filter : option string) (tx : nat) (records : list TransitionRecord)
    (p : Pass) : bool * Pass :=
  match records with
  | [] => (true, p)
  | rec :: rest =>
      let cursor := rec_sequence rec in
      if skips filter rec then
        deliver_batch filter tx rest
          {| p_storage := p_storage p; p_channels := p_channels p;
             p_cursor := cursor; p_delivered := p_delivered p |}
      else
        let '(r, d) := s_get_effects_for_transition (rec_id rec) (p_storage p) in
        let effects := match r with Ok l => l | Err _ => [] end in
        let '(res, cs) := send_on (p_channels p) tx (change_record rec effects) in
        match res with
        | Err _ => (false, {| p_storage := d; p_channels := cs; p_cursor := cursor;
                              p_delivered := p_delivered p |})
        | Ok _ => deliver_batch filter tx rest
                    {| p_storage := d; p_channels := cs; p_cursor := cursor;
                       p_delivered := S (p_delivered p) |}
        end
  end.

Definition p_set_storage (p : Pass) d : Pass :=
  {| p_storage := d; p_channels := p_channels p; p_cursor := p_cursor p;
     p_delivered := p_delivered p |}.

(** The ['drain] loop of one subscriber; [None] when the fuel runs out. *)
Fixpoint drain (fuel : nat) (filter : option string) (tx : nat) (p : Pass)
    : option (bool * Pass) :=
  match fuel with
  | 0 => None
  | S fuel =>
      match s_get_transitions_after (p_cursor p) BATCH (p_storage p) with
      | (Err _, d) => Some (true, p_set_storage p d)
      | (Ok [], d) => Some (true, p_set_storage p d)
      | (Ok records, d) =>
          match deliver_batch filter tx records (p_set_storage p d) with
          | (false, p') => Some (false, p')
          | (true, p') =>
              if (N.of_nat (length records) <? BATCH)%N then Some (true, p')
              else drain fuel filter tx p'
          end
      end
  end.

(** The loop over the subscribers: the subscribers with their cursors, and the
    identifiers of the dead ones. *)
Fixpoint drain_all (fuel : nat) (subs : list Subscriber) (d : store)
    (cs : list (chan ChangeRecord)) (delivered : nat)
    : option (list Subscriber * list string * store * list (chan ChangeRecord) * nat) :=
  match subs with
  | [] => Some ([], [], d, cs, delivered)
  | sub :: rest =>
      match drain fuel (sub_machine_filter sub) (sub_sender sub)
              {| p_storage := d; p_channels := cs;
                 p_cursor := sub_delivered_through sub; p_delivered := delivered |} with
      | None => None
      | Some (alive, p) =>
          match drain_all fuel rest (p_storage p) (p_channels p) (p_delivered p) with
          | None => None
          | Some (subs', dead, d', cs', n) =>
              Some (set_delivered_through sub (p_cursor p) :: subs',
                    (if alive : bool then dead else sub_id sub :: dead), d', cs', n)
          end
      end
  end.

Definition dispatch_pass (fuel : nat) (e : Engine) : option (nat * Engine) :=
  match drain_all fuel (e_subscribers e) (e_storage e) (e_channels e) 0 with
  | None => None
  | Some (subs, dead, d, cs, n) =>
      Some (n, set_subscribers (set_storage e d)
                 (filter (λ s, sub_id s ∉ dead) subs) cs)
  end.

(** ** The dispatcher ([dispatcher.rs]) *)

(** Mark each effect published, or failed when that fails. *)
Fixpoint publish_effects (effects : list Effect) (d : store) : store :=
  match effects with
  | [] => d
  | effect :: rest =>
      match s_mark_effect_published (eff_id effect) d with
      | (Ok _, d) => publish_effects rest d
      | (Err _, d) => publish_effects rest (s_mark_effect_failed (eff_id effect) d).2
      end
  end.

Definition dispatch (fuel : nat) (e : Engine) : option (nat * Engine) :=
  match dispatch_pass fuel e with
  | None => None
  | Some (delivered, e) =>
      match s_get_pending_effects 256 (e_storage e) with
      | (Ok effects, d) => Some (delivered, set_storage e (publish_effects effects d))
      | (Err _, d) => Some (delivered, set_storage e d)
      end
  end.

End engine.
