(* ===== verification/EngineSpec.v ===== *)
(** * What a transition does: the specification of the engine

    [spec_step] is the specification of [Engine::transition] on the abstract
    store: one rule per branch of the handler. [consistent] is the invariant of
    the store that the engine maintains: gap-free versions, linked states, the
    projection equal to the end of the history, single use of idempotency keys,
    and every record justified by a definition that was submitted.
    [transition_run] shows that the handler implements [spec_step], whether the
    store fails or not, and [consistent_step] that the steps keep the
    invariant. *)
From S2P Require Import Prelude Core Keys Storage StorageSpec StorageTrait Channel Engine.

(** ** Requests and the specification *)

Record Request : Type := {
  q_entity : string;
  q_machine : string;
  q_event : string;
  q_actor : string;
  q_ctx : Value;
  q_expected : option Version;
  q_key : option string;
}.

Definition spec_current (a : Abs) (def : MachineDefinition) (e m : string) : string :=
  match a_states a !! (e, m) with Some s => es_current_state s | None => md_initial_state def end.
Definition spec_version (a : Abs) (e m : string) : Version :=
  match a_states a !! (e, m) with Some s => es_version s | None => 0%N end.
Definition spec_created (a : Abs) (now : Time) (e m : string) : Time :=
  match a_states a !! (e, m) with Some s => es_created_at s | None => now end.

(** The entity as the guards see it. *)
Definition guard_state (a : Abs) (def : MachineDefinition) (q : Request) (t1 t2 : Time)
    : EntityState :=
  {| es_entity_id := q_entity q; es_machine := q_machine q;
     es_current_state := spec_current a def (q_entity q) (q_machine q);
     es_version := spec_version a (q_entity q) (q_machine q);
     es_updated_at := t1; es_created_at := t2 |}.

Definition version_ok (a : Abs) (q : Request) : Prop :=
  ∀ x, q_expected q = Some x → x = spec_version a (q_entity q) (q_machine q).

(** The machine is known, the expected version holds and the planner has a rule. *)
Definition planned (a : Abs) (q : Request) (def : MachineDefinition) (rule : TransitionRule)
    : Prop :=
  a_machines a !! q_machine q = Some def ∧ version_ok a q
  ∧ FsmPlanner.plan_transition def (spec_current a def (q_entity q) (q_machine q))
      (q_event q) (q_entity q) = Ok rule.

Definition guards_pass (reg : GuardRegistry.GuardRegistry) (rule : TransitionRule)
    (st : EntityState) (ctx : Value) : Res unit CoreError :=
  FsmPlanner.validate_guards rule (eval_guards reg (rule_guards rule) st ctx).

(** The record, the projection and the effects of a committed transition. *)
Definition commit_record (a : Abs) (q : Request) (def : MachineDefinition)
    (rule : TransitionRule) (id : string) (ts : Time) : TransitionRecord :=
  {| rec_id := id; rec_sequence := N.of_nat (S (length (a_log a)));
     rec_entity_id := q_entity q; rec_machine := q_machine q;
     rec_from_state := spec_current a def (q_entity q) (q_machine q);
     rec_to_state := rule_to_state rule; rec_event := q_event q; rec_actor := q_actor q;
     rec_ctx := q_ctx q; rec_idempotency_key := q_key q;
     rec_version := (spec_version a (q_entity q) (q_machine q) + 1)%N; rec_timestamp := ts |}.

Definition commit_state (a : Abs) (q : Request) (rule : TransitionRule) (now : Time)
    : EntityState :=
  {| es_entity_id := q_entity q; es_machine := q_machine q;
     es_current_state := rule_to_state rule;
     es_version := (spec_version a (q_entity q) (q_machine q) + 1)%N;
     es_updated_at := now; es_created_at := spec_created a now (q_entity q) (q_machine q) |}.

Definition effect_for (id : string) (er : EffectRule) (ef : Effect) : Prop :=
  ef = Effect_new (eff_id ef) (eff_created_at ef) id (er_effect er)
         (default value_default (er_payload er)).

Definition commit_abs (a : Abs) (r : TransitionRecord) (s : EntityState) (es : list Effect)
    : Abs :=
  {| a_machines := a_machines a;
     a_states := <[(es_entity_id s, es_machine s) := s]> (a_states a);
     a_log := a_log a ++ [r]; a_outbox := outbox_add (a_outbox a) es |}.

(** What the idempotency lookup should answer. *)
Definition spec_hit (a : Abs) (q : Request) : option TransitionRecord :=
  k ← q_key q; find_idem (a_log a) k.

(** One rule per branch of [transition]; [hit] is what the idempotency lookup
    answered. *)
Inductive spec_step (reg : GuardRegistry.GuardRegistry) (a : Abs) (q : Request)
    : option TransitionRecord → Res TransitionResult EngineError → Abs → Prop :=
| spec_replay existing :
    spec_step reg a q (Some existing) (Ok (replay_result existing)) a
| spec_no_machine :
    a_machines a !! q_machine q = None →
    spec_step reg a q None
      (Err (EStorage (NotFound ("machine '" +:+ q_machine q +:+ "'")))) a
| spec_conflict def x :
    a_machines a !! q_machine q = Some def → q_expected q = Some x →
    x ≠ spec_version a (q_entity q) (q_machine q) →
    spec_step reg a q None
      (Err (ECore (VersionConflict (q_entity q) (q_machine q) x
                     (spec_version a (q_entity q) (q_machine q))))) a
| spec_illegal def err :
    a_machines a !! q_machine q = Some def → version_ok a q →
    FsmPlanner.plan_transition def (spec_current a def (q_entity q) (q_machine q))
      (q_event q) (q_entity q) = Err err →
    spec_step reg a q None (Err (ECore err)) a
| spec_guard def rule t1 t2 err :
    planned a q def rule →
    guards_pass reg rule (guard_state a def q t1 t2) (q_ctx q) = Err err →
    spec_step reg a q None (Err (ECore err)) a
| spec_duplicate def rule t1 t2 k :
    planned a q def rule →
    guards_pass reg rule (guard_state a def q t1 t2) (q_ctx q) = Ok tt →
    q_key q = Some k → idem_used (a_log a) k = true →
    spec_step reg a q None
      (Err (EStorage (AlreadyExists ("idempotency key '" +:+ k +:+ "'")))) a
| spec_commit def rule t1 t2 now id ts effects :
    planned a q def rule →
    guards_pass reg rule (guard_state a def q t1 t2) (q_ctx q) = Ok tt →
    (∀ k, q_key q = Some k → idem_used (a_log a) k = false) →
    (∀ r, r ∈ a_log a → rec_id r ≠ id) → fresh_effects (a_outbox a) effects →
    Forall2 (effect_for id) (FsmPlanner.compute_effects def (q_event q)) effects →
    spec_step reg a q None
      (Ok (replay_result (commit_record a q def rule id ts)))
      (commit_abs a (commit_record a q def rule id ts) (commit_state a q rule now) effects).

(** ** The invariant of the store *)

(** Versions count up from 1 and each record starts where the last one ended. *)
Definition versioned (h : list TransitionRecord) : Prop :=
  ∀ i r, h !! i = Some r → rec_version r = N.of_nat (S i).
Definition linked (h : list TransitionRecord) : Prop :=
  ∀ i r r', h !! i = Some r → h !! S i = Some r' → rec_from_state r' = rec_to_state r.

(** A record is an edge of a definition, from its initial state when it is the
    first of its history. *)
Definition edge_of (def : MachineDefinition) (r : TransitionRecord) : Prop :=
  md_name def = rec_machine r
  ∧ (∃ rule, rule ∈ md_transitions def ∧ rule_event rule = rec_event r
       ∧ rec_from_state r ∈ rule_from_states rule ∧ rule_to_state rule = rec_to_state r)
  ∧ (rec_version r = 1%N → rec_from_state r = md_initial_state def).

(** The projection that a history determines. *)
Definition projects (h : list TransitionRecord) (s : option EntityState) : Prop :=
  match last h with
  | None => s = None
  | Some r => ∃ st, s = Some st ∧ es_current_state st = rec_to_state r
                    ∧ es_version st = rec_version r
  end.

Record consistent (defs : MachineDefinition → Prop) (a : Abs) : Prop := {
  c_versioned e m : versioned (hist e m (a_log a));
  c_linked e m : linked (hist e m (a_log a));
  c_projects e m : projects (hist e m (a_log a)) (a_states a !! (e, m));
  c_machines n d : a_machines a !! n = Some d → ∃ def, defs def ∧ well_formed def
    ∧ md_name def = n ∧ d = canon_machine def;
  c_edges r : r ∈ a_log a → ∃ def, defs def ∧ well_formed def ∧ edge_of def r;
  c_keys i j r r' k : a_log a !! i = Some r → a_log a !! j = Some r' →
    rec_idempotency_key r = Some k → rec_idempotency_key r' = Some k → i = j;
  c_outbox i ef : a_outbox a !! i = Some ef →
    ∃ r, r ∈ a_log a ∧ rec_id r = eff_transition_id ef;
}.

(** Identifiers in the store were drawn before. *)
Record drawn {EN : Env} (a : Abs) (n : nat) : Prop := {
  dr_log r : r ∈ a_log a → ∃ i, i < n ∧ rec_id r = new_v4 i;
  dr_outbox i : is_Some (a_outbox a !! i) → ∃ j, j < n ∧ i = new_v4 j;
}.

(** ** Plans and guards *)

(** The results map holds the answer of each guard of the rule. *)
Lemma eval_guards_lookup reg gs st ctx g :
  g ∈ gs → eval_guards reg gs st ctx !! g = Some (GuardRegistry.evaluate reg g st ctx).
Proof.
  unfold eval_guards. induction gs as [|x gs IH] using rev_ind; [set_solver|].
  rewrite foldl_app. cbn. intros Hg. apply lookup_insert_Some.
  destruct (decide (x = g)) as [->|Hne]; [by left|right; split; [done|]]. apply IH. set_solver.
Qed.

(** A rule passes when each of its guards that is registered says yes. *)
Lemma guards_pass_registered reg rule st ctx :
  (∀ g f, g ∈ rule_guards rule → reg !! g = Some f → f st ctx = true) →
  guards_pass reg rule st ctx = Ok tt.
Proof.
  intros Hg. apply check_guards_ok. intros g Hin. rewrite eval_guards_lookup by done.
  f_equal. unfold GuardRegistry.evaluate. destruct (reg !! g) as [f|] eqn:Hf; [by apply (Hg g)|done].
Qed.

(** It fails by a registered guard that says no. *)
Lemma guards_fail_registered reg rule st ctx err :
  guards_pass reg rule st ctx = Err err →
  ∃ g f, g ∈ rule_guards rule ∧ reg !! g = Some f ∧ f st ctx = false
    ∧ err = GuardFailed g "guard evaluated to false".
Proof.
  intros (g & l1 & l2 & Hgs & -> & Hno & _)%check_guards_err. exists g.
  assert (g ∈ rule_guards rule) as Hin by (rewrite Hgs; set_solver).
  rewrite eval_guards_lookup in Hno by done. unfold GuardRegistry.evaluate in Hno.
  destruct (reg !! g) as [f|]; [|done]. exists f. by destruct (f st ctx).
Qed.

Lemma canon_well_formed def : well_formed def → well_formed (canon_machine def).
Proof. intros []. by split. Qed.

(** ** Histories *)

Lemma hist_snoc e m log r :
  hist e m (log ++ [r])
  = hist e m log ++ (if decide (rec_entity_id r = e ∧ rec_machine r = m) then [r] else []).
Proof. unfold hist. rewrite filter_app. by rewrite filter_cons. Qed.

Lemma lookup_snoc {A} (l : list A) x i y :
  (l ++ [x]) !! i = Some y → l !! i = Some y ∨ i = length l ∧ y = x.
Proof.
  destruct (decide (i < length l)) as [Hi|Hi].
  - rewrite lookup_app_l by done. by left.
  - rewrite lookup_app_r by lia. destruct (i - length l) as [|k] eqn:E; [|by destruct k].
    intros [= <-]. right. split; [lia|done].
Qed.

Lemma versioned_snoc h r :
  versioned h → rec_version r = N.of_nat (S (length h)) → versioned (h ++ [r]).
Proof. intros Hv Hr i x [?|[-> ->]]%lookup_snoc; eauto. Qed.

Lemma linked_snoc h r :
  linked h → (∀ r0, last h = Some r0 → rec_from_state r = rec_to_state r0) → linked (h ++ [r]).
Proof.
  intros Hl Hr i x y Hx Hy. apply lookup_snoc in Hy as [Hy|[Hi ->]].
  - apply lookup_snoc in Hx as [Hx|[Hi ->]]; [eauto|]. apply lookup_lt_Some in Hy. lia.
  - apply lookup_snoc in Hx as [Hx|[Hi' ->]]; [|lia].
    apply Hr. rewrite last_lookup, <- Hi. done.
Qed.

(** Under the invariant the projected version is the length of the history. *)
Lemma spec_version_length defs a e m :
  consistent defs a → spec_version a e m = N.of_nat (length (hist e m (a_log a))).
Proof.
  intros HC. pose proof (c_projects _ _ HC e m) as Hp. unfold projects, spec_version in *.
  destruct (last (hist e m (a_log a))) as [r|] eqn:Hl.
  - destruct Hp as (s & -> & _ & ->). rewrite last_lookup in Hl.
    pose proof (lookup_lt_Some _ _ _ Hl). apply (c_versioned _ _ HC) in Hl as ->. f_equal. lia.
  - rewrite Hp. apply last_None in Hl. by rewrite Hl.
Qed.

Lemma hist_length e m log : length (hist e m log) <= length log.
Proof. unfold hist. apply length_filter. Qed.

(** The current state is where the last record ended. *)
Lemma spec_current_last defs a def e m r :
  consistent defs a → last (hist e m (a_log a)) = Some r →
  spec_current a def e m = rec_to_state r.
Proof.
  intros HC Hl. pose proof (c_projects _ _ HC e m) as Hp. unfold projects, spec_current in *.
  rewrite Hl in Hp. by destruct Hp as (s & -> & -> & _).
Qed.

(** ** The invariant is kept by every step *)

Lemma empty_consistent defs : consistent defs empty_abs.
Proof. split; try done; intros; set_solver. Qed.

Lemma edge_commit a q def def0 rule id ts :
  planned a q def rule → def = canon_machine def0 → md_name def0 = q_machine q →
  (spec_version a (q_entity q) (q_machine q) = 0%N →
     spec_current a def (q_entity q) (q_machine q) = md_initial_state def) →
  edge_of def0 (commit_record a q def rule id ts).
Proof.
  intros (_ & _ & Hplan) -> Hname Hinit. apply plan_transition_elem in Hplan as (? & ? & ?).
  split_and!; [done|by exists rule|]. cbn [commit_record rec_version rec_from_state]. intros Hv.
  apply Hinit. lia.
Qed.

(** A committed step extends a consistent store consistently. *)
Lemma consistent_commit defs a q def rule now id ts effects :
  consistent defs a → planned a q def rule →
  (∀ k, q_key q = Some k → idem_used (a_log a) k = false) →
  Forall2 (effect_for id) (FsmPlanner.compute_effects def (q_event q)) effects →
  consistent defs
    (commit_abs a (commit_record a q def rule id ts) (commit_state a q rule now) effects).
Proof.
  intros HC Hplan Hkey Heff. pose proof (spec_version_length defs a (q_entity q) (q_machine q) HC) as Hver.
  set (r := commit_record a q def rule id ts).
  split; cbn [commit_abs a_log a_states a_machines a_outbox].
  - intros e m. rewrite hist_snoc. case_decide as Hem; [|rewrite app_nil_r; apply HC].
    destruct Hem as [<- <-]. apply versioned_snoc; [apply HC|]. cbn. rewrite Hver. lia.
  - intros e m. rewrite hist_snoc. case_decide as Hem; [|rewrite app_nil_r; apply HC].
    destruct Hem as [<- <-]. apply linked_snoc; [apply HC|]. intros r0 Hr0. cbn.
    by eapply spec_current_last.
  - intros e m. rewrite hist_snoc, lookup_insert. cbn [commit_state es_entity_id es_machine].
    case_decide as Hem; case_decide as Hem'; try naive_solver.
    + unfold projects. rewrite last_snoc. by eexists.
    + rewrite app_nil_r. apply HC.
  - apply HC.
  - intros r0 [Hr0| ->%list_elem_of_singleton]%elem_of_app; [by apply HC|].
    destruct (c_machines _ _ HC _ _ (proj1 Hplan)) as (def0 & Hd & Hwf & Hn & Hc).
    exists def0. split_and!; [done|done|]. apply (edge_commit _ _ _ def0); [done..|].
    intros H0. rewrite Hver in H0. pose proof (c_projects _ _ HC (q_entity q) (q_machine q)) as Hp.
    unfold projects, spec_current in *.
    assert (hist (q_entity q) (q_machine q) (a_log a) = []) as Hnil by (apply nil_length_inv; lia).
    rewrite Hnil in Hp. cbn in Hp. by rewrite Hp.
  - assert (∀ i r0 k, a_log a !! i = Some r0 → rec_idempotency_key r0 = Some k →
              q_key q = Some k → False) as Hno.
    { intros i r0 k Hi%log_at_lookup Hk Hq. specialize (Hkey k Hq).
      assert (idem_used (a_log a) k = true); [apply idem_used_spec; eauto|congruence]. }
    intros i j r1 r2 k [Hi|[-> ->]]%lookup_snoc [Hj|[-> ->]]%lookup_snoc H1 H2;
      [by eapply HC|exfalso; eauto|exfalso; eauto|done].
  - intros i ef [Hef|Hef]%outbox_add_lookup.
    + destruct (c_outbox _ _ HC i ef Hef) as (r0 & ? & ?). exists r0. split; [|done].
      by apply elem_of_app; left.
    + exists r. split; [apply elem_of_app; right; constructor|].
      apply list_elem_of_lookup in Hef as [j Hj].
      destruct (Forall2_lookup_r _ _ _ _ _ Heff Hj) as (er & _ & ->). done.
Qed.
