(* ===== verification/EngineRun.v ===== *)
(** * Running the engine's handlers

    [transition_run]: the handler [transition], on a store that may fail,
    implements [spec_step]; the lemmas before it do the same for its parts. The
    flag [b] says whether the store is known to be fit: with [b = true] the
    failure branches disappear, with [b = false] nothing is assumed. *)
From S2P Require Import Prelude Core Keys Storage StorageSpec StorageTrait Channel Engine.
From S2P Require Import EngineSpec.

Section run.
Context {SE : StorageEngine} {SO : StorageOk SE} {MP : Mpsc ChangeRecord}.
Context {EN : Env} {EO : EnvOk EN}.
Implicit Types (e : Engine) (a : Abs) (d : store) (b : bool).

Definition fit_if (b : bool) (d : store) : Prop := b = true → fit d.

Lemma impl_mode {A} pre (m : St store StorageError A) spec b d a r d' :
  Implements holds fit pre m spec → holds d a → pre a → fit_if b d → m d = (r, d') →
  fit_if b d' ∧ ((∃ a', spec a r a' ∧ holds d' a') ∨ b = false ∧ failed r ∧ holds d' a).
Proof.
  intros [Hrun Hfit] Hh Hp Hb Hm. destruct b.
  - destruct (Hfit d a r d') as [? ?]; [by apply Hb|done..|]. split; [by intros _|by left].
  - split; [by intros [=]|]. destruct (Hrun d a r d') as [?|[? ?]]; eauto.
Qed.

Lemma read_mode {A} (m : St store StorageError A) f b d a r d' :
  Implements holds fit always m (reads f) → holds d a → fit_if b d → m d = (r, d') →
  holds d' a ∧ fit_if b d' ∧ (r = f a ∨ b = false ∧ failed r).
Proof.
  intros HI Hh Hb Hm. destruct (impl_mode _ _ _ b d a r d' HI Hh I Hb Hm)
    as (? & [(a' & [-> ->] & ?)|(? & ? & ?)]); eauto.
Qed.

(** What the handlers leave alone. *)
Record frame (e e' : Engine) : Prop := {
  f_guards : e_guards e' = e_guards e;
  f_subscribers : e_subscribers e' = e_subscribers e;
  f_channels : e_channels e' = e_channels e;
  f_shutdown : e_shutdown e' = e_shutdown e;
  f_uuids : e_uuids e <= e_uuids e';
}.

Lemma frame_refl e : frame e e.
Proof. done. Qed.
Lemma frame_trans e1 e2 e3 : frame e1 e2 → frame e2 e3 → frame e1 e3.
Proof. intros [] []. split; try congruence. lia. Qed.
Lemma frame_storage e d : frame e (set_storage e d).
Proof. done. Qed.

Lemma drawn_mono a n n' : drawn a n → n <= n' → drawn a n'.
Proof.
  intros [Hl Ho] Hn. split.
  - intros r (i & ? & ?)%Hl. exists i. split; [lia|done].
  - intros i (j & ? & ?)%Ho. exists j. split; [lia|done].
Qed.

Lemma set_storage_id e : set_storage e (e_storage e) = e.
Proof. by destruct e. Qed.

(** ** The parts of [transition] *)

Lemma lookup_idempotency_run b e a key :
  holds (e_storage e) a → fit_if b (e_storage e) →
  ∃ hit d, lookup_idempotency key e = (Ok hit, set_storage e d) ∧ holds d a ∧ fit_if b d
    ∧ (hit = (k ← key; find_idem (a_log a) k) ∨ b = false ∧ hit = None).
Proof.
  intros Hh Hb. destruct key as [k|]; cbn.
  - destruct (s_check_idempotency k (e_storage e)) as [r d] eqn:Hc.
    destruct (read_mode _ _ b _ a r d (check_idempotency_ok k) Hh Hb Hc) as (? & ? & Hr).
    unfold st_bind, try_storage. rewrite Hc. eexists _, d. split_and!; [done|done|done|].
    destruct Hr as [->|(-> & err & -> & _)]; cbn; [|by right].
    left. by destruct (find_idem _ k).
  - eexists None, _. rewrite set_storage_id. split_and!; eauto.
Qed.

Lemma load_current_run b e a def now en m :
  holds (e_storage e) a → fit_if b (e_storage e) →
  nul_free en = true → nul_free m = true →
  ∃ r d, load_current def now en m e = (r, set_storage e d) ∧ holds d a ∧ fit_if b d
    ∧ (r = Ok (spec_current a def en m, spec_version a en m, spec_created a now en m)
       ∨ b = false ∧ ∃ err, r = Err (EStorage err) ∧ is_failure err).
Proof.
  intros Hh Hb He Hm. unfold load_current, st_bind, try_storage.
  destruct (s_get_entity_state en m (e_storage e)) as [r d] eqn:Hc.
  destruct (read_mode _ _ b _ a r d (get_entity_state_ok en m He Hm) Hh Hb Hc) as (? & ? & Hr).
  exists (match r with
          | Ok s => Ok (es_current_state s, es_version s, es_created_at s)
          | Err (NotFound _) => Ok (md_initial_state def, 0%N, now)
          | Err err => Err (EStorage err)
          end), d.
  split_and!; [by destruct r as [|[]]|done|done|].
  destruct Hr as [->|(-> & err & -> & Hf)].
  - left. unfold spec_current, spec_version, spec_created. by destruct (a_states a !! (en, m)).
  - right. destruct err; eauto. done.
Qed.

Lemma new_effects_run tid rules e :
  ∃ effects e', new_effects tid rules e = (Ok effects, e')
    ∧ e_storage e' = e_storage e ∧ frame e e'
    ∧ Forall2 (effect_for tid) rules effects
    ∧ eff_id <$> effects = new_v4 <$> seq (e_uuids e) (length rules)
    ∧ e_uuids e' = e_uuids e + length rules.
Proof.
  revert e. induction rules as [|er rules IH]; intros e; cbn [new_effects length].
  { eexists [], e. split_and!; [done|done|done|done|done|lia]. }
  unfold st_bind, uuid, now. cbv beta iota zeta. cbn [e_uuids e_clock].
  match goal with |- context [new_effects tid rules ?x] => set (e1 := x) end.
  destruct (IH e1) as (effects & e' & -> & Hs & Hfr & HF & Hids & Hu).
  eexists _, e'. split; [reflexivity|]. split; [done|]. split.
  { eapply frame_trans; [|exact Hfr]. split; try done. cbn. lia. }
  split; [by constructor|]. cbn. rewrite Hids. split; [done|]. rewrite Hu. cbn. lia.
Qed.

(** The identifiers drawn for a transition are new to the store. *)
Lemma drawn_fresh_effects a n tid effects k :
  drawn a n → nul_free tid = true →
  (∀ ef, ef ∈ effects → eff_transition_id ef = tid) →
  eff_id <$> effects = new_v4 <$> seq (S n) k → fresh_effects (a_outbox a) effects.
Proof.
  intros [_ Ho] Hnul Htid Hids. split.
  - rewrite Hids. apply NoDup_fmap_2; [|apply NoDup_seq]. intros ???. by apply new_v4_inj.
  - intros ef Hef. apply eq_None_not_Some. intros (j & Hj & Heq)%Ho.
    apply (list_elem_of_fmap_2 eff_id) in Hef. rewrite Hids, Heq in Hef.
    apply list_elem_of_fmap in Hef as (i & Hi%new_v4_inj & Hin). apply elem_of_seq in Hin. lia.
  - intros ef Hef. by rewrite (Htid ef Hef).
Qed.

Lemma drawn_fresh_record a n r : drawn a n → r ∈ a_log a → rec_id r ≠ new_v4 n.
Proof. intros [Hl _] (i & Hi & ->)%Hl Heq%new_v4_inj. lia. Qed.

Lemma drawn_commit a q def rule ts s effects n n' :
  drawn a n → eff_id <$> effects = new_v4 <$> seq (S n) (n' - S n) → n < n' →
  drawn (commit_abs a (commit_record a q def rule (new_v4 n) ts) s effects) n'.
Proof.
  intros HD Hids Hn. destruct (drawn_mono a n n' HD ltac:(lia)) as [Hl Ho]. split; cbn.
  - intros r [Hr| ->%list_elem_of_singleton]%elem_of_app; [by apply Hl|]. by exists n.
  - intros i [Hi|Hi]%outbox_add_dom; [by apply Ho|]. rewrite Hids in Hi.
    apply list_elem_of_fmap in Hi as (j & -> & Hj%elem_of_seq). exists j. split; [lia|done].
Qed.

(** On a store that matches what was read, [spec_execute] cannot conflict on
    the version. *)
Lemma spec_execute_commit a q def rule now id ts effects :
  let r := commit_record a q def rule id ts in
  spec_execute a r (commit_state a q rule now) effects =
  match q_key q with
  | Some k =>
      if idem_used (a_log a) k
      then (Err (AlreadyExists ("idempotency key '" +:+ k +:+ "'")), a)
      else (Ok (rec_sequence r, r), commit_abs a r (commit_state a q rule now) effects)
  | None => (Ok (rec_sequence r, r), commit_abs a r (commit_state a q rule now) effects)
  end.
Proof.
  intros r. unfold spec_execute. cbn [commit_state es_entity_id es_machine es_version].
  destruct (a_states a !! (q_entity q, q_machine q)) as [ex|] eqn:Hex; [|done].
  rewrite decide_True; [done|]. unfold spec_version. rewrite Hex. lia.
Qed.

Lemma effect_for_tid id rules effects ef :
  Forall2 (effect_for id) rules effects → ef ∈ effects → eff_transition_id ef = id.
Proof.
  intros HF [j Hj]%list_elem_of_lookup.
  destruct (Forall2_lookup_r _ _ _ _ _ HF Hj) as (er & _ & ->). done.
Qed.

(** What running the handler may do: a step of the specification, or, when the
    store is not known to be fit, a storage failure that changes nothing. *)
Definition outcome (b : bool) (e : Engine) (a : Abs) (q : Request)
    (hit : option TransitionRecord) (r : Res TransitionResult EngineError) (e' : Engine)
    : Prop :=
  frame e e' ∧ fit_if b (e_storage e')
  ∧ ((∃ a', spec_step (e_guards e) a q hit r a' ∧ holds (e_storage e') a'
            ∧ drawn a' (e_uuids e'))
     ∨ b = false ∧ (∃ err, r = Err (EStorage err) ∧ is_failure err)
       ∧ holds (e_storage e') a ∧ drawn a (e_uuids e')).

Lemma outcome_step b e a q hit r e' :
  spec_step (e_guards e) a q hit r a → frame e e' → fit_if b (e_storage e') →
  holds (e_storage e') a → drawn a (e_uuids e) → outcome b e a q hit r e'.
Proof.
  intros Hs Hf Hb Hh HD. split_and!; [done|done|]. left. exists a. split_and!; [done|done|].
  eapply drawn_mono; [done|]. apply Hf.
Qed.

Lemma outcome_fail e a q hit err e' :
  is_failure err → frame e e' → holds (e_storage e') a → drawn a (e_uuids e) →
  outcome false e a q hit (Err (EStorage err)) e'.
Proof.
  intros Hs Hf Hh HD. split_and!; [done|by intros [=]|]. right. split_and!; [done|eauto|done|].
  eapply drawn_mono; [done|]. apply Hf.
Qed.

Lemma outcome_frame b e e1 a q hit r e' :
  frame e e1 → outcome b e1 a q hit r e' → outcome b e a q hit r e'.
Proof.
  intros Hf (Hf1 & Hb & Hc). split; [by eapply frame_trans|]. split; [done|].
  by rewrite (f_guards _ _ Hf) in Hc.
Qed.

Lemma commit_transition_run b e a q def rule t1 t2 now0 defs r e' :
  holds (e_storage e) a → fit_if b (e_storage e) → consistent defs a →
  drawn a (e_uuids e) → nul_free (q_entity q) = true → nul_free (q_machine q) = true →
  (N.of_nat (S (length (a_log a))) <= u64_max)%N →
  planned a q def rule →
  guards_pass (e_guards e) rule (guard_state a def q t1 t2) (q_ctx q) = Ok tt →
  commit_transition def rule (q_entity q) (q_machine q) (q_event q) (q_actor q) (q_ctx q)
    (q_key q) (spec_current a def (q_entity q) (q_machine q))
    (spec_version a (q_entity q) (q_machine q))
    (spec_created a now0 (q_entity q) (q_machine q)) now0 e = (r, e') →
  outcome b e a q None r e'.
Proof.
  intros Hh Hb HC HD He Hm Hroom Hplan Hguard.
  unfold commit_transition. unfold st_bind at 1 2. unfold uuid at 1, now at 1.
  cbv beta iota zeta. cbn [e_uuids e_clock].
  match goal with |- st_bind _ _ ?x = _ → _ => set (e1 := x) end.
  set (id := new_v4 (e_uuids e)). set (ts := utc_now (e_clock e)).
  destruct (new_effects_run id (FsmPlanner.compute_effects def (q_event q)) e1)
    as (effects & e2 & Hne & Hs2 & Hf2 & HF & Hids & Hu).
  rewrite (bind_ok _ _ _ _ _ Hne).
  assert (add64 (spec_version a (q_entity q) (q_machine q)) 1
          = spec_version a (q_entity q) (q_machine q) + 1)%N as Hadd.
  { apply add64_small. rewrite (spec_version_length defs) by done.
    pose proof (hist_length (q_entity q) (q_machine q) (a_log a)). lia. }
  rewrite Hadd. clear Hadd.
  set (rec := commit_record a q def rule id ts). set (st := commit_state a q rule now0).
  match goal with |- context [s_execute_transition ?x ?y _] => set (rec0 := x); set (st0 := y) end.
  assert (st0 = st) as -> by done.
  assert (frame e e2) as Hfr. { eapply frame_trans; [|exact Hf2]. split; try done. cbn. lia. }
  assert (fresh_effects (a_outbox a) effects) as Hfresh.
  { eapply (drawn_fresh_effects a (e_uuids e) id); [done|apply new_v4_nul_free| |exact Hids].
    intros ef. by eapply effect_for_tid. }
  assert (∀ x, x ∈ a_log a → rec_id x ≠ id) as Hnew
    by (intros x Hx; by apply (drawn_fresh_record a)).
  assert (exec_ok a rec0 st effects) as Hexec.
  { split; try done. split_and!; [done|done|apply new_v4_nul_free]. }
  assert (holds (e_storage e2) a ∧ fit_if b (e_storage e2)) as [Hh2 Hb2] by by rewrite Hs2.
  unfold st_bind at 1, storage.
  destruct (s_execute_transition rec0 st effects (e_storage e2)) as [res d3] eqn:Hex.
  destruct (impl_mode _ _ _ b _ a res d3 (execute_transition_ok rec0 st effects) Hh2 Hexec Hb2 Hex)
    as (Hb3 & Hcase).
  assert (drawn a (e_uuids e2)) as HD2 by (eapply drawn_mono; [done|by destruct Hfr]).
  destruct Hcase as [(a' & Hspec & Ha')|(-> & (err & -> & Herr) & Ha)].
  2: { intros [= <- <-]. split; [by eapply frame_trans|]. split; [done|]. right. cbn. eauto 10. }
  unfold writes in Hspec. change (spec_execute a rec st effects = (res, a')) in Hspec.
  unfold rec, st in Hspec. rewrite spec_execute_commit in Hspec. fold rec st in Hspec.
  assert (drawn (commit_abs a rec st effects) (e_uuids e2)) as HDc.
  { apply drawn_commit; [done| |rewrite Hu; cbn; lia]. rewrite Hids, Hu. cbn. do 2 f_equal. lia. }
  destruct (q_key q) as [k|] eqn:Hk; [destruct (idem_used (a_log a) k) eqn:Hused|];
    injection Hspec as <- <-; intros [= <- <-]; (split; [by eapply frame_trans|]); (split; [done|]); left.
  - exists a. split_and!; [|done|done]. by eapply spec_duplicate.
  - exists (commit_abs a rec st effects). split_and!; [|done|done].
    eapply spec_commit; try done. naive_solver.
  - exists (commit_abs a rec st effects). split_and!; [|done|done].
    eapply spec_commit; try done. naive_solver.
Qed.

(** [transition] on a request. *)
Definition do_transition (q : Request) : St Engine EngineError TransitionResult :=
  transition (q_entity q) (q_machine q) (q_event q) (q_actor q) (q_ctx q)
    (q_expected q) (q_key q).

Lemma check_expected_spec a q :
  check_expected (q_entity q) (q_machine q) (q_expected q)
    (spec_version a (q_entity q) (q_machine q)) = Ok tt ∧ version_ok a q
  ∨ ∃ x, q_expected q = Some x ∧ x ≠ spec_version a (q_entity q) (q_machine q)
      ∧ check_expected (q_entity q) (q_machine q) (q_expected q)
          (spec_version a (q_entity q) (q_machine q))
        = Err (VersionConflict (q_entity q) (q_machine q) x
                 (spec_version a (q_entity q) (q_machine q))).
Proof.
  unfold check_expected, version_ok. destruct (q_expected q) as [x|]; [|left; naive_solver].
  destruct (N.eqb_spec x (spec_version a (q_entity q) (q_machine q))); [left|right]; naive_solver.
Qed.

(** The handler up to the lookup of the definition. *)
Lemma transition_run b e a q defs r e' :
  holds (e_storage e) a → fit_if b (e_storage e) → consistent defs a →
  drawn a (e_uuids e) → nul_free (q_entity q) = true → nul_free (q_machine q) = true →
  (N.of_nat (S (length (a_log a))) <= u64_max)%N → e_shutdown e = false →
  do_transition q e = (r, e') →
  ∃ hit, (hit = spec_hit a q ∨ b = false ∧ hit = None) ∧ outcome b e a q hit r e'.
Proof.
  intros Hh Hb HC HD He Hm Hroom Hsd. unfold do_transition, transition.
  unfold st_bind at 1, gets at 1. rewrite Hsd. cbv beta iota.
  destruct (lookup_idempotency_run b e a (q_key q) Hh Hb) as (hit & d1 & Hl & Hh1 & Hb1 & Hhit).
  rewrite (bind_ok _ _ _ _ _ Hl). intros Hrun. exists hit. split; [done|].
  destruct hit as [ex|].
  { injection Hrun as <- <-. apply outcome_step; try done. constructor. }
  revert Hrun. unfold st_bind at 1, storage at 1. cbn [e_storage set_storage].
  destruct (s_get_machine (q_machine q) None d1) as [r2 d2] eqn:Hg.
  destruct (read_mode _ _ b _ a r2 d2 (get_machine_ok (q_machine q) None) Hh1 Hb1 Hg)
    as (Hh2 & Hb2 & [-> |(-> & err & -> & Herr)]).
  2: { intros [= <- <-]. by apply outcome_fail. }
  destruct (a_machines a !! q_machine q) as [def|] eqn:Hdef; cbn [ok_or map_err].
  2: { intros [= <- <-]. apply outcome_step; try done. by constructor. }
  unfold st_bind at 1, now at 1.
  match goal with |- st_bind _ _ ?x = _ → _ => set (e3 := x) end.
  destruct (load_current_run b e3 a def (utc_now (e_clock (set_storage (set_storage e d1) d2)))
    (q_entity q) (q_machine q) Hh2 Hb2 He Hm) as (r4 & d4 & Hload & Hh4 & Hb4 & Hr4).
  set (now0 := utc_now _) in *.
  destruct Hr4 as [-> |(-> & err & -> & Herr)].
  2: { rewrite (bind_err _ _ _ _ _ Hload). intros [= <- <-]. by apply outcome_fail. }
  rewrite (bind_ok _ _ _ _ _ Hload). cbv beta iota.
  destruct (check_expected_spec a q) as [[-> Hver]|(x & Hx & Hne & ->)].
  2: { intros [= <- <-]. apply outcome_step; try done. by eapply spec_conflict. }
  destruct (FsmPlanner.plan_transition def _ _ _) as [rule|err] eqn:Hplan.
  2: { intros [= <- <-]. apply outcome_step; try done. by eapply spec_illegal. }
  assert (planned a q def rule) as HP by done.
  unfold st_bind, core, st_res, gets, now. cbn [map_err e_guards e_clock].
  match goal with |- context [FsmPlanner.validate_guards rule ?x] =>
    destruct (FsmPlanner.validate_guards rule x) as [[]|err] eqn:Hguard end.
  2: { intros [= <- <-]. apply outcome_step; try done. by eapply spec_guard. }
  intros Hrun. cbn [map_err] in Hrun.
  eapply outcome_frame; [|eapply commit_transition_run; try exact Hrun; try done; try exact Hguard].
  done.
Qed.

End run.
