(* ===== verification/Dispatch.v ===== *)
(** * Delivery: what a dispatch pass hands to the subscribers

    [deliver_batch_run], [drain_run] and [drain_all_run] follow the loops of
    [Engine::dispatch_pass]: a subscriber receives the change records of the log
    positions after its cursor, in order, without gaps or repetition, as far as
    the store and the receiver allow, and its cursor records exactly how far.
    The fuel of the loops is enough as soon as it exceeds the length of the
    log. *)
From S2P Require Import Prelude Core Keys Storage StorageSpec StorageTrait Channel Engine.
From S2P Require Import EngineSpec EngineRun.

(** ** Slices of the log *)

(** The records at positions [start + 1 .. cursor]. *)
Definition slice (start cursor : N) (log : list TransitionRecord) : list TransitionRecord :=
  take (N.to_nat cursor - N.to_nat start) (drop (N.to_nat start) log).

(** The records a subscriber with this filter wants. *)
Definition wanted (filter : option string) (rs : list TransitionRecord) : list TransitionRecord :=
  List.filter (λ r, negb (skips filter r)) rs.

Lemma wanted_app f l1 l2 : wanted f (l1 ++ l2) = wanted f l1 ++ wanted f l2.
Proof. apply List.filter_app. Qed.

Lemma slice_nil s log : slice s s log = [].
Proof. unfold slice. by rewrite Nat.sub_diag. Qed.

(** Extending a slice by the records taken after its cursor. *)
Lemma slice_app s c k log :
  (s <= c)%N →
  slice s c log ++ take k (drop (N.to_nat c) log) = slice s (c + N.of_nat k) log.
Proof.
  intros Hs. unfold slice.
  replace (N.to_nat (c + N.of_nat k) - N.to_nat s) with ((N.to_nat c - N.to_nat s) + k) by lia.
  rewrite <- (take_take_drop (drop (N.to_nat s) log)). f_equal.
  rewrite drop_drop. f_equal. f_equal. lia.
Qed.

(** Records appended behind the cursor do not change a slice. *)
Lemma slice_snoc s c log l :
  (c = s ∨ N.to_nat c <= length log) → slice s c (log ++ l) = slice s c log.
Proof.
  intros [-> |Hc]; [by rewrite !slice_nil|]. unfold slice.
  destruct (decide (N.to_nat s <= length log)) as [Hs|Hs].
  - rewrite drop_app_le by done. rewrite take_app_le; [done|]. rewrite length_drop. lia.
  - replace (N.to_nat c - N.to_nat s) with 0 by lia. by rewrite !take_0.
Qed.

Section log.
Context (log : list TransitionRecord).
Hypothesis Hseq : ∀ k r, log_at log k = Some r → rec_sequence r = k.

(** The records after a cursor are a suffix of the log. *)
Lemma log_after_drop c : log_after c log = drop (N.to_nat (add64 c 1) - 1) log.
Proof.
  unfold log_after. set (x := add64 c 1). clearbody x.
  assert (∀ l i, (∀ j r, l !! j = Some r → rec_sequence r = N.of_nat (S (i + j))) →
    filter (λ r, (x <= rec_sequence r)%N) l = drop (N.to_nat x - 1 - i) l) as H.
  { induction l as [|r l IH]; intros i Hl; [by rewrite drop_nil|].
    pose proof (Hl 0 r eq_refl) as Hr.
    rewrite filter_cons, (IH (S i)) by (intros j r' Hj; rewrite (Hl (S j) r' Hj); lia).
    case_decide as Hx.
    - replace (N.to_nat x - 1 - i) with 0 by lia.
      replace (N.to_nat x - 1 - S i) with 0 by lia. by rewrite !drop_0.
    - replace (N.to_nat x - 1 - i) with (S (N.to_nat x - 1 - S i)) by lia. done. }
  rewrite (H log 0); [by rewrite Nat.sub_0_r|].
  intros j r Hj%log_at_lookup. by rewrite (Hseq _ _ Hj).
Qed.

Lemma log_after_small c : (c < u64_max)%N → log_after c log = drop (N.to_nat c) log.
Proof.
  intros Hc. rewrite log_after_drop, add64_small by lia. f_equal. lia.
Qed.

(** A batch read after a cursor: the sequence of its last record, and what is
    left after it. *)
Lemma batch_next c k rs r :
  rs = take k (log_after c log) → last rs = Some r → (N.of_nat (length log) < u64_max)%N →
  (rec_sequence r <= N.of_nat (length log))%N
  ∧ log_after (rec_sequence r) log = drop (length rs) (log_after c log).
Proof.
  intros -> Hlast Hb. rewrite (log_after_drop c) in Hlast |- *. set (j := N.to_nat (add64 c 1) - 1) in *.
  rewrite last_lookup in Hlast. pose proof (lookup_lt_Some _ _ _ Hlast) as Hlt.
  set (n := length (take k (drop j log))) in *.
  rewrite lookup_take, lookup_drop in Hlast. case_decide as Hk; [|done].
  pose proof Hlast as Hlt'%lookup_lt_Some. apply log_at_lookup in Hlast.
  rewrite (Hseq _ _ Hlast), log_after_small by lia. split; [lia|].
  rewrite drop_drop. f_equal. lia.
Qed.

End log.

(** ** The loops *)

Section delivery.
Context {SE : StorageEngine} {SO : StorageOk SE} {MP : Mpsc ChangeRecord} {MO : MpscOk ChangeRecord}.
Context {EN : Env}.
Implicit Types (a : Abs) (d : store) (b : bool) (p : Pass).

Lemma returns_mode {A} (m : St store StorageError A) P b d a r d' :
  Implements holds fit always m (returns P) → holds d a → fit_if b d → m d = (r, d') →
  holds d' a ∧ fit_if b d' ∧ ((∃ x, r = Ok x ∧ P a x) ∨ b = false ∧ failed r).
Proof.
  intros HI Hh Hb Hm. destruct (impl_mode _ _ _ b d a r d' HI Hh I Hb Hm)
    as (? & [(a' & [-> ?] & ?)|(? & ? & ?)]); eauto.
Qed.

(** The change record of a log record; a store that fails to read the effects
    yields one without them. *)
Definition delivered_as (b : bool) (a : Abs) (r : TransitionRecord) (c : ChangeRecord) : Prop :=
  (∃ l, effects_of a (rec_id r) l ∧ c = change_record r l)
  ∨ b = false ∧ c = change_record r [].

(** From [p] to [p'] channel [tx], which was [c], was given the wanted records
    among [rs], in order; the other channels were left alone. *)
Definition handed_over (b : bool) (a : Abs) (f : option string) (tx : nat)
    (c : chan ChangeRecord) (rs : list TransitionRecord) (p p' : Pass) : Prop :=
  ∃ c' l, p_channels p' = <[tx := c']> (p_channels p) ∧ sent c' = sent c ++ l
    ∧ Forall2 (delivered_as b a) (wanted f rs) l
    ∧ p_delivered p' = p_delivered p + length l ∧ (is_open c → is_open c').

Lemma handed_over_nil b a f tx c p d :
  p_channels p !! tx = Some c → handed_over b a f tx c [] p (p_set_storage p d).
Proof.
  intros Hc. exists c, []. split_and!; cbn; [by rewrite list_insert_id| |constructor|lia|done].
  by rewrite app_nil_r.
Qed.

Lemma handed_over_app b a f tx c c1 rs1 rs2 p p1 p2 :
  handed_over b a f tx c rs1 p p1 → p_channels p1 !! tx = Some c1 →
  handed_over b a f tx c1 rs2 p1 p2 → handed_over b a f tx c (rs1 ++ rs2) p p2.
Proof.
  intros (c' & l1 & Hcs & Hs & HF & Hn & Ho) Hc1 (c2 & l2 & Hcs2 & Hs2 & HF2 & Hn2 & Ho2).
  assert (c' = c1) as ->.
  { rewrite Hcs in Hc1. apply list_lookup_insert_Some in Hc1 as [(_ & ? & _)|[? _]]; done. }
  exists c2, (l1 ++ l2). split_and!.
  - by rewrite Hcs2, Hcs, list_insert_insert_eq.
  - by rewrite Hs2, Hs, app_assoc.
  - rewrite wanted_app. by apply Forall2_app.
  - rewrite Hn2, Hn, length_app. lia.
  - auto.
Qed.

Lemma handed_over_lookup b a f tx c rs p p' :
  p_channels p !! tx = Some c → handed_over b a f tx c rs p p' →
  ∃ c', p_channels p' !! tx = Some c'.
Proof.
  intros Hc (c' & l & -> & _). exists c'. apply list_lookup_insert_eq.
  by eapply lookup_lt_Some.
Qed.

Lemma deliver_batch_run b a f tx rs p c alive p' :
  holds (p_storage p) a → fit_if b (p_storage p) → (∀ r, r ∈ rs → r ∈ a_log a) →
  p_channels p !! tx = Some c → deliver_batch f tx rs p = (alive, p') →
  holds (p_storage p') a ∧ fit_if b (p_storage p') ∧ (is_open c → alive = true)
  ∧ ∃ rs1 rs2, rs = rs1 ++ rs2 ∧ handed_over b a f tx c rs1 p p'
    ∧ (alive = true → rs2 = []
         ∧ p_cursor p' = default (p_cursor p) (rec_sequence <$> last rs)).
Proof.
  revert p c. induction rs as [|r rs IH]; intros p c Hh Hb Hin Hc; cbn [deliver_batch].
  { intros [= <- <-]. split_and!; [done|done|done|]. exists [], []. split_and!; [done| |done].
    destruct p. by apply (handed_over_nil b a f tx c (Build_Pass _ _ _ _)). }
  assert (∀ x, x ∈ rs → x ∈ a_log a) as Hin' by (intros; apply Hin; by constructor).
  assert (∀ x : N, default x (rec_sequence <$> last (r :: rs))
          = default (rec_sequence r) (rec_sequence <$> last rs)) as Hlast.
  { intros x. rewrite last_cons. by destruct (last rs). }
  destruct (skips f r) eqn:Hskip.
  { intros Hrun. eapply (IH _ c) in Hrun as (? & ? & ? & rs1 & rs2 & -> & Hho & Hal); try done.
    split_and!; [done|done|done|]. exists (r :: rs1), rs2. split_and!; [done| |].
    - destruct Hho as (c' & l & ? & ? & HF & ? & ?). exists c', l. split_and!; try done.
      cbn. by rewrite Hskip.
    - intros Ha. destruct (Hal Ha) as [? Hcur]. split; [done|]. by rewrite Hlast. }
  destruct (s_get_effects_for_transition (rec_id r) (p_storage p)) as [re d] eqn:Hg.
  destruct (aw_nul _ (holds_wf _ _ Hh) r) as (_ & _ & Hnul); [apply Hin; constructor|].
  destruct (returns_mode _ _ b _ a re d (get_effects_ok (rec_id r) Hnul) Hh Hb Hg) as (Hh1 & Hb1 & Hre).
  set (x := change_record r _).
  assert (delivered_as b a r x) as Hx.
  { unfold x. destruct Hre as [(l & -> & Hl)|(-> & err & -> & _)]; [left; eauto|by right]. }
  unfold send_on. rewrite Hc. destruct (send c x) as [[[]|[]] c1] eqn:Hsend.
  2: { intros [= <- <-]. split_and!; [done|done| |].
    - intros Ho. destruct (send_open c x Ho) as (? & Hs & _). congruence.
    - exists [], (r :: rs). split_and!; [done| |done]. exists c1, [].
      split_and!; [done|by rewrite app_nil_r, (send_err _ _ _ Hsend)|constructor|cbn; lia|].
      intros Ho. destruct (send_open c x Ho) as (? & Hs & _). congruence. }
  assert (is_open c → is_open c1) as Ho1.
  { intros Ho. destruct (send_open c x Ho) as (? & Hs & ?). congruence. }
  intros Hrun. eapply (IH _ c1) in Hrun as (? & ? & ? & rs1 & rs2 & -> & Hho & Hal); try done.
  2: { cbn. apply list_lookup_insert_eq. by eapply lookup_lt_Some. }
  split_and!; [done|done|auto|]. exists (r :: rs1), rs2. split_and!; [done| |].
  - destruct Hho as (c' & l & Hcs & Hs & HF & Hn & Ho). exists c', (x :: l). split_and!.
    + by rewrite Hcs; cbn; rewrite list_insert_insert_eq.
    + by rewrite Hs, (send_ok _ _ _ Hsend), <- app_assoc.
    + cbn. rewrite Hskip. by constructor.
    + rewrite Hn. cbn. lia.
    + auto.
  - intros Ha. destruct (Hal Ha) as [? Hcur]. split; [done|]. by rewrite Hlast.
Qed.

(** The ['drain] loop ends, and hands over a prefix of the records after the
    cursor; all of them when the store is fit and the receiver alive. *)
Lemma drain_run b a f tx fuel p c :
  holds (p_storage p) a → fit_if b (p_storage p) → p_channels p !! tx = Some c →
  (N.of_nat (length (a_log a)) < u64_max)%N →
  length (log_after (p_cursor p) (a_log a)) < fuel →
  ∃ alive p' rs1 rs2, drain fuel f tx p = Some (alive, p')
    ∧ holds (p_storage p') a ∧ fit_if b (p_storage p') ∧ (is_open c → alive = true)
    ∧ log_after (p_cursor p) (a_log a) = rs1 ++ rs2
    ∧ handed_over b a f tx c rs1 p p'
    ∧ (alive = true → p_cursor p' = default (p_cursor p) (rec_sequence <$> last rs1))
    ∧ (alive = true → b = true → rs2 = []).
Proof.
  revert p c. induction fuel as [|fuel IH]; intros p c Hh Hb Hc Hbound Hfuel; [lia|].
  cbn [drain]. destruct (s_get_transitions_after (p_cursor p) BATCH (p_storage p)) as [r d] eqn:Hg.
  destruct (read_mode _ _ b _ a r d (get_transitions_after_ok _ _) Hh Hb Hg) as (Hh1 & Hb1 & Hr).
  pose proof (aw_seq _ (holds_wf _ _ Hh)) as Hseq.
  destruct Hr as [-> |(-> & err & -> & _)].
  2: { eexists true, (p_set_storage p d), [], _. split_and!; try done. by apply handed_over_nil. }
  set (out := log_after (p_cursor p) (a_log a)) in *.
  destruct (take (N.to_nat BATCH) out) as [|r0 rs0] eqn:Htake.
  { exists true, (p_set_storage p d), [], out. split_and!; try done; [by apply handed_over_nil|].
    intros _ _. apply (f_equal length) in Htake. rewrite length_take in Htake.
    unfold BATCH in Htake. cbn [length] in Htake. apply nil_length_inv. lia. }
  rewrite <- Htake. cbv beta iota.
  assert (∀ r, r ∈ take (N.to_nat BATCH) out → r ∈ a_log a) as Hin.
  { intros r Hr. unfold out, log_after in Hr.
    apply list_elem_of_lookup in Hr as [i Hi]. rewrite lookup_take in Hi. case_decide; [|done].
    by apply list_elem_of_lookup_2, list_elem_of_filter in Hi as [_ ?]. }
  destruct (deliver_batch f tx (take (N.to_nat BATCH) out) (p_set_storage p d)) as [alive p1] eqn:Hd.
  eapply deliver_batch_run in Hd as (Hh2 & Hb2 & Hal & rs1 & rs2 & Hrs & Hho & Hcur); try done.
  assert (handed_over b a f tx c rs1 p p1) as Hho' by exact Hho.
  destruct alive.
  2: { exists false, p1, rs1, (rs2 ++ drop (N.to_nat BATCH) out). split_and!; try done.
       by rewrite app_assoc, <- Hrs, take_drop. }
  destruct (Hcur eq_refl) as [-> Hc1]. rewrite app_nil_r in Hrs. subst rs1.
  destruct (last (take (N.to_nat BATCH) out)) as [rl|] eqn:Hlast.
  2: { by rewrite Htake, last_None in Hlast. }
  destruct (batch_next (a_log a) Hseq (p_cursor p) _ _ rl eq_refl Hlast Hbound) as [Hle Hnext].
  cbn in Hc1. fold out in Hnext.
  destruct (N.ltb_spec (N.of_nat (length (take (N.to_nat BATCH) out))) BATCH) as [Hlt|Hge].
  - assert (drop (N.to_nat BATCH) out = []) as Hdrop.
    { rewrite length_take in Hlt. apply nil_length_inv. rewrite length_drop. lia. }
    exists true, p1, (take (N.to_nat BATCH) out), []. split_and!; try done.
    + by rewrite app_nil_r, <- (take_drop (N.to_nat BATCH) out) at 1; rewrite Hdrop, app_nil_r.
    + intros _. by rewrite Hlast.
  - destruct (handed_over_lookup _ _ _ _ _ _ _ _ Hc Hho') as [c1 Hc1'].
    assert (log_after (p_cursor p1) (a_log a) = drop (N.to_nat BATCH) out) as Hout1.
    { rewrite Hc1, Hnext. f_equal. rewrite length_take in *. lia. }
    destruct (IH p1 c1) as (alive & p2 & rs1 & rs2 & Hdr & Hh3 & Hb3 & Hal3 & Hsplit & Hho3 & Hcur3 & Hall3);
      try done.
    { rewrite Hout1, length_drop. rewrite length_take in Hge. unfold BATCH in *. lia. }
    exists alive, p2, (take (N.to_nat BATCH) out ++ rs1), rs2. split_and!; try done.
    + intros Ho. apply Hal3. destruct Hho' as (c' & l & Hcs & _ & _ & _ & Hoo).
      rewrite Hcs, list_lookup_insert_eq in Hc1' by (by eapply lookup_lt_Some). simplify_eq. auto.
    + rewrite <- app_assoc, <- Hsplit, Hout1, take_drop. done.
    + by eapply handed_over_app.
    + intros Ha. rewrite (Hcur3 Ha), last_app, Hlast, Hc1. by destruct (last rs1).
Qed.

(** ** All subscribers *)

(** What a pass does to one subscriber: its channel is given the wanted part of a
    prefix [rs1] of the records after its cursor; unless it is pruned, the
    cursor moves to the end of [rs1], which is everything on a fit store. *)
Record served (b : bool) (a : Abs) (dead : list string) (cs cs' : list (chan ChangeRecord))
    (s s' : Subscriber) : Prop := {
  sv_id : sub_id s' = sub_id s;
  sv_filter : sub_machine_filter s' = sub_machine_filter s;
  sv_sender : sub_sender s' = sub_sender s;
  sv_chan : ∃ c c' rs1 rs2 l, cs !! sub_sender s = Some c ∧ cs' !! sub_sender s = Some c'
    ∧ log_after (sub_delivered_through s) (a_log a) = rs1 ++ rs2
    ∧ sent c' = sent c ++ l
    ∧ Forall2 (delivered_as b a) (wanted (sub_machine_filter s) rs1) l
    ∧ (is_open c → is_open c')
    ∧ (sub_id s ∈ dead ∧ ¬ is_open c
       ∨ sub_delivered_through s'
           = default (sub_delivered_through s) (rec_sequence <$> last rs1)
         ∧ (b = true → rs2 = []));
}.

(** The channels may be read at their sender only. *)
Lemma served_weaken b a dead dead' cs cs' cs0 cs0' s s' :
  served b a dead cs cs' s s' → (∀ x, x ∈ dead → x ∈ dead') →
  cs0 !! sub_sender s = cs !! sub_sender s → cs0' !! sub_sender s = cs' !! sub_sender s →
  served b a dead' cs0 cs0' s s'.
Proof.
  intros [Hi Hf Hs (c & c' & rs1 & rs2 & l & Hc & Hc' & H)] Hd H0 H0'. split; try done.
  exists c, c', rs1, rs2, l. rewrite H0, H0'. split_and!; try done; try apply H.
  destruct H as (_ & _ & _ & _ & [[? ?]|?]); [left|right]; auto.
Qed.

Lemma drain_all_run b a fuel subs d cs n :
  holds d a → fit_if b d → (N.of_nat (length (a_log a)) < u64_max)%N →
  length (a_log a) < fuel → NoDup (sub_sender <$> subs) →
  (∀ s, s ∈ subs → is_Some (cs !! sub_sender s)) →
  ∃ subs' dead d' cs' n', drain_all fuel subs d cs n = Some (subs', dead, d', cs', n')
    ∧ holds d' a ∧ fit_if b d' ∧ Forall2 (served b a dead cs cs') subs subs'
    ∧ (∀ i, i ∉ sub_sender <$> subs → cs' !! i = cs !! i) ∧ length cs' = length cs
    ∧ (∀ x, x ∈ dead → ∃ s c, s ∈ subs ∧ sub_id s = x ∧ cs !! sub_sender s = Some c
         ∧ ¬ is_open c).
Proof.
  intros Hh Hb Hbound Hfuel. revert d cs n Hh Hb.
  induction subs as [|s subs IH]; intros d cs n Hh Hb Hnd Hcs; cbn [drain_all].
  { eexists [], [], d, cs, n. split_and!; try done. by intros ? ?%elem_of_nil. }
  rewrite fmap_cons in Hnd. apply NoDup_cons in Hnd as [Hout Hnd].
  destruct (Hcs s ltac:(constructor)) as [c Hc].
  set (p := {| p_storage := d; p_channels := cs; p_cursor := sub_delivered_through s;
               p_delivered := n |}).
  destruct (drain_run b a (sub_machine_filter s) (sub_sender s) fuel p c)
    as (alive & p1 & rs1 & rs2 & -> & Hh1 & Hb1 & Hal & Hsplit & Hho & Hcur & Hall); try done.
  { eapply Nat.le_lt_trans; [|exact Hfuel]. unfold log_after. apply length_filter. }
  destruct Hho as (c1 & l & Hcs1 & Hs1 & HF & Hn1 & Ho1). cbn [p_channels p] in Hcs1.
  assert (∀ i, i ≠ sub_sender s → p_channels p1 !! i = cs !! i) as Hoth.
  { intros i Hi. rewrite Hcs1. by apply list_lookup_insert_ne. }
  assert (∀ s0, s0 ∈ subs → sub_sender s0 ≠ sub_sender s) as Hsne.
  { intros s0 Hs0 Heq. apply Hout. rewrite <- Heq. by apply list_elem_of_fmap_2. }
  destruct (IH (p_storage p1) (p_channels p1) (p_delivered p1))
    as (subs' & dead & d' & cs' & n' & -> & Hh2 & Hb2 & HF2 & Hoth2 & Hlen & Hdead); try done.
  { intros s0 Hs0. rewrite Hoth by auto. apply Hcs. by constructor. }
  set (dead' := if alive then dead else sub_id s :: dead).
  assert (∀ x, x ∈ dead → x ∈ dead') as Hsub by (unfold dead'; destruct alive; set_solver).
  exists (set_delivered_through s (p_cursor p1) :: subs'), dead', d', cs', n'.
  split_and!; [done|done|done| | | |].
  - constructor.
    + split; try done. exists c, c1, rs1, rs2, l. split_and!; try done.
      * rewrite (Hoth2 _ Hout), Hcs1. apply list_lookup_insert_eq. by eapply lookup_lt_Some.
      * unfold dead'. destruct alive; [right; auto|left]. split; [constructor|].
        intros Ho. by apply Hal in Ho.
    + eapply Forall2_impl; [eapply Forall2_and_elem; exact HF2|].
      intros s0 s0' (Hs0 & _ & Hsv). eapply served_weaken; [done|done| |done].
      symmetry. apply Hoth. auto.
  - intros i Hi. rewrite fmap_cons, not_elem_of_cons in Hi. destruct Hi as [Hi Hi'].
    rewrite (Hoth2 _ Hi'). by apply Hoth.
  - rewrite Hlen, Hcs1. apply length_insert.
  - intros x Hx.
    assert (x ∈ dead ∨ alive = false ∧ x = sub_id s) as [Hxd|[-> ->]].
    { unfold dead' in Hx. destruct alive; [by left|]. apply elem_of_cons in Hx as [?|?]; auto. }
    + destruct (Hdead x Hxd) as (s0 & c0 & Hs0 & <- & Hc0 & Hno). exists s0, c0.
      split_and!; [by constructor|done| |done]. rewrite <- Hoth by auto. done.
    + exists s, c. split_and!; [constructor|done|done|]. intros Ho. by apply Hal in Ho.
Qed.

End delivery.
