(* ===== verification/System.v ===== *)
(** * The engine as a transition system

    [sys_step] are the steps of a running engine: every public method of
    [Engine], a round of the [Dispatcher], and the receivers' side of the
    channels. [reachable] are the states after a number of steps from an empty
    store. [sys_inv] is the invariant: the store holds a [consistent] abstract
    store, and every channel holds exactly the wanted part of a contiguous slice
    of the log ([streams]). *)
From S2P Require Import Prelude Core Keys Storage StorageSpec StorageTrait Channel Engine.
From S2P Require Import EngineSpec EngineRun Dispatch.

(** ** How the store evolves *)

(** The log only grows, the effects of a logged transition keep their names and
    payloads, and a known machine stays known. *)
Record extends (a a' : Abs) : Prop := {
  ex_log : ∃ k, a_log a' = a_log a ++ k;
  ex_eff r l : r ∈ a_log a → effects_of a (rec_id r) l →
    ∃ l', effects_of a' (rec_id r) l' ∧ change_record r l' = change_record r l;
  ex_mach n : is_Some (a_machines a !! n) → is_Some (a_machines a' !! n);
}.

Lemma extends_refl a : extends a a.
Proof. split; [exists []; by rewrite app_nil_r|eauto|done]. Qed.

Lemma extends_trans a1 a2 a3 : extends a1 a2 → extends a2 a3 → extends a1 a3.
Proof.
  intros [[k1 H1] E1 M1] [[k2 H2] E2 M2]. split; [| |auto].
  - exists (k1 ++ k2). by rewrite H2, H1, app_assoc.
  - intros r l Hr (l1 & Hl1 & Hc1)%E1; [|done].
    destruct (E2 r l1) as (l2 & ? & Hc2); [rewrite H1; by apply elem_of_app; left|done|].
    exists l2. split; [done|congruence].
Qed.

(** Machine definitions do not matter to the log and the outbox. *)
Lemma extends_machs a n d : extends a (set_machs a (<[n := d]> (a_machines a))).
Proof.
  split; [exists []; by rewrite app_nil_r|intros r l _ Hl; by exists l|].
  intros n'. cbn. rewrite lookup_insert. by case_decide.
Qed.

Lemma outbox_add_fresh o es i e :
  fresh_effects o es →
  outbox_add o es !! i = Some e ↔ o !! i = Some e ∨ e ∈ es ∧ eff_id e = i.
Proof.
  revert o. induction es as [|e0 es IH]; intros o Hf; cbn; [set_solver|].
  apply fresh_effects_cons in Hf as (Hnew & _ & Hf). rewrite IH by done.
  rewrite lookup_insert, elem_of_cons. case_decide as Hi; [|naive_solver].
  subst i. split; [naive_solver|].
  intros [?|[[-> |He] Hid]]; [congruence|by left|].
  pose proof (fe_new _ _ Hf e He) as Hn. rewrite Hid, lookup_insert_eq in Hn. done.
Qed.

Lemma extends_commit a q def rule now id ts effects :
  (∀ r, r ∈ a_log a → rec_id r ≠ id) → fresh_effects (a_outbox a) effects →
  Forall2 (effect_for id) (FsmPlanner.compute_effects def (q_event q)) effects →
  extends a
    (commit_abs a (commit_record a q def rule id ts) (commit_state a q rule now) effects).
Proof.
  intros Hid Hf HF. split; [by eexists| |done]. intros r l Hr [HS Hl]. exists l. split; [|done].
  split; [done|]. intros e. cbn. rewrite outbox_add_fresh, Hl by done. split; [naive_solver|].
  intros [[?|[He _]] Ht]; [done|]. apply (effect_for_tid _ _ _ e HF) in He.
  destruct (Hid r Hr). congruence.
Qed.

(** Marking effects changes nothing but their status. *)
Record status_only (a a' : Abs) : Prop := {
  so_machines : a_machines a' = a_machines a;
  so_states : a_states a' = a_states a;
  so_log : a_log a' = a_log a;
  so_outbox i : option_Forall2 (λ e e', e' = set_eff_status e (eff_status e'))
    (a_outbox a !! i) (a_outbox a' !! i);
}.

Lemma set_status_id e : e = set_eff_status e (eff_status e).
Proof. by destruct e. Qed.

Lemma status_only_refl a : status_only a a.
Proof.
  split; try done. intros i. destruct (a_outbox a !! i) as [e|]; constructor.
  apply set_status_id.
Qed.

Lemma status_only_trans a1 a2 a3 : status_only a1 a2 → status_only a2 a3 → status_only a1 a3.
Proof.
  intros [M1 S1 L1 O1] [M2 S2 L2 O2]. split; try congruence. intros i.
  specialize (O1 i). specialize (O2 i). destruct (a_outbox a2 !! i) as [e2|].
  - inversion_clear O1 as [? ? H1|]. inversion_clear O2 as [? ? H2|]. constructor. rewrite H2, H1. done.
  - inv O1. inv O2. constructor.
Qed.

Lemma status_only_set a i st a' r :
  spec_set_status i st a = (r, a') → status_only a a'.
Proof.
  unfold spec_set_status. destruct (a_outbox a !! i) as [e|] eqn:He; intros [= <- <-];
    [|apply status_only_refl].
  split; try done. intros j. cbn. rewrite lookup_insert. case_decide as Hj.
  - subst. rewrite He. by constructor.
  - apply (so_outbox _ _ (status_only_refl a)).
Qed.

Lemma status_only_lookup a a' i e' :
  status_only a a' → a_outbox a' !! i = Some e' →
  ∃ e, a_outbox a !! i = Some e ∧ e' = set_eff_status e (eff_status e').
Proof. intros HS H. pose proof (so_outbox _ _ HS i) as Ho. rewrite H in Ho. inv Ho. eauto. Qed.

Lemma status_only_extends a a' : status_only a a' → extends a a'.
Proof.
  intros HS. split; [exists []; by rewrite app_nil_r, (so_log _ _ HS)| |by rewrite (so_machines _ _ HS)].
  intros r l _ [Hsort Hl]. set (upd := λ e, default e (a_outbox a' !! eff_id e)).
  assert (∀ e, e ∈ l → ∃ st, upd e = set_eff_status e st
            ∧ a_outbox a' !! eff_id e = Some (upd e)) as Hupd.
  { intros e [He _]%Hl. pose proof (so_outbox _ _ HS (eff_id e)) as Ho. rewrite He in Ho.
    unfold upd. inv Ho. cbn. eauto. }
  exists (upd <$> l). split.
  - split.
    + eapply StronglySorted_fmap; [|done]. intros x y Hx Hy. unfold eff_lt.
      destruct (Hupd x Hx) as (? & -> & _), (Hupd y Hy) as (? & -> & _). done.
    + intros e'. rewrite list_elem_of_fmap. split.
      * intros (e & -> & He). destruct (Hupd e He) as (st & Hst & Hlk). apply Hl in He as [_ <-].
        rewrite Hst in Hlk |- *. done.
      * intros [Hlk Ht]. destruct (status_only_lookup _ _ _ _ HS Hlk) as (e & He & He').
        assert (eff_id e' = eff_id e) as Hid by by rewrite He'.
        exists e. split; [|apply Hl; rewrite <- Hid; split; [done|by rewrite <- Ht, He']].
        unfold upd. by rewrite <- Hid, Hlk.
  - unfold change_record. f_equal. rewrite <- list_fmap_compose. apply list_fmap_ext.
    intros j e He%list_elem_of_lookup_2. destruct (Hupd e He) as (st & Hst & _).
    unfold compose. by rewrite Hst.
Qed.

Lemma status_only_consistent defs a a' : status_only a a' → consistent defs a → consistent defs a'.
Proof.
  intros HS HC. destruct HS as [HM HSt HL HO]. split; rewrite ?HL, ?HM, ?HSt; try apply HC.
  intros i ef Hef. specialize (HO i). rewrite Hef in HO. inversion HO as [e e' He H1 H2|].
  subst. destruct (c_outbox _ _ HC i e) as (r & ? & Hr); [done|]. exists r.
  split; [done|]. rewrite Hr, He. done.
Qed.

Lemma status_only_drawn {EN : Env} a a' n : status_only a a' → drawn a n → drawn a' n.
Proof.
  intros [HM HS HL HO] [Hl Ho]. split; [by rewrite HL|].
  intros i [e' He']. apply Ho. specialize (HO i). rewrite He' in HO. inv HO. eauto.
Qed.

Lemma machs_consistent (defs : MachineDefinition → Prop) a def :
  consistent defs a → defs def → well_formed def →
  consistent defs (set_machs a (<[md_name def := canon_machine def]> (a_machines a))).
Proof.
  intros HC Hd Hwf. split; try apply HC. cbn. intros n d. rewrite lookup_insert.
  case_decide; [intros [= <-]; subst; eauto|apply HC].
Qed.

(** Only definitions and statuses changed. *)
Record quiet (a a' : Abs) : Prop := {
  qt_states : a_states a' = a_states a;
  qt_log : a_log a' = a_log a;
  qt_outbox i : a_outbox a !! i = None → a_outbox a' !! i = None;
}.

Lemma quiet_refl a : quiet a a.
Proof. done. Qed.

Lemma status_only_quiet a a' : status_only a a' → quiet a a'.
Proof.
  intros [_ HS HL HO]. split; [done|done|]. intros i Hi. specialize (HO i). rewrite Hi in HO. by inv HO.
Qed.

(** ** Streams *)

Section streams.
Context {SE : StorageEngine} {SO : StorageOk SE} {MP : Mpsc ChangeRecord} {MO : MpscOk ChangeRecord}.
Context {EN : Env} {EO : EnvOk EN}.
Implicit Types (a : Abs) (d : store) (b : bool) (e : Engine) (cs : list (chan ChangeRecord)).

(** For each channel ever created: the filter and the start cursor it was
    subscribed with. *)
Definition Registry : Type := list (option string * Sequence).

(** Channel [c] holds the wanted part of the log positions [start + 1 .. cursor]. *)
Definition stream_at (b : bool) (a : Abs) (f : option string) (start cursor : Sequence)
    (c : chan ChangeRecord) : Prop :=
  (start <= cursor)%N ∧ (cursor = start ∨ N.to_nat cursor <= length (a_log a))
  ∧ Forall2 (delivered_as b a) (wanted f (slice start cursor (a_log a))) (sent c).

Record streams (b : bool) (a : Abs) (reg : Registry) (subs : list Subscriber)
    (cs : list (chan ChangeRecord)) : Prop := {
  st_len : length cs = length reg;
  st_nodup : NoDup (sub_sender <$> subs);
  st_chan i c f start : cs !! i = Some c → reg !! i = Some (f, start) →
    (start < u64_max)%N → ∃ cursor, stream_at b a f start cursor c;
  st_sub s : s ∈ subs → ∃ c start, cs !! sub_sender s = Some c
    ∧ reg !! sub_sender s = Some (sub_machine_filter s, start)
    ∧ ((start < u64_max)%N →
        stream_at b a (sub_machine_filter s) start (sub_delivered_through s) c);
}.

Lemma delivered_as_extends b a a' r c :
  extends a a' → r ∈ a_log a → delivered_as b a r c → delivered_as b a' r c.
Proof.
  intros [_ HE _] Hr [(l & Hl & ->)|?]; [|by right]. left.
  destruct (HE r l Hr Hl) as (l' & ? & Hc). by exists l'.
Qed.

Lemma slice_elem s c log r : r ∈ slice s c log → r ∈ log.
Proof.
  unfold slice. intros [i Hi]%list_elem_of_lookup. rewrite lookup_take in Hi.
  case_decide; [|done]. rewrite lookup_drop in Hi. by eapply list_elem_of_lookup_2.
Qed.

Lemma wanted_elem f rs r : r ∈ wanted f rs → r ∈ rs.
Proof. unfold wanted. rewrite !list_elem_of_In, filter_In. by intros [? _]. Qed.

Lemma delivered_extends b a a' f start cursor (cs : list ChangeRecord) :
  extends a a' → cursor = start ∨ N.to_nat cursor <= length (a_log a) →
  Forall2 (delivered_as b a) (wanted f (slice start cursor (a_log a))) cs →
  Forall2 (delivered_as b a') (wanted f (slice start cursor (a_log a'))) cs.
Proof.
  intros HX Hc HF. pose proof HX as [[k Hk] _ _]. rewrite Hk, slice_snoc by done.
  eapply Forall2_impl; [by eapply Forall2_and_elem|].
  intros r x (Hr%wanted_elem%slice_elem & _ & Hx). by eapply delivered_as_extends.
Qed.

Lemma stream_at_extends b a a' f start cursor c :
  extends a a' → stream_at b a f start cursor c → stream_at b a' f start cursor c.
Proof.
  intros HX (Hle & Hc & HF). pose proof HX as [[k Hk] _ _].
  split_and!; [done| |by eapply delivered_extends].
  destruct Hc; [by left|right]. rewrite Hk, length_app. lia.
Qed.

Lemma streams_extends b a a' reg subs cs :
  extends a a' → streams b a reg subs cs → streams b a' reg subs cs.
Proof.
  intros HX [Hlen Hnd Hch Hsub]. split; [done|done| |].
  - intros i c f start Hc Hr Hs. destruct (Hch i c f start Hc Hr Hs) as [cur ?].
    exists cur. by eapply stream_at_extends.
  - intros s Hs. destruct (Hsub s Hs) as (c & start & ? & ? & ?). exists c, start.
    split_and!; [done|done|]. intros. eapply stream_at_extends; eauto.
Qed.

Lemma streams_subscribe b a reg subs cs id f after :
  streams b a reg subs cs →
  streams b a (reg ++ [(f, after)])
    (subs ++ [{| sub_id := id; sub_machine_filter := f; sub_sender := length cs;
                 sub_delivered_through := after |}]) (cs ++ [unbounded_channel]).
Proof.
  intros [Hlen Hnd Hch Hsub].
  assert (∀ s, s ∈ subs → sub_sender s < length cs) as Hlt.
  { intros s Hs. destruct (Hsub s Hs) as (c & start & Hc & _). by eapply lookup_lt_Some. }
  assert (stream_at b a f after after unbounded_channel) as Hnew.
  { split_and!; [lia|by left|]. by rewrite slice_nil, sent_new. }
  split.
  - rewrite !length_app. cbn. lia.
  - rewrite fmap_app. apply NoDup_app. split_and!; [done| |apply NoDup_singleton].
    intros x (s & -> & Hs)%list_elem_of_fmap Heq%list_elem_of_singleton.
    specialize (Hlt s Hs). cbn in Heq. lia.
  - intros i c f0 start [Hc|[-> ->]]%lookup_snoc [Hr|[Hi Hr]]%lookup_snoc Hs.
    + eauto.
    + apply lookup_lt_Some in Hc. lia.
    + apply lookup_lt_Some in Hr. lia.
    + simplify_eq. eauto.
  - intros s [Hs| ->%list_elem_of_singleton]%elem_of_app.
    + destruct (Hsub s Hs) as (c & start & Hc & Hr & ?). exists c, start.
      split_and!; [by apply lookup_app_l_Some|by apply lookup_app_l_Some|done].
    + exists unbounded_channel, after. cbn. split_and!; [|rewrite Hlen|done];
        by apply list_lookup_middle.
Qed.

Lemma streams_filter b a reg subs cs (P : Subscriber → Prop) `{∀ s, Decision (P s)} :
  streams b a reg subs cs → streams b a reg (filter P subs) cs.
Proof.
  intros [Hlen Hnd Hch Hsub]. split; [done| |done|].
  - eapply sublist_NoDup; [done|apply fmap_sublist, sublist_filter].
  - intros s [_ Hs]%list_elem_of_filter. auto.
Qed.

Lemma streams_receivers b a reg subs cs cs' :
  Forall2 (λ c c', sent c' = sent c) cs cs' →
  streams b a reg subs cs → streams b a reg subs cs'.
Proof.
  intros HF [Hlen Hnd Hch Hsub]. split; [|done| |].
  - rewrite <- Hlen. symmetry. by eapply Forall2_length.
  - intros i c' f start Hc' Hr Hs.
    destruct (Forall2_lookup_r _ _ _ _ _ HF Hc') as (c & Hc & Heq).
    destruct (Hch i c f start Hc Hr Hs) as (cur & H1 & H2 & H3). exists cur. split_and!; try done.
    by rewrite Heq.
  - intros s Hs. destruct (Hsub s Hs) as (c & start & Hc & Hr & Hst).
    destruct (Forall2_lookup_l _ _ _ _ _ HF Hc) as (c' & Hc' & Heq). exists c', start.
    split_and!; [done|done|]. intros Hlt. destruct (Hst Hlt) as (? & ? & ?).
    split_and!; try done. by rewrite Heq.
Qed.

(** ** A dispatch pass keeps the streams *)

(** The next prefix of the records after the cursor extends the stream. *)
Lemma stream_at_deliver b a f start cursor c c' rs1 rs2 l :
  abs_wf a → (N.of_nat (length (a_log a)) < u64_max)%N → (start < u64_max)%N →
  stream_at b a f start cursor c →
  log_after cursor (a_log a) = rs1 ++ rs2 → sent c' = sent c ++ l →
  Forall2 (delivered_as b a) (wanted f rs1) l →
  stream_at b a f start (default cursor (rec_sequence <$> last rs1)) c'.
Proof.
  intros Hwf Hb Hs (Hle & Hc & HF) Hsplit Hsent HF1.
  assert (cursor < u64_max)%N as Hcur by (destruct Hc; lia).
  rewrite (log_after_small _ (aw_seq _ Hwf)) in Hsplit by done.
  assert (rs1 = take (length rs1) (drop (N.to_nat cursor) (a_log a))) as Hrs1.
  { by rewrite Hsplit, take_app_length. }
  assert (default cursor (rec_sequence <$> last rs1) = (cursor + N.of_nat (length rs1))%N
          ∧ (rs1 = [] ∨ N.to_nat cursor + length rs1 <= length (a_log a))) as [-> Hlen].
  { destruct (last rs1) as [r|] eqn:Hl; cbn.
    - rewrite last_lookup in Hl. pose proof (lookup_lt_Some _ _ _ Hl).
      assert (a_log a !! (N.to_nat cursor + pred (length rs1)) = Some r) as Hlk.
      { rewrite <- lookup_drop, Hsplit. by apply lookup_app_l_Some. }
      pose proof (lookup_lt_Some _ _ _ Hlk). apply log_at_lookup, (aw_seq _ Hwf) in Hlk as ->.
      split; [lia|right; lia].
    - apply last_None in Hl as ->. split; [cbn; lia|by left]. }
  split_and!; [lia| |].
  - destruct Hlen as [-> |?]; [|right; lia]. cbn. by rewrite N.add_0_r.
  - rewrite <- (slice_app _ _ _ _ Hle), <- Hrs1, wanted_app, Hsent. by apply Forall2_app.
Qed.

Lemma served_streams b a reg subs subs' dead cs cs' :
  abs_wf a → (N.of_nat (length (a_log a)) < u64_max)%N →
  streams b a reg subs cs → Forall2 (served b a dead cs cs') subs subs' →
  (∀ i, i ∉ sub_sender <$> subs → cs' !! i = cs !! i) → length cs' = length cs →
  streams b a reg (filter (λ s, sub_id s ∉ dead) subs') cs'.
Proof.
  intros Hwf Hb [Hlen Hnd Hch Hsub] HF Hoth Hlen'.
  assert (sub_sender <$> subs' = sub_sender <$> subs) as Hsenders.
  { clear -HF. induction HF as [|s s' ? ? Hs ? IH]; [done|]. cbn.
    by rewrite IH, (sv_sender _ _ _ _ _ _ _ Hs). }
  split.
  - by rewrite Hlen'.
  - eapply sublist_NoDup; [|apply fmap_sublist, sublist_filter]. by rewrite Hsenders.
  - intros i c' f start Hc' Hr Hst.
    destruct (decide (i ∈ sub_sender <$> subs)) as [Hi|Hi].
    2: { rewrite (Hoth i Hi) in Hc'. eauto. }
    apply list_elem_of_fmap in Hi as (s & -> & Hs).
    destruct (Hsub s Hs) as (c & start' & Hc & Hr' & Hat).
    apply list_elem_of_lookup in Hs as [j Hj].
    destruct (Forall2_lookup_l _ _ _ _ _ HF Hj) as (s' & _ & Hsv).
    destruct (sv_chan _ _ _ _ _ _ _ Hsv) as (c0 & c1 & rs1 & rs2 & l & Hc0 & Hc1 & H1 & H2 & H3 & _).
    simplify_eq. eexists. eapply stream_at_deliver; eauto.
  - intros s' [Hnd' Hs']%list_elem_of_filter.
    apply list_elem_of_lookup in Hs' as [j Hj].
    destruct (Forall2_lookup_r _ _ _ _ _ HF Hj) as (s & Hs%list_elem_of_lookup_2 & [Hid Hfil Hsnd Hsv]).
    destruct (Hsub s Hs) as (c & start & Hc & Hr & Hat).
    destruct Hsv as (c0 & c1 & rs1 & rs2 & l & Hc0 & Hc1 & H1 & H2 & H3 & _ & H4).
    simplify_eq. exists c1, start. rewrite Hsnd, Hfil. split_and!; [done|done|]. intros Hst.
    destruct H4 as [[? _]|[-> _]]; [by rewrite Hid in Hnd'|].
    eapply stream_at_deliver; eauto.
Qed.

(** ** Marking effects *)

Lemma publish_effects_run b a es d :
  holds d a → fit_if b d →
  ∃ a', holds (publish_effects es d) a' ∧ fit_if b (publish_effects es d) ∧ status_only a a'.
Proof.
  revert a d. induction es as [|ef es IH]; intros a d Hh Hb; cbn [publish_effects].
  { exists a. split_and!; [done|done|apply status_only_refl]. }
  destruct (s_mark_effect_published (eff_id ef) d) as [r d1] eqn:H1.
  destruct (impl_mode _ _ _ b d a r d1 (mark_published_ok _) Hh I Hb H1) as (Hb1 & Hc1).
  assert (∃ a1, holds d1 a1 ∧ status_only a a1) as (a1 & Hh1 & HS1).
  { destruct Hc1 as [(a1 & Hs & ?)|(_ & _ & ?)]; [|eauto using status_only_refl].
    exists a1. split; [done|]. by eapply status_only_set. }
  destruct r as [u|err].
  { destruct (IH a1 d1 Hh1 Hb1) as (a' & ? & ? & ?). exists a'.
    split_and!; [done|done|by eapply status_only_trans]. }
  destruct (s_mark_effect_failed (eff_id ef) d1) as [r2 d2] eqn:H2. cbn [snd].
  destruct (impl_mode _ _ _ b d1 a1 r2 d2 (mark_failed_ok _) Hh1 I Hb1 H2) as (Hb2 & Hc2).
  assert (∃ a2, holds d2 a2 ∧ status_only a1 a2) as (a2 & Hh2 & HS2).
  { destruct Hc2 as [(a2 & Hs & ?)|(_ & _ & ?)]; [|eauto using status_only_refl].
    exists a2. split; [done|]. by eapply status_only_set. }
  destruct (IH a2 d2 Hh2 Hb2) as (a' & ? & ? & ?). exists a'.
  split_and!; [done|done|]. eapply status_only_trans; [done|]. by eapply status_only_trans.
Qed.

(** On a fit store the named effects are published and the others untouched. *)
Lemma publish_effects_fit a es d :
  holds d a → fit d →
  ∃ a', holds (publish_effects es d) a' ∧ fit (publish_effects es d) ∧ status_only a a'
    ∧ ∀ i, a_outbox a' !! i
           = if decide (i ∈ eff_id <$> es)
             then (λ ef, set_eff_status ef Published) <$> a_outbox a !! i
             else a_outbox a !! i.
Proof.
  revert a d. induction es as [|ef es IH]; intros a d Hh Hb; cbn [publish_effects].
  { exists a. split_and!; [done|done|apply status_only_refl|].
    intros i. rewrite decide_False; [done|]. apply not_elem_of_nil. }
  destruct (s_mark_effect_published (eff_id ef) d) as [r d1] eqn:H1.
  destruct (impl_fit _ _ _ _ _ (mark_published_ok (eff_id ef)) d a r d1 Hb Hh I H1)
    as (Hb1 & a1 & Hs1 & Hh1).
  pose proof (status_only_set _ _ _ _ _ Hs1) as HS1.
  assert (∀ i, a_outbox a1 !! i = if decide (i = eff_id ef)
            then (λ x, set_eff_status x Published) <$> a_outbox a !! i
            else a_outbox a !! i) as Ho1.
  { intros i. unfold writes, spec_set_status in Hs1.
    destruct (a_outbox a !! eff_id ef) as [x|] eqn:Hx; injection Hs1 as <- <-; cbn.
    - rewrite lookup_insert. repeat case_decide; subst; by rewrite ?Hx.
    - case_decide; [subst; by rewrite Hx|done]. }
  set (d2 := match r with Ok _ => d1 | Err _ => (s_mark_effect_failed (eff_id ef) d1).2 end).
  assert (holds d2 a1 ∧ fit d2) as [Hh2 Hb2].
  { unfold d2. destruct r as [u|err]; [done|].
    destruct (s_mark_effect_failed (eff_id ef) d1) as [r2 d2'] eqn:H2. cbn.
    destruct (impl_fit _ _ _ _ _ (mark_failed_ok (eff_id ef)) d1 a1 r2 d2' Hb1 Hh1 I H2)
      as (? & a2 & Hs2 & ?). unfold writes, spec_set_status in Hs1, Hs2.
    destruct (a_outbox a !! eff_id ef) as [x|] eqn:Hx; [done|]. injection Hs1 as _ <-.
    rewrite Hx in Hs2. injection Hs2 as _ <-. done. }
  destruct (IH a1 d2 Hh2 Hb2) as (a' & Hh' & Hb' & HS' & Ho').
  exists a'. unfold d2 in Hh', Hb'. destruct r; (split_and!; [done|done|by eapply status_only_trans|]).
  all: intros i; rewrite Ho', Ho1; repeat case_decide; try done;
    first [by destruct (a_outbox a !! i) | exfalso; set_solver].
Qed.

(** ** More fuel does not change a finished pass *)

Lemma drain_mono fuel fuel' f tx (p : Pass) x :
  drain fuel f tx p = Some x → fuel <= fuel' → drain fuel' f tx p = Some x.
Proof.
  revert fuel' p. induction fuel as [|fuel IH]; intros [|fuel'] p Hx Hle; try done; [lia|].
  cbn [drain] in *. repeat case_match; try done. apply IH; [done|lia].
Qed.

Lemma drain_all_mono fuel fuel' subs d cs n x :
  drain_all fuel subs d cs n = Some x → fuel <= fuel' → drain_all fuel' subs d cs n = Some x.
Proof.
  intros Hx Hle. revert d cs n x Hx.
  induction subs as [|s subs IH]; intros d cs n x Hx; cbn [drain_all] in *; [done|].
  destruct (drain fuel _ _ _) as [[alive p]|] eqn:Hd; [|done].
  rewrite (drain_mono _ _ _ _ _ _ Hd Hle).
  destruct (drain_all fuel subs _ _ _) as [y|] eqn:Hda; [|done].
  by rewrite (IH _ _ _ _ Hda).
Qed.

Lemma dispatch_pass_mono fuel fuel' e x :
  dispatch_pass fuel e = Some x → fuel <= fuel' → dispatch_pass fuel' e = Some x.
Proof.
  unfold dispatch_pass. intros Hx Hle.
  destruct (drain_all fuel _ _ _ _) as [y|] eqn:Hda; [|done].
  by rewrite (drain_all_mono _ _ _ _ _ _ _ Hda Hle).
Qed.

Lemma dispatch_mono fuel fuel' e x :
  dispatch fuel e = Some x → fuel <= fuel' → dispatch fuel' e = Some x.
Proof.
  unfold dispatch. intros Hx Hle. destruct (dispatch_pass fuel e) as [y|] eqn:Hd; [|done].
  by rewrite (dispatch_pass_mono _ _ _ _ Hd Hle).
Qed.

End streams.

(** ** Steps and reachable states *)

Section system.
Context {SE : StorageEngine} {SO : StorageOk SE} {MP : Mpsc ChangeRecord} {MO : MpscOk ChangeRecord}.
Context {EN : Env} {EO : EnvOk EN}.
Implicit Types (a : Abs) (d : store) (b : bool) (e : Engine) (reg : Registry).

(** A store that was closed, or whose process died, and was opened again: it
    holds what it held. *)
Record reopened (d d' : store) : Prop := {
  ro_holds a : holds d a → holds d' a;
  ro_fit : fit d → fit d';
}.

(** The clock is read and identifiers are drawn outside the engine. *)
Definition tick (clock uuids : nat) (e : Engine) : Engine :=
  {| e_storage := e_storage e; e_guards := e_guards e; e_subscribers := e_subscribers e;
     e_channels := e_channels e; e_commit_notify := e_commit_notify e;
     e_shutdown := e_shutdown e; e_clock := clock; e_uuids := uuids |}.

(** [defs] are the definitions that clients submit. Identifiers of entities and
    machines have no NUL byte. *)
Inductive sys_step (defs : MachineDefinition → Prop)
    : Registry → Engine → Registry → Engine → Prop :=
| sys_define reg e def r e' :
    defs def → define_machine def e = (r, e') → sys_step defs reg e reg e'
| sys_transition reg e q r e' :
    nul_free (q_entity q) = true → nul_free (q_machine q) = true →
    do_transition q e = (r, e') → sys_step defs reg e reg e'
| sys_get_machine reg e n r e' :
    get_machine n e = (r, e') → sys_step defs reg e reg e'
| sys_list_machines reg e r e' :
    list_machines e = (r, e') → sys_step defs reg e reg e'
| sys_current reg e en m r e' :
    nul_free en = true → nul_free m = true →
    current en m e = (r, e') → sys_step defs reg e reg e'
| sys_history reg e en m limit after r e' :
    nul_free en = true → nul_free m = true →
    history en m limit after e = (r, e') → sys_step defs reg e reg e'
| sys_register_guard reg e n g :
    sys_step defs reg e reg (register_guard n g e)
| sys_subscribe reg e id f after :
    sys_step defs reg e (reg ++ [(f, after)]) (subscribe id f after e).2
| sys_unsubscribe reg e id :
    sys_step defs reg e reg (unsubscribe id e)
| sys_dispatch reg e fuel n e' :
    dispatch fuel e = Some (n, e') → sys_step defs reg e reg e'
| sys_shutdown reg e :
    sys_step defs reg e reg (shutdown e)
| sys_receivers reg e cs :
    Forall2 (λ c c', sent c' = sent c) (e_channels e) cs →
    sys_step defs reg e reg (set_subscribers e (e_subscribers e) cs)
| sys_tick reg e clock uuids :
    e_uuids e <= uuids → sys_step defs reg e reg (tick clock uuids e).

(** The states after [n] steps from an empty store, which is fit if [b]. A restart
    loses everything but the store: guards, subscribers, channels and flags are
    those of a new engine. *)
Inductive reachable (b : bool) (defs : MachineDefinition → Prop)
    : nat → Registry → Engine → Prop :=
| reach_init d clock uuids :
    holds d empty_abs → fit_if b d → reachable b defs 0 [] (new d clock uuids)
| reach_step n reg e reg' e' :
    reachable b defs n reg e → sys_step defs reg e reg' e' → reachable b defs (S n) reg' e'
| reach_restart n reg e d clock uuids :
    reachable b defs n reg e → reopened (e_storage e) d → e_uuids e <= uuids →
    reachable b defs (S n) [] (new d clock uuids).

Record inv_at (b : bool) (defs : MachineDefinition → Prop) (n : nat) (reg : Registry)
    (e : Engine) (a : Abs) : Prop := {
  i_holds : holds (e_storage e) a;
  i_fit : fit_if b (e_storage e);
  i_consistent : consistent defs a;
  i_drawn : drawn a (e_uuids e);
  i_count : length (a_log a) <= n;
  i_streams : streams b a reg (e_subscribers e) (e_channels e);
}.

(** The invariant, for a store that extends [a0]. *)
Definition inv_from b defs n reg e (a0 : Abs) : Prop :=
  ∃ a, inv_at b defs n reg e a ∧ extends a0 a.

(** A storage read, and one whose error is passed on, keep the invariant. *)
Lemma inv_read {A} b defs n reg e a (op : St store StorageError A) f r e' :
  inv_at b defs n reg e a → Implements holds fit always op (reads f) →
  storage op e = (r, e') → inv_at b defs n reg e' a.
Proof.
  intros HI Hop. unfold storage. destruct (op (e_storage e)) as [r0 d0] eqn:Hr. intros [= <- <-].
  destruct (read_mode _ _ b _ a r0 d0 Hop (i_holds _ _ _ _ _ _ HI) (i_fit _ _ _ _ _ _ HI) Hr)
    as (? & ? & _). split; try done; apply HI.
Qed.

Lemma inv_returns {A} b defs n reg e a (op : St store StorageError A) P r e' :
  inv_at b defs n reg e a → Implements holds fit always op (returns P) →
  storage op e = (r, e') → inv_at b defs n reg e' a.
Proof.
  intros HI Hop. unfold storage. destruct (op (e_storage e)) as [r0 d0] eqn:Hr. intros [= <- <-].
  destruct (returns_mode _ _ b _ a r0 d0 Hop (i_holds _ _ _ _ _ _ HI) (i_fit _ _ _ _ _ _ HI) Hr)
    as (? & ? & _). split; try done; apply HI.
Qed.

(** The part of the invariant that is about the store. *)
Record stored (b : bool) (defs : MachineDefinition → Prop) (n : nat) (e : Engine) (a : Abs) : Prop := {
  sd_holds : holds (e_storage e) a;
  sd_fit : fit_if b (e_storage e);
  sd_consistent : consistent defs a;
  sd_drawn : drawn a (e_uuids e);
  sd_count : length (a_log a) <= n;
}.

Lemma inv_stored b defs n reg e a :
  inv_at b defs n reg e a ↔ stored b defs n e a ∧ streams b a reg (e_subscribers e) (e_channels e).
Proof. split; [intros []; by split|intros [[] ?]; by split]. Qed.

Lemma stored_mono b defs n n' e a : stored b defs n e a → n <= n' → stored b defs n' e a.
Proof. intros [] Hn. split; try done. lia. Qed.

(** [define_machine] changes definitions only. *)
Lemma stored_define b defs n e a def r e' :
  stored b defs n e a → defs def → define_machine def e = (r, e') →
  ∃ a' d, stored b defs n e' a' ∧ extends a a' ∧ quiet a a' ∧ e' = set_storage e d.
Proof.
  intros HI Hdef. unfold define_machine, core, st_res, st_bind, storage.
  destruct (Machine.validate def) as [[]|err] eqn:Hv; cbn.
  2: { intros [= <- <-]. exists a, (e_storage e). rewrite set_storage_id.
    split_and!; [done|apply extends_refl|done|done]. }
  apply validate_well_formed in Hv.
  destruct (s_store_machine def (e_storage e)) as [r0 d0] eqn:Hr. intros [= <- <-].
  destruct (impl_mode _ _ _ b _ a r0 d0 (store_machine_ok def) (sd_holds _ _ _ _ _ HI) I
    (sd_fit _ _ _ _ _ HI) Hr) as (Hb & [(a' & [= <- <-] & Hh)|(_ & _ & Hh)]).
  - eexists _, d0. split_and!; [|apply extends_machs|by split|done]. split; [exact Hh|done| | |].
    + apply machs_consistent; [apply HI|done|done].
    + destruct (sd_drawn _ _ _ _ _ HI). by split.
    + apply HI.
  - exists a, d0. split_and!; [|apply extends_refl|done|done]. split; try done; apply HI.
Qed.

Lemma inv_define b defs n reg e a def r e' :
  inv_at b defs n reg e a → defs def → define_machine def e = (r, e') →
  inv_from b defs n reg e' a.
Proof.
  intros [HI HS]%inv_stored Hd He.
  destruct (stored_define _ _ _ _ _ _ _ _ HI Hd He) as (a' & d & ? & ? & _ & ->).
  exists a'. split; [|done]. apply inv_stored. split; [done|by eapply streams_extends].
Qed.

(** What a specified step does to the rest of the invariant. *)
Lemma spec_step_inv gs a q hit r a' defs :
  spec_step gs a q hit r a' → consistent defs a →
  consistent defs a' ∧ extends a a' ∧ length (a_log a') <= S (length (a_log a)).
Proof.
  intros Hs HC. destruct Hs; try (split_and!; [done|apply extends_refl|lia]).
  split_and!; [by eapply consistent_commit|by eapply extends_commit|].
  cbn. rewrite length_app. cbn. lia.
Qed.

(** A stopped engine refuses. *)
Lemma transition_shutdown q e :
  e_shutdown e = true → do_transition q e = (Err ShuttingDown, e).
Proof. intros Hsd. unfold do_transition, transition, st_bind, gets. by rewrite Hsd. Qed.

Lemma transition_ok_running q e res e' :
  do_transition q e = (Ok res, e') → e_shutdown e = false.
Proof. intros Hq. destruct (e_shutdown e) eqn:Hsd; [|done]. by rewrite transition_shutdown in Hq. Qed.

(** A transition from a state with the invariant: a step of the specification
    into such a state, or a storage failure that keeps the store. *)
Lemma inv_spec_step b defs n reg e a q r e' :
  inv_at b defs n reg e a → (N.of_nat (S n) <= u64_max)%N →
  nul_free (q_entity q) = true → nul_free (q_machine q) = true → e_shutdown e = false →
  do_transition q e = (r, e') →
  ∃ hit, (hit = spec_hit a q ∨ b = false ∧ hit = None)
    ∧ ((∃ a', spec_step (e_guards e) a q hit r a' ∧ inv_at b defs (S n) reg e' a'
              ∧ extends a a')
       ∨ b = false ∧ (∃ err, r = Err (EStorage err) ∧ is_failure err)
         ∧ inv_at b defs (S n) reg e' a).
Proof.
  intros HI Hn He Hm Hsd Hrun. pose proof (i_count _ _ _ _ _ _ HI) as Hcnt.
  eapply (transition_run b e a q defs) in Hrun
    as (hit & Hhit & Hfr & Hb & [(a' & Hs & Hh & HD)|(Hf & Herr & Hh & HD)]);
    try done; try apply HI; [| |lia]; (exists hit; split; [done|]).
  - left. destruct (spec_step_inv _ _ _ _ _ _ defs Hs (i_consistent _ _ _ _ _ _ HI)) as (HC & HX & Hl).
    exists a'. split_and!; [done| |done]. split; try done; [lia|].
    rewrite (f_subscribers _ _ Hfr), (f_channels _ _ Hfr).
    eapply streams_extends; [done|apply HI].
  - right. split_and!; [done|done|]. split; try done; [apply HI|lia|].
    rewrite (f_subscribers _ _ Hfr), (f_channels _ _ Hfr). apply HI.
Qed.

Lemma inv_transition b defs n reg e a q r e' :
  inv_at b defs n reg e a → (N.of_nat (S n) <= u64_max)%N →
  nul_free (q_entity q) = true → nul_free (q_machine q) = true →
  do_transition q e = (r, e') → inv_from b defs (S n) reg e' a.
Proof.
  intros HI Hn He Hm Hrun. destruct (e_shutdown e) eqn:Hsd.
  { rewrite transition_shutdown in Hrun by done. injection Hrun as <- <-.
    exists a. split; [|apply extends_refl]. destruct HI. split; try done. lia. }
  destruct (inv_spec_step _ _ _ _ _ _ _ _ _ HI Hn He Hm Hsd Hrun)
    as (hit & _ & [(a' & _ & ? & ?)|(_ & _ & ?)]); [by exists a'|].
  exists a. split; [done|apply extends_refl].
Qed.

(** A dispatch pass: it ends, and every subscriber is [served]. *)
Lemma dispatch_pass_run b defs n reg e a fuel :
  inv_at b defs n reg e a → (N.of_nat n < u64_max)%N → n < fuel →
  ∃ count subs dead e', dispatch_pass fuel e = Some (count, e')
    ∧ Forall2 (served b a dead (e_channels e) (e_channels e')) (e_subscribers e) subs
    ∧ e_subscribers e' = filter (λ s, sub_id s ∉ dead) subs
    ∧ (∀ x, x ∈ dead → ∃ s c, s ∈ e_subscribers e ∧ sub_id s = x
         ∧ e_channels e !! sub_sender s = Some c ∧ ¬ is_open c)
    ∧ inv_at b defs n reg e' a.
Proof.
  intros HI Hn Hfuel. pose proof (i_count _ _ _ _ _ _ HI) as Hcnt.
  destruct (drain_all_run b a fuel (e_subscribers e) (e_storage e) (e_channels e) 0)
    as (subs & dead & d & cs & count & Hda & Hh & Hb & HF & Hoth & Hlen & Hdead);
    try apply HI; try lia.
  { intros s Hs. destruct (st_sub _ _ _ _ _ (i_streams _ _ _ _ _ _ HI) s Hs) as (c & start & Hc & _).
    eauto. }
  unfold dispatch_pass. rewrite Hda. eexists count, subs, dead, _. split; [done|].
  cbn [e_channels e_subscribers set_subscribers set_storage]. split_and!; [done|done|done|].
  split; cbn; try done; try apply HI.
  eapply served_streams; try done; [by eapply holds_wf|lia|apply HI].
Qed.

(** Publishing the outbox changes statuses only. *)
Lemma inv_publish b defs n reg e a r d :
  inv_at b defs n reg e a → s_get_pending_effects 256 (e_storage e) = (r, d) →
  ∃ a', inv_at b defs n reg
          (set_storage e (match r with Ok effects => publish_effects effects d | Err _ => d end)) a'
    ∧ status_only a a'.
Proof.
  intros HI Hg. destruct (returns_mode _ _ b _ a r d (get_pending_ok 256) (i_holds _ _ _ _ _ _ HI)
    (i_fit _ _ _ _ _ _ HI) Hg) as (Hh & Hb & _).
  destruct r as [es|err].
  - destruct (publish_effects_run b a es d Hh Hb) as (a' & Hh' & Hb' & HS). exists a'.
    split; [|done]. split; cbn; [done|done| | | |].
    + eapply status_only_consistent; [done|apply HI].
    + eapply status_only_drawn; [done|apply HI].
    + rewrite (so_log _ _ HS). apply HI.
    + eapply streams_extends; [by apply status_only_extends|apply HI].
  - exists a. split; [|apply status_only_refl]. split; cbn; try done; apply HI.
Qed.

Lemma inv_dispatch b defs n reg e a fuel count e' :
  inv_at b defs n reg e a → (N.of_nat n < u64_max)%N →
  dispatch fuel e = Some (count, e') → inv_from b defs n reg e' a.
Proof.
  intros HI Hn Hrun. apply (dispatch_mono _ (fuel + S n)) in Hrun; [|lia].
  unfold dispatch in Hrun.
  destruct (dispatch_pass_run b defs n reg e a (fuel + S n) HI Hn ltac:(lia))
    as (c1 & subs & dead & e1 & Hd & _ & _ & _ & HI1). rewrite Hd in Hrun.
  destruct (s_get_pending_effects 256 (e_storage e1)) as [r d] eqn:Hg.
  destruct (inv_publish _ _ _ _ _ _ _ _ HI1 Hg) as (a' & HI' & HS). exists a'.
  split; [|by apply status_only_extends]. by destruct r; injection Hrun as <- <-.
Qed.

Lemma inv_at_mono b defs n n' reg e a :
  inv_at b defs n reg e a → n <= n' → inv_at b defs n' reg e a.
Proof. intros [] Hn. split; try done. lia. Qed.

Lemma inv_from_mono b defs n n' reg e a :
  inv_from b defs n reg e a → n <= n' → inv_from b defs n' reg e a.
Proof. intros (a' & HI & HX) Hn. exists a'. split; [by eapply inv_at_mono|done]. Qed.

Lemma inv_from_refl b defs n reg e a : inv_at b defs n reg e a → inv_from b defs n reg e a.
Proof. intros HI. exists a. split; [done|apply extends_refl]. Qed.

Lemma streams_new b a : streams b a [] [] [].
Proof. split; try done; [constructor|]. set_solver. Qed.

Lemma inv_restart b defs n reg e a d clock uuids :
  inv_at b defs n reg e a → reopened (e_storage e) d → e_uuids e <= uuids →
  inv_at b defs n [] (new d clock uuids) a.
Proof.
  intros HI [Hh Hf] Hu. split; cbn; [by apply Hh, HI| |apply HI| |apply HI|apply streams_new].
  - intros Hb. apply Hf, HI, Hb.
  - eapply drawn_mono; [apply HI|done].
Qed.

Lemma inv_step b defs n reg e a reg' e' :
  inv_at b defs n reg e a → (N.of_nat (S n) < u64_max)%N →
  sys_step defs reg e reg' e' → inv_from b defs (S n) reg' e' a.
Proof.
  intros HI Hn Hs. inversion Hs; subst; clear Hs.
  all: try (eapply inv_transition; [exact HI|lia|done..]).
  all: eapply inv_from_mono; [|exact (Nat.le_succ_diag_r n)].
  1: by eapply inv_define.
  8: eapply inv_dispatch; [exact HI|lia|done].
  all: apply inv_from_refl.
  - eapply inv_read; [done|apply get_machine_ok|done].
  - eapply inv_returns; [done|apply list_machines_ok|done].
  - by eapply inv_read; [done|apply get_entity_state_ok|done].
  - by eapply inv_read; [done|apply get_history_ok|done].
  - split; apply HI.
  - split; try apply HI. apply streams_subscribe, HI.
  - split; try apply HI. apply streams_filter, HI.
  - split; apply HI.
  - split; try apply HI. cbn. by eapply streams_receivers; [|apply HI].
  - split; try apply HI. by eapply drawn_mono; [apply HI|].
Qed.

Lemma inv_init b defs d clock uuids :
  holds d empty_abs → fit_if b d → inv_at b defs 0 [] (new d clock uuids) empty_abs.
Proof.
  intros Hh Hb. split; cbn; try done; [apply empty_consistent| |].
  - split; cbn; [set_solver|]. intros i [e He]. by rewrite lookup_empty in He.
  - apply streams_new.
Qed.

Lemma inv_reachable b defs n reg e :
  reachable b defs n reg e → (N.of_nat n < u64_max)%N → ∃ a, inv_at b defs n reg e a.
Proof.
  induction 1 as [d clock uuids Hh Hb|n reg e reg' e' _ IH Hs|n reg e d clock uuids _ IH Hd Hu];
    intros Hn.
  - exists empty_abs. by apply inv_init.
  - destruct IH as [a HI]; [lia|]. destruct (inv_step _ _ _ _ _ _ _ _ HI Hn Hs) as (a' & ? & _).
    eauto.
  - destruct IH as [a HI]; [lia|]. exists a. eapply inv_at_mono; [by eapply inv_restart|lia].
Qed.

(** A run on a fit store is also a run on a fault-prone one. *)
Lemma reachable_weaken b defs n reg e : reachable b defs n reg e → reachable false defs n reg e.
Proof.
  induction 1 as [d clock uuids Hh Hb|n reg e reg' e' _ IH Hs|n reg e d clock uuids _ IH Hd Hu].
  - apply reach_init; [done|]. by intros [=].
  - by eapply reach_step.
  - by eapply reach_restart.
Qed.

(** Any number of further steps and restarts. *)
Inductive later (defs : MachineDefinition → Prop)
    : nat → Registry → Engine → Registry → Engine → Prop :=
| later_refl reg e : later defs 0 reg e reg e
| later_step k reg e reg1 e1 reg2 e2 :
    later defs k reg e reg1 e1 → sys_step defs reg1 e1 reg2 e2 → later defs (S k) reg e reg2 e2
| later_restart k reg e reg1 e1 d clock uuids :
    later defs k reg e reg1 e1 → reopened (e_storage e1) d → e_uuids e1 <= uuids →
    later defs (S k) reg e [] (new d clock uuids).

Lemma inv_later b defs n k reg e a reg' e' :
  inv_at b defs n reg e a → later defs k reg e reg' e' → (N.of_nat (n + k) < u64_max)%N →
  inv_from b defs (n + k) reg' e' a.
Proof.
  intros HI. induction 1 as [reg e|k reg e reg1 e1 reg2 e2 _ IH Hs
    |k reg e reg1 e1 d clock uuids _ IH Hd Hu]; intros Hn.
  - rewrite Nat.add_0_r. by apply inv_from_refl.
  - destruct (IH HI) as (a1 & HI1 & HX1); [lia|].
    replace (n + S k) with (S (n + k)) in * by lia.
    destruct (inv_step _ _ _ _ _ _ _ _ HI1 Hn Hs) as (a2 & HI2 & HX2).
    exists a2. split; [done|]. by eapply extends_trans.
  - destruct (IH HI) as (a1 & HI1 & HX1); [lia|]. exists a1. split; [|done].
    eapply inv_at_mono; [by eapply inv_restart|lia].
Qed.

End system.
