(* ===== verification/Concrete.v ===== *)
(** * Concrete instances

    Every interface the development is parametric in is instantiated here: the
    stored types are countable, so [countable_serde] gives their codecs; tables
    are finite maps; transactions fail on a given schedule ([faulty]), or never
    when the schedule is empty. The witnesses of the properties run the modelled
    code on these instances. *)
From S2P Require Import Prelude Core Redb Keys Storage StorageSpec StorageTrait Channel Engine.

(** ** Countability of the stored types *)

#[export] Instance Number_eq_dec : EqDecision Number.
Proof. solve_decision. Defined.

Definition number_code (n : Number) : N + Z + N :=
  match n with PosInt k => inl (inl k) | NegInt z => inl (inr z) | Float b => inr b end.
Definition number_decode (c : N + Z + N) : Number :=
  match c with inl (inl k) => PosInt k | inl (inr z) => NegInt z | inr b => Float b end.
#[export] Instance Number_countable : Countable Number.
Proof. apply (inj_countable' number_code number_decode). by intros []. Defined.

Definition value_leaf : Type := bool + Number + string.

Fixpoint value_code (v : Value) : gen_tree value_leaf :=
  match v with
  | VNull => GenNode 0 []
  | VBool b => GenLeaf (inl (inl b))
  | VNumber n => GenLeaf (inl (inr n))
  | VString s => GenLeaf (inr s)
  | VArray l => GenNode 1 (value_code <$> l)
  | VObject m => GenNode 2 ((λ kv, GenNode 3 [GenLeaf (inr kv.1); value_code kv.2]) <$> m)
  end.

Fixpoint value_decode (t : gen_tree value_leaf) : Value :=
  match t with
  | GenLeaf (inl (inl b)) => VBool b
  | GenLeaf (inl (inr n)) => VNumber n
  | GenLeaf (inr s) => VString s
  | GenNode 0 _ => VNull
  | GenNode 1 l => VArray (value_decode <$> l)
  | GenNode _ l => VObject ((λ t, match t with
                                  | GenNode _ [GenLeaf (inr k); t'] => (k, value_decode t')
                                  | _ => (EmptyString, VNull)
                                  end) <$> l)
  end.

Lemma value_decode_code v : value_decode (value_code v) = v.
Proof.
  revert v. fix IH 1. intros [|b|n|s|l|m]; cbn; [done|done|done|done| |]; f_equal.
  - induction l as [|v l IHl]; cbn; [done|]. by rewrite IH, IHl.
  - induction m as [|[k v] m IHm]; cbn; [done|]. by rewrite IH, IHm.
Qed.

#[export] Instance Value_eq_dec : EqDecision Value.
Proof.
  refine (λ v w, match decide (value_code v = value_code w) with
                 | left H => left _ | right H => right _ end).
  - by rewrite <- (value_decode_code v), H, value_decode_code.
  - intros ->. by apply H.
Defined.
#[export] Instance Value_countable : Countable Value.
Proof. apply (inj_countable' value_code value_decode). apply value_decode_code. Defined.

#[export] Instance TransitionRule_eq_dec : EqDecision TransitionRule.
Proof. solve_decision. Defined.
#[export] Instance TransitionRule_countable : Countable TransitionRule.
Proof.
  apply (inj_countable'
    (λ r, (rule_event r, rule_from_states r, rule_to_state r, rule_guards r))
    (λ '(a, b, c, d), Build_TransitionRule a b c d)). by intros [].
Defined.

#[export] Instance EffectRule_eq_dec : EqDecision EffectRule.
Proof. solve_decision. Defined.
#[export] Instance EffectRule_countable : Countable EffectRule.
Proof.
  apply (inj_countable' (λ r, (er_on_event r, er_effect r, er_payload r))
    (λ '(a, b, c), Build_EffectRule a b c)). by intros [].
Defined.

#[export] Instance MachineDefinition_eq_dec : EqDecision MachineDefinition.
Proof. solve_decision. Defined.
#[export] Instance MachineDefinition_countable : Countable MachineDefinition.
Proof.
  apply (inj_countable'
    (λ d, (md_name d, md_version d, md_states d, md_initial_state d, md_transitions d,
           md_effects d, md_created_at d))
    (λ '(a, b, c, d, e, f, g), Build_MachineDefinition a b c d e f g)). by intros [].
Defined.

#[export] Instance EntityState_eq_dec : EqDecision EntityState.
Proof. solve_decision. Defined.
#[export] Instance EntityState_countable : Countable EntityState.
Proof.
  apply (inj_countable'
    (λ s, (es_entity_id s, es_machine s, es_current_state s, es_version s, es_updated_at s,
           es_created_at s))
    (λ '(a, b, c, d, e, f), Build_EntityState a b c d e f)). by intros [].
Defined.

#[export] Instance TransitionRecord_eq_dec : EqDecision TransitionRecord.
Proof. solve_decision. Defined.
#[export] Instance TransitionRecord_countable : Countable TransitionRecord.
Proof.
  apply (inj_countable'
    (λ r, (rec_id r, rec_sequence r, rec_entity_id r, rec_machine r, rec_from_state r,
           rec_to_state r, rec_event r, rec_actor r, rec_ctx r, rec_idempotency_key r,
           rec_version r, rec_timestamp r))
    (λ '(a, b, c, d, e, f, g, h, i, j, k, l), Build_TransitionRecord a b c d e f g h i j k l)).
  by intros [].
Defined.

Definition status_code (s : EffectStatus) : N :=
  match s with Pending => 0 | Published => 1 | Failed => 2 end.
Definition status_decode (n : N) : EffectStatus :=
  match n with 0%N => Pending | 1%N => Published | _ => Failed end.
#[export] Instance EffectStatus_countable : Countable EffectStatus.
Proof. apply (inj_countable' status_code status_decode). by intros []. Defined.

#[export] Instance Effect_eq_dec : EqDecision Effect.
Proof. solve_decision. Defined.
#[export] Instance Effect_countable : Countable Effect.
Proof.
  apply (inj_countable'
    (λ e, (eff_id e, eff_transition_id e, eff_effect_name e, eff_payload e, eff_status e,
           eff_created_at e))
    (λ '(a, b, c, d, e, f), Build_Effect a b c d e f)). by intros [].
Defined.

(** ** The instances *)

Definition demo_codecs : Codecs := {|
  codec_machine := countable_serde canon_machine;
  codec_state := countable_serde id;
  codec_record := countable_serde id;
  codec_effect := countable_serde id;
|}.

#[export] Instance demo_codecs_ok : CodecsOk demo_codecs.
Proof. split; apply countable_serde_ok. Qed.

Lemma demo_encodes : EncodesAll demo_codecs.
Proof. by split. Qed.

(** Importing this module makes them the default. *)
Module Demo.

#[export] Existing Instance demo_codecs.
#[export] Existing Instance gmap_redb.
#[export] Existing Instance counting_env.
#[export] Instance demo_mpsc : Mpsc ChangeRecord := queue_mpsc ChangeRecord.

(** The database that fails on a schedule. *)
#[export] Instance demo_tx : RedbTx Tables := faulty Tables.
#[export] Instance demo_tx_ok : RedbTxOk demo_tx := faulty_ok Tables.

(** An empty database with a schedule of faults. *)
Definition demo_db (faults : list (option string)) : db demo_tx := (empty_tables, faults).

Lemma demo_holds faults : holds (demo_db faults : store) empty_abs.
Proof. exact repr_empty. Qed.

Lemma demo_fit : fit (demo_db [] : store).
Proof. split; [done|apply demo_encodes]. Qed.

End Demo.

(** The document machine of the examples: draft, review, published. *)
Definition document : MachineDefinition :=
  {| md_name := "document"; md_version := 1; md_states := ["draft"; "review"; "published"];
     md_initial_state := "draft";
     md_transitions :=
       [{| rule_event := "submit"; rule_from_states := ["draft"]; rule_to_state := "review";
           rule_guards := ["has_title"] |};
        {| rule_event := "publish"; rule_from_states := ["review"]; rule_to_state := "published";
           rule_guards := [] |}];
     md_effects := [{| er_on_event := "submit"; er_effect := "notify";
                       er_payload := Some (VString "editors") |}];
     md_created_at := 0 |}.

Lemma document_well_formed : well_formed document.
Proof. apply validate_well_formed. reflexivity. Qed.
