(* ===== verification/StorageProps.v ===== *)
(** * Properties of the storage engine

    For every table store [RedbOk], codec [CodecsOk] and transaction layer
    [RedbTxOk]: [execute_transition] is all or nothing under any failure and
    implements the abstract step; the reads return what the abstract store
    says. *)
From S2P Require Import Prelude Core Redb Keys Storage Atomicity StorageSpec StorageReads.
From S2P Require Import StorageWrites StorageTrait Concrete.

Section properties.
Context {R : Redb} {RO : RedbOk R} {C : Codecs} {CO : CodecsOk C}.
Context {T : RedbTx Tables} {TO : RedbTxOk T}.

(** C2. All or nothing: whatever fails inside [execute_transition], either the
    committed tables are exactly those of the failure-free run of the whole
    method and the caller is told so, or they are unchanged and the caller gets
    an error. *)
Theorem execute_transition_all_or_nothing r s es (d d' : db T) res :
  execute_transition r s es d = (res, d') →
  match res with
  | Ok _ => execute_transition (T := ideal Tables) r s es (snapshot d) = (res, snapshot d')
  | Err _ => snapshot d' = snapshot d
  end.
Proof.
  intros Hrun. destruct res as [x|err]; [|by eapply execute_transition_err_snapshot].
  destruct (refines_run _ _ (execute_transition_refines r s es) _ _ _ Hrun) as [->|[(? & ? & _) _]];
    done.
Qed.

(** C6. [execute_transition] implements the atomic step of the abstract store:
    next sequence number, record appended to the log, projection moved by one
    version or a version conflict, effects added to the outbox, idempotency key
    claimed or reported as taken; a storage failure is the only other outcome
    and keeps the store. *)
Theorem execute_transition_implements a r s es (d d' : db T) res :
  Repr (snapshot d) a → exec_ok a r s es → execute_transition r s es d = (res, d') →
  (∃ a', spec_execute a r s es = (res, a') ∧ Repr (snapshot d') a')
  ∨ failed res ∧ Repr (snapshot d') a.
Proof.
  intros HR Hok Hrun.
  exact (impl_run _ _ _ _ _ (@execute_transition_ok redb_storage redb_storage_ok r s es)
           d a res d' HR Hok Hrun).
Qed.

(** Histories: on a healthy database [get_history] returns the records of
    exactly this entity in this machine, in log order, after the cursor and at
    most as many as the limit. *)
Theorem get_history_correct a (d : db T) e m limit after :
  Repr (snapshot d) a → healthy d → nul_free e = true → nul_free m = true →
  ∃ d', get_history e m limit after d
        = (Ok (page (default u32_max limit) (default 0%N after) (hist e m (a_log a))), d')
        ∧ snapshot d' = snapshot d.
Proof.
  intros HR Hd He Hm.
  destruct (refines_healthy _ _ (get_history_refines e m limit after) d Hd) as (r & d' & Hrun & Heq & _).
  rewrite (get_history_read _ _ _ _ _ _ HR He Hm) in Heq. injection Heq as -> Hs.
  exists d'. split; done.
Qed.

(** The replication read: on a healthy database [get_transitions_after]
    returns the log records with a sequence number above the cursor, in
    ascending order, at most as many as the limit (cursor below [u64::MAX]). *)
Theorem get_transitions_after_correct a (d : db T) after limit :
  Repr (snapshot d) a → healthy d → (after < u64_max)%N →
  ∃ d', get_transitions_after after limit d
        = (Ok (take (N.to_nat limit) (filter (λ r, (after < rec_sequence r)%N) (a_log a))), d')
        ∧ StronglySorted seq_lt (filter (λ r, (after < rec_sequence r)%N) (a_log a)).
Proof.
  intros HR Hd Hafter.
  destruct (refines_healthy _ _ (get_transitions_after_refines after limit) d Hd)
    as (r & d' & Hrun & Heq & _).
  rewrite (get_transitions_after_read _ _ _ _ HR) in Heq. injection Heq as -> Hs.
  exists d'. rewrite Hrun. split.
  - do 3 f_equal. apply list_filter_iff. intros x. rewrite add64_small by lia. lia.
  - eauto with sorted.
Qed.

(** The outbox read behind the stream: on a healthy database
    [get_effects_for_transition] returns exactly the effects of this transition,
    in the order of their identifiers, although its scan stops at the first
    index key without the prefix. *)
Theorem get_effects_for_transition_correct a (d : db T) i :
  Repr (snapshot d) a → healthy d → nul_free i = true →
  ∃ l d', get_effects_for_transition i d = (Ok l, d') ∧ snapshot d' = snapshot d
    ∧ StronglySorted eff_lt l
    ∧ ∀ ef, ef ∈ l ↔ a_outbox a !! eff_id ef = Some ef ∧ eff_transition_id ef = i.
Proof.
  intros HR Hd Hi.
  destruct (refines_healthy _ _ (get_effects_for_transition_refines i) d Hd) as (r & d' & Hrun & Heq & _).
  destruct (get_effects_read _ _ i HR Hi) as (l & Hl & HS & Hel).
  rewrite Hl in Heq. injection Heq as -> Hs. exists l, d'. done.
Qed.

(** [list_entities_in_state] finds exactly the entities of the machine whose
    projection is in the given state, each once: the key filter
    [contains] drops none and the decoded record decides. *)
Theorem list_entities_correct a (d : db T) m st :
  Repr (snapshot d) a → healthy d →
  ∃ l d', list_entities_in_state m st d = (Ok l, d') ∧ snapshot d' = snapshot d ∧ NoDup l
    ∧ ∀ s, s ∈ l ↔ a_states a !! (es_entity_id s, es_machine s) = Some s
                   ∧ es_machine s = m ∧ es_current_state s = st.
Proof.
  intros HR Hd.
  destruct (refines_healthy _ _ (list_entities_in_state_refines m st) d Hd) as (r & d' & Hrun & Heq & _).
  destruct (list_entities_read _ _ m st HR) as (l & Hl & HN & Hel).
  rewrite Hl in Heq. injection Heq as -> Hs. exists l, d'. done.
Qed.

(** [upsert_entity_state] writes the projection when nothing is stored, when
    the stored version is the predecessor, or when the new version is 0 or 1
    (unchecked); otherwise it reports the conflict with both versions and
    changes nothing. *)
Theorem upsert_entity_state_correct a (d d' : db T) s res :
  Repr (snapshot d) a → redb_fit d → nul_free (es_entity_id s) = true →
  nul_free (es_machine s) = true → upsert_entity_state s d = (res, d') →
  ∃ a', spec_upsert a s = (res, a') ∧ Repr (snapshot d') a'.
Proof.
  intros HR Hd He Hm Hrun.
  exact (proj2 (impl_fit _ _ _ _ _ (@upsert_entity_state_ok redb_storage redb_storage_ok s He Hm)
                  d a res d' Hd HR I Hrun)).
Qed.

End properties.

(** ** Witnesses *)

Import Demo.

Definition w_record : TransitionRecord :=
  {| rec_id := "t1"; rec_sequence := 0; rec_entity_id := "doc-1"; rec_machine := "document";
     rec_from_state := "draft"; rec_to_state := "review"; rec_event := "submit";
     rec_actor := "ann"; rec_ctx := VNull; rec_idempotency_key := Some "k"; rec_version := 1;
     rec_timestamp := 7 |}.
Definition w_state : EntityState :=
  {| es_entity_id := "doc-1"; es_machine := "document"; es_current_state := "review";
     es_version := 1; es_updated_at := 7; es_created_at := 7 |}.
Definition w_effect : Effect := Effect_new "e1" 7 "t1" "notify" (VString "editors").

(** A database with one committed transition, and what it means. *)
Definition w_db : db demo_tx := (execute_transition w_record w_state [w_effect] (demo_db [])).2.
Definition w_abs : Abs := (spec_execute empty_abs w_record w_state [w_effect]).2.

Lemma w_exec_ok : exec_ok empty_abs w_record w_state [w_effect].
Proof.
  split; try done; [intros r Hr; by apply elem_of_nil in Hr|]. split.
  - apply NoDup_singleton.
  - intros ef _. apply lookup_empty.
  - by intros ef ->%list_elem_of_singleton.
Qed.

Lemma w_repr : Repr (snapshot w_db) w_abs.
Proof.
  destruct (execute_transition (T:=demo_tx) w_record w_state [w_effect] (demo_db [])) as [r d] eqn:Hr.
  destruct (impl_fit _ _ _ _ _ (@execute_transition_ok redb_storage redb_storage_ok w_record
    w_state [w_effect]) _ _ _ _ demo_fit (demo_holds []) w_exec_ok Hr) as (_ & a & Ha & HR).
  unfold w_db, w_abs. rewrite Hr. unfold writes in Ha. rewrite Ha. exact HR.
Qed.

Lemma w_healthy : healthy w_db.
Proof. vm_compute. reflexivity. Qed.

(** A failure after half of the writes. *)
Lemma execute_transition_all_or_nothing_witness :
  let out := execute_transition (T := demo_tx) w_record w_state [w_effect]
               (demo_db (replicate 12 None ++ [Some "disk full"])) in
  out.1 = Err (Internal "disk full")
  ∧ snapshot out.2 = snapshot (demo_db (replicate 12 None ++ [Some "disk full"])).
Proof.
  intros out. split; [vm_compute; reflexivity|].
  apply (execute_transition_all_or_nothing w_record w_state [w_effect]
    (demo_db (replicate 12 None ++ [Some "disk full"])) out.2 (Err (Internal "disk full"))).
  rewrite (surjective_pairing (execute_transition _ _ _ _)). f_equal; vm_compute; reflexivity.
Defined.

Lemma execute_transition_implements_witness :
  let out := execute_transition (T := demo_tx) w_record w_state [w_effect] (demo_db []) in
  (∃ a', spec_execute empty_abs w_record w_state [w_effect] = (out.1, a') ∧ Repr (snapshot out.2) a')
  ∨ failed out.1 ∧ Repr (snapshot out.2) empty_abs.
Proof.
  intros out.
  apply (execute_transition_implements empty_abs w_record w_state [w_effect] (demo_db []) out.2 out.1);
    [apply repr_empty|apply w_exec_ok|apply surjective_pairing].
Defined.

Lemma get_history_correct_witness :
  ∃ d', get_history (T := demo_tx) "doc-1" "document" (Some 5%N) None w_db
        = (Ok (page 5 0 (hist "doc-1" "document" (a_log w_abs))), d')
        ∧ snapshot d' = snapshot w_db.
Proof.
  apply (get_history_correct w_abs w_db "doc-1" "document" (Some 5%N) None);
    [apply w_repr|apply w_healthy|reflexivity|reflexivity].
Defined.

Lemma get_transitions_after_correct_witness :
  ∃ d', get_transitions_after (T := demo_tx) 0 256 w_db
        = (Ok (take (N.to_nat 256) (filter (λ r, (0 < rec_sequence r)%N) (a_log w_abs))), d')
        ∧ StronglySorted seq_lt (filter (λ r, (0 < rec_sequence r)%N) (a_log w_abs)).
Proof.
  apply (get_transitions_after_correct w_abs w_db 0%N 256%N);
    [apply w_repr|apply w_healthy|reflexivity].
Defined.

Lemma get_effects_for_transition_correct_witness :
  ∃ l d', get_effects_for_transition (T := demo_tx) "t1" w_db = (Ok l, d')
    ∧ snapshot d' = snapshot w_db ∧ StronglySorted eff_lt l
    ∧ ∀ ef, ef ∈ l ↔ a_outbox w_abs !! eff_id ef = Some ef ∧ eff_transition_id ef = "t1".
Proof.
  apply (get_effects_for_transition_correct w_abs w_db "t1");
    [apply w_repr|apply w_healthy|reflexivity].
Defined.

Lemma list_entities_correct_witness :
  ∃ l d', list_entities_in_state (T := demo_tx) "document" "review" w_db = (Ok l, d')
    ∧ snapshot d' = snapshot w_db ∧ NoDup l
    ∧ ∀ s, s ∈ l ↔ a_states w_abs !! (es_entity_id s, es_machine s) = Some s
                   ∧ es_machine s = "document" ∧ es_current_state s = "review".
Proof.
  apply (list_entities_correct w_abs w_db "document" "review"); [apply w_repr|apply w_healthy].
Defined.

Definition w_stale : EntityState :=
  {| es_entity_id := "doc-1"; es_machine := "document"; es_current_state := "published";
     es_version := 5; es_updated_at := 9; es_created_at := 7 |}.

Lemma upsert_entity_state_correct_witness :
  ∃ a', spec_upsert w_abs w_stale
        = (Err (StorageVersionConflict "doc-1" 4 1), a')
        ∧ Repr (snapshot (upsert_entity_state (T := demo_tx) w_stale w_db).2) a'.
Proof.
  apply (upsert_entity_state_correct w_abs w_db
    (upsert_entity_state (T := demo_tx) w_stale w_db).2 w_stale);
    [apply w_repr|split; [apply w_healthy|apply demo_encodes]|reflexivity|reflexivity|].
  rewrite (surjective_pairing (upsert_entity_state w_stale w_db)) at 1.
  f_equal; vm_compute; reflexivity.
Defined.
