(* ===== verification/EngineProps.v ===== *)
(** * Properties of the engine

    Stated for every storage engine that meets the contract [StorageOk], every
    channel implementation [MpscOk] and every environment [EnvOk], over the
    reachable states of [System]; [fit] and fault-prone stores are told apart
    by the flag of [reachable]. Each property has a witness on the instances of
    [Concrete]. *)
From S2P Require Import Prelude Core Redb Keys Storage Atomicity StorageSpec StorageReads.
From S2P Require Import StorageTrait Channel Engine EngineSpec EngineRun Dispatch System Concrete.

Section facts.
Context {SE : StorageEngine} {SO : StorageOk SE} {MP : Mpsc ChangeRecord} {MO : MpscOk ChangeRecord}.
Context {EN : Env} {EO : EnvOk EN}.
Implicit Types (a : Abs) (e : Engine).

(** The public reads on a fit store. *)
Lemma history_fit defs n reg e a en m limit after :
  inv_at true defs n reg e a → nul_free en = true → nul_free m = true →
  ∃ e', history en m limit after e
        = (Ok (page (default u32_max limit) (default 0%N after) (hist en m (a_log a))), e')
        ∧ inv_at true defs n reg e' a.
Proof.
  intros HI He Hm. destruct (history en m limit after e) as [r e'] eqn:Hr. exists e'.
  split; [|by apply (inv_read _ _ _ _ _ _ _ _ _ _ HI (get_history_ok en m limit after He Hm) Hr)]. f_equal.
  revert Hr. unfold history, storage. destruct (s_get_history _ _ _ _ _) as [r0 d] eqn:Hg.
  intros [= <- <-].
  destruct (read_mode _ _ true _ a r0 d (get_history_ok en m limit after He Hm)
    (i_holds _ _ _ _ _ _ HI) (i_fit _ _ _ _ _ _ HI) Hg) as (_ & _ & [-> |[? _]]); done.
Qed.

Lemma current_fit defs n reg e a en m :
  inv_at true defs n reg e a → nul_free en = true → nul_free m = true →
  ∃ e', current en m e
        = (map_err EStorage (ok_or (a_states a !! (en, m))
             (NotFound ("entity '" +:+ en +:+ "' in machine '" +:+ m +:+ "'"))), e')
        ∧ inv_at true defs n reg e' a.
Proof.
  intros HI He Hm. destruct (current en m e) as [r e'] eqn:Hr. exists e'.
  split; [|by apply (inv_read _ _ _ _ _ _ _ _ _ _ HI (get_entity_state_ok en m He Hm) Hr)]. f_equal.
  revert Hr. unfold current, storage. destruct (s_get_entity_state _ _ _) as [r0 d] eqn:Hg.
  intros [= <- <-].
  destruct (read_mode _ _ true _ a r0 d (get_entity_state_ok en m He Hm)
    (i_holds _ _ _ _ _ _ HI) (i_fit _ _ _ _ _ _ HI) Hg) as (_ & _ & [-> |[? _]]); done.
Qed.

(** Histories of at most [u32::MAX] records are returned whole. *)
Lemma page_all log en m :
  (∀ k r, log_at log k = Some r → rec_sequence r = k) →
  (N.of_nat (length log) <= u32_max)%N →
  page (default u32_max None) (default 0%N None) (hist en m log) = hist en m log.
Proof.
  intros Hseq Hl. unfold page. cbn [default].
  assert (filter (λ r, (0 < rec_sequence r)%N) (hist en m log) = hist en m log) as ->.
  { apply filter_all. intros r [_ Hr]%list_elem_of_filter.
    apply elem_log_at in Hr as [k Hk]. rewrite (Hseq _ _ Hk).
    pose proof (log_at_bound _ _ _ Hk). lia. }
  apply take_ge. pose proof (hist_length en m log). lia.
Qed.

Lemma find_idem_app log log' k r : find_idem log k = Some r → find_idem (log ++ log') k = Some r.
Proof.
  unfold find_idem. induction log as [|x log IH]; cbn; [done|]. by case_match.
Qed.

Lemma find_idem_used log k : is_Some (find_idem log k) ↔ idem_used log k = true.
Proof.
  unfold find_idem, idem_used. induction log as [|x log IH]; cbn; [split; [by intros []|done]|].
  case_bool_decide; cbn; [split; eauto|done].
Qed.

Lemma find_idem_snoc log k r :
  idem_used log k = false → rec_idempotency_key r = Some k → find_idem (log ++ [r]) k = Some r.
Proof.
  unfold idem_used, find_idem. intros Hu Hk. induction log as [|x log IH]; cbn in *.
  - by rewrite bool_decide_eq_true_2.
  - apply orb_false_iff in Hu as [-> Hu]. auto.
Qed.

(** A successful answer for a key is that of the record stored under it. *)
Lemma ok_answer b defs n reg e a q k res e' :
  inv_at b defs n reg e a → (N.of_nat (S n) < u64_max)%N →
  nul_free (q_entity q) = true → nul_free (q_machine q) = true → q_key q = Some k →
  do_transition q e = (Ok res, e') →
  ∃ a' rec, inv_at b defs (S n) reg e' a' ∧ extends a a' ∧ find_idem (a_log a') k = Some rec
    ∧ res = replay_result rec ∧ (is_Some (find_idem (a_log a) k) → a' = a).
Proof.
  intros HI Hn He Hm Hk Hrun. pose proof (transition_ok_running _ _ _ _ Hrun) as Hsd.
  destruct (inv_spec_step _ _ _ _ _ _ _ _ _ HI ltac:(lia) He Hm Hsd Hrun)
    as (hit & Hhit & [(a' & Hs & HI' & HX)|(_ & (err & ? & _) & _)]); [|done].
  assert (spec_hit a q = find_idem (a_log a) k) as Hsh by (unfold spec_hit; by rewrite Hk).
  inversion Hs; subst; try done.
  - destruct Hhit as [Hhit|[_ ?]]; [|done]. exists a', existing. rewrite Hsh in Hhit.
    split_and!; try done.
  - eexists _, _. split_and!; [exact HI'|done| |done|].
    + cbn. apply find_idem_snoc; [auto|done].
    + intros Hu%find_idem_used. specialize (H2 k Hk). congruence.
Qed.

(** A request without a key that is answered was committed. *)
Lemma committed defs n reg e a q res e' :
  inv_at true defs n reg e a → (N.of_nat (S n) < u64_max)%N →
  nul_free (q_entity q) = true → nul_free (q_machine q) = true → q_key q = None →
  do_transition q e = (Ok res, e') →
  ∃ a' def, a_machines a !! q_machine q = Some def ∧ version_ok a q
    ∧ inv_at true defs (S n) reg e' a' ∧ extends a a'
    ∧ spec_version a' (q_entity q) (q_machine q)
      = (spec_version a (q_entity q) (q_machine q) + 1)%N.
Proof.
  intros HI Hn He Hm Hk Hrun. pose proof (transition_ok_running _ _ _ _ Hrun) as Hsd.
  destruct (inv_spec_step _ _ _ _ _ _ _ _ _ HI ltac:(lia) He Hm Hsd Hrun)
    as (hit & [-> |[? _]] & [(a' & Hs & HI' & HX)|[? _]]); try done.
  unfold spec_hit in Hs. rewrite Hk in Hs. cbn in Hs. inversion Hs as [| | | | | |def]; subst.
  match goal with H : planned _ _ _ _ |- _ => destruct H as (? & ? & _) end.
  eexists _, def. split_and!; [done|done|exact HI'|done|].
  unfold spec_version at 1. cbn. by rewrite lookup_insert_eq.
Qed.

Lemma planned_unique a q def0 rule0 def rule :
  planned a q def0 rule0 → a_machines a !! q_machine q = Some def →
  FsmPlanner.plan_transition def (spec_current a def (q_entity q) (q_machine q))
    (q_event q) (q_entity q) = Ok rule → def0 = def ∧ rule0 = rule.
Proof. intros (Hm & _ & Hp) Hm' Hp'. assert (def0 = def) as -> by congruence. split; congruence. Qed.

(** The version of an entity never decreases. *)
Lemma extends_version defs a a' en m :
  consistent defs a → consistent defs a' → extends a a' →
  (spec_version a en m <= spec_version a' en m)%N.
Proof.
  intros HC HC' [[k Hk] _ _]. rewrite (spec_version_length defs a), (spec_version_length defs a') by done.
  rewrite Hk. unfold hist. rewrite filter_app, length_app. lia.
Qed.

End facts.

Section properties.
Context {SE : StorageEngine} {SO : StorageOk SE} {MP : Mpsc ChangeRecord} {MO : MpscOk ChangeRecord}.
Context {EN : Env} {EO : EnvOk EN}.

(** C1. On a store without faults, [Engine::transition] implements its
    specification [spec_step] branch by branch: idempotent replay, unknown
    machine, version conflict, illegal event, failed guard, and the commit that
    appends one record, moves the projection by one version and emits the
    effects of the event. The store invariant [consistent] is kept. *)
Theorem transition_refines_spec defs n reg e q r e' :
  reachable true defs n reg e → (N.of_nat (S n) < u64_max)%N →
  nul_free (q_entity q) = true → nul_free (q_machine q) = true → e_shutdown e = false →
  do_transition q e = (r, e') →
  ∃ a a', holds (e_storage e) a ∧ spec_step (e_guards e) a q (spec_hit a q) r a'
          ∧ holds (e_storage e') a' ∧ consistent defs a'.
Proof.
  intros Hreach Hn He Hm Hsd Hrun.
  destruct (inv_reachable _ _ _ _ _ Hreach ltac:(lia)) as [a HI].
  destruct (inv_spec_step _ _ _ _ _ _ _ _ _ HI ltac:(lia) He Hm Hsd Hrun)
    as (hit & [-> |[? _]] & [(a' & Hs & HI' & _)|[? _]]); try done.
  exists a, a'. split_and!; [apply HI|done|apply HI'|apply HI'].
Qed.

(** C5. The life of an entity: on a store without faults the history returned
    for an entity and a machine has the versions 1, 2, 3, ... in log order; every
    record starts in the state where the last one ended and is an edge of a
    well-formed definition submitted under the machine's name, the first one
    from its initial state; and [current] answers with the state and version of
    the last record, or not found when there is none. *)
Theorem history_lifecycle defs n reg e en m :
  reachable true defs n reg e → (N.of_nat n <= u32_max)%N →
  nul_free en = true → nul_free m = true →
  ∃ h e', history en m None None e = (Ok h, e')
    ∧ versioned h ∧ linked h ∧ StronglySorted seq_lt h
    ∧ (∀ rec, rec ∈ h → rec_entity_id rec = en ∧ rec_machine rec = m
         ∧ ∃ def, defs def ∧ well_formed def ∧ edge_of def rec)
    ∧ match last h with
      | None => ∃ why, (current en m e').1 = Err (EStorage (NotFound why))
      | Some rec => ∃ s, (current en m e').1 = Ok s
          ∧ es_current_state s = rec_to_state rec ∧ es_version s = N.of_nat (length h)
      end.
Proof.
  intros Hreach Hn He Hm.
  destruct (inv_reachable _ _ _ _ _ Hreach) as [a HI]; [width|].
  destruct (history_fit _ _ _ _ _ en m None None HI He Hm) as (e' & Hh & HI').
  pose proof (i_consistent _ _ _ _ _ _ HI) as HC. pose proof (i_count _ _ _ _ _ _ HI) as Hcnt.
  pose proof (holds_wf _ _ (i_holds _ _ _ _ _ _ HI)) as Hwf.
  rewrite page_all in Hh by (apply Hwf || lia).
  exists (hist en m (a_log a)), e'. split; [done|].
  split_and!; [apply HC|apply HC| | |].
  - apply StronglySorted_filter, log_sorted, Hwf.
  - intros rec [[<- <-] Hr]%list_elem_of_filter. split_and!; [done|done|]. by apply HC.
  - destruct (current_fit _ _ _ _ _ en m HI' He Hm) as (e2 & -> & _).
    pose proof (c_projects _ _ HC en m) as Hp. unfold projects in Hp.
    pose proof (spec_version_length defs a en m HC) as Hv. unfold spec_version in Hv.
    destruct (last (hist en m (a_log a))) as [rec|]; [|rewrite Hp; by eexists].
    destruct Hp as (s & Hs & Hst & _). rewrite Hs in Hv |- *. exists s. done.
Qed.

(** The log is append-only: after any further steps of the engine, and
    restarts on its store, the history of an entity extends the one returned
    before. *)
Theorem history_append_only defs n k reg e reg' e' en m :
  reachable true defs n reg e → later defs k reg e reg' e' →
  (N.of_nat (n + k) <= u32_max)%N → nul_free en = true → nul_free m = true →
  ∃ h l, (history en m None None e).1 = Ok h ∧ (history en m None None e').1 = Ok (h ++ l).
Proof.
  intros Hreach Hlater Hn He Hm.
  destruct (inv_reachable _ _ _ _ _ Hreach) as [a HI]; [width|].
  destruct (inv_later _ _ _ _ _ _ _ _ _ HI Hlater) as (a' & HI' & [[l Hl] _ _]);
    [width|].
  destruct (history_fit _ _ _ _ _ en m None None HI He Hm) as (e1 & -> & _).
  destruct (history_fit _ _ _ _ _ en m None None HI' He Hm) as (e2 & -> & _).
  pose proof (i_count _ _ _ _ _ _ HI). pose proof (i_count _ _ _ _ _ _ HI').
  rewrite !page_all; try lia; try by eapply aw_seq, holds_wf, i_holds.
  exists (hist en m (a_log a)), (hist en m l). split; [done|]. rewrite Hl. unfold hist.
  by rewrite filter_app.
Qed.

(** C7. An idempotency key takes effect at most once, whatever the storage
    failures and whatever happens in between, restarts included: once a request
    with the key was answered, any later request with the same key that is answered gets the same
    answer and leaves the store as it was. *)
Theorem idempotency_key_once defs n k reg e q res e1 reg2 e2 q' res' e3 key :
  reachable false defs n reg e → do_transition q e = (Ok res, e1) →
  later defs k reg e1 reg2 e2 → do_transition q' e2 = (Ok res', e3) →
  (N.of_nat (n + k + 2) < u64_max)%N → q_key q = Some key → q_key q' = Some key →
  nul_free (q_entity q) = true → nul_free (q_machine q) = true →
  nul_free (q_entity q') = true → nul_free (q_machine q') = true →
  res' = res ∧ ∃ a, holds (e_storage e2) a ∧ holds (e_storage e3) a.
Proof.
  intros Hreach Hq Hlater Hq' Hn Hk Hk' He Hm He' Hm'.
  destruct (inv_reachable _ _ _ _ _ Hreach ltac:(lia)) as [a HI].
  destruct (ok_answer _ _ _ _ _ _ _ key _ _ HI ltac:(lia) He Hm Hk Hq)
    as (a1 & rec & HI1 & _ & Hf1 & -> & _).
  destruct (inv_later _ _ _ _ _ _ _ _ _ HI1 Hlater ltac:(lia)) as (a2 & HI2 & [[l Hl] _ _]).
  assert (find_idem (a_log a2) key = Some rec) as Hf2 by (rewrite Hl; by apply find_idem_app).
  destruct (ok_answer _ _ _ _ _ _ _ key _ _ HI2 ltac:(lia) He' Hm' Hk' Hq')
    as (a3 & rec' & HI3 & _ & Hf3 & -> & Hsame).
  rewrite (Hsame ltac:(by rewrite Hf2)) in *. split; [congruence|].
  exists a2. split; [apply HI2|apply HI3].
Qed.

(** C25. Replay: on a store without faults, once a request with an idempotency
    key has succeeded, every later request with that key, after a restart, too,
    is answered with the first result and changes nothing in the store. This
    holds of any request with the key, one for another entity, machine or event
    included: the code compares the key alone (PROTOCOL.md documents a
    rejection [duplicate_idempotency_key] for such requests). *)
Theorem idempotent_replay defs n k reg e q res e1 reg2 e2 q' key :
  reachable true defs n reg e → do_transition q e = (Ok res, e1) →
  later defs k reg e1 reg2 e2 → (N.of_nat (n + k + 2) < u64_max)%N →
  q_key q = Some key → q_key q' = Some key → e_shutdown e2 = false →
  nul_free (q_entity q) = true → nul_free (q_machine q) = true →
  nul_free (q_entity q') = true → nul_free (q_machine q') = true →
  ∃ e3 a, do_transition q' e2 = (Ok res, e3) ∧ holds (e_storage e2) a ∧ holds (e_storage e3) a.
Proof.
  intros Hreach Hq Hlater Hn Hk Hk' Hsd He Hm He' Hm'.
  destruct (inv_reachable _ _ _ _ _ Hreach ltac:(lia)) as [a HI].
  destruct (ok_answer _ _ _ _ _ _ _ key _ _ HI ltac:(lia) He Hm Hk Hq)
    as (a1 & rec & HI1 & _ & Hf1 & -> & _).
  destruct (inv_later _ _ _ _ _ _ _ _ _ HI1 Hlater ltac:(lia)) as (a2 & HI2 & [[l Hl] _ _]).
  assert (spec_hit a2 q' = Some rec) as Hhit.
  { unfold spec_hit. rewrite Hk', Hl. cbn. by apply find_idem_app. }
  destruct (do_transition q' e2) as [r e3] eqn:Hrun.
  destruct (inv_spec_step _ _ _ _ _ _ _ _ _ HI2 ltac:(lia) He' Hm' Hsd Hrun)
    as (hit & [-> |[? _]] & [(a' & Hs & HI' & _)|[? _]]); try done.
  rewrite Hhit in Hs. inversion Hs; subst. exists e3, a'. split_and!; [done|apply HI2|apply HI'].
Qed.

(** C13. Optimistic concurrency: of two requests on the same entity that expect
    the same version, the second one is refused with a version conflict naming a
    higher version, however many steps and restarts are between them. *)
Theorem version_check_exclusive defs n k reg e q res e1 reg2 e2 q' v :
  reachable true defs n reg e → do_transition q e = (Ok res, e1) →
  later defs k reg e1 reg2 e2 → (N.of_nat (n + k + 2) < u64_max)%N →
  q_key q = None → q_key q' = None → q_expected q = Some v → q_expected q' = Some v →
  q_entity q' = q_entity q → q_machine q' = q_machine q → e_shutdown e2 = false →
  nul_free (q_entity q) = true → nul_free (q_machine q) = true →
  ∃ actual, (v < actual)%N
    ∧ (do_transition q' e2).1
      = Err (ECore (VersionConflict (q_entity q) (q_machine q) v actual)).
Proof.
  intros Hreach Hq Hlater Hn Hk Hk' Hv Hv' Hen Hmn Hsd He Hm.
  destruct (inv_reachable _ _ _ _ _ Hreach ltac:(lia)) as [a HI].
  destruct (committed _ _ _ _ _ _ _ _ HI ltac:(lia) He Hm Hk Hq)
    as (a1 & def & Hdef & Hver & HI1 & HX1 & Hnew). rewrite (Hver v Hv) in *.
  destruct (inv_later _ _ _ _ _ _ _ _ _ HI1 Hlater ltac:(lia)) as (a2 & HI2 & HX2).
  pose proof (extends_version defs a1 a2 (q_entity q) (q_machine q) (i_consistent _ _ _ _ _ _ HI1)
    (i_consistent _ _ _ _ _ _ HI2) HX2) as Hle.
  destruct (ex_mach _ _ HX2 (q_machine q)) as [def2 Hdef2];
    [apply (ex_mach _ _ HX1); by rewrite Hdef|].
  destruct (do_transition q' e2) as [r e3] eqn:Hrun.
  destruct (inv_spec_step _ _ _ _ _ _ _ _ _ HI2 ltac:(lia) ltac:(by rewrite Hen)
    ltac:(by rewrite Hmn) Hsd Hrun) as (hit & [-> |[? _]] & [(a' & Hs & _)|[? _]]); try done.
  exists (spec_version a2 (q_entity q) (q_machine q)). split; [lia|]. cbn.
  assert (¬ version_ok a2 q') as Hno.
  { intros Hok. specialize (Hok _ Hv'). rewrite Hen, Hmn in Hok. lia. }
  unfold spec_hit in Hs. rewrite Hk' in Hs. cbn in Hs.
  inversion Hs; subst; try (by destruct Hno); try (by destruct Hno; apply H);
    [rewrite Hmn in *; congruence|]. rewrite Hen, Hmn in *. congruence.
Qed.

(** Where an entity stands, from what [current] answers: at the state and version
    of its projection, or, before its first transition, at the initial state
    and version 0. *)
Definition standing (def : MachineDefinition) (r : Res EntityState EngineError) : string * Version :=
  match r with
  | Ok s => (es_current_state s, es_version s)
  | Err _ => (md_initial_state def, 0%N)
  end.

(** A well-formed definition has at most one rule for an event in a state, so
    the planner finds it. *)
Lemma plan_the_rule def cs ev en rule :
  well_formed def → rule ∈ md_transitions def → rule_event rule = ev → cs ∈ rule_from_states rule →
  FsmPlanner.plan_transition def cs ev en = Ok rule.
Proof. intros Hwf ???. by apply (plan_transition_table def cs ev en Hwf). Qed.

Lemma get_machine_fit defs n reg e a name def :
  inv_at true defs n reg e a → (get_machine name e).1 = Ok def →
  a_machines a !! name = Some def ∧ well_formed def.
Proof.
  intros HI. unfold get_machine, storage. destruct (s_get_machine _ _ _) as [r0 d] eqn:Hg.
  destruct (read_mode _ _ true _ a r0 d (get_machine_ok _ _) (i_holds _ _ _ _ _ _ HI)
    (i_fit _ _ _ _ _ _ HI) Hg) as (_ & _ & [-> |[? _]]); [|done].
  destruct (a_machines a !! name) as [def0|] eqn:Hm; [|done]. intros [= ->]. split; [done|].
  destruct (c_machines _ _ (i_consistent _ _ _ _ _ _ HI) _ _ Hm) as (? & _ & Hwf & _ & ->).
  by apply canon_well_formed.
Qed.

Lemma check_idempotency_fit defs n reg e a key hit :
  inv_at true defs n reg e a → (s_check_idempotency key (e_storage e)).1 = Ok hit →
  find_idem (a_log a) key = hit.
Proof.
  intros HI. destruct (s_check_idempotency key (e_storage e)) as [r0 d] eqn:Hg.
  destruct (read_mode _ _ true _ a r0 d (check_idempotency_ok _) (i_holds _ _ _ _ _ _ HI)
    (i_fit _ _ _ _ _ _ HI) Hg) as (_ & _ & [-> |[? _]]); [|done]. by intros [= ->].
Qed.

(** C26. A legal request is carried out, an entity's first one included: on a
    store without faults, if the machine is defined and has a rule for the event
    from where the entity stands (its projection, or the initial state at
    version 0), every guard of the rule that is registered says yes there
    (whatever the two timestamps it is shown), the expected version, if any, is
    the entity's, and the idempotency key, if any, is not in the store, then
    the transition succeeds, reports the two states and the next version, and
    [current] shows the target state and that version afterwards. *)
Theorem legal_transition_succeeds defs n reg e q def rule from version :
  reachable true defs n reg e → (N.of_nat (S n) < u64_max)%N →
  nul_free (q_entity q) = true → nul_free (q_machine q) = true → e_shutdown e = false →
  (get_machine (q_machine q) e).1 = Ok def →
  standing def (current (q_entity q) (q_machine q) e).1 = (from, version) →
  rule ∈ md_transitions def → rule_event rule = q_event q → from ∈ rule_from_states rule →
  (∀ g f updated created, g ∈ rule_guards rule → e_guards e !! g = Some f →
     f {| es_entity_id := q_entity q; es_machine := q_machine q; es_current_state := from;
          es_version := version; es_updated_at := updated; es_created_at := created |} (q_ctx q) = true) →
  (∀ k, q_key q = Some k → (s_check_idempotency k (e_storage e)).1 = Ok None) →
  (∀ x, q_expected q = Some x → x = version) →
  ∃ res e' s, do_transition q e = (Ok res, e')
    ∧ tr_from_state res = from ∧ tr_to_state res = rule_to_state rule
    ∧ tr_version res = (version + 1)%N
    ∧ (current (q_entity q) (q_machine q) e').1 = Ok s
    ∧ es_current_state s = rule_to_state rule ∧ es_version s = (version + 1)%N.
Proof.
  intros Hreach Hn He Hm Hsd Hdef Hcur Hr Hev Hfrom Hguard Hk Hexp.
  destruct (inv_reachable _ _ _ _ _ Hreach ltac:(lia)) as [a HI].
  destruct (get_machine_fit _ _ _ _ _ _ _ HI Hdef) as [Hmach Hwf].
  destruct (current_fit _ _ _ _ _ (q_entity q) (q_machine q) HI He Hm) as (e1 & Hc & _).
  assert (spec_current a def (q_entity q) (q_machine q) = from
          ∧ spec_version a (q_entity q) (q_machine q) = version) as [Hsc Hsv].
  { rewrite Hc in Hcur. unfold spec_current, spec_version.
    destruct (a_states a !! (q_entity q, q_machine q)); by injection Hcur. }
  pose proof (plan_the_rule def from _ (q_entity q) rule Hwf Hr Hev Hfrom) as Hplan.
  rewrite <- Hsc in Hplan.
  assert (∀ k, q_key q = Some k → find_idem (a_log a) k = None) as Hnone
    by (intros; eapply check_idempotency_fit; eauto).
  assert (spec_hit a q = None) as Hhit.
  { unfold spec_hit. destruct (q_key q) as [k|] eqn:Ek; [by apply Hnone|done]. }
  destruct (do_transition q e) as [r e'] eqn:Hrun. pose proof Hrun as Hstep.
  destruct (inv_spec_step _ _ _ _ _ _ _ _ _ HI ltac:(lia) He Hm Hsd Hstep)
    as (hit & [-> |[? _]] & [(a' & Hs & HI' & _)|[? _]]); try done.
  rewrite Hhit in Hs.
  assert (∀ def0 rule0, planned a q def0 rule0 → def0 = def ∧ rule0 = rule) as Hone
    by (intros; by eapply planned_unique).
  inversion Hs; subst; try congruence.
  - by destruct (Hexp x).
  - destruct (Hone _ _ ltac:(eassumption)) as [-> ->]. by rewrite guards_pass_registered in * by eauto.
  - match goal with Hu : idem_used _ _ = true |- _ => apply find_idem_used in Hu as [? Hu] end.
    by rewrite Hnone in *.
  - destruct (Hone _ _ ltac:(eassumption)) as [-> ->].
    destruct (current_fit _ _ _ _ _ (q_entity q) (q_machine q) HI' He Hm) as (e2 & Hc2 & _).
    eexists _, e', (commit_state a q rule now). split; [done|]. rewrite Hc2. cbn.
    by rewrite lookup_insert_eq.
Qed.

(** The change stream is in order, gap-free and without repetition, whatever
    the interleaving of commits, dispatch passes, storage failures, other
    subscriptions and dropped receivers: at any time, a channel subscribed after
    sequence [start] was given exactly one change record for each record of the
    filtered machine at the log positions [start + 1 .. cursor], in log order,
    for some cursor (a storage failure while the effects of a record are read
    can lose the effects, not the record). *)
Theorem stream_in_order b defs n reg e i c f start :
  reachable b defs n reg e → (N.of_nat n < u64_max)%N →
  e_channels e !! i = Some c → reg !! i = Some (f, start) → (start < u64_max)%N →
  ∃ a cursor, holds (e_storage e) a
    ∧ Forall2 (delivered_as b a) (wanted f (slice start cursor (a_log a))) (sent c).
Proof.
  intros Hreach Hn Hc Hr Hs. destruct (inv_reachable _ _ _ _ _ Hreach Hn) as [a HI].
  destruct (st_chan _ _ _ _ _ (i_streams _ _ _ _ _ _ HI) i c f start Hc Hr Hs) as (cursor & _ & _ & HF).
  exists a, cursor. split; [apply HI|done].
Qed.

(** C28. A dispatch round ends: with any fuel beyond the number of steps taken so
    far (which bounds the length of the log) the loops return, and more fuel
    gives the same result; this holds for every subscription cursor and every
    storage failure. *)
Theorem dispatch_terminates b defs n reg e :
  reachable b defs n reg e → (N.of_nat n < u64_max)%N →
  ∃ x, ∀ fuel, n < fuel → dispatch fuel e = Some x.
Proof.
  intros Hreach Hn. destruct (inv_reachable _ _ _ _ _ Hreach Hn) as [a HI].
  destruct (dispatch_pass_run b defs n reg e a (S n) HI Hn ltac:(lia))
    as (count & subs & dead & e' & Hd & _).
  assert (is_Some (dispatch (S n) e)) as [x Hx].
  { unfold dispatch. rewrite Hd. destruct (s_get_pending_effects _ _) as [[|] ?]; eauto. }
  exists x. intros fuel Hfuel. eapply dispatch_mono; [exact Hx|lia].
Qed.

(** No subscriber with the identifier of [s] has lost its receiver. *)
Definition unshared (e : Engine) (s : Subscriber) : Prop :=
  ∀ s' c', s' ∈ e_subscribers e → sub_id s' = sub_id s →
    e_channels e !! sub_sender s' = Some c' → is_open c'.

(** [s] is subscribed, on the same channel. *)
Definition still_subscribed (e' : Engine) (s : Subscriber) : Prop :=
  ∃ s', s' ∈ e_subscribers e' ∧ sub_id s' = sub_id s ∧ sub_sender s' = sub_sender s.

(** After a pass on a store without faults every subscriber with a live receiver
    was given everything after its start. *)
Lemma pass_complete defs n reg e a fuel s c f start :
  inv_at true defs n reg e a → (N.of_nat n < u64_max)%N → n < fuel →
  s ∈ e_subscribers e → e_channels e !! sub_sender s = Some c → is_open c →
  reg !! sub_sender s = Some (f, start) → (start < u64_max)%N →
  ∃ count e' c', dispatch_pass fuel e = Some (count, e')
    ∧ inv_at true defs n reg e' a ∧ e_channels e' !! sub_sender s = Some c'
    ∧ Forall2 (delivered_as true a) (wanted f (drop (N.to_nat start) (a_log a))) (sent c')
    ∧ (unshared e s → still_subscribed e' s).
Proof.
  intros HI Hn Hfuel Hs Hc Ho Hr Hst.
  destruct (dispatch_pass_run true defs n reg e a fuel HI Hn Hfuel)
    as (count & subs & dead & e' & Hd & HF & Hsubs & Hdead & HI').
  pose proof Hs as [j Hj]%list_elem_of_lookup.
  destruct (Forall2_lookup_l _ _ _ _ _ HF Hj) as (s' & Hs'%list_elem_of_lookup_2 & [Hid Hfil Hsnd Hsv]).
  destruct (st_sub _ _ _ _ _ (i_streams _ _ _ _ _ _ HI) s Hs) as (c0 & start0 & Hc0 & Hr0 & Hat).
  destruct Hsv as (c1 & c' & rs1 & rs2 & l & Hc1 & Hc' & Hsplit & Hsent & HFl & _ & Hcur).
  assert (c0 = c ∧ c1 = c ∧ start0 = start ∧ sub_machine_filter s = f) as (-> & -> & -> & Hf)
    by (split_and!; congruence).
  destruct Hcur as [[_ ?]|[_ Hall]]; [done|]. rewrite (Hall eq_refl), app_nil_r in Hsplit. clear Hall.
  exists count, e', c'. split_and!; try done.
  - destruct (Hat Hst) as (Hle & Hcu & HFs). pose proof (i_count _ _ _ _ _ _ HI) as Hcnt.
    rewrite (log_after_small _ (aw_seq _ (holds_wf _ _ (i_holds _ _ _ _ _ _ HI)))) in Hsplit
      by (destruct Hcu; lia).
    replace (drop (N.to_nat start) (a_log a))
      with (slice start (sub_delivered_through s) (a_log a) ++ rs1).
    { rewrite Hsent, wanted_app, <- Hf. by apply Forall2_app. }
    rewrite <- Hsplit. unfold slice.
    rewrite <- (take_drop (N.to_nat (sub_delivered_through s) - N.to_nat start)
                  (drop (N.to_nat start) (a_log a))) at 2.
    f_equal. rewrite drop_drop. f_equal. lia.
  - intros Halive. exists s'. split_and!; [|done|done]. rewrite Hsubs. apply list_elem_of_filter.
    split; [|done]. rewrite Hid. intros (s0 & c0 & Hs0 & Hid0 & Hc0' & Hno)%Hdead. by apply Hno, (Halive s0).
Qed.

(** A dispatch pass completes the streams: on a store without faults, after
    the pass every subscriber with a live receiver, whose identifier it does not
    share with a subscriber whose receiver is gone, is still subscribed and was
    given everything after its start: one change record with its effects for
    each wanted record of the log. *)
Theorem dispatch_pass_complete defs n reg e fuel s c f start :
  reachable true defs n reg e → (N.of_nat n < u64_max)%N → n < fuel →
  s ∈ e_subscribers e → e_channels e !! sub_sender s = Some c →
  reg !! sub_sender s = Some (f, start) → (start < u64_max)%N →
  (∀ s' c', s' ∈ e_subscribers e → sub_id s' = sub_id s →
     e_channels e !! sub_sender s' = Some c' → is_open c') →
  ∃ count e' a s' c', dispatch_pass fuel e = Some (count, e')
    ∧ holds (e_storage e') a ∧ s' ∈ e_subscribers e' ∧ sub_id s' = sub_id s
    ∧ sub_sender s' = sub_sender s ∧ e_channels e' !! sub_sender s = Some c'
    ∧ Forall2 (delivered_as true a) (wanted f (drop (N.to_nat start) (a_log a))) (sent c').
Proof.
  intros Hreach Hn Hfuel Hs Hc Hr Hst Halive.
  destruct (inv_reachable _ _ _ _ _ Hreach Hn) as [a HI].
  assert (is_open c) as Ho by by eapply (Halive s).
  destruct (pass_complete defs n reg e a fuel s c f start HI Hn Hfuel Hs Hc Ho Hr Hst)
    as (count & e' & c' & ? & HI' & ? & ? & Hsub). destruct (Hsub Halive) as (s' & ? & ? & ?).
  exists count, e', a, s', c'. split_and!; try done. apply HI'.
Qed.

(** The same for a round, which then marks effects. *)
Lemma round_complete defs n reg e a s c f start :
  inv_at true defs n reg e a → (N.of_nat n < u64_max)%N →
  s ∈ e_subscribers e → e_channels e !! sub_sender s = Some c → is_open c →
  reg !! sub_sender s = Some (f, start) → (start < u64_max)%N →
  ∃ count e' a' c', dispatch (S n) e = Some (count, e')
    ∧ inv_at true defs n reg e' a' ∧ a_log a' = a_log a ∧ e_channels e' !! sub_sender s = Some c'
    ∧ Forall2 (delivered_as true a') (wanted f (drop (N.to_nat start) (a_log a'))) (sent c')
    ∧ (unshared e s → still_subscribed e' s).
Proof.
  intros HI Hn Hs Hc Ho Hr Hst.
  destruct (pass_complete defs n reg e a (S n) s c f start HI Hn ltac:(lia) Hs Hc Ho Hr Hst)
    as (count & e1 & c' & Hp & HI1 & Hc' & HF & Hsub).
  destruct (s_get_pending_effects 256 (e_storage e1)) as [r d] eqn:Hg.
  destruct (inv_publish _ _ _ _ _ _ _ _ HI1 Hg) as (a' & HI' & HSt).
  eexists count, _, a', c'. split_and!; [|exact HI'|apply HSt|done| |exact Hsub].
  - unfold dispatch. rewrite Hp, Hg. by destruct r.
  - rewrite (so_log _ _ HSt). eapply Forall2_impl; [by eapply Forall2_and_elem|].
    intros rec x (Hin%wanted_elem & _ & Hx). eapply delivered_as_extends; [by apply status_only_extends| |done].
    apply list_elem_of_lookup in Hin as [j Hj]. rewrite lookup_drop in Hj. by eapply list_elem_of_lookup_2.
Qed.

(** The outbox drains: on a store without faults with at most 256 pending
    effects, one dispatcher round leaves none pending. *)
Theorem dispatch_drains_outbox defs n reg e fuel count e' l limit :
  reachable true defs n reg e → (N.of_nat n < u64_max)%N →
  dispatch fuel e = Some (count, e') →
  (s_get_pending_effects 257 (e_storage e)).1 = Ok l → length l <= 256 →
  (s_get_pending_effects limit (e_storage e')).1 = Ok [].
Proof.
  intros Hreach Hn Hd Hl Hlen. destruct (inv_reachable _ _ _ _ _ Hreach Hn) as [a HI].
  apply (dispatch_mono _ (fuel + S n)) in Hd; [|lia]. unfold dispatch in Hd.
  destruct (dispatch_pass_run true defs n reg e a (fuel + S n) HI Hn ltac:(lia))
    as (c1 & subs & dead & e1 & Hp & _ & _ & _ & HI1). rewrite Hp in Hd.
  destruct (s_get_pending_effects 257 (e_storage e)) as [r0 d0] eqn:Hg0. cbn in Hl. subst r0.
  destruct (returns_mode _ _ true _ a _ d0 (get_pending_ok 257) (i_holds _ _ _ _ _ _ HI)
    (i_fit _ _ _ _ _ _ HI) Hg0) as (_ & _ & [(? & [= <-] & l' & -> & HS & Hl')|[? _]]); [|done].
  destruct (s_get_pending_effects 256 (e_storage e1)) as [r1 d1] eqn:Hg1.
  destruct (returns_mode _ _ true _ a _ d1 (get_pending_ok 256) (i_holds _ _ _ _ _ _ HI1)
    (i_fit _ _ _ _ _ _ HI1) Hg1) as (Hh1 & Hb1 & [(l1 & -> & l1' & -> & HS1 & Hl1')|[? _]]); [|done].
  assert (l1' = l') as ->.
  { apply (strictly_sorted_unique eff_lt); [by intros x [_ ?]| |done|done|].
    - intros x y z [H1 N1] [H2 N2]. split; [by etrans|]. intros E. apply N1.
      apply (anti_symm String.le); [done|]. by rewrite E.
    - intros x. by rewrite Hl1', Hl'. }
  rewrite length_take in Hlen.
  assert (take (N.to_nat 256) l' = l') as Ht by (apply take_ge; lia). rewrite Ht in Hd.
  injection Hd as <- <-.
  destruct (publish_effects_fit a l' d1 Hh1 (Hb1 eq_refl)) as (a' & Hh' & Hb' & _ & Ho).
  cbn [e_storage set_storage].
  destruct (s_get_pending_effects limit (publish_effects l' d1)) as [r2 d2] eqn:Hg2.
  destruct (returns_mode _ _ true _ a' _ d2 (get_pending_ok limit) Hh' (λ _, Hb') Hg2)
    as (_ & _ & [(l2 & -> & l2' & -> & _ & Hl2)|[? _]]); [|done].
  cbn. f_equal. assert (l2' = []) as ->; [|by rewrite take_nil].
  destruct l2' as [|x l2']; [done|]. exfalso.
  destruct (proj1 (Hl2 x) ltac:(constructor)) as [Hx Hpend]. rewrite Ho in Hx. case_decide as Hin.
  - destruct (a_outbox a !! eff_id x); [|done]. injection Hx as Hx. by rewrite <- Hx in Hpend.
  - apply Hin. apply list_elem_of_fmap. exists x. split; [done|]. by apply Hl'.
Qed.

End properties.

(** ** Failure atomicity on the redb store *)

Section atomic.
Context {R : Redb} {C : Codecs} {T : RedbTx Tables} {TO : RedbTxOk T}.
Context {MP : Mpsc ChangeRecord} {EN : Env}.

Implicit Types (e : Engine (SE := redb_storage)).

(** Computations that never touch the committed tables, and those that do not
    when they return an error. *)
Definition keeps {A} (m : St (Engine (SE := redb_storage)) EngineError A) : Prop :=
  ∀ e r e', m e = (r, e') → snapshot (e_storage e') = snapshot (e_storage e).
Definition err_keeps {A} (m : St (Engine (SE := redb_storage)) EngineError A) : Prop :=
  ∀ e err e', m e = (Err err, e') → snapshot (e_storage e') = snapshot (e_storage e).

Lemma keeps_err {A} (m : St _ EngineError A) : keeps m → err_keeps m.
Proof. intros Hm e err e'. apply Hm. Qed.

Lemma keeps_bind {A B} (m : St _ EngineError A) (k : A → St _ EngineError B) :
  keeps m → (∀ x, keeps (k x)) → keeps (st_bind m k).
Proof.
  intros Hm Hk e r e'. unfold st_bind. destruct (m e) as [[x|err] e1] eqn:H1.
  - intros H2. by rewrite (Hk x _ _ _ H2), (Hm _ _ _ H1).
  - intros [= <- <-]. by apply Hm in H1.
Qed.

Lemma err_keeps_bind {A B} (m : St _ EngineError A) (k : A → St _ EngineError B) :
  keeps m → (∀ x, err_keeps (k x)) → err_keeps (st_bind m k).
Proof.
  intros Hm Hk e r e'. unfold st_bind. destruct (m e) as [[x|err] e1] eqn:H1.
  - intros H2. by rewrite (Hk x _ _ _ H2), (Hm _ _ _ H1).
  - intros [= <- <-]. by apply Hm in H1.
Qed.

Lemma keeps_pure {A} (f : Engine → Res A EngineError) (g : Engine → Engine) :
  (∀ e, e_storage (g e) = e_storage e) → keeps (λ e, (f e, g e)).
Proof. intros Hg e r e' [= <- <-]. by rewrite Hg. Qed.

Lemma keeps_ret {A} (x : A) : keeps (st_ret x).
Proof. by apply (keeps_pure (λ _, Ok x) id). Qed.
Lemma keeps_fail {A} err : keeps (st_err (A:=A) err).
Proof. by apply (keeps_pure (λ _, Err err) id). Qed.
Lemma keeps_core {A} (r : Res A CoreError) : keeps (core r).
Proof. by apply (keeps_pure (λ _, map_err ECore r) id). Qed.
Lemma keeps_gets {A} (f : Engine → A) : keeps (gets f).
Proof. by apply (keeps_pure (λ e, Ok (f e)) id). Qed.
Lemma keeps_now : keeps now.
Proof. intros e r e' [= <- <-]. done. Qed.
Lemma keeps_uuid : keeps uuid.
Proof. intros e r e' [= <- <-]. done. Qed.

Lemma keeps_try {A} (op : St (db T) StorageError A) op0 :
  Refines op op0 → ReadOnly op0 → keeps (try_storage (SE := redb_storage) op).
Proof.
  intros HR Hro e r e'. unfold try_storage.
  destruct (op (e_storage e)) as [r0 d] eqn:Hop. intros [= <- <-].
  by eapply refines_ro_snapshot.
Qed.
Lemma keeps_storage {A} (op : St (db T) StorageError A) op0 :
  Refines op op0 → ReadOnly op0 → keeps (storage (SE := redb_storage) op).
Proof.
  intros HR Hro e r e'. unfold storage.
  destruct (op (e_storage e)) as [r0 d] eqn:Hop. intros [= <- <-].
  by eapply refines_ro_snapshot.
Qed.

Lemma keeps_get_machine name v : keeps (storage (SE := redb_storage) (s_get_machine name v)).
Proof. eapply keeps_storage; [apply get_machine_refines|apply get_machine_ro]. Qed.

Create HintDb keeps.
Hint Resolve keeps_ret keeps_fail keeps_core keeps_gets keeps_now keeps_uuid keeps_get_machine
  keeps_err : keeps.
(** Go through a handler call by call. *)
Ltac keeps_step :=
  lazymatch goal with
  | |- keeps (st_bind _ _) => apply keeps_bind; [solve [eauto with keeps]|intros ?]
  | |- err_keeps (st_bind _ _) => apply err_keeps_bind; [solve [eauto with keeps]|intros ?]
  | |- err_keeps (let '_ := ?p in _) => destruct p
  | |- context [match ?x with _ => _ end] => destruct x
  | |- _ => solve [eauto with keeps]
  end.

Lemma keeps_new_effects tid rules : keeps (new_effects tid rules).
Proof.
  induction rules as [|er rules IH]; cbn [new_effects]; repeat keeps_step.
Qed.

Hint Resolve keeps_new_effects : keeps.

Lemma keeps_lookup key : keeps (lookup_idempotency key).
Proof.
  destruct key as [k|]; cbn; [|apply keeps_ret]. apply keeps_bind; [|intros; apply keeps_ret].
  eapply keeps_try; [apply check_idempotency_refines|apply check_idempotency_ro].
Qed.

Lemma keeps_load def now0 en m : keeps (load_current def now0 en m).
Proof.
  unfold load_current. apply keeps_bind.
  - eapply keeps_try; [apply get_entity_state_refines|apply get_entity_state_ro].
  - intros [s|[]]; first [apply keeps_ret|apply keeps_fail].
Qed.

Lemma err_keeps_commit def rule en m ev actor ctx key cs cv created now0 :
  err_keeps (commit_transition def rule en m ev actor ctx key cs cv created now0).
Proof.
  unfold commit_transition. do 3 keeps_step.
  intros e err e'. unfold st_bind, storage, modify, st_ret.
  destruct (s_execute_transition _ _ _ _) as [[p|err0] d] eqn:Hex; cbn; [done|].
  intros [= <- <-]. exact (execute_transition_err_snapshot _ _ _ _ _ _ Hex).
Qed.

Hint Resolve keeps_lookup keeps_load err_keeps_commit : keeps.

(** C27. Failure atomicity of the whole handler, whatever the storage failures and
    with nothing assumed of the stored data: a transition that returns an error
    leaves the committed tables exactly as they were. *)
Theorem transition_error_atomic (q : Request) (e : Engine (SE := redb_storage)) err e' :
  do_transition q e = (Err err, e') → snapshot (e_storage e') = snapshot (e_storage e).
Proof.
  revert e err e'. change (err_keeps (do_transition q)). unfold do_transition, transition.
  repeat keeps_step.
Qed.

End atomic.
