(* ===== verification/EngineExamples.v ===== *)
(** * The engine's properties at work

    A document that is submitted, retried and published, on the instances of
    [Concrete]: each property of [EngineProps] is applied to a concrete run. *)
From S2P Require Import Prelude Core Redb Keys Storage StorageSpec StorageReads StorageTrait.
From S2P Require Import Channel Engine EngineSpec EngineRun Dispatch System Concrete EngineProps.
Import Demo.

(** ** A run *)

Definition only_document (d : MachineDefinition) : Prop := d = document.

Definition req (event : string) (expected : option N) (key : option string) : Request :=
  {| q_entity := "doc-1"; q_machine := "document"; q_event := event; q_actor := "ann";
     q_ctx := VNull; q_expected := expected; q_key := key |}.

(** An engine on a database with a schedule of faults, with the machine defined. *)
Definition start (faults : list (option string)) : Engine :=
  new (demo_db faults : store) 0 0.
Definition run0 (faults : list (option string)) : Engine :=
  (define_machine document (start faults)).2.
(** A subscription from the start, one committed transition. *)
Definition run1 : Engine := (subscribe "s" None 0 (run0 [])).2.
Definition run2 : Engine := (do_transition (req "submit" (Some 0%N) (Some "k")) run1).2.

Lemma run0_reach b faults : (b = true → faults = []) → reachable b only_document 1 [] (run0 faults).
Proof.
  intros Hb. eapply reach_step.
  - apply reach_init; [apply demo_holds|]. intros ->. rewrite Hb by done. apply demo_fit.
  - apply (sys_define _ _ _ document
      (define_machine document (start faults)).1); [done|].
    apply surjective_pairing.
Qed.

Lemma run1_reach : reachable true only_document 2 [(None, 0%N)] run1.
Proof.
  eapply reach_step; [by apply run0_reach|]. apply (sys_subscribe _ [] _ "s" None 0%N).
Qed.

Lemma run2_reach : reachable true only_document 3 [(None, 0%N)] run2.
Proof.
  eapply reach_step; [apply run1_reach|].
  apply (sys_transition _ _ _ (req "submit" (Some 0%N) (Some "k"))
           (do_transition (req "submit" (Some 0%N) (Some "k")) run1).1);
    [reflexivity|reflexivity|apply surjective_pairing].
Qed.

(** ** Witnesses *)

Lemma transition_refines_spec_witness :
  (do_transition (req "publish" None None) run2).1
  = Ok {| tr_entity_id := "doc-1"; tr_machine := "document"; tr_from_state := "review";
          tr_to_state := "published"; tr_version := 2; tr_transition_id := "2";
          tr_sequence := 2; tr_timestamp := 8 |}
  ∧ ∃ a a', holds (e_storage run2) a
    ∧ spec_step (e_guards run2) a (req "publish" None None) (spec_hit a (req "publish" None None))
        (do_transition (req "publish" None None) run2).1 a'
    ∧ holds (e_storage (do_transition (req "publish" None None) run2).2) a'
    ∧ consistent only_document a'.
Proof.
  split; [vm_compute; reflexivity|].
  apply (transition_refines_spec only_document 3 [(None, 0%N)] run2 (req "publish" None None));
    [apply run2_reach|reflexivity|reflexivity|reflexivity|vm_compute; reflexivity|
     apply surjective_pairing].
Defined.

Lemma history_lifecycle_witness :
  ∃ h e', history "doc-1" "document" None None run2 = (Ok h, e') ∧ versioned h ∧ linked h
    ∧ StronglySorted seq_lt h
    ∧ (∀ rec, rec ∈ h → rec_entity_id rec = "doc-1" ∧ rec_machine rec = "document"
         ∧ ∃ def, only_document def ∧ well_formed def ∧ edge_of def rec)
    ∧ match last h with
      | None => ∃ why, (current "doc-1" "document" e').1 = Err (EStorage (NotFound why))
      | Some rec => ∃ s, (current "doc-1" "document" e').1 = Ok s
          ∧ es_current_state s = rec_to_state rec ∧ es_version s = N.of_nat (length h)
      end.
Proof.
  apply (history_lifecycle only_document 3 [(None, 0%N)] run2 "doc-1" "document");
    [apply run2_reach|done..].
Defined.

Lemma run2_later :
  later only_document 1 [(None, 0%N)] run2 [(None, 0%N)]
    (do_transition (req "publish" None None) run2).2.
Proof.
  eapply later_step; [apply later_refl|].
  apply (sys_transition _ _ _ (req "publish" None None)
           (do_transition (req "publish" None None) run2).1);
    [reflexivity|reflexivity|apply surjective_pairing].
Qed.

Lemma history_append_only_witness :
  ∃ h l, (history "doc-1" "document" None None run2).1 = Ok h
    ∧ (history "doc-1" "document" None None (do_transition (req "publish" None None) run2).2).1
      = Ok (h ++ l).
Proof.
  apply (history_append_only only_document 3 1 [(None, 0%N)] run2 [(None, 0%N)]
           (do_transition (req "publish" None None) run2).2 "doc-1" "document");
    [apply run2_reach|apply run2_later|done..].
Defined.

Lemma idempotency_key_once_witness :
  (do_transition (req "submit" None (Some "k")) run2).1
  = (do_transition (req "submit" (Some 0%N) (Some "k")) run1).1
  ∧ ∃ a, holds (e_storage run2) a
    ∧ holds (e_storage (do_transition (req "submit" None (Some "k")) run2).2) a.
Proof.
  destruct (do_transition (req "submit" (Some 0%N) (Some "k")) run1) as [[res|err] e1] eqn:H1.
  2: { exfalso. apply (f_equal fst) in H1. vm_compute in H1. discriminate. }
  destruct (do_transition (req "submit" None (Some "k")) run2) as [[res'|err] e3] eqn:H3.
  2: { exfalso. apply (f_equal fst) in H3. vm_compute in H3. discriminate. }
  assert (run2 = e1) as He1 by (unfold run2; by rewrite H1).
  destruct (idempotency_key_once only_document 2 0 [(None, 0%N)] run1
    (req "submit" (Some 0%N) (Some "k")) res e1 [(None, 0%N)] run2
    (req "submit" None (Some "k")) res' e3 "k") as [-> Ha];
    try reflexivity; try assumption.
  - eapply reachable_weaken, run1_reach.
  - rewrite He1. apply later_refl.
  - split; [reflexivity|exact Ha].
Defined.

(** The second request is for another event. *)
Lemma idempotent_replay_witness :
  ∃ res e3 a, (do_transition (req "submit" (Some 0%N) (Some "k")) run1).1 = Ok res
    ∧ do_transition (req "publish" None (Some "k")) run2 = (Ok res, e3)
    ∧ holds (e_storage run2) a ∧ holds (e_storage e3) a.
Proof.
  destruct (do_transition (req "submit" (Some 0%N) (Some "k")) run1) as [[res|err] e1] eqn:H1.
  2: { exfalso. apply (f_equal fst) in H1. vm_compute in H1. discriminate. }
  exists res.
  destruct (idempotent_replay only_document 2 0 [(None, 0%N)] run1
    (req "submit" (Some 0%N) (Some "k")) res e1 [(None, 0%N)] run2
    (req "publish" None (Some "k")) "k") as (e3 & a & H2 & H3); try reflexivity; try assumption.
  - apply run1_reach.
  - unfold run2. rewrite H1. apply later_refl.
  - exists e3, a. split; [reflexivity|split; [exact H2|exact H3]].
Defined.

Lemma version_check_exclusive_witness :
  ∃ actual, (0 < actual)%N
    ∧ (do_transition (req "submit" (Some 0%N) None)
         (do_transition (req "submit" (Some 0%N) None) run1).2).1
      = Err (ECore (VersionConflict "doc-1" "document" 0 actual)).
Proof.
  destruct (do_transition (req "submit" (Some 0%N) None) run1) as [[res|err] e1] eqn:H1.
  2: { exfalso. apply (f_equal fst) in H1. vm_compute in H1. discriminate. }
  assert (e1 = (do_transition (req "submit" (Some 0%N) None) run1).2) as He1 by by rewrite H1.
  apply (version_check_exclusive only_document 2 0 [(None, 0%N)] run1
    (req "submit" (Some 0%N) None) res e1 [(None, 0%N)] e1 (req "submit" (Some 0%N) None) 0%N);
    try reflexivity; try assumption.
  - apply run1_reach.
  - apply later_refl.
  - rewrite He1. vm_compute. reflexivity.
Defined.

(** The first transition of an entity, with a key and an expected version. *)
Lemma legal_transition_succeeds_witness :
  ∃ res e' s, do_transition (req "submit" (Some 0%N) (Some "k")) run1 = (Ok res, e')
    ∧ tr_from_state res = "draft" ∧ tr_to_state res = "review" ∧ tr_version res = 1%N
    ∧ (current "doc-1" "document" e').1 = Ok s
    ∧ es_current_state s = "review" ∧ es_version s = 1%N.
Proof.
  apply (legal_transition_succeeds only_document 2 [(None, 0%N)] run1
    (req "submit" (Some 0%N) (Some "k")) document
    {| rule_event := "submit"; rule_from_states := ["draft"]; rule_to_state := "review";
       rule_guards := ["has_title"] |} "draft" 0%N).
  - apply run1_reach.
  - reflexivity.
  - reflexivity.
  - reflexivity.
  - vm_compute. reflexivity.
  - vm_compute. reflexivity.
  - vm_compute. reflexivity.
  - vm_compute. constructor.
  - reflexivity.
  - vm_compute. constructor.
  - intros g f ? ? ->%list_elem_of_singleton Hf. vm_compute in Hf. discriminate.
  - intros k [= <-]. vm_compute. reflexivity.
  - by intros x [= <-].
Defined.

Definition run3 : Engine :=
  match dispatch 10 run2 with Some (_, e) => e | None => run2 end.

Lemma run3_reach : reachable true only_document 4 [(None, 0%N)] run3.
Proof.
  eapply reach_step; [apply run2_reach|]. unfold run3.
  destruct (dispatch 10 run2) as [[n e]|] eqn:Hd; [by eapply sys_dispatch|].
  exfalso. apply (f_equal (fmap fst)) in Hd. vm_compute in Hd. discriminate.
Qed.

Lemma stream_in_order_witness :
  ∃ c a cursor, e_channels run3 !! 0 = Some c ∧ holds (e_storage run3) a
    ∧ Forall2 (delivered_as true a) (wanted None (slice 0 cursor (a_log a))) (sent c)
    ∧ length (sent c) = 1.
Proof.
  destruct (e_channels run3 !! 0) as [c|] eqn:Hc; [|exfalso; revert Hc; vm_compute; discriminate].
  destruct (stream_in_order true only_document 4 [(None, 0%N)] run3 0 c None 0%N)
    as (a & cursor & Ha & HF); try reflexivity; [apply run3_reach|assumption|].
  exists c, a, cursor. split; [reflexivity|]. split; [exact Ha|]. split; [exact HF|].
  revert Hc. vm_compute. by intros [= <-].
Defined.

Lemma dispatch_terminates_witness :
  ∃ x, ∀ fuel, 3 < fuel → dispatch fuel run2 = Some x.
Proof.
  apply (dispatch_terminates true only_document 3 [(None, 0%N)] run2); [apply run2_reach|reflexivity].
Defined.

Lemma dispatch_pass_complete_witness :
  ∃ count e' a s' c', dispatch_pass 10 run2 = Some (count, e')
    ∧ holds (e_storage e') a ∧ s' ∈ e_subscribers e' ∧ sub_id s' = "s"
    ∧ sub_sender s' = 0 ∧ e_channels e' !! 0 = Some c'
    ∧ Forall2 (delivered_as true a) (wanted None (drop 0 (a_log a))) (sent c').
Proof.
  apply (dispatch_pass_complete only_document 3 [(None, 0%N)] run2 10
    {| sub_id := "s"; sub_machine_filter := None; sub_sender := 0; sub_delivered_through := 0 |}
    (true, []) None 0%N); try reflexivity; try lia.
  - apply run2_reach.
  - vm_compute. constructor.
  - intros s' c' Hs' _. assert (e_subscribers run2 =
      [{| sub_id := "s"; sub_machine_filter := None; sub_sender := 0;
          sub_delivered_through := 0 |}]) as Hsubs by (vm_compute; reflexivity).
    rewrite Hsubs in Hs'. apply list_elem_of_singleton in Hs' as ->. vm_compute. by intros [= <-].
Defined.

Lemma dispatch_drains_outbox_witness :
  (s_get_pending_effects 10 (e_storage run3)).1 = Ok [].
Proof.
  destruct (dispatch 10 run2) as [[n e]|] eqn:Hd; [|exfalso; apply (f_equal (fmap fst)) in Hd; vm_compute in Hd; discriminate].
  destruct (s_get_pending_effects 257 (e_storage run2)) as [[l|err] d] eqn:Hl;
    [|exfalso; apply (f_equal fst) in Hl; vm_compute in Hl; discriminate].
  unfold run3. rewrite Hd.
  apply (dispatch_drains_outbox only_document 3 [(None, 0%N)] run2 10 n e l);
    [apply run2_reach|reflexivity|exact Hd|by rewrite Hl|].
  apply (f_equal fst) in Hl. vm_compute in Hl. injection Hl as <-. cbn. lia.
Defined.

(** A fault in the middle of the commit. *)
Definition broken : Engine := run0 (replicate 12 None ++ [Some "disk full"]).

Lemma transition_error_atomic_witness :
  (do_transition (req "submit" None None) broken).1 = Err (EStorage (Internal "disk full"))
  ∧ snapshot (e_storage (do_transition (req "submit" None None) broken).2 : db demo_tx)
    = snapshot (e_storage broken : db demo_tx).
Proof.
  split; [vm_compute; reflexivity|].
  apply (transition_error_atomic (req "submit" None None) broken
           (EStorage (Internal "disk full"))).
  rewrite (surjective_pairing (do_transition _ broken)) at 1. f_equal; vm_compute; reflexivity.
Defined.
