(* ===== verification/Restart.v ===== *)
(** * Restarts

    What survives the end of a process: [RedbEngine::open] on the file that an
    earlier process left (crates/smdb-storage/src/redb_engine.rs) gives a store
    that holds what was committed, so the restarts of [System] are
    those of the redb engine; queries answer as before; and a subscriber that
    comes back with the sequence of the last record it got misses nothing and
    gets nothing twice. *)
From S2P Require Import Prelude Core Redb Keys Storage Atomicity StorageSpec StorageReads StorageTrait.
From S2P Require Import Channel Engine EngineSpec EngineRun Dispatch System Concrete EngineProps EngineExamples.

(** ** Opening a database *)

Section reopening.
Context {R : Redb} {RO : RedbOk R} {C : Codecs} {CO : CodecsOk C} {T : RedbTx Tables} {TO : RedbTxOk T}.

(** Whatever [ensure_tables] returns, the committed tables stay. *)
Lemma ensure_tables_keeps (d : db T) r d' :
  ensure_tables d = (r, d') → snapshot d' = snapshot d.
Proof.
  intros Hr. destruct (refines_run _ _ ensure_tables_refines d r d' Hr) as [Heq|[_ Hs]]; [|done].
  by injection Heq as _ ->.
Qed.

Lemma open_reopened (create : string → Res (db T) string) path d d' :
  create path = Ok d → open create path = Ok d' → reopened (SE := redb_storage) d d'.
Proof.
  unfold open, open_database. intros ->. destruct (ensure_tables d) as [[[]|e] d1] eqn:Hr; [|done].
  intros [= <-]. split.
  - intros a. cbn. unfold redb_holds. by rewrite (ensure_tables_keeps _ _ _ Hr).
  - intros [Hh HE]. split; [|done].
    destruct (refines_healthy _ _ ensure_tables_refines d Hh) as (r & d2 & H2 & _ & ?). congruence.
Qed.

(** A database without faults opens. *)
Lemma open_fit (create : string → Res (db T) string) path d :
  create path = Ok d → fit (StorageOk := redb_storage_ok) d → is_ok (open create path) = true.
Proof.
  unfold open, open_database. intros -> [Hh _].
  destruct (refines_healthy _ _ ensure_tables_refines d Hh) as (r & d2 & -> & Heq & _).
  by injection Heq as -> _.
Qed.

(** The file of a database, opened again if it opens. *)
Definition reopen (d : db T) (path : string) : db T :=
  match open (λ _, Ok d) path with Ok d' => d' | Err _ => d end.

Lemma reopen_reopened (d : db T) path : reopened (SE := redb_storage) d (reopen d path).
Proof.
  unfold reopen. destruct (open (λ _, Ok d) path) as [d'|err] eqn:Ho; [|by split].
  by eapply open_reopened; [|exact Ho].
Qed.

End reopening.

(** ** Queries after a restart *)

Section restart.
Context {SE : StorageEngine} {SO : StorageOk SE} {MP : Mpsc ChangeRecord} {MO : MpscOk ChangeRecord}.
Context {EN : Env} {EO : EnvOk EN}.
Implicit Types (a : Abs) (d : store) (b : bool) (e : Engine) (reg : Registry).

(** Reads of two fit stores that hold the same answer the same. *)
Lemma read_same {A} (op : St store StorageError A) f e e' a :
  Implements holds fit always op (reads f) →
  holds (e_storage e) a → fit (e_storage e) → holds (e_storage e') a → fit (e_storage e') →
  (storage op e).1 = (storage op e').1.
Proof.
  intros Hop Hh Hf Hh' Hf'. unfold storage.
  destruct (op (e_storage e)) as [r d] eqn:H1, (op (e_storage e')) as [r' d'] eqn:H2.
  destruct (read_mode op f true _ a _ _ Hop Hh (λ _, Hf) H1) as (_ & _ & [-> |[? _]]); [|done].
  by destruct (read_mode op f true _ a _ _ Hop Hh' (λ _, Hf') H2) as (_ & _ & [-> |[? _]]).
Qed.

Lemma list_machines_same e e' a :
  holds (e_storage e) a → fit (e_storage e) → holds (e_storage e') a → fit (e_storage e') →
  (list_machines e).1 = (list_machines e').1.
Proof.
  intros Hh Hf Hh' Hf'. unfold list_machines, storage.
  destruct (s_list_machines (e_storage e)) as [r d] eqn:H1,
    (s_list_machines (e_storage e')) as [r' d'] eqn:H2.
  destruct (returns_mode _ _ true _ a _ _ list_machines_ok Hh (λ _, Hf) H1)
    as (_ & _ & [(l & -> & HS & Hl)|[? _]]); [|done].
  destruct (returns_mode _ _ true _ a _ _ list_machines_ok Hh' (λ _, Hf') H2)
    as (_ & _ & [(l' & -> & HS' & Hl')|[? _]]); [|done].
  cbn. do 2 f_equal. apply (strictly_sorted_unique name_lt); [by intros x [_ ?]| |done|done|].
  - intros x y z [L1 N1] [L2 N2]. split; [by etrans|]. intros E. apply N1.
    apply (anti_symm String.le); [done|]. by rewrite E.
  - intros x. by rewrite Hl, Hl'.
Qed.

(** The engine of a new process answers queries as the one before did. *)
Lemma queries_same defs n reg e d clock uuids :
  reachable true defs n reg e → (N.of_nat n < u64_max)%N → reopened (e_storage e) d →
  let e' := new d clock uuids in
  (∀ en m, nul_free en = true → nul_free m = true →
     (current en m e').1 = (current en m e).1
     ∧ ∀ limit after, (history en m limit after e').1 = (history en m limit after e).1)
  ∧ (∀ name, (get_machine name e').1 = (get_machine name e).1)
  ∧ (list_machines e').1 = (list_machines e).1.
Proof.
  intros HR Hn [Hro Hrf] e'. destruct (inv_reachable _ _ _ _ _ HR Hn) as [a HI].
  pose proof (i_holds _ _ _ _ _ _ HI) as Hh. pose proof (i_fit _ _ _ _ _ _ HI eq_refl) as Hf.
  pose proof (Hro a Hh) as Hh'. pose proof (Hrf Hf) as Hf'. split_and!.
  - intros en m He Hm. split; [by eapply read_same; [apply get_entity_state_ok|..]|].
    intros limit after. by eapply read_same; [apply get_history_ok|..].
  - intros name. eapply read_same; [apply get_machine_ok|done..].
  - by eapply list_machines_same.
Qed.

(** ** Resuming a subscription *)

(** The sequence to resubscribe with: the last one received. *)
Definition resume_after (start : Sequence) (got : list ChangeRecord) : Sequence :=
  default start (cr_sequence <$> last got).

(** A prefix of the wanted records that ends with [r] is what is wanted of the
    records up to [r]. *)
Lemma filter_prefix {A} (P : A → bool) (l : list A) k x r :
  take k (List.filter P l) = x ++ [r] →
  ∃ l1 l2, l = l1 ++ r :: l2 ∧ List.filter P (l1 ++ [r]) = x ++ [r].
Proof.
  revert k x. induction l as [|y l IH]; intros k x; cbn [List.filter].
  { rewrite take_nil. by destruct x. }
  destruct (P y) eqn:Hy.
  - destruct k as [|k]; [by destruct x|]. cbn [take]. destruct x as [|z x]; intros [= -> Hx].
    + exists [], l. cbn. by rewrite Hy.
    + destruct (IH k x Hx) as (l1 & l2 & -> & HF). exists (z :: l1), l2. cbn. by rewrite Hy, HF.
  - intros (l1 & l2 & -> & HF)%IH. exists (y :: l1), l2. cbn. by rewrite Hy, HF.
Qed.

Lemma wanted_upto a f (start cursor : Sequence) k x r :
  abs_wf a → take k (wanted f (slice start cursor (a_log a))) = x ++ [r] →
  (start <= rec_sequence r)%N ∧ N.to_nat (rec_sequence r) <= length (a_log a)
  ∧ x ++ [r] = wanted f (slice start (rec_sequence r) (a_log a)).
Proof.
  intros Hwf Hk. apply filter_prefix in Hk as (l1 & l2 & Hl & HF).
  assert (a_log a !! (N.to_nat start + length l1) = Some r) as Hr.
  { rewrite <- lookup_drop. eapply lookup_take_Some. unfold slice in Hl. rewrite Hl.
    by rewrite list_lookup_middle. }
  assert (rec_sequence r = N.of_nat (S (N.to_nat start + length l1))) as Hseq.
  { apply (aw_seq _ Hwf). by apply (proj1 (log_at_lookup _ _ _)). }
  apply lookup_lt_Some in Hr. split_and!; [lia|lia|]. rewrite <- HF. unfold wanted. f_equal.
  unfold slice in *. replace (N.to_nat (rec_sequence r) - N.to_nat start) with (S (length l1)) by lia.
  assert (S (length l1) <= N.to_nat cursor - N.to_nat start) as Hle.
  { apply (f_equal length) in Hl. rewrite length_take, length_app in Hl. cbn in Hl. lia. }
  apply (f_equal (take (S (length l1)))) in Hl. rewrite take_take in Hl.
  rewrite Nat.min_l in Hl by lia. rewrite Hl. change (l1 ++ r :: l2) with (l1 ++ [r] ++ l2).
  rewrite app_assoc, take_app_le by (rewrite length_app; cbn; lia).
  rewrite take_ge by (rewrite length_app; cbn; lia). done.
Qed.

Lemma slice_join s m c (log : list TransitionRecord) :
  (s <= m)%N → (m <= c)%N → slice s m log ++ slice m c log = slice s c log.
Proof.
  intros Hs Hm. unfold slice.
  replace (N.to_nat c - N.to_nat s)
    with ((N.to_nat m - N.to_nat s) + (N.to_nat c - N.to_nat m)) by lia.
  rewrite <- take_take_drop. f_equal. rewrite drop_drop. do 2 f_equal. lia.
Qed.

Lemma delivered_sequence b a r c : delivered_as b a r c → cr_sequence c = rec_sequence r.
Proof. by intros [(l & _ & ->)|[_ ->]]. Qed.

(** C17. A subscriber can come back: having got [got], the first records of a
    subscription, it subscribes again with the sequence of the last one, at any
    later time, after any number of restarts, too; then what it got and what the
    new channel is given are together, at any moment, one change record for each
    wanted record after its first starting point up to some cursor, in log order,
    with no gap and no repetition. *)
Theorem resume_exact b defs n k reg e i c f start got rest reg' e' j c' :
  reachable b defs n reg e → later defs k reg e reg' e' → (N.of_nat (n + k) < u64_max)%N →
  e_channels e !! i = Some c → reg !! i = Some (f, start) → (start < u64_max)%N →
  sent c = got ++ rest →
  e_channels e' !! j = Some c' → reg' !! j = Some (f, resume_after start got) →
  ∃ a cursor, holds (e_storage e') a
    ∧ Forall2 (delivered_as b a) (wanted f (slice start cursor (a_log a))) (got ++ sent c').
Proof.
  intros HR HL Hn Hc Hreg Hst Hsent Hc' Hreg'.
  destruct (inv_reachable _ _ _ _ _ HR) as [a HI]; [lia|].
  destruct (inv_later _ _ _ _ _ _ _ _ _ HI HL Hn) as (a' & HI' & HX).
  destruct (st_chan _ _ _ _ _ (i_streams _ _ _ _ _ _ HI) i c f start Hc Hreg Hst)
    as (cur & _ & _ & HF). rewrite Hsent in HF.
  apply Forall2_app_inv_r in HF as (x1 & x2 & HF & _ & Hx).
  pose proof (holds_wf _ _ (i_holds _ _ _ _ _ _ HI)) as Hwf.
  destruct got as [|g0 got0 _] using rev_ind.
  { apply Forall2_nil_inv_r in HF as ->. unfold resume_after in Hreg'. cbn in Hreg'.
    destruct (st_chan _ _ _ _ _ (i_streams _ _ _ _ _ _ HI') j c' f start Hc' Hreg' Hst)
      as (cur' & _ & _ & HF'). exists a', cur'. split; [apply HI'|done]. }
  unfold resume_after in Hreg'. rewrite last_snoc in Hreg'. cbn in Hreg'.
  pose proof HF as (y & z & HFy & HFz & ->)%Forall2_app_inv_r.
  apply Forall2_cons_inv_r in HFz as (r & z' & Hr & Hz & ->).
  apply Forall2_nil_inv_r in Hz as ->.
  rewrite (delivered_sequence _ _ _ _ Hr) in Hreg'.
  destruct (wanted_upto a f start cur (length (y ++ [r])) y r Hwf) as (Hle & Hlen & Hw).
  { rewrite Hx. by rewrite take_app_length. }
  pose proof (i_count _ _ _ _ _ _ HI) as Hcnt.
  destruct (st_chan _ _ _ _ _ (i_streams _ _ _ _ _ _ HI') j c' f (rec_sequence r) Hc' Hreg')
    as (cur' & Hcur & _ & HF'); [lia|].
  exists a', cur'. split; [apply HI'|].
  rewrite <- (slice_join start (rec_sequence r) cur') by done. rewrite wanted_app.
  apply Forall2_app; [|done]. eapply delivered_extends; [exact HX|by right|]. by rewrite <- Hw.
Qed.

End restart.

(** ** The restart of the redb engine *)

Section redb_restart.
Context {R : Redb} {RO : RedbOk R} {C : Codecs} {CO : CodecsOk C} {T : RedbTx Tables} {TO : RedbTxOk T}.
Context {MP : Mpsc ChangeRecord} {MO : MpscOk ChangeRecord} {EN : Env} {EO : EnvOk EN}.
#[local] Existing Instance redb_storage.
#[local] Existing Instance redb_storage_ok.

(** C16. A restart is invisible to queries: on a store without faults, whatever
    was done before, [RedbEngine::open] succeeds on the file that the process left
    ([create] is redb, which finds there what was committed), and an engine that
    is created on it answers every query (the state of an entity, its history from
    any point, a machine, the list of machines) as the engine before did. *)
Theorem restart_invisible (create : string → Res (db T) string) path defs n reg (e : Engine) clock uuids :
  reachable true defs n reg e → (N.of_nat n < u64_max)%N → create path = Ok (e_storage e) →
  ∃ d, open create path = Ok d
    ∧ let e' := new (d : store) clock uuids in
      (∀ en m, nul_free en = true → nul_free m = true →
         (current en m e').1 = (current en m e).1
         ∧ ∀ limit after, (history en m limit after e').1 = (history en m limit after e).1)
      ∧ (∀ name, (get_machine name e').1 = (get_machine name e).1)
      ∧ (list_machines e').1 = (list_machines e).1.
Proof.
  intros HR Hn Hc. destruct (inv_reachable _ _ _ _ _ HR Hn) as [a HI].
  pose proof (open_fit create path (e_storage e) Hc (i_fit _ _ _ _ _ _ HI eq_refl)) as Hok.
  destruct (open create path) as [d|err] eqn:Ho; [|done]. exists d. split; [done|].
  eapply queries_same; [done|done|]. by eapply open_reopened.
Qed.

End redb_restart.

(** ** At work *)

Import Demo.

(** The document is submitted and delivered to a subscriber, and the process dies;
    the file is opened again, the subscriber comes back and the document is
    published. *)
Definition run2_sent : Engine := default run2 (snd <$> dispatch 10 run2).
Definition reopened_db : store := reopen (e_storage run2_sent) "data/statemaster.redb".
Definition run_restarted : Engine := new reopened_db 100 100.
Definition run_resumed : Engine := (subscribe "s2" None 1 run_restarted).2.
Definition run_published : Engine := (do_transition (req "publish" None None) run_resumed).2.
Definition run_done : Engine := default run_published (snd <$> dispatch 10 run_published).

Lemma reopened_ok : reopened (e_storage run2_sent) reopened_db.
Proof. exact (reopen_reopened (e_storage run2_sent) "data/statemaster.redb"). Qed.

Lemma dispatched (e : Engine) fuel :
  match dispatch fuel e with Some _ => true | None => false end = true →
  ∃ n, dispatch fuel e = Some (n, default e (snd <$> dispatch fuel e)).
Proof. destruct (dispatch fuel e) as [[n e']|]; [|done]. by exists n. Qed.

Lemma run2_sent_reach : reachable true only_document 4 [(None, 0%N)] run2_sent.
Proof.
  eapply reach_step; [apply run2_reach|].
  destruct (dispatched run2 10) as [n Hd]; [vm_compute; reflexivity|].
    exact (sys_dispatch _ _ _ _ _ _ Hd).
Qed.

Lemma run_done_later : later only_document 4 [(None, 0%N)] run2_sent [(None, 1%N)] run_done.
Proof.
  eapply later_step; [eapply later_step; [eapply later_step; [eapply (later_restart _ 0 _ _ _ _ reopened_db 100 100); [apply later_refl|apply reopened_ok|]|]|]|].
  - vm_compute. lia.
  - apply (sys_subscribe _ [] run_restarted "s2" None 1).
  - apply (sys_transition _ _ run_resumed (req "publish" None None)
             (do_transition (req "publish" None None) run_resumed).1);
      [reflexivity|reflexivity|apply surjective_pairing].
  - destruct (dispatched run_published 10) as [n Hd]; [vm_compute; reflexivity|].
    exact (sys_dispatch _ _ _ _ _ _ Hd).
Qed.

Lemma restart_invisible_witness :
  ∃ d, open (λ _, Ok (e_storage run2_sent)) "data/statemaster.redb" = Ok d
    ∧ (current "doc-1" "document" (new (d : store) 100 100)).1 = (current "doc-1" "document" run2_sent).1
    ∧ is_ok (current "doc-1" "document" run2_sent).1 = true.
Proof.
  destruct (restart_invisible (λ _, Ok (e_storage run2_sent)) "data/statemaster.redb" only_document 4
    [(None, 0%N)] run2_sent 100 100) as (d & Ho & Hq & _ & _).
  - apply run2_sent_reach.
  - reflexivity.
  - reflexivity.
  - exists d. split; [exact Ho|]. split; [apply Hq; reflexivity|vm_compute; reflexivity].
Defined.

(** The events the two channels were given. *)
Definition events (e : Engine) (i : nat) : list (string * N) :=
  match e_channels e !! i with
  | Some c => (λ r, (cr_event r, cr_sequence r)) <$> sent c
  | None => []
  end.

Lemma resume_exact_witness :
  events run2_sent 0 = [("submit", 1%N)] ∧ events run_done 0 = [("publish", 2%N)]
  ∧ ∃ got c' a cursor, e_channels run_done !! 0 = Some c' ∧ holds (e_storage run_done) a
    ∧ Forall2 (delivered_as true a) (wanted None (slice 0 cursor (a_log a))) (got ++ sent c')
    ∧ length (got ++ sent c') = 2.
Proof.
  split; [vm_compute; reflexivity|]. split; [vm_compute; reflexivity|].
  destruct (e_channels run2_sent !! 0) as [c|] eqn:Hc; [|vm_compute in Hc; discriminate].
  destruct (e_channels run_done !! 0) as [c'|] eqn:Hc'; [|vm_compute in Hc'; discriminate].
  exists (sent c), c'.
  destruct (resume_exact true only_document 4 4 [(None, 0%N)] run2_sent 0 c None 0 (sent c) []
    [(None, 1%N)] run_done 0 c') as (a & cursor & Ha & HF).
  - apply run2_sent_reach.
  - apply run_done_later.
  - reflexivity.
  - exact Hc.
  - reflexivity.
  - reflexivity.
  - by rewrite app_nil_r.
  - exact Hc'.
  - vm_compute in Hc. injection Hc as <-. vm_compute. reflexivity.
  - exists a, cursor. split; [reflexivity|]. split; [exact Ha|]. split; [exact HF|].
    vm_compute in Hc, Hc'. injection Hc as <-. injection Hc' as <-. vm_compute. reflexivity.
Defined.
