(* ===== verification/Frame.v ===== *)
(** * smdb-proto: frames and their codec

    Models [crates/smdb-proto/src]: the tags and their byte codes, the
    length-prefixed frame format of [FrameCodec] ([frame.rs]), the message codec
    ([codec.rs]) over [rmp_serde], the constants and the errors. A buffer is a
    list of bytes; [decode] returns what is left of it. *)
From S2P Require Import Prelude Core Redb.
From Stdlib Require Import Strings.Byte.

(** ** Constants and errors *)

Definition PROTOCOL_VERSION : N := 1.
Definition MAX_FRAME_SIZE : N := 16 * 1024 * 1024.
Definition HEADER_LEN : nat := 5.

Inductive ProtoError : Type :=
| ProtoIo (msg : string)
| InvalidFrameType (b : byte)
| FrameTooLarge (size max : N)
| DeserializationError (msg : string)
| SerializationError (msg : string)
| IncompleteFrame
| InvalidHandshake (msg : string).

(** ** Tags *)

Inductive FrameTag : Type :=
| TStartup | TAuth | TDefineMachine | TTransition | TCurrent | THistory
| TSubscribe | TAck | TUnsubscribe | TPing | TTerminate
| TReady | TAuthOk | TAuthError | TResult | TRejection | TChangeRecord
| TNotice | TError | TPong.

#[global] Instance FrameTag_eq_dec : EqDecision FrameTag.
Proof. solve_decision. Defined.

(** [tag as u8]. *)
Definition tag_code (t : FrameTag) : byte :=
  match t with
  | TStartup => x01 | TAuth => x02
  | TDefineMachine => x10 | TTransition => x11 | TCurrent => x12 | THistory => x13
  | TSubscribe => x20 | TAck => x21 | TUnsubscribe => x22
  | TPing => x30 | TTerminate => x31
  | TReady => x80 | TAuthOk => x81 | TAuthError => x82
  | TResult => x90 | TRejection => x91 | TChangeRecord => xa0
  | TNotice => xb0 | TError => xb1 | TPong => xc0
  end.

(** [FrameTag::try_from]. *)
Definition try_from (b : byte) : Res FrameTag ProtoError :=
  match b with
  | x01 => Ok TStartup | x02 => Ok TAuth
  | x10 => Ok TDefineMachine | x11 => Ok TTransition | x12 => Ok TCurrent | x13 => Ok THistory
  | x20 => Ok TSubscribe | x21 => Ok TAck | x22 => Ok TUnsubscribe
  | x30 => Ok TPing | x31 => Ok TTerminate
  | x80 => Ok TReady | x81 => Ok TAuthOk | x82 => Ok TAuthError
  | x90 => Ok TResult | x91 => Ok TRejection | xa0 => Ok TChangeRecord
  | xb0 => Ok TNotice | xb1 => Ok TError | xc0 => Ok TPong
  | other => Err (InvalidFrameType other)
  end.

Record Frame : Type := { tag : FrameTag; body : bytes }.

(** ** Big-endian 32-bit integers *)

(** [n as u8]. *)
Definition u8 (n : N) : byte := default x00 (Byte.of_N (N.land n 255)).

(** [BytesMut::put_u32]. *)
Definition put_u32 (n : N) : bytes :=
  [u8 (N.shiftr n 24); u8 (N.shiftr n 16); u8 (N.shiftr n 8); u8 n].

(** [u32::from_be_bytes]. *)
Definition from_be_bytes (b0 b1 b2 b3 : byte) : N :=
  N.lor (N.shiftl (Byte.to_N b0) 24)
    (N.lor (N.shiftl (Byte.to_N b1) 16) (N.lor (N.shiftl (Byte.to_N b2) 8) (Byte.to_N b3))).

(** ** [FrameCodec] *)

(** [frame.body.len() as u32] truncates. *)
Definition encode (frame : Frame) (dst : bytes) : bytes :=
  let body_len := (N.of_nat (length (body frame)) mod 4294967296)%N in
  dst ++ tag_code (tag frame) :: put_u32 body_len ++ body frame.

Definition decode (src : bytes) : Res (option Frame) ProtoError * bytes :=
  if (length src <? HEADER_LEN)%nat then (Ok None, src)
  else
    match src with
    | tag_byte :: b1 :: b2 :: b3 :: b4 :: rest =>
        let body_len := from_be_bytes b1 b2 b3 b4 in
        if (MAX_FRAME_SIZE <? body_len)%N then (Err (FrameTooLarge body_len MAX_FRAME_SIZE), src)
        else
          let total := HEADER_LEN + N.to_nat body_len in
          if (length src <? total)%nat then (Ok None, src)
          else
            match try_from tag_byte with
            | Err e => (Err e, src)
            | Ok t => (Ok (Some {| tag := t; body := take (N.to_nat body_len) rest |}),
                       drop (N.to_nat body_len) rest)
            end
    | _ => (Ok None, src)
    end.

(** ** Messages ([codec.rs]) *)

Definition encode_message {A} `{Serde A} (t : FrameTag) (msg : A) : Res Frame ProtoError :=
  match to_vec msg with
  | Ok b => Ok {| tag := t; body := b |}
  | Err e => Err (SerializationError e)
  end.

Definition decode_message {A} `{Serde A} (frame : Frame) : Res A ProtoError :=
  map_err DeserializationError (from_slice (body frame)).

(** ** The read side of a connection

    Not code of the repository but the documented behaviour of [tokio_util]'s
    [Framed], the only caller of the codec, as a harness for it: append what was
    read to the buffer and call [decode] until a frame is incomplete; a decoding
    error ends the stream. *)

Fixpoint drain_frames (fuel : nat) (buf : bytes) : list Frame * option ProtoError * bytes :=
  match fuel with
  | 0 => ([], None, buf)
  | S fuel =>
      match decode buf with
      | (Ok None, buf) => ([], None, buf)
      | (Err e, buf) => ([], Some e, buf)
      | (Ok (Some f), buf) =>
          let '(fs, err, buf) := drain_frames fuel buf in (f :: fs, err, buf)
      end
  end.

Fixpoint read_frames (chunks : list bytes) (buf : bytes) : list Frame * option ProtoError * bytes :=
  match chunks with
  | [] => ([], None, buf)
  | chunk :: chunks =>
      let buf := buf ++ chunk in
      match drain_frames (S (length buf)) buf with
      | (fs, Some e, buf) => (fs, Some e, buf)
      | (fs, None, buf) =>
          let '(fs', err, buf) := read_frames chunks buf in (fs ++ fs', err, buf)
      end
  end.

(** ** Facts *)

Lemma u8_to_N n : Byte.to_N (u8 n) = (n mod 256)%N.
Proof.
  unfold u8. rewrite (N.land_ones n 8 : N.land n 255 = (n mod 256)%N).
  assert (n mod 256 < 256)%N as Hlt by (apply N.mod_lt; lia).
  destruct (Byte.of_N (n mod 256)) as [b|] eqn:Hb; cbn.
  - by apply Byte.to_of_N.
  - apply Byte.of_N_None_iff in Hb. lia.
Qed.

Lemma lor_shiftl_add a b k : (b < 2 ^ k)%N → N.lor (N.shiftl a k) b = (a * 2 ^ k + b)%N.
Proof.
  intros Hb. rewrite <- N.lxor_lor, <- N.add_nocarry_lxor; [by rewrite N.shiftl_mul_pow2|..];
    apply N.bits_inj_0; intros i; rewrite N.land_spec.
  all: destruct (N.lt_ge_cases i k) as [Hi|Hi]; [by rewrite N.shiftl_spec_low|].
  all: destruct (N.eq_dec b 0%N) as [->|Hb0]; [by rewrite N.bits_0, andb_false_r|].
  all: rewrite (N.bits_above_log2 b i), andb_false_r; [done|].
  all: apply N.log2_lt_pow2 in Hb; [|lia]; lia.
Qed.

(** A 32-bit length survives its header. *)
Lemma put_u32_from_be n :
  (n < 4294967296)%N →
  ∃ b0 b1 b2 b3, put_u32 n = [b0; b1; b2; b3] ∧ from_be_bytes b0 b1 b2 b3 = n.
Proof.
  intros Hn. eexists _, _, _, _. split; [reflexivity|]. unfold from_be_bytes.
  rewrite !u8_to_N, !N.shiftr_div_pow2.
  change (2 ^ 24)%N with 16777216%N. change (2 ^ 16)%N with 65536%N. change (2 ^ 8)%N with 256%N.
  assert (n / 16777216 < 256)%N by (apply N.div_lt_upper_bound; lia).
  rewrite (N.mod_small (n / 16777216)) by done.
  pose proof (N.mod_lt n 256 ltac:(lia)). pose proof (N.mod_lt (n / 256) 256 ltac:(lia)).
  pose proof (N.mod_lt (n / 65536) 256 ltac:(lia)).
  rewrite (lor_shiftl_add _ (n mod 256) 8) by done.
  change (2 ^ 8)%N with 256%N.
  rewrite (lor_shiftl_add ((n / 65536) mod 256) _ 16) by (change (2 ^ 16)%N with 65536%N; lia).
  change (2 ^ 16)%N with 65536%N.
  rewrite lor_shiftl_add by (change (2 ^ 24)%N with 16777216%N; lia).
  change (2 ^ 24)%N with 16777216%N.
  pose proof (N.div_mod n 256 ltac:(lia)). pose proof (N.div_mod (n / 256) 256 ltac:(lia)) as Hd3.
  pose proof (N.div_mod (n / 65536) 256 ltac:(lia)) as Hd4.
  rewrite N.Div0.div_div in Hd3, Hd4. change (256 * 256)%N with 65536%N in *.
  change (65536 * 256)%N with 16777216%N in *. lia.
Qed.

Lemma u8_eq n b : (n mod 256)%N = Byte.to_N b → u8 n = b.
Proof.
  intros Hn. rewrite <- u8_to_N in Hn. apply (f_equal Byte.of_N) in Hn.
  rewrite !Byte.of_to_N in Hn. by injection Hn.
Qed.

Lemma byte_mod a b : ((a * 256 + Byte.to_N b) mod 256)%N = Byte.to_N b.
Proof.
  pose proof (Byte.to_N_bounded b). rewrite N.add_comm, N.Div0.mod_add. apply N.mod_small. lia.
Qed.

Lemma byte_div a b : ((a * 256 + Byte.to_N b) / 256)%N = a.
Proof.
  pose proof (Byte.to_N_bounded b). rewrite N.add_comm, N.div_add by lia.
  rewrite N.div_small by lia. lia.
Qed.

(** A header length is written back as it was read. *)
Lemma from_be_put_u32 b0 b1 b2 b3 : put_u32 (from_be_bytes b0 b1 b2 b3) = [b0; b1; b2; b3].
Proof.
  pose proof (Byte.to_N_bounded b1). pose proof (Byte.to_N_bounded b2).
  pose proof (Byte.to_N_bounded b3). unfold from_be_bytes.
  rewrite (lor_shiftl_add _ (Byte.to_N b3) 8) by (change (2 ^ 8)%N with 256%N; lia).
  rewrite (lor_shiftl_add (Byte.to_N b1) _ 16)
    by (change (2 ^ 8)%N with 256%N; change (2 ^ 16)%N with 65536%N; lia).
  rewrite lor_shiftl_add by (change (2 ^ 8)%N with 256%N; change (2 ^ 16)%N with 65536%N;
    change (2 ^ 24)%N with 16777216%N; lia).
  replace (Byte.to_N b0 * 2 ^ 24 + (Byte.to_N b1 * 2 ^ 16 + (Byte.to_N b2 * 2 ^ 8 + Byte.to_N b3)))%N
    with (((Byte.to_N b0 * 256 + Byte.to_N b1) * 256 + Byte.to_N b2) * 256 + Byte.to_N b3)%N
    by (change (2 ^ 8)%N with 256%N; change (2 ^ 16)%N with 65536%N;
        change (2 ^ 24)%N with 16777216%N; lia).
  unfold put_u32. rewrite !N.shiftr_div_pow2.
  change (2 ^ 24)%N with (256 * 256 * 256)%N. change (2 ^ 16)%N with (256 * 256)%N.
  change (2 ^ 8)%N with 256%N. rewrite <- !N.Div0.div_div, !byte_div.
  rewrite !(u8_eq _ _ (byte_mod _ _)). f_equal. apply u8_eq.
  apply N.mod_small. pose proof (Byte.to_N_bounded b0). lia.
Qed.

Lemma try_from_code t : try_from (tag_code t) = Ok t.
Proof. by destruct t. Qed.

Lemma try_from_inv b t : try_from b = Ok t → tag_code t = b.
Proof. destruct b; intros [= <-]; done. Qed.

Lemma try_from_err b e : try_from b = Err e → e = InvalidFrameType b.
Proof. destruct b; intros [= <-]; done. Qed.

(** A frame the decoder accepts. *)
Definition frame_ok (f : Frame) : Prop := (N.of_nat (length (body f)) <= MAX_FRAME_SIZE)%N.

Lemma encode_shape f :
  frame_ok f → ∃ b0 b1 b2 b3, encode f [] = tag_code (tag f) :: b0 :: b1 :: b2 :: b3 :: body f
    ∧ from_be_bytes b0 b1 b2 b3 = N.of_nat (length (body f)).
Proof.
  intros Hok. unfold frame_ok, MAX_FRAME_SIZE in Hok. unfold encode.
  rewrite N.mod_small by lia.
  destruct (put_u32_from_be (N.of_nat (length (body f)))) as (b0 & b1 & b2 & b3 & -> & Hb); [lia|].
  by exists b0, b1, b2, b3.
Qed.

Lemma encode_length f : frame_ok f → length (encode f []) = HEADER_LEN + length (body f).
Proof. intros (b0 & b1 & b2 & b3 & -> & _)%encode_shape. done. Qed.

Lemma encode_app f dst : encode f dst = dst ++ encode f [].
Proof. done. Qed.

Lemma decode_encode f rest : frame_ok f → decode (encode f [] ++ rest) = (Ok (Some f), rest).
Proof.
  intros Hok. destruct (encode_shape f Hok) as (b0 & b1 & b2 & b3 & -> & Hlen).
  unfold decode. cbn [app]. destruct (Nat.ltb_spec (length (tag_code (tag f) :: b0 :: b1 :: b2 :: b3 :: body f ++ rest)) HEADER_LEN) as [Hlt|_].
  { unfold HEADER_LEN in Hlt. cbn in Hlt. lia. }
  rewrite Hlen. destruct (N.ltb_spec MAX_FRAME_SIZE (N.of_nat (length (body f)))) as [Hlt|_].
  { unfold frame_ok in Hok. lia. }
  rewrite Nat2N.id. cbn [length]. rewrite length_app.
  destruct (Nat.ltb_spec (S (S (S (S (S (length (body f) + length rest)))))) (HEADER_LEN + length (body f))) as [Hlt|_].
  { unfold HEADER_LEN in Hlt. lia. }
  rewrite try_from_code, take_app_length, drop_app_length. by destruct f.
Qed.

(** An incomplete frame waits for more. *)
Lemma decode_prefix f p q :
  frame_ok f → encode f [] = p ++ q → q ≠ [] → decode p = (Ok None, p).
Proof.
  intros Hok Heq Hq. pose proof (encode_length f Hok) as Hlen. rewrite Heq, length_app in Hlen.
  assert (length q ≠ 0) by (by destruct q).
  destruct (encode_shape f Hok) as (b0 & b1 & b2 & b3 & Hs & Hbl). rewrite Heq in Hs.
  unfold decode. destruct (Nat.ltb_spec (length p) HEADER_LEN) as [|Hge]; [done|].
  unfold HEADER_LEN in Hge. do 5 (destruct p as [|? p]; [cbn in Hge; lia|]).
  cbn in Hs. injection Hs as -> -> -> -> -> Hs. rewrite Hbl.
  destruct (N.ltb_spec MAX_FRAME_SIZE (N.of_nat (length (body f)))); [unfold frame_ok in Hok; lia|].
  rewrite Nat2N.id. match goal with |- context [(?x <? ?y)%nat] => destruct (Nat.ltb_spec x y) end; [done|].
  unfold HEADER_LEN in *. cbn in *. lia.
Qed.

(** ** Streams of frames *)

Definition encode_all (fs : list Frame) : bytes := fs ≫= (λ f, encode f []).

Lemma encode_all_cons f fs : encode_all (f :: fs) = encode f [] ++ encode_all fs.
Proof. done. Qed.

(** A prefix of a stream: whole frames, then the beginning of the next one. *)
Lemma stream_prefix fs x y :
  Forall frame_ok fs → x ++ y = encode_all fs →
  ∃ fs1 fs2 p, fs = fs1 ++ fs2 ∧ x = encode_all fs1 ++ p ∧ p ++ y = encode_all fs2
    ∧ (fs2 = [] ∧ p = [] ∨ ∃ f q, f ∈ fs2 ∧ q ≠ [] ∧ encode f [] = p ++ q).
Proof.
  intros Hok. revert x y. induction Hok as [|f fs Hf Hok IH]; intros x y Heq.
  { apply app_nil in Heq as [-> ->]. exists [], [], []. split_and!; try done. by left. }
  rewrite encode_all_cons in Heq.
  destruct (app_eq_inv _ _ _ _ (eq_sym Heq)) as [(k & Hx & Hy)|(k & Hx & Hy)].
  - destruct (decide (k = [])) as [-> |Hk].
    + rewrite app_nil_r in Hx. exists [f], fs, []. split_and!; [done| |done|].
      * rewrite encode_all_cons, Hx. cbn. by rewrite !app_nil_r.
      * destruct Hok as [|f' fs' Hf' _]; [by left|right]. exists f', (encode f' []).
        split_and!; [constructor| |done]. pose proof (encode_length f' Hf') as Hl.
        intros E. by rewrite E in Hl.
    + exists [], (f :: fs), x. split_and!; [done|done|by rewrite encode_all_cons|]. right.
      exists f, k. split_and!; [constructor|done|done].
  - destruct (IH k y) as (fs1 & fs2 & p & -> & -> & Hp & Hc); [done|].
    exists (f :: fs1), fs2, p. split_and!; [done|by rewrite encode_all_cons, Hx, app_assoc|done|done].
Qed.

Lemma drain_frames_stream fs p fuel :
  Forall frame_ok fs → decode p = (Ok None, p) → length fs < fuel →
  drain_frames fuel (encode_all fs ++ p) = (fs, None, p).
Proof.
  intros Hok Hp. revert fuel. induction Hok as [|f fs Hf Hok IH]; intros [|fuel] Hfuel; try lia.
  - cbn [drain_frames encode_all mbind list_bind app]. by rewrite Hp.
  - cbn [drain_frames]. rewrite encode_all_cons, <- app_assoc, (decode_encode f _ Hf). rewrite IH by (cbn in Hfuel; lia). done.
Qed.

Lemma encode_all_length fs : Forall frame_ok fs → length fs <= length (encode_all fs).
Proof.
  induction 1 as [|f fs Hf Hok IH]; [done|]. rewrite encode_all_cons, length_app, (encode_length f Hf).
  unfold HEADER_LEN. cbn. lia.
Qed.

Lemma decode_nil : decode [] = (Ok None, []).
Proof. done. Qed.

(** ** Properties *)

(** C14. Chunking does not matter: however the bytes of a sequence of frames within
    the size limit are cut into reads, decoding after each read until the codec
    asks for more yields exactly these frames in order, no error, and an empty
    buffer at the end. *)
Theorem chunked_stream (fs : list Frame) (chunks : list bytes) (buf : bytes) :
  Forall frame_ok fs → decode buf = (Ok None, buf) → buf ++ concat chunks = encode_all fs →
  read_frames chunks buf = (fs, None, []).
Proof.
  revert fs buf. induction chunks as [|chunk chunks IH]; intros fs buf Hok Hbuf Heq;
    cbn [concat] in Heq; cbn [read_frames].
  - rewrite app_nil_r in Heq. subst buf. destruct Hok as [|f fs Hf _]; [done|].
    rewrite encode_all_cons in Hbuf. by rewrite (decode_encode f _ Hf) in Hbuf.
  - rewrite app_assoc in Heq.
    destruct (stream_prefix fs (buf ++ chunk) (concat chunks) Hok Heq)
      as (fs1 & fs2 & p & -> & Hx & Hp & Hc).
    apply Forall_app in Hok as [Hok1 Hok2].
    assert (decode p = (Ok None, p)) as Hdp.
    { destruct Hc as [[_ ->]|(f & q & Hf & Hq & Hfq)]; [done|].
      eapply decode_prefix; [|done|done]. rewrite Forall_forall in Hok2. auto. }
    rewrite Hx, drain_frames_stream; [|done|done|].
    + by rewrite (IH fs2 p).
    + rewrite length_app. pose proof (encode_all_length fs1 Hok1). lia.
Qed.

Lemma chunked_stream_witness :
  read_frames [[x30; x00; x00]; [x00; x01; xff; x31]; [x00; x00; x00; x00]] []
  = ([{| tag := TPing; body := [xff] |}; {| tag := TTerminate; body := [] |}], None, []).
Proof.
  apply (chunked_stream [{| tag := TPing; body := [xff] |}; {| tag := TTerminate; body := [] |}]
           [[x30; x00; x00]; [x00; x01; xff; x31]; [x00; x00; x00; x00]] []);
    [repeat constructor; done|reflexivity|reflexivity].
Defined.

(** The buffer ends before the frame at its front does: inside the header, or
    inside a body whose announced length is within the limit. *)
Definition incomplete (src : bytes) : Prop :=
  length src < HEADER_LEN
  ∨ ∃ t b0 b1 b2 b3 rest, src = t :: b0 :: b1 :: b2 :: b3 :: rest
      ∧ (from_be_bytes b0 b1 b2 b3 <= MAX_FRAME_SIZE)%N
      ∧ (N.of_nat (length rest) < from_be_bytes b0 b1 b2 b3)%N.

(** C36. What the decoder does on any input: it waits, leaving the buffer alone,
    only when the buffer ends inside a frame; it refuses, leaving the buffer
    alone, because of a length over the limit or an unknown tag; or it takes one
    frame whose body is within the limit off the front of the buffer, and it
    does so whenever such a frame is there. *)
Theorem decode_total (src : bytes) :
  match decode src with
  | (Ok None, src') => src' = src ∧ incomplete src
  | (Err e, src') => src' = src
      ∧ ((∃ n, e = FrameTooLarge n MAX_FRAME_SIZE ∧ (MAX_FRAME_SIZE < n)%N)
         ∨ ∃ b, e = InvalidFrameType b ∧ head src = Some b ∧ ∀ t, tag_code t ≠ b)
  | (Ok (Some f), src') => frame_ok f ∧ src = encode f [] ++ src'
  end
  ∧ ∀ f rest, frame_ok f → decode (encode f [] ++ rest) = (Ok (Some f), rest).
Proof.
  split; [|apply decode_encode].
  unfold decode. destruct (Nat.ltb_spec (length src) HEADER_LEN) as [Hh|Hh]; [by split; [|left]|].
  unfold HEADER_LEN in Hh.
  destruct src as [|tb [|b1 [|b2 [|b3 [|b4 rest]]]]]; try (cbn in Hh; lia). clear Hh.
  destruct (N.ltb_spec MAX_FRAME_SIZE (from_be_bytes b1 b2 b3 b4)) as [Hlt|Hle]; [by eauto|].
  match goal with |- context [(?x <? ?y)%nat] => destruct (Nat.ltb_spec x y) as [Hs|Hs] end.
  { split; [done|]. right. eexists tb, b1, b2, b3, b4, rest. split_and!; [done|done|].
    unfold HEADER_LEN in Hs. cbn [length] in Hs. lia. }
  destruct (try_from tb) as [t|e] eqn:Ht.
  2: { apply try_from_err in Ht as He. subst e. split; [done|]. right. exists tb.
       split_and!; [done|done|]. intros t ?. subst. by rewrite try_from_code in Ht. }
  apply try_from_inv in Ht. subst tb. unfold HEADER_LEN in Hs. cbn [length] in Hs.
  assert (length (take (N.to_nat (from_be_bytes b1 b2 b3 b4)) rest)
          = N.to_nat (from_be_bytes b1 b2 b3 b4)) as Hlen by (rewrite length_take; lia).
  split; [unfold frame_ok; cbn [body]; rewrite Hlen, N2Nat.id; done|].
  unfold encode. cbn [tag body app]. rewrite Hlen, N2Nat.id.
  rewrite N.mod_small by (unfold MAX_FRAME_SIZE in Hle; lia).
  rewrite from_be_put_u32. cbn [app]. by rewrite take_drop.
Qed.

Lemma decode_total_witness :
  decode (encode {| tag := TPing; body := [x01; xff] |} [] ++ [x30])
  = (Ok (Some {| tag := TPing; body := [x01; xff] |}), [x30]).
Proof. apply (proj2 (decode_total [])). done. Defined.

(** ** Frames over the limit *)

(** The length field that the encoder writes: [len as u32]. *)
Definition length_field (f : Frame) : N := (N.of_nat (length (body f)) mod 4294967296)%N.

Lemma length_field_le f : (length_field f <= N.of_nat (length (body f)))%N.
Proof. apply N.Div0.mod_le. Qed.

Lemma decode_any_frame f :
  decode (encode f []) =
  if (MAX_FRAME_SIZE <? length_field f)%N
  then (Err (FrameTooLarge (length_field f) MAX_FRAME_SIZE), encode f [])
  else (Ok (Some {| tag := tag f; body := take (N.to_nat (length_field f)) (body f) |}),
        drop (N.to_nat (length_field f)) (body f)).
Proof.
  pose proof (length_field_le f) as Hle. unfold encode. fold (length_field f) in *.
  destruct (put_u32_from_be (length_field f)) as (b0 & b1 & b2 & b3 & -> & Hb).
  { unfold length_field. apply N.mod_lt. lia. }
  generalize dependent (length_field f). intros n Hle Hb. cbn [app].
  unfold decode. change (_ <? HEADER_LEN)%nat with false. cbv iota. rewrite Hb.
  destruct (MAX_FRAME_SIZE <? n)%N; [done|].
  match goal with |- context [(?x <? ?y)%nat] => destruct (Nat.ltb_spec x y) as [Hlt|_] end.
  { unfold HEADER_LEN in Hlt. cbn [length] in Hlt. lia. }
  by rewrite try_from_code.
Qed.

(** C39. The size limit is exactly where the codec stops being a round trip: a frame
    survives encoding and decoding if and only if its body is within
    [MAX_FRAME_SIZE]. The encoder accepts every body and writes its length modulo
    2^32; over the limit the peer refuses the frame, or, where the length wrapped
    around, takes a frame with a shorter body and is left with the remainder of
    the body as the next input. *)
Theorem encode_limit (f : Frame) :
  (decode (encode f []) = (Ok (Some f), []) ↔ frame_ok f)
  ∧ (¬ frame_ok f →
     decode (encode f []) = (Err (FrameTooLarge (length_field f) MAX_FRAME_SIZE), encode f [])
     ∨ (4294967296 <= N.of_nat (length (body f)))%N
       ∧ ∃ g rest, decode (encode f []) = (Ok (Some g), rest) ∧ frame_ok g ∧ tag g = tag f
           ∧ body f = body g ++ rest ∧ rest ≠ []).
Proof.
  pose proof (length_field_le f) as Hle. pose proof (decode_encode f []) as Hok. rewrite app_nil_r in Hok.
  split; [split; [|exact Hok]|].
  - rewrite decode_any_frame. destruct (N.ltb_spec MAX_FRAME_SIZE (length_field f)) as [|Hn]; [done|].
    intros [= _ Hdrop]. apply (f_equal length) in Hdrop. rewrite length_drop in Hdrop. cbn [length] in Hdrop.
    unfold frame_ok. lia.
  - intros Hbig. rewrite decode_any_frame.
    destruct (N.ltb_spec MAX_FRAME_SIZE (length_field f)) as [|Hn]; [by left|right].
    assert (4294967296 <= N.of_nat (length (body f)))%N as Hwrap.
    { unfold frame_ok in Hbig. destruct (N.le_gt_cases 4294967296 (N.of_nat (length (body f)))) as [|Hlt]; [done|].
      unfold length_field in Hn. rewrite N.mod_small in Hn by done. done. }
    split; [done|]. eexists _, _. split_and!; [done| |done|cbn [body]; by rewrite take_drop|].
    + unfold frame_ok. cbn [body]. rewrite length_take. lia.
    + intros Hdrop%(f_equal length). rewrite length_drop in Hdrop. cbn [length] in Hdrop.
      unfold MAX_FRAME_SIZE in Hn. lia.
Qed.
