(* ===== verification/Messages.v ===== *)
(** * smdb-proto messages and the texts of errors

    Models [crates/smdb-proto/src/messages.rs] and the [Display] texts that the
    [thiserror] attributes give to the errors of the crates, since the server
    sends them to its clients. *)
From S2P Require Import Prelude Core Redb Storage StorageSpec Engine Frame.
From Stdlib Require Import Strings.Byte.

(** ** Client to server *)

Record StartupMessage : Type := { su_protocol_version : N; su_capabilities : list string }.
Record AuthMessage : Type := { au_token : string }.
Record DefineMachineMessage : Type := {
  dm_request_id : N; dm_name : string; dm_version : N; dm_definition : MachineDefinition }.
Record TransitionMessage : Type := {
  tm_request_id : N;
  tm_entity_id : string;
  tm_machine : string;
  tm_event : string;
  tm_expected_version : option N;
  tm_idempotency_key : option string;
  tm_ctx : Value;
  tm_actor : string;
}.
Record CurrentMessage : Type := {
  cu_request_id : N; cu_entity_id : string; cu_machine : string }.
Record HistoryMessage : Type := {
  hi_request_id : N; hi_entity_id : string; hi_machine : string;
  hi_limit : option N; hi_after_sequence : option N }.
Record SubscribeMessage : Type := {
  sb_request_id : N; sb_subscription_id : string;
  sb_machine_filter : option string; sb_after_sequence : N }.
Record AckMessage : Type := { ak_subscription_id : string; ak_up_to_sequence : N }.
Record UnsubscribeMessage : Type := { us_subscription_id : string }.

(** ** Server to client *)

Record ReadyMessage : Type := {
  rd_session_id : string; rd_server_version : string;
  rd_protocol_version : N; rd_capabilities : list string }.
Record ResultMessage : Type := { rs_request_id : N; rs_payload : Value }.
Record RejectionMessage : Type := {
  rj_request_id : N; rj_code : string; rj_message : string;
  rj_current_state : option string; rj_version : option N }.
Record ChangeRecordMessage : Type := { cm_subscription_id : string; cm_record : ChangeRecord }.
Record NoticeMessage : Type := { nt_message : string }.
Record ErrorMessage : Type := { em_message : string; em_fatal : bool }.

(** The MessagePack codecs of the messages. *)
Class WireCodecs : Type := {
  wc_startup :: Serde StartupMessage;
  wc_auth :: Serde AuthMessage;
  wc_define :: Serde DefineMachineMessage;
  wc_transition :: Serde TransitionMessage;
  wc_current :: Serde CurrentMessage;
  wc_history :: Serde HistoryMessage;
  wc_subscribe :: Serde SubscribeMessage;
  wc_ack :: Serde AckMessage;
  wc_unsubscribe :: Serde UnsubscribeMessage;
  wc_ready :: Serde ReadyMessage;
  wc_result :: Serde ResultMessage;
  wc_rejection :: Serde RejectionMessage;
  wc_change :: Serde ChangeRecordMessage;
  wc_error :: Serde ErrorMessage;
}.

(** A codec that encodes every value and decodes what it encodes. *)
Class Faithful (A : Type) {S : Serde A} : Prop := {
  faithful_ok :: SerdeOk A id;
  faithful_total (x : A) : is_ok (to_vec x) = true;
}.

(** Like the stored definitions, the definition in a message comes back with the
    payload [Some(Value::Null)] of an effect read as [None]. *)
Definition canon_define (m : DefineMachineMessage) : DefineMachineMessage :=
  {| dm_request_id := dm_request_id m; dm_name := dm_name m; dm_version := dm_version m;
     dm_definition := canon_machine (dm_definition m) |}.

Class WireCodecsOk (WC : WireCodecs) : Prop := {
  wo_startup :: Faithful StartupMessage;
  wo_auth :: Faithful AuthMessage;
  wo_define :: SerdeOk DefineMachineMessage canon_define;
  wo_transition :: Faithful TransitionMessage;
  wo_current :: Faithful CurrentMessage;
  wo_history :: Faithful HistoryMessage;
  wo_subscribe :: Faithful SubscribeMessage;
  wo_ack :: Faithful AckMessage;
  wo_unsubscribe :: Faithful UnsubscribeMessage;
  wo_ready :: Faithful ReadyMessage;
  wo_result :: Faithful ResultMessage;
  wo_rejection :: Faithful RejectionMessage;
  wo_change :: Faithful ChangeRecordMessage;
  wo_error :: Faithful ErrorMessage;
}.

(** Such a message crosses the wire. *)
Lemma encode_message_ok {A} {S : Serde A} {F : Faithful A} t (x : A) :
  ∃ f, encode_message t x = Ok f ∧ tag f = t ∧ decode_message f = Ok x ∧ to_vec x = Ok (body f).
Proof.
  pose proof (faithful_total x) as Henc. unfold encode_message, decode_message.
  destruct (to_vec x) as [b|] eqn:Hb; [|done]. eexists. split_and!; [done|done| |done].
  cbn. by rewrite (from_to_vec _ _ Hb).
Qed.

(** ** Texts of errors *)

Definition show_core (e : CoreError) : string :=
  match e with
  | IllegalTransition en m ev cs =>
      "illegal transition: entity '" +:+ en +:+ "' in machine '" +:+ m
      +:+ "' has no transition for event '" +:+ ev +:+ "' from state '" +:+ cs +:+ "'"
  | GuardFailed g why => "guard '" +:+ g +:+ "' failed: " +:+ why
  | VersionConflict en m x a =>
      "version conflict: entity '" +:+ en +:+ "' in machine '" +:+ m
      +:+ "' expected version " +:+ pretty x +:+ " but found " +:+ pretty a
  | UnknownMachine n => "unknown machine: '" +:+ n +:+ "'"
  | UnknownEntity en m => "unknown entity '" +:+ en +:+ "' in machine '" +:+ m +:+ "'"
  | InvalidDefinition why => "invalid machine definition: " +:+ why
  | DuplicateState n => "duplicate state: '" +:+ n +:+ "'"
  | DuplicateEvent n => "duplicate event: '" +:+ n +:+ "'"
  end.

Definition show_storage (e : StorageError) : string :=
  match e with
  | NotFound w => "not found: " +:+ w
  | AlreadyExists w => "already exists: " +:+ w
  | StorageVersionConflict en x a =>
      "version conflict: entity '" +:+ en +:+ "' expected version " +:+ pretty x
      +:+ " but found " +:+ pretty a
  | TransactionFailed m => "transaction failed: " +:+ m
  | Corrupted m => "corrupted data: " +:+ m
  | Io m => "io error: " +:+ m
  | Internal m => "internal error: " +:+ m
  end.

Definition show_engine (e : EngineError) : string :=
  match e with
  | ECore e => "core error: " +:+ show_core e
  | EStorage e => "storage error: " +:+ show_storage e
  | MachineNotFound n => "machine not found: '" +:+ n +:+ "'"
  | EntityLocked n => "entity locked: '" +:+ n +:+ "'"
  | ShuttingDown => "engine is shutting down"
  end.

(** [Error::source], followed to its end: the fields marked [#[from]]. *)
Definition sources_storage (e : StorageError) : list string :=
  match e with Io m => [m] | _ => [] end.
Definition sources_engine (e : EngineError) : list string :=
  match e with
  | ECore e => [show_core e]
  | EStorage e => show_storage e :: sources_storage e
  | _ => []
  end.

(** An [anyhow::Error] is the list of its messages, the outermost first;
    [context] adds one in front. *)
Definition chain_storage (e : StorageError) : list string := show_storage e :: sources_storage e.
Definition chain_engine (e : EngineError) : list string := show_engine e :: sources_engine e.

(** [{:02X}]. *)
Definition hex_digit (n : N) : Ascii.ascii :=
  if (n <? 10)%N then Ascii.ascii_of_N (48 + n) else Ascii.ascii_of_N (55 + n).
Definition hex2 (b : byte) : string :=
  String (hex_digit (Byte.to_N b / 16)) (String (hex_digit (Byte.to_N b mod 16)) EmptyString).

Definition show_proto (e : ProtoError) : string :=
  match e with
  | ProtoIo m => "io error: " +:+ m
  | InvalidFrameType b => "invalid frame type: 0x" +:+ hex2 b
  | FrameTooLarge size max =>
      "frame too large: " +:+ pretty size +:+ " bytes exceeds maximum " +:+ pretty max +:+ " bytes"
  | DeserializationError m => "deserialization error: " +:+ m
  | SerializationError m => "serialization error: " +:+ m
  | IncompleteFrame => "incomplete frame"
  | InvalidHandshake m => "invalid handshake: " +:+ m
  end.

(** [{:?}] of a tag. *)
Definition tag_debug (t : FrameTag) : string :=
  match t with
  | TStartup => "Startup" | TAuth => "Auth" | TDefineMachine => "DefineMachine"
  | TTransition => "Transition" | TCurrent => "Current" | THistory => "History"
  | TSubscribe => "Subscribe" | TAck => "Ack" | TUnsubscribe => "Unsubscribe"
  | TPing => "Ping" | TTerminate => "Terminate" | TReady => "Ready" | TAuthOk => "AuthOk"
  | TAuthError => "AuthError" | TResult => "Result" | TRejection => "Rejection"
  | TChangeRecord => "ChangeRecord" | TNotice => "Notice" | TError => "Error" | TPong => "Pong"
  end.
