(* ===== verification/Wire.v ===== *)
(** * smdb-wire: the server's connection handler

    Models [crates/smdb-wire/src/server.rs] and [session.rs] over the engine:
    token comparison, the construction of reply frames, [handle_frame],
    [handle_subscribe], the forwarding of a subscription, the handshake and
    request loop of [serve_framed], and the accounting of connections in
    [serve_with_shutdown].

    A connection is the record [Conn]; what the client sends is the list of
    results that the framed stream yields; the write half is a [FrameSink].
    The blocking worker that runs [handle_frame] is a plain call. *)
From S2P Require Import Prelude Core Redb Keys Storage StorageTrait Channel Engine Frame Messages.
From Stdlib Require Import Strings.Byte.

(** ** Errors *)

Inductive WireError : Type :=
| WireIo (msg : string)
| WireProto (e : ProtoError)
| WireEngine (e : EngineError)
| WireTls (msg : string)
| WireAuth (msg : string)
| SessionNotFound (id : string)
| ConnectionClosed.

Definition show_wire (e : WireError) : string :=
  match e with
  | WireIo m => "io error: " +:+ m
  | WireProto e => "protocol error: " +:+ show_proto e
  | WireEngine e => "engine error: " +:+ show_engine e
  | WireTls m => "tls error: " +:+ m
  | WireAuth m => "auth error: " +:+ m
  | SessionNotFound i => "session not found: " +:+ i
  | ConnectionClosed => "connection closed"
  end.

(** ** Tokens *)

(** The accumulator of the comparison loop. *)
Fixpoint ct_diff (a b : bytes) (diff : N) : N :=
  match a, b with
  | x :: a, y :: b => ct_diff a b (N.lor diff (N.lxor (Byte.to_N x) (Byte.to_N y)))
  | _, _ => diff
  end.

Definition ct_eq (a b : bytes) : bool :=
  if negb (length a =? length b)%nat then false
  else (ct_diff a b 0 =? 0)%N.

(** Every configured token is compared. *)
Definition token_is_valid (valid : list string) (presented : string) : bool :=
  foldl (λ matched token,
    matched || ct_eq (String.list_byte_of_string token) (String.list_byte_of_string presented)) false valid.

(** ** The connection *)

(** [serde_json::to_value]. *)
Class ToJson (A : Type) : Type := to_value : A → Res Value string.

(** The write half of a framed connection. *)
Class FrameSink : Type := {
  sink : Type;
  sink_send : sink → Frame → Res unit ProtoError * sink;
}.

(** A connection that takes frames writes each of them once, in order; a failed
    write adds nothing. *)
Class FrameSinkOk (FS : FrameSink) : Type := {
  written : sink → list Frame;
  accepting : sink → Prop;
  sink_send_ok s f s' : sink_send s f = (Ok tt, s') → written s' = written s ++ [f];
  sink_send_err s f e s' : sink_send s f = (Err e, s') → written s' = written s;
  sink_send_accepting s f : accepting s → ∃ s', sink_send s f = (Ok tt, s') ∧ accepting s';
}.

(** A connection that takes a number of frames and then breaks. *)
Definition counted_sink : FrameSink := {|
  sink := nat * bool * list Frame;
  sink_send s f := match s with
                   | (0, true, w) => (Err (ProtoIo "broken pipe"), s)
                   | (S n, true, w) => (Ok tt, (n, true, w ++ [f]))
                   | (n, false, w) => (Ok tt, (n, false, w ++ [f]))
                   end;
|}.

#[export] Instance counted_sink_ok : FrameSinkOk counted_sink.
Proof.
  refine {| written := (snd : sink (FrameSink := counted_sink) → list Frame);
            accepting s := s.1.2 = false |}; cbn.
  - by intros [[[|n] []] w] f s' [= <-].
  - by intros [[[|n] []] w] f e s' [= _ <-].
  - intros [[n []] w] f [=]. destruct n; by eexists.
Defined.

(** What the handlers take from outside: [to_rfc3339] and the version string of
    the build. *)
Class ServerEnv : Type := {
  to_rfc3339 : Time → string;
  SERVER_VERSION : string;
}.

Record ServerMetrics : Type := {
  connections_total : N;
  connections_active : Z;
  transitions_total : N;
}.

Definition count_transition (m : ServerMetrics) : ServerMetrics :=
  {| connections_total := connections_total m; connections_active := connections_active m;
     transitions_total := add64 (transitions_total m) 1 |}.

Record Session : Type := {
  ss_id : string;
  ss_authenticated : bool;
  ss_capabilities : list string;
  ss_subscriptions : gmap string nat;
  ss_created_at : Time;
}.

Definition session_new (id : string) (now : Time) : Session :=
  {| ss_id := id; ss_authenticated := false; ss_capabilities := []; ss_subscriptions := ∅;
     ss_created_at := now |}.
Definition session_remove (s : Session) (sub : string) : Session :=
  {| ss_id := ss_id s; ss_authenticated := ss_authenticated s;
     ss_capabilities := ss_capabilities s;
     ss_subscriptions := delete sub (ss_subscriptions s); ss_created_at := ss_created_at s |}.

Section wire.
Context {SE : StorageEngine} {MP : Mpsc ChangeRecord} {EN : Env} {WC : WireCodecs}.
Context {FS : FrameSink} {SV : ServerEnv} {JS : ToJson EntityState} {JR : ToJson (list TransitionRecord)}.

(** ** Reply frames *)

Definition make_error_frame (message : string) (fatal : bool) : Frame :=
  match encode_message TError {| em_message := message; em_fatal := fatal |} with
  | Ok f => f
  | Err _ => {| tag := TError; body := String.list_byte_of_string "encoding error" |}
  end.

(** [encode_message(..)] with its error turned into an error frame. *)
Definition frame_or_error (r : Res Frame ProtoError) : Frame :=
  match r with Ok f => f | Err e => make_error_frame (show_proto e) false end.

(** [serde_json::json!] objects have their keys in byte order. *)
Definition transition_payload (result : TransitionResult) : Value :=
  VObject [("entity_id", VString (tr_entity_id result));
           ("from", VString (tr_from_state result));
           ("machine", VString (tr_machine result));
           ("sequence", VNumber (PosInt (tr_sequence result)));
           ("state", VString (tr_to_state result));
           ("transition_id", VString (tr_transition_id result));
           ("ts", VString (to_rfc3339 (tr_timestamp result)));
           ("version", VNumber (PosInt (tr_version result)))].

Definition make_transition_result_frame (request_id : N) (result : TransitionResult) : Frame :=
  frame_or_error (encode_message TResult
    {| rs_request_id := request_id; rs_payload := transition_payload result |}).

(** Code, current state and version of a rejection. *)
Definition rejection_code (err : EngineError) : string * option string * option N :=
  match err with
  | ECore (IllegalTransition _ _ _ current_state) =>
      ("illegal_transition", Some current_state, None)
  | ECore (GuardFailed _ _) => ("guard_failed", None, None)
  | ECore (VersionConflict _ _ _ actual) => ("version_conflict", None, Some actual)
  | ECore (UnknownMachine _) | MachineNotFound _ => ("unknown_machine", None, None)
  | ECore (UnknownEntity _ _) => ("unknown_entity", None, None)
  | _ => ("internal_error", None, None)
  end.

Definition rejection_message (request_id : N) (err : EngineError) : RejectionMessage :=
  let '(code, current_state, version) := rejection_code err in
  {| rj_request_id := request_id; rj_code := code; rj_message := show_engine err;
     rj_current_state := current_state; rj_version := version |}.

Definition make_rejection_frame (request_id : N) (err : EngineError) : Frame :=
  frame_or_error (encode_message TRejection (rejection_message request_id err)).

(** ** One request *)

Definition error_reply (message : string) : list Frame := [make_error_frame message false].

Definition result_reply (request_id : N) (payload : Value) : list Frame :=
  [frame_or_error (encode_message TResult
     {| rs_request_id := request_id; rs_payload := payload |})].

Definition handle_frame (e : Engine) (metrics : ServerMetrics) (frame : Frame)
    : list Frame * Engine * ServerMetrics :=
  match tag frame with
  | TPing => ([{| tag := TPong; body := [] |}], e, metrics)
  | TDefineMachine =>
      match decode_message frame with
      | Err err => (error_reply (show_proto err), e, metrics)
      | Ok msg =>
          match define_machine (dm_definition msg) e with
          | (Ok _, e) =>
              (result_reply (dm_request_id msg) (VObject [("ok", VBool true)]), e, metrics)
          | (Err err, e) => (error_reply (show_engine err), e, metrics)
          end
      end
  | TTransition =>
      match decode_message frame with
      | Err err => (error_reply (show_proto err), e, metrics)
      | Ok msg =>
          match transition (tm_entity_id msg) (tm_machine msg) (tm_event msg) (tm_actor msg)
                  (tm_ctx msg) (tm_expected_version msg) (tm_idempotency_key msg) e with
          | (Ok result, e) =>
              ([make_transition_result_frame (tm_request_id msg) result], e,
               count_transition metrics)
          | (Err err, e) => ([make_rejection_frame (tm_request_id msg) err], e, metrics)
          end
      end
  | TCurrent =>
      match decode_message frame with
      | Err err => (error_reply (show_proto err), e, metrics)
      | Ok msg =>
          match current (cu_entity_id msg) (cu_machine msg) e with
          | (Ok state, e) =>
              match to_value state with
              | Ok payload => (result_reply (cu_request_id msg) payload, e, metrics)
              | Err m => (error_reply m, e, metrics)
              end
          | (Err err, e) => (error_reply (show_engine err), e, metrics)
          end
      end
  | THistory =>
      match decode_message frame with
      | Err err => (error_reply (show_proto err), e, metrics)
      | Ok msg =>
          match history (hi_entity_id msg) (hi_machine msg) (hi_limit msg)
                  (hi_after_sequence msg) e with
          | (Ok records, e) =>
              match to_value records with
              | Ok payload => (result_reply (hi_request_id msg) payload, e, metrics)
              | Err m => (error_reply m, e, metrics)
              end
          | (Err err, e) => (error_reply (show_engine err), e, metrics)
          end
      end
  | TAck =>
      match decode_message (A := AckMessage) frame with
      | Err err => (error_reply (show_proto err), e, metrics)
      | Ok _ => ([], e, metrics)
      end
  | other => (error_reply ("unexpected frame " +:+ tag_debug other), e, metrics)
  end.

(** ** Connections *)

(** [c_forwarders] are the forwarding tasks spawned: subscription and receiver. *)
Record Conn : Type := {
  c_engine : Engine;
  c_metrics : ServerMetrics;
  c_session : Session;
  c_sink : sink;
  c_forwarders : list (string * nat);
}.

Definition set_c_sink (c : Conn) s : Conn :=
  {| c_engine := c_engine c; c_metrics := c_metrics c; c_session := c_session c;
     c_sink := s; c_forwarders := c_forwarders c |}.

(** Best effort: [send(..).await.ok()]. *)
Definition send_ignoring (f : Frame) (c : Conn) : Conn :=
  set_c_sink c (sink_send (c_sink c) f).2.

(** The loop that writes response frames and gives up on a write error. *)
Fixpoint send_frames (fs : list Frame) (c : Conn) : Res unit WireError * Conn :=
  match fs with
  | [] => (Ok tt, c)
  | f :: fs =>
      match sink_send (c_sink c) f with
      | (Ok _, s) => send_frames fs (set_c_sink c s)
      | (Err e, s) => (Err (WireProto e), set_c_sink c s)
      end
  end.

Definition handle_subscribe (frame : Frame) (c : Conn) : Res (list Frame) WireError * Conn :=
  match decode_message frame with
  | Err e => (Err (WireProto e), c)
  | Ok msg =>
      let '(rx, e) := subscribe (sb_subscription_id msg) (sb_machine_filter msg)
                        (sb_after_sequence msg) (c_engine c) in
      let c := {| c_engine := e; c_metrics := c_metrics c;
                  c_session := session_remove (c_session c) (sb_subscription_id msg);
                  c_sink := c_sink c;
                  c_forwarders := c_forwarders c ++ [(sb_subscription_id msg, rx)] |} in
      (map_err WireProto (let r := encode_message TResult
         {| rs_request_id := sb_request_id msg;
            rs_payload := VObject [("ok", VBool true);
                                   ("subscription_id", VString (sb_subscription_id msg))] |} in
        match r with Ok f => Ok [f] | Err e => Err e end), c)
  end.

(** What a forwarding task does with the records it receives, in order. *)
Fixpoint forward_subscription (subscription_id : string) (records : list ChangeRecord) (s : sink)
    : sink :=
  match records with
  | [] => s
  | record :: rest =>
      match encode_message TChangeRecord
              {| cm_subscription_id := subscription_id; cm_record := record |} with
      | Err _ => forward_subscription subscription_id rest s
      | Ok f =>
          match sink_send s f with
          | (Ok _, s) => forward_subscription subscription_id rest s
          | (Err _, s) => s
          end
      end
  end.

(** Write the replies to a frame; a write error leaves the main loop. *)
Definition write_replies (fs : list Frame) (c : Conn) : option (Res unit WireError) * Conn :=
  match send_frames fs c with
  | (Ok _, c) => (None, c)
  | (Err e, c) => (Some (Err e), c)
  end.

(** One frame of the main loop; [None] to go on, [Some] to leave it. *)
Definition on_frame (frame : Frame) (c : Conn) : option (Res unit WireError) * Conn :=
  match tag frame with
  | TTerminate => (Some (Ok tt), c)
  | TSubscribe =>
      match handle_subscribe frame c with
      | (Ok frames, c) => write_replies frames c
      | (Err e, c) => (None, send_ignoring (make_error_frame (show_wire e) false) c)
      end
  | TUnsubscribe =>
      match decode_message frame with
      | Ok msg =>
          (None, {| c_engine := unsubscribe (us_subscription_id msg) (c_engine c);
                    c_metrics := c_metrics c;
                    c_session := session_remove (c_session c) (us_subscription_id msg);
                    c_sink := c_sink c; c_forwarders := c_forwarders c |})
      | Err e => (None, send_ignoring (make_error_frame (show_proto e) false) c)
      end
  | _ =>
      let '(frames, e, m) := handle_frame (c_engine c) (c_metrics c) frame in
      write_replies frames
        {| c_engine := e; c_metrics := m; c_session := c_session c;
           c_sink := c_sink c; c_forwarders := c_forwarders c |}
  end.

(** The end of a session. *)
Definition cleanup (c : Conn) : Conn :=
  {| c_engine := foldl (λ e sub, unsubscribe sub e) (c_engine c)
                   (map_to_list (ss_subscriptions (c_session c))).*1;
     c_metrics := c_metrics c; c_session := c_session c; c_sink := c_sink c;
     c_forwarders := c_forwarders c |}.

(** The main loop: a framing error or the end of the stream leaves it. *)
Fixpoint request_loop (incoming : list (Res Frame ProtoError)) (c : Conn)
    : Res unit WireError * Conn :=
  match incoming with
  | [] => (Ok tt, cleanup c)
  | Err _ :: _ => (Ok tt, cleanup c)
  | Ok frame :: rest =>
      match on_frame frame c with
      | (None, c) => request_loop rest c
      | (Some (Ok _), c) => (Ok tt, cleanup c)
      | (Some (Err e), c) => (Err e, c)
      end
  end.

Definition send_fatal_error (message : string) (c : Conn) : Conn :=
  send_ignoring (make_error_frame message true) c.

(** [stream.next().await.ok_or(ConnectionClosed)??]. *)
Definition next_frame (incoming : list (Res Frame ProtoError))
    : Res (Frame * list (Res Frame ProtoError)) WireError :=
  match incoming with
  | [] => Err ConnectionClosed
  | Err e :: _ => Err (WireProto e)
  | Ok f :: rest => Ok (f, rest)
  end.

(** The identifier and the creation instant of a new session. *)
Definition draw_session (e : Engine) : string * Time * Engine :=
  (new_v4 (e_uuids e), utc_now (e_clock e),
   {| e_storage := e_storage e; e_guards := e_guards e; e_subscribers := e_subscribers e;
      e_channels := e_channels e; e_commit_notify := e_commit_notify e;
      e_shutdown := e_shutdown e; e_clock := S (e_clock e); e_uuids := S (e_uuids e) |}).

Definition authenticate (c : Conn) (session_id : string) (capabilities : list string) : Conn :=
  {| c_engine := c_engine c; c_metrics := c_metrics c;
     c_session := {| ss_id := session_id; ss_authenticated := true;
                     ss_capabilities := capabilities;
                     ss_subscriptions := ss_subscriptions (c_session c);
                     ss_created_at := ss_created_at (c_session c) |};
     c_sink := c_sink c; c_forwarders := c_forwarders c |}.

(** After a valid token: open the session, answer and serve. *)
Definition open_session (startup : StartupMessage) (incoming : list (Res Frame ProtoError))
    (c : Conn) : Res unit WireError * Conn :=
  let '(session_id, t, e) := draw_session (c_engine c) in
  let c := authenticate
    {| c_engine := e; c_metrics := c_metrics c; c_session := session_new session_id t;
       c_sink := c_sink c; c_forwarders := c_forwarders c |}
    session_id (su_capabilities startup) in
  match encode_message TAuthOk {| em_message := "ok"; em_fatal := false |} with
  | Err e => (Err (WireProto e), c)
  | Ok auth_ok =>
    match send_frames [auth_ok] c with
    | (Err e, c) => (Err e, c)
    | (Ok _, c) =>
      match encode_message TReady
              {| rd_session_id := session_id; rd_server_version := SERVER_VERSION;
                 rd_protocol_version := PROTOCOL_VERSION;
                 rd_capabilities := ["subscribe"; "history"; "define_machine"] |} with
      | Err e => (Err (WireProto e), c)
      | Ok ready =>
        match send_frames [ready] c with
        | (Err e, c) => (Err e, c)
        | (Ok _, c) => request_loop incoming c
        end
      end
    end
  end.

(** [serve_framed]; [auth_tokens] from the configuration. *)
Definition serve_framed (auth_tokens : list string) (incoming : list (Res Frame ProtoError))
    (c : Conn) : Res unit WireError * Conn :=
  match next_frame incoming with
  | Err e => (Err e, c)
  | Ok (startup_frame, incoming) =>
    if decide (tag startup_frame ≠ TStartup) then
      (Err (WireProto (InvalidFrameType (tag_code (tag startup_frame)))),
       send_fatal_error "expected Startup frame" c)
    else
    match decode_message startup_frame with
    | Err e => (Err (WireProto (DeserializationError (show_proto e))), c)
    | Ok startup =>
      if negb (su_protocol_version startup =? PROTOCOL_VERSION)%N then
        (Err (WireAuth ("unsupported protocol version " +:+ pretty (su_protocol_version startup))),
         send_fatal_error ("protocol version mismatch: server=" +:+ pretty PROTOCOL_VERSION
                           +:+ " client=" +:+ pretty (su_protocol_version startup)) c)
      else
      match next_frame incoming with
      | Err e => (Err e, c)
      | Ok (auth_frame, incoming) =>
        if decide (tag auth_frame ≠ TAuth) then
          (Err (WireAuth "expected Auth frame"), send_fatal_error "expected Auth frame" c)
        else
        match decode_message auth_frame with
        | Err e => (Err (WireProto e), c)
        | Ok auth =>
          if negb (token_is_valid auth_tokens (au_token auth)) then
            match encode_message TAuthError {| em_message := "invalid token"; em_fatal := true |} with
            | Err e => (Err (WireProto e), c)
            | Ok f => (Err (WireAuth "invalid auth token"), send_ignoring f c)
            end
          else open_session startup incoming c
        end
      end
    end
  end.

End wire.

(** ** Accepting connections ([serve_with_shutdown]) *)

(** [tokio::sync::Semaphore]: [try_acquire_owned] takes a permit if one is
    available; dropping the permit returns it. *)
Class Semaphore : Type := {
  sem : Type;
  sem_new : nat → sem;
  try_acquire_owned : sem → option sem;
  sem_release : sem → sem;
}.

Class SemaphoreOk (SM : Semaphore) : Type := {
  available : sem → nat;
  available_new n : available (sem_new n) = n;
  acquire_some s s' : try_acquire_owned s = Some s' → available s = S (available s');
  acquire_none s : try_acquire_owned s = None → available s = 0;
  available_release s : available (sem_release s) = S (available s);
}.

Definition counter_semaphore : Semaphore := {|
  sem := nat;
  sem_new n := n;
  try_acquire_owned s := match s with 0 => None | S n => Some n end;
  sem_release s := S s;
|}.

#[export] Instance counter_semaphore_ok : SemaphoreOk counter_semaphore.
Proof.
  refine {| available := (id : sem (Semaphore := counter_semaphore) → nat) |}; cbn; try done.
  - by intros [|s] s' [= <-].
  - by intros [|s].
Defined.

Section accept.
Context {SM : Semaphore}.

(** The accept loop: permits, metrics, and the connections being served. *)
Record Listener : Type := {
  l_semaphore : sem;
  l_metrics : ServerMetrics;
  l_open : list nat;
  l_accepting : bool;
}.

Definition listener_new (max_connections : nat) (metrics : ServerMetrics) : Listener :=
  {| l_semaphore := sem_new max_connections; l_metrics := metrics; l_open := [];
     l_accepting := true |}.

(** An accepted stream: dropped when no permit is left. *)
Definition on_accept (peer : nat) (l : Listener) : Listener :=
  match try_acquire_owned (l_semaphore l) with
  | None => l
  | Some permits =>
      {| l_semaphore := permits;
         l_metrics := {| connections_total := add64 (connections_total (l_metrics l)) 1;
                         connections_active := connections_active (l_metrics l) + 1;
                         transitions_total := transitions_total (l_metrics l) |};
         l_open := peer :: l_open l; l_accepting := l_accepting l |}
  end.

(** The task of connection [i] ends, with or without an error. *)
Definition on_close (i : nat) (l : Listener) : Listener :=
  {| l_semaphore := sem_release (l_semaphore l);
     l_metrics := {| connections_total := connections_total (l_metrics l);
                     connections_active := connections_active (l_metrics l) - 1;
                     transitions_total := transitions_total (l_metrics l) |};
     l_open := take i (l_open l) ++ drop (S i) (l_open l); l_accepting := l_accepting l |}.

Definition on_shutdown (l : Listener) : Listener :=
  {| l_semaphore := l_semaphore l; l_metrics := l_metrics l; l_open := l_open l;
     l_accepting := false |}.

(** The events of a listening server; an error of [accept] ends the loop as a
    shutdown does. *)
Inductive listen_step : Listener → Listener → Prop :=
| step_accept peer l : l_accepting l = true → listen_step l (on_accept peer l)
| step_accept_error l : l_accepting l = true → listen_step l (on_shutdown l)
| step_close i l : i < length (l_open l) → listen_step l (on_close i l)
| step_shutdown l : listen_step l (on_shutdown l).

Inductive listening (max_connections : nat) (metrics : ServerMetrics) : Listener → Prop :=
| listen_start : listening max_connections metrics (listener_new max_connections metrics)
| listen_next l l' : listening max_connections metrics l → listen_step l l' →
    listening max_connections metrics l'.

End accept.
