(* ===== verification/WireProps.v ===== *)
(** * Properties of the server

    Stated for every storage engine, channel, message codec and connection:
    authentication, replies, pipelining, forwarding, and the accounting of
    connections. The witnesses are in [WireExamples]. *)
From S2P Require Import Prelude Core Redb Keys Storage StorageSpec StorageTrait Channel Engine.
From S2P Require Import EngineSpec EngineRun System EngineProps Frame Messages Wire Concrete.
From Stdlib Require Import Strings.Byte.

(** ** Tokens *)

Lemma to_N_inj a b : Byte.to_N a = Byte.to_N b → a = b.
Proof.
  intros H. apply (f_equal Byte.of_N) in H. rewrite !Byte.of_to_N in H. by injection H.
Qed.

Lemma ct_diff_zero a b d :
  length a = length b → ct_diff a b d = 0%N ↔ d = 0%N ∧ a = b.
Proof.
  revert b d. induction a as [|x a IH]; intros [|y b] d Hlen; cbn in *; try lia.
  - naive_solver.
  - rewrite IH by lia. rewrite N.lor_eq_0_iff, N.lxor_eq_0_iff. split.
    + intros [[-> Hx] ->]. split; [done|]. by rewrite (to_N_inj _ _ Hx).
    + by intros [-> [= -> ->]].
Qed.

Lemma ct_eq_spec a b : ct_eq a b = true ↔ a = b.
Proof.
  unfold ct_eq. destruct (Nat.eqb_spec (length a) (length b)) as [Hl|Hl]; cbn.
  - rewrite N.eqb_eq, ct_diff_zero by done. naive_solver.
  - split; [done|]. by intros ->.
Qed.

Lemma token_fold valid p acc :
  foldl (λ matched token,
    matched || ct_eq (String.list_byte_of_string token) (String.list_byte_of_string p)) acc valid = true
  ↔ acc = true ∨ p ∈ valid.
Proof.
  revert acc. induction valid as [|t valid IH]; intros acc; cbn; [set_solver|].
  rewrite IH, orb_true_iff, ct_eq_spec, elem_of_cons.
  assert (String.list_byte_of_string t = String.list_byte_of_string p ↔ p = t) as ->; [|naive_solver].
  split; [|by intros ->]. intros H. apply (f_equal String.string_of_list_byte) in H.
  by rewrite !String.string_of_list_byte_of_string in H.
Qed.

(** C38. The comparison without early exit accepts a token exactly when it is one
    of the configured ones; with no token configured, nothing is accepted. *)
Theorem token_is_valid_iff (valid : list string) (presented : string) :
  token_is_valid valid presented = true ↔ presented ∈ valid.
Proof. unfold token_is_valid. rewrite token_fold. naive_solver. Qed.

(** ** Connections *)

Section wire_props.
Context {SE : StorageEngine} {MP : Mpsc ChangeRecord} {EN : Env} {WC : WireCodecs}.
Context {FS : FrameSink} {SV : ServerEnv} {JS : ToJson EntityState} {JR : ToJson (list TransitionRecord)}.

(** The first two frames are a Startup of the server's version and an Auth with a
    configured token. *)
Definition handshake (tokens : list string) (incoming : list (Res Frame ProtoError)) : Prop :=
  ∃ f1 f2 rest startup auth, incoming = Ok f1 :: Ok f2 :: rest
    ∧ tag f1 = TStartup ∧ decode_message f1 = Ok startup
    ∧ su_protocol_version startup = PROTOCOL_VERSION
    ∧ tag f2 = TAuth ∧ decode_message f2 = Ok auth ∧ au_token auth ∈ tokens.


(** The tags a reply may have. *)
Definition reply_tags (t : FrameTag) : list FrameTag :=
  match t with
  | TPing => [TPong]
  | TTransition => [TResult; TRejection; TError]
  | TDefineMachine | TCurrent | THistory => [TResult; TError]
  | _ => [TError]
  end.

Lemma make_error_frame_tag m f : tag (make_error_frame m f) = TError.
Proof. unfold make_error_frame, encode_message. by destruct (to_vec _). Qed.

Lemma frame_or_error_tag {A} `{Serde A} t (msg : A) (ts : list FrameTag) :
  t ∈ ts → TError ∈ ts → tag (frame_or_error (encode_message t msg)) ∈ ts.
Proof.
  unfold encode_message. intros Ht He. destruct (to_vec msg); cbn; [done|].
  by rewrite make_error_frame_tag.
Qed.

(** Every frame handled by [handle_frame] gets exactly one reply, of a tag that
    belongs to the request, except an Ack that decodes, which gets none. *)
Lemma handle_frame_replies (e : Engine) (m : ServerMetrics) (f : Frame) :
  let '(replies, _, _) := handle_frame e m f in
  (replies = [] ∧ tag f = TAck ∧ ∃ ack : AckMessage, decode_message f = Ok ack)
  ∨ ∃ r, replies = [r] ∧ tag r ∈ reply_tags (tag f).
Proof.
  assert (∀ msg (ts : list FrameTag), TError ∈ ts →
    ∃ r, error_reply msg = [r] ∧ tag r ∈ ts) as Herr.
  { intros msg ts Hts. eexists. split; [done|]. by rewrite make_error_frame_tag. }
  assert (∀ i v (ts : list FrameTag), TResult ∈ ts → TError ∈ ts →
    ∃ r, result_reply i v = [r] ∧ tag r ∈ ts) as Hres.
  { intros i v ts H1 H2. eexists. split; [done|]. by apply frame_or_error_tag. }
  unfold handle_frame. destruct (tag f) eqn:Htag; cbn [reply_tags];
    try (right; apply Herr; set_solver).
  - destruct (decode_message f) as [msg|err]; [|right; apply Herr; set_solver].
    destruct (define_machine _ e) as [[u|err] e']; right; [apply Hres|apply Herr]; set_solver.
  - destruct (decode_message f) as [msg|err]; [|right; apply Herr; set_solver].
    destruct (transition _ _ _ _ _ _ _ e) as [[res|err] e']; right; eexists; (split; [done|]).
    + apply frame_or_error_tag; set_solver.
    + apply frame_or_error_tag; set_solver.
  - destruct (decode_message f) as [msg|err]; [|right; apply Herr; set_solver].
    destruct (current _ _ e) as [[s|err] e']; [|right; apply Herr; set_solver].
    destruct (to_value s); right; [apply Hres|apply Herr]; set_solver.
  - destruct (decode_message f) as [msg|err]; [|right; apply Herr; set_solver].
    destruct (history _ _ _ _ e) as [[rs|err] e']; [|right; apply Herr; set_solver].
    destruct (to_value rs); right; [apply Hres|apply Herr]; set_solver.
  - destruct (decode_message f) as [msg|err]; [left; eauto|right; apply Herr; set_solver].
  - right. eexists. split; [done|]. constructor.
Qed.

Context {WO : WireCodecsOk WC}.

(** *** What a Transition frame is answered *)

Definition frame_request (msg : TransitionMessage) : Request :=
  {| q_entity := tm_entity_id msg; q_machine := tm_machine msg; q_event := tm_event msg;
     q_actor := tm_actor msg; q_ctx := tm_ctx msg; q_expected := tm_expected_version msg;
     q_key := tm_idempotency_key msg |}.

(** A Result frame with the fields of a record of the log. *)
Definition reports (id : N) (rec : TransitionRecord) (reply : Frame) : Prop :=
  tag reply = TResult
  ∧ decode_message reply = Ok {| rs_request_id := id; rs_payload :=
      VObject [("entity_id", VString (rec_entity_id rec)); ("from", VString (rec_from_state rec));
               ("machine", VString (rec_machine rec));
               ("sequence", VNumber (PosInt (rec_sequence rec)));
               ("state", VString (rec_to_state rec)); ("transition_id", VString (rec_id rec));
               ("ts", VString (to_rfc3339 (rec_timestamp rec)));
               ("version", VNumber (PosInt (rec_version rec)))] |}.

Definition rejects (id : N) (code message : string) (state : option string) (version : option N)
    (reply : Frame) : Prop :=
  tag reply = TRejection
  ∧ decode_message reply = Ok {| rj_request_id := id; rj_code := code; rj_message := message;
                                 rj_current_state := state; rj_version := version |}.

(** Machine, entity and version of the request are in order and the definition
    has this rule for the event in the entity's state. *)
Definition allowed (a : Abs) (q : Request) (def : MachineDefinition) (rule : TransitionRule) : Prop :=
  a_machines a !! q_machine q = Some def ∧ version_ok a q
  ∧ rule ∈ md_transitions def ∧ rule_event rule = q_event q
  ∧ spec_current a def (q_entity q) (q_machine q) ∈ rule_from_states rule.

(** The answer to the request [q] with identifier [id], from the store [a] and
    the registered guards: the reply and the store afterwards. *)
Inductive transition_answer (reg : GuardRegistry.GuardRegistry) (a : Abs) (q : Request) (id : N)
    : Frame → Abs → Prop :=
| answer_replay key rec reply :
    q_key q = Some key → rec ∈ a_log a → rec_idempotency_key rec = Some key →
    reports id rec reply → transition_answer reg a q id reply a
| answer_no_machine reply :
    spec_hit a q = None → a_machines a !! q_machine q = None →
    rejects id "internal_error" ("storage error: not found: machine '" +:+ q_machine q +:+ "'")
      None None reply →
    transition_answer reg a q id reply a
| answer_conflict def x reply :
    spec_hit a q = None → a_machines a !! q_machine q = Some def → q_expected q = Some x →
    x ≠ spec_version a (q_entity q) (q_machine q) →
    rejects id "version_conflict"
      ("core error: version conflict: entity '" +:+ q_entity q +:+ "' in machine '" +:+ q_machine q
       +:+ "' expected version " +:+ pretty x +:+ " but found "
       +:+ pretty (spec_version a (q_entity q) (q_machine q)))
      None (Some (spec_version a (q_entity q) (q_machine q))) reply →
    transition_answer reg a q id reply a
| answer_illegal def reply :
    spec_hit a q = None → a_machines a !! q_machine q = Some def → version_ok a q →
    (∀ rule, rule ∈ md_transitions def → rule_event rule = q_event q →
       spec_current a def (q_entity q) (q_machine q) ∉ rule_from_states rule) →
    rejects id "illegal_transition"
      ("core error: illegal transition: entity '" +:+ q_entity q +:+ "' in machine '" +:+ q_machine q
       +:+ "' has no transition for event '" +:+ q_event q +:+ "' from state '"
       +:+ spec_current a def (q_entity q) (q_machine q) +:+ "'")
      (Some (spec_current a def (q_entity q) (q_machine q))) None reply →
    transition_answer reg a q id reply a
| answer_guard def rule g f updated created reply :
    spec_hit a q = None → allowed a q def rule → g ∈ rule_guards rule → reg !! g = Some f →
    f (guard_state a def q updated created) (q_ctx q) = false →
    rejects id "guard_failed" ("core error: guard '" +:+ g +:+ "' failed: guard evaluated to false")
      None None reply →
    transition_answer reg a q id reply a
| answer_commit def rule now tid ts effects reply :
    spec_hit a q = None → allowed a q def rule →
    Forall2 (effect_for tid) (FsmPlanner.compute_effects def (q_event q)) effects →
    reports id (commit_record a q def rule tid ts) reply →
    transition_answer reg a q id reply
      (commit_abs a (commit_record a q def rule tid ts) (commit_state a q rule now) effects).

(** The frame of a result, and of an error. *)
Lemma result_frame_reports id rec :
  reports id rec (make_transition_result_frame id (replay_result rec)).
Proof.
  unfold make_transition_result_frame.
  by destruct (encode_message_ok TResult {| rs_request_id := id;
    rs_payload := transition_payload (replay_result rec) |}) as (fr & -> & Ht & Hd & _).
Qed.

Lemma rejection_frame_rejects id err :
  rejects id (rejection_code err).1.1 (show_engine err) (rejection_code err).1.2 (rejection_code err).2
    (make_rejection_frame id err).
Proof.
  unfold make_rejection_frame.
  destruct (encode_message_ok TRejection (rejection_message id err)) as (fr & -> & Ht & Hd & _).
  split; [done|]. cbn. rewrite Hd. unfold rejection_message. by destruct (rejection_code err) as [[]].
Qed.

Lemma spec_hit_none a q k : spec_hit a q = None → q_key q = Some k → idem_used (a_log a) k = false.
Proof.
  unfold spec_hit. intros Hh Hk. rewrite Hk in Hh. cbn in Hh.
  destruct (idem_used (a_log a) k) eqn:Hu; [|done].
  apply find_idem_used in Hu as [? Hu]. congruence.
Qed.

(** The step of the specification, answered. *)
Lemma answer_of_step defs reg a q id r a' :
  consistent defs a → spec_step reg a q (spec_hit a q) r a' →
  transition_answer reg a q id
    match r with Ok res => make_transition_result_frame id res | Err err => make_rejection_frame id err end a'.
Proof.
  intros HC Hs. assert (∀ def rule, planned a q def rule → allowed a q def rule) as Hplan.
  { intros def rule (Hm & Hv & (?&?&?)%plan_transition_elem). by split_and!. }
  remember (spec_hit a q) as hit eqn:Hhit. symmetry in Hhit.
  destruct Hs as [rec|Hm|def x Hm Hx Hne|def err Hm Hv Hp|def rule t1 t2 err Hp Hg|def rule t1 t2 k Hp Hg Hk Hu
    |def rule t1 t2 now tid ts effects Hp Hg Hk Hid Hfr Heff].
  - unfold spec_hit in Hhit. destruct (q_key q) as [k|] eqn:Hk; [|done]. cbn in Hhit.
    apply find_some in Hhit as [Hin%list_elem_of_In Hb%bool_decide_eq_true].
    eapply answer_replay; eauto using result_frame_reports.
  - apply answer_no_machine; [done..|apply rejection_frame_rejects].
  - eapply answer_conflict; [done..|apply rejection_frame_rejects].
  - apply plan_transition_err in Hp as [-> Hno].
    destruct (c_machines _ _ HC _ _ Hm) as (def0 & _ & _ & Hn & ->).
    eapply answer_illegal; [done..|]. rewrite <- Hn. apply rejection_frame_rejects.
  - destruct (guards_fail_registered _ _ _ _ _ Hg) as (g & f & Hin & Hf & Hno & ->).
    eapply answer_guard; [done|by apply Hplan|done..|apply rejection_frame_rejects].
  - by rewrite (spec_hit_none a q k) in Hu.
  - eapply answer_commit; [done|by apply Hplan|done|apply result_frame_reports].
Qed.

Context {SO : StorageOk SE} {MO : MpscOk ChangeRecord} {EO : EnvOk EN}.

(** C29. A Transition frame that decodes gets one reply, and over a store that
    works the reply says what happened to the store. A Result carries the
    entity, machine, states, sequence, identifier, time and version of the
    record now at the end of the log, or of the record that was committed
    before under the request's key; then the transition counter goes up by one,
    modulo 2^64. Otherwise nothing changes, in the store or the counters, and
    the reply is a Rejection with the request's identifier:
    [illegal_transition] with the entity's state when the definition has no rule
    for the event there, [version_conflict] with the entity's version when
    another was expected, [guard_failed] when a registered guard of the rule
    says no, and [internal_error] when there is no such machine. (PROTOCOL.md
    documents [unknown_machine] for the last, and state and version on all.) *)
Theorem transition_reply defs n reg (e : Engine) (m : ServerMetrics) (f : Frame)
    (msg : TransitionMessage) :
  reachable true defs n reg e → (N.of_nat (S n) < u64_max)%N → e_shutdown e = false →
  tag f = TTransition → decode_message f = Ok msg →
  nul_free (tm_entity_id msg) = true → nul_free (tm_machine msg) = true →
  ∃ a a' reply e' m',
    inv_at true defs n reg e a ∧ inv_at true defs (S n) reg e' a'
    ∧ handle_frame e m f = ([reply], e', m')
    ∧ transition_answer (e_guards e) a (frame_request msg) (tm_request_id msg) reply a'
    ∧ connections_total m' = connections_total m ∧ connections_active m' = connections_active m
    ∧ transitions_total m'
      = if decide (tag reply = TResult) then ((transitions_total m + 1) mod 2 ^ 64)%N
        else transitions_total m.
Proof.
  intros Hreach Hn Hsd Htag Hdec He Hm. destruct (inv_reachable _ _ _ _ _ Hreach ltac:(lia)) as [a HI].
  destruct (do_transition (frame_request msg) e) as [r e'] eqn:Hrun. pose proof Hrun as Hstep.
  destruct (inv_spec_step _ _ _ _ _ _ (frame_request msg) _ _ HI ltac:(lia) He Hm Hsd Hstep)
    as (hit & [-> |[? _]] & [(a' & Hs & HI' & _)|[? _]]); try done.
  pose proof (answer_of_step defs _ _ _ (tm_request_id msg) _ _ (i_consistent _ _ _ _ _ _ HI) Hs) as Ha.
  unfold do_transition in Hrun.
  cbn [frame_request q_entity q_machine q_event q_actor q_ctx q_expected q_key] in Hrun.
  unfold handle_frame. rewrite Htag, Hdec, Hrun.
  destruct r as [res|err]; eexists a, a', _, e', _; (split_and!; [done..|]).
  - assert (tag (make_transition_result_frame (tm_request_id msg) res) = TResult) as ->; [|done].
    unfold make_transition_result_frame.
    by destruct (encode_message_ok TResult {| rs_request_id := tm_request_id msg;
      rs_payload := transition_payload res |}) as (fr & -> & ? & _).
  - destruct (rejection_frame_rejects (tm_request_id msg) err) as [-> _]. done.
Qed.

(** An unknown machine is reported as an internal error: when the engine's own
    lookup of the machine fails, a transition on it fails with the same error,
    and the rejection sent to the client has the code [internal_error] instead of
    the [unknown_machine] that is kept for this case. *)
Theorem unknown_machine_internal_error (q : Request) (e : Engine) err e' :
  e_shutdown e = false → q_key q = None → get_machine (q_machine q) e = (Err err, e') →
  do_transition q e = (Err err, e') ∧ rejection_code err = ("internal_error", None, None).
Proof.
  intros Hsd Hk Hg. unfold do_transition, transition, st_bind, gets. rewrite Hsd, Hk.
  cbn [lookup_idempotency]. unfold st_ret. unfold get_machine in Hg. rewrite Hg. split; [done|].
  unfold storage in Hg. destruct (s_get_machine _ _ _) as [[d|se] st]; by simplify_eq/=.
Qed.

(** The session's table of subscriptions stays empty: no frame enters
    anything into it, so the clean-up at the end of a session unsubscribes
    nothing and the engine keeps the subscriptions of closed sessions until a
    send to them fails. *)
Theorem session_cleanup_is_noop (c : Conn) :
  ss_subscriptions (c_session c) = ∅ →
  cleanup c = c ∧ ∀ f, ss_subscriptions (c_session (on_frame f c).2) = ∅.
Proof.
  intros Hs. split.
  { unfold cleanup. rewrite Hs, map_to_list_empty. by destruct c. }
  intros f. unfold on_frame.
  assert (∀ fs c0, ss_subscriptions (c_session c0) = ∅ →
    ss_subscriptions (c_session (send_frames fs c0).2) = ∅) as Hsend.
  { induction fs as [|x fs IH]; intros c0 H0; cbn; [done|].
    destruct (sink_send (c_sink c0) x) as [[u|e] s]; [by apply IH|done]. }
  assert (∀ fs c0, ss_subscriptions (c_session c0) = ∅ →
    ss_subscriptions (c_session (write_replies fs c0).2) = ∅) as Hm.
  { intros fs c0 H0. unfold write_replies. specialize (Hsend fs c0 H0).
    by destruct (send_frames fs c0) as [[] c1]. }
  destruct (tag f); try (destruct (handle_frame _ _ f) as [[fs e] m]; by apply Hm); try done.
  - unfold handle_subscribe. destruct (decode_message f) as [msg|e]; [|done].
    destruct (subscribe _ _ _ _) as [rx e]. destruct (encode_message _ _) as [fr|pe]; cbn [map_err].
    + apply Hm. cbn. by rewrite Hs, delete_empty.
    + cbn. by rewrite Hs, delete_empty.
  - destruct (decode_message f) as [msg|e]; cbn; [by rewrite Hs, delete_empty|done].
Qed.

(** ** Pipelining and forwarding *)

Context {FO : FrameSinkOk FS}.

(** The requests that [on_frame] leaves to [handle_frame], and that get a reply. *)
Definition is_request (f : Frame) : bool :=
  match tag f with
  | TTerminate | TSubscribe | TUnsubscribe | TAck => false
  | _ => true
  end.

Lemma handle_frame_reply e m f :
  is_request f = true →
  ∃ r e' m', handle_frame e m f = ([r], e', m') ∧ tag r ∈ reply_tags (tag f).
Proof.
  intros Hreq. pose proof (handle_frame_replies e m f) as H.
  destruct (handle_frame e m f) as [[rs e'] m']. destruct H as [(_ & Hack & _)|(r & -> & Hr)].
  - unfold is_request in Hreq. by rewrite Hack in Hreq.
  - by exists r, e', m'.
Qed.

Lemma on_frame_request c f :
  accepting (c_sink c) → is_request f = true →
  ∃ r c', on_frame f c = (None, c') ∧ accepting (c_sink c')
    ∧ written (c_sink c') = written (c_sink c) ++ [r] ∧ tag r ∈ reply_tags (tag f)
    ∧ c_engine c' = (handle_frame (c_engine c) (c_metrics c) f).1.2.
Proof.
  intros Hacc Hreq.
  destruct (handle_frame_reply (c_engine c) (c_metrics c) f Hreq) as (r & e' & m' & Hh & Hr).
  destruct (sink_send_accepting (c_sink c) r Hacc) as (s' & Hs & Hacc').
  assert (on_frame f c = write_replies [r]
    {| c_engine := e'; c_metrics := m'; c_session := c_session c; c_sink := c_sink c;
       c_forwarders := c_forwarders c |}) as ->.
  { unfold on_frame, is_request in *. rewrite Hh. by destruct (tag f). }
  unfold write_replies. cbn [send_frames c_sink]. rewrite Hs. cbn.
  exists r. eexists. split; [done|]. cbn. rewrite Hh. split_and!; try done.
  by apply sink_send_ok.
Qed.


Lemma serve_handshake tokens incoming (c : Conn) :
  accepting (c_sink c) → handshake tokens incoming →
  ∃ auth_ok ready msg c', serve_framed tokens incoming c = request_loop (drop 2 incoming) c'
    ∧ written (c_sink c') = written (c_sink c) ++ [auth_ok; ready]
    ∧ tag auth_ok = TAuthOk ∧ tag ready = TReady
    ∧ decode_message ready = Ok msg ∧ rd_protocol_version msg = PROTOCOL_VERSION
    ∧ rd_session_id msg = ss_id (c_session c') ∧ ss_authenticated (c_session c') = true
    ∧ accepting (c_sink c') ∧ e_storage (c_engine c') = e_storage (c_engine c).
Proof.
  intros Hacc (f1 & f2 & rest & startup & auth & -> & Ht1 & Hd1 & Hv & Ht2 & Hd2 & Htok).
  unfold serve_framed. cbn [next_frame drop]. rewrite decide_False by naive_solver.
  rewrite Hd1, Hv, N.eqb_refl. cbn [negb]. rewrite decide_False by naive_solver. rewrite Hd2.
  assert (token_is_valid tokens (au_token auth) = true) as ->.
  { apply token_fold. by right. }
  cbn [negb]. unfold open_session. cbn [draw_session].
  destruct (encode_message_ok TAuthOk {| em_message := "ok"; em_fatal := false |})
    as (f3 & -> & Ht3 & _). cbn [send_frames c_sink authenticate].
  destruct (sink_send_accepting (c_sink c) f3 Hacc) as (s1 & Hs1 & Hacc1). rewrite Hs1.
  set (rdy := Build_ReadyMessage _ _ _ _).
  destruct (encode_message_ok TReady rdy) as (f4 & -> & Ht4 & Hd4 & _).
  cbn [send_frames c_sink set_c_sink].
  destruct (sink_send_accepting s1 f4 Hacc1) as (s2 & Hs2 & Hacc2). rewrite Hs2.
  exists f3, f4, rdy. eexists. split; [done|]. cbn. split_and!; try done.
  apply sink_send_ok in Hs1, Hs2. by rewrite Hs2, Hs1, <- app_assoc.
Qed.

(** A valid handshake is answered and the session served: the client gets
    AuthOk and then Ready, with the protocol version of the server, and the
    frames that follow are handled by the request loop on an authenticated
    session. *)
Theorem handshake_opens_session tokens incoming (c : Conn) :
  accepting (c_sink c) → handshake tokens incoming →
  ∃ auth_ok ready msg c', serve_framed tokens incoming c = request_loop (drop 2 incoming) c'
    ∧ written (c_sink c') = written (c_sink c) ++ [auth_ok; ready]
    ∧ tag auth_ok = TAuthOk ∧ tag ready = TReady
    ∧ decode_message ready = Ok msg ∧ rd_protocol_version msg = PROTOCOL_VERSION
    ∧ rd_session_id msg = ss_id (c_session c') ∧ ss_authenticated (c_session c') = true
    ∧ accepting (c_sink c') ∧ e_storage (c_engine c') = e_storage (c_engine c).
Proof. apply serve_handshake. Qed.

(** The frame decodes to the record under the subscription's identifier. *)
Definition carries (sub : string) (rec : ChangeRecord) (f : Frame) : Prop :=
  tag f = TChangeRecord
  ∧ decode_message f = Ok {| cm_subscription_id := sub; cm_record := rec |}.

(** A forwarding task delivers what it receives: every record, in order, as
    a ChangeRecord frame under the subscription's identifier, and nothing else. *)
Theorem forwards_in_order sub (records : list ChangeRecord) (s : sink) :
  accepting s →
  ∃ fs, written (forward_subscription sub records s) = written s ++ fs
    ∧ Forall2 (carries sub) records fs.
Proof.
  revert s. induction records as [|rec records IH]; intros s Hacc.
  - exists []. cbn. by rewrite app_nil_r.
  - cbn [forward_subscription]. set (x := Build_ChangeRecordMessage _ _).
    destruct (encode_message_ok TChangeRecord x) as (f & -> & Ht & Hd & _).
    destruct (sink_send_accepting s f Hacc) as (s' & Hs & Hacc'). rewrite Hs.
    destruct (IH s' Hacc') as (fs & Hw & HF). exists (f :: fs). apply sink_send_ok in Hs.
    rewrite Hw, Hs, <- app_assoc. split; [done|]. by constructor.
Qed.

End wire_props.

(** ** Connections in service *)

(** The number of connections being served never exceeds the configured
    maximum, every permit is either free or held by one of them, and the gauge of
    active connections counts them, whatever the order of accepts, ends of
    connections and the shutdown. *)
Theorem connections_bounded {SM : Semaphore} {SO : SemaphoreOk SM} max_connections metrics (l : Listener) :
  connections_active metrics = 0%Z → listening max_connections metrics l →
  length (l_open l) ≤ max_connections
  ∧ available (l_semaphore l) + length (l_open l) = max_connections
  ∧ connections_active (l_metrics l) = Z.of_nat (length (l_open l)).
Proof.
  intros H0 Hl. enough (available (l_semaphore l) + length (l_open l) = max_connections
    ∧ connections_active (l_metrics l) = Z.of_nat (length (l_open l))) by (split; [lia|done]).
  induction Hl as [|l l' _ [IH1 IH2] Hstep]; [cbn; by rewrite available_new|].
  destruct Hstep as [peer l Hacc|l _|i l Hi|l]; cbn; [|done|rewrite available_release|done].
  - unfold on_accept. destruct (try_acquire_owned (l_semaphore l)) as [p|] eqn:Hp; [|done].
    apply acquire_some in Hp. cbn. lia.
  - rewrite length_app, length_take, length_drop. lia.
Qed.
