(* ===== verification/WireExamples.v ===== *)
(** * The server's properties at work

    The codecs of the messages as countable types, and a client that connects,
    authenticates, submits a document and asks for its state: each property of
    [WireProps] is applied to a concrete connection. *)
From S2P Require Import Prelude Core Redb Keys Storage StorageSpec StorageTrait Channel Engine.
From S2P Require Import EngineSpec EngineRun System Concrete EngineExamples Frame Messages Wire.
From S2P Require Import WireProps.
Import Demo.

(** ** Countability of the messages *)

#[export] Instance StartupMessage_eq_dec : EqDecision StartupMessage.
Proof. solve_decision. Defined.
#[export] Instance StartupMessage_countable : Countable StartupMessage.
Proof.
  apply (inj_countable' (λ m, (su_protocol_version m, su_capabilities m))
    (λ '(a, b), Build_StartupMessage a b)). by intros [].
Defined.

#[export] Instance AuthMessage_eq_dec : EqDecision AuthMessage.
Proof. solve_decision. Defined.
#[export] Instance AuthMessage_countable : Countable AuthMessage.
Proof. apply (inj_countable' au_token Build_AuthMessage). by intros []. Defined.

#[export] Instance DefineMachineMessage_eq_dec : EqDecision DefineMachineMessage.
Proof. solve_decision. Defined.
#[export] Instance DefineMachineMessage_countable : Countable DefineMachineMessage.
Proof.
  apply (inj_countable' (λ m, (dm_request_id m, dm_name m, dm_version m, dm_definition m))
    (λ '(a, b, c, d), Build_DefineMachineMessage a b c d)). by intros [].
Defined.

#[export] Instance TransitionMessage_eq_dec : EqDecision TransitionMessage.
Proof. solve_decision. Defined.
#[export] Instance TransitionMessage_countable : Countable TransitionMessage.
Proof.
  apply (inj_countable'
    (λ m, (tm_request_id m, tm_entity_id m, tm_machine m, tm_event m, tm_expected_version m,
           tm_idempotency_key m, tm_ctx m, tm_actor m))
    (λ '(a, b, c, d, e, f, g, h), Build_TransitionMessage a b c d e f g h)). by intros [].
Defined.

#[export] Instance CurrentMessage_eq_dec : EqDecision CurrentMessage.
Proof. solve_decision. Defined.
#[export] Instance CurrentMessage_countable : Countable CurrentMessage.
Proof.
  apply (inj_countable' (λ m, (cu_request_id m, cu_entity_id m, cu_machine m))
    (λ '(a, b, c), Build_CurrentMessage a b c)). by intros [].
Defined.

#[export] Instance HistoryMessage_eq_dec : EqDecision HistoryMessage.
Proof. solve_decision. Defined.
#[export] Instance HistoryMessage_countable : Countable HistoryMessage.
Proof.
  apply (inj_countable'
    (λ m, (hi_request_id m, hi_entity_id m, hi_machine m, hi_limit m, hi_after_sequence m))
    (λ '(a, b, c, d, e), Build_HistoryMessage a b c d e)). by intros [].
Defined.

#[export] Instance SubscribeMessage_eq_dec : EqDecision SubscribeMessage.
Proof. solve_decision. Defined.
#[export] Instance SubscribeMessage_countable : Countable SubscribeMessage.
Proof.
  apply (inj_countable'
    (λ m, (sb_request_id m, sb_subscription_id m, sb_machine_filter m, sb_after_sequence m))
    (λ '(a, b, c, d), Build_SubscribeMessage a b c d)). by intros [].
Defined.

#[export] Instance AckMessage_eq_dec : EqDecision AckMessage.
Proof. solve_decision. Defined.
#[export] Instance AckMessage_countable : Countable AckMessage.
Proof.
  apply (inj_countable' (λ m, (ak_subscription_id m, ak_up_to_sequence m))
    (λ '(a, b), Build_AckMessage a b)). by intros [].
Defined.

#[export] Instance UnsubscribeMessage_eq_dec : EqDecision UnsubscribeMessage.
Proof. solve_decision. Defined.
#[export] Instance UnsubscribeMessage_countable : Countable UnsubscribeMessage.
Proof. apply (inj_countable' us_subscription_id Build_UnsubscribeMessage). by intros []. Defined.

#[export] Instance ReadyMessage_eq_dec : EqDecision ReadyMessage.
Proof. solve_decision. Defined.
#[export] Instance ReadyMessage_countable : Countable ReadyMessage.
Proof.
  apply (inj_countable'
    (λ m, (rd_session_id m, rd_server_version m, rd_protocol_version m, rd_capabilities m))
    (λ '(a, b, c, d), Build_ReadyMessage a b c d)). by intros [].
Defined.

#[export] Instance ResultMessage_eq_dec : EqDecision ResultMessage.
Proof. solve_decision. Defined.
#[export] Instance ResultMessage_countable : Countable ResultMessage.
Proof.
  apply (inj_countable' (λ m, (rs_request_id m, rs_payload m))
    (λ '(a, b), Build_ResultMessage a b)). by intros [].
Defined.

#[export] Instance RejectionMessage_eq_dec : EqDecision RejectionMessage.
Proof. solve_decision. Defined.
#[export] Instance RejectionMessage_countable : Countable RejectionMessage.
Proof.
  apply (inj_countable'
    (λ m, (rj_request_id m, rj_code m, rj_message m, rj_current_state m, rj_version m))
    (λ '(a, b, c, d, e), Build_RejectionMessage a b c d e)). by intros [].
Defined.

#[export] Instance EffectPayload_eq_dec : EqDecision EffectPayload.
Proof. solve_decision. Defined.
#[export] Instance EffectPayload_countable : Countable EffectPayload.
Proof.
  apply (inj_countable' (λ m, (ep_effect_name m, ep_payload m))
    (λ '(a, b), Build_EffectPayload a b)). by intros [].
Defined.

#[export] Instance ChangeRecord_eq_dec : EqDecision ChangeRecord.
Proof. solve_decision. Defined.
#[export] Instance ChangeRecord_countable : Countable ChangeRecord.
Proof.
  apply (inj_countable'
    (λ r, (cr_sequence r, cr_transition_id r, cr_entity_id r, cr_machine r, cr_from_state r,
           cr_to_state r, cr_event r, cr_actor r, cr_version r, cr_timestamp r, cr_ctx r,
           cr_effects r))
    (λ '(a, b, c, d, e, f, g, h, i, j, k, l), Build_ChangeRecord a b c d e f g h i j k l)).
  by intros [].
Defined.

#[export] Instance ChangeRecordMessage_eq_dec : EqDecision ChangeRecordMessage.
Proof. solve_decision. Defined.
#[export] Instance ChangeRecordMessage_countable : Countable ChangeRecordMessage.
Proof.
  apply (inj_countable' (λ m, (cm_subscription_id m, cm_record m))
    (λ '(a, b), Build_ChangeRecordMessage a b)). by intros [].
Defined.

#[export] Instance ErrorMessage_eq_dec : EqDecision ErrorMessage.
Proof. solve_decision. Defined.
#[export] Instance ErrorMessage_countable : Countable ErrorMessage.
Proof.
  apply (inj_countable' (λ m, (em_message m, em_fatal m))
    (λ '(a, b), Build_ErrorMessage a b)). by intros [].
Defined.

(** ** The instances *)

(** The answers to requests share one code space, so that an encoding tells which
    message it is. *)
Definition reply_serde {A B} `{Countable B} (inj : A → B) (proj : B → option A) : Serde A := {|
  to_vec x := Ok (pos_bytes (countable.encode (inj x)));
  from_slice b := match countable.decode (bytes_pos b) ≫= proj with
                  | Some x => Ok x
                  | None => Err "invalid data"
                  end;
|}.

Lemma reply_faithful {A B} `{Countable B} (inj : A → B) (proj : B → option A) :
  (∀ x, proj (inj x) = Some x) → Faithful A (S := reply_serde inj proj).
Proof.
  intros Hp. split; [|done]. intros x b [= <-]. simpl.
  by rewrite bytes_pos_bytes, countable.decode_encode; simpl; rewrite Hp.
Qed.

Lemma countable_faithful {A} `{Countable A} : Faithful A (S := countable_serde id).
Proof. split; [apply countable_serde_ok|done]. Qed.

Definition reply : Type := ResultMessage + RejectionMessage + ErrorMessage.
Definition as_result (r : reply) : option ResultMessage :=
  match r with inl (inl m) => Some m | _ => None end.
Definition as_rejection (r : reply) : option RejectionMessage :=
  match r with inl (inr m) => Some m | _ => None end.
Definition as_error (r : reply) : option ErrorMessage :=
  match r with inr m => Some m | _ => None end.

(** A value of a countable type as a JSON number. *)
Definition json_number {A} `{Countable A} (x : A) : Res Value string :=
  Ok (VNumber (PosInt (Npos (countable.encode x)))).

Module DemoWire.

#[export] Instance demo_wire : WireCodecs := {|
  wc_startup := countable_serde id; wc_auth := countable_serde id;
  wc_define := countable_serde canon_define; wc_transition := countable_serde id;
  wc_current := countable_serde id; wc_history := countable_serde id;
  wc_subscribe := countable_serde id; wc_ack := countable_serde id;
  wc_unsubscribe := countable_serde id; wc_ready := countable_serde id;
  wc_result := reply_serde (λ m, inl (inl m)) as_result;
  wc_rejection := reply_serde (λ m, inl (inr m)) as_rejection;
  wc_change := countable_serde id;
  wc_error := reply_serde inr as_error;
|}.

#[export] Instance demo_wire_ok : WireCodecsOk demo_wire.
Proof. split; first [apply countable_faithful|apply countable_serde_ok|by apply reply_faithful]. Qed.

#[export] Instance demo_server_env : ServerEnv :=
  {| to_rfc3339 t := pretty t; SERVER_VERSION := "0.1.0" |}.
#[export] Existing Instance counted_sink.
#[export] Instance demo_json_state : ToJson EntityState := json_number.
#[export] Instance demo_json_records : ToJson (list TransitionRecord) := json_number.

End DemoWire.
Import DemoWire.

(** A connection that takes every frame. *)
Definition open_sink : sink (FrameSink := counted_sink) := (0, false, []).

(** A fresh connection to an engine with the document machine. *)
Definition conn (e : Engine) : Conn :=
  {| c_engine := e; c_metrics := {| connections_total := 1; connections_active := 1; transitions_total := 0 |};
     c_session := session_new EmptyString 0; c_sink := open_sink; c_forwarders := [] |}.

(** The frame of a message. *)
Definition frame_of {A} `{Serde A} (t : FrameTag) (m : A) : Frame :=
  match encode_message t m with Ok f => f | Err _ => {| tag := t; body := [] |} end.

Definition startup_frame (version : N) : Frame :=
  frame_of TStartup {| su_protocol_version := version; su_capabilities := ["subscribe"] |}.
Definition auth_frame (token : string) : Frame := frame_of TAuth {| au_token := token |}.
Definition submit : TransitionMessage :=
  {| tm_request_id := 7; tm_entity_id := "doc-1"; tm_machine := "document"; tm_event := "submit";
     tm_expected_version := Some 0%N; tm_idempotency_key := Some "k"; tm_ctx := VNull;
     tm_actor := "ann" |}.
Definition submit_frame : Frame := frame_of TTransition submit.
Definition current_frame : Frame :=
  frame_of TCurrent {| cu_request_id := 8; cu_entity_id := "doc-1"; cu_machine := "document" |}.
Definition ping_frame : Frame := {| tag := TPing; body := [] |}.

Definition submitted : ChangeRecord :=
  {| cr_sequence := 1; cr_transition_id := "1"; cr_entity_id := "doc-1"; cr_machine := "document";
     cr_from_state := "draft"; cr_to_state := "review"; cr_event := "submit"; cr_actor := "ann";
     cr_version := 1; cr_timestamp := 3; cr_ctx := VNull;
     cr_effects := [{| ep_effect_name := "notify"; ep_payload := VString "editors" |}] |}.

(** ** Witnesses *)


Lemma handshake_opens_session_witness :
  let incoming := Ok <$> [startup_frame 1; auth_frame "secret"; ping_frame] in
  ∃ auth_ok ready msg c',
    serve_framed ["other"; "secret"] incoming (conn (run0 [])) = request_loop (drop 2 incoming) c'
    ∧ written (c_sink c') = written (c_sink (conn (run0 []))) ++ [auth_ok; ready]
    ∧ tag auth_ok = TAuthOk ∧ tag ready = TReady
    ∧ decode_message ready = Ok msg ∧ rd_protocol_version msg = PROTOCOL_VERSION
    ∧ rd_session_id msg = ss_id (c_session c') ∧ ss_authenticated (c_session c') = true
    ∧ accepting (c_sink c') ∧ e_storage (c_engine c') = e_storage (c_engine (conn (run0 []))).
Proof.
  apply handshake_opens_session.
  - reflexivity.
  - exists (startup_frame 1), (auth_frame "secret"), [Ok ping_frame],
      {| su_protocol_version := 1; su_capabilities := ["subscribe"] |}, {| au_token := "secret" |}.
    split_and!; try reflexivity; try (vm_compute; reflexivity).
    apply elem_of_cons. right. by apply list_elem_of_singleton.
Defined.

Lemma transition_reply_witness :
  ∃ a a' reply e' m',
    inv_at true only_document 1 [] (run0 []) a ∧ inv_at true only_document 2 [] e' a'
    ∧ handle_frame (run0 []) (c_metrics (conn (run0 []))) submit_frame = ([reply], e', m')
    ∧ transition_answer (e_guards (run0 [])) a (frame_request submit) 7 reply a'
    ∧ connections_total m' = 1%N ∧ connections_active m' = 1%Z
    ∧ transitions_total m' = if decide (tag reply = TResult) then 1%N else 0%N.
Proof.
  apply (transition_reply (WC := demo_wire) only_document 1 [] (run0 []) (c_metrics (conn (run0 [])))
    submit_frame submit);
    [by apply run0_reach|reflexivity|vm_compute; reflexivity|reflexivity|vm_compute; reflexivity|reflexivity..].
Defined.


Lemma forwards_in_order_witness :
  ∃ fs, written (forward_subscription "s"
      [submitted]
      open_sink) = [] ++ fs
    ∧ length fs = 1.
Proof.
  destruct (forwards_in_order "s"
      [submitted]
      (open_sink : sink)) as (fs & Hw & HF); [reflexivity|].
  exists fs. split; [exact Hw|]. apply Forall2_length in HF. rewrite <- HF. reflexivity.
Defined.

Lemma session_cleanup_is_noop_witness :
  cleanup (conn run1) = conn run1
  ∧ ∀ f, ss_subscriptions (c_session (on_frame f (conn run1)).2) = ∅.
Proof. apply session_cleanup_is_noop. reflexivity. Defined.

#[local] Existing Instance counter_semaphore.

(** Two accepts on a server for one connection: the second stream is dropped. *)
Lemma connections_bounded_witness :
  let m := {| connections_total := 0; connections_active := 0; transitions_total := 0 |} in
  let l := on_accept 2 (on_accept 1 (listener_new 1 m)) in
  l_open l = [1] ∧ length (l_open l) ≤ 1
  ∧ available (l_semaphore l) + length (l_open l) = 1
  ∧ connections_active (l_metrics l) = Z.of_nat (length (l_open l)).
Proof.
  intros m l. split; [reflexivity|]. apply (connections_bounded 1 m l); [reflexivity|].
  eapply listen_next; [|by constructor]. eapply listen_next; [|by constructor]. constructor.
Defined.

(** A transition on a machine that was never defined. *)
Definition invoice_request : Request :=
  {| q_entity := "doc-1"; q_machine := "invoice"; q_event := "submit"; q_actor := "ann";
     q_ctx := VNull; q_expected := None; q_key := None |}.

Lemma unknown_machine_internal_error_witness :
  let err := EStorage (NotFound "machine 'invoice'") in
  (do_transition invoice_request (run0 [])).1 = Err err
  ∧ rejection_code err = ("internal_error", None, None).
Proof.
  intros err. destruct (get_machine "invoice" (run0 [])) as [r e'] eqn:Hg.
  assert (r = Err err) as -> by (change r with (r, e').1; rewrite <- Hg; vm_compute; reflexivity).
  destruct (unknown_machine_internal_error invoice_request (run0 []) err e') as [-> Hc];
    [reflexivity|reflexivity|exact Hg|]. split; [reflexivity|exact Hc].
Defined.
