(* ===== verification/Server.v ===== *)
(** * smdb-wire: server settings, TLS and the entry of a connection

    Models, from [crates/smdb-wire/src], [ServerConfig] ([config.rs]) and, from
    [server.rs], [build_tls_config], [Server::new] and [handle_connection]. The
    file system, the PEM parser and the TLS library are the class [TlsHost]. *)
From S2P Require Import Prelude Core Redb Keys Storage StorageTrait Channel Engine Frame Messages Wire.

(** ** Settings *)

Record ServerConfig : Type := {
  sc_listen_addr : string;
  sc_tls_cert_path : option string;
  sc_tls_key_path : option string;
  sc_auth_tokens : list string;
  sc_max_connections : nat;
  sc_max_frame_size : N;
}.

Definition ServerConfig_default : ServerConfig :=
  {| sc_listen_addr := "0.0.0.0:7632"; sc_tls_cert_path := None; sc_tls_key_path := None;
     sc_auth_tokens := []; sc_max_connections := 1024; sc_max_frame_size := MAX_FRAME_SIZE |}.

(** ** Certificates and keys *)

(** [rustls_pemfile::Item] and [rustls::pki_types::PrivateKeyDer]. *)
Inductive PemItem : Type :=
| Pkcs1Key (k : bytes)
| Pkcs8Key (k : bytes)
| Sec1Key (k : bytes)
| OtherItem.

Inductive PrivateKeyDer : Type := Pkcs1 (k : bytes) | Pkcs8 (k : bytes) | Sec1 (k : bytes).

(** Opening and reading a file, the PEM iterators over its content, and the
    construction of a TLS configuration. *)
Class TlsHost : Type := {
  tls_config : Type;
  file_open : string → Res bytes string;
  pem_certs : bytes → list (Res bytes string);
  pem_read_all : bytes → list (Res PemItem string);
  with_single_cert : list bytes → PrivateKeyDer → Res tls_config string;
}.

(** [collect] of an iterator of results: the first error ends it. *)
Fixpoint collect {A E : Type} (items : list (Res A E)) : Res (list A) E :=
  match items with
  | [] => Ok []
  | Err e :: _ => Err e
  | Ok x :: items => match collect items with Ok xs => Ok (x :: xs) | Err e => Err e end
  end.

(** The arms of the match on a PEM item. *)
Definition private_key (item : PemItem) : option PrivateKeyDer :=
  match item with
  | Pkcs1Key k => Some (Pkcs1 k)
  | Pkcs8Key k => Some (Pkcs8 k)
  | Sec1Key k => Some (Sec1 k)
  | OtherItem => None
  end.

(** The loop over the items of the key file; [keys] is the vector so far. *)
Fixpoint read_keys (items : list (Res PemItem string)) (keys : list PrivateKeyDer)
    : Res (list PrivateKeyDer) WireError :=
  match items with
  | [] => Ok keys
  | Err e :: _ => Err (WireTls ("failed to parse key file: " +:+ e))
  | Ok item :: items =>
      read_keys items (match private_key item with Some k => keys ++ [k] | None => keys end)
  end.

Section tls.
Context {TH : TlsHost}.

Definition load_certs (cert_path : string) : Res (list bytes) WireError :=
  match file_open cert_path with
  | Err e => Err (WireTls ("failed to open cert file: " +:+ e))
  | Ok content =>
      match collect (pem_certs content) with
      | Err e => Err (WireTls ("failed to parse certs: " +:+ e))
      | Ok certs => Ok certs
      end
  end.

Definition load_key (key_path : string) : Res PrivateKeyDer WireError :=
  match file_open key_path with
  | Err e => Err (WireTls ("failed to open key file: " +:+ e))
  | Ok content =>
      match read_keys (pem_read_all content) [] with
      | Err e => Err e
      | Ok [] => Err (WireTls "no private key found in key file")
      | Ok (key :: _) => Ok key
      end
  end.

Definition build_tls_config (config : ServerConfig) : Res (option tls_config) WireError :=
  match sc_tls_cert_path config, sc_tls_key_path config with
  | Some cert_path, Some key_path =>
      match load_certs cert_path with
      | Err e => Err e
      | Ok certs =>
          match load_key key_path with
          | Err e => Err e
          | Ok key =>
              match with_single_cert certs key with
              | Err e => Err (WireTls ("failed to build TLS config: " +:+ e))
              | Ok t => Ok (Some t)
              end
          end
      end
  | _, _ => Ok None
  end.

(** ** The server *)

(** The engine is shared: it is an argument where the server uses it. *)
Record Server : Type := {
  srv_config : ServerConfig;
  srv_tls_config : option tls_config;
  srv_metrics : ServerMetrics;
}.

(** [ServerMetrics::default()]. *)
Definition ServerMetrics_default : ServerMetrics :=
  {| connections_total := 0; connections_active := 0; transitions_total := 0 |}.

Definition server_new (config : ServerConfig) : Res Server WireError :=
  match build_tls_config config with
  | Err e => Err e
  | Ok tls => Ok {| srv_config := config; srv_tls_config := tls;
                    srv_metrics := ServerMetrics_default |}
  end.

(** ** A connection *)

Section connection.
Context {SE : StorageEngine} {MP : Mpsc ChangeRecord} {EN : Env} {WC : WireCodecs}.
Context {FS : FrameSink} {SV : ServerEnv} {JS : ToJson EntityState}
        {JR : ToJson (list TransitionRecord)}.

(** [accept]: the TLS handshake on the stream, and the frames of the decrypted
    stream; [plain]: the frames of the stream as it is. *)
Definition handle_connection (s : Server) (accept : tls_config → Res (list (Res Frame ProtoError)) string)
    (plain : list (Res Frame ProtoError)) (c : Conn) : Res unit WireError * Conn :=
  match srv_tls_config s with
  | Some tls_cfg =>
      match accept tls_cfg with
      | Err e => (Err (WireTls e), c)
      | Ok incoming => serve_framed (sc_auth_tokens (srv_config s)) incoming c
      end
  | None => serve_framed (sc_auth_tokens (srv_config s)) plain c
  end.

End connection.
End tls.

(** ** What the TLS configuration holds *)

(** The private keys of a file, in order. *)
Definition keys_of (items : list PemItem) : list PrivateKeyDer := omap private_key items.

Lemma collect_ok {A E} (items : list (Res A E)) xs : collect items = Ok xs ↔ items = Ok <$> xs.
Proof.
  revert xs. induction items as [|[x|e] items IH]; intros xs; cbn.
  - split; [by intros [= <-]|by destruct xs].
  - destruct (collect items) as [ys|e].
    + split; [intros [= <-]; cbn; f_equal; by apply IH|].
      destruct xs as [|z zs]; [done|]. intros [= -> Hzs]. apply IH in Hzs. by injection Hzs as ->.
    + split; [done|]. destruct xs as [|z zs]; [done|]. intros [= -> Hzs].
      by apply IH in Hzs.
  - split; [done|by destruct xs].
Qed.

Lemma read_keys_ok items keys ks :
  read_keys items keys = Ok ks ↔ ∃ parsed, items = Ok <$> parsed ∧ ks = keys ++ keys_of parsed.
Proof.
  revert keys. induction items as [|[x|e] items IH]; intros keys; cbn.
  - split; [intros [= <-]; exists []; by rewrite app_nil_r|].
    intros ([|] & [=] & ->). by rewrite app_nil_r.
  - rewrite IH. split.
    + intros (parsed & -> & ->). exists (x :: parsed). split; [done|]. cbn.
      destruct (private_key x); by rewrite <- ?app_assoc.
    + intros ([|y parsed] & [=] & ->). subst. exists parsed. split; [done|]. cbn.
      destruct (private_key y); by rewrite <- ?app_assoc.
  - split; [done|]. by intros ([|] & [=] & _).
Qed.

(** The TLS configuration is made of all certificates of the one file and the
    first private key of the other. *)
Lemma build_tls_some {TH : TlsHost} (config : ServerConfig) t :
  build_tls_config config = Ok (Some t) →
  ∃ cp kp cf kf certs items key rest,
    sc_tls_cert_path config = Some cp ∧ sc_tls_key_path config = Some kp
    ∧ file_open cp = Ok cf ∧ pem_certs cf = Ok <$> certs
    ∧ file_open kp = Ok kf ∧ pem_read_all kf = Ok <$> items ∧ keys_of items = key :: rest
    ∧ with_single_cert certs key = Ok t.
Proof.
  unfold build_tls_config, load_certs, load_key.
  destruct (sc_tls_cert_path config) as [cp|], (sc_tls_key_path config) as [kp|]; try done.
  destruct (file_open cp) as [cf|] eqn:Hcf; [|done].
  destruct (collect (pem_certs cf)) as [certs|] eqn:Hcerts; [|done].
  destruct (file_open kp) as [kf|] eqn:Hkf; [|done].
  destruct (read_keys (pem_read_all kf) []) as [[|key rest]|] eqn:Hkeys; [done| |done].
  destruct (with_single_cert certs key) as [t'|] eqn:Ht; [|done]. intros [= <-].
  apply collect_ok in Hcerts. apply read_keys_ok in Hkeys as (items & Hitems & Hk).
  by exists cp, kp, cf, kf, certs, items, key, rest.
Qed.

Lemma build_tls_none {TH : TlsHost} (config : ServerConfig) :
  build_tls_config config = Ok None →
  sc_tls_cert_path config = None ∨ sc_tls_key_path config = None.
Proof.
  unfold build_tls_config.
  destruct (sc_tls_cert_path config) as [cp|], (sc_tls_key_path config) as [kp|]; auto.
  destruct (load_certs cp); [|done]. destruct (load_key kp); [|done].
  by destruct (with_single_cert _ _).
Qed.
