(* ===== verification/Live.v ===== *)
(** * A connection with its forwarding tasks

    In [crates/smdb-wire/src/server.rs] the main task of a connection and one
    forwarding task for each subscription share the write half of the connection
    behind a mutex. [Wire] runs the main task alone; here it is taken apart
    where it waits (for a frame, for the lock), the forwarding tasks run beside
    it, and everything else that happens to the engine (other connections, the
    dispatcher) comes in between. A send under the lock is one step.

    The trace records which task wrote which frame. A receiver is a position in
    what its channel was given; that a dropped receiver closes its channel is one
    of the other steps ([sys_receivers]). *)
From S2P Require Import Prelude Core Redb Keys Storage StorageSpec StorageTrait Channel Engine.
From S2P Require Import EngineSpec EngineRun Dispatch System Frame Messages Wire.

(** ** The tasks *)

(** Where the main task stands: at [stream.next()]; at the lock with the replies
    of a request ([ignored] when a write error does not end the connection);
    returned. *)
Inductive Phase : Type :=
| Reading
| Replying (frames : list Frame) (ignored : bool)
| Ended (r : Res unit WireError).

(** A forwarding task: at [rx.recv()]; at the lock with a frame; returned. *)
Inductive Task : Type :=
| Receiving
| Sending (frame : Frame)
| Finished.

Record Forwarder : Type := {
  fw_sub : string;
  fw_rx : nat;
  fw_taken : nat;
  fw_task : Task;
}.

Definition spawned (x : string * nat) : Forwarder :=
  {| fw_sub := x.1; fw_rx := x.2; fw_taken := 0; fw_task := Receiving |}.

Definition set_task (w : Forwarder) (t : Task) : Forwarder :=
  {| fw_sub := fw_sub w; fw_rx := fw_rx w; fw_taken := fw_taken w; fw_task := t |}.

Section live.
Context {SE : StorageEngine} {MP : Mpsc ChangeRecord} {EN : Env} {WC : WireCodecs}.
Context {FS : FrameSink} {SV : ServerEnv} {JS : ToJson EntityState} {JR : ToJson (list TransitionRecord)}.

(** From a frame to the lock. *)
Definition receive (frame : Frame) (c : Conn) : Phase * Conn :=
  match tag frame with
  | TTerminate => (Ended (Ok tt), cleanup c)
  | TSubscribe =>
      match handle_subscribe frame c with
      | (Ok frames, c) => (Replying frames false, c)
      | (Err e, c) => (Replying [make_error_frame (show_wire e) false] true, c)
      end
  | TUnsubscribe =>
      match decode_message frame with
      | Ok msg =>
          (Reading, {| c_engine := unsubscribe (us_subscription_id msg) (c_engine c);
                       c_metrics := c_metrics c;
                       c_session := session_remove (c_session c) (us_subscription_id msg);
                       c_sink := c_sink c; c_forwarders := c_forwarders c |})
      | Err e => (Replying [make_error_frame (show_proto e) false] true, c)
      end
  | _ =>
      let '(frames, e, m) := handle_frame (c_engine c) (c_metrics c) frame in
      (Replying frames false,
       {| c_engine := e; c_metrics := m; c_session := c_session c; c_sink := c_sink c;
          c_forwarders := c_forwarders c |})
  end.

(** Under the lock. *)
Definition reply (frames : list Frame) (ignored : bool) (c : Conn) : Phase * Conn :=
  match send_frames frames c with
  | (Ok _, c) => (Reading, c)
  | (Err e, c) => (if ignored then Reading else Ended (Err e), c)
  end.

(** A record is received and encoded; on an encoding error the task goes on. *)
Definition take_record (record : ChangeRecord) (w : Forwarder) : Forwarder :=
  {| fw_sub := fw_sub w; fw_rx := fw_rx w; fw_taken := S (fw_taken w);
     fw_task := match encode_message TChangeRecord
                        {| cm_subscription_id := fw_sub w; cm_record := record |} with
                | Ok f => Sending f
                | Err _ => Receiving
                end |}.

(** Under the lock; on a write error the task ends. *)
Definition send_record (frame : Frame) (w : Forwarder) (s : sink) : Forwarder * sink :=
  match sink_send s frame with
  | (Ok _, s) => (set_task w Receiving, s)
  | (Err _, s) => (set_task w Finished, s)
  end.

(** ** The connection *)

Record Live : Type := {
  lv_conn : Conn;
  lv_registry : Registry;
  lv_phase : Phase;
  lv_tasks : list Forwarder;
  lv_trace : list (option nat * Frame);
}.

(** The frames that one task wrote. *)
Definition frames_of (who : option nat) (trace : list (option nat * Frame)) : list Frame :=
  (filter (λ x, x.1 = who) trace).*2.

(** What a Subscribe frame registers. *)
Definition registered (frame : Frame) (reg : Registry) : Registry :=
  match tag frame with
  | TSubscribe =>
      match decode_message frame with
      | Ok msg => reg ++ [(sb_machine_filter msg, sb_after_sequence msg)]
      | Err _ => reg
      end
  | _ => reg
  end.

(** The tasks that handling a frame spawned. *)
Definition new_tasks (c c' : Conn) : list Forwarder :=
  spawned <$> drop (length (c_forwarders c)) (c_forwarders c').

(** The names and definitions of a request are admissible. *)
Definition admissible (defs : MachineDefinition → Prop) (frame : Frame) : Prop :=
  match tag frame with
  | TDefineMachine => ∀ msg, decode_message frame = Ok msg → defs (dm_definition msg)
  | TTransition => ∀ msg, decode_message frame = Ok msg →
      nul_free (tm_entity_id msg) = true ∧ nul_free (tm_machine msg) = true
  | TCurrent => ∀ msg, decode_message frame = Ok msg →
      nul_free (cu_entity_id msg) = true ∧ nul_free (cu_machine msg) = true
  | THistory => ∀ msg, decode_message frame = Ok msg →
      nul_free (hi_entity_id msg) = true ∧ nul_free (hi_machine msg) = true
  | _ => True
  end.

Definition set_c_engine (c : Conn) (e : Engine) : Conn :=
  {| c_engine := e; c_metrics := c_metrics c; c_session := c_session c; c_sink := c_sink c;
     c_forwarders := c_forwarders c |}.

(** The main task takes a frame off the stream. *)
Definition handled (l : Live) (frame : Frame) : Live :=
  let '(ph, c) := receive frame (lv_conn l) in
  {| lv_conn := c; lv_registry := registered frame (lv_registry l); lv_phase := ph;
     lv_tasks := lv_tasks l ++ new_tasks (lv_conn l) c; lv_trace := lv_trace l |}.

Inductive live_step {SO : StorageOk SE} {MO : MpscOk ChangeRecord} {FO : FrameSinkOk FS}
    (defs : MachineDefinition → Prop) : Live → Live → Prop :=
| lv_frame l frame :
    lv_phase l = Reading → admissible defs frame → live_step defs l (handled l frame)
| lv_end l :
    lv_phase l = Reading →
    live_step defs l
      {| lv_conn := cleanup (lv_conn l); lv_registry := lv_registry l; lv_phase := Ended (Ok tt);
         lv_tasks := lv_tasks l; lv_trace := lv_trace l |}
| lv_reply l frames ignored ph c ws :
    lv_phase l = Replying frames ignored → reply frames ignored (lv_conn l) = (ph, c) →
    written (c_sink c) = written (c_sink (lv_conn l)) ++ ws →
    live_step defs l
      {| lv_conn := c; lv_registry := lv_registry l; lv_phase := ph; lv_tasks := lv_tasks l;
         lv_trace := lv_trace l ++ ((None,.) <$> ws) |}
| lv_recv l i w ch record :
    lv_tasks l !! i = Some w → fw_task w = Receiving →
    e_channels (c_engine (lv_conn l)) !! fw_rx w = Some ch →
    sent ch !! fw_taken w = Some record →
    live_step defs l
      {| lv_conn := lv_conn l; lv_registry := lv_registry l; lv_phase := lv_phase l;
         lv_tasks := <[i := take_record record w]> (lv_tasks l); lv_trace := lv_trace l |}
| lv_hangup l i w ch :
    lv_tasks l !! i = Some w → fw_task w = Receiving →
    e_channels (c_engine (lv_conn l)) !! fw_rx w = Some ch → fw_taken w = length (sent ch) →
    Forall (λ s, sub_sender s ≠ fw_rx w) (e_subscribers (c_engine (lv_conn l))) →
    live_step defs l
      {| lv_conn := lv_conn l; lv_registry := lv_registry l; lv_phase := lv_phase l;
         lv_tasks := <[i := set_task w Finished]> (lv_tasks l); lv_trace := lv_trace l |}
| lv_send l i w frame w' s ws :
    lv_tasks l !! i = Some w → fw_task w = Sending frame →
    send_record frame w (c_sink (lv_conn l)) = (w', s) →
    written s = written (c_sink (lv_conn l)) ++ ws →
    live_step defs l
      {| lv_conn := set_c_sink (lv_conn l) s; lv_registry := lv_registry l;
         lv_phase := lv_phase l; lv_tasks := <[i := w']> (lv_tasks l);
         lv_trace := lv_trace l ++ ((Some i,.) <$> ws) |}
| lv_other l reg e :
    sys_step defs (lv_registry l) (c_engine (lv_conn l)) reg e →
    live_step defs l
      {| lv_conn := set_c_engine (lv_conn l) e; lv_registry := reg; lv_phase := lv_phase l;
         lv_tasks := lv_tasks l; lv_trace := lv_trace l |}.

(** An open session on an engine after [n] steps, and what it leads to. *)
Definition live_open (c : Conn) (reg : Registry) : Live :=
  {| lv_conn := c; lv_registry := reg; lv_phase := Reading; lv_tasks := []; lv_trace := [] |}.

Inductive live_reachable {SO : StorageOk SE} {MO : MpscOk ChangeRecord} {FO : FrameSinkOk FS}
    (b : bool) (defs : MachineDefinition → Prop) (c0 : Conn) : nat → Live → Prop :=
| live_init n reg :
    reachable b defs n reg (c_engine c0) → c_forwarders c0 = [] →
    live_reachable b defs c0 n (live_open c0 reg)
| live_next n l l' :
    live_reachable b defs c0 n l → live_step defs l l' → live_reachable b defs c0 (S n) l'.

Inductive live_later {SO : StorageOk SE} {MO : MpscOk ChangeRecord} {FO : FrameSinkOk FS}
    (defs : MachineDefinition → Prop) : nat → Live → Live → Prop :=
| later_here l : live_later defs 0 l l
| later_next k l l' l'' : live_later defs k l l' → live_step defs l' l'' → live_later defs (S k) l l''.

End live.
