(* ===== verification/LiveProps.v ===== *)
(** * Properties of a connection with its forwarding tasks *)
From S2P Require Import Prelude Core Redb Keys Storage StorageSpec StorageTrait Channel Engine.
From S2P Require Import EngineSpec EngineRun Dispatch System Frame Messages Wire WireProps Restart Live.

(** ** Channels only grow *)

Section growth.
Context {SE : StorageEngine} {MP : Mpsc ChangeRecord} {MO : MpscOk ChangeRecord} {EN : Env}.
Implicit Types (cs : list (chan ChangeRecord)).

Definition grows cs cs' : Prop :=
  ∀ i c, cs !! i = Some c → ∃ c', cs' !! i = Some c' ∧ sent c `prefix_of` sent c'.

#[export] Instance grows_preorder : PreOrder grows.
Proof.
  split.
  - intros cs i c Hc. by exists c.
  - intros cs1 cs2 cs3 H12 H23 i c Hc. destruct (H12 i c Hc) as (c2 & Hc2 & Hp).
    destruct (H23 i c2 Hc2) as (c3 & Hc3 & Hp'). exists c3. split; [done|by etrans].
Qed.

Lemma send_on_grows cs i x r cs' : send_on cs i x = (r, cs') → grows cs cs'.
Proof.
  unfold send_on. destruct (cs !! i) as [c|] eqn:Hc; [|by intros [= _ <-]].
  destruct (send c x) as [[[]|[]] c1] eqn:Hs; intros [= _ <-] j cj Hj;
    (destruct (decide (j = i)) as [->|Hne];
      [|exists cj; by rewrite list_lookup_insert_ne by done]);
    rewrite Hc in Hj; injection Hj as <-; exists c1;
    rewrite list_lookup_insert_eq by (by eapply lookup_lt_Some); (split; [done|]).
  - rewrite (send_ok _ _ _ Hs). by eexists.
  - by rewrite (send_err _ _ _ Hs).
Qed.

Lemma deliver_batch_grows f tx rs p r p' :
  deliver_batch f tx rs p = (r, p') → grows (p_channels p) (p_channels p').
Proof.
  revert p. induction rs as [|rec rs IH]; intros p; cbn [deliver_batch]; [by intros [= _ <-]|].
  destruct (skips f rec); [by intros H%IH|].
  destruct (s_get_effects_for_transition _ _) as [re d].
  destruct (send_on (p_channels p) tx _) as [[u|u] cs] eqn:Hs; apply send_on_grows in Hs.
  - intros H%IH. by etrans.
  - by intros [= _ <-].
Qed.

Lemma drain_grows fuel f tx p r p' :
  drain fuel f tx p = Some (r, p') → grows (p_channels p) (p_channels p').
Proof.
  revert p. induction fuel as [|fuel IH]; intros p; cbn [drain]; [done|].
  destruct (s_get_transitions_after _ _ _) as [[[|rec rs]|err] d]; [by intros [= _ <-]| |by intros [= _ <-]].
  destruct (deliver_batch _ _ _ _) as [[] p1] eqn:Hd; apply deliver_batch_grows in Hd; cbn in Hd.
  - destruct (_ <? _)%N; [by intros [= _ <-]|]. intros H%IH. by etrans.
  - by intros [= _ <-].
Qed.

Lemma drain_all_grows fuel subs d cs n subs' dead d' cs' n' :
  drain_all fuel subs d cs n = Some (subs', dead, d', cs', n') → grows cs cs'.
Proof.
  revert d cs n subs' dead d' cs' n'.
  induction subs as [|s subs IH]; intros d cs n subs' dead d' cs' n'; cbn [drain_all];
    [by intros [= _ _ _ <- _]|].
  destruct (drain _ _ _ _) as [[alive p]|] eqn:Hd; [|done]. apply drain_grows in Hd. cbn in Hd.
  destruct (drain_all fuel subs _ _ _) as [[[[[s1 x1] d1] cs1] n1]|] eqn:Ha; [|done].
  apply IH in Ha. intros [= _ _ _ <- _]. by etrans.
Qed.

Lemma dispatch_grows fuel (e : Engine) n e' :
  dispatch fuel e = Some (n, e') → grows (e_channels e) (e_channels e').
Proof.
  unfold dispatch, dispatch_pass.
  destruct (drain_all _ _ _ _ _) as [[[[[s1 x1] d1] cs1] n1]|] eqn:Ha; [|done].
  apply drain_all_grows in Ha. destruct (s_get_pending_effects _ _) as [[l|err] d]; by intros [= _ <-].
Qed.

End growth.

(** ** What other steps leave of a receiver *)

Section tasks.
Context {SE : StorageEngine} {SO : StorageOk SE} {MP : Mpsc ChangeRecord} {MO : MpscOk ChangeRecord}.
Context {EN : Env} {EO : EnvOk EN}.
Implicit Types (a : Abs) (e : Engine) (reg : Registry).

Lemma transition_channels b defs n reg e a q r e' :
  inv_at b defs n reg e a → (N.of_nat (S n) <= u64_max)%N →
  nul_free (q_entity q) = true → nul_free (q_machine q) = true →
  do_transition q e = (r, e') → e_channels e' = e_channels e.
Proof.
  intros HI Hn He Hm Hrun. destruct (e_shutdown e) eqn:Hsd.
  { rewrite transition_shutdown in Hrun by done. by injection Hrun as <- <-. }
  pose proof (i_count _ _ _ _ _ _ HI) as Hcnt.
  eapply (transition_run b e a q defs) in Hrun as (hit & _ & Hfr & _); try done; try apply HI; [|lia].
  by rewrite (f_channels _ _ Hfr).
Qed.

Lemma storage_channels {A} (op : St store StorageError A) e r e' :
  storage op e = (r, e') → e_channels e' = e_channels e.
Proof. unfold storage. destruct (op _) as [r0 d]. by intros [= _ <-]. Qed.

Lemma define_channels def e r e' : define_machine def e = (r, e') → e_channels e' = e_channels e.
Proof.
  unfold define_machine, core, st_res, st_bind. destruct (map_err _ _) as [[]|err]; cbn.
  - apply storage_channels.
  - by intros [= _ <-].
Qed.

Lemma sys_step_grows b defs n reg e a reg' e' :
  inv_at b defs n reg e a → (N.of_nat (S n) < u64_max)%N → sys_step defs reg e reg' e' →
  grows (e_channels e) (e_channels e') ∧ reg `prefix_of` reg'.
Proof.
  intros HI Hn Hs. destruct Hs as [reg e def r e' _ Hr|reg e q r e' He Hm Hr|reg e x r e' Hr|reg e r e' Hr
    |reg e en m r e' _ _ Hr|reg e en m li af r e' _ _ Hr|reg e x g|reg e id f after|reg e id
    |reg e fuel k e' Hr|reg e|reg e cs Hcs|reg e clock uuids _].
  - split; [|done]. by rewrite (define_channels _ _ _ _ Hr).
  - split; [|done]. rewrite (transition_channels b defs n reg e a q r e' HI); [done|lia|done..].
  - split; [|done]. by rewrite (storage_channels _ _ _ _ Hr).
  - split; [|done]. by rewrite (storage_channels _ _ _ _ Hr).
  - split; [|done]. by rewrite (storage_channels _ _ _ _ Hr).
  - split; [|done]. by rewrite (storage_channels _ _ _ _ Hr).
  - done.
  - split; [|by eexists]. cbn. intros i c Hc. exists c. split; [by apply lookup_app_l_Some|done].
  - done.
  - split; [by eapply dispatch_grows|done].
  - done.
  - split; [|done]. cbn. intros i c Hc. destruct (Forall2_lookup_l _ _ _ _ _ Hcs Hc) as (c' & Hc' & Hs).
    exists c'. by rewrite Hs.
  - done.
Qed.

(** ** A frame handled *)

Context {WC : WireCodecs} {WO : WireCodecsOk WC} {FS : FrameSink} {FO : FrameSinkOk FS}.
Context {SV : ServerEnv} {JS : ToJson EntityState} {JR : ToJson (list TransitionRecord)}.

(** The invariant survives, channels and registrations stay. *)
Definition moves b defs n reg e reg' e' : Prop :=
  ∀ a, inv_at b defs n reg e a →
    (∃ a', inv_at b defs (S n) reg' e' a') ∧ grows (e_channels e) (e_channels e')
    ∧ reg `prefix_of` reg'.

Lemma moves_refl b defs n reg e : moves b defs n reg e reg e.
Proof. intros a HI. split; [|done]. exists a. eapply inv_at_mono; [done|lia]. Qed.

Lemma moves_step b defs n reg e reg' e' :
  (N.of_nat (S n) < u64_max)%N → sys_step defs reg e reg' e' → moves b defs n reg e reg' e'.
Proof.
  intros Hn Hs a HI. destruct (inv_step _ _ _ _ _ _ _ _ HI Hn Hs) as (a' & ? & _).
  split; [by exists a'|by eapply sys_step_grows].
Qed.

Lemma moves_cleanup b defs n reg (c : Conn) :
  moves b defs n reg (c_engine c) reg (c_engine (cleanup c)).
Proof.
  intros a HI. cbn. generalize (map_to_list (ss_subscriptions (c_session c))).*1.
  assert (∀ e subs, inv_at b defs n reg e a →
    inv_at b defs n reg (foldl (λ e sub, unsubscribe sub e) e subs) a
    ∧ e_channels (foldl (λ e sub, unsubscribe sub e) e subs) = e_channels e) as Hall.
  { intros e subs. revert e. induction subs as [|s subs IH]; intros e He; cbn; [done|].
    destruct (IH (unsubscribe s e)) as [H1 H2]; [|by rewrite H2].
    split; try apply He. apply streams_filter, He. }
  intros subs. destruct (Hall _ subs HI) as [H1 H2]. rewrite H2. split; [|done].
  exists a. eapply inv_at_mono; [done|lia].
Qed.

Definition plain (f : Frame) : Prop := tag f ≠ TChangeRecord.

Lemma error_plain m fatal : plain (make_error_frame m fatal).
Proof. unfold plain. by rewrite make_error_frame_tag. Qed.

Lemma handle_frame_moves b defs n reg e m f fs e' m' :
  (N.of_nat (S n) < u64_max)%N → admissible defs f → handle_frame e m f = (fs, e', m') →
  moves b defs n reg e reg e'.
Proof.
  intros Hn Had. unfold handle_frame, admissible in *. destruct (tag f);
    try (intros [= _ <- _]; apply moves_refl).
  - destruct (decode_message f) as [msg|err]; [|intros [= _ <- _]; apply moves_refl].
    destruct (define_machine _ e) as [r e1] eqn:Hr. intros Hx.
    assert (e' = e1) as -> by by destruct r; injection Hx.
    apply moves_step; [done|]. eapply sys_define; [by apply Had|done].
  - destruct (decode_message f) as [msg|err]; [|intros [= _ <- _]; apply moves_refl].
    destruct (transition _ _ _ _ _ _ _ e) as [r e1] eqn:Hr. intros Hx.
    assert (e' = e1) as -> by by destruct r; injection Hx. destruct (Had msg eq_refl).
    apply moves_step; [done|]. eapply (sys_transition _ _ _
      {| q_entity := tm_entity_id msg; q_machine := tm_machine msg; q_event := tm_event msg;
         q_actor := tm_actor msg; q_ctx := tm_ctx msg; q_expected := tm_expected_version msg;
         q_key := tm_idempotency_key msg |}); [done|done|exact Hr].
  - destruct (decode_message f) as [msg|err]; [|intros [= _ <- _]; apply moves_refl].
    destruct (current _ _ e) as [r e1] eqn:Hr. intros Hx.
    assert (e' = e1) as -> by by repeat case_match; injection Hx. destruct (Had msg eq_refl).
    apply moves_step; [done|]. by eapply sys_current; [| |exact Hr].
  - destruct (decode_message f) as [msg|err]; [|intros [= _ <- _]; apply moves_refl].
    destruct (history _ _ _ _ e) as [r e1] eqn:Hr. intros Hx.
    assert (e' = e1) as -> by by repeat case_match; injection Hx. destruct (Had msg eq_refl).
    apply moves_step; [done|]. by eapply sys_history; [| |exact Hr].
  - destruct (decode_message f) as [msg|err]; intros [= _ <- _]; apply moves_refl.
Qed.

Lemma handle_frame_plain e m f fs e' m' : handle_frame e m f = (fs, e', m') → Forall plain fs.
Proof.
  intros Hh. pose proof (handle_frame_replies e m f) as Hr. rewrite Hh in Hr.
  destruct Hr as [(-> & _)|(r & -> & Hr)]; [constructor|].
  apply Forall_singleton. unfold plain. intros Heq. rewrite Heq in Hr.
  by destruct (tag f); cbn in Hr; set_solver.
Qed.

(** What handling a frame does: the engine moves, the sink is left alone, the
    replies are no change records, and at most one task is spawned, on a new
    channel. *)
Record received b defs n reg (f : Frame) (c : Conn) (ph : Phase) (c' : Conn) : Prop := {
  rc_moves : moves b defs n reg (c_engine c) (registered f reg) (c_engine c');
  rc_sink : c_sink c' = c_sink c;
  rc_plain : match ph with Replying fs _ => Forall plain fs | _ => True end;
  rc_tasks : c_forwarders c' = c_forwarders c
    ∨ ∃ sub, c_forwarders c' = c_forwarders c ++ [(sub, length (e_channels (c_engine c)))]
        ∧ e_channels (c_engine c') = e_channels (c_engine c) ++ [unbounded_channel];
}.

Lemma receive_ok b defs n reg f c ph c' :
  (N.of_nat (S n) < u64_max)%N → admissible defs f → receive f c = (ph, c') →
  received b defs n reg f c ph c'.
Proof.
  intros Hn Had Hr. unfold receive in Hr.
  destruct (decide (tag f = TSubscribe)) as [Ht|Hns].
  { rewrite Ht in Hr. unfold handle_subscribe in Hr.
    assert (∀ msg, decode_message f = Ok msg → registered f reg
      = reg ++ [(sb_machine_filter msg, sb_after_sequence msg)]) as Hreg.
    { intros msg Hd. unfold registered. by rewrite Ht, Hd. }
    destruct (decode_message f) as [msg|err] eqn:Hd.
    2: { injection Hr as <- <-. split; [|done|by apply Forall_singleton, error_plain|by left].
      unfold registered. rewrite Ht, Hd. apply moves_refl. }
    rewrite (surjective_pairing (subscribe _ _ _ _)) in Hr.
    set (r := encode_message TResult _) in Hr.
    assert (match r with Ok x => plain x | Err _ => True end) as Hpl.
    { unfold r, encode_message. by destruct (to_vec _). }
    destruct r as [x|pe]; injection Hr as <- <-;
      (split; [|done| |right; eexists; by split]); cbn.
    - rewrite (Hreg msg eq_refl). apply moves_step, sys_subscribe. done.
    - by apply Forall_singleton.
    - rewrite (Hreg msg eq_refl). apply moves_step, sys_subscribe. done.
    - apply Forall_singleton, error_plain. }
  assert (registered f reg = reg) as Hreg by (unfold registered; by destruct (tag f)).
  destruct (tag f) eqn:Ht; try done;
    try (destruct (handle_frame _ _ f) as [[fs e1] m1] eqn:Hh; injection Hr as <- <-;
      split; [|done|by eapply handle_frame_plain|by left]; rewrite Hreg; cbn;
      by eapply handle_frame_moves).
  - destruct (decode_message f) as [msg|err]; injection Hr as <- <-; (split; [|done| |by left]); rewrite ?Hreg.
    + apply moves_step, sys_unsubscribe. done.
    + done.
    + apply moves_refl.
    + apply Forall_singleton, error_plain.
  - injection Hr as <- <-. split; [rewrite Hreg; apply moves_cleanup|done|done|by left].
Qed.

End tasks.

(** ** The invariant of a live connection *)

Section live_invariant.
Context {SE : StorageEngine} {SO : StorageOk SE} {MP : Mpsc ChangeRecord} {MO : MpscOk ChangeRecord}.
Context {EN : Env} {EO : EnvOk EN}.
Context {WC : WireCodecs} {WO : WireCodecsOk WC} {FS : FrameSink} {FO : FrameSinkOk FS}.
Context {SV : ServerEnv} {JS : ToJson EntityState} {JR : ToJson (list TransitionRecord)}.
Implicit Types (a : Abs) (e : Engine) (l : Live) (w : Forwarder).

Lemma frames_of_app who t1 t2 : frames_of who (t1 ++ t2) = frames_of who t1 ++ frames_of who t2.
Proof. unfold frames_of. by rewrite filter_app, fmap_app. Qed.

Lemma frames_of_same who (ws : list Frame) : frames_of who ((who,.) <$> ws) = ws.
Proof.
  unfold frames_of. induction ws as [|f ws IH]; [done|]. cbn [fmap list_fmap].
  rewrite filter_cons_True by done. cbn. by f_equal.
Qed.

Lemma frames_of_other who who' (ws : list Frame) :
  who ≠ who' → frames_of who ((who',.) <$> ws) = [].
Proof.
  intros Hne. unfold frames_of. induction ws as [|f ws IH]; [done|]. cbn [fmap list_fmap].
  rewrite filter_cons_False by (cbn; congruence). done.
Qed.

Lemma frames_of_none who trace : (∀ f, (who, f) ∉ trace) → frames_of who trace = [].
Proof.
  intros Hno. destruct (frames_of who trace) as [|f fs] eqn:Hf; [done|]. exfalso.
  assert (f ∈ frames_of who trace) as Hin by (rewrite Hf; left).
  unfold frames_of in Hin. apply list_elem_of_fmap in Hin as ([x y] & -> & Hin).
  apply list_elem_of_filter in Hin as [Hx Hin]. cbn in Hx. subst x. by eapply Hno.
Qed.

(** What a task has written, and is about to write, of what its channel was
    given. *)
Definition task_ok (cs : list (chan ChangeRecord)) (trace : list (option nat * Frame)) (i : nat) w
    : Prop :=
  ∃ ch k, cs !! fw_rx w = Some ch ∧ k <= length (sent ch)
    ∧ match fw_task w with
      | Receiving => k = fw_taken w
          ∧ Forall2 (carries (fw_sub w)) (take k (sent ch)) (frames_of (Some i) trace)
      | Sending f => k = fw_taken w
          ∧ Forall2 (carries (fw_sub w)) (take k (sent ch)) (frames_of (Some i) trace ++ [f])
      | Finished => Forall2 (carries (fw_sub w)) (take k (sent ch)) (frames_of (Some i) trace)
      end.

Lemma task_grows cs cs' trace i w : grows cs cs' → task_ok cs trace i w → task_ok cs' trace i w.
Proof.
  intros Hg (ch & k & Hch & Hk & Ht). destruct (Hg _ _ Hch) as (ch' & Hch' & [x Hx]).
  exists ch', k. rewrite Hx, take_app_le, length_app by done. split_and!; [done|lia|done].
Qed.

Lemma task_trace cs trace trace' i w :
  frames_of (Some i) trace' = frames_of (Some i) trace → task_ok cs trace i w → task_ok cs trace' i w.
Proof. intros Heq (ch & k & Ht). exists ch, k. by rewrite Heq. Qed.

Record live_inv b defs (fs0 : list Frame) (n : nat) l : Prop := {
  li_inv : ∃ a, inv_at b defs n (lv_registry l) (c_engine (lv_conn l)) a;
  li_tasks i w : lv_tasks l !! i = Some w →
    task_ok (e_channels (c_engine (lv_conn l))) (lv_trace l) i w;
  li_known i f : (Some i, f) ∈ lv_trace l → i < length (lv_tasks l);
  li_written : written (c_sink (lv_conn l)) = fs0 ++ (lv_trace l).*2;
  li_plain f : (None, f) ∈ lv_trace l → plain f;
  li_phase : match lv_phase l with Replying fs _ => Forall plain fs | _ => True end;
}.

(** The frames that a run of sends put on the wire. *)
Lemma send_frames_written fs (c : Conn) r c' :
  send_frames fs c = (r, c') →
  c' = set_c_sink c (c_sink c')
  ∧ ∃ ws, written (c_sink c') = written (c_sink c) ++ ws ∧ ws `prefix_of` fs.
Proof.
  revert c. induction fs as [|f fs IH]; intros c; cbn [send_frames].
  { intros [= _ <-]. split; [by destruct c|]. exists []. by rewrite app_nil_r. }
  destruct (sink_send (c_sink c) f) as [[[]|e] s] eqn:Hs.
  - intros (Hc & ws & Hw & Hp)%IH. split; [done|]. exists (f :: ws). cbn in Hw.
    rewrite Hw, (sink_send_ok _ _ _ Hs), <- app_assoc. split; [done|by apply prefix_cons].
  - intros [= _ <-]. split; [done|]. exists []. cbn.
    rewrite (sink_send_err _ _ _ _ Hs), app_nil_r. split; [done|apply prefix_nil].
Qed.

Lemma reply_written fs ignored (c : Conn) ph c' :
  reply fs ignored c = (ph, c') →
  c_engine c' = c_engine c ∧ (ph = Reading ∨ ∃ r, ph = Ended r)
  ∧ ∃ ws, written (c_sink c') = written (c_sink c) ++ ws ∧ ws `prefix_of` fs.
Proof.
  unfold reply. destruct (send_frames fs c) as [r c1] eqn:Hs.
  destruct (send_frames_written _ _ _ _ Hs) as [Hc Hw]. intros Hr.
  assert (c' = c1 ∧ (ph = Reading ∨ ∃ r, ph = Ended r)) as [-> Hph].
  { destruct r; [|destruct ignored]; injection Hr as <- <-; eauto. }
  split_and!; [by rewrite Hc|done|done].
Qed.

Lemma app_inj_written (w ws ws' x : list Frame) : x = w ++ ws → x = w ++ ws' → ws' = ws.
Proof. intros -> H. by apply (inj (app w)) in H. Qed.

(** A step of the main task or of another party: the tasks stay and some may be
    added. *)
Lemma live_moves b defs fs0 n l reg' c' ph tasks ws :
  live_inv b defs fs0 n l →
  moves b defs n (lv_registry l) (c_engine (lv_conn l)) reg' (c_engine c') →
  written (c_sink c') = written (c_sink (lv_conn l)) ++ ws → Forall plain ws →
  match ph with Replying fs _ => Forall plain fs | _ => True end →
  (∀ i w, tasks !! i = Some w → task_ok (e_channels (c_engine c')) [] i w) →
  live_inv b defs fs0 (S n)
    {| lv_conn := c'; lv_registry := reg'; lv_phase := ph; lv_tasks := lv_tasks l ++ tasks;
       lv_trace := lv_trace l ++ ((None,.) <$> ws) |}.
Proof.
  intros [[a HI] Ht Hk Hw Hp _] Hm Hws Hpl Hph Hnew. destruct (Hm a HI) as (HI' & Hg & _).
  assert (∀ i, frames_of (Some i) (lv_trace l ++ ((None,.) <$> ws)) = frames_of (Some i) (lv_trace l)) as Hfr.
  { intros i. by rewrite frames_of_app, (frames_of_other (Some i)), app_nil_r. }
  split; cbn; [done| | | | |done].
  - intros i w Hi. apply lookup_app_Some in Hi as [Hi|[Hge Hi]].
    + eapply task_trace; [apply Hfr|]. by eapply task_grows, Ht.
    + destruct (Hnew _ _ Hi) as (ch & k & Hch & Hk' & Htask). exists ch, k.
      assert (frames_of (Some i) (lv_trace l) = []) as H0.
      { apply frames_of_none. intros f Hin%Hk. lia. }
      rewrite Hfr, H0. done.
  - intros i f [Hin|Hin]%elem_of_app; [|by apply list_elem_of_fmap in Hin as (? & [=] & _)].
    rewrite length_app. apply Hk in Hin. lia.
  - by rewrite Hws, Hw, fmap_app, <- list_fmap_compose, list_fmap_id, app_assoc.
  - intros f [Hin|Hin]%elem_of_app; [by apply Hp|].
    apply list_elem_of_fmap in Hin as (f' & [= ->] & Hf'). by eapply Forall_forall.
Qed.

(** A step of one forwarding task. *)
Lemma live_task b defs fs0 n l i w w' c' ws :
  live_inv b defs fs0 n l → lv_tasks l !! i = Some w → c_engine c' = c_engine (lv_conn l) →
  written (c_sink c') = written (c_sink (lv_conn l)) ++ ws →
  task_ok (e_channels (c_engine (lv_conn l))) (lv_trace l ++ ((Some i,.) <$> ws)) i w' →
  live_inv b defs fs0 (S n)
    {| lv_conn := c'; lv_registry := lv_registry l; lv_phase := lv_phase l;
       lv_tasks := <[i := w']> (lv_tasks l); lv_trace := lv_trace l ++ ((Some i,.) <$> ws) |}.
Proof.
  intros [[a HI] Ht Hk Hw Hp Hph] Hi He Hws Hok.
  assert (i < length (lv_tasks l)) as Hlt by by eapply lookup_lt_Some.
  split; cbn; rewrite ?He; [exists a; eapply inv_at_mono; [done|lia]| | | | |done].
  - intros j v Hj. destruct (decide (j = i)) as [->|Hne].
    + rewrite list_lookup_insert_eq in Hj by done. by injection Hj as <-.
    + rewrite list_lookup_insert_ne in Hj by done. eapply task_trace; [|by apply Ht].
      by rewrite frames_of_app, (frames_of_other (Some j)), app_nil_r by congruence.
  - intros j f. rewrite length_insert. intros [Hin|Hin]%elem_of_app; [by eapply Hk|].
    by apply list_elem_of_fmap in Hin as (? & [= -> _] & _).
  - by rewrite Hws, Hw, fmap_app, <- list_fmap_compose, list_fmap_id, app_assoc.
  - intros f [Hin|Hin]%elem_of_app; [by apply Hp|].
    by apply list_elem_of_fmap in Hin as (? & [=] & _).
Qed.

Lemma new_tasks_ok b defs n reg f c ph c' i w :
  received b defs n reg f c ph c' → new_tasks c c' !! i = Some w →
  task_ok (e_channels (c_engine c')) [] i w.
Proof.
  intros [_ _ _ Hf] Hi. unfold new_tasks in Hi.
  destruct Hf as [Hf|(sub & Hf & Hch)]; rewrite Hf in Hi; [by rewrite drop_all in Hi|].
  rewrite drop_app_length in Hi. destruct i as [|i]; [|done].
  injection Hi as <-. exists unbounded_channel, 0. rewrite Hch. cbn. rewrite sent_new.
  split_and!; [by apply list_lookup_middle|done|done|constructor].
Qed.

Lemma take_record_ok cs trace i w ch rec :
  cs !! fw_rx w = Some ch → sent ch !! fw_taken w = Some rec → fw_task w = Receiving →
  task_ok cs trace i w → task_ok cs trace i (take_record rec w).
Proof.
  intros Hch Hrec Hw (ch' & k & Hch' & Hk & Ht). rewrite Hw in Ht. destruct Ht as [-> Ht].
  assert (ch' = ch) as -> by congruence. exists ch, (S (fw_taken w)).
  unfold take_record. set (x := Build_ChangeRecordMessage _ _). cbn [fw_rx fw_task fw_taken fw_sub].
  destruct (encode_message_ok TChangeRecord x) as (f & -> & Htag & Hd & _).
  apply lookup_lt_Some in Hrec as Hlt. split_and!; [done|lia|done|].
  rewrite (take_S_r _ _ _ Hrec). apply Forall2_app; [done|]. by repeat constructor.
Qed.

Lemma send_record_ok cs trace i w f s w' s' ws :
  fw_task w = Sending f → send_record f w s = (w', s') → written s' = written s ++ ws →
  task_ok cs trace i w → task_ok cs (trace ++ ((Some i,.) <$> ws)) i w'.
Proof.
  intros Hw Hs Hws (ch & k & Hch & Hk & Ht). rewrite Hw in Ht. destruct Ht as [-> Ht].
  unfold send_record in Hs. destruct (sink_send s f) as [[[]|err] s1] eqn:Hsend; injection Hs as <- <-.
  - assert (ws = [f]) as -> by (eapply app_inj_written; [by apply sink_send_ok|done]).
    exists ch, (fw_taken w). cbn [set_task fw_rx fw_task fw_taken fw_sub].
    by rewrite frames_of_app, frames_of_same.
  - assert (ws = []) as ->.
    { eapply app_inj_written; [|done]. rewrite app_nil_r. by eapply sink_send_err. }
    exists ch, (pred (fw_taken w)). cbn [set_task fw_rx fw_task fw_taken fw_sub].
    rewrite frames_of_app. cbn. rewrite app_nil_r. split_and!; [done|lia|].
    apply Forall2_app_inv_r in Ht as (l1 & l2 & H1 & H2 & Heq).
    apply Forall2_cons_inv_r in H2 as (r & l3 & _ & H3 & ->). apply Forall2_nil_inv_r in H3 as ->.
    replace (take (pred (fw_taken w)) (sent ch)) with l1; [done|].
    assert (length (take (fw_taken w) (sent ch)) = S (length l1)) as Hlen
      by (rewrite Heq, length_app; cbn; lia).
    rewrite length_take in Hlen. replace (pred (fw_taken w)) with (length l1) by lia.
    assert (take (length l1) (take (fw_taken w) (sent ch)) = l1) as Hl1
      by (rewrite Heq; apply take_app_length).
    rewrite take_take, Nat.min_l in Hl1 by lia. done.
Qed.

Lemma finished_ok cs trace i w :
  fw_task w = Receiving → task_ok cs trace i w → task_ok cs trace i (set_task w Finished).
Proof.
  intros Hw (ch & k & Hch & Hk & Ht). rewrite Hw in Ht. exists ch, k. split_and!; [done|done|apply Ht].
Qed.

Lemma live_step_inv b defs fs0 n l l' :
  live_inv b defs fs0 n l → (N.of_nat (S n) < u64_max)%N → live_step defs l l' →
  live_inv b defs fs0 (S n) l'.
Proof.
  intros HV Hn Hs. destruct Hs as [l f Hph Had|l Hph|l fs ig ph c ws Hph Hr Hws
    |l i w ch rec Hi Hw Hch Hrec|l i w ch Hi Hw Hch Hall _|l i w f w' s ws Hi Hw Hsend Hws|l reg e Hs].
  - unfold handled. destruct (receive f (lv_conn l)) as [ph c] eqn:Hr.
    pose proof (receive_ok b defs n (lv_registry l) f _ _ _ Hn Had Hr) as Hrc.
    rewrite <- (app_nil_r (lv_trace l)). change [] with (pair (None : option nat) <$> ([] : list Frame)).
    eapply live_moves; [exact HV|apply Hrc|by rewrite (rc_sink _ _ _ _ _ _ _ _ Hrc), app_nil_r|constructor
      |apply Hrc|]. intros i w Hi. by eapply new_tasks_ok.
  - rewrite <- (app_nil_r (lv_trace l)), <- (app_nil_r (lv_tasks l)).
    change [] with (pair (None : option nat) <$> ([] : list Frame)) at 2.
    eapply live_moves; [exact HV|apply moves_cleanup|by rewrite app_nil_r|constructor|done|].
    intros i w. by rewrite lookup_nil.
  - destruct (reply_written _ _ _ _ _ Hr) as (He & Hphr & ws' & Hw' & Hpre).
    rewrite (app_inj_written _ _ _ _ Hw' Hws) in *. rewrite <- (app_nil_r (lv_tasks l)).
    eapply live_moves; [exact HV|rewrite He; apply moves_refl|done| | |].
    + pose proof (li_phase _ _ _ _ _ HV) as Hp. rewrite Hph in Hp. destruct Hpre as [x ->].
      by apply Forall_app in Hp as [? _].
    + by destruct Hphr as [-> |[r ->]].
    + intros i w. by rewrite lookup_nil.
  - rewrite <- (app_nil_r (lv_trace l)). change [] with (pair (Some i) <$> ([] : list Frame)).
    eapply live_task; [done|done|done|by rewrite app_nil_r|]. cbn. rewrite app_nil_r.
    eapply take_record_ok; [done|done|done|]. by apply HV.
  - rewrite <- (app_nil_r (lv_trace l)). change [] with (pair (Some i) <$> ([] : list Frame)).
    eapply live_task; [done|done|done|by rewrite app_nil_r|]. cbn. rewrite app_nil_r.
    apply finished_ok; [done|]. by apply HV.
  - eapply live_task; [done|done|done|done|]. eapply send_record_ok; [done|done|done|]. by apply HV.
  - rewrite <- (app_nil_r (lv_trace l)), <- (app_nil_r (lv_tasks l)).
    change [] with (pair (None : option nat) <$> ([] : list Frame)) at 2.
    eapply live_moves; [exact HV|by apply moves_step|by rewrite app_nil_r|constructor|apply HV|].
    intros i w. by rewrite lookup_nil.
Qed.

Lemma live_reachable_inv b defs (c0 : Conn) n l :
  live_reachable b defs c0 n l → (N.of_nat n < u64_max)%N →
  live_inv b defs (written (c_sink c0)) n l.
Proof.
  induction 1 as [n reg HR _|n l l' _ IH Hs]; intros Hn.
  - split; cbn; [by apply inv_reachable| |set_solver|by rewrite app_nil_r|set_solver|done].
    intros i w. by rewrite lookup_nil.
  - eapply live_step_inv; [apply IH; lia|done|done].
Qed.

(** ** What later steps keep *)

Lemma live_reachable_later b defs (c0 : Conn) n k l l' :
  live_reachable b defs c0 n l → live_later defs k l l' → live_reachable b defs c0 (k + n) l'.
Proof. intros HR. induction 1; [done|]. eapply live_next; [by apply IHlive_later|done]. Qed.

Definition task_id w : string * nat := (fw_sub w, fw_rx w).

Lemma task_ids_insert i w w' (ws : list Forwarder) :
  ws !! i = Some w → task_id w' = task_id w → task_id <$> <[i := w']> ws = task_id <$> ws.
Proof. intros Hi Hw. rewrite list_fmap_insert, Hw, list_insert_id; [done|]. by rewrite list_lookup_fmap, Hi. Qed.

(** Tasks and registrations stay where they are. *)
Lemma live_step_keeps b defs fs0 n l l' :
  live_inv b defs fs0 n l → (N.of_nat (S n) < u64_max)%N → live_step defs l l' →
  task_id <$> lv_tasks l `prefix_of` task_id <$> lv_tasks l' ∧ lv_registry l `prefix_of` lv_registry l'.
Proof.
  intros [[a HI] _ _ _ _ _] Hn Hs. destruct Hs as [l f Hph Had|l Hph|l fs ig ph c ws Hph Hr Hws
    |l i w ch rec Hi Hw Hch Hrec|l i w ch Hi Hw Hch Hall _|l i w f w' s ws Hi Hw Hsend Hws|l reg e Hs];
    cbn [lv_tasks lv_registry]; try done.
  - unfold handled. destruct (receive f (lv_conn l)) as [ph c] eqn:Hr.
    destruct (receive_ok b defs n (lv_registry l) f _ _ _ Hn Had Hr) as [Hm _ _ _].
    destruct (Hm a HI) as (_ & _ & Hreg). split; [|done]. cbn. rewrite fmap_app. by eexists.
  - by rewrite (task_ids_insert i w).
  - by rewrite (task_ids_insert i w).
  - rewrite (task_ids_insert i w); [done|done|]. unfold send_record in Hsend.
    destruct (sink_send _ f) as [[] s1]; by injection Hsend as <- <-.
  - split; [done|]. by eapply sys_step_grows.
Qed.

Lemma live_later_keeps b defs (c0 : Conn) n k l l' :
  live_reachable b defs c0 n l → (N.of_nat (k + n) < u64_max)%N → live_later defs k l l' →
  task_id <$> lv_tasks l `prefix_of` task_id <$> lv_tasks l' ∧ lv_registry l `prefix_of` lv_registry l'.
Proof.
  intros HR Hn HL. induction HL as [l|k l l' l'' HL IH Hs]; [done|].
  destruct (IH HR ltac:(lia)) as [H1 H2].
  destruct (live_step_keeps b defs (written (c_sink c0)) (k + n) l' l'') as [H3 H4];
    [|lia|done|split; by etrans].
  apply live_reachable_inv; [by eapply live_reachable_later|lia].
Qed.

(** ** Results *)

(** The run of the main task alone is the request loop of [Wire]. *)
Lemma request_loop_split f rest (c : Conn) :
  request_loop (Ok f :: rest) c =
  match receive f c with
  | (Ended r, c) => (r, c)
  | (Reading, c) => request_loop rest c
  | (Replying fs ignored, c) =>
      match reply fs ignored c with
      | (Ended r, c) => (r, c)
      | (_, c) => request_loop rest c
      end
  end.
Proof.
  cbn [request_loop]. unfold on_frame, receive.
  assert (∀ fs c1, (match write_replies fs c1 with
     | (None, c2) => request_loop rest c2
     | (Some (Ok _), c2) => (Ok tt, cleanup c2)
     | (Some (Err e), c2) => (Err e, c2)
     end) = match reply fs false c1 with
            | (Ended r, c2) => (r, c2)
            | (_, c2) => request_loop rest c2
            end) as Hw.
  { intros fs c1. unfold write_replies, reply. by destruct (send_frames fs c1) as [[[]|e] c2]. }
  assert (∀ x c1, request_loop rest (send_ignoring x c1)
    = match reply [x] true c1 with
      | (Ended r, c2) => (r, c2)
      | (_, c2) => request_loop rest c2
      end) as Hi.
  { intros x c1. unfold send_ignoring, reply. cbn [send_frames].
    by destruct (sink_send (c_sink c1) x) as [[[]|e] s]. }
  destruct (tag f); try (destruct (handle_frame _ _ f) as [[fs e1] m1]; apply Hw).
  - destruct (handle_subscribe f c) as [[fs|e] c1]; [apply Hw|apply Hi].
  - destruct (decode_message f) as [msg|e]; [done|apply Hi].
  - done.
Qed.

(** A prefix of a stream is a stream up to an earlier cursor. *)
Lemma stream_upto b a f start cursor (ch recs : list ChangeRecord) :
  abs_wf a → Forall2 (delivered_as b a) (wanted f (slice start cursor (a_log a))) ch →
  recs `prefix_of` ch →
  ∃ cursor', Forall2 (delivered_as b a) (wanted f (slice start cursor' (a_log a))) recs.
Proof.
  intros Hwf HF [rest ->]. apply Forall2_app_inv_r in HF as (x & y & HF & _ & Hx).
  destruct x as [|r x _] using rev_ind.
  { exists start. apply Forall2_nil_inv_l in HF as ->. by rewrite slice_nil. }
  exists (rec_sequence r).
  destruct (wanted_upto a f start cursor (length (x ++ [r])) x r Hwf) as (_ & _ & Hw).
  { by rewrite Hx, take_app_length. }
  by rewrite <- Hw.
Qed.

(** What a task wrote, as records. *)
Lemma task_records cs trace i w :
  task_ok cs trace i w →
  ∃ ch records, cs !! fw_rx w = Some ch ∧ records `prefix_of` sent ch
    ∧ Forall2 (carries (fw_sub w)) records (frames_of (Some i) trace)
    ∧ (fw_task w = Receiving → fw_taken w = length (sent ch) → records = sent ch).
Proof.
  intros (ch & k & Hch & Hk & Htask). destruct (fw_task w) as [|x|] eqn:Hw'.
  - destruct Htask as [-> Htask]. exists ch, (take (fw_taken w) (sent ch)).
    split_and!; [done|apply prefix_take|done|]. intros _ ->. apply firstn_all.
  - destruct Htask as [_ Htask]. apply Forall2_app_inv_r in Htask as (l1 & l2 & H1 & _ & Heq).
    exists ch, l1. split_and!; [done| |done|done].
    trans (take k (sent ch)); [rewrite Heq; by eexists|apply prefix_take].
  - exists ch, (take k (sent ch)). split_and!; [done|apply prefix_take|done|done].
Qed.

(** C18. On the wire a subscription is a stream of its own, however its frames are
    interleaved with the replies of the connection, with the other
    subscriptions, and with commits, dispatcher passes and storage failures
    elsewhere: the frames that its task wrote decode, in order, to one change
    record for each wanted record of the log after the starting sequence up to
    some cursor, with no gap and no repetition; they are a prefix of what the
    engine has delivered to it, and all of it when the task has nothing more to
    receive. Every byte of the connection belongs to one task, and no reply is a
    change record. *)
Theorem wire_stream b defs (c0 : Conn) n l i w f start :
  live_reachable b defs c0 n l → (N.of_nat n < u64_max)%N → lv_tasks l !! i = Some w →
  lv_registry l !! fw_rx w = Some (f, start) → (start < u64_max)%N →
  ∃ a cursor ch records, holds (e_storage (c_engine (lv_conn l))) a
    ∧ written (c_sink (lv_conn l)) = written (c_sink c0) ++ (lv_trace l).*2
    ∧ Forall2 (carries (fw_sub w)) records (frames_of (Some i) (lv_trace l))
    ∧ Forall2 (delivered_as b a) (wanted f (slice start cursor (a_log a))) records
    ∧ e_channels (c_engine (lv_conn l)) !! fw_rx w = Some ch ∧ records `prefix_of` sent ch
    ∧ (fw_task w = Receiving → fw_taken w = length (sent ch) → records = sent ch)
    ∧ Forall plain (frames_of None (lv_trace l)).
Proof.
  intros HR Hn Hi Hreg Hst.
  destruct (live_reachable_inv b defs c0 n l HR Hn) as [[a HI] Ht _ Hw Hp _].
  destruct (task_records _ _ _ _ (Ht i w Hi)) as (ch & records & Hch & Hpre & Hcar & Hidle).
  destruct (st_chan _ _ _ _ _ (i_streams _ _ _ _ _ _ HI) _ ch f start Hch Hreg Hst)
    as (cursor & _ & _ & HF).
  pose proof (holds_wf _ _ (i_holds _ _ _ _ _ _ HI)) as Hwf.
  destruct (stream_upto b a f start cursor _ records Hwf HF Hpre) as [cursor' HF'].
  exists a, cursor', ch, records. split_and!; try done; [apply HI|].
  apply Forall_forall. intros x Hx. unfold frames_of in Hx.
  apply list_elem_of_fmap in Hx as ([who y] & -> & Hin).
  apply list_elem_of_filter in Hin as [Hwho Hin]. cbn in Hwho. subst who. by apply Hp.
Qed.

End live_invariant.
