(* ===== verification/LiveProgress.v ===== *)
(** * From the log to the wire

    A forwarding task on a connection that takes frames writes everything its
    channel holds ([task_drains]); with a round of the dispatcher before it, every
    record that its subscription wants is on the wire ([subscription_drains]). *)
From S2P Require Import Prelude Core Redb Keys Storage StorageSpec StorageTrait Channel Engine.
From S2P Require Import EngineSpec EngineRun Dispatch System EngineProps Frame Messages Wire WireProps Restart Live LiveProps.

Section progress.
Context {SE : StorageEngine} {SO : StorageOk SE} {MP : Mpsc ChangeRecord} {MO : MpscOk ChangeRecord}.
Context {EN : Env} {EO : EnvOk EN}.
Context {WC : WireCodecs} {WO : WireCodecsOk WC} {FS : FrameSink} {FO : FrameSinkOk FS}.
Context {SV : ServerEnv} {JS : ToJson EntityState} {JR : ToJson (list TransitionRecord)}.
Context (defs : MachineDefinition → Prop).
Implicit Types (a : Abs) (e : Engine) (l : Live) (w : Forwarder).

Lemma length_wanted f rs : length (wanted f rs) ≤ length rs.
Proof. apply List.filter_length_le. Qed.

Lemma live_later_l k l l1 l2 : live_step defs l l1 → live_later defs k l1 l2 → live_later defs (S k) l l2.
Proof.
  intros Hs. induction 1 as [l1|k l1 l2 l3 _ IH Hs']; [eapply later_next; [apply later_here|done]|].
  eapply later_next; [by apply IH|done].
Qed.

(** What stays when only task [i] moves. *)
Record only_task (i : nat) l l' : Prop := {
  ot_engine : c_engine (lv_conn l') = c_engine (lv_conn l);
  ot_registry : lv_registry l' = lv_registry l;
  ot_sink : accepting (c_sink (lv_conn l'));
}.

(** A task that has a frame writes it. *)
Lemma task_sends l i w f :
  lv_tasks l !! i = Some w → fw_task w = Sending f → accepting (c_sink (lv_conn l)) →
  task_ok (e_channels (c_engine (lv_conn l))) (lv_trace l) i w →
  ∃ l', live_step defs l l' ∧ only_task i l l' ∧ lv_tasks l' !! i = Some (set_task w Receiving)
    ∧ task_ok (e_channels (c_engine (lv_conn l'))) (lv_trace l') i (set_task w Receiving).
Proof.
  intros Hi Hw Hacc Ht. destruct (sink_send_accepting _ f Hacc) as (s' & Hs & Hacc').
  assert (send_record f w (c_sink (lv_conn l)) = (set_task w Receiving, s')) as Hsend
    by (unfold send_record; by rewrite Hs).
  pose proof (sink_send_ok _ _ _ Hs) as Hwr.
  eexists. split_and!; [by eapply (lv_send defs l i w f _ s' [f])|by split| |].
  - apply list_lookup_insert_eq. by eapply lookup_lt_Some.
  - exact (send_record_ok _ _ i w f _ _ _ _ Hw Hsend Hwr Ht).
Qed.

(** A task that waits takes the next record and writes it. *)
Lemma task_forwards l i w ch rec :
  lv_tasks l !! i = Some w → fw_task w = Receiving → accepting (c_sink (lv_conn l)) →
  e_channels (c_engine (lv_conn l)) !! fw_rx w = Some ch → sent ch !! fw_taken w = Some rec →
  task_ok (e_channels (c_engine (lv_conn l))) (lv_trace l) i w →
  ∃ l' w', live_later defs 2 l l' ∧ only_task i l l' ∧ lv_tasks l' !! i = Some w'
    ∧ fw_task w' = Receiving ∧ fw_taken w' = S (fw_taken w) ∧ fw_rx w' = fw_rx w ∧ fw_sub w' = fw_sub w
    ∧ task_ok (e_channels (c_engine (lv_conn l'))) (lv_trace l') i w'.
Proof.
  intros Hi Hw Hacc Hch Hrec Ht.
  pose proof (lv_recv defs l i w ch rec Hi Hw Hch Hrec) as Hs1. set (l1 := Build_Live _ _ _ _ _) in Hs1.
  assert (lv_tasks l1 !! i = Some (take_record rec w)) as Hi1
    by (apply list_lookup_insert_eq; by eapply lookup_lt_Some).
  destruct (encode_message_ok TChangeRecord {| cm_subscription_id := fw_sub w; cm_record := rec |})
    as (f & Henc & _).
  assert (fw_task (take_record rec w) = Sending f) as Hf by (cbn; by rewrite Henc).
  pose proof (take_record_ok _ _ i _ _ _ Hch Hrec Hw Ht) as Ht1.
  destruct (task_sends l1 i _ f Hi1 Hf Hacc Ht1) as (l2 & Hs2 & [He Hr Hk] & Hi2 & Ht2).
  eexists l2, _. split_and!; [|by split|exact Hi2|done|done|done|done|exact Ht2].
  eapply live_later_l; [exact Hs1|]. eapply live_later_l; [exact Hs2|apply later_here].
Qed.

Lemma task_drains m l i w ch :
  length (sent ch) - fw_taken w = m →
  lv_tasks l !! i = Some w → fw_task w = Receiving → accepting (c_sink (lv_conn l)) →
  e_channels (c_engine (lv_conn l)) !! fw_rx w = Some ch →
  task_ok (e_channels (c_engine (lv_conn l))) (lv_trace l) i w →
  ∃ l', live_later defs (2 * m) l l' ∧ only_task i l l'
    ∧ Forall2 (carries (fw_sub w)) (sent ch) (frames_of (Some i) (lv_trace l')).
Proof.
  revert l w. induction m as [|m IH]; intros l w Hm Hi Hw Hacc Hch Ht.
  - exists l. split_and!; [apply later_here|by split|].
    destruct Ht as (ch' & k & Hch' & Hk & Ht). rewrite Hw in Ht. destruct Ht as [-> Ht].
    assert (ch' = ch) as -> by congruence. by rewrite take_ge in Ht by lia.
  - destruct (lookup_lt_is_Some_2 (sent ch) (fw_taken w)) as [rec Hrec]; [lia|].
    destruct (task_forwards l i w ch rec Hi Hw Hacc Hch Hrec Ht)
      as (l1 & w1 & Hl1 & [He Hr Hk] & Hi1 & Hw1 & Ht1 & Hrx & Hsub & Hok).
    destruct (IH l1 w1) as (l2 & Hl2 & [He2 Hr2 Hk2] & HF); try done.
    + lia.
    + by rewrite He, Hrx.
    + exists l2. split_and!; [|split; congruence|by rewrite Hsub in HF].
      replace (2 * S m) with (2 + 2 * m) by lia.
      clear -Hl1 Hl2. revert Hl2. generalize (2 * m). induction Hl1 as [|k x y z _ IHl Hs]; intros j Hj; [done|].
      replace (S k + j) with (k + S j) by lia. apply IHl. by eapply live_later_l.
Qed.

(** A task that has not ended. *)
Lemma task_finishes l i w ch :
  lv_tasks l !! i = Some w → fw_task w ≠ Finished → accepting (c_sink (lv_conn l)) →
  e_channels (c_engine (lv_conn l)) !! fw_rx w = Some ch →
  task_ok (e_channels (c_engine (lv_conn l))) (lv_trace l) i w →
  ∃ k l', live_later defs k l l' ∧ k ≤ 1 + 2 * length (sent ch) ∧ only_task i l l'
    ∧ Forall2 (carries (fw_sub w)) (sent ch) (frames_of (Some i) (lv_trace l')).
Proof.
  intros Hi Hw Hacc Hch Ht. destruct (fw_task w) as [|f|] eqn:Htask; [| |done].
  - destruct (task_drains _ l i w ch eq_refl Hi Htask Hacc Hch Ht) as (l' & Hl & Ho & HF).
    eexists _, l'. split_and!; [exact Hl|lia|done|done].
  - destruct (task_sends l i w f Hi Htask Hacc Ht) as (l1 & Hs & [He Hr Hk] & Hi1 & Ht1).
    rewrite <- He in Hch.
    destruct (task_drains _ l1 i (set_task w Receiving) ch eq_refl Hi1 eq_refl Hk Hch Ht1)
      as (l' & Hl & [He' Hr' Hk'] & HF).
    eexists _, l'. split_and!; [by eapply live_later_l|cbn; lia|split; congruence|done].
Qed.

(** A round of the dispatcher gives the subscription what is missing. *)
Lemma round_step (n : nat) l a s ch f start :
  inv_at true defs n (lv_registry l) (c_engine (lv_conn l)) a → (N.of_nat n < u64_max)%N →
  s ∈ e_subscribers (c_engine (lv_conn l)) →
  e_channels (c_engine (lv_conn l)) !! sub_sender s = Some ch →
  lv_registry l !! sub_sender s = Some (f, start) → (start < u64_max)%N →
  is_open ch →
  ∃ e' a' ch',
    live_step defs l {| lv_conn := set_c_engine (lv_conn l) e'; lv_registry := lv_registry l;
      lv_phase := lv_phase l; lv_tasks := lv_tasks l; lv_trace := lv_trace l |}
    ∧ holds (e_storage e') a' ∧ a_log a' = a_log a ∧ e_channels e' !! sub_sender s = Some ch'
    ∧ grows (e_channels (c_engine (lv_conn l))) (e_channels e')
    ∧ Forall2 (delivered_as true a') (wanted f (drop (N.to_nat start) (a_log a'))) (sent ch').
Proof.
  intros HI Hn Hs Hch Hreg Hst Ho. set (e := c_engine (lv_conn l)) in *.
  destruct (round_complete defs n _ e a s ch f start HI Hn Hs Hch Ho Hreg Hst)
    as (count & e' & a' & ch' & Hrun & HI' & Hlog & Hch' & HF & _).
  exists e', a', ch'. split_and!; [|apply HI'|done|done|by eapply dispatch_grows|done].
  apply lv_other. by eapply sys_dispatch.
Qed.

(** C12. Everything committed gets to the wire: on a store without faults and a
    connection that takes frames, from any state of the connection with a
    subscription whose task has not ended and whose receiver is alive, a round of
    the dispatcher and then at most two steps of the task for each record lead to a state in which the frames the task has
    written decode to exactly the wanted records after the start of the
    subscription, all of them, in order, with effects. *)
Theorem subscription_drains (c0 : Conn) (n : nat) l i w f start s ch :
  live_reachable true defs c0 n l → (N.of_nat (S n) < u64_max)%N →
  lv_tasks l !! i = Some w → fw_task w ≠ Finished → accepting (c_sink (lv_conn l)) →
  s ∈ e_subscribers (c_engine (lv_conn l)) → sub_sender s = fw_rx w →
  e_channels (c_engine (lv_conn l)) !! fw_rx w = Some ch →
  lv_registry l !! fw_rx w = Some (f, start) → (start < u64_max)%N →
  is_open ch →
  ∃ a0 k l' a records, holds (e_storage (c_engine (lv_conn l))) a0
    ∧ live_later defs k l l' ∧ k ≤ 2 * (1 + length (a_log a0)) ∧ holds (e_storage (c_engine (lv_conn l'))) a
    ∧ a_log a = a_log a0
    ∧ Forall2 (carries (fw_sub w)) records (frames_of (Some i) (lv_trace l'))
    ∧ Forall2 (delivered_as true a) (wanted f (drop (N.to_nat start) (a_log a))) records.
Proof.
  intros HR Hn Hi Hw Hacc Hs Hsnd Hch Hreg Hst Ho.
  destruct (live_reachable_inv true defs c0 n l HR ltac:(lia)) as [[a0 HI] Ht _ _ _ _].
  rewrite <- Hsnd in Hch, Hreg.
  destruct (round_step n l a0 s ch f start HI ltac:(lia) Hs Hch Hreg Hst Ho)
    as (e' & a & ch' & Hstep & Hh & Hlog & Hch' & Hg & HF). rewrite Hsnd in Hch'.
  set (l1 := Build_Live _ _ _ _ _) in Hstep.
  destruct (task_finishes l1 i w ch' Hi Hw Hacc Hch' (task_grows _ _ _ _ _ Hg (Ht i w Hi)))
    as (k & l' & Hl & Hk & [He _ _] & Hfr).
  exists a0, (S k), l', a, (sent ch'). split_and!; [apply HI|by eapply live_later_l| |by rewrite He|done|done|done].
  apply Forall2_length in HF. pose proof (length_wanted f (drop (N.to_nat start) (a_log a))) as Hlen.
  rewrite length_drop in Hlen. rewrite Hlog in HF, Hlen. lia.
Qed.

End progress.
