(* ===== verification/GuardProps.v ===== *)
(** * Guards of a running server

    The registry of guards is filled by [register_guard] alone, which no frame
    reaches and no binary calls. [inert] is the property of an engine action to
    leave an empty registry empty and not to fail by a guard; it composes along
    the state monad, and [harmless] composes it along a connection. *)
From S2P Require Import Prelude Core Redb Storage StorageTrait Channel Engine EngineSpec EngineRun.
From S2P Require Import Frame Messages Wire WireProps Live LiveProps.

Section engine_actions.
Context {SE : StorageEngine} {MP : Mpsc ChangeRecord} {EN : Env}.

Definition unguarded (e : Engine) : Prop := e_guards e = GuardRegistry.new.

Definition by_guard (err : EngineError) : bool :=
  match err with ECore (GuardFailed _ _) => true | _ => false end.

Definition inert {A} (m : St Engine EngineError A) : Prop :=
  ∀ e r e', unguarded e → m e = (r, e') →
    unguarded e' ∧ match r with Err err => by_guard err = false | Ok _ => True end.

Lemma inert_bind {A B} (m : St Engine EngineError A) (k : A → St Engine EngineError B) :
  inert m → (∀ x, inert (k x)) → inert (st_bind m k).
Proof.
  intros Hm Hk e r e' He. unfold st_bind. destruct (m e) as [[x|err] e1] eqn:Hx.
  - destruct (Hm _ _ _ He Hx) as [He1 _]. by apply Hk.
  - intros [= <- <-]. exact (Hm _ _ _ He Hx).
Qed.

Lemma inert_ret {A} (x : A) : inert (st_ret x).
Proof. by intros e r e' He [= <- <-]. Qed.
Lemma inert_err {A} err : by_guard err = false → inert (st_err (A := A) err).
Proof. by intros Hg e r e' He [= <- <-]. Qed.
Lemma inert_gets {A} (f : Engine → A) : inert (gets f).
Proof. by intros e r e' He [= <- <-]. Qed.
Lemma inert_notify : inert (modify notify_one).
Proof. by intros e r e' He [= <- <-]. Qed.
Lemma inert_now : inert now.
Proof. by intros e r e' He [= <- <-]. Qed.
Lemma inert_uuid : inert uuid.
Proof. by intros e r e' He [= <- <-]. Qed.
Lemma inert_try {A} (op : St store StorageError A) : inert (try_storage op).
Proof. intros e r e' He. unfold try_storage. destruct (op _) as [r0 d]. by intros [= <- <-]. Qed.
Lemma inert_storage {A} (op : St store StorageError A) : inert (storage op).
Proof.
  intros e r e' He. unfold storage. destruct (op _) as [r0 d]. intros [= <- <-]. by destruct r0.
Qed.
Lemma inert_core {A} (x : Res A CoreError) :
  match x with Err (GuardFailed _ _) => False | _ => True end → inert (core x).
Proof. intros Hx e r e' He [= <- <-]. by destruct x as [y|[]]. Qed.

Lemma inert_expected en mach v cur : inert (core (check_expected en mach v cur)).
Proof. apply inert_core. unfold check_expected. repeat case_match; simplify_eq; done. Qed.

Lemma inert_plan def s ev en : inert (core (FsmPlanner.plan_transition def s ev en)).
Proof.
  apply inert_core. unfold FsmPlanner.plan_transition. by destruct (List.find _ _).
Qed.

#[local] Hint Resolve inert_bind inert_ret inert_err inert_gets inert_notify inert_now inert_uuid : inert.
#[local] Hint Resolve inert_try inert_storage inert_expected inert_plan : inert.

Lemma inert_registry {A} (k : GuardRegistry.GuardRegistry → St Engine EngineError A) :
  inert (k GuardRegistry.new) → inert (st_bind (gets e_guards) k).
Proof. intros Hk e r e' He. unfold st_bind, gets. rewrite He. by apply Hk. Qed.

Lemma inert_guards rule st ctx :
  inert (core (FsmPlanner.validate_guards rule
    (eval_guards GuardRegistry.new (rule_guards rule) st ctx))).
Proof.
  apply inert_core. fold (guards_pass GuardRegistry.new rule st ctx).
  by rewrite guards_pass_registered.
Qed.

Lemma inert_effects tid rules : inert (new_effects tid rules).
Proof. induction rules as [|er rules IH]; cbn [new_effects]; eauto 10 with inert. Qed.

Lemma inert_commit def rule en mach ev actor ctx key s v created now0 :
  inert (commit_transition def rule en mach ev actor ctx key s v created now0).
Proof. unfold commit_transition. eauto 20 using inert_effects with inert. Qed.

Lemma inert_lookup key : inert (lookup_idempotency key).
Proof. destruct key; cbn; eauto with inert. Qed.

Lemma inert_load def t en mach : inert (load_current def t en mach).
Proof. apply inert_bind; [eauto with inert|]. intros [s|[]]; eauto with inert. Qed.

Lemma inert_transition en mach ev actor ctx v key : inert (transition en mach ev actor ctx v key).
Proof.
  unfold transition. apply inert_bind; [eauto with inert|]. intros []; [eauto with inert|].
  apply inert_bind; [apply inert_lookup|]. intros [rec|]; [eauto with inert|].
  apply inert_bind; [eauto with inert|]. intros def. apply inert_bind; [eauto with inert|]. intros t.
  apply inert_bind; [apply inert_load|]. intros [[s cur] created].
  apply inert_bind; [eauto with inert|]. intros _. apply inert_bind; [eauto with inert|]. intros rule.
  apply inert_registry. eauto 10 using inert_guards, inert_commit with inert.
Qed.

End engine_actions.

(** ** A connection *)

Section connection.
Context {SE : StorageEngine} {MP : Mpsc ChangeRecord} {EN : Env}.
Context {WC : WireCodecs} {WO : WireCodecsOk WC} {FS : FrameSink} {FO : FrameSinkOk FS}.
Context {SV : ServerEnv} {JS : ToJson EntityState} {JR : ToJson (list TransitionRecord)}.
Implicit Types (c : Conn) (f : Frame).

(** Not a rejection by a guard. *)
Definition unrefused f : Prop :=
  ∀ msg : RejectionMessage, tag f = TRejection → decode_message f = Ok msg → rj_code msg ≠ "guard_failed".

Definition harmless c c' : Prop :=
  unguarded (c_engine c) →
  unguarded (c_engine c')
  ∧ ∃ ws, written (c_sink c') = written (c_sink c) ++ ws ∧ Forall unrefused ws.

#[local] Instance harmless_preorder : PreOrder harmless.
Proof.
  split.
  - intros c H. split; [done|]. exists []. by rewrite app_nil_r.
  - intros c1 c2 c3 H1 H2 H. destruct (H1 H) as (H' & w1 & E1 & F1).
    destruct (H2 H') as (H'' & w2 & E2 & F2). split; [done|].
    exists (w1 ++ w2). rewrite E2, E1, app_assoc. split; [done|by apply Forall_app].
Qed.

Lemma harmless_same c c' :
  (unguarded (c_engine c) → unguarded (c_engine c')) → c_sink c' = c_sink c → harmless c c'.
Proof. intros He Hs H. split; [auto|]. exists []. by rewrite Hs, app_nil_r. Qed.

Lemma harmless_written c c' ws :
  c_engine c' = c_engine c → written (c_sink c') = written (c_sink c) ++ ws → Forall unrefused ws →
  harmless c c'.
Proof. intros He Hw Hf H. rewrite He. split; [done|by exists ws]. Qed.

Lemma unrefused_tag f : tag f ≠ TRejection → unrefused f.
Proof. by intros Ht msg Ht'. Qed.

Lemma unrefused_error m fatal : unrefused (make_error_frame m fatal).
Proof. apply unrefused_tag. by rewrite make_error_frame_tag. Qed.

Lemma unrefused_result {A} `{Serde A} t (msg : A) :
  t ≠ TRejection → unrefused (frame_or_error (encode_message t msg)).
Proof.
  intros Ht. unfold encode_message. destruct (to_vec msg); cbn; [by apply unrefused_tag|].
  apply unrefused_error.
Qed.

Lemma unrefused_rejection rid err : by_guard err = false → unrefused (make_rejection_frame rid err).
Proof.
  intros Hg msg _. unfold make_rejection_frame.
  destruct (encode_message_ok TRejection (rejection_message rid err)) as (f & -> & _ & Hd & _).
  cbn [frame_or_error]. rewrite Hd. intros [= <-]. by destruct err as [[]| | | |].
Qed.

Lemma define_unguarded def (e : Engine) r e' :
  unguarded e → define_machine def e = (r, e') → unguarded e'.
Proof.
  intros He. unfold define_machine, core, st_res, st_bind. destruct (map_err _ _); cbn.
  - intros Hs. by apply (inert_storage _ _ _ _ He Hs).
  - by intros [= _ <-].
Qed.

Lemma handle_frame_unguarded (e : Engine) m f fs e' m' :
  unguarded e → handle_frame e m f = (fs, e', m') → unguarded e' ∧ Forall unrefused fs.
Proof.
  intros He. unfold handle_frame, error_reply, result_reply.
  assert (∀ x e1, unguarded e1 → unguarded e1 ∧ Forall unrefused [make_error_frame x false]) as Herr.
  { intros x e1 H1. split; [done|]. apply Forall_singleton, unrefused_error. }
  assert (∀ rid v e1, unguarded e1 → unguarded e1 ∧ Forall unrefused
    [frame_or_error (encode_message TResult {| rs_request_id := rid; rs_payload := v |})]) as Hres.
  { intros rid v e1 H1. split; [done|]. by apply Forall_singleton, unrefused_result. }
  destruct (tag f); try (intros [= <- <- _]; by apply Herr).
  - destruct (decode_message f) as [msg|err]; [|intros [= <- <- _]; by apply Herr].
    destruct (define_machine _ e) as [r e1] eqn:Hd. apply define_unguarded in Hd; [|done].
    destruct r; intros [= <- <- _]; [by apply Hres|by apply Herr].
  - destruct (decode_message f) as [msg|err]; [|intros [= <- <- _]; by apply Herr].
    destruct (transition _ _ _ _ _ _ _ e) as [r e1] eqn:Ht.
    destruct (inert_transition _ _ _ _ _ _ _ _ _ _ He Ht) as [H1 H2].
    destruct r as [res|err]; intros [= <- <- _]; (split; [done|]); apply Forall_singleton;
      [by apply unrefused_result|by apply unrefused_rejection].
  - destruct (decode_message f) as [msg|err]; [|intros [= <- <- _]; by apply Herr].
    destruct (current _ _ e) as [r e1] eqn:Hc. destruct (inert_storage _ _ _ _ He Hc) as [H1 _].
    destruct r as [st|err]; [destruct (to_value st)|]; intros [= <- <- _]; by apply Herr || by apply Hres.
  - destruct (decode_message f) as [msg|err]; [|intros [= <- <- _]; by apply Herr].
    destruct (history _ _ _ _ e) as [r e1] eqn:Hc. destruct (inert_storage _ _ _ _ He Hc) as [H1 _].
    destruct r as [st|err]; [destruct (to_value st)|]; intros [= <- <- _]; by apply Herr || by apply Hres.
  - destruct (decode_message f) as [msg|err]; intros [= <- <- _]; [done|by apply Herr].
  - intros [= <- <- _]. split; [done|]. by apply Forall_singleton, unrefused_tag.
Qed.

Lemma cleanup_harmless c : harmless c (cleanup c).
Proof.
  assert (∀ subs (e : Engine), unguarded e → unguarded (foldl (λ e sub, unsubscribe sub e) e subs)) as Hf.
  { induction subs as [|s subs IH]; intros e He; [done|]. by apply IH. }
  apply harmless_same; [apply Hf|done].
Qed.

Lemma receive_harmless f c ph c' :
  receive f c = (ph, c') → unguarded (c_engine c) →
  harmless c c' ∧ match ph with Replying fs _ => Forall unrefused fs | _ => True end.
Proof.
  intros Hr He.
  assert (∀ c1, unguarded (c_engine c1) → c_sink c1 = c_sink c → harmless c c1) as Hsame
    by (intros; by apply harmless_same).
  unfold receive in Hr. destruct (tag f) eqn:Ht;
    try (destruct (handle_frame _ _ f) as [[fs e1] m1] eqn:Hh; injection Hr as <- <-;
      destruct (handle_frame_unguarded _ _ _ _ _ _ He Hh); split; [by apply Hsame|done]).
  - unfold handle_subscribe in Hr. destruct (decode_message f) as [msg|err].
    2: { injection Hr as <- <-. split; [done|]. by apply Forall_singleton, unrefused_error. }
    rewrite (surjective_pairing (subscribe _ _ _ _)) in Hr. unfold encode_message in Hr.
    destruct (to_vec _); injection Hr as <- <-; (split; [by apply Hsame|]); apply Forall_singleton;
      [by apply unrefused_tag|apply unrefused_error].
  - destruct (decode_message f) as [msg|err]; injection Hr as <- <-; (split; [by apply Hsame|]); [done|].
    apply Forall_singleton, unrefused_error.
  - injection Hr as <- <-. split; [apply cleanup_harmless|done].
Qed.

Lemma reply_harmless fs ignored c ph c' :
  Forall unrefused fs → reply fs ignored c = (ph, c') → harmless c c'.
Proof.
  intros Hf Hr. destruct (reply_written _ _ _ _ _ Hr) as (He & _ & ws & Hw & [rest ->]).
  apply Forall_app in Hf as [? _]. by eapply harmless_written.
Qed.

Lemma request_loop_harmless incoming c r c' : request_loop incoming c = (r, c') → harmless c c'.
Proof.
  revert c. induction incoming as [|[f|e] incoming IH]; intros c;
    [intros [= _ <-]; apply cleanup_harmless| |intros [= _ <-]; apply cleanup_harmless].
  rewrite request_loop_split. intros Hrun He.
  destruct (receive f c) as [ph c1] eqn:Hr. destruct (receive_harmless _ _ _ _ Hr He) as [H1 H2].
  revert He. change (harmless c c'). etrans; [exact H1|]. clear H1 Hr.
  destruct ph as [|fs ig|r1]; [by apply IH| |by injection Hrun as _ <-].
  destruct (reply fs ig c1) as [ph2 c2] eqn:Hp. apply reply_harmless in Hp; [|done].
  etrans; [exact Hp|]. destruct ph2; [by apply IH|by apply IH|by injection Hrun as _ <-].
Qed.

Lemma send_frames_harmless fs c r c' :
  Forall unrefused fs → send_frames fs c = (r, c') → harmless c c'.
Proof.
  intros Hf Hs. destruct (send_frames_written _ _ _ _ Hs) as (He & ws & Hw & [rest ->]).
  apply Forall_app in Hf as [? _]. eapply harmless_written; [by rewrite He|done|done].
Qed.

Lemma send_ignoring_harmless f c : unrefused f → harmless c (send_ignoring f c).
Proof.
  intros Hf. unfold send_ignoring. destruct (sink_send (c_sink c) f) as [[[]|e] s] eqn:Hs.
  - eapply harmless_written; [done|by apply sink_send_ok|by apply Forall_singleton].
  - eapply (harmless_written _ _ []); [done| |constructor]. rewrite app_nil_r. by eapply sink_send_err.
Qed.

Lemma open_session_harmless su incoming c r c' : open_session su incoming c = (r, c') → harmless c c'.
Proof.
  unfold open_session. rewrite (surjective_pairing (draw_session _)).
  rewrite (surjective_pairing (draw_session _).1).
  set (c1 := authenticate _ _ _). assert (harmless c c1) as H1 by by apply harmless_same.
  clearbody c1.
  unfold encode_message. destruct (to_vec (A := ErrorMessage) _) as [b1|e1]; [|by intros [= _ <-]].
  destruct (send_frames [_] c1) as [[u|e] c2] eqn:Hs2;
    apply send_frames_harmless in Hs2; try (by apply Forall_singleton, unrefused_tag);
    rewrite Hs2 in H1; [|by intros [= _ <-]].
  destruct (to_vec (A := ReadyMessage) _) as [b2|e2]; [|by intros [= _ <-]].
  destruct (send_frames [_] c2) as [[u2|e] c3] eqn:Hs3;
    apply send_frames_harmless in Hs3; try (by apply Forall_singleton, unrefused_tag);
    rewrite Hs3 in H1; [|by intros [= _ <-]].
  intros Hl%request_loop_harmless. by etrans.
Qed.

(** C40. A guard of a machine definition never refuses a transition in the
    server: as long as no guard function is registered in the process, whatever a
    client sends, no reply is a rejection with code guard_failed, and no frame
    registers a guard. *)
Theorem guards_never_refuse tokens incoming c r c' :
  serve_framed tokens incoming c = (r, c') → unguarded (c_engine c) →
  unguarded (c_engine c')
  ∧ ∃ ws, written (c_sink c') = written (c_sink c) ++ ws ∧ Forall unrefused ws.
Proof.
  intros Hrun. change (harmless c c'). revert Hrun. unfold serve_framed, send_fatal_error.
  destruct (next_frame incoming) as [[f1 in1]|e]; [|by intros [= _ <-]].
  case_decide; [intros [= _ <-]; apply send_ignoring_harmless, unrefused_error|].
  destruct (decode_message f1) as [su|e]; [|by intros [= _ <-]].
  destruct (negb _); [intros [= _ <-]; apply send_ignoring_harmless, unrefused_error|].
  destruct (next_frame in1) as [[f2 in2]|e]; [|by intros [= _ <-]].
  case_decide; [intros [= _ <-]; apply send_ignoring_harmless, unrefused_error|].
  destruct (decode_message f2) as [au|e]; [|by intros [= _ <-]].
  destruct (negb _); [|apply open_session_harmless].
  unfold encode_message. destruct (to_vec _) as [b|e]; [|by intros [= _ <-]].
  intros [= _ <-]. by apply send_ignoring_harmless, unrefused_tag.
Qed.

End connection.
