(* ===== verification/LiveExamples.v ===== *)
(** * A live connection at work

    A client subscribes; before the answer is written another connection submits
    a document, the dispatcher delivers the record, and the forwarding task gets
    the lock first: the change record is on the wire before the answer to
    Subscribe. *)
From S2P Require Import Prelude Core Redb Keys Storage StorageSpec StorageTrait Channel Engine.
From S2P Require Import EngineSpec EngineRun Dispatch System Concrete EngineExamples Frame Messages Wire.
From S2P Require Import WireProps WireExamples Live LiveProps LiveProgress GuardProps.
Import Demo DemoWire.

Definition subscribe_frame : Frame :=
  frame_of TSubscribe {| sb_request_id := 1; sb_subscription_id := "w";
                         sb_machine_filter := Some "document"; sb_after_sequence := 0 |}.

(** ** The schedule *)

Definition live0 : Live := live_open (conn (run0 [])) [].
(** The frame is handled. *)
Definition live1 : Live := handled live0 subscribe_frame.
(** Elsewhere: a transition, and a pass of the dispatcher. *)
Definition on_engine (g : Engine → Engine) (l : Live) : Live :=
  {| lv_conn := set_c_engine (lv_conn l) (g (c_engine (lv_conn l))); lv_registry := lv_registry l;
     lv_phase := lv_phase l; lv_tasks := lv_tasks l; lv_trace := lv_trace l |}.
Definition live2 : Live := on_engine (λ e, (do_transition (req "submit" None None) e).2) live1.
Definition pass (e : Engine) : Engine :=
  match dispatch 10 e with Some (_, e) => e | None => e end.
Definition live3 : Live := on_engine pass live2.
(** The forwarding task receives the record. *)
Definition the_task (l : Live) : Forwarder := default (spawned (EmptyString, 0)) (lv_tasks l !! 0).
Definition the_channel (l : Live) : chan ChangeRecord :=
  default unbounded_channel (e_channels (c_engine (lv_conn l)) !! 0).
Definition receives (l : Live) : Live :=
  {| lv_conn := lv_conn l; lv_registry := lv_registry l; lv_phase := lv_phase l;
     lv_tasks := <[0 := take_record (default submitted (sent (the_channel l) !! 0)) (the_task l)]>
                   (lv_tasks l);
     lv_trace := lv_trace l |}.
Definition live4 : Live := receives live3.
(** It writes it. *)
Definition the_frame (l : Live) : Frame :=
  match fw_task (the_task l) with Sending f => f | _ => ping_frame end.
Definition sends (l : Live) : Live :=
  let '(w, s) := send_record (the_frame l) (the_task l) (c_sink (lv_conn l)) in
  {| lv_conn := set_c_sink (lv_conn l) s; lv_registry := lv_registry l;
     lv_phase := lv_phase l; lv_tasks := <[0 := w]> (lv_tasks l);
     lv_trace := lv_trace l ++ [(Some 0, the_frame l)] |}.
Definition live5 : Live := sends live4.
(** The main task writes its answer. *)
Definition the_replies (l : Live) : list Frame :=
  match lv_phase l with Replying fs _ => fs | _ => [] end.
Definition replies (l : Live) : Live :=
  let '(ph, c) := reply (the_replies l) false (lv_conn l) in
  {| lv_conn := c; lv_registry := lv_registry l; lv_phase := ph; lv_tasks := lv_tasks l;
     lv_trace := lv_trace l ++ ((None,.) <$> the_replies l) |}.
Definition live6 : Live := replies live5.

(** Receiving changes a task; writing does not touch the engine. *)
Lemma receives_rest l :
  lv_conn (receives l) = lv_conn l ∧ lv_phase (receives l) = lv_phase l
  ∧ lv_registry (receives l) = lv_registry l ∧ lv_trace (receives l) = lv_trace l
  ∧ length (lv_tasks (receives l)) = length (lv_tasks l).
Proof. split_and!; try done. apply length_insert. Qed.
Lemma sends_engine l : c_engine (lv_conn (sends l)) = c_engine (lv_conn l).
Proof. unfold sends. by destruct (send_record _ _ _) as [w s]. Qed.
Lemma sends_tasks l : length (lv_tasks (sends l)) = length (lv_tasks l).
Proof. unfold sends. destruct (send_record _ _ _) as [w s]. apply length_insert. Qed.
Lemma replies_engine l : c_engine (lv_conn (replies l)) = c_engine (lv_conn l).
Proof.
  unfold replies. destruct (reply _ _ _) as [ph c] eqn:Hr.
  by destruct (reply_written _ _ _ _ _ Hr) as [He _].
Qed.

(** The task in place, with its frame, on a connection not yet written to. *)
Lemma sends_step l :
  lv_tasks l !! 0 = Some (the_task l) → fw_task (the_task l) = Sending (the_frame l) →
  c_sink (lv_conn l) = open_sink →
  live_step only_document l (sends l)
  ∧ lv_tasks (sends l) !! 0 = Some (set_task (the_task l) Receiving)
  ∧ c_sink (lv_conn (sends l)) = (0, false, [the_frame l])
  ∧ lv_phase (sends l) = lv_phase l ∧ lv_registry (sends l) = lv_registry l
  ∧ lv_trace (sends l) = lv_trace l ++ [(Some 0, the_frame l)].
Proof.
  intros H0 Hw Hk. unfold sends. destruct (send_record _ _ _) as [w s] eqn:Hs. split.
  - eapply (lv_send only_document l 0 (the_task l) (the_frame l) w s [the_frame l]);
      [exact H0|exact Hw|exact Hs|]. rewrite Hk in Hs |- *. by injection Hs as _ <-.
  - rewrite Hk in Hs. injection Hs as <- <-. cbn. split_and!; try done.
    apply list_lookup_insert_eq. by eapply lookup_lt_Some.
Qed.

Lemma replies_step l f q :
  lv_phase l = Replying [f] false → c_sink (lv_conn l) = (0, false, q) →
  live_step only_document l (replies l) ∧ lv_tasks (replies l) = lv_tasks l
  ∧ lv_registry (replies l) = lv_registry l ∧ lv_trace (replies l) = lv_trace l ++ [(None, f)].
Proof.
  intros Hph Hk. unfold replies, the_replies. rewrite Hph.
  destruct (reply _ _ _) as [ph c] eqn:Hr. split; [|done].
  apply (lv_reply only_document l [f] false ph c [f]); [exact Hph|exact Hr|].
  unfold reply in Hr. cbn [send_frames] in Hr. rewrite Hk in Hr |- *. by injection Hr as _ <-.
Qed.

Lemma live1_step : live_step only_document live0 live1.
Proof. exact (lv_frame only_document live0 subscribe_frame eq_refl I). Qed.

Lemma live2_step : live_step only_document live1 live2.
Proof.
  apply lv_other. eapply (sys_transition _ _ _ (req "submit" None None));
    [reflexivity|reflexivity|apply surjective_pairing].
Qed.

Lemma live3_step : live_step only_document live2 live3.
Proof.
  apply lv_other. unfold pass.
  destruct (dispatch 10 (c_engine (lv_conn live2))) as [[k e]|] eqn:Hd.
  - by eapply sys_dispatch.
  - exfalso. apply (f_equal (fmap fst)) in Hd. vm_compute in Hd. discriminate Hd.
Qed.

Lemma live4_step : live_step only_document live3 live4.
Proof.
  apply (lv_recv only_document live3 0 (the_task live3) (the_channel live3)); vm_compute; reflexivity.
Qed.

(** The first task of [live4] has a frame to write, on a connection not yet
    written to, and has received what its channel was given. *)
Lemma live4_task :
  lv_tasks live4 !! 0 = Some (the_task live4) ∧ fw_task (the_task live4) = Sending (the_frame live4)
  ∧ fw_sub (the_task live4) = "w" ∧ fw_rx (the_task live4) = 0 ∧ fw_taken (the_task live4) = 1
  ∧ c_sink (lv_conn live4) = open_sink.
Proof.
  assert (lv_tasks live4 !! 0 = Some (take_record (default submitted (sent (the_channel live3) !! 0))
            (the_task live3))) as H0.
  { apply list_lookup_insert_eq. vm_compute. lia. }
  assert (fw_sub (the_task live3) = "w") as Hs by (vm_compute; reflexivity).
  assert (fw_rx (the_task live3) = 0) as Hx by (vm_compute; reflexivity).
  assert (fw_taken (the_task live3) = 0) as Ht by (vm_compute; reflexivity).
  unfold the_frame, the_task at 1 2 3 4 5 6. rewrite H0. cbn [default from_option id].
  split_and!; [reflexivity|reflexivity|exact Hs|exact Hx|exact (f_equal S Ht)|vm_compute; reflexivity].
Qed.

(** The answer to Subscribe, still to be written. *)
Lemma live4_reply :
  ∃ f, lv_phase live4 = Replying [f] false ∧ lv_registry live4 = [(Some "document", 0%N)]
    ∧ lv_trace live4 = [] ∧ length (lv_tasks live4) = 1.
Proof.
  destruct (receives_rest live3) as (_ & H1 & H2 & H3 & H4). fold live4 in H1, H2, H3, H4.
  rewrite H1, H2, H3, H4. exists (default ping_frame (the_replies live3 !! 0)).
  clear H1 H2 H3 H4. vm_compute. split_and!; reflexivity.
Qed.

(** How the run ends. *)
Lemma live6_state :
  live_step only_document live4 live5 ∧ live_step only_document live5 live6
  ∧ lv_tasks live6 = [set_task (the_task live4) Receiving]
  ∧ lv_registry live6 = [(Some "document", 0%N)]
  ∧ ∃ f, lv_trace live6 = [(Some 0, the_frame live4); (None, f)].
Proof.
  destruct live4_task as (H0 & Hw & _ & _ & _ & Hk). destruct live4_reply as (f & Hph & Hreg & Ht & Hlen).
  destruct (sends_step live4 H0 Hw Hk) as (Hs & Htask & Hk5 & Hph5 & Hreg5 & Ht5).
  pose proof (sends_tasks live4) as Hlen5. fold live5 in Hs, Htask, Hk5, Hph5, Hreg5, Ht5, Hlen5.
  destruct (replies_step live5 f _ (eq_trans Hph5 Hph) Hk5) as (Hs6 & Htask6 & Hreg6 & Ht6).
  fold live6 in Hs6, Htask6, Hreg6, Ht6.
  split_and!; [exact Hs|exact Hs6| |rewrite Hreg6, Hreg5; exact Hreg|].
  - rewrite Htask6. rewrite Hlen in Hlen5.
    destruct (lv_tasks live5) as [|w [|w' ws]]; [discriminate Hlen5| |discriminate Hlen5].
    injection Htask as ->. reflexivity.
  - exists f. rewrite Ht6, Ht5, Ht. reflexivity.
Qed.

(** The engine is where the dispatcher left it. *)
Lemma live6_engine : c_engine (lv_conn live6) = c_engine (lv_conn live3).
Proof. unfold live6, live5. rewrite replies_engine, sends_engine.
  unfold live4. by rewrite (proj1 (receives_rest live3)).
Qed.

Lemma live3_channel :
  ∃ ch, e_channels (c_engine (lv_conn live3)) !! 0 = Some ch ∧ length (sent ch) = 1.
Proof. exists (the_channel live3). split; vm_compute; reflexivity. Qed.

Lemma live6_reach : live_reachable true only_document (conn (run0 [])) 7 live6.
Proof.
  destruct live6_state as (Hs5 & Hs6 & _).
  eapply live_next; [|exact Hs6]. eapply live_next; [|exact Hs5].
  eapply live_next; [|exact live4_step]. eapply live_next; [|exact live3_step].
  eapply live_next; [|exact live2_step]. eapply live_next; [|exact live1_step].
  apply live_init; [by apply run0_reach|reflexivity].
Qed.

(** ** Witnesses *)

Lemma wire_stream_witness :
  (lv_trace live6).*1 = [Some 0; None]
  ∧ ∃ record f, frames_of (Some 0) (lv_trace live6) = [f] ∧ carries "w" record f
      ∧ Forall plain (frames_of None (lv_trace live6)).
Proof.
  destruct live6_state as (_ & _ & Htasks & Hreg & g & Htr).
  destruct live4_task as (_ & _ & Hsub & Hrx & _).
  destruct (wire_stream true only_document (conn (run0 [])) 7 live6 0
              (set_task (the_task live4) Receiving) (Some "document") 0%N)
    as (a & cursor & ch & records & _ & _ & Hcar & _ & _ & _ & _ & Hpl).
  - exact live6_reach.
  - reflexivity.
  - rewrite Htasks. reflexivity.
  - cbn [set_task fw_rx]. rewrite Hrx, Hreg. reflexivity.
  - reflexivity.
  - cbn [set_task fw_sub] in Hcar. rewrite Hsub in Hcar. rewrite Htr in Hcar, Hpl |- *.
    split; [reflexivity|].
    apply Forall2_cons_inv_r in Hcar as (rec & rest & Hc & _ & _).
    exists rec, (the_frame live4). split; [reflexivity|split; [exact Hc|exact Hpl]].
Defined.

(** The rule of submit names the guard has_title, and the transition commits. *)
Lemma guards_never_refuse_witness :
  let incoming := Ok <$> [startup_frame 1; auth_frame "secret"; submit_frame] in
  let c' := (serve_framed ["secret"] incoming (conn (run0 []))).2 in
  ∃ ws, written (c_sink c') = ws ∧ tag <$> ws = [TAuthOk; TReady; TResult] ∧ Forall unrefused ws.
Proof.
  intros incoming c'.
  destruct (guards_never_refuse ["secret"] incoming (conn (run0 []))
              (serve_framed ["secret"] incoming (conn (run0 []))).1 c') as (_ & ws & Hw & Hf).
  - apply surjective_pairing.
  - vm_compute. reflexivity.
  - exists ws. split; [exact Hw|split; [|exact Hf]].
    change (written (c_sink c') = [] ++ ws) in Hw. cbn [app] in Hw. rewrite <- Hw.
    vm_compute. reflexivity.
Defined.

(** The record is committed and nobody was told yet. *)
Lemma live2_reach : live_reachable true only_document (conn (run0 [])) 3 live2.
Proof.
  eapply live_next; [|exact live2_step]. eapply live_next; [|exact live1_step].
  apply live_init; [by apply run0_reach|reflexivity].
Qed.

Definition the_subscriber : Subscriber :=
  {| sub_id := "w"; sub_machine_filter := Some "document"; sub_sender := 0; sub_delivered_through := 0 |}.

Lemma subscription_drains_witness :
  lv_trace live2 = [] ∧
  ∃ a0 k l' a records, holds (e_storage (c_engine (lv_conn live2))) a0
    ∧ live_later only_document k live2 l' ∧ k ≤ 2 * (1 + length (a_log a0))
    ∧ holds (e_storage (c_engine (lv_conn l'))) a ∧ a_log a = a_log a0
    ∧ Forall2 (carries (fw_sub (the_task live2))) records (frames_of (Some 0) (lv_trace l'))
    ∧ Forall2 (delivered_as true a) (wanted (Some "document") (drop 0 (a_log a))) records.
Proof.
  split; [vm_compute; reflexivity|].
  assert (e_subscribers (c_engine (lv_conn live2)) = [the_subscriber]) as Hsubs by (vm_compute; reflexivity).
  assert (e_channels (c_engine (lv_conn live2)) !! 0 = Some ((true, []) : chan ChangeRecord)) as Hch
    by (vm_compute; reflexivity).
  apply (subscription_drains only_document (conn (run0 [])) 3 live2 0 (the_task live2) (Some "document") 0
    the_subscriber (true, [])); [exact live2_reach|done|vm_compute; reflexivity
    |intros Heq; vm_compute in Heq; discriminate Heq|vm_compute; reflexivity|rewrite Hsubs; constructor
    |vm_compute; reflexivity|exact Hch|vm_compute; reflexivity|done|].
  reflexivity.
Defined.
