(* ===== verification/Text.v ===== *)
(** * Text: the string operations of the command line and the configuration

    Models what the programs use of Rust's [str]: [split], [splitn(2, _)],
    [trim], [strip_prefix], [join], [parse] of unsigned integers, the padding of
    format strings. Strings are their UTF-8 bytes. *)
From S2P Require Import Prelude Keys.
From Stdlib Require Import Strings.Ascii.

(** ** Text: [str::split], [str::trim] *)

Section text.
Local Open Scope char_scope.

Fixpoint split (c : ascii) (s : string) : list string :=
  match s with
  | EmptyString => [EmptyString]
  | String a s' =>
      if (a =? c)%char then EmptyString :: split c s'
      else match split c s' with
           | [] => [String a EmptyString]
           | w :: ws => String a w :: ws
           end
  end.

End text.

(** The UTF-8 encodings of the characters with the property White_Space. *)
Definition whitespace : list (list ascii) :=
  map (map ascii_of_N)
  [[9]; [10]; [11]; [12]; [13]; [32]; [194; 133]; [194; 160]; [225; 154; 128];
   [226; 128; 128]; [226; 128; 129]; [226; 128; 130]; [226; 128; 131]; [226; 128; 132];
   [226; 128; 133]; [226; 128; 134]; [226; 128; 135]; [226; 128; 136]; [226; 128; 137];
   [226; 128; 138]; [226; 128; 168]; [226; 128; 169]; [226; 128; 175]; [226; 129; 159];
   [227; 128; 128]]%N.

Fixpoint strip_prefix (w s : list ascii) : option (list ascii) :=
  match w, s with
  | [], _ => Some s
  | a :: w, b :: s => if (a =? b)%char then strip_prefix w s else None
  | _, [] => None
  end.

(** Remove one of [ws] from the front. *)
Fixpoint strip_any (ws : list (list ascii)) (s : list ascii) : option (list ascii) :=
  match ws with
  | [] => None
  | w :: ws => match strip_prefix w s with Some s' => Some s' | None => strip_any ws s end
  end.

(** Each round removes a character, so the length is fuel enough. *)
Fixpoint strip_all (fuel : nat) (ws : list (list ascii)) (s : list ascii) : list ascii :=
  match fuel, strip_any ws s with
  | S fuel, Some s' => strip_all fuel ws s'
  | _, _ => s
  end.

Definition trim_start (s : list ascii) : list ascii := strip_all (length s) whitespace s.
Definition trim_end (s : list ascii) : list ascii :=
  rev (strip_all (length s) (map (@rev ascii) whitespace) (rev s)).
Definition trim (s : string) : string :=
  String.string_of_list_ascii (trim_end (trim_start (String.list_ascii_of_string s))).

(** [[String]::join]. *)
Fixpoint join (sep : string) (ws : list string) : string :=
  match ws with
  | [] => EmptyString
  | [w] => w
  | w :: ws => w +:+ sep +:+ join sep ws
  end.


(** [s.splitn(2, c)]: the part before the first [c], and the rest if there is
    one. *)
Fixpoint splitn2 (c : ascii) (s : string) : string * option string :=
  match s with
  | EmptyString => (EmptyString, None)
  | String a s' =>
      if (a =? c)%char then (EmptyString, Some s')
      else let '(w, rest) := splitn2 c s' in (String a w, rest)
  end.

(** [s.strip_prefix(c)] for a character. *)
Definition strip_char (c : ascii) (s : string) : option string :=
  match s with
  | String a s' => if (a =? c)%char then Some s' else None
  | EmptyString => None
  end.

(** [s.repeat(n)]. *)
Fixpoint repeat_str (s : string) (n : nat) : string :=
  match n with 0 => EmptyString | S n => s +:+ repeat_str s n end.

(** ** Unsigned integers *)

Definition digit_value (a : ascii) : option N :=
  let n := N_of_ascii a in
  if ((48 <=? n) && (n <=? 57))%N then Some (n - 48)%N else None.

(** The digits after the sign, with checked multiplication and addition. *)
Fixpoint parse_digits (max acc : N) (s : string) : option N :=
  match s with
  | EmptyString => Some acc
  | String a s' =>
      match digit_value a with
      | None => None
      | Some d =>
          let acc' := (acc * 10 + d)%N in
          if (acc' <=? max)%N then parse_digits max acc' s' else None
      end
  end.

(** [s.parse::<uN>()] for the type whose largest value is [max]: an optional
    ['+'], then digits. *)
Definition parse_uint (max : N) (s : string) : option N :=
  let digits := match strip_char "+" s with Some s' => s' | None => s end in
  match digits with
  | EmptyString => None
  | _ => parse_digits max 0 digits
  end.

(** ** Padding *)

(** [chars().count()]: the bytes that do not continue a character. *)
Fixpoint char_count (s : string) : nat :=
  match s with
  | EmptyString => 0
  | String a s' =>
      let n := N_of_ascii a in
      (if ((128 <=? n) && (n <? 192))%N then 0 else 1) + char_count s'
  end.

(** [{:<w}] (and [{:w}] of a string), and [{:>w}]. *)
Definition pad_right (w : nat) (s : string) : string :=
  s +:+ repeat_str " " (w - char_count s).
Definition pad_left (w : nat) (s : string) : string :=
  repeat_str " " (w - char_count s) +:+ s.

(** [Path::join] with a relative [file]. *)
Fixpoint last_char (s : string) : option ascii :=
  match s with
  | EmptyString => None
  | String a EmptyString => Some a
  | String _ s => last_char s
  end.
Definition path_join (dir file : string) : string :=
  match last_char dir with
  | None => file
  | Some c => if (c =? "/")%char then dir +:+ file else dir +:+ "/" +:+ file
  end.

(** [{:#}] of an [anyhow::Error] with this list of messages. *)
Definition alternate (chain : list string) : string := join ": " chain.

Definition newline : string := String (ascii_of_N 10) EmptyString.
Definition quote : string := String (ascii_of_N 34) EmptyString.

(** ** Splitting and joining *)

(** No occurrence of a character. *)
Fixpoint free (c : ascii) (s : string) : bool :=
  match s with
  | EmptyString => true
  | String a s => negb (a =? c)%char && free c s
  end.

Lemma split_nonempty c s : split c s ≠ [].
Proof. induction s as [|a s IH]; cbn; [done|]. by repeat case_match. Qed.

Lemma split_free c s : Forall (λ w, free c w = true) (split c s).
Proof.
  induction s as [|a s IH]; cbn; [by repeat constructor|].
  destruct (a =? c)%char eqn:Ha; [by constructor|].
  destruct (split c s) as [|w ws]; [repeat constructor; cbn; by rewrite Ha|].
  apply Forall_cons in IH as [H1 H2]. constructor; [|done]. cbn. by rewrite Ha.
Qed.

Lemma split_app c w s :
  free c w = true →
  split c (w +:+ s) = match split c s with [] => [w] | v :: ws => (w +:+ v) :: ws end.
Proof.
  induction w as [|a w IH]; cbn; [|intros [Ha%negb_true_iff Hw]%andb_true_iff].
  - intros _. destruct (split c s) eqn:Hs; [|done]. by apply split_nonempty in Hs.
  - rewrite app_cons_string. cbn [split].
    rewrite Ha, IH by done. by destruct (split c s).
Qed.

Lemma split_join c ws :
  ws ≠ [] → Forall (λ w, free c w = true) ws → split c (join (String c EmptyString) ws) = ws.
Proof.
  intros Hne HF. induction HF as [|w ws Hw HF IH]; [done|]. destruct ws as [|v ws].
  - cbn [join]. rewrite <- (app_nil_r_string w) at 1. rewrite split_app by done. cbn. by rewrite app_nil_r_string.
  - change (join (String c EmptyString) (w :: v :: ws))
      with (w +:+ String c (join (String c EmptyString) (v :: ws))).
    rewrite split_app by done. cbn [split]. rewrite Ascii.eqb_refl, IH, app_nil_r_string by done. done.
Qed.

(** ** Trimming *)

Lemma strip_prefix_app w s s' : strip_prefix w s = Some s' ↔ s = w ++ s'.
Proof.
  revert s. induction w as [|a w IH]; intros s; cbn; [naive_solver|].
  destruct s as [|b s]; [naive_solver|]. destruct (Ascii.eqb_spec a b) as [->|Hab].
  - rewrite IH. naive_solver.
  - naive_solver.
Qed.

Lemma strip_any_spec ws s s' :
  strip_any ws s = Some s' → ∃ w, w ∈ ws ∧ s = w ++ s'.
Proof.
  induction ws as [|w ws IH]; cbn; [done|]. destruct (strip_prefix w s) as [s1|] eqn:Hw.
  - intros [= <-]. apply strip_prefix_app in Hw. exists w. set_solver.
  - intros (w' & ? & ?)%IH. exists w'. set_solver.
Qed.

Lemma strip_any_none ws s w s' : strip_any ws s = None → w ∈ ws → s ≠ w ++ s'.
Proof.
  induction ws as [|v ws IH]; cbn; [set_solver|]. destruct (strip_prefix v s) eqn:Hv; [done|].
  intros Hn [->|Hw]%elem_of_cons; [|by apply IH].
  intros Heq. apply strip_prefix_app in Heq. congruence.
Qed.

(** No element of [ws] is a prefix. *)
Definition unstrippable (ws : list (list ascii)) (s : list ascii) : Prop := strip_any ws s = None.

Lemma unstrippable_prefix ws s t : unstrippable ws (s ++ t) → unstrippable ws s.
Proof.
  unfold unstrippable. intros Hn. destruct (strip_any ws s) as [s'|] eqn:Hs; [|done].
  apply strip_any_spec in Hs as (w & Hw & ->). rewrite <- app_assoc in Hn.
  by destruct (strip_any_none _ _ _ (s' ++ t) Hn Hw).
Qed.

Lemma strip_all_spec ws fuel s :
  [] ∉ ws → length s ≤ fuel →
  unstrippable ws (strip_all fuel ws s) ∧ ∃ p, s = p ++ strip_all fuel ws s.
Proof.
  intros Hne. revert s. induction fuel as [|fuel IH]; intros s Hlen; cbn.
  - destruct s; [|cbn in *; lia]. split; [|by exists []].
    unfold unstrippable. destruct (strip_any ws []) as [s'|] eqn:Hs; [|done].
    apply strip_any_spec in Hs as (w & Hw & Heq). destruct w; [done|]. naive_solver.
  - destruct (strip_any ws s) as [s'|] eqn:Hs; [|split; [done|by exists []]].
    apply strip_any_spec in Hs as (w & Hw & ->). destruct w as [|a w]; [done|].
    rewrite length_app in Hlen. cbn in Hlen. destruct (IH s') as [H1 [p Hp]]; [lia|].
    split; [done|]. exists ((a :: w) ++ p). by rewrite <- app_assoc, <- Hp.
Qed.

Lemma strip_all_id ws fuel s : unstrippable ws s → strip_all fuel ws s = s.
Proof. unfold unstrippable. destruct fuel; cbn; [done|]. by intros ->. Qed.

(** Strings that [trim] leaves alone. *)
Definition trimmed (l : list ascii) : Prop :=
  unstrippable whitespace l ∧ unstrippable (map (@rev ascii) whitespace) (rev l).

Lemma whitespace_nonempty : [] ∉ whitespace ∧ [] ∉ map (@rev ascii) whitespace.
Proof. split; apply (bool_decide_unpack _); vm_compute; exact I. Qed.

Lemma trim_id s : trimmed (String.list_ascii_of_string s) → trim s = s.
Proof.
  intros [H1 H2]. unfold trim, trim_start, trim_end.
  rewrite (strip_all_id whitespace), strip_all_id by done.
  by rewrite rev_involutive, String.string_of_list_ascii_of_string.
Qed.

(** The result of [trim] is trimmed, and part of the string. *)
Lemma trim_spec s :
  trimmed (String.list_ascii_of_string (trim s))
  ∧ ∃ p q, String.list_ascii_of_string s = p ++ String.list_ascii_of_string (trim s) ++ q.
Proof.
  destruct whitespace_nonempty as [H1 H2].
  unfold trim. rewrite String.list_ascii_of_string_of_list_ascii.
  set (l := String.list_ascii_of_string s). unfold trim_start, trim_end.
  destruct (strip_all_spec whitespace (length l) l H1) as [Ha [p Hp]]; [lia|].
  set (u := strip_all (length l) whitespace l) in *.
  destruct (strip_all_spec (map (@rev ascii) whitespace) (length u) (rev u) H2) as [Hb [q Hq]].
  { by rewrite length_rev. }
  set (v := strip_all (length u) (map (@rev ascii) whitespace) (rev u)) in *.
  assert (u = rev v ++ rev q) as Hu by (by rewrite <- rev_app_distr, <- Hq, rev_involutive).
  split; [split|].
  - rewrite Hu in Ha. by apply unstrippable_prefix in Ha.
  - by rewrite rev_involutive.
  - exists p, (rev q). by rewrite <- Hu.
Qed.

Lemma trim_idempotent s : trim (trim s) = trim s.
Proof. apply trim_id, trim_spec. Qed.

Lemma trim_trimmed s : trim s = s → trimmed (String.list_ascii_of_string s).
Proof. intros <-. apply trim_spec. Qed.

(** A first byte that starts no white space, and a byte inside no white space. *)
Lemma unstrippable_head ws a l :
  forallb (λ w, match w with b :: _ => negb (b =? a)%char | [] => false end) ws = true →
  unstrippable ws (a :: l).
Proof.
  intros Hf. unfold unstrippable. destruct (strip_any ws (a :: l)) as [s'|] eqn:Hs; [|done].
  apply strip_any_spec in Hs as (w & Hw & Heq). rewrite forallb_forall in Hf.
  apply list_elem_of_In, Hf in Hw. destruct w as [|b w]; [done|]. injection Heq as -> _.
  by rewrite Ascii.eqb_refl in Hw.
Qed.

Lemma unstrippable_app ws l c r :
  l ≠ [] → unstrippable ws l → Forall (λ w, c ∉ tail w) ws → unstrippable ws (l ++ c :: r).
Proof.
  intros Hl Hn Hc. unfold unstrippable. destruct (strip_any ws (l ++ c :: r)) as [s'|] eqn:Hs; [|done].
  apply strip_any_spec in Hs as (w & Hw & Heq). rewrite Forall_forall in Hc.
  apply app_eq_inv in Heq as [(k & Hk1 & Hk2)|(k & Hk1 & Hk2)].
  - by destruct (strip_any_none _ _ _ k Hn Hw).
  - destruct k as [|c' k]; [|injection Hk2 as <- _].
    + rewrite app_nil_r in Hk1. subst w. by destruct (strip_any_none _ _ _ [] Hn Hw); rewrite app_nil_r.
    + destruct l; [done|]. destruct (Hc w Hw). subst w. cbn. set_solver.
Qed.

Lemma free_list c s : free c s = true ↔ c ∉ String.list_ascii_of_string s.
Proof.
  induction s as [|a s IH]; cbn; [set_solver|].
  rewrite andb_true_iff, IH, negb_true_iff, Ascii.eqb_neq. set_solver.
Qed.

Lemma trim_free c s : free c s = true → free c (trim s) = true.
Proof.
  rewrite !free_list. destruct (trim_spec s) as [_ (p & q & Hpq)]. rewrite Hpq. set_solver.
Qed.

Lemma free_app c s t : free c (s +:+ t) = free c s && free c t.
Proof.
  induction s as [|a s IH]; [done|]. rewrite app_cons_string. cbn. by rewrite IH, andb_assoc.
Qed.


Lemma free_cons c a s : free c (String a s) = negb (a =? c)%char && free c s.
Proof. reflexivity. Qed.

(** ** Reading a printed number *)

Lemma pretty_N_char_digit (x : N) :
  (x < 10)%N → digit_value (pretty_N_char x) = Some x.
Proof.
  intros Hx. destruct (decide (x ∈ [0;1;2;3;4;5;6;7;8;9]%N)) as [Hin|Hn].
  - repeat (apply elem_of_cons in Hin as [->|Hin]; [reflexivity|]). set_solver.
  - exfalso. apply Hn. rewrite !elem_of_cons. lia.
Qed.

Lemma parse_digits_pretty max x s :
  (x <= max)%N → parse_digits max 0 (pretty_N_go x s) = parse_digits max x s.
Proof.
  revert s. induction x as [x IH] using (well_founded_ind N.lt_wf_0). intros s Hx.
  destruct (decide (0 < x)%N) as [H0|H0].
  - pose proof (N.div_lt x 10 H0 ltac:(lia)) as Hlt.
    rewrite pretty_N_go_step, IH by (done || lia). cbn [parse_digits].
    rewrite pretty_N_char_digit by (apply N.mod_lt; lia).
    pose proof (N.div_mod x 10 ltac:(lia)) as Hdm.
    replace (x / 10 * 10 + x mod 10)%N with x by lia.
    by rewrite (proj2 (N.leb_le x max)).
  - assert (x = 0)%N as -> by lia. by rewrite pretty_N_go_0.
Qed.

Lemma pretty_N_go_head x s :
  (0 < x)%N → ∃ a s', pretty_N_go x s = String a s' ∧ digit_value a ≠ None.
Proof.
  revert s. induction x as [x IH] using (well_founded_ind N.lt_wf_0). intros s Hx.
  rewrite pretty_N_go_step by done. destruct (decide (0 < x / 10)%N) as [H0|H0].
  - apply IH; [|done]. apply N.div_lt; lia.
  - assert (x / 10 = 0)%N as -> by (apply N.le_0_r, N.nlt_ge, H0). rewrite pretty_N_go_0. eexists _, _. split; [done|].
    rewrite pretty_N_char_digit by (apply N.mod_lt; lia). done.
Qed.

(** A number printed in decimal is read back when it fits. *)
Lemma parse_uint_pretty max n : (n <= max)%N → parse_uint max (pretty n) = Some n.
Proof.
  intros Hn. unfold pretty, pretty_N. case_decide as H0; [subst; by destruct max|].
  destruct (pretty_N_go_head n EmptyString) as (a & s' & Heq & Ha); [lia|].
  pose proof (parse_digits_pretty max n EmptyString Hn) as Hp. unfold parse_uint.
  rewrite Heq in *. cbn [strip_char]. destruct (Ascii.eqb_spec a "+") as [->|_]; [by destruct Ha|].
  exact Hp.
Qed.

(** What [parse] returns fits the type. *)
Lemma parse_digits_bound max acc s n :
  (acc <= max)%N → parse_digits max acc s = Some n → (n <= max)%N.
Proof.
  revert acc. induction s as [|a s IH]; intros acc Hacc; cbn; [by intros [= <-]|].
  destruct (digit_value a); [|done]. destruct (N.leb_spec (acc * 10 + n0) max); [|done]. by apply IH.
Qed.

Lemma parse_uint_bound max s n : parse_uint max s = Some n → (n <= max)%N.
Proof.
  unfold parse_uint. repeat case_match; try done; intros Hp; by eapply parse_digits_bound, Hp; apply N.le_0_l.
Qed.

(** A printed number consists of digits. *)
Lemma pretty_N_digits (n : N) :
  Forall (λ a, digit_value a ≠ None) (String.list_ascii_of_string (pretty n)).
Proof.
  unfold pretty, pretty_N. case_decide; [by repeat constructor|].
  assert (∀ x s, Forall (λ a, digit_value a ≠ None) (String.list_ascii_of_string s) →
    Forall (λ a, digit_value a ≠ None) (String.list_ascii_of_string (pretty_N_go x s))) as Hgo.
  { intros x. induction x as [x IH] using (well_founded_ind N.lt_wf_0). intros s Hs.
    destruct (decide (0 < x)%N) as [Hx|Hx].
    - rewrite pretty_N_go_step by done. apply IH; [by apply N.div_lt|]. constructor; [|done].
      rewrite pretty_N_char_digit by (apply N.mod_lt; lia). done.
    - assert (x = 0)%N as -> by lia. by rewrite pretty_N_go_0. }
  by apply Hgo.
Qed.

Lemma pretty_N_free_of c (n : N) : digit_value c = None → free c (pretty n) = true.
Proof.
  intros Hc. apply free_list. intros Hin.
  by apply (proj1 (Forall_forall _ _) (pretty_N_digits n)) in Hin.
Qed.

Lemma pretty_N_nonempty (n : N) : pretty n ≠ EmptyString.
Proof.
  unfold pretty, pretty_N. case_decide; [done|].
  destruct (pretty_N_go_head n EmptyString) as (a & s' & -> & _); [lia|done].
Qed.
