(* ===== verification/Daemon.v ===== *)
(** * smdbd: configuration and the health endpoint

    Models [crates/smdbd/src/config.rs] (sections, defaults, [load], [validate])
    and, from [main.rs], [resolve_config] and [handle_health]. The file system,
    the environment and the parsers of TOML and socket addresses are the class
    [Host]. Strings are their UTF-8 bytes. *)
From S2P Require Import Prelude Text Wire.
From Stdlib Require Import Strings.Ascii.

(** ** The configuration file *)

Inductive LogFormat : Type := Json | Text.

Record ServerSection : Type := { sv_listen_addr : string; sv_metrics_addr : string }.
Record StorageSection : Type := { st_data_dir : string }.
Record TlsSection : Type := { tl_cert_path : option string; tl_key_path : option string }.
Record LoggingSection : Type := { lg_level : string; lg_format : LogFormat }.
Record DispatcherSection : Type := { ds_interval_ms : N }.
Record AuthSection : Type := { au_tokens : list string }.

Record FileConfig : Type := {
  server : ServerSection;
  storage : StorageSection;
  tls : TlsSection;
  logging : LoggingSection;
  dispatcher : DispatcherSection;
  auth : AuthSection;
}.

Definition ServerSection_default : ServerSection :=
  {| sv_listen_addr := "0.0.0.0:7632"; sv_metrics_addr := "0.0.0.0:7633" |}.
Definition StorageSection_default : StorageSection := {| st_data_dir := "data" |}.
Definition TlsSection_default : TlsSection := {| tl_cert_path := None; tl_key_path := None |}.
Definition LoggingSection_default : LoggingSection := {| lg_level := "info"; lg_format := Json |}.
Definition DispatcherSection_default : DispatcherSection := {| ds_interval_ms := 100 |}.
Definition AuthSection_default : AuthSection := {| au_tokens := [] |}.

Definition FileConfig_default : FileConfig :=
  {| server := ServerSection_default; storage := StorageSection_default;
     tls := TlsSection_default; logging := LoggingSection_default;
     dispatcher := DispatcherSection_default; auth := AuthSection_default |}.

(** ** The host *)

Inductive IoErrorKind : Type := FileNotFound | OtherIo (why : string).

Class Host : Type := {
  read_to_string : string → Res string IoErrorKind;
  toml_from_str : string → Res FileConfig string;
  env_var : string → option string;
  socket_addr : string → Res unit string;
  is_file : string → bool;
}.

(** The contexts and messages that [anyhow] attaches. *)
Inductive ConfigError : Type :=
| ParsingConfig (path why : string)
| ReadingConfig (path : string) (why : IoErrorKind)
| InvalidListenAddr (addr why : string)
| InvalidMetricsAddr (addr why : string)
| InvalidLogLevel (level : string)
| ZeroInterval
| TlsNotPaired
| TlsNotAFile (name path : string).

Inductive ConfigSource : Type := FromFile (path : string) | Defaults.

(** ** Resolution *)

Record Config : Type := {
  listen_addr : string;
  metrics_addr : string;
  data_dir : string;
  log_level : string;
  log_format : LogFormat;
  dispatcher_interval_ms : N;
  tls_cert_path : option string;
  tls_key_path : option string;
  auth_tokens : list string;
}.

Definition LEVELS : list string := ["trace"; "debug"; "info"; "warn"; "error"].

Record Args : Type := {
  arg_config : option string;
  arg_listen : option string;
  arg_metrics_addr : option string;
  arg_data_dir : option string;
  arg_log_level : option string;
  arg_tls_cert : option string;
  arg_tls_key : option string;
}.

Section daemon.
Context {H : Host}.

Definition load (path : string) (explicit : bool) : Res (FileConfig * ConfigSource) ConfigError :=
  match read_to_string path with
  | Ok raw =>
      match toml_from_str raw with
      | Ok cfg => Ok (cfg, FromFile path)
      | Err e => Err (ParsingConfig path e)
      end
  | Err e =>
      match e, explicit with
      | FileNotFound, false => Ok (FileConfig_default, Defaults)
      | _, _ => Err (ReadingConfig path e)
      end
  end.

(** The loop over the two TLS paths. *)
Fixpoint check_files (paths : list (string * string)) : Res unit ConfigError :=
  match paths with
  | [] => Ok tt
  | (name, p) :: rest => if negb (is_file p) then Err (TlsNotAFile name p) else check_files rest
  end.

Definition validate (cfg : Config) : Res unit ConfigError :=
  match socket_addr (listen_addr cfg) with
  | Err e => Err (InvalidListenAddr (listen_addr cfg) e)
  | Ok _ =>
    match socket_addr (metrics_addr cfg) with
    | Err e => Err (InvalidMetricsAddr (metrics_addr cfg) e)
    | Ok _ =>
      if negb (bool_decide (log_level cfg ∈ LEVELS)) then Err (InvalidLogLevel (log_level cfg))
      else if (dispatcher_interval_ms cfg =? 0)%N then Err ZeroInterval
      else
        match tls_cert_path cfg, tls_key_path cfg with
        | Some _, None | None, Some _ => Err TlsNotPaired
        | Some cert, Some key => check_files [("cert_path", cert); ("key_path", key)]
        | None, None => Ok tt
        end
    end
  end.

Definition parse_tokens (s : string) : list string :=
  filter (λ t, t ≠ EmptyString) (trim <$> split "," s).

Definition resolve_config (args : Args) : Res (Config * ConfigSource) ConfigError :=
  let explicit := bool_decide (is_Some (arg_config args)) in
  let path := default "statemaster.toml" (arg_config args) in
  match load path explicit with
  | Err e => Err e
  | Ok (file, source) =>
      let tokens := match env_var "SMDB_AUTH_TOKENS" with
                    | Some s => parse_tokens s
                    | None => au_tokens (auth file)
                    end in
      let level := default (lg_level (logging file))
                     (union (arg_log_level args) (env_var "SMDB_LOG_LEVEL")) in
      let cfg :=
        {| listen_addr := default (sv_listen_addr (server file)) (arg_listen args);
           metrics_addr := default (sv_metrics_addr (server file)) (arg_metrics_addr args);
           data_dir := default (st_data_dir (storage file)) (arg_data_dir args);
           log_level := level;
           log_format := lg_format (logging file);
           dispatcher_interval_ms := ds_interval_ms (dispatcher file);
           tls_cert_path := union (arg_tls_cert args) (tl_cert_path (tls file));
           tls_key_path := union (arg_tls_key args) (tl_key_path (tls file));
           auth_tokens := tokens |} in
      match validate cfg with
      | Err e => Err e
      | Ok _ => Ok (cfg, source)
      end
  end.

End daemon.

(** ** The health endpoint *)

(** A JSON object with one string field. *)
Definition json1 (key value : string) : string :=
  "{" +:+ quote +:+ key +:+ quote +:+ ":" +:+ quote +:+ value +:+ quote +:+ "}".

Definition metrics_body (uptime : N) (m : ServerMetrics) : string :=
  "# HELP smdbd_uptime_seconds Daemon uptime in seconds" +:+ newline
  +:+ "# TYPE smdbd_uptime_seconds gauge" +:+ newline
  +:+ "smdbd_uptime_seconds " +:+ pretty uptime +:+ newline
  +:+ "# HELP smdbd_transitions_total Total transitions processed" +:+ newline
  +:+ "# TYPE smdbd_transitions_total counter" +:+ newline
  +:+ "smdbd_transitions_total " +:+ pretty (transitions_total m) +:+ newline
  +:+ "# HELP smdbd_connections_total Total accepted connections" +:+ newline
  +:+ "# TYPE smdbd_connections_total counter" +:+ newline
  +:+ "smdbd_connections_total " +:+ pretty (connections_total m) +:+ newline
  +:+ "# HELP smdbd_connections_active Currently active connections" +:+ newline
  +:+ "# TYPE smdbd_connections_active gauge" +:+ newline
  +:+ "smdbd_connections_active " +:+ pretty (connections_active m) +:+ newline.

Record Response : Type := { rp_status : N; rp_content_type : string; rp_body : string }.

(** The answer to a request for a path. *)
Definition handle_health (path : string) (uptime : N) (m : ServerMetrics) : Response :=
  let '(status, body) :=
    if decide (path = "/healthz") then (200%N, json1 "status" "ok")
    else if decide (path = "/readyz") then (200%N, json1 "status" "ready")
    else if decide (path = "/metrics") then (200%N, metrics_body uptime m)
    else (404%N, json1 "error" "not found") in
  {| rp_status := status; rp_content_type := "text/plain; charset=utf-8"; rp_body := body |}.
