(* ===== verification/DaemonProps.v ===== *)
(** * Properties of the daemon's configuration *)
From S2P Require Import Prelude Keys Text Wire Daemon.
From Stdlib Require Import Strings.Ascii.

(** ** Tokens from the environment *)

(** What a token of the list looks like: not empty, no comma, no white space
    around it. *)
Definition clean (t : string) : Prop := t ≠ EmptyString ∧ free "," t = true ∧ trim t = t.

(** The token list of the environment is read back as it was written: the
    tokens read are not empty, hold no comma and no surrounding white space
    whatever the variable holds, and joining such tokens by commas and reading
    them gives the same list. *)
Theorem auth_tokens_roundtrip (s : string) (tokens : list string) :
  Forall clean tokens → Forall clean (parse_tokens s) ∧ parse_tokens (join "," tokens) = tokens.
Proof.
  intros Hclean. unfold parse_tokens. split.
  - apply Forall_forall. intros t [Ht (w & -> & Hw)%list_elem_of_fmap]%list_elem_of_filter.
    split_and!; [done| |apply trim_idempotent]. apply trim_free.
    by apply (proj1 (Forall_forall _ _) (split_free "," s)).
  - destruct tokens as [|t tokens]; [reflexivity|]. rewrite split_join; [|done|].
    + assert (trim <$> t :: tokens = t :: tokens) as ->.
      { rewrite <- (list_fmap_id (t :: tokens)) at 2. apply Forall_fmap_ext_1.
        eapply Forall_impl; [exact Hclean|]. by intros w (_ & _ & ?). }
      apply filter_all. intros w Hw. by apply (proj1 (Forall_forall _ _) Hclean w).
    + eapply Forall_impl; [exact Hclean|]. by intros w (_ & ? & _).
Qed.

Lemma auth_tokens_roundtrip_witness :
  parse_tokens "  alpha ,, beta	," = ["alpha"; "beta"]
  ∧ parse_tokens (join "," ["alpha"; "beta"]) = ["alpha"; "beta"].
Proof.
  split; [vm_compute; reflexivity|]. apply (auth_tokens_roundtrip EmptyString).
  repeat constructor; try done; vm_compute; reflexivity.
Defined.

(** ** Validation and resolution *)

Section config.
Context {H : Host}.

(** What a valid configuration is. *)
Definition valid_config (cfg : Config) : Prop :=
  is_ok (socket_addr (listen_addr cfg)) = true
  ∧ is_ok (socket_addr (metrics_addr cfg)) = true
  ∧ log_level cfg ∈ LEVELS
  ∧ dispatcher_interval_ms cfg ≠ 0%N
  ∧ match tls_cert_path cfg, tls_key_path cfg with
    | None, None => True
    | Some cert, Some key => is_file cert = true ∧ is_file key = true
    | _, _ => False
    end.

Lemma validate_ok cfg : validate cfg = Ok tt ↔ valid_config cfg.
Proof.
  unfold validate, valid_config.
  destruct (socket_addr (listen_addr cfg)); cbn; [|naive_solver].
  destruct (socket_addr (metrics_addr cfg)); cbn; [|naive_solver].
  case_bool_decide as Hl; cbn [negb]; [|naive_solver].
  destruct (N.eqb_spec (dispatcher_interval_ms cfg) 0); [naive_solver|].
  destruct (tls_cert_path cfg) as [cert|], (tls_key_path cfg) as [key|]; cbn;
    [|naive_solver..].
  destruct (is_file cert), (is_file key); cbn; naive_solver.
Qed.

(** The first source that sets a value; the last always does. *)
Definition first_of {A} (sources : list (option A)) (last : A) : A :=
  foldr (λ o acc, default acc o) last sources.

(** Configuration: the daemon starts with a configuration exactly when the
    file loads (a missing file counts only when it was asked for) and what
    results is valid; every value is then taken from the command line, else from
    the environment, else from the file or the defaults. *)
Theorem resolve_config_correct (args : Args) (cfg : Config) (source : ConfigSource) :
  resolve_config args = Ok (cfg, source) ↔
  ∃ file, load (default "statemaster.toml" (arg_config args))
            (bool_decide (is_Some (arg_config args))) = Ok (file, source)
    ∧ valid_config cfg
    ∧ listen_addr cfg = first_of [arg_listen args] (sv_listen_addr (server file))
    ∧ metrics_addr cfg = first_of [arg_metrics_addr args] (sv_metrics_addr (server file))
    ∧ data_dir cfg = first_of [arg_data_dir args] (st_data_dir (storage file))
    ∧ log_level cfg
      = first_of [arg_log_level args; env_var "SMDB_LOG_LEVEL"] (lg_level (logging file))
    ∧ log_format cfg = lg_format (logging file)
    ∧ dispatcher_interval_ms cfg = ds_interval_ms (dispatcher file)
    ∧ tls_cert_path cfg = first_of [Some <$> arg_tls_cert args] (tl_cert_path (tls file))
    ∧ tls_key_path cfg = first_of [Some <$> arg_tls_key args] (tl_key_path (tls file))
    ∧ auth_tokens cfg
      = first_of [parse_tokens <$> env_var "SMDB_AUTH_TOKENS"] (au_tokens (auth file)).
Proof.
  unfold resolve_config. destruct (load _ _) as [[file src]|e]; [|naive_solver].
  match goal with |- context [validate ?x] => set (c := x) end. split.
  - destruct (validate c) as [[]|] eqn:Hv; [|done]. intros [= <- <-]. exists file.
    apply validate_ok in Hv. split_and!; try done; subst c; cbn.
    + by destruct (arg_log_level args), (env_var "SMDB_LOG_LEVEL").
    + by destruct (arg_tls_cert args), (tl_cert_path (tls file)).
    + by destruct (arg_tls_key args), (tl_key_path (tls file)).
    + by destruct (env_var "SMDB_AUTH_TOKENS").
  - intros (file' & [= <- <-] & Hv & Hfields). assert (c = cfg) as ->.
    { destruct cfg, Hfields as (? & ? & ? & ? & ? & ? & ? & ? & ?). cbn in *. subst.
      subst c. f_equal.
      + by destruct (arg_log_level args), (env_var "SMDB_LOG_LEVEL").
      + by destruct (arg_tls_cert args), (tl_cert_path (tls file)).
      + by destruct (arg_tls_key args), (tl_key_path (tls file)).
      + by destruct (env_var "SMDB_AUTH_TOKENS"). }
    apply validate_ok in Hv. by rewrite Hv.
Qed.

End config.

(** ** The metrics page *)

Definition nl : ascii := ascii_of_N 10.

Lemma pretty_N_free (n : N) : free nl (pretty n) = true.
Proof. by apply pretty_N_free_of. Qed.

Lemma pretty_Z_free (z : Z) : free nl (pretty z) = true.
Proof.
  destruct z as [|p|p]; [done|apply (pretty_N_free (Npos p))|].
  change (pretty (Z.neg p)) with ("-" +:+ pretty (Npos p)). by rewrite free_app, pretty_N_free.
Qed.

(** A sample line of the exposition format: a name, a space and a value. *)
Definition sample (name value : string) : string := name +:+ " " +:+ value.

(** The lines that are neither comments nor empty. *)
Definition samples (body : string) : list string :=
  filter (λ l, negb (String.prefix "#" l || (l =? EmptyString)%string) = true) (split nl body).

(** The metrics page, read line by line, exposes the four metrics with their
    current values and nothing else. *)
Theorem metrics_exposed (uptime : N) (m : ServerMetrics) :
  rp_status (handle_health "/metrics" uptime m) = 200%N
  ∧ samples (rp_body (handle_health "/metrics" uptime m)) =
      [sample "smdbd_uptime_seconds" (pretty uptime);
       sample "smdbd_transitions_total" (pretty (transitions_total m));
       sample "smdbd_connections_total" (pretty (connections_total m));
       sample "smdbd_connections_active" (pretty (connections_active m))].
Proof.
  split; [done|]. change (rp_body (handle_health "/metrics" uptime m)) with (join newline
    ["# HELP smdbd_uptime_seconds Daemon uptime in seconds";
     "# TYPE smdbd_uptime_seconds gauge";
     sample "smdbd_uptime_seconds" (pretty uptime);
     "# HELP smdbd_transitions_total Total transitions processed";
     "# TYPE smdbd_transitions_total counter";
     sample "smdbd_transitions_total" (pretty (transitions_total m));
     "# HELP smdbd_connections_total Total accepted connections";
     "# TYPE smdbd_connections_total counter";
     sample "smdbd_connections_total" (pretty (connections_total m));
     "# HELP smdbd_connections_active Currently active connections";
     "# TYPE smdbd_connections_active gauge";
     sample "smdbd_connections_active" (pretty (connections_active m)); EmptyString]).
  unfold samples. rewrite split_join; [reflexivity|done|].
  repeat constructor; unfold sample; rewrite ?free_app, ?pretty_N_free, ?pretty_Z_free; reflexivity.
Qed.
