(* ===== verification/Sdk.v ===== *)
(** * smdb-sdk: the client library

    Models [crates/smdb-sdk/src]: the configuration and its builder
    ([config.rs]), the connection with its handshake, its table of pending
    requests and its reader task ([connection.rs]), and the methods of the client
    with the retry of connects ([client.rs]).

    A connection is the record [Connection]; a oneshot channel is an entry of
    [cn_waiters] with the request it belongs to, a sender is the index of its
    entry. [send_request] is split where it waits for a lock or the answer:
    [register_request] and [write_request] are its two critical sections,
    [await_response] is what the caller sees when it is polled; between them
    other callers and the reader task run ([route_frame], [reader_exit]). *)
From S2P Require Import Prelude Core Redb Storage Channel Engine Frame Messages Wire.
From Stdlib Require Import Strings.Byte.

(** ** Errors and configuration *)

Inductive SdkError : Type :=
| ConnectionFailed (msg : string)
| AuthFailed (msg : string)
| Timeout
| Rejected (code message : string) (current_state : option string) (version : option N)
| SdkProto (e : ProtoError)
| SdkIo (msg : string)
| Disconnected
| SdkInternal (msg : string).

(** Durations are milliseconds. *)
Record ClientConfig : Type := {
  cc_addr : string;
  cc_token : string;
  cc_tls : bool;
  cc_pool_size : N;
  cc_connect_timeout : N;
  cc_request_timeout : N;
  cc_max_retries : N;
}.

Definition ClientConfig_default : ClientConfig :=
  {| cc_addr := "localhost:7632"; cc_token := EmptyString; cc_tls := false; cc_pool_size := 8;
     cc_connect_timeout := 5000; cc_request_timeout := 30000; cc_max_retries := 3 |}.

(** The builder wraps the configuration. *)
Module ClientBuilder.

Definition new (addr : string) : ClientConfig :=
  let d := ClientConfig_default in
  {| cc_addr := addr; cc_token := cc_token d; cc_tls := cc_tls d; cc_pool_size := cc_pool_size d;
     cc_connect_timeout := cc_connect_timeout d; cc_request_timeout := cc_request_timeout d;
     cc_max_retries := cc_max_retries d |}.
Definition token (x : string) (c : ClientConfig) : ClientConfig :=
  {| cc_addr := cc_addr c; cc_token := x; cc_tls := cc_tls c; cc_pool_size := cc_pool_size c;
     cc_connect_timeout := cc_connect_timeout c; cc_request_timeout := cc_request_timeout c;
     cc_max_retries := cc_max_retries c |}.
Definition tls (x : bool) (c : ClientConfig) : ClientConfig :=
  {| cc_addr := cc_addr c; cc_token := cc_token c; cc_tls := x; cc_pool_size := cc_pool_size c;
     cc_connect_timeout := cc_connect_timeout c; cc_request_timeout := cc_request_timeout c;
     cc_max_retries := cc_max_retries c |}.
Definition pool_size (x : N) (c : ClientConfig) : ClientConfig :=
  {| cc_addr := cc_addr c; cc_token := cc_token c; cc_tls := cc_tls c; cc_pool_size := x;
     cc_connect_timeout := cc_connect_timeout c; cc_request_timeout := cc_request_timeout c;
     cc_max_retries := cc_max_retries c |}.
Definition connect_timeout (x : N) (c : ClientConfig) : ClientConfig :=
  {| cc_addr := cc_addr c; cc_token := cc_token c; cc_tls := cc_tls c;
     cc_pool_size := cc_pool_size c; cc_connect_timeout := x;
     cc_request_timeout := cc_request_timeout c; cc_max_retries := cc_max_retries c |}.
Definition request_timeout (x : N) (c : ClientConfig) : ClientConfig :=
  {| cc_addr := cc_addr c; cc_token := cc_token c; cc_tls := cc_tls c;
     cc_pool_size := cc_pool_size c; cc_connect_timeout := cc_connect_timeout c;
     cc_request_timeout := x; cc_max_retries := cc_max_retries c |}.
Definition max_retries (x : N) (c : ClientConfig) : ClientConfig :=
  {| cc_addr := cc_addr c; cc_token := cc_token c; cc_tls := cc_tls c;
     cc_pool_size := cc_pool_size c; cc_connect_timeout := cc_connect_timeout c;
     cc_request_timeout := cc_request_timeout c; cc_max_retries := x |}.

End ClientBuilder.

(** ** Serialisation the client uses *)

(** [rmp_serde::from_slice::<WithRequestId>]: the field [request_id] of an encoded
    map, other fields ignored, an error when the field is missing. *)
Class RequestIdCodec : Type := request_id_from_slice : bytes → Res N string.

Class RequestIdOk {WC : WireCodecs} (RI : RequestIdCodec) : Prop := {
  request_id_result (m : ResultMessage) b :
    to_vec m = Ok b → request_id_from_slice b = Ok (rs_request_id m);
  request_id_rejection (m : RejectionMessage) b :
    to_vec m = Ok b → request_id_from_slice b = Ok (rj_request_id m);
  request_id_error (m : ErrorMessage) b :
    to_vec m = Ok b → ∃ e, request_id_from_slice b = Err e;
}.

(** [serde_json::from_value]. *)
Class FromJson (A : Type) : Type := from_value : Value → Res A string.

(** What [to_value] gives is read back. *)
Class JsonOk (A : Type) {TJ : ToJson A} {FJ : FromJson A} : Prop :=
  from_to_value x v : to_value x = Ok v → from_value v = Ok x.

(** A derived [Deserialize] refuses an object without a required field. *)
Class RequiresField (A : Type) {FJ : FromJson A} (field : string) : Prop :=
  missing_field m : field ∉ m.*1 → ∃ e, from_value (VObject m) = Err e.

(** [{:?}] of a duration. *)
Class SdkEnv : Type := show_duration : N → string.

(** ** The connection *)

(** A oneshot channel: waiting, holding the frame sent, its sender dropped, or
    its receiver dropped. *)
Inductive Oneshot : Type :=
| Waiting
| Received (f : Frame)
| Closed
| Abandoned.

Section sdk.
Context {MP : Mpsc ChangeRecord} {WC : WireCodecs} {FS : FrameSink}.
Context {RI : RequestIdCodec} {SN : SdkEnv}.

Record Connection : Type := {
  cn_writer : sink;
  cn_next_request_id : N;
  cn_pending : gmap N nat;
  cn_subscriptions : gmap string nat;
  cn_dead : bool;
  cn_waiters : list (N * Oneshot);
  cn_channels : list (chan ChangeRecord);
}.

Definition connection_new (writer : sink) : Connection :=
  {| cn_writer := writer; cn_next_request_id := 1; cn_pending := ∅; cn_subscriptions := ∅;
     cn_dead := false; cn_waiters := []; cn_channels := [] |}.

Definition set_writer (c : Connection) w : Connection :=
  {| cn_writer := w; cn_next_request_id := cn_next_request_id c; cn_pending := cn_pending c;
     cn_subscriptions := cn_subscriptions c; cn_dead := cn_dead c; cn_waiters := cn_waiters c;
     cn_channels := cn_channels c |}.
Definition set_pending (c : Connection) p ws : Connection :=
  {| cn_writer := cn_writer c; cn_next_request_id := cn_next_request_id c; cn_pending := p;
     cn_subscriptions := cn_subscriptions c; cn_dead := cn_dead c; cn_waiters := ws;
     cn_channels := cn_channels c |}.
Definition set_subscriptions (c : Connection) m cs : Connection :=
  {| cn_writer := cn_writer c; cn_next_request_id := cn_next_request_id c;
     cn_pending := cn_pending c; cn_subscriptions := m; cn_dead := cn_dead c;
     cn_waiters := cn_waiters c; cn_channels := cs |}.

(** What an oneshot becomes when its sender is dropped, when a frame is sent to
    it, and when its receiver is dropped. *)
Definition on_drop (o : Oneshot) : Oneshot := match o with Waiting => Closed | _ => o end.
Definition on_send (f : Frame) (o : Oneshot) : Oneshot :=
  match o with Waiting => Received f | _ => o end.
Definition update_waiter (g : Oneshot → Oneshot) (i : nat) (ws : list (N * Oneshot))
    : list (N * Oneshot) := alter (λ w, (w.1, g w.2)) i ws.

(** *** The handshake *)

(** What the client sees of the connection: a frame or an error of the stream, or
    the deadline. The end of the list is the end of the stream. *)
Inductive Event : Type :=
| Arrived (r : Res Frame ProtoError)
| Elapsed.

Definition error_text (default_message : string) (frame : Frame) : string :=
  match decode_message (A := ErrorMessage) frame with
  | Ok m => em_message m
  | Err _ => default_message
  end.

Fixpoint await_ready (got_auth_ok got_ready : bool) (events : list Event)
    : Res (list Event) SdkError :=
  if got_auth_ok && got_ready then Ok events
  else
    match events with
    | [] => Err (ConnectionFailed "server closed connection during handshake")
    | Elapsed :: _ => Err (ConnectionFailed "handshake timeout")
    | Arrived (Err e) :: _ => Err (ConnectionFailed (show_proto e))
    | Arrived (Ok frame) :: rest =>
        match tag frame with
        | TAuthOk => await_ready true got_ready rest
        | TAuthError => Err (AuthFailed (error_text "auth error" frame))
        | TReady => await_ready got_auth_ok true rest
        | TError => Err (ConnectionFailed (error_text "server error" frame))
        | _ => await_ready got_auth_ok got_ready rest
        end
    end.

(** The outcome of the TCP connect: the deadline, an error, or a write half. *)
Inductive Tcp : Type :=
| TcpElapsed
| TcpError (why : string)
| TcpConnected (s : sink).

(** Write the two opening frames. *)
Definition send_opening (config : ClientConfig) (s : sink) : Res sink SdkError :=
  match encode_message TStartup
          {| su_protocol_version := PROTOCOL_VERSION; su_capabilities := ["subscribe"; "history"] |} with
  | Err e => Err (SdkProto e)
  | Ok frame =>
    match sink_send s frame with
    | (Err e, _) => Err (ConnectionFailed (show_proto e))
    | (Ok _, s) =>
      match encode_message TAuth {| au_token := cc_token config |} with
      | Err e => Err (SdkProto e)
      | Ok auth_frame =>
        match sink_send s auth_frame with
        | (Err e, _) => Err (ConnectionFailed (show_proto e))
        | (Ok _, s) => Ok s
        end
      end
    end
  end.

Definition connect (config : ClientConfig) (tcp : Tcp) (events : list Event)
    : Res (Connection * list Event) SdkError :=
  match tcp with
  | TcpElapsed =>
      Err (ConnectionFailed ("connect timeout after " +:+ show_duration (cc_connect_timeout config)))
  | TcpError e => Err (ConnectionFailed e)
  | TcpConnected s =>
    if cc_tls config then
      Err (SdkInternal "TLS support requires tokio-rustls integration (not yet wired)")
    else
      match send_opening config s with
      | Err e => Err e
      | Ok s =>
        match await_ready false false events with
        | Err e => Err e
        | Ok rest => Ok (connection_new s, rest)
        end
      end
  end.

(** *** Requests *)

Definition next_request_id (c : Connection) : N * Connection :=
  (cn_next_request_id c,
   {| cn_writer := cn_writer c; cn_next_request_id := add64 (cn_next_request_id c) 1;
      cn_pending := cn_pending c; cn_subscriptions := cn_subscriptions c; cn_dead := cn_dead c;
      cn_waiters := cn_waiters c; cn_channels := cn_channels c |}).

(** Register the request, under the lock of the table: the result is the oneshot
    to wait on. Inserting into the table drops a sender that was under the same
    identifier. *)
Definition register_request (request_id : N) (c : Connection) : Res nat SdkError * Connection :=
  if cn_dead c then (Err Disconnected, c)
  else
    let i := length (cn_waiters c) in
    let ws := match cn_pending c !! request_id with
              | Some j => update_waiter on_drop j (cn_waiters c)
              | None => cn_waiters c
              end in
    (Ok i, set_pending c (<[request_id := i]> (cn_pending c)) (ws ++ [(request_id, Waiting)])).

(** Write the frame, under the lock of the writer; an error drops the receiver
    and leaves the table. *)
Definition write_request (t : FrameTag) (b : bytes) (i : nat) (c : Connection)
    : Res nat SdkError * Connection :=
  match sink_send (cn_writer c) {| tag := t; body := b |} with
  | (Err _, w) =>
      (Err Disconnected, set_writer (set_pending c (cn_pending c)
         (update_waiter (λ _, Abandoned) i (cn_waiters c))) w)
  | (Ok _, w) => (Ok i, set_writer c w)
  end.

(** The two in turn. *)
Definition send_request (t : FrameTag) (b : bytes) (request_id : N) (c : Connection)
    : Res nat SdkError * Connection :=
  match register_request request_id c with
  | (Err e, c) => (Err e, c)
  | (Ok i, c) => write_request t b i c
  end.

(** What the caller gets when it is polled: [None] to go on waiting. *)
Definition await_response (i : nat) (request_id : N) (elapsed : bool) (c : Connection)
    : option (Res Frame SdkError) * Connection :=
  match cn_waiters c !! i with
  | Some (_, Received f) => (Some (Ok f), c)
  | Some (_, Closed) => (Some (Err Disconnected), c)
  | Some (_, Waiting) =>
      if elapsed then
        (Some (Err Timeout), set_pending c (delete request_id (cn_pending c))
           (update_waiter (λ _, Abandoned) i (cn_waiters c)))
      else (None, c)
  | _ => (None, c)
  end.

Definition send_fire_and_forget (t : FrameTag) (b : bytes) (c : Connection)
    : Res unit SdkError * Connection :=
  match sink_send (cn_writer c) {| tag := t; body := b |} with
  | (Ok _, w) => (Ok tt, set_writer c w)
  | (Err _, w) => (Err Disconnected, set_writer c w)
  end.

(** *** The reader task *)

Definition extract_request_id (frame : Frame) : option N :=
  match request_id_from_slice (body frame) with Ok i => Some i | Err _ => None end.

Definition route_frame (frame : Frame) (c : Connection) : Connection :=
  match tag frame with
  | TResult | TRejection | TError =>
      match extract_request_id frame with
      | Some rid =>
          match cn_pending c !! rid with
          | Some i => set_pending c (delete rid (cn_pending c))
                        (update_waiter (on_send frame) i (cn_waiters c))
          | None => c
          end
      | None => c
      end
  | TChangeRecord =>
      match decode_message frame with
      | Ok msg =>
          match cn_subscriptions c !! cm_subscription_id msg with
          | Some i => set_subscriptions c (cn_subscriptions c)
                        (send_on (cn_channels c) i (cm_record msg)).2
          | None => c
          end
      | Err _ => c
      end
  | _ => c
  end.

(** The end of the reader: clearing the table drops every sender in it. *)
Definition reader_exit (c : Connection) : Connection :=
  {| cn_writer := cn_writer c; cn_next_request_id := cn_next_request_id c; cn_pending := ∅;
     cn_subscriptions := cn_subscriptions c; cn_dead := true;
     cn_waiters := foldr (update_waiter on_drop) (cn_waiters c) (map_to_list (cn_pending c)).*2;
     cn_channels := cn_channels c |}.

(** The loop of the reader over what arrives. *)
Fixpoint reader (incoming : list (Res Frame ProtoError)) (c : Connection) : Connection :=
  match incoming with
  | Ok f :: rest => reader rest (route_frame f c)
  | _ => reader_exit c
  end.

(** ** The client's methods *)

(** A message under a fresh identifier. *)
Definition request {A} `{Serde A} (t : FrameTag) (msg : N → A) (c : Connection)
    : Res (nat * N) SdkError * Connection :=
  let '(request_id, c) := next_request_id c in
  match encode_message t (msg request_id) with
  | Err e => (Err (SdkProto e), c)
  | Ok frame =>
      match send_request (tag frame) (body frame) request_id c with
      | (Ok i, c) => (Ok (i, request_id), c)
      | (Err e, c) => (Err e, c)
      end
  end.

(** The answers other than [Result], the same in every method. *)
Definition failure_response {A} (resp : Frame) : Res A SdkError :=
  match tag resp with
  | TRejection =>
      match decode_message resp with
      | Err e => Err (SdkProto e)
      | Ok rej => Err (Rejected (rj_code rej) (rj_message rej) (rj_current_state rej) (rj_version rej))
      end
  | TError => Err (SdkInternal (error_text "unknown server error" resp))
  | other => Err (SdkInternal ("unexpected response tag: " +:+ tag_debug other))
  end.

Definition define_machine_request (definition : MachineDefinition) (c : Connection)
    : Res (nat * N) SdkError * Connection :=
  request TDefineMachine (λ request_id,
    {| dm_request_id := request_id; dm_name := md_name definition;
       dm_version := md_version definition; dm_definition := definition |}) c.
Definition define_machine_response (resp : Frame) : Res unit SdkError :=
  match tag resp with TResult => Ok tt | _ => failure_response resp end.

Definition decode_result_payload {A} `{FromJson A} (frame : Frame) : Res A SdkError :=
  match tag frame with
  | TResult =>
      match decode_message (A := ResultMessage) frame with
      | Err e => Err (SdkProto e)
      | Ok m => map_err (λ e, SdkInternal ("deserialize payload: " +:+ e)) (from_value (rs_payload m))
      end
  | _ => failure_response frame
  end.

Definition current_request (entity_id machine : string) (c : Connection)
    : Res (nat * N) SdkError * Connection :=
  request TCurrent (λ request_id,
    {| cu_request_id := request_id; cu_entity_id := entity_id; cu_machine := machine |}) c.
Definition current_response `{FromJson EntityState} (resp : Frame) : Res EntityState SdkError :=
  decode_result_payload resp.

(** [TransitionBuilder]. *)
Record TransitionBuilder : Type := {
  tb_entity_id : string;
  tb_machine : string;
  tb_event : string;
  tb_expected_version : option N;
  tb_ctx : Value;
  tb_actor : string;
  tb_idempotency_key : option string;
}.

Definition client_transition (entity_id machine event : string) : TransitionBuilder :=
  {| tb_entity_id := entity_id; tb_machine := machine; tb_event := event;
     tb_expected_version := None; tb_ctx := VNull; tb_actor := EmptyString;
     tb_idempotency_key := None |}.
Definition tb_with_expected_version (version : N) (b : TransitionBuilder) : TransitionBuilder :=
  {| tb_entity_id := tb_entity_id b; tb_machine := tb_machine b; tb_event := tb_event b;
     tb_expected_version := Some version; tb_ctx := tb_ctx b; tb_actor := tb_actor b;
     tb_idempotency_key := tb_idempotency_key b |}.
Definition tb_with_ctx (ctx : Value) (b : TransitionBuilder) : TransitionBuilder :=
  {| tb_entity_id := tb_entity_id b; tb_machine := tb_machine b; tb_event := tb_event b;
     tb_expected_version := tb_expected_version b; tb_ctx := ctx; tb_actor := tb_actor b;
     tb_idempotency_key := tb_idempotency_key b |}.
Definition tb_with_actor (actor : string) (b : TransitionBuilder) : TransitionBuilder :=
  {| tb_entity_id := tb_entity_id b; tb_machine := tb_machine b; tb_event := tb_event b;
     tb_expected_version := tb_expected_version b; tb_ctx := tb_ctx b; tb_actor := actor;
     tb_idempotency_key := tb_idempotency_key b |}.
Definition tb_with_idempotency_key (key : string) (b : TransitionBuilder) : TransitionBuilder :=
  {| tb_entity_id := tb_entity_id b; tb_machine := tb_machine b; tb_event := tb_event b;
     tb_expected_version := tb_expected_version b; tb_ctx := tb_ctx b; tb_actor := tb_actor b;
     tb_idempotency_key := Some key |}.

Record TransitionResponse : Type := {
  ts_entity_id : string;
  ts_machine : string;
  ts_from_state : string;
  ts_to_state : string;
  ts_version : N;
  ts_transition_id : string;
  ts_sequence : N;
  ts_timestamp : Time;
}.

Definition transition_request (b : TransitionBuilder) (c : Connection)
    : Res (nat * N) SdkError * Connection :=
  request TTransition (λ request_id,
    {| tm_request_id := request_id; tm_entity_id := tb_entity_id b; tm_machine := tb_machine b;
       tm_event := tb_event b; tm_expected_version := tb_expected_version b;
       tm_idempotency_key := tb_idempotency_key b; tm_ctx := tb_ctx b; tm_actor := tb_actor b |}) c.

Definition transition_response `{FromJson ChangeRecord} (resp : Frame)
    : Res TransitionResponse SdkError :=
  match tag resp with
  | TResult =>
      match decode_message (A := ResultMessage) resp with
      | Err e => Err (SdkProto e)
      | Ok m =>
          match from_value (rs_payload m) with
          | Err e => Err (SdkInternal ("deserialize transition result: " +:+ e))
          | Ok cr =>
              Ok {| ts_entity_id := cr_entity_id cr; ts_machine := cr_machine cr;
                    ts_from_state := cr_from_state cr; ts_to_state := cr_to_state cr;
                    ts_version := cr_version cr; ts_transition_id := cr_transition_id cr;
                    ts_sequence := cr_sequence cr; ts_timestamp := cr_timestamp cr |}
          end
      end
  | _ => failure_response resp
  end.

(** [HistoryBuilder]. *)
Record HistoryBuilder : Type := {
  hb_entity_id : string;
  hb_machine : string;
  hb_limit : option N;
  hb_after_sequence : option N;
}.

Definition client_history (entity_id machine : string) : HistoryBuilder :=
  {| hb_entity_id := entity_id; hb_machine := machine; hb_limit := None; hb_after_sequence := None |}.
Definition hb_with_limit (limit : N) (b : HistoryBuilder) : HistoryBuilder :=
  {| hb_entity_id := hb_entity_id b; hb_machine := hb_machine b; hb_limit := Some limit;
     hb_after_sequence := hb_after_sequence b |}.
Definition hb_with_after_sequence (seq : N) (b : HistoryBuilder) : HistoryBuilder :=
  {| hb_entity_id := hb_entity_id b; hb_machine := hb_machine b; hb_limit := hb_limit b;
     hb_after_sequence := Some seq |}.

Definition history_request (b : HistoryBuilder) (c : Connection)
    : Res (nat * N) SdkError * Connection :=
  request THistory (λ request_id,
    {| hi_request_id := request_id; hi_entity_id := hb_entity_id b; hi_machine := hb_machine b;
       hi_limit := hb_limit b; hi_after_sequence := hb_after_sequence b |}) c.
Definition history_response `{FromJson (list TransitionRecord)} (resp : Frame)
    : Res (list TransitionRecord) SdkError := decode_result_payload resp.

(** [subscribe]: the channel is entered into the table before the request is
    sent; [subscription_id] is what [Uuid::new_v4] returns. *)
Definition subscribe_request (subscription_id : string) (machine_filter : option string)
    (after_sequence : N) (c : Connection) : Res (nat * N) SdkError * Connection :=
  let '(request_id, c) := next_request_id c in
  let rx := length (cn_channels c) in
  let c := set_subscriptions c (<[subscription_id := rx]> (cn_subscriptions c))
             (cn_channels c ++ [unbounded_channel]) in
  match encode_message TSubscribe
          {| sb_request_id := request_id; sb_subscription_id := subscription_id;
             sb_machine_filter := machine_filter; sb_after_sequence := after_sequence |} with
  | Err e => (Err (SdkProto e), c)
  | Ok frame =>
      match send_request (tag frame) (body frame) request_id c with
      | (Ok i, c) => (Ok (i, request_id), c)
      | (Err e, c) => (Err e, c)
      end
  end.

Definition subscribe_response (subscription_id : string) (resp : Frame) (c : Connection)
    : Res string SdkError * Connection :=
  match tag resp with
  | TResult => (Ok subscription_id, c)
  | TRejection | TError =>
      (failure_response resp,
       set_subscriptions c (delete subscription_id (cn_subscriptions c)) (cn_channels c))
  | _ => (failure_response resp, c)
  end.

End sdk.

(** ** Connecting with retry *)

(** [rand::thread_rng().gen_range(0..n)] at the [i]-th call. *)
Class Rng : Type := gen_range : nat → N → N.
Class RngOk (R : Rng) : Prop := gen_range_lt i n : (0 < n)%N → (gen_range i n < n)%N.

Definition base_ms (attempt : N) : N := (100 * N.shiftl 1 (N.min attempt 6))%N.

(** The loop, with the outcome of the [i]-th connect as [outcome i]; the delays
    slept are collected. [attempt] is a [u32]. *)
Fixpoint retry_loop {A} `{Rng} (fuel : nat) (outcome : N → Res A SdkError) (max_retries : N)
    (attempt : N) (last_err : SdkError) (delays : list N) : option (Res A SdkError * list N) :=
  match fuel with
  | 0 => None
  | S fuel =>
      if (attempt <=? max_retries)%N then
        match outcome attempt with
        | Ok conn => Some (Ok conn, delays)
        | Err e =>
            let delays :=
              if (attempt <? max_retries)%N then
                let b := base_ms attempt in
                delays ++ [(b + gen_range (length delays) (b / 2 + 1))%N]
              else delays in
            retry_loop fuel outcome max_retries ((attempt + 1) mod 4294967296)%N e delays
        end
      else Some (Err last_err, delays)
  end.

Definition connect_with_retry {A} `{Rng} (fuel : nat) (outcome : N → Res A SdkError)
    (config : ClientConfig) : option (Res A SdkError * list N) :=
  retry_loop fuel outcome (cc_max_retries config) 0 (SdkInternal "no attempts made") [].

(** ** The client and its subscriptions *)

(** [Client]: its clones share the connection. *)
Record Client {MP : Mpsc ChangeRecord} {FS : FrameSink} : Type := {
  cl_config : ClientConfig;
  cl_connection : Connection;
}.

Definition client_connect {MP : Mpsc ChangeRecord} {FS : FrameSink} `{Rng} (fuel : nat)
    (outcome : N → Res Connection SdkError) (config : ClientConfig)
    : option (Res Client SdkError * list N) :=
  match connect_with_retry fuel outcome config with
  | Some (Ok conn, delays) => Some (Ok {| cl_config := config; cl_connection := conn |}, delays)
  | Some (Err e, delays) => Some (Err e, delays)
  | None => None
  end.

(** Every method takes its connection from here. *)
Definition client_conn {MP : Mpsc ChangeRecord} {FS : FrameSink} (c : Client) : Connection :=
  cl_connection c.

(** [Subscription]: the receiver is a channel of the connection and the number of
    records taken from it. *)
Record Subscription : Type := {
  sn_id : string;
  sn_receiver : nat;
  sn_taken : nat;
}.

Section subscription.
Context {MP : Mpsc ChangeRecord} {MO : MpscOk ChangeRecord} {FS : FrameSink}.

(** The sender is alive while the table of the connection holds it. *)
Definition sender_alive (rx : nat) (c : Connection) : bool :=
  existsb (λ x, bool_decide (x.2 = rx)) (map_to_list (cn_subscriptions c)).

(** [Subscription::next] and [poll_next] when polled: [None] to go on waiting,
    [Some None] at the end of the stream. *)
Definition next (s : Subscription) (c : Connection) : option (option ChangeRecord) * Subscription :=
  match cn_channels c !! sn_receiver s ≫= λ ch, sent ch !! sn_taken s with
  | Some record =>
      (Some (Some record),
       {| sn_id := sn_id s; sn_receiver := sn_receiver s; sn_taken := S (sn_taken s) |})
  | None => (if sender_alive (sn_receiver s) c then None else Some None, s)
  end.

End subscription.
