(* ===== verification/SdkProps.v ===== *)
(** * Properties of the client library

    The table of pending requests as a transition system: the caller's methods,
    the reader's frames and its end. [client_inv] ks its invariant by induction
    on [client_reach]. Then the client against the server: the handshake, a
    request from the call to its result, and the two kinds of reply the client
    cannot use. The witnesses are in [SdkExamples]. *)
From S2P Require Import Prelude Core Redb Keys Storage StorageTrait Channel Engine EngineSpec EngineRun.
From S2P Require Import Frame Messages Wire WireProps Sdk.
From Stdlib Require Import Strings.Byte.

Section sdk_props.
Context {MP : Mpsc ChangeRecord} {WC : WireCodecs} {FS : FrameSink}.
Context {RI : RequestIdCodec}.

(** ** Steps *)

(** The tags the reader routes by request. *)
Definition is_reply (t : FrameTag) : Prop := t ∈ [TResult; TRejection; TError].

Inductive client_step : Connection → Connection → Prop :=
| cs_request A (S : Serde A) t (msg : N → A) r c c' :
    request t msg c = (r, c') → client_step c c'
| cs_subscribe id filter after r c c' :
    subscribe_request id filter after c = (r, c') → client_step c c'
| cs_subscribed id resp r c c' :
    subscribe_response id resp c = (r, c') → client_step c c'
| cs_register r c c' :
    register_request (next_request_id c).1 (next_request_id c).2 = (r, c') → client_step c c'
| cs_write t b i r c c' : write_request t b i c = (r, c') → client_step c c'
| cs_poll i rid o elapsed r c c' :
    cn_waiters c !! i = Some (rid, o) → await_response i rid elapsed c = (r, c') → client_step c c'
| cs_frame f c : cn_dead c = false → client_step c (route_frame f c)
| cs_exit c : cn_dead c = false → client_step c (reader_exit c).

Inductive client_reach : nat → Connection → Prop :=
| cr_new s : client_reach 0 (connection_new s)
| cr_step n c c' : client_reach n c → client_step c c' → client_reach (S n) c'.

(** ** The invariant *)

Record client_inv (n : nat) (c : Connection) : Prop := {
  ci_next : ∃ k, k <= n ∧ cn_next_request_id c = N.of_nat (S k);
  ci_ids i rid o : cn_waiters c !! i = Some (rid, o) → (rid < cn_next_request_id c)%N;
  ci_unique : NoDup (cn_waiters c).*1;
  ci_pending rid i : cn_pending c !! rid = Some i →
    ∃ o, cn_waiters c !! i = Some (rid, o) ∧ (o = Waiting ∨ o = Abandoned);
  ci_waiting i rid : cn_waiters c !! i = Some (rid, Waiting) → cn_pending c !! rid = Some i;
  ci_received i rid f : cn_waiters c !! i = Some (rid, Received f) →
    is_reply (tag f) ∧ extract_request_id f = Some rid;
  ci_dead : cn_dead c = true → cn_pending c = ∅;
}.

Lemma update_waiter_lookup g i ws j :
  update_waiter g i ws !! j
  = (λ w, (w.1, if decide (j = i) then g w.2 else w.2)) <$> ws !! j.
Proof.
  unfold update_waiter. destruct (decide (j = i)) as [->|Hne].
  - by rewrite list_lookup_alter_eq.
  - rewrite list_lookup_alter_ne by done. by destruct (ws !! j) as [[]|].
Qed.

Lemma update_waiter_ids g i ws : (update_waiter g i ws).*1 = ws.*1.
Proof.
  apply list_eq. intros j. rewrite !list_lookup_fmap, update_waiter_lookup.
  by destruct (ws !! j) as [[]|].
Qed.

Lemma drop_all_lookup ks ws j :
  foldr (update_waiter on_drop) ws ks !! j
  = (λ w, (w.1, if decide (j ∈ ks) then on_drop w.2 else w.2)) <$> ws !! j.
Proof.
  induction ks as [|i ks IH]; cbn [foldr].
  - destruct (ws !! j) as [[]|]; [|done]. cbn. by rewrite decide_False by set_solver.
  - rewrite update_waiter_lookup, IH. destruct (ws !! j) as [[rid o]|]; [|done]. cbn.
    do 2 f_equal. destruct (decide (j = i)) as [->|Hne].
    + rewrite (decide_True (P := i ∈ i :: ks)) by set_solver.
      case_decide; [by destruct o|done].
    + destruct (decide (j ∈ ks)); [rewrite decide_True by set_solver; done|].
      by rewrite decide_False by set_solver.
Qed.

Lemma drop_all_ids ks ws : (foldr (update_waiter on_drop) ws ks).*1 = ws.*1.
Proof. induction ks as [|i ks IH]; cbn; [done|]. by rewrite update_waiter_ids. Qed.

(** Requests with the same identifier are the same request. *)
Lemma same_request n c i j rid o o' :
  client_inv n c → cn_waiters c !! i = Some (rid, o) → cn_waiters c !! j = Some (rid, o') → i = j.
Proof.
  intros HI Hi Hj. eapply (NoDup_lookup (cn_waiters c).*1); [apply HI| |];
    rewrite list_lookup_fmap; [by rewrite Hi|by rewrite Hj].
Qed.

Lemma inv_mono n m c : client_inv n c → n <= m → client_inv m c.
Proof. intros [(k & ? & ?) ? ? ? ? ? ?] Hle. split; try done. exists k. split; [lia|done]. Qed.

Lemma inv_new s : client_inv 0 (connection_new s).
Proof. split; cbn; try done; [by exists 0|constructor]. Qed.

(** Only the writer, the subscriptions and their channels differ. *)
Definition same_table (c c' : Connection) : Prop :=
  cn_next_request_id c' = cn_next_request_id c ∧ cn_pending c' = cn_pending c
  ∧ cn_waiters c' = cn_waiters c ∧ cn_dead c' = cn_dead c.

Lemma inv_same_table n c c' : same_table c c' → client_inv n c → client_inv n c'.
Proof.
  intros (H1 & H2 & H3 & H4) [? ? ? ? ? ? ?].
  split; rewrite ?H1, ?H2, ?H3, ?H4; done.
Qed.

Lemma inv_draw n c :
  client_inv n c → (N.of_nat (S n) < u64_max)%N →
  client_inv (S n) (next_request_id c).2
  ∧ cn_next_request_id (next_request_id c).2 = (cn_next_request_id c + 1)%N.
Proof.
  intros [(k & Hk & Hn) ? ? ? ? ? ?] Hw.
  assert (add64 (cn_next_request_id c) 1 = cn_next_request_id c + 1)%N as Hadd
    by (apply add64_small; lia).
  split; [|done]. split; cbn; try done.
  - exists (S k). rewrite Hadd. split; lia.
  - intros i rid o Hi. rewrite Hadd. apply ci_ids0 in Hi. lia.
Qed.

(** Registering a request under an identifier that no waiter has. *)
Lemma inv_register n c rid :
  client_inv n c → (rid < cn_next_request_id c)%N → rid ∉ (cn_waiters c).*1 → cn_dead c = false →
  cn_pending c !! rid = None
  ∧ client_inv n (set_pending c (<[rid := length (cn_waiters c)]> (cn_pending c))
                   (cn_waiters c ++ [(rid, Waiting)])).
Proof.
  intros HI Hrid Hfresh Hdead. destruct HI as [Hn Hids Huniq Hp Hw Hrec Hd].
  assert (cn_pending c !! rid = None) as Hnone.
  { destruct (cn_pending c !! rid) as [i|] eqn:Hi; [|done]. exfalso.
    destruct (Hp _ _ Hi) as (o & Ho & _). apply Hfresh.
    apply list_elem_of_fmap. exists (rid, o). split; [done|]. by eapply list_elem_of_lookup_2. }
  assert (∀ i x, (cn_waiters c ++ [(rid, Waiting)]) !! i = Some x →
    cn_waiters c !! i = Some x ∨ i = length (cn_waiters c) ∧ x = (rid, Waiting)) as Hsplit.
  { intros i x [?|[Hi Hx]]%lookup_app_Some; [by left|right].
    apply list_lookup_singleton_Some in Hx as [? <-]. split; [lia|done]. }
  split; [done|]. split; cbn.
  - done.
  - intros i r o [?|[-> [= -> ->]]]%Hsplit; [eauto|done].
  - rewrite fmap_app. apply NoDup_app. split_and!; [done|set_solver|apply NoDup_singleton].
  - intros r i. destruct (decide (r = rid)) as [->|Hne].
    + rewrite lookup_insert_eq. intros [= <-]. exists Waiting. split; [|by left].
      rewrite lookup_app_r, Nat.sub_diag by lia. done.
    + rewrite lookup_insert_ne by done. intros (o & Ho & Hor)%Hp. exists o. split; [|done].
      by apply lookup_app_l_Some.
  - intros i r [Hi|[-> [= ->]]]%Hsplit; [|by rewrite lookup_insert_eq].
    rewrite lookup_insert_ne; [by apply Hw|]. intros ->. apply Hw in Hi. congruence.
  - intros i r f [Hi|[-> [=]]]%Hsplit. eauto.
  - congruence.
Qed.

(** Changing one waiter, with the table entry of its request taken out. *)
Lemma inv_settle n c i rid o g :
  client_inv n c → cn_waiters c !! i = Some (rid, o) → g o ≠ Waiting →
  (∀ f, g o = Received f → is_reply (tag f) ∧ extract_request_id f = Some rid) →
  client_inv n (set_pending c (delete rid (cn_pending c)) (update_waiter g i (cn_waiters c))).
Proof.
  intros HI Hi Hg Hgr. pose proof (same_request n c) as Hsame.
  destruct HI as [Hn Hids Huniq Hp Hw Hrec Hd]. split; cbn.
  - done.
  - intros j r o' Hj. rewrite update_waiter_lookup in Hj.
    destruct (cn_waiters c !! j) as [[r0 o0]|] eqn:Hj0; [|done]. injection Hj as <- _. eauto.
  - by rewrite update_waiter_ids.
  - intros r j. destruct (decide (r = rid)) as [->|Hne]; [by rewrite lookup_delete_eq|].
    rewrite lookup_delete_ne by done. intros (o' & Hj & Ho')%Hp. exists o'. split; [|done].
    rewrite update_waiter_lookup, Hj. cbn. rewrite decide_False; [done|]. intros ->. congruence.
  - intros j r Hj. rewrite update_waiter_lookup in Hj.
    destruct (cn_waiters c !! j) as [[r0 o0]|] eqn:Hj0; [|done]. cbn in Hj.
    destruct (decide (j = i)) as [->|Hne]; [congruence|]. injection Hj as <- ->.
    rewrite lookup_delete_ne; [by apply Hw|]. intros ->. apply Hne.
    by eapply (Hsame j i); [split| |].
  - intros j r f Hj. rewrite update_waiter_lookup in Hj.
    destruct (cn_waiters c !! j) as [[r0 o0]|] eqn:Hj0; [|done]. cbn in Hj.
    destruct (decide (j = i)) as [->|Hne]; [|injection Hj as <- ->; eauto].
    rewrite Hi in Hj0. injection Hj0 as <- <-. injection Hj as <- Hgo. eauto.
  - intros Hdead. rewrite (Hd Hdead). apply delete_empty.
Qed.

(** A receiver is dropped; the table entry of its request stays. *)
Lemma inv_abandon n c i :
  client_inv n c →
  client_inv n (set_pending c (cn_pending c) (update_waiter (λ _, Abandoned) i (cn_waiters c))).
Proof.
  intros [Hn Hids Huniq Hp Hw Hrec Hd]. split; cbn; [done| |by rewrite update_waiter_ids| | | |done].
  - intros j r o' Hj. rewrite update_waiter_lookup in Hj.
    destruct (cn_waiters c !! j) as [[r0 o0]|] eqn:Hj0; [|done]. injection Hj as <- _. eauto.
  - intros r j (o' & Hj & Ho')%Hp. rewrite update_waiter_lookup, Hj. cbn. eexists. split; [done|].
    case_decide; auto.
  - intros j r Hj. rewrite update_waiter_lookup in Hj.
    destruct (cn_waiters c !! j) as [[r0 o0]|] eqn:Hj0; [|done]. cbn in Hj.
    case_decide; [done|]. injection Hj as <- ->. by apply Hw.
  - intros j r f Hj. rewrite update_waiter_lookup in Hj.
    destruct (cn_waiters c !! j) as [[r0 o0]|] eqn:Hj0; [|done]. cbn in Hj.
    case_decide; [done|]. injection Hj as <- ->. eauto.
Qed.

Lemma inv_write n t b i c r c' : client_inv n c → write_request t b i c = (r, c') → client_inv n c'.
Proof.
  intros HI. unfold write_request. destruct (sink_send _ _) as [[u|e] w]; intros [= <- <-].
  - by apply (inv_same_table n c).
  - by eapply inv_same_table, inv_abandon.
Qed.

(** A request registered under the identifier drawn for it. *)
Lemma inv_draw_register n c c1 r c' :
  client_inv n c → (N.of_nat (S n) < u64_max)%N → same_table (next_request_id c).2 c1 →
  register_request (cn_next_request_id c) c1 = (r, c') → client_inv (S n) c'.
Proof.
  intros HI Hn Hst. destruct (inv_draw n c HI Hn) as [HI1 Hnext].
  pose proof (inv_same_table _ _ _ Hst HI1) as HI2. destruct Hst as (H1 & H2 & H3 & H4).
  unfold register_request. destruct (cn_dead c1) eqn:Hdead; [by intros [= <- <-]|].
  destruct (inv_register (S n) c1 (cn_next_request_id c) HI2) as [Hnone HI3].
  { rewrite H1, Hnext. lia. }
  { rewrite H3. intros ((rid & o) & Hrid & Ho)%list_elem_of_fmap. cbn in Hrid. subst rid.
    apply list_elem_of_lookup in Ho as [i Hi]. pose proof (ci_ids _ _ HI i _ _ Hi). lia. }
  { done. }
  rewrite Hnone. by intros [= <- <-].
Qed.

Lemma inv_send n c c1 t b r c' :
  client_inv n c → (N.of_nat (S n) < u64_max)%N → same_table (next_request_id c).2 c1 →
  send_request t b (cn_next_request_id c) c1 = (r, c') → client_inv (S n) c'.
Proof.
  intros HI Hn Hst. unfold send_request.
  destruct (register_request _ c1) as [[i|e] c2] eqn:Hreg;
    pose proof (inv_draw_register n c c1 _ _ HI Hn Hst Hreg) as HI2; [by apply inv_write|].
  by intros [= <- <-].
Qed.

Lemma inv_poll n c i rid o elapsed r c' :
  client_inv n c → cn_waiters c !! i = Some (rid, o) → await_response i rid elapsed c = (r, c') →
  client_inv n c'.
Proof.
  intros HI Hi. unfold await_response. rewrite Hi. destruct o; try by intros [= <- <-].
  destruct elapsed; intros [= <- <-]; [|done]. by eapply inv_settle.
Qed.

Lemma inv_route n c f : client_inv n c → client_inv n (route_frame f c).
Proof.
  intros HI. unfold route_frame.
  assert (is_reply (tag f) → client_inv n (match extract_request_id f with
    | Some rid => match cn_pending c !! rid with
                  | Some i => set_pending c (delete rid (cn_pending c))
                                (update_waiter (on_send f) i (cn_waiters c))
                  | None => c
                  end
    | None => c
    end)) as Hreply.
  { intros Ht. destruct (extract_request_id f) as [rid|] eqn:Hrid; [|done].
    destruct (cn_pending c !! rid) as [i|] eqn:Hi; [|done].
    destruct (ci_pending _ _ HI _ _ Hi) as (o & Ho & Hcase).
    eapply inv_settle; [done|done| |]; destruct Hcase as [-> | ->]; cbn; try done.
    by intros f' [= <-]. }
  unfold is_reply in Hreply. destruct (tag f); try done; try (apply Hreply; set_solver).
  destruct (decode_message f) as [msg|e]; [|done].
  destruct (cn_subscriptions c !! cm_subscription_id msg); [|done]. by apply (inv_same_table n c).
Qed.

Lemma exit_waiter n c j rid o :
  client_inv n c → cn_waiters c !! j = Some (rid, o) →
  cn_waiters (reader_exit c) !! j = Some (rid, on_drop o).
Proof.
  intros HI Hj. cbn [reader_exit cn_waiters]. rewrite drop_all_lookup, Hj. cbn. do 2 f_equal.
  case_decide as Hin; [done|]. destruct o; try done. exfalso. apply Hin.
  apply list_elem_of_fmap. exists (rid, j). split; [done|].
  by apply elem_of_map_to_list, (ci_waiting _ _ HI).
Qed.

Lemma exit_waiter_inv n c j rid o :
  client_inv n c → cn_waiters (reader_exit c) !! j = Some (rid, o) →
  ∃ o', cn_waiters c !! j = Some (rid, o') ∧ o = on_drop o'.
Proof.
  intros HI Hj. destruct (cn_waiters c !! j) as [[r o']|] eqn:Hj0.
  - pose proof (exit_waiter n c j r o' HI Hj0) as He. rewrite Hj in He.
    injection He as -> ->. by exists o'.
  - cbn [reader_exit cn_waiters] in Hj. by rewrite drop_all_lookup, Hj0 in Hj.
Qed.

Lemma inv_exit n c : client_inv n c → client_inv n (reader_exit c).
Proof.
  intros HI. pose proof (exit_waiter_inv n c) as Hex. split.
  - apply HI.
  - intros i rid o (o' & Hi & _)%Hex; [|done]. apply HI in Hi. done.
  - cbn. rewrite drop_all_ids. apply HI.
  - done.
  - intros i rid (o' & Hi & Ho)%Hex; [|done]. by destruct o'.
  - intros i rid f (o' & Hi & Ho)%Hex; [|done]. destruct o'; try done. injection Ho as <-.
    exact (ci_received _ _ HI _ _ _ Hi).
  - done.
Qed.

Lemma inv_client_step n c c' :
  client_inv n c → (N.of_nat (S n) < u64_max)%N → client_step c c' → client_inv (S n) c'.
Proof.
  intros HI Hn Hstep. destruct Hstep as [A S0 t msg r c c' Hr|id fi af r c c' Hr|id resp r c c' Hr
    |r c c' Hr|t b i r c c' Hr|i rid o el r c c' Hi Hr|f c Hd|c Hd].
  - unfold request in Hr. cbn [next_request_id] in Hr.
    destruct (encode_message t _) as [fr|e].
    + destruct (send_request _ _ _ _) as [[i|e] c1] eqn:Hs; injection Hr as _ <-;
        by eapply (inv_send n c (next_request_id c).2).
    + injection Hr as _ <-. by apply inv_draw.
  - unfold subscribe_request in Hr. cbn [next_request_id] in Hr.
    destruct (encode_message TSubscribe _) as [fr|e].
    + destruct (send_request _ _ _ _) as [[i|e] c1] eqn:Hs; injection Hr as _ <-;
        (eapply (inv_send n c); [done|done| |exact Hs]; done).
    + injection Hr as _ <-. eapply inv_same_table; [|by apply inv_draw]. done.
  - apply (inv_mono n); [|lia]. unfold subscribe_response in Hr.
    destruct (tag resp); injection Hr as _ <-; try done; by apply (inv_same_table n c).
  - by eapply (inv_draw_register n c (next_request_id c).2).
  - apply (inv_mono n); [|lia]. by eapply inv_write.
  - apply (inv_mono n); [|lia]. by eapply inv_poll.
  - apply (inv_mono n); [|lia]. by apply inv_route.
  - apply (inv_mono n); [|lia]. by apply inv_exit.
Qed.

Lemma inv_client_reach n c :
  client_reach n c → (N.of_nat n < u64_max)%N → client_inv n c.
Proof.
  induction 1 as [s|n c c' Hr IH Hstep]; intros Hn; [apply inv_new|].
  eapply inv_client_step; [apply IH; lia|done|done].
Qed.

(** ** Correlation *)

Lemma is_reply_route f c rid i :
  is_reply (tag f) → extract_request_id f = Some rid → cn_pending c !! rid = Some i →
  route_frame f c
  = set_pending c (delete rid (cn_pending c)) (update_waiter (on_send f) i (cn_waiters c)).
Proof.
  intros Ht Hrid Hi. unfold route_frame, is_reply in *. rewrite Hrid, Hi.
  apply elem_of_cons in Ht as [-> |[-> |[-> |?%not_elem_of_nil]%elem_of_cons]%elem_of_cons]; done.
Qed.

(** C31. Replies reach their requests: whatever the order of requests, timeouts
    and frames, a frame that a request has received is a reply with that
    request's identifier; and a reply with the identifier of a waiting request is
    handed to this request and to no other. *)
Theorem replies_correlated n (c : Connection) :
  client_reach n c → (N.of_nat n < u64_max)%N →
  (∀ i rid f, cn_waiters c !! i = Some (rid, Received f) →
     is_reply (tag f) ∧ extract_request_id f = Some rid)
  ∧ (∀ i rid f, cn_waiters c !! i = Some (rid, Waiting) → is_reply (tag f) →
       extract_request_id f = Some rid →
       cn_waiters (route_frame f c) !! i = Some (rid, Received f)
       ∧ ∀ j, j ≠ i → cn_waiters (route_frame f c) !! j = cn_waiters c !! j).
Proof.
  intros Hr Hn. pose proof (inv_client_reach n c Hr Hn) as HI. split; [apply HI|].
  intros i rid f Hi Ht Hrid.
  rewrite (is_reply_route f c rid i Ht Hrid (ci_waiting _ _ HI _ _ Hi)).
  cbn [set_pending cn_waiters]. split.
  - rewrite update_waiter_lookup, Hi. cbn. by rewrite decide_True.
  - intros j Hne. rewrite update_waiter_lookup.
    destruct (cn_waiters c !! j) as [[]|]; [|done]. cbn. by rewrite decide_False.
Qed.

(** C34. A lost connection wakes every caller: once the reader has ended, a
    request whose caller still waits gets its frame if it had come, and the
    error [Disconnected] otherwise, at the next poll and without waiting for the
    timeout; and new requests are refused at once without being sent. *)
Theorem disconnect_wakes_callers n (c : Connection) :
  client_reach n c → (N.of_nat n < u64_max)%N → cn_dead c = true →
  (∀ i rid o elapsed, cn_waiters c !! i = Some (rid, o) → o ≠ Abandoned →
     await_response i rid elapsed c
     = (Some (match o with Received f => Ok f | _ => Err Disconnected end), c))
  ∧ (∀ t b rid, send_request t b rid c = (Err Disconnected, c)).
Proof.
  intros Hr Hn Hdead. pose proof (inv_client_reach n c Hr Hn) as HI. split.
  - intros i rid o elapsed Hi Ho. unfold await_response. rewrite Hi.
    destruct o as [|f| |]; try done. apply (ci_waiting _ _ HI) in Hi.
    by rewrite (ci_dead _ _ HI Hdead) in Hi.
  - intros t b rid. unfold send_request, register_request. by rewrite Hdead.
Qed.

(** ** Against the server *)

Context {SE : StorageEngine} {EN : Env} {SV : ServerEnv}.
Context {JS : ToJson EntityState} {JR : ToJson (list TransitionRecord)}.
Context {WO : WireCodecsOk WC} {RO : RequestIdOk RI}.

Lemma error_frame_ignored m fatal (c : Connection) : route_frame (make_error_frame m fatal) c = c.
Proof.
  unfold make_error_frame.
  destruct (encode_message_ok TError {| em_message := m; em_fatal := fatal |})
    as (f & -> & Ht & _ & Hb). unfold route_frame, extract_request_id. rewrite Ht.
  by destruct (request_id_error _ _ Hb) as [e ->].
Qed.

Lemma result_frame_id rid v f :
  encode_message TResult {| rs_request_id := rid; rs_payload := v |} = Ok f →
  extract_request_id f = Some rid.
Proof.
  unfold encode_message. destruct (to_vec _) as [b|] eqn:Hb; [|done]. intros [= <-].
  unfold extract_request_id. cbn. by rewrite (request_id_result _ _ Hb).
Qed.

(** An error reply is not heard: when the server answers a request for the
    current state with an error frame, the client's reader drops the frame,
    because it carries no request identifier; the caller goes on waiting and gets
    a timeout instead of the error. *)
Theorem error_reply_unheard (e : Engine) (m : ServerMetrics) (f : Frame) (msg : CurrentMessage)
    err e' (c : Connection) i :
  tag f = TCurrent → decode_message f = Ok msg →
  current (cu_entity_id msg) (cu_machine msg) e = (Err err, e') →
  cn_waiters c !! i = Some (cu_request_id msg, Waiting) →
  ∃ reply, handle_frame e m f = ([reply], e', m) ∧ tag reply = TError ∧ route_frame reply c = c
    ∧ (await_response i (cu_request_id msg) false (route_frame reply c)).1 = None
    ∧ (await_response i (cu_request_id msg) true (route_frame reply c)).1 = Some (Err Timeout).
Proof.
  intros Ht Hd Hc Hi. unfold handle_frame. rewrite Ht, Hd, Hc.
  exists (make_error_frame (show_engine err) false).
  rewrite error_frame_ignored. unfold await_response. rewrite Hi.
  split_and!; try done. apply make_error_frame_tag.
Qed.

(** C35. A committed transition is reported to the caller as a failure: the
    client reads the payload of the reply as a change record, which needs a field
    [from_state] that the server does not send, so that every transition the
    server carries out ends in an internal error at the client. *)
Theorem committed_transition_unread {FJ : FromJson ChangeRecord}
    {HF : RequiresField ChangeRecord "from_state"} (e : Engine) (m : ServerMetrics) (f : Frame)
    (msg : TransitionMessage) res e' :
  tag f = TTransition → decode_message f = Ok msg →
  do_transition {| q_entity := tm_entity_id msg; q_machine := tm_machine msg;
                   q_event := tm_event msg; q_actor := tm_actor msg; q_ctx := tm_ctx msg;
                   q_expected := tm_expected_version msg; q_key := tm_idempotency_key msg |} e
  = (Ok res, e') →
  ∃ reply why, handle_frame e m f = ([reply], e', count_transition m) ∧ tag reply = TResult
    ∧ extract_request_id reply = Some (tm_request_id msg)
    ∧ transition_response reply = Err (SdkInternal why).
Proof.
  intros Ht Hd Hrun. unfold handle_frame. rewrite Ht, Hd. unfold do_transition in Hrun.
  cbn [q_entity q_machine q_event q_actor q_ctx q_expected q_key] in Hrun. rewrite Hrun.
  unfold make_transition_result_frame.
  destruct (encode_message_ok TResult {| rs_request_id := tm_request_id msg;
    rs_payload := transition_payload res |}) as (fr & Henc & Htr & Hdr & _).
  rewrite Henc. cbn [frame_or_error].
  destruct (missing_field (A := ChangeRecord) (field := "from_state")
    [("entity_id", VString (tr_entity_id res)); ("from", VString (tr_from_state res));
     ("machine", VString (tr_machine res)); ("sequence", VNumber (PosInt (tr_sequence res)));
     ("state", VString (tr_to_state res)); ("transition_id", VString (tr_transition_id res));
     ("ts", VString (to_rfc3339 (tr_timestamp res)));
     ("version", VNumber (PosInt (tr_version res)))]) as [why Hwhy].
  { apply (bool_decide_unpack _). vm_compute. exact I. }
  eexists fr, _. split_and!; [done|done|by eapply result_frame_id|].
  unfold transition_response. rewrite Htr, Hdr. cbn [rs_payload].
  unfold transition_payload. by rewrite Hwhy.
Qed.

Context {FO : FrameSinkOk FS}.

Lemma request_sent {A} {S : Serde A} {F : Faithful A} n t (msg : N → A) (c : Connection) :
  client_inv n c → (N.of_nat (Datatypes.S n) < u64_max)%N → cn_dead c = false → accepting (cn_writer c) →
  let rid := cn_next_request_id c in
  let i := length (cn_waiters c) in
  ∃ c' f, request t msg c = (Ok (i, rid), c')
    ∧ written (cn_writer c') = written (cn_writer c) ++ [f] ∧ tag f = t
    ∧ decode_message f = Ok (msg rid) ∧ cn_waiters c' !! i = Some (rid, Waiting)
    ∧ client_inv (Datatypes.S n) c'.
Proof.
  intros HI Hn Hdead Hacc rid i. unfold request. rewrite (surjective_pairing (next_request_id c)).
  change (next_request_id c).1 with rid. set (c1 := (next_request_id c).2).
  destruct (encode_message_ok t (msg rid)) as (f & -> & Ht & Hd & _).
  destruct (send_request (tag f) (body f) rid c1) as [r c'] eqn:Hs.
  pose proof (inv_send n c c1 _ _ _ _ HI Hn ltac:(done) Hs) as HI'.
  unfold send_request, register_request in Hs. cbn [c1 next_request_id snd cn_dead] in Hs. rewrite Hdead in Hs.
  assert (cn_pending c1 !! rid = None) as Hnone.
  { destruct (cn_pending c1 !! rid) as [j|] eqn:Hj; [|done]. cbn in Hj.
    apply (ci_pending _ _ HI) in Hj as (o & Ho & _). apply (ci_ids _ _ HI) in Ho. unfold rid in Ho. lia. }
  cbn [c1 next_request_id snd cn_pending] in Hnone. cbn [cn_pending] in Hs. rewrite Hnone in Hs.
  unfold write_request in Hs. cbn [cn_writer set_pending] in Hs.
  destruct (sink_send_accepting (cn_writer c) {| tag := tag f; body := body f |} Hacc)
    as (w & Hw & _). cbn [c1 next_request_id snd cn_writer] in Hs. rewrite Hw in Hs.
  injection Hs as <- <-. eexists _, f. split_and!; [done| |done|done| |done].
  - cbn. rewrite (sink_send_ok _ _ _ Hw). by destruct f.
  - cbn. by rewrite lookup_app_r, Nat.sub_diag by lia.
Qed.

(** C32. A request from call to result: on a live connection, [current] writes one
    frame; the server's answer to that frame, when the engine finds the entity,
    goes through the client's reader to the caller, and decodes to the state the
    engine returned. *)
Theorem current_end_to_end {FJ : FromJson EntityState} {HJ : JsonOk EntityState}
    n (c : Connection) (e : Engine) (m : ServerMetrics) en mach s e' v :
  client_reach n c → (N.of_nat (Datatypes.S n) < u64_max)%N → cn_dead c = false →
  accepting (cn_writer c) → current en mach e = (Ok s, e') → to_value s = Ok v →
  ∃ i rid c' f reply, current_request en mach c = (Ok (i, rid), c')
    ∧ written (cn_writer c') = written (cn_writer c) ++ [f]
    ∧ handle_frame e m f = ([reply], e', m)
    ∧ (await_response i rid false (route_frame reply c')).1 = Some (Ok reply)
    ∧ current_response reply = Ok s.
Proof.
  intros Hr Hn Hdead Hacc Hcur Hv.
  pose proof (inv_client_reach n c Hr ltac:(lia)) as HI.
  destruct (request_sent n TCurrent (λ request_id, {| cu_request_id := request_id;
    cu_entity_id := en; cu_machine := mach |}) c HI Hn Hdead Hacc)
    as (c' & f & Hreq & Hwr & Ht & Hd & Hwait & HI').
  set (rid := cn_next_request_id c) in *. set (i := length (cn_waiters c)) in *.
  destruct (encode_message_ok TResult {| rs_request_id := rid; rs_payload := v |})
    as (reply & Henc & Htr & Hdr & _).
  pose proof (result_frame_id _ _ _ Henc) as Hid.
  exists i, rid, c', f, reply. split_and!; [done|done| | |].
  - unfold handle_frame. rewrite Ht, Hd. cbn [cu_entity_id cu_machine cu_request_id].
    rewrite Hcur, Hv. unfold result_reply. by rewrite Henc.
  - rewrite (is_reply_route reply c' rid i); [|rewrite Htr; unfold is_reply; set_solver|done|].
    + unfold await_response. cbn [set_pending cn_waiters].
      rewrite update_waiter_lookup, Hwait. cbn. by rewrite decide_True.
    + by apply (ci_waiting _ _ HI').
  - unfold current_response, decode_result_payload. rewrite Htr, Hdr. cbn [rs_payload].
    by rewrite (from_to_value _ _ Hv).
Qed.

Lemma send_opening_writes config s :
  accepting s →
  ∃ s' f1 f2 startup, send_opening config s = Ok s' ∧ written s' = written s ++ [f1; f2]
    ∧ tag f1 = TStartup ∧ decode_message f1 = Ok startup
    ∧ su_protocol_version startup = PROTOCOL_VERSION
    ∧ tag f2 = TAuth ∧ decode_message f2 = Ok {| au_token := cc_token config |}.
Proof.
  intros Hacc. unfold send_opening. set (su := Build_StartupMessage _ _).
  destruct (encode_message_ok TStartup su) as (f1 & -> & Ht1 & Hd1 & _).
  destruct (sink_send_accepting s f1 Hacc) as (s1 & Hs1 & Hacc1). rewrite Hs1.
  destruct (encode_message_ok TAuth {| au_token := cc_token config |}) as (f2 & -> & Ht2 & Hd2 & _).
  destruct (sink_send_accepting s1 f2 Hacc1) as (s2 & Hs2 & _). rewrite Hs2.
  exists s2, f1, f2, su. apply sink_send_ok in Hs1, Hs2.
  rewrite Hs2, Hs1, <- app_assoc. done.
Qed.

(** C33. Client and server agree on the handshake: the server that reads what the
    client's connect writes answers with frames that end the client's handshake,
    successfully when the client's token is a configured one, and with
    [AuthFailed] and the server's message otherwise. *)
Theorem handshake_agrees (config : ClientConfig) (s : sink) (tokens : list string) (c0 : Conn) :
  accepting s → accepting (c_sink c0) →
  ∃ s' f1 f2 r c1 frames, send_opening config s = Ok s' ∧ written s' = written s ++ [f1; f2]
    ∧ serve_framed tokens [Ok f1; Ok f2] c0 = (r, c1)
    ∧ written (c_sink c1) = written (c_sink c0) ++ frames
    ∧ await_ready false false ((λ f, Arrived (Ok f)) <$> frames)
      = if decide (cc_token config ∈ tokens) then Ok [] else Err (AuthFailed "invalid token").
Proof.
  intros Hacc Hacc0.
  destruct (send_opening_writes config s Hacc)
    as (s' & f1 & f2 & su & Hso & Hw & Ht1 & Hd1 & Hv & Ht2 & Hd2).
  exists s', f1, f2. destruct (decide (cc_token config ∈ tokens)) as [Hin|Hin].
  - destruct (serve_handshake tokens [Ok f1; Ok f2] c0 Hacc0) as
      (auth_ok & ready & msg & c' & Hserve & Hwr & Ha & Hrd & _).
    { by exists f1, f2, [], su, {| au_token := cc_token config |}. }
    cbn in Hserve. exists (Ok tt), (cleanup c'), [auth_ok; ready].
    split_and!; [done|done|done|done|]. cbn. by rewrite Ha, Hrd.
  - assert (token_is_valid tokens (cc_token config) = false) as Htok.
    { apply not_true_iff_false. unfold token_is_valid. by intros [?|?]%token_fold. }
    unfold serve_framed. cbn [next_frame]. rewrite decide_False by naive_solver.
    rewrite Hd1, Hv, N.eqb_refl. cbn [negb]. rewrite decide_False by naive_solver.
    rewrite Hd2. cbn [au_token]. rewrite Htok. cbn [negb].
    destruct (encode_message_ok TAuthError {| em_message := "invalid token"; em_fatal := true |})
      as (f3 & -> & Ht3 & Hd3 & _).
    destruct (sink_send_accepting (c_sink c0) f3 Hacc0) as (s3 & Hs3 & _).
    eexists _, _, [f3]. split_and!; [done|done|done| |].
    + cbn. rewrite Hs3. by apply sink_send_ok.
    + cbn. rewrite Ht3. unfold error_text. by rewrite Hd3.
Qed.

End sdk_props.

(** ** Retry *)

Section retry.
Context {A : Type} {RG : Rng} {RGO : RngOk RG}.
Implicit Types (outcome : N → Res A SdkError).

(** The delay before retry [k]: exponential with a cap, and up to half of it
    again as jitter. *)
Definition delay_ok (k : nat) (d : N) : Prop :=
  (base_ms (N.of_nat k) <= d <= base_ms (N.of_nat k) + base_ms (N.of_nat k) / 2)%N.

Lemma base_ms_bound k : (100 <= base_ms k <= 6400)%N.
Proof.
  unfold base_ms. assert (N.min k 6 <= 6)%N as H by lia.
  assert (N.min k 6 = 0 ∨ N.min k 6 = 1 ∨ N.min k 6 = 2 ∨ N.min k 6 = 3 ∨ N.min k 6 = 4
    ∨ N.min k 6 = 5 ∨ N.min k 6 = 6)%N as Hc by lia.
  destruct Hc as [-> |[-> |[-> |[-> |[-> |[-> | ->]]]]]]; by cbn.
Qed.

(** The outcome of a loop that starts at [attempt]. *)
Definition retried outcome (max_retries : N) (r : Res A SdkError) (delays : list N) : Prop :=
  (∀ k d, delays !! k = Some d → delay_ok k d)
  ∧ match r with
    | Ok conn => ∃ i, (i <= max_retries)%N ∧ outcome i = Ok conn
        ∧ (∀ j, (j < i)%N → is_ok (outcome j) = false) ∧ length delays = N.to_nat i
    | Err e => outcome max_retries = Err e
        ∧ (∀ j, (j <= max_retries)%N → is_ok (outcome j) = false)
        ∧ length delays = N.to_nat max_retries
    end.

Lemma retry_loop_run outcome max_retries fuel attempt last_err delays :
  (max_retries < u32_max)%N → (attempt <= max_retries + 1)%N →
  N.to_nat (max_retries + 1 - attempt) < fuel →
  (∀ k d, delays !! k = Some d → delay_ok k d) →
  length delays = N.to_nat (N.min attempt max_retries) →
  (∀ j, (j < attempt)%N → is_ok (outcome j) = false) →
  (attempt = max_retries + 1 → outcome max_retries = Err last_err)%N →
  ∃ r ds, retry_loop fuel outcome max_retries attempt last_err delays = Some (r, ds)
    ∧ retried outcome max_retries r ds.
Proof.
  intros Hmax. revert attempt last_err delays.
  induction fuel as [|fuel IH]; intros attempt last_err delays Hat Hfuel Hd Hlen Hno Hlast; [lia|].
  cbn [retry_loop]. destruct (N.leb_spec attempt max_retries) as [Hle|Hgt].
  - destruct (outcome attempt) as [conn|e] eqn:Ho.
    + exists (Ok conn), delays. split; [done|]. split; [done|]. exists attempt.
      split_and!; [done|done|done|lia].
    + rewrite N.mod_small by (unfold u32_max in Hmax; lia). apply IH; [lia|lia| | | |].
      * intros k d. destruct (N.ltb_spec attempt max_retries) as [Hlt|]; [|apply Hd].
        intros [Hk|[Hk Hx]]%lookup_app_Some; [by apply Hd|].
        apply list_lookup_singleton_Some in Hx as [Hk0 <-].
        assert (N.of_nat k = attempt) as Hka by lia. unfold delay_ok. rewrite Hka.
        generalize (base_ms attempt / 2)%N. intros h.
        pose proof (gen_range_lt (length delays) (h + 1) ltac:(lia)). lia.
      * destruct (N.ltb_spec attempt max_retries); [rewrite length_app; cbn|]; lia.
      * intros j Hj. destruct (decide (j = attempt)) as [-> |]; [by rewrite Ho|]. apply Hno. lia.
      * intros Heq. assert (attempt = max_retries) as <- by lia. done.
  - assert (attempt = max_retries + 1)%N as Heq by lia.
    exists (Err last_err), delays. split; [done|]. split; [done|]. split_and!; [by apply Hlast| |lia].
    intros j Hj. apply Hno. lia.
Qed.

(** Connecting with retry ends after at most [max_retries + 1] attempts: with
    the first connection that succeeds, or with the error of the last attempt
    when all fail; it sleeps once between two attempts, at least 100
    milliseconds and at most 9.6 seconds, doubling up to a cap with at most half
    of it again as jitter. *)
Theorem connect_with_retry_bounded outcome (config : ClientConfig) fuel :
  (cc_max_retries config < u32_max)%N → N.to_nat (cc_max_retries config + 1) < fuel →
  ∃ r delays, connect_with_retry fuel outcome config = Some (r, delays)
    ∧ retried outcome (cc_max_retries config) r delays
    ∧ ∀ d, d ∈ delays → (100 <= d <= 9600)%N.
Proof.
  intros Hmax Hfuel.
  destruct (retry_loop_run outcome (cc_max_retries config) fuel 0
    (SdkInternal "no attempts made") []) as (r & ds & Hrun & Hret); [done|lia|lia|done|cbn; lia|lia|lia|].
  exists r, ds. split_and!; [done|done|]. intros d [k Hk]%list_elem_of_lookup.
  apply Hret in Hk as [H1 H2]. pose proof (base_ms_bound (N.of_nat k)) as [H3 H4].
  assert (base_ms (N.of_nat k) / 2 <= 3200)%N as H5 by (apply N.Div0.div_le_upper_bound; lia).
  revert H2 H5. generalize (base_ms (N.of_nat k) / 2)%N. lia.
Qed.

End retry.
