(* ===== verification/SdkExamples.v ===== *)
(** * The client's properties at work

    The instances of [WireExamples] with the serialisation the client needs, a
    connection with requests in flight, and the client against the server with
    the document machine: each property of [SdkProps] is applied to them. *)
From S2P Require Import Prelude Core Redb Keys Storage StorageSpec StorageTrait Channel Engine.
From S2P Require Import EngineSpec EngineRun System Concrete EngineExamples Frame Messages Wire.
From S2P Require Import WireProps WireExamples Sdk SdkProps.
Import Demo DemoWire.

(** ** Instances *)

Definition reply_id (r : reply) : Res N string :=
  match r with
  | inl (inl m) => Ok (rs_request_id m)
  | inl (inr m) => Ok (rj_request_id m)
  | inr _ => Err "missing field request_id"
  end.

#[local] Instance demo_request_id : RequestIdCodec := λ b,
  match countable.decode (bytes_pos b) with
  | Some r => reply_id r
  | None => Err "invalid data"
  end.

#[local] Instance demo_request_id_ok : RequestIdOk demo_request_id.
Proof.
  assert (∀ r : reply, demo_request_id (pos_bytes (countable.encode r)) = reply_id r) as Hid.
  { intros r. unfold demo_request_id. by rewrite bytes_pos_bytes, countable.decode_encode. }
  split; intros m b Hb; injection Hb as <-; unfold request_id_from_slice.
  - exact (Hid (inl (inl m))).
  - exact (Hid (inl (inr m))).
  - eexists. exact (Hid (inr m)).
Qed.

(** A decoder of change records that needs the field [from_state]. *)
Definition field (k : string) (m : list (string * Value)) : option Value := (list_to_map m : gmap string Value) !! k.
#[local] Instance demo_json_change : FromJson ChangeRecord := λ v,
  match v with
  | VObject m =>
      match field "from_state" m, field "to_state" m with
      | Some (VString from), Some (VString to) =>
          Ok {| cr_sequence := 0; cr_transition_id := EmptyString; cr_entity_id := EmptyString;
                cr_machine := EmptyString; cr_from_state := from; cr_to_state := to;
                cr_event := EmptyString; cr_actor := EmptyString; cr_version := 0;
                cr_timestamp := 0; cr_ctx := VNull; cr_effects := [] |}
      | _, _ => Err "missing field"
      end
  | _ => Err "not an object"
  end.

#[local] Instance demo_requires : RequiresField ChangeRecord "from_state".
Proof.
  intros m Hm. exists "missing field". unfold from_value, demo_json_change, field.
  by rewrite (not_elem_of_list_to_map_1 m "from_state" Hm).
Qed.

#[local] Instance demo_from_json_state : FromJson EntityState := λ v,
  match v with
  | VNumber (PosInt (Npos p)) =>
      match countable.decode p with Some s => Ok s | None => Err "invalid data" end
  | _ => Err "not a number"
  end.

#[local] Instance demo_state_ok : JsonOk EntityState.
Proof.
  intros s v [= <-]. unfold from_value, demo_from_json_state.
  by rewrite countable.decode_encode.
Qed.

#[local] Instance demo_rng : Rng := λ i n, (N.of_nat i mod n)%N.
#[local] Instance demo_rng_ok : RngOk demo_rng.
Proof. intros i n Hn. apply N.mod_lt. lia. Qed.

(** ** Connections *)

(** Two requests in flight. *)
Definition client0 : Connection := connection_new open_sink.
Definition client1 : Connection := (current_request "doc-1" "document" client0).2.
Definition client2 : Connection := (current_request "doc-2" "document" client1).2.

Lemma current_step en m (c : Connection) : client_step c (current_request en m c).2.
Proof.
  destruct (current_request en m c) as [r c'] eqn:Hr. unfold current_request in Hr. cbn [snd].
  exact (cs_request CurrentMessage _ _ _ _ _ _ Hr).
Qed.

Lemma client1_reach : client_reach 1 client1.
Proof. eapply cr_step; [apply cr_new|apply current_step]. Qed.

Lemma client2_reach : client_reach 2 client2.
Proof. eapply cr_step; [apply client1_reach|apply current_step]. Qed.

(** The answer to the second request. *)
Definition answer2 : Frame := frame_of TResult {| rs_request_id := 2; rs_payload := VBool true |}.

(** ** Witnesses *)

Lemma replies_correlated_witness :
  cn_waiters (route_frame answer2 client2) = [(1%N, Waiting); (2%N, Received answer2)]
  ∧ cn_waiters (route_frame answer2 client2) !! 1 = Some (2%N, Received answer2).
Proof.
  split; [vm_compute; reflexivity|].
  apply (proj2 (replies_correlated 2 client2 client2_reach ltac:(vm_compute; reflexivity)) 1 2%N answer2).
  - vm_compute. reflexivity.
  - unfold is_reply. apply elem_of_cons. by left.
  - vm_compute. reflexivity.
Defined.

Lemma disconnect_wakes_callers_witness :
  await_response 0 1 false (reader_exit client2) = (Some (Err Disconnected), reader_exit client2).
Proof.
  apply (proj1 (disconnect_wakes_callers 3 (reader_exit client2)
    (cr_step 2 client2 _ client2_reach (cs_exit client2 eq_refl))
    ltac:(vm_compute; reflexivity) eq_refl) 0 1%N Closed false).
  - vm_compute. reflexivity.
  - discriminate.
Defined.

Lemma error_reply_unheard_witness :
  let f := frame_of TCurrent {| cu_request_id := 1; cu_entity_id := "doc-1"; cu_machine := "document" |} in
  ∃ reply e', handle_frame (run0 []) (c_metrics (conn (run0 []))) f = ([reply], e', c_metrics (conn (run0 [])))
    ∧ route_frame reply client1 = client1
    ∧ (await_response 0 1 true (route_frame reply client1)).1 = Some (Err Timeout).
Proof.
  intros f. destruct (current "doc-1" "document" (run0 [])) as [r e'] eqn:Hc.
  destruct r as [s|err].
  { exfalso. apply (f_equal (λ p, is_ok p.1)) in Hc. vm_compute in Hc. discriminate Hc. }
  destruct (error_reply_unheard (run0 []) (c_metrics (conn (run0 []))) f
    {| cu_request_id := 1; cu_entity_id := "doc-1"; cu_machine := "document" |} err e' client1 0)
    as (reply & Hh & _ & Hroute & _ & Ht).
  - reflexivity.
  - vm_compute. reflexivity.
  - exact Hc.
  - vm_compute. reflexivity.
  - exists reply, e'. split; [exact Hh|]. split; [exact Hroute|exact Ht].
Defined.

Lemma committed_transition_unread_witness :
  ∃ reply why, handle_frame (run0 []) (c_metrics (conn (run0 []))) submit_frame
      = ([reply], (do_transition (req "submit" (Some 0%N) (Some "k")) (run0 [])).2,
         count_transition (c_metrics (conn (run0 []))))
    ∧ tag reply = TResult ∧ extract_request_id reply = Some 7%N
    ∧ transition_response reply = Err (SdkInternal why).
Proof.
  destruct (do_transition (req "submit" (Some 0%N) (Some "k")) (run0 [])) as [r e'] eqn:Hrun.
  destruct r as [res|err].
  - apply (committed_transition_unread (WC := demo_wire) (run0 []) (c_metrics (conn (run0 [])))
      submit_frame submit res e'); [reflexivity|vm_compute; reflexivity|exact Hrun].
  - exfalso. apply (f_equal (λ p, is_ok p.1)) in Hrun. vm_compute in Hrun. discriminate Hrun.
Defined.

Lemma current_end_to_end_witness :
  ∃ s i rid c' f reply e', current_request "doc-1" "document" client1 = (Ok (i, rid), c')
    ∧ handle_frame run2 (c_metrics (conn run2)) f = ([reply], e', c_metrics (conn run2))
    ∧ (await_response i rid false (route_frame reply c')).1 = Some (Ok reply)
    ∧ current_response reply = Ok s ∧ es_current_state s = "review".
Proof.
  destruct (current "doc-1" "document" run2) as [r e'] eqn:Hc. destruct r as [s|err].
  - destruct (current_end_to_end 1 client1 run2 (c_metrics (conn run2)) "doc-1" "document" s e'
      (VNumber (PosInt (Npos (countable.encode s)))) client1_reach ltac:(vm_compute; reflexivity)
      eq_refl eq_refl Hc eq_refl) as (i & rid & c' & f & reply & H1 & _ & H2 & H3 & H4).
    exists s, i, rid, c', f, reply, e'. split; [exact H1|]. split; [exact H2|]. split; [exact H3|].
    split; [exact H4|].
    apply (f_equal (λ p, match p.1 with Ok s => es_current_state s | Err _ => EmptyString end)) in Hc.
    change (es_current_state s) with (match (Ok s, e').1 : Res EntityState EngineError with
      Ok s => es_current_state s | Err _ => EmptyString end).
    etransitivity; [exact (eq_sym Hc)|]. vm_compute. reflexivity.
  - exfalso. apply (f_equal (λ p, is_ok p.1)) in Hc. vm_compute in Hc. discriminate Hc.
Defined.

Lemma handshake_agrees_witness :
  let config := ClientBuilder.token "guess" (ClientBuilder.new "localhost:7632") in
  ∃ s' f1 f2 r c1 frames, send_opening config open_sink = Ok s'
    ∧ written s' = written open_sink ++ [f1; f2]
    ∧ serve_framed ["secret"] [Ok f1; Ok f2] (conn (run0 [])) = (r, c1)
    ∧ written (c_sink c1) = written (c_sink (conn (run0 []))) ++ frames
    ∧ await_ready false false ((λ f, Arrived (Ok f)) <$> frames)
      = if decide (cc_token config ∈ ["secret"]) then Ok [] else Err (AuthFailed "invalid token").
Proof.
  intros config. apply (handshake_agrees config open_sink ["secret"] (conn (run0 [])));
    reflexivity.
Defined.

(** The third attempt connects. *)
Definition third (i : N) : Res N SdkError :=
  if (i =? 2)%N then Ok i else Err (ConnectionFailed "connection refused").

Lemma connect_with_retry_bounded_witness :
  connect_with_retry 5 third ClientConfig_default = Some (Ok 2%N, [100; 201]%N)
  ∧ ∃ r delays, connect_with_retry 5 third ClientConfig_default = Some (r, delays)
    ∧ retried third 3 r delays ∧ ∀ d, d ∈ delays → (100 <= d <= 9600)%N.
Proof.
  split; [vm_compute; reflexivity|].
  apply (connect_with_retry_bounded third ClientConfig_default 5);
    [vm_compute; reflexivity|vm_compute; lia].
Defined.
