(* ===== verification/EndToEnd.v ===== *)
(** * A subscription from commit to client

    The client library on one end of a connection ([Sdk]), the server with its
    forwarding tasks on the other ([Live]): the client's call of subscribe, the
    Subscribe frame, the task it spawns, the frames the task writes among all
    others, and the reader that routes them into the channel of the
    subscription. The network hands over a prefix of what was written. *)
From S2P Require Import Prelude Core Redb Keys Storage StorageSpec StorageTrait Channel Engine.
From S2P Require Import EngineSpec EngineRun Dispatch System Frame Messages Wire WireProps Restart.
From S2P Require Import Live LiveProps Sdk SdkProps.

(** ** The client's side *)

Section client_side.
Context {MP : Mpsc ChangeRecord} {MO : MpscOk ChangeRecord} {WC : WireCodecs} {WO : WireCodecsOk WC}.
Context {FS : FrameSink} {FO : FrameSinkOk FS} {RI : RequestIdCodec}.
Implicit Types (c : Connection) (sub : string).

(** The record a frame carries for a subscription. *)
Definition record_for sub (f : Frame) : option ChangeRecord :=
  match tag f with
  | TChangeRecord =>
      match decode_message f with
      | Ok msg => if decide (cm_subscription_id msg = sub) then Some (cm_record msg) else None
      | Err _ => None
      end
  | _ => None
  end.
Definition collected sub (fs : list Frame) : list ChangeRecord := omap (record_for sub) fs.

(** What the callers of a client do while the subscription lives: any request,
    other subscriptions, polls and messages without answer; the receivers of
    other subscriptions are dropped. *)
Inductive caller_step sub : Connection → Connection → Prop :=
| ca_request A (S : Serde A) t (msg : N → A) r c c' :
    request t msg c = (r, c') → caller_step sub c c'
| ca_subscribe id filter after r c c' :
    id ≠ sub → subscribe_request id filter after c = (r, c') → caller_step sub c c'
| ca_subscribed id resp r c c' :
    id ≠ sub ∨ tag resp = TResult → subscribe_response id resp c = (r, c') → caller_step sub c c'
| ca_poll i rid elapsed r c c' :
    await_response i rid elapsed c = (r, c') → caller_step sub c c'
| ca_fire t b r c c' :
    send_fire_and_forget t b c = (r, c') → caller_step sub c c'
| ca_drop i ch c :
    cn_subscriptions c !! sub ≠ Some i →
    caller_step sub c (set_subscriptions c (cn_subscriptions c) (<[i := ch]> (cn_channels c))).

(** A run of the client in which the reader routes the given frames. *)
Inductive client_run sub c0 : list Frame → Connection → Prop :=
| run_start : client_run sub c0 [] c0
| run_frame fs f c : client_run sub c0 fs c → client_run sub c0 (fs ++ [f]) (route_frame f c)
| run_caller fs c c' : client_run sub c0 fs c → caller_step sub c c' → client_run sub c0 fs c'.

(** Nothing but the table of requests and the writer is touched. *)
Definition same_streams c c' : Prop :=
  cn_subscriptions c' = cn_subscriptions c ∧ cn_channels c' = cn_channels c.

Lemma send_request_streams t b rid c r c' : send_request t b rid c = (r, c') → same_streams c c'.
Proof.
  unfold send_request, register_request, write_request. destruct (cn_dead c); [by intros [= _ <-]|].
  destruct (sink_send _ _) as [[] w]; by intros [= _ <-].
Qed.

Lemma register_streams rid c r c' : register_request rid c = (r, c') → same_streams c c'.
Proof. unfold register_request. destruct (cn_dead c); by intros [= _ <-]. Qed.

Lemma write_streams t b i c r c' : write_request t b i c = (r, c') → same_streams c c'.
Proof. unfold write_request. destruct (sink_send _ _) as [[] w]; by intros [= _ <-]. Qed.

Lemma request_streams {A} {S : Serde A} t (msg : N → A) c r c' :
  request t msg c = (r, c') → same_streams c c'.
Proof.
  unfold request. rewrite (surjective_pairing (next_request_id c)).
  destruct (encode_message t _) as [f|e]; [|by intros [= _ <-]].
  destruct (send_request _ _ _ _) as [r1 c1] eqn:Hs. apply send_request_streams in Hs.
  destruct r1; by intros [= _ <-].
Qed.

Lemma poll_streams i rid elapsed c r c' : await_response i rid elapsed c = (r, c') → same_streams c c'.
Proof. unfold await_response. repeat case_match; by intros [= _ <-]. Qed.

Lemma fire_streams t b c r c' : send_fire_and_forget t b c = (r, c') → same_streams c c'.
Proof. unfold send_fire_and_forget. destruct (sink_send _ _) as [[] w]; by intros [= _ <-]. Qed.

(** A subscription enters its own channel, and its request goes out. *)
Lemma subscribe_streams id filter after c r c' :
  subscribe_request id filter after c = (r, c') →
  cn_subscriptions c' = <[id := length (cn_channels c)]> (cn_subscriptions c)
  ∧ cn_channels c' = cn_channels c ++ [unbounded_channel]
  ∧ (is_ok r = true → ∃ f, written (cn_writer c') = written (cn_writer c) ++ [f]
      ∧ tag f = TSubscribe ∧ decode_message f = Ok {| sb_request_id := cn_next_request_id c;
           sb_subscription_id := id; sb_machine_filter := filter; sb_after_sequence := after |}).
Proof.
  unfold subscribe_request. rewrite (surjective_pairing (next_request_id c)).
  set (msg := Build_SubscribeMessage _ _ _ _).
  destruct (encode_message_ok TSubscribe msg) as (f & -> & Ht & Hd & _).
  destruct (send_request _ _ _ _) as [r1 c1] eqn:Hs. intros Hx.
  assert (c' = c1 ∧ is_ok r = is_ok r1) as [-> Hok] by (destruct r1; by injection Hx as <- <-).
  destruct (send_request_streams _ _ _ _ _ _ Hs) as [H1 H2]. rewrite H1, H2, Hok.
  split_and!; [done|done|]. intros Hr. exists f. split; [|done].
  unfold send_request, register_request, write_request in Hs. destruct (cn_dead _); [by injection Hs as <- <-|].
  destruct (sink_send _ _) as [[[]|] w] eqn:Hk; injection Hs as <- <-; [|done].
  cbn. rewrite (sink_send_ok _ _ _ Hk). by destruct f.
Qed.

(** Every entry of the table names a channel. *)
Definition subs_bounded c : Prop :=
  ∀ id i, cn_subscriptions c !! id = Some i → i < length (cn_channels c).

Lemma send_on_length (cs : list (chan ChangeRecord)) i x : length (send_on cs i x).2 = length cs.
Proof.
  unfold send_on. destruct (cs !! i) as [ch|]; [|done]. destruct (send ch x) as [r ch'].
  apply length_insert.
Qed.

Lemma route_subs c f :
  cn_subscriptions (route_frame f c) = cn_subscriptions c
  ∧ length (cn_channels (route_frame f c)) = length (cn_channels c).
Proof.
  unfold route_frame. repeat case_match; try done. split; [done|apply send_on_length].
Qed.

Lemma subs_bounded_same c c' : same_streams c c' → subs_bounded c → subs_bounded c'.
Proof. intros [H1 H2] HB id i. rewrite H1, H2. apply HB. Qed.

Lemma response_subs id resp c r c' :
  subscribe_response id resp c = (r, c') →
  cn_channels c' = cn_channels c ∧ (cn_subscriptions c' = cn_subscriptions c
    ∨ (cn_subscriptions c' = delete id (cn_subscriptions c) ∧ tag resp ≠ TResult)).
Proof. unfold subscribe_response. case_match; intros [= _ <-]; split; eauto. Qed.

Lemma reach_subs_bounded n c : client_reach n c → subs_bounded c.
Proof.
  induction 1 as [s|n c c' _ IH Hs]; [by intros id i|].
  destruct Hs as [A S t msg r c c' Hr|id filter after r c c' Hr|id resp r c c' Hr
    |r c c' Hr|t b i r c c' Hr|i rid o elapsed r c c' _ Hr|f c _|c _].
  - by eapply subs_bounded_same, IH; eapply request_streams.
  - destruct (subscribe_streams _ _ _ _ _ _ Hr) as (H1 & H2 & _). intros id' i.
    rewrite H1, H2, length_app. cbn. intros [[_ <-]|[_ Hi%IH]]%lookup_insert_Some; lia.
  - apply response_subs in Hr as [H1 [H2|[H2 _]]]; intros id' i; rewrite H1, H2; [apply IH|].
    intros [_ Hi]%lookup_delete_Some. by eapply IH.
  - by eapply (subs_bounded_same (next_request_id c).2), IH; eapply register_streams.
  - by eapply subs_bounded_same, IH; eapply write_streams.
  - by eapply subs_bounded_same, IH; eapply poll_streams.
  - destruct (route_subs c f) as [H1 H2]. intros id i. rewrite H1, H2. apply IH.
  - exact IH.
Qed.

(** The subscription owns an open channel that was given [records]. *)
Record subscribed sub (i : nat) (records : list ChangeRecord) c : Prop := {
  sd_entry : cn_subscriptions c !! sub = Some i;
  sd_own id : cn_subscriptions c !! id = Some i → id = sub;
  sd_chan : ∃ ch, cn_channels c !! i = Some ch ∧ is_open ch ∧ sent ch = records;
}.

Lemma subscribed_start id filter after c r c' :
  subs_bounded c → subscribe_request id filter after c = (r, c') →
  subscribed id (length (cn_channels c)) [] c'.
Proof.
  intros HB (H1 & H2 & _)%subscribe_streams. split; rewrite ?H1, ?H2.
  - apply lookup_insert_eq.
  - intros id'. intros [[-> _]|[_ Hi%HB]]%lookup_insert_Some; [done|lia].
  - exists unbounded_channel. split_and!; [by apply list_lookup_middle|apply open_new|apply sent_new].
Qed.

Lemma subscribed_caller sub i records c c' :
  caller_step sub c c' → subscribed sub i records c → subscribed sub i records c'.
Proof.
  intros Hs [He Ho (ch & Hch & Hop & Hse)].
  assert (∀ c', same_streams c c' → subscribed sub i records c') as Hsame.
  { intros c2 [H1 H2]. split; rewrite ?H1, ?H2; eauto. }
  destruct Hs as [A S t msg r c c' Hr|id filter after r c c' Hne Hr|id resp r c c' Hne Hr
    |j rid elapsed r c c' Hr|t b r c c' Hr|j ch' c Hj].
  - by eapply Hsame, request_streams.
  - destruct (subscribe_streams _ _ _ _ _ _ Hr) as (H1 & H2 & _).
    apply lookup_lt_Some in Hch as Hlt. split; rewrite ?H1, ?H2.
    + by rewrite lookup_insert_ne.
    + intros id'. intros [[_ Hi]|[_ Hi]]%lookup_insert_Some; [lia|by apply Ho].
    + exists ch. split_and!; [by apply lookup_app_l_Some|done|done].
  - apply response_subs in Hr as [H1 [H2|[H2 Ht]]]; [by apply Hsame|].
    destruct Hne as [Hne|?]; [|done]. split; rewrite ?H1, ?H2.
    + by rewrite lookup_delete_ne.
    + intros id'. intros [_ Hi]%lookup_delete_Some. by apply Ho.
    + by exists ch.
  - by eapply Hsame, poll_streams.
  - by eapply Hsame, fire_streams.
  - assert (j ≠ i) as Hji by congruence. split; cbn; [done|done|].
    exists ch. by rewrite list_lookup_insert_ne.
Qed.

Lemma subscribed_route sub i records c f :
  subscribed sub i records c →
  subscribed sub i (records ++ option_list (record_for sub f)) (route_frame f c).
Proof.
  intros [He Ho (ch & Hch & Hop & Hse)]. destruct (route_subs c f) as [Hsub _].
  split; rewrite ?Hsub; [done|done|]. clear Hsub. unfold record_for, route_frame.
  destruct (tag f); cbn [option_list]; rewrite ?app_nil_r;
    try (exists ch; split; [|done]; by repeat case_match).
  destruct (decode_message f) as [msg|e]; cbn [option_list]; rewrite ?app_nil_r; [|by exists ch].
  case_decide as Hid; cbn [option_list]; rewrite ?app_nil_r.
  - rewrite Hid, He. cbn. unfold send_on. rewrite Hch.
    destruct (send_open ch (cm_record msg) Hop) as (ch' & Hs & Hop'). rewrite Hs. cbn.
    exists ch'. rewrite list_lookup_insert_eq by (by eapply lookup_lt_Some).
    split_and!; [done|done|]. by rewrite (send_ok _ _ _ Hs), Hse.
  - destruct (cn_subscriptions c !! cm_subscription_id msg) as [j|] eqn:Hj; [|by exists ch].
    cbn. exists ch. split; [|done]. unfold send_on.
    destruct (cn_channels c !! j) as [cj|] eqn:Hcj; [|done]. destruct (send cj _) as [r cj'].
    cbn. rewrite list_lookup_insert_ne; [done|]. intros ->. by apply Hid, Ho.
Qed.

(** The channel is given the records that the routed frames carry for it. *)
Lemma client_run_records sub i records c0 fs c :
  subscribed sub i records c0 → client_run sub c0 fs c →
  subscribed sub i (records ++ collected sub fs) c.
Proof.
  intros HS. induction 1 as [|fs f c _ IH|fs c c' _ IH Hs].
  - by rewrite app_nil_r.
  - unfold collected. rewrite omap_app, app_assoc. cbn.
    replace (match record_for sub f with Some y => [y] | None => [] end)
      with (option_list (record_for sub f)) by by destruct (record_for sub f).
    by apply subscribed_route.
  - by eapply subscribed_caller.
Qed.

(** *** Reading a subscription *)

Lemma subscribed_alive sub i records c : subscribed sub i records c → sender_alive i c = true.
Proof.
  intros [He _ _]. unfold sender_alive. apply existsb_exists. exists (sub, i).
  split; [|by apply bool_decide_eq_true]. by apply list_elem_of_In, elem_of_map_to_list.
Qed.

(** Polling a subscription hands out its records one by one, and waits after the
    last. *)
Lemma next_subscribed sub i records c k :
  subscribed sub i records c → k <= length records →
  next {| sn_id := sub; sn_receiver := i; sn_taken := k |} c
  = match records !! k with
    | Some r => (Some (Some r), {| sn_id := sub; sn_receiver := i; sn_taken := S k |})
    | None => (None, {| sn_id := sub; sn_receiver := i; sn_taken := k |})
    end.
Proof.
  intros HS Hk. pose proof (subscribed_alive _ _ _ _ HS) as Ha.
  destruct HS as [_ _ (ch & Hch & _ & Hs)]. unfold next. cbn. rewrite Hch. cbn. rewrite Hs.
  destruct (records !! k); [done|]. by rewrite Ha.
Qed.

(** After the end of the reader a subscription that was read to its end waits for
    ever: no frame arrives, and whatever the callers do its sender stays in the
    table. *)
Theorem dead_subscription_waits sub i records c c' :
  subscribed sub i records c → client_run sub (reader_exit c) [] c' →
  let s := {| sn_id := sub; sn_receiver := i; sn_taken := length records |} in
  next s c' = (None, s).
Proof.
  intros HS Hrun s.
  assert (subscribed sub i records (reader_exit c)) as HS1 by (destruct HS; by split).
  pose proof (client_run_records _ _ _ _ _ _ HS1 Hrun) as HS2. cbn in HS2. rewrite app_nil_r in HS2.
  unfold s. rewrite (next_subscribed _ _ _ _ _ HS2) by done. by rewrite lookup_ge_None_2.
Qed.

End client_side.

(** ** The server's side *)

Section server_side.
Context {SE : StorageEngine} {SO : StorageOk SE} {MP : Mpsc ChangeRecord} {MO : MpscOk ChangeRecord}.
Context {EN : Env} {EO : EnvOk EN}.
Context {WC : WireCodecs} {WO : WireCodecsOk WC} {FS : FrameSink} {FO : FrameSinkOk FS}.
Context {SV : ServerEnv} {JS : ToJson EntityState} {JR : ToJson (list TransitionRecord)}.
Context {RI : RequestIdCodec}.
Implicit Types (l : Live) (w : Forwarder) (sub : string).

Lemma record_for_plain sub f : plain f → record_for sub f = None.
Proof. unfold plain, record_for. by destruct (tag f). Qed.

Lemma record_for_carries sub sub' rec f :
  carries sub' rec f → record_for sub f = if decide (sub' = sub) then Some rec else None.
Proof. intros [Ht Hd]. unfold record_for. by rewrite Ht, Hd. Qed.

Lemma collected_carries sub records fs : Forall2 (carries sub) records fs → collected sub fs = records.
Proof.
  unfold collected. induction 1 as [|rec f records fs Hc _ IH]; [done|]. cbn.
  by rewrite (record_for_carries _ _ _ _ Hc), decide_True, IH.
Qed.

(** Each frame on the wire is a reply or carries a record for the subscription of
    its task. *)
Lemma wire_frame b defs fs0 n l who f :
  live_inv b defs fs0 n l → (who, f) ∈ lv_trace l →
  plain f ∨ ∃ i w rec, who = Some i ∧ lv_tasks l !! i = Some w ∧ carries (fw_sub w) rec f.
Proof.
  intros [_ Ht Hk _ Hp _] Hin. destruct who as [i|]; [right|by left; apply Hp].
  destruct (lookup_lt_is_Some_2 _ _ (Hk i f Hin)) as [w Hw].
  destruct (task_records _ _ _ _ (Ht i w Hw)) as (ch & records & _ & _ & Hcar & _).
  assert (f ∈ frames_of (Some i) (lv_trace l)) as Hf.
  { unfold frames_of. apply list_elem_of_fmap. exists (Some i, f). split; [done|].
    by apply list_elem_of_filter. }
  apply list_elem_of_lookup in Hf as [k Hf].
  destruct (Forall2_lookup_r _ _ _ _ _ Hcar Hf) as (rec & _ & Hc). by exists i, w, rec.
Qed.

(** What the wire carries for a subscription is what its task wrote. *)
Lemma collected_trace sub i (trace : list (option nat * Frame)) :
  (∀ who f, (who, f) ∈ trace → who ≠ Some i → record_for sub f = None) →
  collected sub trace.*2 = collected sub (frames_of (Some i) trace).
Proof.
  unfold collected, frames_of. induction trace as [|[who f] trace IH]; intros Hno; [done|].
  assert (∀ who f, (who, f) ∈ trace → who ≠ Some i → record_for sub f = None) as Hno'.
  { intros who' f' Hin. apply Hno. by right. }
  rewrite filter_cons. cbn. case_decide as Hw; cbn.
  - by rewrite IH.
  - rewrite (Hno who f) by (by left || done). by apply IH.
Qed.

(** No task, no records. *)
Lemma collected_fresh b defs fs0 n l sub :
  live_inv b defs fs0 n l → Forall (λ w, fw_sub w ≠ sub) (lv_tasks l) →
  collected sub (lv_trace l).*2 = [].
Proof.
  intros HV Hfresh. unfold collected.
  assert (∀ f, f ∈ (lv_trace l).*2 → record_for sub f = None) as Hno.
  { intros f ([who f'] & -> & Hin)%list_elem_of_fmap. cbn.
    destruct (wire_frame _ _ _ _ _ _ _ HV Hin) as [Hp|(i & w & rec & _ & Hw & Hc)];
      [by apply record_for_plain|].
    rewrite (record_for_carries _ _ _ _ Hc), decide_False; [done|].
    eapply Forall_lookup_1 in Hfresh; [|exact Hw]. done. }
  induction (lv_trace l).*2 as [|f fs IH]; [done|]. cbn. rewrite Hno by by left.
  apply IH. intros g Hg. apply Hno. by right.
Qed.

(** The Subscribe frame registers the subscription and spawns its task. *)
Lemma handled_subscribe b defs fs0 n l frame msg :
  live_inv b defs fs0 n l → tag frame = TSubscribe → decode_message frame = Ok msg →
  let rx := length (e_channels (c_engine (lv_conn l))) in
  task_id <$> lv_tasks (handled l frame)
    = (task_id <$> lv_tasks l) ++ [(sb_subscription_id msg, rx)]
  ∧ lv_registry (handled l frame) !! rx = Some (sb_machine_filter msg, sb_after_sequence msg).
Proof.
  intros [[a HI] _ _ _ _ _] Ht Hd rx. pose proof (st_len _ _ _ _ _ (i_streams _ _ _ _ _ _ HI)) as Hlen.
  unfold handled, receive. rewrite Ht. unfold handle_subscribe. rewrite Hd.
  rewrite (surjective_pairing (subscribe _ _ _ _)).
  assert (registered frame (lv_registry l)
    = lv_registry l ++ [(sb_machine_filter msg, sb_after_sequence msg)]) as Hreg.
  { unfold registered. by rewrite Ht, Hd. }
  destruct (encode_message TResult _) as [x|pe]; cbn; rewrite Hreg; unfold new_tasks; cbn;
    rewrite drop_app_length, fmap_app; (split; [done|]); by apply list_lookup_middle.
Qed.

(** The task is found wherever the connection goes from there. *)
Lemma subscription_task b defs (c0 : Conn) n k l l2 frame msg :
  live_reachable b defs c0 n l → lv_phase l = Reading → (N.of_nat (k + S n) < u64_max)%N →
  tag frame = TSubscribe → decode_message frame = Ok msg → live_later defs k (handled l frame) l2 →
  ∃ w, lv_tasks l2 !! length (lv_tasks l) = Some w ∧ fw_sub w = sb_subscription_id msg
    ∧ lv_registry l2 !! fw_rx w = Some (sb_machine_filter msg, sb_after_sequence msg)
    ∧ live_inv b defs (written (c_sink c0)) (k + S n) l2.
Proof.
  intros HR Hph Hn Htag Hdec HL.
  pose proof (live_reachable_inv b defs c0 n l HR ltac:(lia)) as HV.
  destruct (handled_subscribe _ _ _ _ _ _ _ HV Htag Hdec) as [Hids Hreg].
  set (rx := length (e_channels (c_engine (lv_conn l)))) in *.
  assert (live_reachable b defs c0 (S n) (handled l frame)) as HR1.
  { eapply live_next; [exact HR|]. apply lv_frame; [done|]. unfold admissible. by rewrite Htag. }
  destruct (live_later_keeps b defs c0 (S n) k _ _ HR1 ltac:(lia) HL) as [[ids' Hids'] [reg' Hreg']].
  assert ((task_id <$> lv_tasks l2) !! length (lv_tasks l) = Some (sb_subscription_id msg, rx)) as Hid.
  { rewrite Hids', Hids, <- app_assoc. apply list_lookup_middle. by rewrite length_fmap. }
  apply list_lookup_fmap_Some in Hid as (w & Hw1 & Hw2). injection Hw1 as Hsub Hrx.
  exists w. split_and!; [done|done| |].
  - rewrite Hreg', <- Hrx. by apply lookup_app_l_Some.
  - apply live_reachable_inv; [by eapply live_reachable_later|lia].
Qed.

(** ** Result *)

(** C10. A subscription from the commit to the caller. A client calls subscribe
    under an identifier that is new on the connection; the server takes the
    frame the client wrote; then server, dispatcher, other connections and other
    tasks go on in any order, the network hands the client a prefix [fs] of what
    the server wrote since, and the client's reader and callers go on in any
    order. While the subscription is held, what its channel was given is one
    change record for each wanted record of the log after the requested sequence
    up to some cursor, in order, without gap or repetition, whatever else shares
    the connection; and it is all that the engine delivered when the forwarding
    task is idle and nothing is in flight. *)
Theorem subscription_end_to_end b defs m (cl cl1 cl2 : Connection) sub filter after x frame
    (c0 : Conn) n k l l2 fs rest :
  client_reach m cl → subscribe_request sub filter after cl = (Ok x, cl1) →
  written (cn_writer cl1) = written (cn_writer cl) ++ [frame] →
  live_reachable b defs c0 n l → lv_phase l = Reading → Forall (λ w, fw_sub w ≠ sub) (lv_tasks l) →
  live_later defs k (handled l frame) l2 → (N.of_nat (k + S n) < u64_max)%N → (after < u64_max)%N →
  (∀ i w, lv_tasks l2 !! i = Some w → fw_sub w = sub → i = length (lv_tasks l)) →
  (lv_trace l2).*2 = (lv_trace l).*2 ++ fs ++ rest → client_run sub cl1 fs cl2 →
  ∃ a cursor ch w chs, holds (e_storage (c_engine (lv_conn l2))) a
    ∧ cn_channels cl2 !! length (cn_channels cl) = Some ch
    ∧ Forall2 (delivered_as b a) (wanted filter (slice after cursor (a_log a))) (sent ch)
    ∧ lv_tasks l2 !! length (lv_tasks l) = Some w ∧ fw_sub w = sub
    ∧ e_channels (c_engine (lv_conn l2)) !! fw_rx w = Some chs ∧ sent ch `prefix_of` sent chs
    ∧ (rest = [] → fw_task w = Receiving → fw_taken w = length (sent chs) → sent ch = sent chs).
Proof.
  intros Hcl Hreq Hwr HR Hph Hfresh HL Hn Hafter Huniq Htr Hrun.
  destruct (subscribe_streams _ _ _ _ _ _ Hreq) as (_ & _ & Hsent).
  destruct (Hsent eq_refl) as (f & Hf & Htag & Hdec). clear Hsent.
  pose proof (app_inj_written _ _ _ _ Hf Hwr) as Hframe. injection Hframe as ->.
  pose proof (live_reachable_inv b defs c0 n l HR ltac:(lia)) as HV.
  destruct (subscription_task _ _ _ _ _ _ _ _ _ HR Hph Hn Htag Hdec HL)
    as (w & Hw & Hsub & Hr2 & HV2). cbn in Hsub, Hr2.
  destruct (task_records _ _ _ _ (li_tasks _ _ _ _ _ HV2 _ _ Hw))
    as (chs & records & Hchs & Hpre & Hcar & Hidle).
  assert (collected sub fs ++ collected sub rest = records) as Hcol.
  { rewrite <- (collected_carries _ _ _ Hcar), Hsub, <- (collected_trace sub).
    - rewrite Htr. unfold collected. rewrite !omap_app. fold (collected sub (lv_trace l).*2).
      by rewrite (collected_fresh _ _ _ _ _ _ HV Hfresh).
    - intros who g Hin Hne. destruct (wire_frame _ _ _ _ _ _ _ HV2 Hin) as [Hp|(i & v & rec & -> & Hv & Hc)];
        [by apply record_for_plain|].
      rewrite (record_for_carries _ _ _ _ Hc), decide_False; [done|].
      intros Heq. apply Hne. f_equal. by eapply Huniq. }
  destruct (client_run_records _ _ _ _ _ _
    (subscribed_start _ _ _ _ _ _ (reach_subs_bounded _ _ Hcl) Hreq) Hrun) as [_ _ (ch & Hch & _ & Hsent)].
  cbn in Hsent. destruct (li_inv _ _ _ _ _ HV2) as [a HI].
  destruct (st_chan _ _ _ _ _ (i_streams _ _ _ _ _ _ HI) _ chs filter after Hchs Hr2 Hafter)
    as (cursor & _ & _ & HF).
  assert (sent ch `prefix_of` sent chs) as Hp.
  { rewrite Hsent. etrans; [|exact Hpre]. rewrite <- Hcol. by eexists. }
  destruct (stream_upto b a filter after cursor _ _ (holds_wf _ _ (i_holds _ _ _ _ _ _ HI)) HF Hp)
    as [cursor' HF'].
  exists a, cursor', ch, w, chs. split_and!; try done; [apply HI|].
  intros -> Hw1 Hw2. rewrite Hsent, <- (Hidle Hw1 Hw2), <- Hcol. by rewrite app_nil_r.
Qed.

End server_side.
