(* ===== verification/EndToEndExamples.v ===== *)
(** * A subscription from commit to client, at work

    The connection of [LiveExamples] seen from the client: it subscribes, and its
    reader gets the change record before the answer to its request. *)
From S2P Require Import Prelude Core Redb Keys Storage StorageSpec StorageTrait Channel Engine.
From S2P Require Import EngineSpec EngineRun Dispatch System Concrete EngineExamples Frame Messages Wire.
From S2P Require Import WireProps WireExamples Live LiveProps LiveExamples Sdk SdkProps SdkExamples EndToEnd.
Import Demo DemoWire.

#[local] Existing Instance demo_request_id.

(** The client after its call, and after its reader got the record. *)
Definition caller1 : Connection := (subscribe_request "w" (Some "document") 0 client0).2.
Definition caller2 : Connection := route_frame (the_frame live4) caller1.

Lemma subscription_end_to_end_witness :
  ∃ f ch chs record, (lv_trace live6).*2 = [the_frame live4; f]
    ∧ cn_channels (route_frame f caller2) !! 0 = Some ch ∧ sent ch = [record]
    ∧ e_channels (c_engine (lv_conn live6)) !! 0 = Some chs ∧ sent chs = [record].
Proof.
  destruct live6_state as (Hs5 & Hs6 & Htasks & Hreg & g & Htr).
  destruct live4_task as (_ & _ & _ & Hrx & Htk & _).
  assert (written (cn_writer caller1) = written (cn_writer client0) ++ [subscribe_frame]) as Hwr
    by (vm_compute; reflexivity).
  destruct (subscribe_request "w" (Some "document") 0 client0) as [r cl1] eqn:Hreq.
  assert (cl1 = caller1) as -> by (unfold caller1; rewrite Hreq; reflexivity).
  assert (is_ok r = true) as Hok.
  { apply (f_equal fst) in Hreq. cbn [fst] in Hreq. rewrite <- Hreq. vm_compute. reflexivity. }
  destruct r as [x|err]; [|discriminate Hok].
  destruct (subscription_end_to_end true only_document 0 client0 caller1 (route_frame g caller2) "w" (Some "document")
    0%N x subscribe_frame (conn (run0 [])) 1 5 live0 live6 [the_frame live4; g] [])
    as (a & cursor & ch & w & chs & _ & Hch & _ & Hw & _ & Hchs & _ & Hall).
  - apply cr_new.
  - exact Hreq.
  - exact Hwr.
  - apply live_init; [by apply run0_reach|reflexivity].
  - reflexivity.
  - constructor.
  - eapply later_next; [|exact Hs6]. eapply later_next; [|exact Hs5].
    eapply later_next; [|exact live4_step]. eapply later_next; [|exact live3_step].
    eapply later_next; [|exact live2_step]. apply later_here.
  - reflexivity.
  - reflexivity.
  - intros i v Hi _. rewrite Htasks in Hi. apply lookup_lt_Some in Hi.
    cbn [length] in Hi.
    cbn [live0 live_open lv_tasks length]. lia.
  - rewrite Htr. reflexivity.
  - apply (run_frame "w" caller1 [the_frame live4] g caller2).
    apply (run_frame "w" caller1 [] (the_frame live4) caller1), run_start.
  - rewrite Htasks in Hw. cbn [live0 live_open lv_tasks length] in Hw.
    injection Hw as <-. cbn [set_task fw_rx fw_task fw_taken] in Hchs, Hall. rewrite Hrx in Hchs.
    change (length (cn_channels client0)) with 0 in Hch.
    destruct live3_channel as (ch3 & Hch3 & Hl3).
    assert (chs = ch3) as -> by (rewrite live6_engine, Hch3 in Hchs; congruence).
    assert (sent ch = sent ch3) as Heq by (apply Hall; [reflexivity|reflexivity|rewrite Hl3; exact Htk]).
    destruct (sent ch3) as [|rec [|rec' recs]] eqn:Hrec; [discriminate Hl3| |discriminate Hl3].
    exists g, ch, ch3, rec. rewrite Htr. split_and!; [reflexivity|exact Hch|exact Heq|exact Hchs|exact Hrec].
Defined.
