(* ===== verification/Smash.v ===== *)
(** * smash: the interactive shell

    Models [crates/smash/src/main.rs]: the tokenizer, the command parser, the
    executor over a local [Engine], the read-eval-print loop and the one-shot
    mode. Printed text is the list of the strings given to [println!], one
    element a call. The class [Shell] holds what the shell takes from its
    libraries and its host: serde_json's readers, the file system, chrono's
    formatter and the Unicode tables of [to_lowercase]. *)
From S2P Require Import Prelude Keys Text Core Storage StorageTrait Channel Engine Messages.
From Stdlib Require Import Strings.Ascii.

(** ** Commands *)

Module Cmd.

Inductive Cmd : Type :=
| Transition (entity_id machine event actor : string) (ctx : Value) (expect_version : option N)
| Current (entity_id machine : string)
| History (entity_id machine : string) (limit : option N)
| Define (source : string)
| ListMachines
| DescribeMachine (name : string)
| DescribeEntity (entity_id : string)
| Help
| Quit
| Empty.

End Cmd.
Abbreviation Cmd := Cmd.Cmd.

Class Shell : Type := {
  json_value : string → Res Value string;
  json_machine : string → Res MachineDefinition string;
  fs_read_to_string : string → Res string string;
  format_time : string → Time → string;
  to_lowercase : string → string;
}.

(** [to_lowercase] on ASCII text; serde_json reads the empty object. *)
Definition ascii_lower (a : ascii) : ascii :=
  let n := N_of_ascii a in
  if ((65 <=? n) && (n <=? 90))%N then ascii_of_N (n + 32) else a.
Fixpoint string_lower (s : string) : string :=
  match s with
  | EmptyString => EmptyString
  | String a s => String (ascii_lower a) (string_lower s)
  end.
Fixpoint is_ascii (s : string) : bool :=
  match s with
  | EmptyString => true
  | String a s => (N_of_ascii a <? 128)%N && is_ascii s
  end.

Class ShellOk (SH : Shell) : Prop := {
  to_lowercase_ascii s : is_ascii s = true → to_lowercase s = string_lower s;
}.

(** ** Tokenizer *)

Definition quote_char : ascii := "'".
Definition is_blank (c : ascii) : bool := (c =? " ")%char || (c =? "009")%char.

(** [if !current.is_empty() { tokens.push(current) }]. *)
Definition push_token (tokens : list string) (current : string) : list string :=
  match current with EmptyString => tokens | _ => tokens ++ [current] end.

(** The loop, with its three variables. *)
Fixpoint tokenize_loop (tokens : list string) (current : string) (in_single_quote : bool)
    (input : string) : list string :=
  match input with
  | EmptyString => push_token tokens current
  | String c input =>
      if (c =? quote_char)%char && negb in_single_quote then
        tokenize_loop tokens current true input
      else if (c =? quote_char)%char && in_single_quote then
        tokenize_loop tokens current false input
      else if is_blank c && negb in_single_quote then
        tokenize_loop (push_token tokens current) EmptyString false input
      else tokenize_loop tokens (current +:+ String c EmptyString) in_single_quote input
  end.

Definition tokenize (input : string) : list string := tokenize_loop [] EmptyString false input.

(** ** Parser *)

Section shell.
Context {SH : Shell}.

Definition usage_transition : string :=
  "usage: transition <entity_id> <machine> <event> [--actor NAME] [--ctx '{}'] [--expect-version N]".
Definition usage_history : string := "usage: history <entity_id> <machine> [--limit N]".

(** The options of [transition]; [ts] is what follows the position [i]. *)
Fixpoint transition_options (actor : string) (ctx : Value) (expect_version : option N)
    (ts : list string) : Res (string * Value * option N) string :=
  match ts with
  | [] => Ok (actor, ctx, expect_version)
  | t :: ts =>
      if decide (t = "--actor") then
        match ts with
        | [] => Err "--actor requires a value"
        | v :: ts => transition_options v ctx expect_version ts
        end
      else if decide (t = "--ctx") then
        match ts with
        | [] => Err "--ctx requires a JSON value"
        | v :: ts =>
            match json_value v with
            | Ok ctx => transition_options actor ctx expect_version ts
            | Err e => Err ("invalid JSON for --ctx: " +:+ e)
            end
        end
      else if decide (t = "--expect-version" ∨ t = "--expected-version") then
        match ts with
        | [] => Err "--expect-version requires a number"
        | v :: ts =>
            match parse_uint u64_max v with
            | Some n => transition_options actor ctx (Some n) ts
            | None => Err ("'" +:+ v +:+ "' is not a valid version number")
            end
        end
      else Err ("unexpected argument: '" +:+ t +:+ "'")
  end.

Definition parse_transition (tokens : list string) : Res Cmd string :=
  match tokens with
  | _ :: entity_id :: machine :: event :: options =>
      match transition_options "smash" (VObject []) None options with
      | Ok (actor, ctx, expect_version) =>
          Ok (Cmd.Transition entity_id machine event actor ctx expect_version)
      | Err e => Err e
      end
  | _ => Err usage_transition
  end.

Definition parse_current (tokens : list string) : Res Cmd string :=
  match tokens with
  | _ :: entity_id :: machine :: _ => Ok (Cmd.Current entity_id machine)
  | _ => Err "usage: current <entity_id> <machine>"
  end.

Fixpoint history_options (limit : option N) (ts : list string) : Res (option N) string :=
  match ts with
  | [] => Ok limit
  | t :: ts =>
      if decide (t = "--limit" ∨ t = "-l" ∨ t = "-n") then
        match ts with
        | [] => Err "--limit requires a number"
        | v :: ts =>
            match parse_uint u32_max v with
            | Some n => history_options (Some n) ts
            | None => Err ("'" +:+ v +:+ "' is not a valid limit")
            end
        end
      else Err ("unexpected argument: '" +:+ t +:+ "'")
  end.

Definition parse_history (tokens : list string) : Res Cmd string :=
  match tokens with
  | _ :: entity_id :: machine :: options =>
      match history_options None options with
      | Ok limit => Ok (Cmd.History entity_id machine limit)
      | Err e => Err e
      end
  | _ => Err usage_history
  end.

Definition parse_define (tokens : list string) : Res Cmd string :=
  match tokens with
  | _ :: rest => match rest with
                 | [] => Err "usage: define <json_string_or_@file>"
                 | _ => Ok (Cmd.Define (join " " rest))
                 end
  | [] => Err "usage: define <json_string_or_@file>"
  end.

(** The argument of [\machine] and [\entity]. *)
Definition meta_argument (usage : string) (arg : option string) (k : string → Cmd)
    : Res Cmd string :=
  match arg with
  | None => Err usage
  | Some rest => if decide (trim rest = EmptyString) then Err usage else Ok (k (trim rest))
  end.

Definition parse_meta (rest : string) : Res Cmd string :=
  let '(word, arg) := splitn2 " " rest in
  if decide (word = "machines") then Ok Cmd.ListMachines
  else if decide (word = "machine") then
    meta_argument "usage: \machine <name>" arg Cmd.DescribeMachine
  else if decide (word = "entity") then
    meta_argument "usage: \entity <entity_id>" arg Cmd.DescribeEntity
  else if decide (word ∈ ["help"; "h"; "?"]) then Ok Cmd.Help
  else if decide (word ∈ ["quit"; "q"; "exit"]) then Ok Cmd.Quit
  else Err ("unknown meta-command: \" +:+ word).

(** The commands proper, by their first token. *)
Definition parse_data (tokens : list string) : Res Cmd string :=
  match tokens with
  | [] => Ok Cmd.Empty
  | t :: _ =>
      let word := to_lowercase t in
      if decide (word ∈ ["transition"; "tr"]) then parse_transition tokens
      else if decide (word ∈ ["current"; "cur"]) then parse_current tokens
      else if decide (word ∈ ["history"; "hist"]) then parse_history tokens
      else if decide (word ∈ ["define"; "def"]) then parse_define tokens
      else if decide (word ∈ ["quit"; "exit"; "q"]) then Ok Cmd.Quit
      else if decide (word ∈ ["help"; "h"; "?"]) then Ok Cmd.Help
      else Err ("unknown command: '" +:+ word +:+ "'. Type \help for commands.")
  end.

Definition parse_command (input : string) : Res Cmd string :=
  let trimmed := trim input in
  if decide (trimmed = EmptyString) then Ok Cmd.Empty
  else if strip_char "#" trimmed is Some _ then Ok Cmd.Empty
  else if strip_char "\" trimmed is Some rest then parse_meta rest
  else parse_data (tokenize trimmed).

End shell.

(** ** Display *)

(** The states, transitions and effects of a machine. *)
Definition machine_body (m : MachineDefinition) : list string :=
  ["States (" +:+ pretty (length (md_states m)) +:+ "):"]
  ++ ((λ s, "  " +:+ (if decide (s = md_initial_state m) then " *" else "  ") +:+ s)
        <$> md_states m)
  ++ ["Transitions (" +:+ pretty (length (md_transitions m)) +:+ "):"]
  ++ ((λ t,
        let guards := match rule_guards t with
                      | [] => EmptyString
                      | gs => "  [guards: " +:+ join ", " gs +:+ "]"
                      end in
        "  " +:+ pad_right 20 (rule_event t) +:+ " "
        +:+ pad_right 30 ("[" +:+ join ", " (rule_from_states t) +:+ "]") +:+ " -> "
        +:+ rule_to_state t +:+ guards)
        <$> md_transitions m)
  ++ match md_effects m with
     | [] => []
     | es => ("Effects (" +:+ pretty (length es) +:+ "):")
             :: ((λ e, "  on '" +:+ er_on_event e +:+ "' -> emit '" +:+ er_effect e +:+ "'") <$> es)
     end.

Definition print_machine (m : MachineDefinition) : list string :=
  ["Machine:      " +:+ md_name m;
   "Version:      " +:+ pretty (md_version m);
   "Initial:      " +:+ md_initial_state m]
  ++ machine_body m.

Definition print_help : list string :=
  [join newline
    [EmptyString;
     "smash — StateMaster interactive shell";
     EmptyString;
     "Data commands:";
     "  transition <entity_id> <machine> <event>";
     "             [--actor NAME] [--ctx '{" +:+ quote +:+ "k" +:+ quote +:+ ":" +:+ quote +:+ "v"
       +:+ quote +:+ "}'] [--expect-version N]";
     "  current    <entity_id> <machine>";
     "  history    <entity_id> <machine> [--limit N]";
     "  define     <json_string>    -- inline JSON MachineDefinition";
     "  define     @<file>          -- load MachineDefinition from file";
     EmptyString;
     "Meta commands:";
     "  \machines            list all machine definitions";
     "  \machine <name>      describe a specific machine";
     "  \entity  <id>        show all machine states for an entity";
     "  \help | \h | \?      show this help";
     "  \quit | \q | \exit   exit smash";
     EmptyString;
     "Shortcuts:";
     "  tr  = transition";
     "  cur = current";
     "  hist = history";
     "  def = define";
     EmptyString]].

(** ** Executor *)

Section execute.
Context {SE : StorageEngine} {MP : Mpsc ChangeRecord} {EN : Env} {SH : Shell}.

(** What was printed, the result ([Ok(false)] quits; an error is its chain of
    messages) and the engine afterwards. *)
Record Outcome : Type := {
  o_printed : list string;
  o_result : Res bool (list string);
  o_engine : Engine;
}.

Definition outcome (printed : list string) (e : Engine) : Outcome :=
  {| o_printed := printed; o_result := Ok true; o_engine := e |}.

Definition rule_line (n : nat) : string := repeat_str "-" n.

Definition machine_row (m : MachineDefinition) : string :=
  pad_right 30 (md_name m) +:+ " " +:+ pad_left 7 (pretty (md_version m)) +:+ "  "
  +:+ md_initial_state m.

Definition print_machines (machines : list MachineDefinition) : list string :=
  match machines with
  | [] => ["No machines defined."]
  | _ =>
      [pad_right 30 "Name" +:+ " " +:+ pad_left 7 "Version" +:+ "  Initial State"; rule_line 60]
      ++ (machine_row <$> machines)
      ++ [newline +:+ pretty (length machines) +:+ " machine(s)"]
  end.

(** The loop over the machines: the rows, and whether a state was found. *)
Fixpoint entity_rows (entity_id : string) (machines : list MachineDefinition) (e : Engine)
    : list string * bool * Engine :=
  match machines with
  | [] => ([], false, e)
  | m :: rest =>
      let '(r, e) := current entity_id (md_name m) e in
      let '(rows, found_any, e) := entity_rows entity_id rest e in
      match r with
      | Ok state =>
          (("  " +:+ pad_right 30 (md_name m) +:+ "  state="
            +:+ pad_right 20 (es_current_state state) +:+ "  v=" +:+ pretty (es_version state))
           :: rows, true, e)
      | Err _ =>
          (("  " +:+ pad_right 30 (md_name m) +:+ "  state="
            +:+ pad_right 20 (md_initial_state m) +:+ "  (not started)")
           :: rows, found_any, e)
      end
  end.

Definition describe_entity (entity_id : string) (machines : list MachineDefinition) (e : Engine)
    : Outcome :=
  match machines with
  | [] => outcome ["No machines defined."] e
  | _ =>
      let '(rows, found_any, e) := entity_rows entity_id machines e in
      outcome (["Entity: " +:+ entity_id; rule_line 60] ++ rows
               ++ (if found_any : bool then []
                   else ["No state records found for entity '" +:+ entity_id +:+ "'."])) e
  end.

Definition print_state (state : EntityState) : list string :=
  ["Entity:    " +:+ es_entity_id state;
   "Machine:   " +:+ es_machine state;
   "State:     " +:+ es_current_state state;
   "Version:   " +:+ pretty (es_version state);
   "Updated:   " +:+ format_time "%Y-%m-%d %H:%M:%S UTC" (es_updated_at state)].

Definition record_row (r : TransitionRecord) : string :=
  pad_left 8 (pretty (rec_sequence r)) +:+ "  "
  +:+ pad_right 20 (format_time "%Y-%m-%d %H:%M:%S" (rec_timestamp r)) +:+ "  "
  +:+ pad_right 20 (rec_event r) +:+ "  " +:+ pad_right 20 (rec_from_state r) +:+ "  "
  +:+ pad_right 20 (rec_to_state r) +:+ "  " +:+ rec_actor r.

Definition print_history (entity_id machine : string) (records : list TransitionRecord)
    : list string :=
  match records with
  | [] => ["No history for '" +:+ entity_id +:+ "' in '" +:+ machine +:+ "'."]
  | _ =>
      [pad_left 8 "Seq" +:+ "  " +:+ pad_right 20 "Timestamp" +:+ "  " +:+ pad_right 20 "Event"
       +:+ "  " +:+ pad_right 20 "From" +:+ "  " +:+ pad_right 20 "To" +:+ "  Actor";
       rule_line 100]
      ++ (record_row <$> records)
      ++ [newline +:+ pretty (length records) +:+ " record(s)"]
  end.

Definition print_error (err : EngineError) : list string := ["Error: " +:+ show_engine err].

(** The text of a definition: given, or read from the file after ['@']. *)
Definition define_source (source : string) : Res string (list string) :=
  match strip_char "@" source with
  | Some path => map_err (λ why, ["reading file '" +:+ path +:+ "'"; why]) (fs_read_to_string path)
  | None => Ok source
  end.

Definition execute_define (source : string) (e : Engine) : Outcome :=
  match define_source source with
  | Err chain => {| o_printed := []; o_result := Err chain; o_engine := e |}
  | Ok json_str =>
      match json_machine json_str with
      | Ok def =>
          match define_machine def e with
          | (Ok _, e) => outcome ["Machine '" +:+ md_name def +:+ "' defined."] e
          | (Err err, e) => outcome (print_error err) e
          end
      | Err why => outcome ["Invalid MachineDefinition JSON: " +:+ why] e
      end
  end.

Definition print_result (r : TransitionResult) : list string :=
  ["OK  " +:+ tr_from_state r +:+ " -> " +:+ tr_to_state r +:+ "  (v" +:+ pretty (tr_version r)
   +:+ ", seq " +:+ pretty (tr_sequence r) +:+ ")"].

(** A call whose error is printed. *)
Definition report {A} (print : A → list string) (m : St Engine EngineError A) (e : Engine)
    : Outcome :=
  match m e with
  | (Ok x, e) => outcome (print x) e
  | (Err err, e) => outcome (print_error err) e
  end.

(** [engine.list_machines().context("listing machines")?] and what follows. *)
Definition with_machines (k : list MachineDefinition → Engine → Outcome) (e : Engine) : Outcome :=
  match list_machines e with
  | (Ok machines, e) => k machines e
  | (Err err, e) =>
      {| o_printed := []; o_result := Err ("listing machines" :: chain_engine err);
         o_engine := e |}
  end.

Definition execute (cmd : Cmd) (e : Engine) : Outcome :=
  match cmd with
  | Cmd.Empty => outcome [] e
  | Cmd.Quit => {| o_printed := ["Goodbye."]; o_result := Ok false; o_engine := e |}
  | Cmd.Help => outcome print_help e
  | Cmd.ListMachines => with_machines (λ machines, outcome (print_machines machines)) e
  | Cmd.DescribeMachine name => report print_machine (get_machine name) e
  | Cmd.DescribeEntity entity_id => with_machines (describe_entity entity_id) e
  | Cmd.Current entity_id machine => report print_state (current entity_id machine) e
  | Cmd.History entity_id machine limit =>
      report (print_history entity_id machine) (history entity_id machine limit None) e
  | Cmd.Define source => execute_define source e
  | Cmd.Transition entity_id machine event actor ctx expect_version =>
      report print_result (transition entity_id machine event actor ctx expect_version None) e
  end.

(** ** The loop *)

(** What [readline] returns. *)
Inductive Readline : Type :=
| Line (line : string)
| Interrupted
| Eof
| ReadFailure (why : string).

(** One round: what it prints, whether the loop goes on, the engine. *)
Definition repl_round (input : Readline) (e : Engine) : list string * bool * Engine :=
  match input with
  | Line line =>
      match parse_command line with
      | Ok cmd =>
          let o := execute cmd e in
          match o_result o with
          | Ok continue => (o_printed o, continue, o_engine o)
          | Err chain => (o_printed o ++ ["Error: " +:+ alternate chain], true, o_engine o)
          end
      | Err msg => (["Parse error: " +:+ msg], true, e)
      end
  | Interrupted => (["^C"], true, e)
  | Eof => ([newline +:+ "Goodbye."], false, e)
  | ReadFailure why => (["Readline error: " +:+ why], false, e)
  end.

(** The loop over the inputs: what it prints, whether it has ended, the engine. *)
Fixpoint repl_loop (inputs : list Readline) (e : Engine) : list string * bool * Engine :=
  match inputs with
  | [] => ([], false, e)
  | input :: rest =>
      match repl_round input e with
      | (printed, true, e) =>
          let '(printed', ended, e) := repl_loop rest e in (printed ++ printed', ended, e)
      | (printed, false, e) => (printed, true, e)
      end
  end.

Definition run_repl (editor : Res unit string) (inputs : list Readline) (e : Engine)
    : Res (list string * bool) (list string) * Engine :=
  match editor with
  | Err why => (Err ["initializing readline"; why], e)
  | Ok _ =>
      let '(printed, ended, e) := repl_loop inputs e in
      (Ok ("smash — StateMaster shell (type \help for commands, \quit to exit)" :: printed, ended),
       e)
  end.

(** ** The program *)

(** [-c]: standard output, standard error and the exit status. *)
Definition one_shot (command : string) (e : Engine) : list string * list string * N * Engine :=
  match parse_command command with
  | Ok cmd =>
      let o := execute cmd e in
      match o_result o with
      | Ok _ => (o_printed o, [], 0%N, o_engine o)
      | Err chain => (o_printed o, ["Error: " +:+ alternate chain], 1%N, o_engine o)
      end
  | Err msg => ([], ["Parse error: " +:+ msg], 1%N, e)
  end.

(** Before the engine exists: the data directory and the database. *)
Definition open_engine (data_dir : string) (mkdir : Res unit string)
    (opened : Res store StorageError) (clock uuids : nat) : Res Engine (list string) :=
  match mkdir with
  | Err why => Err ["creating data dir '" +:+ data_dir +:+ "'"; why]
  | Ok _ =>
      match opened with
      | Err err =>
          Err (("opening database at '" +:+ path_join data_dir "statemaster.redb" +:+ "'")
               :: chain_storage err)
      | Ok d => Ok (new d clock uuids)
      end
  end.

Record Args : Type := {
  arg_addr : string;
  arg_token : option string;
  arg_data_dir : string;
  arg_command : option string;
}.

(** Standard output, standard error, and the exit status once there is one. *)
Record Process : Type := {
  pr_stdout : list string;
  pr_stderr : list string;
  pr_status : option N;
}.

(** [mkdir], [opened], [editor] and [inputs] are what the host answers. *)
Definition main (args : Args) (mkdir : Res unit string) (opened : Res store StorageError)
    (clock uuids : nat) (editor : Res unit string) (inputs : list Readline)
    : Res (Process * Engine) (list string) :=
  match open_engine (arg_data_dir args) mkdir opened clock uuids with
  | Err chain => Err chain
  | Ok e =>
      match arg_command args with
      | Some command =>
          let '(out, err, status, e) := one_shot command e in
          Ok ({| pr_stdout := out; pr_stderr := err; pr_status := Some status |}, e)
      | None =>
          match run_repl editor inputs e with
          | (Err chain, _) => Err chain
          | (Ok (printed, ended), e) =>
              Ok ({| pr_stdout := printed; pr_stderr := [];
                     pr_status := if ended : bool then Some 0%N else None |}, e)
          end
      end
  end.

End execute.
