(* ===== verification/SmashProps.v ===== *)
(** * Properties of the shell: tokens, commands, sessions *)
From S2P Require Import Prelude Keys Text Core Storage StorageSpec StorageTrait Channel Engine EngineSpec EngineRun Dispatch System.
From S2P Require Import Messages Smash.
From Stdlib Require Import Strings.Ascii.

(** ** The tokenizer against a reference

    The reference cuts the line at the quotes, so that its pieces lie outside
    and inside quotes in turn; it cuts the outer pieces at blanks, glues each
    piece to its neighbours and drops the empty words. *)

Fixpoint split_blanks (s : string) : list string :=
  match s with
  | EmptyString => [EmptyString]
  | String a s =>
      if is_blank a then EmptyString :: split_blanks s
      else match split_blanks s with
           | [] => [String a EmptyString]
           | w :: ws => String a w :: ws
           end
  end.

(** The last word of [l] and the first of [r] become one. *)
Fixpoint glue (l r : list string) : list string :=
  match l with
  | [] => r
  | [x] => match r with [] => [x] | y :: r => (x +:+ y) :: r end
  | x :: l => x :: glue l r
  end.

Fixpoint glue_pieces (inside : bool) (pieces : list string) : list string :=
  match pieces with
  | [] => []
  | p :: ps => glue (if inside then [p] else split_blanks p) (glue_pieces (negb inside) ps)
  end.

Definition raw_words (inside : bool) (s : string) : list string :=
  glue_pieces inside (split quote_char s).
Definition tokenize_reference (s : string) : list string :=
  filter (λ w, w ≠ EmptyString) (raw_words false s).

Lemma split_blanks_nonempty s : split_blanks s ≠ [].
Proof. destruct s as [|a s]; cbn; [done|]. by repeat case_match. Qed.

Lemma glue_nonempty l r : l ≠ [] → glue l r ≠ [].
Proof. destruct l as [|x [|y l]]; [done| |done]. by destruct r. Qed.

Lemma raw_words_nonempty q s : raw_words q s ≠ [].
Proof.
  unfold raw_words. pose proof (split_nonempty quote_char s) as Hs.
  destruct (split quote_char s) as [|p ps]; [done|]. apply glue_nonempty.
  destruct q; [done|apply split_blanks_nonempty].
Qed.

Lemma raw_words_quote q s : raw_words q (String quote_char s) = raw_words (negb q) s.
Proof.
  unfold raw_words. cbn [split]. rewrite Ascii.eqb_refl. cbn [glue_pieces].
  pose proof (raw_words_nonempty (negb q) s) as Hs. unfold raw_words in Hs.
  destruct (glue_pieces (negb q) (split quote_char s)); [done|]. by destruct q.
Qed.

Lemma raw_words_blank a s :
  is_blank a = true → (a =? quote_char)%char = false →
  raw_words false (String a s) = EmptyString :: raw_words false s.
Proof.
  intros Hb Hq. unfold raw_words. cbn [split]. rewrite Hq.
  pose proof (split_nonempty quote_char s) as Hs.
  destruct (split quote_char s) as [|p ps]; [done|]. cbn [glue_pieces split_blanks]. rewrite Hb.
  pose proof (split_blanks_nonempty p). by destruct (split_blanks p).
Qed.

(** Any other byte goes to the first word. *)
Lemma raw_words_byte q a s :
  negb (is_blank a) || q = true → (a =? quote_char)%char = false →
  ∃ w ws, raw_words q s = w :: ws ∧ raw_words q (String a s) = String a w :: ws.
Proof.
  intros Hb Hq. unfold raw_words. cbn [split]. rewrite Hq.
  pose proof (split_nonempty quote_char s) as Hs.
  destruct (split quote_char s) as [|p ps]; [done|]. destruct q; cbn [glue_pieces split_blanks].
  - cbn [glue negb]. destruct (glue_pieces false ps) as [|y r]; eauto.
  - rewrite orb_false_r in Hb. apply negb_true_iff in Hb. rewrite Hb.
    pose proof (split_blanks_nonempty p). destruct (split_blanks p) as [|x [|x' l]]; [done| |];
      cbn [glue negb]; [|eauto]. destruct (glue_pieces true ps) as [|y r]; eauto.
Qed.

Lemma push_token_filter ts cur :
  push_token ts cur = ts ++ filter (λ w, w ≠ EmptyString) [cur].
Proof. destruct cur; cbn; [by rewrite app_nil_r|done]. Qed.

Lemma tokenize_loop_reference ts cur q s :
  tokenize_loop ts cur q s
  = ts ++ filter (λ w, w ≠ EmptyString) (glue [cur] (raw_words q s)).
Proof.
  revert ts cur q. induction s as [|a s IH]; intros ts cur q.
  - cbn [tokenize_loop]. rewrite push_token_filter.
    destruct q; cbn; by rewrite app_nil_r_string.
  - cbn [tokenize_loop]. destruct (a =? quote_char)%char eqn:Hq.
    + apply Ascii.eqb_eq in Hq as ->. rewrite raw_words_quote. by destruct q; cbn; rewrite IH.
    + cbn [andb]. destruct (is_blank a && negb q) eqn:Hb.
      * apply andb_true_iff in Hb as [Hb Hn]. apply negb_true_iff in Hn as ->.
        rewrite raw_words_blank, IH, push_token_filter by done. cbn [glue].
        rewrite app_nil_r_string, <- app_assoc. f_equal.
        rewrite (filter_app _ [cur] (raw_words false s) : filter _ (cur :: _) = _). f_equal.
        pose proof (raw_words_nonempty false s) as Hs. by destruct (raw_words false s).
      * assert (negb (is_blank a) || q = true) as Hbq by (by destruct (is_blank a), q).
        destruct (raw_words_byte q a s Hbq Hq) as (w & ws & H1 & H2).
        rewrite IH, H1, H2. cbn [glue]. by rewrite app_assoc_string, app_cons_string, app_nil_string.
Qed.

Lemma tokenize_words s : tokenize s = tokenize_reference s.
Proof.
  unfold tokenize. rewrite tokenize_loop_reference. cbn [app]. unfold tokenize_reference.
  pose proof (raw_words_nonempty false s) as Hs. by destruct (raw_words false s).
Qed.

(** C24. The tokenizer, one pass over the line with a flag and a buffer, computes
    the reference: the words between blanks outside quotes, with the quoted
    pieces taken as they stand and empty words dropped. *)
Theorem tokenize_equivalent (line : string) : tokenize line = tokenize_reference line.
Proof. apply tokenize_words. Qed.

(** ** Writing commands *)

Definition quoted (w : string) : string := "'" +:+ w +:+ "'".

(** A field that can be written in quotes: not empty, without a quote. *)
Definition word (w : string) : Prop := w ≠ EmptyString ∧ free quote_char w = true.
(** A word that needs no quotes. *)
Definition plain (w : string) : Prop :=
  word w ∧ Forall (λ a, is_blank a = false) (String.list_ascii_of_string w).
Definition renders (text w : string) : Prop := word w ∧ text = quoted w ∨ plain w ∧ text = w.

(** The canonical text of a command; [json] prints contexts. *)
Definition print_command (json : Value → string) (cmd : Cmd) : string :=
  match cmd with
  | Cmd.Transition entity_id machine event actor ctx expect_version =>
      join " " (["transition"; quoted entity_id; quoted machine; quoted event]
        ++ match expect_version with
           | Some v => ["--expect-version"; quoted (pretty v)]
           | None => []
           end
        ++ ["--actor"; quoted actor; "--ctx"; quoted (json ctx)])
  | Cmd.Current entity_id machine => join " " ["current"; quoted entity_id; quoted machine]
  | Cmd.History entity_id machine limit =>
      join " " (["history"]
        ++ match limit with
           | Some n => [quoted entity_id; quoted machine; "--limit"; quoted (pretty n)]
           | None => [quoted entity_id; quoted machine]
           end)
  | Cmd.Define source => join " " ["define"; quoted source]
  | Cmd.ListMachines => "\machines"
  | Cmd.DescribeMachine name => "\machine " +:+ name
  | Cmd.DescribeEntity entity_id => "\entity " +:+ entity_id
  | Cmd.Help => "\help"
  | Cmd.Quit => "\quit"
  | Cmd.Empty => EmptyString
  end.

(** The commands with such a text. *)
Definition printable {SH : Shell} (json : Value → string) (cmd : Cmd) : Prop :=
  match cmd with
  | Cmd.Transition entity_id machine event actor ctx expect_version =>
      word entity_id ∧ word machine ∧ word event ∧ word actor
      ∧ word (json ctx) ∧ json_value (json ctx) = Ok ctx
      ∧ (default 0 expect_version <= u64_max)%N
  | Cmd.Current entity_id machine => word entity_id ∧ word machine
  | Cmd.History entity_id machine limit =>
      word entity_id ∧ word machine ∧ (default 0 limit <= u32_max)%N
  | Cmd.Define source => word source
  | Cmd.DescribeMachine s | Cmd.DescribeEntity s => s ≠ EmptyString ∧ trim s = s
  | _ => True
  end.

(** Text inside quotes, and plain text, go to the buffer. *)
Lemma tokenize_inside ts cur w rest :
  free quote_char w = true →
  tokenize_loop ts cur true (w +:+ String quote_char rest) = tokenize_loop ts (cur +:+ w) false rest.
Proof.
  revert cur. induction w as [|a w IH]; intros cur; cbn [free].
  - intros _. rewrite app_nil_string, app_nil_r_string. reflexivity.
  - intros [Ha%negb_true_iff Hw]%andb_true_iff. rewrite app_cons_string. cbn [tokenize_loop].
    rewrite Ha. cbn [andb negb]. rewrite andb_false_r, IH by done.
    by rewrite app_assoc_string, app_cons_string, app_nil_string.
Qed.

Lemma tokenize_outside ts cur w rest :
  free quote_char w = true → Forall (λ a, is_blank a = false) (String.list_ascii_of_string w) →
  tokenize_loop ts cur false (w +:+ rest) = tokenize_loop ts (cur +:+ w) false rest.
Proof.
  revert cur. induction w as [|a w IH]; intros cur; cbn [free String.list_ascii_of_string].
  - intros _ _. by rewrite app_nil_string, app_nil_r_string.
  - intros [Ha%negb_true_iff Hw]%andb_true_iff [Hb HF]%Forall_cons. rewrite app_cons_string.
    cbn [tokenize_loop]. rewrite Ha, Hb. cbn [andb]. rewrite IH by done.
    by rewrite app_assoc_string, app_cons_string, app_nil_string.
Qed.

Lemma tokenize_rendered ts text w rest :
  renders text w → tokenize_loop ts EmptyString false (text +:+ rest) = tokenize_loop ts w false rest.
Proof.
  intros [[[_ Hf] ->]|[[[_ Hf] Hb] ->]]; [|by apply tokenize_outside].
  unfold quoted. rewrite !app_assoc_string.
  change ("'" +:+ w +:+ "'" +:+ rest) with (String quote_char (w +:+ String quote_char rest)).
  change (tokenize_loop ts EmptyString true (w +:+ String quote_char rest) = tokenize_loop ts w false rest).
  by rewrite tokenize_inside.
Qed.

(** Written words are read back. *)
Lemma tokenize_join texts ws : Forall2 renders texts ws → tokenize (join " " texts) = ws.
Proof.
  enough (∀ ts, Forall2 renders texts ws →
    tokenize_loop ts EmptyString false (join " " texts) = ts ++ ws) as Hgen by apply (Hgen []).
  intros ts HF. revert ts. induction HF as [|text w texts ws Hr HF IH]; intros ts.
  - cbn. by rewrite app_nil_r.
  - assert (w ≠ EmptyString) as Hw by (destruct Hr as [[[? _] _]|[[[? _] _] _]]; done).
    destruct HF as [|text' w' texts ws Hr' HF].
    + cbn [join]. rewrite <- (app_nil_r_string text), (tokenize_rendered _ _ w) by done.
      cbn. by destruct w.
    + change (join " " (text :: text' :: texts))
        with (text +:+ String " " (join " " (text' :: texts))).
      rewrite (tokenize_rendered _ _ w) by done. cbn [tokenize_loop]. cbn -[tokenize_loop join].
      rewrite IH. destruct w; [done|]. cbn [push_token]. by rewrite <- app_assoc.
Qed.

(** Such a line begins with its keyword and ends with a quote. *)
Lemma join_ends ws w : ∃ s, join " " (ws ++ [quoted w]) = s +:+ "'".
Proof.
  induction ws as [|v ws [s IH]].
  - exists ("'" +:+ w). unfold quoted. by rewrite app_assoc_string.
  - exists (v +:+ " " +:+ s). cbn [app join].
    assert (ws ++ [quoted w] ≠ []) as Hne by (by destruct ws).
    destruct (ws ++ [quoted w]); [done|]. by rewrite IH, !app_assoc_string.
Qed.

Lemma list_ascii_app s t :
  String.list_ascii_of_string (s +:+ t) = String.list_ascii_of_string s ++ String.list_ascii_of_string t.
Proof. induction s as [|a s IH]; [done|]. rewrite app_cons_string. cbn. by rewrite IH. Qed.

(** A line whose first byte starts no white space and whose last byte ends none. *)
Lemma trim_framed a s z :
  forallb (λ w, match w with b :: _ => negb (b =? a)%char | [] => false end) whitespace = true →
  forallb (λ w, match w with b :: _ => negb (b =? z)%char | [] => false end)
    (map (@rev ascii) whitespace) = true →
  trim (String a (s +:+ String z EmptyString)) = String a (s +:+ String z EmptyString).
Proof.
  intros Ha Hz. apply trim_id. split; [by apply unstrippable_head|]. cbn.
  rewrite list_ascii_app, rev_app_distr. cbn. by apply unstrippable_head.
Qed.

(** A meta-command with its argument. *)
Lemma trim_meta s name :
  name ≠ EmptyString → trim name = name →
  trim (String "\" (s +:+ String " " name)) = String "\" (s +:+ String " " name).
Proof.
  intros Hne [_ Ht]%trim_trimmed. apply trim_id. split; [by apply unstrippable_head|]. cbn.
  rewrite list_ascii_app, rev_app_distr. cbn [String.list_ascii_of_string rev].
  rewrite <- !app_assoc. cbn [app]. apply unstrippable_app; [|done|].
  - intros Hnil%(f_equal (@length ascii)). rewrite length_rev in Hnil. by destruct name.
  - apply (bool_decide_unpack _). vm_compute. exact I.
Qed.

Section roundtrip.
Context {SH : Shell} {SO : ShellOk SH}.

(** A line of written words is read by its first token. *)
Lemma parse_line a kw texts w ws :
  Forall2 renders (String a kw :: texts ++ [quoted w]) (String a kw :: ws) →
  forallb (λ w, match w with b :: _ => negb (b =? a)%char | [] => false end) whitespace = true →
  (a =? "#")%char = false → (a =? "\")%char = false →
  parse_command (join " " (String a kw :: texts ++ [quoted w])) = parse_data (String a kw :: ws).
Proof.
  intros HF Ha H1 H2. unfold parse_command.
  assert (∃ s, join " " (String a kw :: texts ++ [quoted w]) = String a (s +:+ String "'" EmptyString))
    as [s Hs].
  { destruct (join_ends texts w) as [s Hs]. exists (kw +:+ " " +:+ s).
    assert (texts ++ [quoted w] ≠ []) as Hne by (by destruct texts).
    cbn [join]. destruct (texts ++ [quoted w]); [done|]. by rewrite Hs, !app_assoc_string. }
  pose proof (tokenize_join _ _ HF) as Ht. rewrite Hs in *. cbv zeta. rewrite trim_framed by done.
  rewrite decide_False by done. cbn [strip_char]. rewrite H1, H2. by f_equal.
Qed.

Lemma renders_quoted w : word w → renders (quoted w) w.
Proof. left. done. Qed.
Lemma renders_plain w : bool_decide (plain w) = true → renders w w.
Proof. right. split; [|done]. by eapply bool_decide_eq_true. Qed.
Lemma word_number (n : N) : word (pretty n).
Proof. split; [apply pretty_N_nonempty|by apply pretty_N_free_of]. Qed.

(** The keyword of a data command. *)
Lemma keyword_lower s : is_ascii s = true → string_lower s = s → to_lowercase s = s.
Proof. intros H1 H2. by rewrite to_lowercase_ascii. Qed.

Lemma parse_transition_printed json en m ev actor ctx v :
  json_value (json ctx) = Ok ctx → (default 0 v <= u64_max)%N →
  parse_data (["transition"; en; m; ev]
    ++ match v with Some n => ["--expect-version"; pretty n] | None => [] end
    ++ ["--actor"; actor; "--ctx"; json ctx]) = Ok (Cmd.Transition en m ev actor ctx v).
Proof.
  intros Hj Hv. destruct v as [n|]; cbn [app]; unfold parse_data;
    rewrite (keyword_lower "transition"), decide_True by (reflexivity || set_solver);
    cbn [parse_transition transition_options].
  - repeat (rewrite decide_False by naive_solver). rewrite decide_True by naive_solver.
    rewrite parse_uint_pretty by done. rewrite decide_True by done.
    rewrite decide_False, decide_True, Hj by done. done.
  - rewrite decide_True by done. rewrite decide_False, decide_True, Hj by done. done.
Qed.

Ltac render :=
  repeat first [ apply Forall2_nil_2 | apply Forall2_cons_2 | apply renders_quoted
               | apply renders_plain; vm_compute; reflexivity ];
  try done; try apply word_number.
Ltac read_line a kw texts w ws :=
  etransitivity; [apply (parse_line a kw texts w ws); [cbn [app]; render|reflexivity..]|].
Ltac by_keyword kw :=
  unfold parse_data; rewrite (keyword_lower kw) by reflexivity;
  repeat (rewrite decide_False by set_solver); rewrite decide_True by set_solver.

Lemma parse_meta_argument kw usage name (k : string → Cmd) :
  name ≠ EmptyString → trim name = name →
  (∀ arg, parse_meta (kw +:+ String " " arg) = meta_argument usage (Some arg) k) →
  parse_command ("\" +:+ kw +:+ " " +:+ name) = Ok (k name).
Proof.
  intros Hne Ht Hk. unfold parse_command.
  change ("\" +:+ kw +:+ " " +:+ name) with (String "\" (kw +:+ String " " name)).
  rewrite trim_meta by done. rewrite decide_False by done. cbn [strip_char]. cbn -[parse_meta trim].
  rewrite Hk. unfold meta_argument. by rewrite Ht, decide_False by done.
Qed.

Lemma parse_printed (json : Value → string) (cmd : Cmd) :
  printable json cmd → parse_command (print_command json cmd) = Ok cmd.
Proof.
  destruct cmd as [en m ev actor ctx v|en m|en m limit|source| |name|en| | |];
    cbn [print_command printable]; intros Hp.
  - destruct Hp as (? & ? & ? & ? & ? & ? & Hv).
    transitivity (parse_data (["transition"; en; m; ev]
      ++ match v with Some n => ["--expect-version"; pretty n] | None => [] end
      ++ ["--actor"; actor; "--ctx"; json ctx])); [|by apply parse_transition_printed].
    destruct v as [n|].
    + read_line "t"%char "ransition" [quoted en; quoted m; quoted ev; "--expect-version"; quoted (pretty n);
        "--actor"; quoted actor; "--ctx"] (json ctx)
        [en; m; ev; "--expect-version"; pretty n; "--actor"; actor; "--ctx"; json ctx]. done.
    + read_line "t"%char "ransition" [quoted en; quoted m; quoted ev; "--actor"; quoted actor; "--ctx"]
        (json ctx) [en; m; ev; "--actor"; actor; "--ctx"; json ctx]. done.
  - destruct Hp. read_line "c"%char "urrent" [quoted en] m [en; m]. by_keyword "current". done.
  - destruct Hp as (? & ? & Hl). destruct limit as [n|].
    + read_line "h"%char "istory" [quoted en; quoted m; "--limit"] (pretty n) [en; m; "--limit"; pretty n].
      by_keyword "history". cbn [parse_history history_options].
      rewrite decide_True, parse_uint_pretty by naive_solver. done.
    + read_line "h"%char "istory" [quoted en] m [en; m]. by_keyword "history". done.
  - read_line "d"%char "efine" (@nil string) source [source]. by_keyword "define". done.
  - reflexivity.
  - destruct Hp. by apply (parse_meta_argument "machine" "usage: \machine <name>").
  - destruct Hp. by apply (parse_meta_argument "entity" "usage: \entity <entity_id>").
  - reflexivity.
  - reflexivity.
  - reflexivity.
Qed.

(** C23. A command whose text fields are not empty and hold no single quote is
    read back from its canonical text, in which every field stands in single
    quotes: fields that hold blanks, double quotes or option names, printed
    numbers within their widths and contexts whose JSON text reads back all
    survive, and the trimming of the line takes nothing away. The argument of
    a meta-command is written bare, so it has to be trimmed already. (The two
    conditions on fields are needed: an empty quoted field is dropped by the
    tokenizer, and the shell has no escape for a quote.) *)
Theorem command_roundtrip (json : Value → string) (cmd : Cmd) :
  printable json cmd → parse_command (print_command json cmd) = Ok cmd.
Proof. apply parse_printed. Qed.

(** ** Typed transitions *)

(** What the options [ts] of a [transition] line set, the last of each kind
    deciding: the actor, the context and the expected version. *)
Inductive typed_options : list string → string → Value → option N → Prop :=
| options_default : typed_options [] "smash" (VObject []) None
| options_actor ts actor ctx v w :
    typed_options ts actor ctx v → typed_options (ts ++ ["--actor"; w]) w ctx v
| options_ctx ts actor ctx v w ctx' :
    typed_options ts actor ctx v → json_value w = Ok ctx' →
    typed_options (ts ++ ["--ctx"; w]) actor ctx' v
| options_version ts actor ctx v flag w n :
    typed_options ts actor ctx v → flag ∈ ["--expect-version"; "--expected-version"] →
    parse_uint u64_max w = Some n →
    typed_options (ts ++ [flag; w]) actor ctx (Some n).

Lemma transition_options_typed ts actor ctx v rest :
  typed_options ts actor ctx v →
  transition_options "smash" (VObject []) None (ts ++ rest) = transition_options actor ctx v rest.
Proof.
  intros HO. revert rest. induction HO as [|ts actor ctx v w HO IH|ts actor ctx v w ctx' HO IH Hj
    |ts actor ctx v flag w n HO IH Hf Hv]; intros rest; [done|..];
    rewrite <- app_assoc, IH; cbn [app transition_options].
  - by rewrite decide_True.
  - by rewrite decide_False, decide_True, Hj.
  - rewrite !elem_of_cons, elem_of_nil in Hf.
    rewrite (decide_False (P := flag = "--actor")) by naive_solver.
    rewrite (decide_False (P := flag = "--ctx")) by naive_solver.
    rewrite decide_True by naive_solver. by rewrite Hv.
Qed.

Lemma ascii_lower_ascii a : (N_of_ascii (ascii_lower a) < 128)%N → (N_of_ascii a < 128)%N.
Proof.
  unfold ascii_lower. destruct ((65 <=? N_of_ascii a) && (N_of_ascii a <=? 90))%N eqn:Hr; [|done].
  apply andb_true_iff in Hr as [_ Hr%N.leb_le]. lia.
Qed.

Lemma string_lower_ascii s : is_ascii (string_lower s) = true → is_ascii s = true.
Proof.
  induction s as [|a s IH]; cbn; [done|]. rewrite !andb_true_iff, !N.ltb_lt.
  intros [Ha Hs]. auto using ascii_lower_ascii.
Qed.

(** A line that begins with a mark has it at the head of its first word. *)
Lemma marked_words c s s' :
  is_blank c = false → (c =? quote_char)%char = false → strip_char c s = Some s' →
  ∃ w ws, tokenize_reference s = String c w :: ws.
Proof.
  intros Hb Hq. destruct s as [|a s]; cbn [strip_char]; [done|].
  destruct (a =? c)%char eqn:Ha; [|done]. apply Ascii.eqb_eq in Ha as ->. intros _.
  destruct (raw_words_byte false c s) as (w & ws & _ & Hw); [by rewrite Hb|done|].
  unfold tokenize_reference. rewrite Hw. rewrite filter_cons_True by done. eauto.
Qed.

(** A line with the words of a transition is parsed as that transition. *)
Lemma parse_typed line kw en m ev ts actor ctx v :
  tokenize_reference (trim line) = kw :: en :: m :: ev :: ts →
  string_lower kw ∈ ["transition"; "tr"] → typed_options ts actor ctx v →
  parse_command line = Ok (Cmd.Transition en m ev actor ctx v).
Proof.
  intros Ht Hk HO. assert (is_ascii kw = true) as Ha.
  { apply string_lower_ascii. rewrite !elem_of_cons, elem_of_nil in Hk.
    by destruct Hk as [->|[->|[]]]. }
  assert (∀ c, is_blank c = false → (c =? quote_char)%char = false →
    ascii_lower c ≠ "t"%char → strip_char c (trim line) = None) as Hmark.
  { intros c Hb Hq Hc. destruct (strip_char c (trim line)) as [s'|] eqn:Hs; [|done].
    destruct (marked_words c _ _ Hb Hq Hs) as (w & ws & Hw).
    rewrite Ht in Hw. injection Hw as -> _. cbn [string_lower] in Hk.
    rewrite !elem_of_cons, elem_of_nil in Hk. by destruct Hk as [[=]|[[=]|[]]]. }
  unfold parse_command. cbv zeta. rewrite decide_False by (intros He; by rewrite He in Ht).
  rewrite !Hmark, tokenize_words, Ht by done. unfold parse_data.
  rewrite to_lowercase_ascii by done. rewrite decide_True by done. cbn [parse_transition].
  rewrite <- (app_nil_r ts), (transition_options_typed _ _ _ _ [] HO). done.
Qed.

End roundtrip.

(** ** Sessions *)

Lemma nul_free_free s : nul_free s = free "000" s.
Proof. induction s as [|a s IH]; cbn; [done|]. by rewrite IH. Qed.

Lemma tokenize_loop_free c ts cur q s :
  Forall (λ w, free c w = true) ts → free c cur = true → free c s = true →
  Forall (λ w, free c w = true) (tokenize_loop ts cur q s).
Proof.
  assert (∀ ts cur, Forall (λ w, free c w = true) ts → free c cur = true →
    Forall (λ w, free c w = true) (push_token ts cur)) as Hpush.
  { intros ts' [|a w]; cbn [push_token]; [done|]. intros. by apply Forall_app_2; repeat constructor. }
  revert ts cur q. induction s as [|a s IH]; intros ts cur q Hts Hcur Hs; cbn [tokenize_loop]; [by apply Hpush|].
  rewrite free_cons in Hs. apply andb_true_iff in Hs as [Ha Hs].
  repeat case_match; apply IH; try done; [by apply Hpush|].
  by rewrite free_app, free_cons, Ha, Hcur.
Qed.

Lemma tokenize_free c s : free c s = true → Forall (λ w, free c w = true) (tokenize s).
Proof. intros. by apply tokenize_loop_free. Qed.

Lemma strip_char_free c d s s' : strip_char d s = Some s' → free c s = true → free c s' = true.
Proof.
  destruct s as [|a s]; cbn; [done|]. case_match; [|done]. intros [= <-]. by intros [_ ?]%andb_true_iff.
Qed.

Lemma splitn2_free c d s w rest :
  splitn2 d s = (w, Some rest) → free c s = true → free c rest = true.
Proof.
  revert w. induction s as [|a s IH]; intros w; cbn; [done|]. case_match.
  - intros [= <- <-]. by intros [_ ?]%andb_true_iff.
  - destruct (splitn2 d s) as [w' r]. intros [= <- ->]. intros [_ ?]%andb_true_iff. by eapply IH.
Qed.

(** The names a command uses as keys. *)
Definition keys_nul_free (cmd : Cmd) : Prop :=
  match cmd with
  | Cmd.Transition en m _ _ _ _ | Cmd.Current en m | Cmd.History en m _ =>
      nul_free en = true ∧ nul_free m = true
  | Cmd.DescribeEntity en => nul_free en = true
  | _ => True
  end.

Section session.
Context {SE : StorageEngine} {SO : StorageOk SE} {MP : Mpsc ChangeRecord} {MO : MpscOk ChangeRecord}.
Context {EN : Env} {EO : EnvOk EN} {SH : Shell}.

Lemma parse_data_keys tokens cmd :
  Forall (λ w, free "000" w = true) tokens → parse_data tokens = Ok cmd → keys_nul_free cmd.
Proof.
  intros HF. unfold parse_data. destruct tokens as [|t ts]; [by intros [= <-]|].
  repeat case_decide; try (by intros [= <-]);
    unfold parse_transition, parse_current, parse_history, parse_define;
    repeat case_match; try done; intros [= <-]; cbn; rewrite ?nul_free_free;
    by decompose_Forall_hyps.
Qed.

Lemma parse_command_keys line cmd :
  nul_free line = true → parse_command line = Ok cmd → keys_nul_free cmd.
Proof.
  rewrite nul_free_free. intros Hl%trim_free. unfold parse_command. cbv zeta.
  case_decide; [by intros [= <-]|]. destruct (strip_char "#" _); [by intros [= <-]|].
  destruct (strip_char "\" _) as [rest|] eqn:Hr; [|by eapply parse_data_keys, tokenize_free].
  apply (strip_char_free "000") in Hr; [|done]. unfold parse_meta.
  destruct (splitn2 " " rest) as [w arg] eqn:Hs.
  repeat case_decide; try (by intros [= <-]); unfold meta_argument;
    (destruct arg as [arg|]; [|done]); (case_decide; [done|]); intros [= <-]; [done|].
  cbn. rewrite nul_free_free. by eapply trim_free, splitn2_free.
Qed.

Context (b : bool) (defs : MachineDefinition → Prop) (reg : Registry).
Context (Hdefs : ∀ s def, json_machine s = Ok def → defs def).
Context (Hnames : ∀ def, defs def → nul_free (md_name def) = true).

Lemma entity_rows_inv n en machines e a rows found e' :
  inv_at b defs n reg e a → nul_free en = true →
  Forall (λ m, nul_free (md_name m) = true) machines →
  entity_rows en machines e = (rows, found, e') → inv_at b defs n reg e' a.
Proof.
  intros HI Hen HF. revert e rows found e' HI.
  induction HF as [|m machines Hm HF IH]; intros e rows found e' HI; cbn [entity_rows]; [by intros [= <- <- <-]|].
  destruct (current en (md_name m) e) as [r e1] eqn:Hc.
  assert (inv_at b defs n reg e1 a) as HI1 by (eapply inv_read; [exact HI|by apply (get_entity_state_ok en (md_name m))|exact Hc]).
  destruct (entity_rows en machines e1) as [[rows1 found1] e2] eqn:Hr.
  pose proof (IH _ _ _ _ HI1 Hr) as HI2. destruct r; by intros [= <- <- <-].
Qed.

Lemma list_machines_inv n e a r e' :
  inv_at b defs n reg e a → list_machines e = (r, e') →
  inv_at b defs n reg e' a
  ∧ ∀ machines, r = Ok machines → Forall (λ m, nul_free (md_name m) = true) machines.
Proof.
  intros HI Hr. split; [eapply inv_returns; [exact HI|apply list_machines_ok|exact Hr]|].
  intros machines ->. unfold list_machines, Engine.storage in Hr.
  destruct (s_list_machines (e_storage e)) as [r d] eqn:Hl.
  destruct r as [l|]; [|done]. injection Hr as <- <-.
  destruct (returns_mode _ _ b _ a (Ok l) d list_machines_ok (i_holds _ _ _ _ _ _ HI)
    (i_fit _ _ _ _ _ _ HI) Hl) as (_ & _ & [(x & [= <-] & _ & Hin)|(_ & ? & ? & _)]); [|done].
  apply Forall_forall. intros m Hm%Hin.
  destruct (c_machines _ _ (i_consistent _ _ _ _ _ _ HI) _ _ Hm) as (def & Hd & _ & <- & _).
  by apply Hnames.
Qed.

(** A command keeps the invariant; the log grows by one record at most. *)
Lemma execute_inv n cmd e a :
  inv_at b defs n reg e a → (N.of_nat (S n) < u64_max)%N → keys_nul_free cmd →
  inv_from b defs (S n) reg (o_engine (execute cmd e)) a.
Proof.
  intros HI Hn Hk. destruct cmd as [en m ev actor ctx v|en m|en m limit|source| |name|en| | |];
    cbn [execute keys_nul_free] in Hk |- *;
    try match type of Hk with _ ∧ _ => destruct Hk as [Hen Hm] end.
  1: { unfold report. destruct (transition _ _ _ _ _ _ _ e) as [r e'] eqn:Hr.
    assert (inv_from b defs (S n) reg e' a) as HI'.
    { eapply (inv_transition _ _ _ _ _ _ {| q_entity := en; q_machine := m; q_event := ev;
        q_actor := actor; q_ctx := ctx; q_expected := v; q_key := None |}); [exact HI|lia|done|done|exact Hr]. }
    by destruct r. }
  all: eapply inv_from_mono; [|exact (Nat.le_succ_diag_r n)].
  3: { unfold execute_define. destruct (define_source source); [|by apply inv_from_refl].
    destruct (json_machine _) as [def|] eqn:Hj; [|by apply inv_from_refl].
    destruct (define_machine def e) as [r e'] eqn:Hr.
    assert (inv_from b defs n reg e' a) by (eapply inv_define; [done|by eapply Hdefs|done]). by destruct r. }
  all: apply inv_from_refl; try done.
  - unfold report. destruct (current en m e) as [r e'] eqn:Hr.
    assert (inv_at b defs n reg e' a) by (eapply inv_read; [exact HI|by apply (get_entity_state_ok en m)|exact Hr]).
    by destruct r.
  - unfold report. destruct (history en m limit None e) as [r e'] eqn:Hr.
    assert (inv_at b defs n reg e' a) by (eapply inv_read; [exact HI|by apply (get_history_ok en m limit None)|exact Hr]).
    by destruct r.
  - unfold with_machines. destruct (list_machines e) as [r e'] eqn:Hr.
    destruct (list_machines_inv _ _ _ _ _ HI Hr) as [? _]. by destruct r.
  - unfold report. destruct (get_machine name e) as [r e'] eqn:Hr.
    assert (inv_at b defs n reg e' a) by (eapply inv_read; [exact HI|apply (get_machine_ok name None)|exact Hr]).
    by destruct r.
  - unfold with_machines. destruct (list_machines e) as [r e'] eqn:Hr.
    destruct (list_machines_inv _ _ _ _ _ HI Hr) as [HI' HF]. destruct r as [machines|]; [|done].
    unfold describe_entity. destruct machines as [|m0 ms]; [done|].
    destruct (entity_rows en (m0 :: ms) e') as [[rows found] e2] eqn:Hrows.
    cbn. eapply entity_rows_inv; [exact HI'|done|by apply HF|exact Hrows].
Qed.

(** A line has no NUL byte. *)
Definition clean_input (input : Readline) : Prop :=
  match input with Line line => nul_free line = true | _ => True end.

Lemma repl_round_inv n input e a printed continue e' :
  inv_at b defs n reg e a → (N.of_nat (S n) < u64_max)%N → clean_input input →
  repl_round input e = (printed, continue, e') → inv_from b defs (S n) reg e' a.
Proof.
  intros HI Hn Hc. assert (inv_from b defs (S n) reg e a) as HI0.
  { eapply inv_from_mono; [by apply inv_from_refl|lia]. }
  destruct input as [line| | |]; cbn [repl_round]; try (by intros [= <- <- <-]).
  destruct (parse_command line) as [cmd|] eqn:Hp; [|by intros [= <- <- <-]].
  pose proof (execute_inv n cmd e a HI Hn (parse_command_keys _ _ Hc Hp)) as HI'.
  destruct (o_result (execute cmd e)); by intros [= <- <- <-].
Qed.

Lemma repl_loop_inv inputs n e a printed ended e' :
  inv_at b defs n reg e a → (N.of_nat (n + length inputs) < u64_max)%N → Forall clean_input inputs →
  repl_loop inputs e = (printed, ended, e') → inv_from b defs (n + length inputs) reg e' a.
Proof.
  intros HI Hn HF. revert n e a printed ended e' HI Hn.
  induction HF as [|input inputs Hc HF IH]; intros n e a printed ended e' HI Hn; cbn [repl_loop length].
  - intros [= <- <- <-]. rewrite Nat.add_0_r. by apply inv_from_refl.
  - cbn [length] in Hn. destruct (repl_round input e) as [[pr [|]] e1] eqn:Hr.
    + destruct (repl_loop inputs e1) as [[pr' ended'] e2] eqn:Hl. intros [= <- <- <-].
      destruct (repl_round_inv n input e a pr true e1 HI) as (a1 & HI1 & HX); [lia|done..|].
      destruct (IH (S n) e1 a1 pr' ended' e2 HI1) as (a2 & HI2 & HX2); [lia|done|].
      exists a2. split; [by replace (n + S (length inputs)) with (S n + length inputs) by lia|].
      by eapply extends_trans.
    + intros [= <- <- <-]. eapply inv_from_mono; [eapply repl_round_inv; [exact HI|lia|done..]|lia].
Qed.

End session.

Section shell_properties.
Context {SE : StorageEngine} {SO : StorageOk SE} {MP : Mpsc ChangeRecord} {MO : MpscOk ChangeRecord}.
Context {EN : Env} {EO : EnvOk EN} {SH : Shell} {SHO : ShellOk SH}.

(** A session of the shell, whatever is typed, read or interrupted, leads
    from an engine with the invariant to one with the invariant: the store stays
    consistent, keeps everything it held, and gains at most one log record a
    line; failing stores included ([b = false]). *)
Theorem shell_session (b : bool) (defs : MachineDefinition → Prop) (n : nat) (reg : Registry)
    (e : Engine) (inputs : list Readline) (printed : list string) (ended : bool) (e' : Engine) :
  reachable b defs n reg e → (N.of_nat (n + length inputs) < u64_max)%N →
  (∀ s def, json_machine s = Ok def → defs def) →
  (∀ def, defs def → nul_free (md_name def) = true) →
  Forall clean_input inputs → repl_loop inputs e = (printed, ended, e') →
  ∃ a a', inv_at b defs n reg e a ∧ inv_at b defs (n + length inputs) reg e' a' ∧ extends a a'.
Proof.
  intros HR Hn Hd Hnames HF Hrun.
  destruct (inv_reachable _ _ _ _ _ HR) as [a HI]; [lia|].
  destruct (repl_loop_inv b defs reg Hd Hnames _ _ _ _ _ _ _ HI Hn HF Hrun) as (a' & ? & ?). eauto.
Qed.

Definition typed_request (en m ev actor : string) (ctx : Value) (v : option N) : Request :=
  {| q_entity := en; q_machine := m; q_event := ev; q_actor := actor; q_ctx := ctx;
     q_expected := v; q_key := None |}.


(** After [\quit] nothing more is read. *)
Lemma quit_ends inputs rest e printed e' :
  repl_loop inputs e = (printed, false, e') →
  repl_loop (inputs ++ Line "\quit" :: rest) e = (printed ++ ["Goodbye."], true, e').
Proof.
  revert e printed. induction inputs as [|input inputs IH]; intros e printed; cbn [app repl_loop].
  - intros [= <- <-]. done.
  - destruct (repl_round input e) as [[pr [|]] e1]; [|done].
    destruct (repl_loop inputs e1) as [[pr' ended] e2] eqn:Hl. intros [= <- -> <-].
    rewrite (IH _ _ Hl). by rewrite app_assoc.
Qed.

(** The status of [-c] does not tell a refused request from a served one: the
    error goes to standard output and the status is 0. *)
Lemma one_shot_refused json en m ev actor ctx v e err e' :
  printable json (Cmd.Transition en m ev actor ctx v) →
  transition en m ev actor ctx v None e = (Err err, e') →
  one_shot (print_command json (Cmd.Transition en m ev actor ctx v)) e
  = (print_error err, [], 0%N, e').
Proof.
  intros Hp Hr. unfold one_shot. rewrite parse_printed by done. cbn [execute]. unfold report.
  by rewrite Hr.
Qed.

End shell_properties.
