(* ===== verification/SmashExamples.v ===== *)
(** * A session of the shell

    The document machine defined and driven from typed lines, and the
    properties of [SmashProps] applied to it. *)
From S2P Require Import Prelude Keys Text Core Redb Storage StorageSpec StorageTrait Channel Engine EngineSpec EngineRun.
From S2P Require Import Dispatch System Concrete EngineExamples Messages Smash SmashProps.
From Stdlib Require Import Strings.Ascii.
Import Demo.

(** Two JSON texts, one file, instants printed as numbers. *)
#[export] Instance demo_shell : Shell := {|
  json_value s := if decide (s = "{}") then Ok (VObject []) else Err "expected value at line 1 column 1";
  json_machine s := if decide (s = "<document>") then Ok document else Err "missing field `name`";
  fs_read_to_string path :=
    if decide (path = "doc.json") then Ok "<document>"
    else Err "No such file or directory (os error 2)";
  format_time _ t := pretty t;
  to_lowercase := string_lower;
|}.

#[export] Instance demo_shell_ok : ShellOk demo_shell.
Proof. by split. Qed.

Definition demo_json (_ : Value) : string := "{}".

(** ** Lines *)

Example tokens_quoted : tokenize "tr 'doc 1' document  --ctx '{a b}'" = ["tr"; "doc 1"; "document"; "--ctx"; "{a b}"].
Proof. vm_compute. reflexivity. Qed.
(** A quoted empty argument disappears, an open quote is accepted, and quotes
    join what they touch. *)
Example tokens_empty : tokenize "tr '' m" = ["tr"; "m"].
Proof. vm_compute. reflexivity. Qed.
Example tokens_open : tokenize "cur 'a b" = ["cur"; "a b"].
Proof. vm_compute. reflexivity. Qed.
Example tokens_joined : tokenize "a'b c'd" = ["ab cd"].
Proof. vm_compute. reflexivity. Qed.

Example parse_meta_line : parse_command "  \machine  order flow " = Ok (Cmd.DescribeMachine "order flow").
Proof. vm_compute. reflexivity. Qed.
Example parse_comment : parse_command " # a note" = Ok Cmd.Empty.
Proof. vm_compute. reflexivity. Qed.
(** The documented [\watch] is not a command. *)
Example parse_watch : parse_command "\watch fulfillment" = Err "unknown meta-command: \watch".
Proof. vm_compute. reflexivity. Qed.
Example parse_bad_version :
  parse_command "transition a m e --expect-version 18446744073709551616"
  = Err "'18446744073709551616' is not a valid version number".
Proof. vm_compute. reflexivity. Qed.
Example parse_limit : parse_command "HIST a m -n +7" = Ok (Cmd.History "a" "m" (Some 7%N)).
Proof. vm_compute. reflexivity. Qed.
(** Blanks inside an unquoted definition are not kept. *)
Example parse_define_blanks : parse_command "define {a   b}" = Ok (Cmd.Define "{a b}").
Proof. vm_compute. reflexivity. Qed.

(** ** A script *)

Definition script : list Readline :=
  [Line "define @doc.json"; Line "tr doc-1 document submit --actor ann"; Line "cur doc-1 document";
   Line "tr doc-1 document submit"; Interrupted; Line "bogus"; Line "\quit"; Line "\machines"].

Example script_output :
  let '(printed, ended, _) := repl_loop script (start []) in
  printed =
    ["Machine 'document' defined.";
     "OK  draft -> review  (v1, seq 1)";
     "Entity:    doc-1"; "Machine:   document"; "State:     review"; "Version:   1"; "Updated:   0";
     "Error: core error: illegal transition: entity 'doc-1' in machine 'document' has no transition for event 'submit' from state 'review'";
     "^C";
     "Parse error: unknown command: 'bogus'. Type \help for commands.";
     "Goodbye."]
  ∧ ended = true.
Proof. vm_compute. split; reflexivity. Qed.

(** ** Witnesses *)

Lemma command_roundtrip_witness :
  parse_command (print_command demo_json
    (Cmd.Transition "order 7" "--actor" "ship" "ann" (VObject []) (Some 3%N)))
  = Ok (Cmd.Transition "order 7" "--actor" "ship" "ann" (VObject []) (Some 3%N)).
Proof.
  apply (command_roundtrip demo_json
    (Cmd.Transition "order 7" "--actor" "ship" "ann" (VObject []) (Some 3%N))).
  split_and!; try done; try reflexivity.
Defined.

Lemma demo_shell_defs : ∀ s def, json_machine s = Ok def → only_document def.
Proof. intros s def. cbn. case_decide; [by intros [= <-]|done]. Qed.
Lemma only_document_nul_free : ∀ def, only_document def → nul_free (md_name def) = true.
Proof. by intros def ->. Qed.

Lemma shell_session_witness :
  ∃ a a', inv_at true only_document 0 [] (start []) a
    ∧ inv_at true only_document 8 [] (repl_loop script (start [])).2 a' ∧ extends a a'.
Proof.
  eapply (shell_session true only_document 0 [] (start []) script
    (repl_loop script (start [])).1.1 (repl_loop script (start [])).1.2);
    [apply reach_init; [apply demo_holds|intros _; apply demo_fit]|done|apply demo_shell_defs|
     apply only_document_nul_free|repeat constructor|].
  by destruct (repl_loop script (start [])) as [[??]?].
Defined.

(** The short keyword in capitals, a tab, a quoted entity, an option given twice
    and no context. *)
Definition tr_line : string :=
  "  TR 'doc-1'" +:+ String "009"%char "document submit --actor bob --expect-version 0 --actor 'ann lee' ".

