(* ===== verification/Ctl.v ===== *)
(** * smdbctl: administration from the command line

    Models [crates/smdbctl/src/main.rs]: the subcommands over a local [Engine],
    what they print and the error the process ends with. The arguments come
    parsed (clap); the host interface is that of [Smash]. *)
From S2P Require Import Prelude Keys Text Core Storage StorageSpec StorageTrait Channel Engine EngineSpec EngineRun Dispatch System.
From S2P Require Import Messages Smash SmashProps.

Module Command.

Inductive Command : Type :=
| Status
| Machines
| Machine (name : string)
| Current (entity_id machine : string)
| History (entity_id machine : string) (limit : option N)
| Define (file : string)
| Transition (entity_id machine event : string) (actor ctx : option string)
    (expected_version : option N).

End Command.
Abbreviation Command := Command.Command.

Record CtlArgs : Type := {
  ca_addr : string;
  ca_token : option string;
  ca_data_dir : string;
  ca_command : Command;
}.

Section ctl.
Context {SE : StorageEngine} {MP : Mpsc ChangeRecord} {EN : Env} {SH : Shell}.

Definition fmt_datetime (dt : Time) : string := format_time "%Y-%m-%d %H:%M:%S UTC" dt.
Definition print_separator : list string := [rule_line 60].

Definition print_machine (m : MachineDefinition) : list string :=
  ["Machine:      " +:+ md_name m;
   "Version:      " +:+ pretty (md_version m);
   "Created:      " +:+ fmt_datetime (md_created_at m);
   "Initial:      " +:+ md_initial_state m]
  ++ machine_body m.

Definition print_machines (machines : list MachineDefinition) : list string :=
  match machines with
  | [] => ["No machines defined."]
  | _ =>
      [pad_right 30 "Name" +:+ " " +:+ pad_left 7 "Version" +:+ "  Initial State"]
      ++ print_separator ++ (machine_row <$> machines)
      ++ [newline +:+ pretty (length machines) +:+ " machine(s) total."]
  end.

Definition print_state (state : EntityState) : list string :=
  ["Entity:    " +:+ es_entity_id state;
   "Machine:   " +:+ es_machine state;
   "State:     " +:+ es_current_state state;
   "Version:   " +:+ pretty (es_version state);
   "Updated:   " +:+ fmt_datetime (es_updated_at state);
   "Created:   " +:+ fmt_datetime (es_created_at state)].

Definition record_row (r : TransitionRecord) : string :=
  pad_left 8 (pretty (rec_sequence r)) +:+ "  "
  +:+ pad_right 22 (format_time "%Y-%m-%d %H:%M:%S" (rec_timestamp r)) +:+ "  "
  +:+ pad_right 20 (rec_event r) +:+ "  " +:+ pad_right 20 (rec_from_state r) +:+ "  "
  +:+ pad_right 20 (rec_to_state r) +:+ "  " +:+ rec_actor r.

Definition print_history (entity_id machine : string) (records : list TransitionRecord)
    : list string :=
  match records with
  | [] => ["No history found for '" +:+ entity_id +:+ "' in '" +:+ machine +:+ "'."]
  | _ =>
      [pad_left 8 "Seq" +:+ "  " +:+ pad_right 22 "Timestamp" +:+ "  " +:+ pad_right 20 "Event"
       +:+ "  " +:+ pad_right 20 "From" +:+ "  " +:+ pad_right 20 "To" +:+ "  Actor"]
      ++ print_separator ++ (record_row <$> records)
      ++ [newline +:+ pretty (length records) +:+ " record(s)."]
  end.

Definition print_result (r : TransitionResult) : list string :=
  ["Transition applied successfully.";
   "  Entity:    " +:+ tr_entity_id r;
   "  Machine:   " +:+ tr_machine r;
   "  From:      " +:+ tr_from_state r;
   "  To:        " +:+ tr_to_state r;
   "  Version:   " +:+ pretty (tr_version r);
   "  Seq:       " +:+ pretty (tr_sequence r);
   "  Txn ID:    " +:+ tr_transition_id r;
   "  Timestamp: " +:+ fmt_datetime (tr_timestamp r)].

(** [status] needs no database. *)
Definition status (addr data_dir : string) (canonicalize : string → Res string string)
    (exists_file : string → bool) : list string :=
  let db_path := path_join data_dir "statemaster.redb" in
  ["addr:     " +:+ addr +:+ " (local mode)";
   "data_dir: " +:+ match canonicalize data_dir with Ok p => p | Err _ => data_dir end;
   "db_file:  " +:+ db_path;
   "db_exists: " +:+ if exists_file db_path then "yes" else "no"].

(** What is printed, the result of [main] and the engine afterwards. *)
Definition Run : Type := list string * Res unit (list string) * Engine.

(** [op.with_context(..)?], then print. *)
Definition checked {A} (context : string) (op : St Engine EngineError A) (print : A → list string)
    (e : Engine) : Run :=
  match op e with
  | (Ok x, e) => (print x, Ok tt, e)
  | (Err err, e) => ([], Err (context :: chain_engine err), e)
  end.

Definition run_define (file : string) (e : Engine) : Run :=
  match fs_read_to_string file with
  | Err why => ([], Err ["reading file '" +:+ file +:+ "'"; why], e)
  | Ok content =>
      match json_machine content with
      | Err why => ([], Err ["parsing MachineDefinition from '" +:+ file +:+ "'"; why], e)
      | Ok definition =>
          checked ("defining machine '" +:+ md_name definition +:+ "'") (define_machine definition)
            (λ _, ["Machine '" +:+ md_name definition +:+ "' defined successfully."]) e
      end
  end.

Definition transition_context (entity_id machine event : string) : string :=
  "firing '" +:+ event +:+ "' on '" +:+ entity_id +:+ "' in '" +:+ machine +:+ "'".

Definition run_transition (entity_id machine event : string) (actor ctx : option string)
    (expected_version : option N) (e : Engine) : Run :=
  match match ctx with
        | Some s => map_err (λ why, ["parsing ctx JSON: " +:+ s; why]) (json_value s)
        | None => Ok (VObject [])
        end with
  | Err chain => ([], Err chain, e)
  | Ok ctx_value =>
      checked (transition_context entity_id machine event)
        (transition entity_id machine event (default "smdbctl" actor) ctx_value expected_version None)
        print_result e
  end.

(** The commands that need the database; [Status] is handled before. *)
Definition run (command : Command) (e : Engine) : option Run :=
  match command with
  | Command.Status => None
  | Command.Machines => Some (checked "listing machines" list_machines print_machines e)
  | Command.Machine name =>
      Some (checked ("getting machine '" +:+ name +:+ "'") (get_machine name)
              (λ m, print_separator ++ print_machine m ++ print_separator) e)
  | Command.Current entity_id machine =>
      Some (checked ("getting current state for '" +:+ entity_id +:+ "' in '" +:+ machine +:+ "'")
              (current entity_id machine) print_state e)
  | Command.History entity_id machine limit =>
      Some (checked ("getting history for '" +:+ entity_id +:+ "' in '" +:+ machine +:+ "'")
              (history entity_id machine limit None) (print_history entity_id machine) e)
  | Command.Define file => Some (run_define file e)
  | Command.Transition entity_id machine event actor ctx expected_version =>
      Some (run_transition entity_id machine event actor ctx expected_version e)
  end.

(** [None] stands for the unreachable branch. *)
Definition ctl_main (args : CtlArgs) (canonicalize : string → Res string string)
    (exists_file : string → bool) (mkdir : Res unit string) (opened : Res store StorageError)
    (clock uuids : nat) : option (list string * Res unit (list string) * option Engine) :=
  match ca_command args with
  | Command.Status =>
      Some (status (ca_addr args) (ca_data_dir args) canonicalize exists_file, Ok tt, None)
  | command =>
      match open_engine (ca_data_dir args) mkdir opened clock uuids with
      | Err chain => Some ([], Err chain, None)
      | Ok e =>
          match run command e with
          | Some (printed, r, e) => Some (printed, r, Some e)
          | None => None
          end
      end
  end.

End ctl.

(** ** Properties *)

Section ctl_properties.
Context {SE : StorageEngine} {SO : StorageOk SE} {MP : Mpsc ChangeRecord} {MO : MpscOk ChangeRecord}.
Context {EN : Env} {EO : EnvOk EN} {SH : Shell}.

(** The branch marked unreachable is. *)
Lemma ctl_main_total args canonicalize exists_file mkdir opened clock uuids :
  is_Some (ctl_main args canonicalize exists_file mkdir opened clock uuids).
Proof.
  unfold ctl_main. destruct (ca_command args); eauto; destruct (open_engine _ _ _ _ _); eauto;
    cbn [run]; by destruct_and?; repeat case_match; eauto.
Qed.

Definition names_nul_free (command : Command) : Prop :=
  match command with
  | Command.Current en m | Command.History en m _ | Command.Transition en m _ _ _ _ =>
      nul_free en = true ∧ nul_free m = true
  | _ => True
  end.

Lemma checked_engine {A} context (op : St Engine EngineError A) print e printed r e' :
  checked context op print e = (printed, r, e') →
  ∃ x, op e = (x, e') ∧ match x with
                        | Ok x => printed = print x ∧ r = Ok tt
                        | Err err => printed = [] ∧ r = Err (context :: chain_engine err)
                        end.
Proof. unfold checked. destruct (op e) as [[x|err] e1]; intros [= <- <- <-]; eexists; done. Qed.

(** A command keeps the invariant, and one that fails prints nothing. *)
Theorem ctl_command_safe (b : bool) (defs : MachineDefinition → Prop) (n : nat) (reg : Registry)
    (e : Engine) (a : Abs) (command : Command) (printed : list string)
    (r : Res unit (list string)) (e' : Engine) :
  inv_at b defs n reg e a → (N.of_nat (S n) < u64_max)%N → names_nul_free command →
  (∀ s def, json_machine s = Ok def → defs def) →
  run command e = Some (printed, r, e') →
  inv_from b defs (S n) reg e' a ∧ (r = Ok tt ∨ printed = []).
Proof.
  intros HI Hn Hk Hd Hrun.
  assert (∀ f, inv_at b defs n reg f a → inv_from b defs (S n) reg f a) as Hread.
  { intros f Hf. eapply inv_from_mono; [by apply inv_from_refl|lia]. }
  assert (∀ (A : Type) context (op : St Engine EngineError A) print e1,
    checked context op print e = (printed, r, e1) → r = Ok tt ∨ printed = []) as Hout.
  { intros A context op print e1 ([x|err] & _ & Hx)%checked_engine; naive_solver. }
  destruct command as [| |name|en m|en m limit|file|en m ev actor ctx v]; cbn [run] in Hrun;
    try done; injection Hrun as Hrun.
  - split; [|by eapply Hout]. apply checked_engine in Hrun as (x & Hx & _).
    apply Hread. eapply inv_returns; [exact HI|apply list_machines_ok|exact Hx].
  - split; [|by eapply Hout]. apply checked_engine in Hrun as (x & Hx & _).
    apply Hread. eapply inv_read; [exact HI|apply (get_machine_ok name None)|exact Hx].
  - destruct Hk. split; [|by eapply Hout]. apply checked_engine in Hrun as (x & Hx & _).
    apply Hread. eapply inv_read; [exact HI|by apply (get_entity_state_ok en m)|exact Hx].
  - destruct Hk. split; [|by eapply Hout]. apply checked_engine in Hrun as (x & Hx & _).
    apply Hread. eapply inv_read; [exact HI|by apply (get_history_ok en m limit None)|exact Hx].
  - unfold run_define in Hrun. destruct (fs_read_to_string file); [|naive_solver].
    destruct (json_machine _) as [def|] eqn:Hj; [|naive_solver]. split; [|by eapply Hout].
    apply checked_engine in Hrun as (x & Hx & _).
    eapply inv_from_mono; [eapply inv_define; [exact HI|by eapply Hd|exact Hx]|lia].
  - destruct Hk as [Hen Hm]. unfold run_transition in Hrun.
    destruct (match ctx with Some _ => _ | None => _ end) as [v0|]; [|naive_solver].
    split; [|by eapply Hout]. apply checked_engine in Hrun as (x & Hx & _).
    by eapply (inv_transition _ _ _ _ _ _ (typed_request en m ev (default "smdbctl" actor) v0 v));
      [exact HI|lia|..].
Qed.

(** [smdbctl transition] on a working store performs the specified step for
    its arguments and tells the truth: it succeeds and prints the committed
    transition, or prints nothing and ends with the engine's error, in its
    context. With a context that is not JSON it does nothing. *)
Theorem ctl_transition_exact (defs : MachineDefinition → Prop) (n : nat) (reg : Registry)
    (e : Engine) (en m ev : string) (actor ctx : option string) (v : option N)
    (printed : list string) (status : Res unit (list string)) (e' : Engine) :
  reachable true defs n reg e → (N.of_nat (S n) < u64_max)%N → e_shutdown e = false →
  nul_free en = true → nul_free m = true →
  run (Command.Transition en m ev actor ctx v) e = Some (printed, status, e') →
  (∃ s why, ctx = Some s ∧ json_value s = Err why ∧ e' = e ∧ printed = []
     ∧ status = Err ["parsing ctx JSON: " +:+ s; why])
  ∨ ∃ a ctx_value r a',
      (ctx = None ∧ ctx_value = VObject [] ∨ ∃ s, ctx = Some s ∧ json_value s = Ok ctx_value)
      ∧ inv_at true defs n reg e a
      ∧ spec_step (e_guards e) a (typed_request en m ev (default "smdbctl" actor) ctx_value v) None r a'
      ∧ inv_at true defs (S n) reg e' a'
      ∧ match r with
        | Ok res => printed = print_result res ∧ status = Ok tt
        | Err err => printed = [] ∧ status = Err (transition_context en m ev :: chain_engine err)
        end.
Proof.
  intros HR Hn Hsd Hen Hm Hrun. destruct (inv_reachable _ _ _ _ _ HR) as [a HI]; [lia|].
  cbn [run] in Hrun. injection Hrun as Hrun. unfold run_transition in Hrun.
  destruct (match ctx with Some s => map_err _ (json_value s) | None => Ok (VObject []) end)
    as [cv|chain] eqn:Hctx.
  - right. apply checked_engine in Hrun as (r & Hr & Hx).
    destruct (inv_spec_step true defs n reg e a (typed_request en m ev (default "smdbctl" actor) cv v) r e' HI)
      as (hit & Hhit & [(a' & Hs & HI' & _)|(? & _)]); [lia|done..| |done].
    assert (hit = None) as -> by (destruct Hhit as [->|[? _]]; done).
    exists a, cv, r, a'. split_and!; [|done..].
    destruct ctx as [s|]; [right|left; naive_solver]. exists s.
    destruct (json_value s); naive_solver.
  - left. destruct ctx as [s|]; [|done]. destruct (json_value s) as [|why] eqn:Hj; [done|].
    cbn in Hctx. injection Hctx as <-. injection Hrun as <- <- <-. exists s, why. done.
Qed.

End ctl_properties.
