(* ===== verification/CtlExamples.v ===== *)
(** * smdbctl on a concrete database *)
From S2P Require Import Prelude Keys Text Core Redb Storage StorageSpec StorageTrait Channel Engine EngineSpec EngineRun.
From S2P Require Import Dispatch System Concrete EngineExamples Messages Smash SmashProps SmashExamples Ctl.
Import Demo.

Definition ctl_args (command : Command) : CtlArgs :=
  {| ca_addr := "localhost:7632"; ca_token := None; ca_data_dir := "data"; ca_command := command |}.

Definition ctl (command : Command) : option (list string * Res unit (list string) * option Engine) :=
  ctl_main (ctl_args command) (λ _, Err "not found") (λ _, false) (Ok tt)
    (Ok (e_storage (run0 []))) 0 0.

Example ctl_status :
  (λ p, p.1) <$> ctl Command.Status
  = Some (["addr:     localhost:7632 (local mode)"; "data_dir: data";
           "db_file:  data/statemaster.redb"; "db_exists: no"], Ok tt).
Proof. vm_compute. reflexivity. Qed.

Example ctl_unknown_machine :
  (λ p, alternate <$> (match p.1.2 with Ok _ => None | Err c => Some c end)) <$> ctl (Command.Machine "x")
  = Some (Some
      "getting machine 'x': storage error: not found: machine 'x': not found: machine 'x'").
Proof. vm_compute. reflexivity. Qed.

Example ctl_submit :
  (λ p, p.1) <$> ctl (Command.Transition "doc-1" "document" "submit" None None (Some 0%N))
  = Some (["Transition applied successfully."; "  Entity:    doc-1"; "  Machine:   document";
           "  From:      draft"; "  To:        review"; "  Version:   1"; "  Seq:       1";
           "  Txn ID:    0"; "  Timestamp: 3"], Ok tt).
Proof. vm_compute. reflexivity. Qed.

Lemma ctl_transition_exact_witness :
  ∃ printed status e',
    run (Command.Transition "doc-1" "document" "submit" None (Some "{}") None) (run0 [])
    = Some (printed, status, e')
    ∧ ((∃ s why, Some "{}" = Some s ∧ json_value s = Err why ∧ e' = run0 [] ∧ printed = []
         ∧ status = Err ["parsing ctx JSON: " +:+ s; why])
       ∨ ∃ a ctx_value r a',
          (Some "{}" = None ∧ ctx_value = VObject []
           ∨ ∃ s, Some "{}" = Some s ∧ json_value s = Ok ctx_value)
          ∧ inv_at true only_document 1 [] (run0 []) a
          ∧ spec_step (e_guards (run0 [])) a
              (typed_request "doc-1" "document" "submit" "smdbctl" ctx_value None) None r a'
          ∧ inv_at true only_document 2 [] e' a'
          ∧ match r with
            | Ok res => printed = Ctl.print_result res ∧ status = Ok tt
            | Err err => printed = [] ∧ status =
                Err (transition_context "doc-1" "document" "submit" :: chain_engine err)
            end).
Proof.
  destruct (run_transition "doc-1" "document" "submit" None (Some "{}") None (run0 []))
    as [[printed status] e'] eqn:Hrun.
  exists printed, status, e'. assert (run (Command.Transition "doc-1" "document" "submit" None
    (Some "{}") None) (run0 []) = Some (printed, status, e')) as Hr by (cbn [run]; by rewrite Hrun).
  split; [exact Hr|].
  apply (ctl_transition_exact only_document 1 [] (run0 []) "doc-1" "document" "submit" None
    (Some "{}") None printed status e'); [by apply run0_reach|done|vm_compute; reflexivity|
    reflexivity|reflexivity|exact Hr].
Defined.
