(* ===== verification/Scan.v ===== *)
(** * A pass of the dispatcher, step by step

    [Engine::dispatch_pass] runs while calls commit. Here it stops between its
    accesses to shared state: the cursor of a subscriber is loaded, a batch is
    read, the effects of a record are read and its change record is sent, the
    cursor is stored, the dead are pruned. The read lock of the subscriber list is
    held up to the pruning. [solo_scan]: alone, the steps compute what
    [dispatch_pass] of [Engine] computes. *)
From S2P Require Import Prelude Core Storage StorageTrait Channel Engine.

(** Where the pass stands; [sub] is the subscriber at index [i], [n] the records
    delivered so far. *)
Inductive Scan : Type :=
| SSub (i : nat) (dead : list string) (n : nat)
| SRead (i : nat) (sub : Subscriber) (cursor : Sequence) (dead : list string) (n : nat)
| SRec (i : nat) (sub : Subscriber) (cursor : Sequence) (records : list TransitionRecord)
    (batch_len : nat) (dead : list string) (n : nat)
| SPrune (dead : list string) (n : nat)
| SDone (n : nat).

Section scan.
Context {SE : StorageEngine} {MP : Mpsc ChangeRecord} {EN : Env}.
Implicit Types (e : Engine) (p : Pass).

(** [sub.delivered_through.store(cursor)]. *)
Definition store_cursor (i : nat) (cursor : Sequence) (e : Engine) : Engine :=
  set_subscribers e (alter (λ s, set_delivered_through s cursor) i (e_subscribers e)) (e_channels e).

(** The store and the channels as the delivery of a record left them. *)
Definition set_pass (e : Engine) (p : Pass) : Engine :=
  set_subscribers (set_storage e (p_storage p)) (e_subscribers e) (p_channels p).

Definition pass_of (e : Engine) (cursor : Sequence) (n : nat) : Pass :=
  {| p_storage := e_storage e; p_channels := e_channels e; p_cursor := cursor; p_delivered := n |}.

Definition scan_step (sc : Scan) (e : Engine) : Scan * Engine :=
  match sc with
  | SSub i dead n =>
      match e_subscribers e !! i with
      | Some sub => (SRead i sub (sub_delivered_through sub) dead n, e)
      | None => (SPrune dead n, e)
      end
  | SRead i sub cursor dead n =>
      match s_get_transitions_after cursor BATCH (e_storage e) with
      | (Ok [], d) | (Err _, d) => (SSub (S i) dead n, set_storage e d)
      | (Ok records, d) => (SRec i sub cursor records (length records) dead n, set_storage e d)
      end
  | SRec i sub cursor [] batch_len dead n =>
      (if (N.of_nat batch_len <? BATCH)%N then SSub (S i) dead n else SRead i sub cursor dead n,
       store_cursor i cursor e)
  | SRec i sub cursor (rec :: rest) batch_len dead n =>
      match deliver_batch (sub_machine_filter sub) (sub_sender sub) [rec] (pass_of e cursor n) with
      | (true, p) => (SRec i sub (p_cursor p) rest batch_len dead (p_delivered p), set_pass e p)
      | (false, p) =>
          (SSub (S i) (dead ++ [sub_id sub]) (p_delivered p),
           store_cursor i (p_cursor p) (set_pass e p))
      end
  | SPrune dead n =>
      (SDone n,
       match dead with
       | [] => e
       | _ => set_subscribers e (filter (λ s, sub_id s ∉ dead) (e_subscribers e)) (e_channels e)
       end)
  | SDone n => (SDone n, e)
  end.

(** Steps up to the end of the pass. *)
Definition scan_next (x y : Scan * Engine) : Prop :=
  (∀ n, x.1 ≠ SDone n) ∧ scan_step x.1 x.2 = y.

(** ** The steps alone *)

Lemma set_pass_of e cursor n : set_pass e (pass_of e cursor n) = e.
Proof. by destruct e. Qed.

Lemma pass_of_set e p : pass_of (set_pass e p) (p_cursor p) (p_delivered p) = p.
Proof. by destruct p. Qed.

Lemma deliver_batch_cons f tx rec rest p :
  deliver_batch f tx (rec :: rest) p =
  match deliver_batch f tx [rec] p with
  | (true, p') => deliver_batch f tx rest p'
  | (false, p') => (false, p')
  end.
Proof. cbn [deliver_batch]. by repeat case_match. Qed.

Lemma scan_batch i sub records len dead e cursor n alive p :
  deliver_batch (sub_machine_filter sub) (sub_sender sub) records (pass_of e cursor n) = (alive, p) →
  rtc scan_next (SRec i sub cursor records len dead n, e)
    (if alive then (SRec i sub (p_cursor p) [] len dead (p_delivered p), set_pass e p)
     else (SSub (S i) (dead ++ [sub_id sub]) (p_delivered p),
           store_cursor i (p_cursor p) (set_pass e p))).
Proof.
  revert e cursor n. induction records as [|rec records IH]; intros e cursor n.
  { intros [= <- <-]. by rewrite set_pass_of. }
  rewrite deliver_batch_cons. destruct (deliver_batch _ _ [rec] _) as [[] p1] eqn:H1.
  - intros H2. eapply rtc_l; [split; [done|]; cbn -[deliver_batch]; by rewrite H1|].
    specialize (IH (set_pass e p1) (p_cursor p1) (p_delivered p1)). rewrite pass_of_set in IH.
    exact (IH H2).
  - intros [= <- <-]. apply rtc_once. split; [done|]. cbn -[deliver_batch]. by rewrite H1.
Qed.

Lemma alter_delivered_same i sub cursor (subs : list Subscriber) :
  subs !! i = Some sub → sub_delivered_through sub = cursor →
  alter (λ s, set_delivered_through s cursor) i subs = subs.
Proof.
  intros Hi <-. apply list_eq. intros j. destruct (decide (j = i)) as [->|Hne].
  - rewrite list_lookup_alter_eq, Hi. by destruct sub.
  - by rewrite list_lookup_alter_ne.
Qed.

Lemma store_cursor_same i sub cursor e :
  e_subscribers e !! i = Some sub → sub_delivered_through sub = cursor → store_cursor i cursor e = e.
Proof. intros Hi Hc. unfold store_cursor. rewrite (alter_delivered_same _ _ _ _ Hi Hc). by destruct e. Qed.

Lemma store_cursor_twice i c c' e : store_cursor i c (store_cursor i c' e) = store_cursor i c e.
Proof.
  unfold store_cursor. cbn. f_equal. apply list_eq. intros j. destruct (decide (j = i)) as [->|Hne].
  - rewrite !list_lookup_alter_eq. by destruct (e_subscribers e !! i).
  - by rewrite !list_lookup_alter_ne.
Qed.

Lemma scan_drain fuel i sub dead e s cursor n alive p :
  e_subscribers e !! i = Some s → sub_delivered_through s = cursor →
  drain fuel (sub_machine_filter sub) (sub_sender sub) (pass_of e cursor n) = Some (alive, p) →
  rtc scan_next (SRead i sub cursor dead n, e)
    (SSub (S i) (if alive then dead else dead ++ [sub_id sub]) (p_delivered p),
     store_cursor i (p_cursor p) (set_pass e p)).
Proof.
  revert e s cursor n. induction fuel as [|fuel IH]; intros e s cursor n Hi Hs; cbn [drain]; [done|].
  cbn [pass_of p_cursor p_storage].
  destruct (s_get_transitions_after cursor BATCH (e_storage e)) as [r d] eqn:Hr.
  assert (r = Ok [] ∨ (∃ err, r = Err err) ∨ ∃ rec rest, r = Ok (rec :: rest)) as Hcase.
  { destruct r as [[|rec rest]|err]; eauto. }
  assert ((r = Ok [] ∨ ∃ err, r = Err err) →
    rtc scan_next (SRead i sub cursor dead n, e)
      (SSub (S i) dead n, store_cursor i cursor (set_pass e (p_set_storage (pass_of e cursor n) d)))) as Hstop.
  { intros Hstop. apply rtc_once. split; [done|]. cbn. rewrite Hr.
    rewrite (store_cursor_same i s cursor); [|done|done]. by destruct Hstop as [-> |[err ->]]. }
  destruct Hcase as [-> |[[err ->]|(rec & rest & ->)]];
    [intros [= <- <-]; apply Hstop; by left|intros [= <- <-]; apply Hstop; eauto|clear Hstop].
  set (e1 := set_storage e d). set (records := rec :: rest) in *. cbv iota beta.
  change (p_set_storage _ d) with (pass_of e1 cursor n).
  destruct (deliver_batch _ _ records _) as [al p1] eqn:Hd.
  pose proof (scan_batch i sub records (length records) dead e1 cursor n al p1 Hd) as Hb.
  intros Hend. eapply rtc_l; [split; [done|]; cbn; by rewrite Hr|]. etrans; [exact Hb|]. clear Hb.
  destruct al; [|injection Hend as <- <-; apply rtc_refl].
  eapply rtc_l; [split; [done|]; cbn [fst snd scan_step]; reflexivity|].
  destruct (N.of_nat (length records) <? BATCH)%N; [injection Hend as <- <-; apply rtc_refl|].
  specialize (IH (store_cursor i (p_cursor p1) (set_pass e1 p1))
    (set_delivered_through s (p_cursor p1)) (p_cursor p1) (p_delivered p1)).
  assert (pass_of (store_cursor i (p_cursor p1) (set_pass e1 p1)) (p_cursor p1) (p_delivered p1) = p1)
    as Hp by by destruct p1.
  rewrite Hp in IH. cbn in IH. rewrite list_lookup_alter_eq, Hi in IH. specialize (IH eq_refl eq_refl Hend).
  assert (set_pass (store_cursor i (p_cursor p1) (set_pass e1 p1)) p
    = store_cursor i (p_cursor p1) (set_pass e p)) as Hsp by done.
  rewrite Hsp, store_cursor_twice in IH. exact IH.
Qed.

Lemma scan_all fuel subs d cs n subs' dead' d' cs' n' before dead e :
  drain_all fuel subs d cs n = Some (subs', dead', d', cs', n') →
  e_subscribers e = before ++ subs → e_storage e = d → e_channels e = cs →
  rtc scan_next (SSub (length before) dead n, e)
    (SPrune (dead ++ dead') n', set_subscribers (set_storage e d') (before ++ subs') cs').
Proof.
  revert d cs n subs' dead' d' cs' n' before dead e.
  induction subs as [|sub subs IH]; intros d cs n subs' dead' d' cs' n' before dead e; cbn [drain_all].
  { intros [= <- <- <- <- <-] Hs <- <-. rewrite !app_nil_r in *. apply rtc_once. split; [done|].
    cbn. rewrite Hs, lookup_ge_None_2 by done. rewrite <- Hs. by destruct e. }
  destruct (drain _ _ _ _) as [[alive p]|] eqn:Hd; [|done].
  destruct (drain_all fuel subs _ _ _) as [[[[[s1 x1] d1] cs1] n1]|] eqn:Ha; [|done].
  intros [= <- <- <- <- <-] Hs <- <-.
  assert (e_subscribers e !! length before = Some sub) as Hi by (rewrite Hs; by apply list_lookup_middle).
  eapply rtc_l; [split; [done|]; cbn; by rewrite Hi|].
  etrans; [by eapply scan_drain; [exact Hi|reflexivity|exact Hd]|].
  replace (S (length before)) with (length (before ++ [set_delivered_through sub (p_cursor p)]))
    by (rewrite length_app; cbn; lia).
  set (e1 := store_cursor _ _ _).
  assert (e_subscribers e1 = (before ++ [set_delivered_through sub (p_cursor p)]) ++ subs) as Hs1.
  { cbn. rewrite Hs, <- app_assoc. cbn. rewrite alter_app_r_alt by done. by rewrite Nat.sub_diag. }
  pose proof (IH _ _ _ _ _ _ _ _ _ (if alive then dead else dead ++ [sub_id sub]) e1 Ha Hs1 eq_refl eq_refl) as H.
  rewrite <- app_assoc in H. destruct alive; [exact H|]. by rewrite <- app_assoc in H.
Qed.

(** The steps of a pass that nothing interrupts compute [dispatch_pass]: the same
    deliveries, cursors, prunings and count, whatever the store answers. *)
Lemma solo_scan fuel e n e' :
  dispatch_pass fuel e = Some (n, e') → rtc scan_next (SSub 0 [] 0, e) (SDone n, e').
Proof.
  unfold dispatch_pass. destruct (drain_all _ _ _ _ _) as [[[[[subs dead] d] cs] n1]|] eqn:Ha; [|done].
  intros [= <- <-]. etrans; [exact (scan_all _ _ _ _ _ _ _ _ _ _ [] [] e Ha eq_refl eq_refl eq_refl)|].
  apply rtc_once. split; [done|]. cbn. destruct dead; [|done].
  f_equal. f_equal. symmetry. apply filter_all. set_solver.
Qed.

End scan.
