(* ===== verification/Concurrent.v ===== *)
(** * The engine under concurrent calls

    [Engine::transition] runs on many blocking workers at once, and the
    [Dispatcher] runs beside them. Here a call of [transition] is a thread that
    stops between its accesses to shared state (the shutdown flag, the stripe
    lock, each storage call, the guard registry, the notification): its program
    counter [Pc] holds its local variables. A configuration has the engine, the
    stripe locks, the threads and the dispatcher; [conf_step] interleaves their
    steps with the other operations of clients in every order.

    Each storage call is one redb transaction, which redb makes atomic. The
    dispatcher stops between its accesses, too: a pass is taken apart in [Scan],
    the publication of the outbox here. Clock and identifier draws belong to the
    step that precedes the next access. *)
From S2P Require Import Prelude Core Keys Storage StorageSpec StorageTrait Channel Engine EngineSpec EngineRun System Scan.

(** ** A call of [transition], step by step *)

(** The local variables once the event is planned. *)
Record Plan : Type := {
  pl_definition : MachineDefinition;
  pl_now : Time;
  pl_state : string;
  pl_version : Version;
  pl_created_at : Time;
  pl_rule : TransitionRule;
}.

(** The arguments of [execute_transition]. *)
Record Prepared : Type := {
  pp_record : TransitionRecord;
  pp_new_state : EntityState;
  pp_effects : list Effect;
}.

Inductive Pc : Type :=
| PStart
| PLock
| PIdem
| PMachine
| PLoad (definition : MachineDefinition)
| PGuards (plan : Plan)
| PCommit (prepared : Prepared)
| PNotify (result : TransitionResult)
| PUnlock (r : Res TransitionResult EngineError)
| PDone (r : Res TransitionResult EngineError).

Section threads.
Context {SE : StorageEngine} {MP : Mpsc ChangeRecord} {EN : Env}.
Local Open Scope st_scope.

Definition stripe (q : Request) : N := entity_lock (q_entity q) (q_machine q).

Definition plan_part (q : Request) (definition : MachineDefinition)
    : St Engine EngineError Plan :=
  now0 <- now ;;
  cur <- load_current definition now0 (q_entity q) (q_machine q) ;;
  let '(current_state, current_version, created_at) := cur in
  core (check_expected (q_entity q) (q_machine q) (q_expected q) current_version) ;;
  rule <- core (FsmPlanner.plan_transition definition current_state (q_event q) (q_entity q)) ;;
  st_ret {| pl_definition := definition; pl_now := now0; pl_state := current_state;
            pl_version := current_version; pl_created_at := created_at; pl_rule := rule |}.

(** The guards, then the record, the projection and the effects. *)
Definition prepare_part (q : Request) (p : Plan) : St Engine EngineError Prepared :=
  registry <- gets e_guards ;;
  updated <- now ;;
  created <- now ;;
  let dummy_state :=
    {| es_entity_id := q_entity q; es_machine := q_machine q;
       es_current_state := pl_state p; es_version := pl_version p;
       es_updated_at := updated; es_created_at := created |} in
  core (FsmPlanner.validate_guards (pl_rule p)
          (eval_guards registry (rule_guards (pl_rule p)) dummy_state (q_ctx q))) ;;
  id <- uuid ;;
  ts <- now ;;
  let record := FsmPlanner.build_transition_record id ts (q_entity q) (q_machine q)
                  (pl_state p) (rule_to_state (pl_rule p)) (q_event q) (q_actor q) (q_ctx q)
                  (q_key q) in
  effects <- new_effects (rec_id record)
               (FsmPlanner.compute_effects (pl_definition p) (q_event q)) ;;
  let new_version := add64 (pl_version p) 1 in
  st_ret
    {| pp_record := set_rec_version record new_version;
       pp_new_state :=
         {| es_entity_id := q_entity q; es_machine := q_machine q;
            es_current_state := rule_to_state (pl_rule p); es_version := new_version;
            es_updated_at := pl_now p; es_created_at := pl_created_at p |};
       pp_effects := effects |}.

Definition commit_part (p : Prepared) : St Engine EngineError TransitionResult :=
  committed <- storage (s_execute_transition (pp_record p) (pp_new_state p) (pp_effects p)) ;;
  st_ret
    {| tr_entity_id := es_entity_id (pp_new_state p); tr_machine := es_machine (pp_new_state p);
       tr_from_state := rec_from_state (pp_record p);
       tr_to_state := es_current_state (pp_new_state p);
       tr_version := es_version (pp_new_state p); tr_transition_id := rec_id committed.2;
       tr_sequence := committed.1; tr_timestamp := rec_timestamp committed.2 |}.

(** Go on with the value, or return the error (and release the lock). *)
Definition after {A} (m : St Engine EngineError A) (k : A → Pc) (e : Engine) : Pc * Engine :=
  match m e with
  | (Ok x, e) => (k x, e)
  | (Err err, e) => (PUnlock (Err err), e)
  end.

(** One step of a thread that neither waits for its lock nor releases it. *)
Definition thread_step (q : Request) (pc : Pc) (e : Engine) : Pc * Engine :=
  match pc with
  | PStart => (if e_shutdown e then PDone (Err ShuttingDown) else PLock, e)
  | PIdem =>
      after (lookup_idempotency (q_key q))
        (λ hit, match hit with
                | Some existing => PUnlock (Ok (replay_result existing))
                | None => PMachine
                end) e
  | PMachine => after (storage (s_get_machine (q_machine q) None)) PLoad e
  | PLoad definition => after (plan_part q definition) PGuards e
  | PGuards plan => after (prepare_part q plan) PCommit e
  | PCommit prepared => after (commit_part prepared) PNotify e
  | PNotify result => (PUnlock (Ok result), notify_one e)
  | PLock | PUnlock _ | PDone _ => (pc, e)
  end.

(** The thread alone: its lock is free. *)
Definition solo_step (q : Request) (x : Pc * Engine) : Pc * Engine :=
  match x with
  | (PLock, e) => (PIdem, e)
  | (PUnlock r, e) => (PDone r, e)
  | (pc, e) => thread_step q pc e
  end.

(** ** The dispatcher ([Dispatcher::run]) *)

(** Waiting in the [select]; woken ([last] for the round before the return); in
    the pass; the pass done; marking effects published, or failed where that
    failed; returned. *)
Inductive DState : Type :=
| DWait
| DWoken (last : bool)
| DScan (last : bool) (sc : Scan)
| DPassed (last : bool)
| DMarking (last : bool) (effects : list Effect)
| DFailing (last : bool) (effect : Effect) (effects : list Effect)
| DReturned.

(** [notified()] takes the permit. *)
Definition take_permit (e : Engine) : Engine :=
  {| e_storage := e_storage e; e_guards := e_guards e; e_subscribers := e_subscribers e;
     e_channels := e_channels e; e_commit_notify := false;
     e_shutdown := e_shutdown e; e_clock := e_clock e; e_uuids := e_uuids e |}.

(** What ends the wait: the shutdown channel changed (to a value), the permit,
    the poll interval. *)
Inductive Wake : Type :=
| WShutdown (flag : bool)
| WNotified
| WTimer.

Definition on_wake (w : Wake) (e : Engine) : DState * Engine :=
  match w with
  | WShutdown true => (DWoken true, e)
  | WShutdown false => (DWait, e)
  | WNotified => (DWoken false, take_permit e)
  | WTimer => (DWoken false, e)
  end.

(** The end of a round. *)
Definition round_end (last : bool) : DState := if last then DReturned else DWait.

(** One step of [dispatch]; [None] where the dispatcher waits or has returned. *)
Definition dispatch_step (d : DState) (e : Engine) : option (DState * Engine) :=
  match d with
  | DWait | DReturned => None
  | DWoken last => Some (DScan last (SSub 0 [] 0), e)
  | DScan last sc =>
      let '(sc', e') := scan_step sc e in
      Some (match sc' with SDone _ => DPassed last | _ => DScan last sc' end, e')
  | DPassed last =>
      match s_get_pending_effects 256 (e_storage e) with
      | (Ok effects, x) => Some (DMarking last effects, set_storage e x)
      | (Err _, x) => Some (round_end last, set_storage e x)
      end
  | DMarking last [] => Some (round_end last, e)
  | DMarking last (effect :: rest) =>
      match s_mark_effect_published (eff_id effect) (e_storage e) with
      | (Ok _, x) => Some (DMarking last rest, set_storage e x)
      | (Err _, x) => Some (DFailing last effect rest, set_storage e x)
      end
  | DFailing last effect rest =>
      Some (DMarking last rest, set_storage e (s_mark_effect_failed (eff_id effect) (e_storage e)).2)
  end.

(** The pass holds the read lock of the subscriber list. *)
Definition read_locked (d : DState) : bool :=
  match d with
  | DScan _ (SSub _ _ _) | DScan _ (SRead _ _ _ _ _) | DScan _ (SRec _ _ _ _ _ _ _) => true
  | _ => false
  end.

(** ** Configurations *)

Record Config : Type := {
  cf_engine : Engine;
  cf_registry : Registry;
  cf_locks : gmap N nat;
  cf_threads : list (Request * Pc);
  cf_dispatcher : DState;
  cf_stop : bool;
}.

Definition set_engine (c : Config) (e : Engine) : Config :=
  {| cf_engine := e; cf_registry := cf_registry c; cf_locks := cf_locks c;
     cf_threads := cf_threads c; cf_dispatcher := cf_dispatcher c; cf_stop := cf_stop c |}.
Definition set_thread (c : Config) (i : nat) (q : Request) (pc : Pc) : Config :=
  {| cf_engine := cf_engine c; cf_registry := cf_registry c; cf_locks := cf_locks c;
     cf_threads := <[i := (q, pc)]> (cf_threads c); cf_dispatcher := cf_dispatcher c;
     cf_stop := cf_stop c |}.
Definition set_locks (c : Config) (l : gmap N nat) : Config :=
  {| cf_engine := cf_engine c; cf_registry := cf_registry c; cf_locks := l;
     cf_threads := cf_threads c; cf_dispatcher := cf_dispatcher c; cf_stop := cf_stop c |}.
Definition set_dispatcher (c : Config) (d : DState) : Config :=
  {| cf_engine := cf_engine c; cf_registry := cf_registry c; cf_locks := cf_locks c;
     cf_threads := cf_threads c; cf_dispatcher := d; cf_stop := cf_stop c |}.

(** The thread steps by itself from here. *)
Definition running (pc : Pc) : bool :=
  match pc with PLock | PUnlock _ | PDone _ => false | _ => true end.

(** The thread holds its stripe's lock. *)
Definition in_critical (pc : Pc) : bool :=
  match pc with PStart | PLock | PDone _ => false | _ => true end.

(** The other operations of clients: they take no stripe lock. *)
Inductive client_step {MO : MpscOk ChangeRecord} (defs : MachineDefinition → Prop)
    : Registry → Engine → Registry → Engine → Prop :=
| cl_define reg e def r e' :
    defs def → define_machine def e = (r, e') → client_step defs reg e reg e'
| cl_get_machine reg e n r e' :
    get_machine n e = (r, e') → client_step defs reg e reg e'
| cl_list_machines reg e r e' :
    list_machines e = (r, e') → client_step defs reg e reg e'
| cl_current reg e en m r e' :
    nul_free en = true → nul_free m = true →
    current en m e = (r, e') → client_step defs reg e reg e'
| cl_history reg e en m limit after r e' :
    nul_free en = true → nul_free m = true →
    history en m limit after e = (r, e') → client_step defs reg e reg e'
| cl_register_guard reg e n g : client_step defs reg e reg (register_guard n g e)
| cl_subscribe reg e id f after :
    client_step defs reg e (reg ++ [(f, after)]) (subscribe id f after e).2
| cl_unsubscribe reg e id : client_step defs reg e reg (unsubscribe id e)
| cl_shutdown reg e : client_step defs reg e reg (shutdown e)
| cl_receivers reg e cs :
    Forall2 (λ c c', sent c' = sent c ∧ (is_open c' → is_open c)) (e_channels e) cs →
    client_step defs reg e reg (set_subscribers e (e_subscribers e) cs)
| cl_tick reg e clock uuids :
    e_uuids e <= uuids → client_step defs reg e reg (tick clock uuids e).

Inductive conf_step {MO : MpscOk ChangeRecord} (defs : MachineDefinition → Prop)
    : Config → Config → Prop :=
| st_spawn c q :
    nul_free (q_entity q) = true → nul_free (q_machine q) = true →
    conf_step defs c
      {| cf_engine := cf_engine c; cf_registry := cf_registry c; cf_locks := cf_locks c;
         cf_threads := cf_threads c ++ [(q, PStart)]; cf_dispatcher := cf_dispatcher c;
         cf_stop := cf_stop c |}
| st_thread c i q pc pc' e' :
    cf_threads c !! i = Some (q, pc) → running pc = true →
    thread_step q pc (cf_engine c) = (pc', e') →
    conf_step defs c (set_engine (set_thread c i q pc') e')
| st_lock c i q :
    cf_threads c !! i = Some (q, PLock) → cf_locks c !! stripe q = None →
    conf_step defs c (set_locks (set_thread c i q PIdem) (<[stripe q := i]> (cf_locks c)))
| st_unlock c i q r :
    cf_threads c !! i = Some (q, PUnlock r) →
    conf_step defs c (set_locks (set_thread c i q (PDone r)) (delete (stripe q) (cf_locks c)))
| st_client c reg' e' :
    client_step defs (cf_registry c) (cf_engine c) reg' e' →
    (read_locked (cf_dispatcher c) = true → e_subscribers e' = e_subscribers (cf_engine c)) →
    conf_step defs c
      {| cf_engine := e'; cf_registry := reg'; cf_locks := cf_locks c;
         cf_threads := cf_threads c; cf_dispatcher := cf_dispatcher c; cf_stop := cf_stop c |}
| st_stop c :
    conf_step defs c
      {| cf_engine := cf_engine c; cf_registry := cf_registry c; cf_locks := cf_locks c;
         cf_threads := cf_threads c; cf_dispatcher := cf_dispatcher c; cf_stop := true |}
| st_wake c w d e' :
    cf_dispatcher c = DWait →
    match w with
    | WShutdown flag => flag = cf_stop c
    | WNotified => e_commit_notify (cf_engine c) = true
    | WTimer => True
    end →
    on_wake w (cf_engine c) = (d, e') →
    conf_step defs c (set_engine (set_dispatcher c d) e')
| st_dispatch c d e' :
    dispatch_step (cf_dispatcher c) (cf_engine c) = Some (d, e') →
    conf_step defs c (set_engine (set_dispatcher c d) e').

End threads.

(** A process that starts on a store. *)
Definition conf_new {SE : StorageEngine} {MP : Mpsc ChangeRecord} (d : store) (clock uuids : nat)
    : Config :=
  {| cf_engine := new d clock uuids; cf_registry := []; cf_locks := ∅; cf_threads := [];
     cf_dispatcher := DWait; cf_stop := false |}.

(** The configurations after [n] steps from an engine on an empty store. A crash,
    at any point of the calls and of the dispatcher, leaves the store as the last
    storage call left it; the next process starts on it. *)
Inductive conf_reachable {SE : StorageEngine} {SO : StorageOk SE} {MP : Mpsc ChangeRecord}
    {MO : MpscOk ChangeRecord} {EN : Env} (b : bool) (defs : MachineDefinition → Prop)
    : nat → Config → Prop :=
| conf_init d clock uuids :
    holds d empty_abs → fit_if b d → conf_reachable b defs 0 (conf_new d clock uuids)
| conf_next n c c' :
    conf_reachable b defs n c → conf_step defs c c' → conf_reachable b defs (S n) c'
| conf_crash n c d clock uuids :
    conf_reachable b defs n c → reopened (e_storage (cf_engine c)) d →
    e_uuids (cf_engine c) <= uuids → conf_reachable b defs (S n) (conf_new d clock uuids).

(** The same with the configurations that a process went through before it came to
    the last one. *)
Inductive conf_run {SE : StorageEngine} {SO : StorageOk SE} {MP : Mpsc ChangeRecord}
    {MO : MpscOk ChangeRecord} {EN : Env} (b : bool) (defs : MachineDefinition → Prop)
    : nat → list Config → Config → Prop :=
| run_start n d clock uuids :
    conf_reachable b defs n (conf_new d clock uuids) → conf_run b defs n [] (conf_new d clock uuids)
| run_step n h c c' :
    conf_run b defs n h c → conf_step defs c c' → conf_run b defs (S n) (c :: h) c'.

(** ** Schedules

    A schedule names the party that moves next; [exec] runs it. *)

Inductive Action : Type :=
| ASpawn (q : Request)
| AThread (i : nat)
| ADefine (def : MachineDefinition)
| ASubscribe (id : string) (f : option string) (after : Sequence)
| AWake (w : Wake)
| ADispatch.

Section schedules.
Context {SE : StorageEngine} {MP : Mpsc ChangeRecord} {EN : Env}.

(** A thread's step, the lock and its release included; [None] when it waits or
    is done. *)
Definition exec_thread (c : Config) (i : nat) : option Config :=
  match cf_threads c !! i with
  | None => None
  | Some (q, PLock) =>
      match cf_locks c !! stripe q with
      | None => Some (set_locks (set_thread c i q PIdem) (<[stripe q := i]> (cf_locks c)))
      | Some _ => None
      end
  | Some (q, PUnlock r) =>
      Some (set_locks (set_thread c i q (PDone r)) (delete (stripe q) (cf_locks c)))
  | Some (q, PDone _) => None
  | Some (q, pc) =>
      let '(pc', e') := thread_step q pc (cf_engine c) in Some (set_engine (set_thread c i q pc') e')
  end.

Definition wake_enabled (c : Config) (w : Wake) : bool :=
  match w with
  | WShutdown flag => Bool.eqb flag (cf_stop c)
  | WNotified => e_commit_notify (cf_engine c)
  | WTimer => true
  end.

Definition exec_action (c : Config) (x : Action) : option Config :=
  match x with
  | ASpawn q =>
      Some {| cf_engine := cf_engine c; cf_registry := cf_registry c; cf_locks := cf_locks c;
              cf_threads := cf_threads c ++ [(q, PStart)]; cf_dispatcher := cf_dispatcher c;
              cf_stop := cf_stop c |}
  | AThread i => exec_thread c i
  | ADefine def => Some (set_engine c (define_machine def (cf_engine c)).2)
  | ASubscribe id f after =>
      if read_locked (cf_dispatcher c) then None else
      Some {| cf_engine := (subscribe id f after (cf_engine c)).2;
              cf_registry := cf_registry c ++ [(f, after)]; cf_locks := cf_locks c;
              cf_threads := cf_threads c; cf_dispatcher := cf_dispatcher c; cf_stop := cf_stop c |}
  | AWake w =>
      match cf_dispatcher c with
      | DWait =>
          if wake_enabled c w then
            let '(d, e') := on_wake w (cf_engine c) in Some (set_engine (set_dispatcher c d) e')
          else None
      | _ => None
      end
  | ADispatch =>
      match dispatch_step (cf_dispatcher c) (cf_engine c) with
      | Some (d, e') => Some (set_engine (set_dispatcher c d) e')
      | None => None
      end
  end.

Fixpoint exec (c : Config) (xs : list Action) : option Config :=
  match xs with
  | [] => Some c
  | x :: xs => match exec_action c x with Some c' => exec c' xs | None => None end
  end.

(** The requests and definitions of a schedule are admissible. *)
Definition action_ok (defs : MachineDefinition → Prop) (x : Action) : Prop :=
  match x with
  | ASpawn q => nul_free (q_entity q) = true ∧ nul_free (q_machine q) = true
  | ADefine def => defs def
  | _ => True
  end.

Lemma exec_thread_sound {MO : MpscOk ChangeRecord} defs c i c' :
  exec_thread c i = Some c' → conf_step defs c c'.
Proof.
  unfold exec_thread. destruct (cf_threads c !! i) as [[q pc]|] eqn:Hi; [|done].
  destruct pc as [| | | |def|p|prep|res|r|r].
  2: { destruct (cf_locks c !! stripe q) eqn:Hl; [done|]. intros [= <-]. by apply st_lock. }
  8: { intros [= <-]. by apply st_unlock. }
  8: done.
  all: match goal with |- context [thread_step ?q0 ?pc ?e0] =>
    destruct (thread_step q0 pc e0) as [pc' e'] eqn:Hs end;
    intros [= <-]; by eapply st_thread.
Qed.

Lemma define_subscribers def e : e_subscribers (define_machine def e).2 = e_subscribers e.
Proof.
  unfold define_machine, st_bind, core, st_res. destruct (map_err _ _); [|done].
  unfold storage. by destruct (s_store_machine def (e_storage e)).
Qed.

Lemma exec_action_sound {MO : MpscOk ChangeRecord} defs c x c' :
  action_ok defs x → exec_action c x = Some c' → conf_step defs c c'.
Proof.
  destruct x as [q|i|def|id f after|w|]; cbn [action_ok exec_action]; intros Hok.
  - destruct Hok. intros [= <-]. by apply st_spawn.
  - apply exec_thread_sound.
  - intros [= <-]. eapply (st_client _ c (cf_registry c)); [eapply (cl_define _ _ _ def); [done|]|].
    + apply surjective_pairing.
    + intros _. by rewrite (define_subscribers def).
  - destruct (read_locked (cf_dispatcher c)) eqn:Hl; [done|]. intros [= <-].
    apply st_client; [constructor|]. by rewrite Hl.
  - destruct (cf_dispatcher c) eqn:Hd; try done. destruct (wake_enabled c w) eqn:Hw; [|done].
    destruct (on_wake w (cf_engine c)) as [d e'] eqn:Ho. intros [= <-].
    eapply st_wake; [done| |done]. destruct w; cbn in Hw; [by apply eqb_prop|done|done].
  - destruct (dispatch_step _ _) as [[d e']|] eqn:Hd; [|done]. intros [= <-]. by apply st_dispatch.
Qed.

Lemma exec_sound {SO : StorageOk SE} {MO : MpscOk ChangeRecord} b defs n c xs c' :
  conf_reachable b defs n c → Forall (action_ok defs) xs → exec c xs = Some c' →
  conf_reachable b defs (n + length xs) c'.
Proof.
  intros HR HF. revert n c HR. induction HF as [|x xs Hx HF IH]; intros n c HR; cbn [exec length].
  - intros [= <-]. by rewrite Nat.add_0_r.
  - destruct (exec_action c x) as [c1|] eqn:H1; [|done]. intros Hrun.
    replace (n + S (length xs)) with (S n + length xs) by lia. eapply IH; [|done].
    eapply conf_next; [done|]. by eapply exec_action_sound.
Qed.

Lemma exec_run {SO : StorageOk SE} {MO : MpscOk ChangeRecord} b defs n h c xs c' :
  conf_run b defs n h c → Forall (action_ok defs) xs → exec c xs = Some c' →
  ∃ h', conf_run b defs (n + length xs) h' c'.
Proof.
  intros HR HF. revert n h c HR. induction HF as [|x xs Hx HF IH]; intros n h c HR; cbn [exec length].
  - intros [= <-]. rewrite Nat.add_0_r. eauto.
  - destruct (exec_action c x) as [c1|] eqn:H1; [|done]. intros Hrun.
    replace (n + S (length xs)) with (S n + length xs) by lia. eapply IH; [|done].
    eapply run_step; [done|]. by eapply exec_action_sound.
Qed.

End schedules.
