(* ===== verification/Interleave.v ===== *)
(** * Interleavings: what each thread knows and what each step does

    [thread_ok] says what a thread may rely on at each program point; the
    stability lemmas show that the steps of others keep it ([pool_move]), and
    the [step_*] lemmas that its own steps establish it and, once the outcome is
    decided, that it is an outcome of the specification ([verdict]). *)
From S2P Require Import Prelude Core Keys Storage StorageSpec StorageTrait Channel Engine EngineSpec EngineRun Dispatch System.
From S2P Require Import Concurrent.

(** ** What a thread knows *)

Section interleaving.
Context {SE : StorageEngine} {SO : StorageOk SE} {MP : Mpsc ChangeRecord} {MO : MpscOk ChangeRecord}.
Context {EN : Env} {EO : EnvOk EN}.
Context (defs : MachineDefinition → Prop).
Implicit Types (a : Abs) (b : bool) (e : Engine) (q : Request) (c : Config).

(** What a call has read, so far, of what others may change under its lock: the
    answer of the key lookup, the machine's definition, the guard registry. *)
Record Reads : Type := {
  rd_hit : option TransitionRecord → Prop;
  rd_machine : option MachineDefinition → Prop;
  rd_guards : GuardRegistry.GuardRegistry → Prop;
}.
Implicit Types R : Reads.

Record reads_le R R' : Prop := {
  rl_hit x : rd_hit R x → rd_hit R' x;
  rl_machine x : rd_machine R x → rd_machine R' x;
  rl_guards x : rd_guards R x → rd_guards R' x;
}.

(** The answer of the lookup on this store; a store that fails may answer that
    there is none. *)
Definition looked_up b a q (hit : option TransitionRecord) : Prop :=
  hit = spec_hit a q ∨ b = false ∧ hit = None.

(** [R] counts what is read at [pc] from the state as it is. *)
Definition reads_now b R e a q (pc : Pc) : Prop :=
  match pc with
  | PIdem => ∀ hit, looked_up b a q hit → rd_hit R hit
  | PMachine => rd_machine R (a_machines a !! q_machine q)
  | PGuards _ => rd_guards R (e_guards e)
  | _ => True
  end.

(** A definition that was stored under the request's machine, now or before. *)
Definition valid_def q (def : MachineDefinition) : Prop :=
  ∃ def0, defs def0 ∧ well_formed def0 ∧ md_name def0 = q_machine q ∧ def = canon_machine def0.

(** The plan agrees with the entity's state in the store. *)
Record plan_ok a q (p : Plan) : Prop := {
  po_def : valid_def q (pl_definition p);
  po_state : pl_state p = spec_current a (pl_definition p) (q_entity q) (q_machine q);
  po_version : pl_version p = spec_version a (q_entity q) (q_machine q);
  po_created : pl_created_at p = spec_created a (pl_now p) (q_entity q) (q_machine q);
  po_expected : version_ok a q;
  po_rule : FsmPlanner.plan_transition (pl_definition p) (pl_state p) (q_event q) (q_entity q)
            = Ok (pl_rule p);
}.

(** What is about to be committed follows from a plan whose guards passed. *)
Record justified (reg : GuardRegistry.GuardRegistry) a q (p : Plan) (ts : Time) (prep : Prepared) : Prop := {
  ju_plan : plan_ok a q p;
  ju_guards : ∃ t1 t2, guards_pass reg (pl_rule p)
    (guard_state a (pl_definition p) q t1 t2) (q_ctx q) = Ok tt;
  ju_record : pp_record prep = set_rec_version
    (FsmPlanner.build_transition_record (rec_id (pp_record prep)) ts (q_entity q) (q_machine q)
       (pl_state p) (rule_to_state (pl_rule p)) (q_event q) (q_actor q) (q_ctx q) (q_key q))
    (spec_version a (q_entity q) (q_machine q) + 1);
  ju_state : pp_new_state prep = commit_state a q (pl_rule p) (pl_now p);
  ju_effects : Forall2 (effect_for (rec_id (pp_record prep)))
    (FsmPlanner.compute_effects (pl_definition p) (q_event q)) (pp_effects prep);
}.

(** The identifiers it brings are drawn, distinct and not in the store. *)
Definition prep_ids (prep : Prepared) : list string :=
  rec_id (pp_record prep) :: (eff_id <$> pp_effects prep).

Record ids_ok a (u : nat) (prep : Prepared) : Prop := {
  io_drawn x : x ∈ prep_ids prep → ∃ j, j < u ∧ x = new_v4 j;
  io_nodup : NoDup (prep_ids prep);
  io_log r : r ∈ a_log a → rec_id r ∉ prep_ids prep;
  io_outbox x : x ∈ prep_ids prep → a_outbox a !! x = None;
}.

Definition thread_ok R a (u : nat) q (pc : Pc) : Prop :=
  match pc with
  | PMachine => rd_hit R None
  | PLoad def => rd_hit R None ∧ rd_machine R (Some def) ∧ valid_def q def
  | PGuards p => rd_hit R None ∧ rd_machine R (Some (pl_definition p)) ∧ plan_ok a q p
  | PCommit prep =>
      rd_hit R None
      ∧ (∃ p ts reg, rd_machine R (Some (pl_definition p)) ∧ rd_guards R reg ∧ justified reg a q p ts prep)
      ∧ ids_ok a u prep
  | _ => True
  end.

(** *** Interference *)

Definition same_entity a a' q : Prop :=
  a_states a' !! (q_entity q, q_machine q) = a_states a !! (q_entity q, q_machine q).

Lemma plan_ok_stable a a' q p : same_entity a a' q → plan_ok a q p → plan_ok a' q p.
Proof.
  intros Hs [Hd Hst Hv Hc He Hr]. unfold same_entity in Hs. split; try done.
  - unfold spec_current. rewrite Hs. exact Hst.
  - unfold spec_version. rewrite Hs. exact Hv.
  - unfold spec_created. rewrite Hs. exact Hc.
  - unfold version_ok, spec_version in *. by rewrite Hs.
Qed.

Lemma justified_stable reg a a' q p ts prep :
  same_entity a a' q → justified reg a q p ts prep → justified reg a' q p ts prep.
Proof.
  intros Hs [Hp (t1 & t2 & Hg) Hr Hst Hf]. pose proof Hs as Hs'. unfold same_entity in Hs'. split.
  - by eapply plan_ok_stable.
  - exists t1, t2. unfold guard_state, spec_current, spec_version in *. by rewrite Hs'.
  - unfold spec_version in *. by rewrite Hs'.
  - unfold commit_state, spec_version, spec_created in *. by rewrite Hs'.
  - done.
Qed.

(** The store gained no identifier of [prep]. *)
Definition no_new_ids a a' (prep : Prepared) : Prop :=
  (∀ r, r ∈ a_log a' → r ∈ a_log a ∨ rec_id r ∉ prep_ids prep)
  ∧ ∀ x, x ∈ prep_ids prep → a_outbox a !! x = None → a_outbox a' !! x = None.

Lemma ids_ok_stable a a' u u' prep :
  no_new_ids a a' prep → u <= u' → ids_ok a u prep → ids_ok a' u' prep.
Proof.
  intros [Hl Ho] Hu [Hd Hn Hlog Hout]. split; try done.
  - intros x (j & ? & ?)%Hd. exists j. split; [lia|done].
  - intros r [?|?]%Hl; auto.
  - auto.
Qed.

Lemma thread_ok_stable R R' a a' u u' q pc :
  reads_le R R' →
  (in_critical pc = true → same_entity a a' q) →
  (∀ prep, pc = PCommit prep → no_new_ids a a' prep) → u <= u' →
  thread_ok R a u q pc → thread_ok R' a' u' q pc.
Proof.
  intros [HRh HRm HRg] Hs Hn Hu. destruct pc as [| | | |def|p|prep|res|r|r]; cbn in *; try done.
  - auto.
  - intros (? & ? & ?). auto.
  - intros (? & ? & ?). split_and!; [auto..|]. eapply plan_ok_stable; [|done]. auto.
  - intros (? & (p & ts & reg & ? & ? & Hj) & Hi). split_and!; [auto| |].
    { exists p, ts, reg. split_and!; [auto..|]. by eapply justified_stable; [apply Hs|]. }
    eapply ids_ok_stable; [by apply Hn|done|done].
Qed.

Lemma quiet_same_entity a a' q : quiet a a' → same_entity a a' q.
Proof. intros [HS _ _]. unfold same_entity. by rewrite HS. Qed.
Lemma quiet_no_new_ids a a' prep : quiet a a' → no_new_ids a a' prep.
Proof. intros [_ HL HO]. split; [rewrite HL; by left|intros x _; apply HO]. Qed.

(** *** Commits with an older definition *)

Lemma consistent_machines a ms :
  consistent defs a →
  (∀ n d, ms !! n = Some d → ∃ def, defs def ∧ well_formed def ∧ md_name def = n ∧ d = canon_machine def) →
  consistent defs (set_machs a ms).
Proof. intros HC Hms. split; try apply HC. done. Qed.

Lemma consistent_with_machine a q def :
  consistent defs a → valid_def q def →
  consistent defs (set_machs a (<[q_machine q := def]> (a_machines a))).
Proof.
  intros HC (def0 & Hd & Hwf & Hn & ->). apply consistent_machines; [done|].
  intros n d. rewrite lookup_insert. case_decide; [|apply HC]. intros [= <-]. subst n. eauto.
Qed.

Lemma planned_with_machine a q p :
  plan_ok a q p →
  planned (set_machs a (<[q_machine q := pl_definition p]> (a_machines a))) q (pl_definition p) (pl_rule p).
Proof.
  intros [Hd Hst Hv Hc He Hr]. split_and!; [apply lookup_insert_eq|done|].
  rewrite Hst in Hr. exact Hr.
Qed.


(** ** Steps of a thread *)

(** The result a thread has once it is decided. *)
Definition decided (pc : Pc) : option (Res TransitionResult EngineError) :=
  match pc with PUnlock r => Some r | PNotify res => Some (Ok res) | _ => None end.

(** The store with the definition of the request's machine that the call read. *)
Definition with_machine a q (mach : option MachineDefinition) : Abs :=
  set_machs a (partial_alter (λ _, mach) (q_machine q) (a_machines a)).

(** The guards have been looked at. *)
Definition past_plan (pc : Pc) : bool :=
  match pc with PGuards _ | PCommit _ => true | _ => false end.

(** The result is that of a step of the specification on the store as it is, for
    the lookup's answer, the definition and the guards that the call read; or the
    store failed. *)
Definition verdict b R a q (pc : Pc) (r : Res TransitionResult EngineError) a' : Prop :=
  (∃ hit mach reg a1, rd_hit R hit ∧ (hit = None → rd_machine R mach)
     ∧ (past_plan pc = true → rd_guards R reg)
     ∧ spec_step reg (with_machine a q mach) q hit r a1 ∧ a' = set_machs a1 (a_machines a))
  ∨ b = false ∧ (∃ err, r = Err (EStorage err) ∧ is_failure err) ∧ a' = a.

(** The store after the commit of [prep]. *)
Definition committed a q (prep : Prepared) a' : Prop :=
  ∃ rec st, a' = commit_abs a rec st (pp_effects prep) ∧ rec_id rec = rec_id (pp_record prep)
    ∧ es_entity_id st = q_entity q ∧ es_machine st = q_machine q.

Record stepped b (n : nat) R e a q (pc pc' : Pc) e' a' : Prop := {
  sp_inv : stored b defs (S n) e' a';
  sp_ext : extends a a';
  sp_frame : frame e e';
  sp_notify : e_commit_notify e' = e_commit_notify e;
  sp_thread : thread_ok R a' (e_uuids e') q pc';
  sp_critical : in_critical pc' = true;
  sp_change : a' = a ∧ (∀ res, pc' ≠ PNotify res)
    ∨ ∃ prep res, pc = PCommit prep ∧ pc' = PNotify res ∧ committed a q prep a';
  sp_verdict r : decided pc' = Some r → verdict b R a q pc r a';
}.

Lemma stored_same b n e a e' :
  stored b defs n e a → holds (e_storage e') a → fit_if b (e_storage e') → frame e e' →
  stored b defs (S n) e' a.
Proof.
  intros HI Hh Hb Hf. split; try done; try apply HI.
  - eapply drawn_mono; [apply HI|apply Hf].
  - pose proof (sd_count _ _ _ _ _ HI). lia.
Qed.

(** A step that leaves the store alone. *)
Lemma stepped_same b n R e a q pc pc' e' :
  stored b defs n e a → holds (e_storage e') a → fit_if b (e_storage e') → frame e e' →
  e_commit_notify e' = e_commit_notify e → thread_ok R a (e_uuids e') q pc' →
  in_critical pc' = true → (∀ res, pc' ≠ PNotify res) →
  (∀ r, decided pc' = Some r → verdict b R a q pc r a) →
  stepped b n R e a q pc pc' e' a.
Proof.
  intros HI Hh Hb Hf Hn Ht Hc Hp Hv. split; try done.
  - by eapply stored_same.
  - apply extends_refl.
  - by left.
Qed.

Lemma set_machs_id a : set_machs a (a_machines a) = a.
Proof. by destruct a. Qed.
Lemma set_machs_back a ms : set_machs (set_machs a ms) (a_machines a) = a.
Proof. by destruct a. Qed.

(** A verdict that changes nothing. *)
Lemma verdict_same b R a q pc hit mach reg r :
  rd_hit R hit → (hit = None → rd_machine R mach) → (past_plan pc = true → rd_guards R reg) →
  spec_step reg (with_machine a q mach) q hit r (with_machine a q mach) → verdict b R a q pc r a.
Proof.
  intros Hh Hm Hg Hs. left. exists hit, mach, reg, (with_machine a q mach). split_and!; try done.
  unfold with_machine. by rewrite set_machs_back.
Qed.
Lemma verdict_failure b R a q pc err :
  b = false → is_failure err → verdict b R a q pc (Err (EStorage err)) a.
Proof. intros -> ?. right. eauto. Qed.

Lemma step_idem b n R e a q pc' e' :
  stored b defs n e a → reads_now b R e a q PIdem → thread_step q PIdem e = (pc', e') →
  stepped b n R e a q PIdem pc' e' a.
Proof.
  intros HI HR. cbn [thread_step]. unfold after.
  destruct (lookup_idempotency_run b e a (q_key q) (sd_holds _ _ _ _ _ HI) (sd_fit _ _ _ _ _ HI))
    as (hit & d & -> & Hh & Hb & Hhit). apply HR in Hhit.
  destruct hit as [ex|]; intros [= <- <-]; apply stepped_same; try done.
  intros r [= <-]. by apply (verdict_same _ _ _ _ _ (Some ex) None (e_guards e)); [| |done|constructor].
Qed.

Lemma step_machine b n R e a q pc' e' :
  stored b defs n e a → reads_now b R e a q PMachine → rd_hit R None →
  thread_step q PMachine e = (pc', e') → stepped b n R e a q PMachine pc' e' a.
Proof.
  intros HI HR Hmiss. cbn [thread_step]. unfold after, storage.
  destruct (s_get_machine (q_machine q) None (e_storage e)) as [r d] eqn:Hg.
  destruct (read_mode _ _ b _ a r d (get_machine_ok (q_machine q) None) (sd_holds _ _ _ _ _ HI)
    (sd_fit _ _ _ _ _ HI) Hg) as (Hh & Hb & [->|(-> & err & -> & Herr)]).
  2: { intros [= <- <-]. apply stepped_same; try done. intros r [= <-]. by apply verdict_failure. }
  cbn in HR. destruct (a_machines a !! q_machine q) as [def|] eqn:Hm; intros [= <- <-]; apply stepped_same; try done.
  - destruct (c_machines _ _ (sd_consistent _ _ _ _ _ HI) _ _ Hm) as (def0 & ? & ? & ? & ?).
    split_and!; [done|done|by exists def0].
  - intros r [= <-]. apply (verdict_same _ _ _ _ _ None None (e_guards e)); try done.
    constructor. apply lookup_partial_alter_eq.
Qed.

Lemma step_load b n R e a q def pc' e' :
  stored b defs n e a → nul_free (q_entity q) = true → nul_free (q_machine q) = true →
  thread_ok R a (e_uuids e) q (PLoad def) → thread_step q (PLoad def) e = (pc', e') →
  stepped b n R e a q (PLoad def) pc' e' a.
Proof.
  intros HI He Hm (Hmiss & Hrd & Hd). cbn [thread_step]. unfold after, plan_part, st_bind at 1, now at 1.
  cbv beta iota zeta. match goal with |- context [st_bind _ _ ?x] => set (e1 := x) end.
  set (now0 := utc_now (e_clock e)).
  destruct (load_current_run b e1 a def now0 (q_entity q) (q_machine q) (sd_holds _ _ _ _ _ HI)
    (sd_fit _ _ _ _ _ HI) He Hm) as (r & d & Hload & Hh & Hb & Hr).
  assert (frame e (set_storage e1 d)) as Hf by done.
  destruct Hr as [->|(-> & err & -> & Herr)].
  2: { rewrite (bind_err _ _ _ _ _ Hload). intros [= <- <-]. apply stepped_same; try done.
    intros r [= <-]. by apply verdict_failure. }
  rewrite (bind_ok _ _ _ _ _ Hload). unfold core, st_res, st_bind. cbv beta iota.
  set (a0 := set_machs a (<[q_machine q := def]> (a_machines a))).
  assert (a_machines a0 !! q_machine q = Some def) as Ha0 by apply lookup_insert_eq.
  destruct (check_expected_spec a q) as [[-> Hver]|(x & Hx & Hne & ->)]; cbn [map_err].
  2: { intros [= <- <-]. apply stepped_same; try done. intros r [= <-].
    apply (verdict_same _ _ _ _ _ None (Some def) (e_guards e)); [done..|]. by eapply (spec_conflict _ a0). }
  destruct (FsmPlanner.plan_transition def _ _ _) as [rule|err] eqn:Hplan; cbn [map_err];
    intros [= <- <-]; apply stepped_same; try done.
  intros r [= <-]. apply (verdict_same _ _ _ _ _ None (Some def) (e_guards e)); [done..|].
  by eapply (spec_illegal _ a0).
Qed.

Lemma fresh_ids a u (ids : list string) :
  drawn a u → (∀ x, x ∈ ids → ∃ j, u <= j ∧ x = new_v4 j) →
  (∀ r, r ∈ a_log a → rec_id r ∉ ids) ∧ (∀ x, x ∈ ids → a_outbox a !! x = None).
Proof.
  intros [Hl Ho] Hids. split.
  - intros r (i & Hi & Heq)%Hl Hin. destruct (Hids _ Hin) as (j & Hj & Hx).
    rewrite Heq in Hx. apply new_v4_inj in Hx. lia.
  - intros x Hin. apply eq_None_not_Some. intros (i & Hi & Heq)%Ho.
    destruct (Hids _ Hin) as (j & Hj & Hx). rewrite Heq in Hx. apply new_v4_inj in Hx. lia.
Qed.

Lemma new_effects_notify tid rules e r e' :
  new_effects tid rules e = (r, e') → e_commit_notify e' = e_commit_notify e.
Proof.
  revert e r e'. induction rules as [|er rules IH]; intros e r e'; cbn [new_effects]; [by intros [= _ <-]|].
  unfold st_bind, uuid, now. cbv beta iota zeta.
  match goal with |- context [new_effects tid rules ?x] => destruct (new_effects tid rules x) as [r1 e1] eqn:H1 end.
  apply IH in H1. cbn in H1. destruct r1; by intros [= _ <-].
Qed.

Lemma step_guards b n R e a q p pc' e' :
  stored b defs n e a → (N.of_nat n < u64_max)%N → reads_now b R e a q (PGuards p) →
  thread_ok R a (e_uuids e) q (PGuards p) → thread_step q (PGuards p) e = (pc', e') →
  stepped b n R e a q (PGuards p) pc' e' a
  ∧ ∀ prep, pc' = PCommit prep → ∀ x, x ∈ prep_ids prep → ∃ j, e_uuids e <= j ∧ x = new_v4 j.
Proof.
  intros HI Hn HR (Hmiss & Hrd & Hp). cbn [thread_step]. unfold after, prepare_part, gets, now, uuid, core, st_res.
  unfold st_bind, st_ret. cbv beta iota zeta. cbn [e_clock e_uuids e_guards].
  set (t1 := utc_now (e_clock e)). set (t2 := utc_now (S (e_clock e))).
  set (def := pl_definition p). set (a0 := set_machs a (<[q_machine q := def]> (a_machines a))).
  assert ({| es_entity_id := q_entity q; es_machine := q_machine q; es_current_state := pl_state p;
             es_version := pl_version p; es_updated_at := t1; es_created_at := t2 |}
          = guard_state a0 def q t1 t2) as ->.
  { unfold guard_state. by rewrite (po_state _ _ _ Hp), (po_version _ _ _ Hp). }
  destruct (FsmPlanner.validate_guards _ _) as [[]|err] eqn:Hg; cbn [map_err].
  2: { intros [= <- <-]. split; [|done]. apply stepped_same; try done; try apply HI.
    intros r [= <-]. apply (verdict_same _ _ _ _ _ None (Some def) (e_guards e)); [done..|].
    eapply (spec_guard _ a0); [by apply planned_with_machine|exact Hg]. }
  match goal with |- context [new_effects ?x ?y ?z] => destruct (new_effects_run x y z)
    as (effects & e2 & Hne & Hs2 & Hf2 & HF & Hids & Hu) end.
  cbn [FsmPlanner.build_transition_record rec_id] in *. rewrite Hne. cbn [e_uuids] in Hids, Hu.
  intros [= <- <-]. set (prep := {| pp_record := _; pp_new_state := _; pp_effects := _ |}).
  assert (prep_ids prep = new_v4 <$> seq (e_uuids e) (S (length effects))) as Hpi.
  { unfold prep_ids. cbn. rewrite Hids. f_equal. by rewrite (Forall2_length _ _ _ HF). }
  assert (∀ x, x ∈ prep_ids prep → ∃ j, e_uuids e <= j ∧ x = new_v4 j ∧ j < e_uuids e2) as Hin.
  { intros x. rewrite Hpi. intros (j & -> & Hj%elem_of_seq)%list_elem_of_fmap. exists j.
    rewrite Hu, (Forall2_length _ _ _ HF). cbn. split_and!; [lia|done|lia]. }
  split; [|intros ? [= <-] x Hx; destruct (Hin x Hx) as (j & ? & ? & _); eauto].
  destruct (fresh_ids a (e_uuids e) (prep_ids prep) (sd_drawn _ _ _ _ _ HI)) as [Hlog Hout].
  { intros x Hx. destruct (Hin x Hx) as (j & ? & ? & _). eauto. }
  assert (add64 (pl_version p) 1 = spec_version a (q_entity q) (q_machine q) + 1)%N as Hadd.
  { rewrite (po_version _ _ _ Hp). apply add64_small.
    rewrite (spec_version_length defs) by apply HI.
    pose proof (hist_length (q_entity q) (q_machine q) (a_log a)).
    pose proof (sd_count _ _ _ _ _ HI). lia. }
  apply stepped_same; try done; try (rewrite Hs2; apply HI).
  - eapply frame_trans; [|exact Hf2]. split; try done. cbn. lia.
  - by rewrite (new_effects_notify _ _ _ _ _ Hne).
  - split_and!; [done| |split; try done].
    + exists p, (utc_now (S (S (e_clock e)))), (e_guards e). split_and!; [done|done|]. split; [done| | | |done].
      * exists t1, t2. exact Hg.
      * cbn. by rewrite Hadd.
      * unfold commit_state. cbn. by rewrite Hadd, (po_created _ _ _ Hp).
    + intros x Hx. destruct (Hin x Hx) as (j & ? & ? & ?). eauto.
    + rewrite Hpi. apply NoDup_fmap_2; [|apply NoDup_seq]. intros ???. by apply new_v4_inj.
Qed.

(** What [execute_transition] asks of the identifiers. *)
Lemma ids_fresh reg a q p ts prep u :
  justified reg a q p ts prep → ids_ok a u prep →
  nul_free (rec_id (pp_record prep)) = true
  ∧ (∀ r, r ∈ a_log a → rec_id r ≠ rec_id (pp_record prep))
  ∧ fresh_effects (a_outbox a) (pp_effects prep).
Proof.
  intros [_ _ _ _ HF] [Hdr Hnd Hlog Hout].
  destruct (Hdr (rec_id (pp_record prep))) as (j & _ & Hj); [constructor|].
  assert (nul_free (rec_id (pp_record prep)) = true) as Hnul by (rewrite Hj; apply new_v4_nul_free).
  split_and!; [done| |split].
  - intros r Hr Heq. apply (Hlog r Hr). rewrite Heq. constructor.
  - by apply NoDup_cons in Hnd as [_ ?].
  - intros ef Hef. apply Hout. right. by apply list_elem_of_fmap_2.
  - intros ef Hef. by rewrite (effect_for_tid _ _ _ _ HF Hef).
Qed.

(** The abstract store after a commit keeps the invariant. *)
Lemma stored_commit b n e reg a q p ts prep d :
  stored b defs n e a → justified reg a q p ts prep → ids_ok a (e_uuids e) prep →
  (∀ k, q_key q = Some k → idem_used (a_log a) k = false) → fit_if b d →
  let a' := commit_abs a (commit_record a q (pl_definition p) (pl_rule p) (rec_id (pp_record prep)) ts)
              (commit_state a q (pl_rule p) (pl_now p)) (pp_effects prep) in
  holds d a' → stored b defs (S n) (set_storage e d) a' ∧ extends a a'.
Proof.
  intros HI Hj Hi Hkey Hb a' Hh. destruct (ids_fresh _ _ _ _ _ _ _ Hj Hi) as (_ & Hnew & Hfresh).
  destruct Hj as [Hp _ _ _ HF]. destruct Hi as [Hdr _ _ _].
  assert (extends a a') as HX.
  { by apply extends_commit. }
  split; [|done]. split; cbn [set_storage e_storage e_uuids e_subscribers e_channels]; try done.
  - apply (consistent_machines (commit_abs (set_machs a (<[q_machine q := pl_definition p]> (a_machines a)))
      (commit_record (set_machs a (<[q_machine q := pl_definition p]> (a_machines a))) q
         (pl_definition p) (pl_rule p) (rec_id (pp_record prep)) ts)
      (commit_state (set_machs a (<[q_machine q := pl_definition p]> (a_machines a))) q
         (pl_rule p) (pl_now p)) (pp_effects prep)) (a_machines a)).
    + apply consistent_commit; [|by apply planned_with_machine|done|done].
      apply consistent_with_machine; [apply HI|apply Hp].
    + apply HI.
  - destruct (sd_drawn _ _ _ _ _ HI) as [Hl Ho]. split; cbn.
    + intros r [Hr| ->%list_elem_of_singleton]%elem_of_app; [by apply Hl|]. apply Hdr. constructor.
    + intros i [Hi|Hi]%outbox_add_dom; [by apply Ho|]. apply Hdr. by right.
  - cbn. rewrite length_app. pose proof (sd_count _ _ _ _ _ HI). cbn. lia.
Qed.

Lemma step_commit b n R e a q prep pc' e' :
  stored b defs n e a → (N.of_nat (S n) <= u64_max)%N →
  nul_free (q_entity q) = true → nul_free (q_machine q) = true →
  thread_ok R a (e_uuids e) q (PCommit prep) → thread_step q (PCommit prep) e = (pc', e') →
  ∃ a', stepped b n R e a q (PCommit prep) pc' e' a'.
Proof.
  intros HI Hn He Hm (Hmiss & (p & ts & reg0 & Hrd & Hrg & Hj) & Hi).
  pose proof Hj as [Hp (t1 & t2 & Hg) Hrec Hst HF].
  cbn [thread_step]. unfold after, commit_part, st_bind, storage, st_ret.
  set (id := rec_id (pp_record prep)) in *. set (def := pl_definition p) in *.
  set (a0 := set_machs a (<[q_machine q := def]> (a_machines a))).
  assert (planned a0 q def (pl_rule p)) as Hplan by by apply planned_with_machine.
  assert (exec_ok a (pp_record prep) (pp_new_state prep) (pp_effects prep)) as Hexec.
  { destruct (ids_fresh _ _ _ _ _ _ _ Hj Hi) as (Hnul & Hnew & Hfresh).
    pose proof (sd_count _ _ _ _ _ HI). split; [lia| |by rewrite Hst|done|done].
    rewrite Hrec. split_and!; [done|done|exact Hnul]. }
  destruct (s_execute_transition (pp_record prep) (pp_new_state prep) (pp_effects prep) (e_storage e))
    as [res d] eqn:Hex.
  destruct (impl_mode _ _ _ b _ a res d (execute_transition_ok _ _ _) (sd_holds _ _ _ _ _ HI) Hexec
    (sd_fit _ _ _ _ _ HI) Hex) as (Hb & [(a' & Hspec & Ha')|(Hf & (err & -> & Herr) & Ha)]).
  2: { intros [= <- <-]. exists a. apply stepped_same; try done. intros r [= <-]. by apply verdict_failure. }
  unfold writes in Hspec. set (rec := commit_record a q def (pl_rule p) id ts).
  set (st := commit_state a q (pl_rule p) (pl_now p)).
  assert (spec_execute a rec st (pp_effects prep) = (res, a')) as Hspec'.
  { rewrite <- Hspec, Hst, Hrec, (po_state _ _ _ Hp). reflexivity. }
  clear Hspec. unfold rec, st in Hspec'. rewrite spec_execute_commit in Hspec'. fold rec st in Hspec'.
  assert ((∃ k, q_key q = Some k ∧ idem_used (a_log a) k = true
             ∧ res = Err (AlreadyExists ("idempotency key '" +:+ k +:+ "'")) ∧ a' = a)
          ∨ (∀ k, q_key q = Some k → idem_used (a_log a) k = false)
            ∧ res = Ok (rec_sequence rec, rec) ∧ a' = commit_abs a rec st (pp_effects prep)) as Hcase.
  { destruct (q_key q) as [k|]; [destruct (idem_used (a_log a) k) eqn:Hu|]; injection Hspec' as <- <-;
      [left|right|right]; naive_solver. }
  clear Hspec'. destruct Hcase as [(k & Hk & Hused & -> & ->)|(Hkey & -> & ->)]; intros [= <- <-].
  - exists a. apply stepped_same; try done. intros r [= <-].
    apply (verdict_same _ _ _ _ _ None (Some def) reg0); [done..|]. by eapply (spec_duplicate _ a0).
  - destruct (stored_commit b n e reg0 a q p ts prep d HI Hj Hi Hkey Hb Ha') as [HI' HX].
    eexists. split; [exact HI'|exact HX|done|done|done|done| |].
    + right. eexists prep, _. split_and!; [done|done|]. by exists rec, st.
    + intros r [= <-]. left.
      exists None, (Some def), reg0, (commit_abs a0 rec st (pp_effects prep)).
      split_and!; [done..| |by destruct a].
      rewrite Hst, Hrec, (po_state _ _ _ Hp). destruct Hexec as [_ _ _ Hid Hfresh].
      by eapply (spec_commit _ a0 _ def (pl_rule p) t1 t2 (pl_now p) id ts (pp_effects prep)).
Qed.

(** ** Other parties *)

(** What they leave of the subscriber list and of the open channels. *)
Definition fewer e e' : Prop :=
  (∀ s, s ∈ e_subscribers e' → s ∈ e_subscribers e)
  ∧ ∀ x ch', e_channels e' !! x = Some ch' → is_open ch' →
      ∃ ch, e_channels e !! x = Some ch ∧ is_open ch.

Lemma fewer_same e e' :
  e_subscribers e' = e_subscribers e → e_channels e' = e_channels e → fewer e e'.
Proof. intros Hs Hc. unfold fewer. rewrite Hs, Hc. eauto. Qed.

(** What the step of another party may do to the store; a new subscriber comes
    with a notification. *)
Record apart b (n : nat) e a e' a' : Prop := {
  ap_inv : stored b defs (S n) e' a';
  ap_ext : extends a a';
  ap_quiet : quiet a a';
  ap_uuids : e_uuids e <= e_uuids e';
  ap_wake : e_commit_notify e' = true ∨ e_commit_notify e' = e_commit_notify e ∧ fewer e e';
}.

Lemma apart_storage b n e a d a' :
  stored b defs n (set_storage e d) a' → extends a a' → quiet a a' →
  apart b n e a (set_storage e d) a'.
Proof.
  intros HI HX HQ. split; try done; [eapply stored_mono; [done|lia]|]. right. split; [done|].
  by apply fewer_same.
Qed.

(** The store answers a read. *)
Lemma stored_read {A} b n e a (op : St store StorageError A) P r d :
  stored b defs n e a → Implements holds fit always op (returns P) → op (e_storage e) = (r, d) →
  stored b defs n (set_storage e d) a ∧ ((∃ x, r = Ok x ∧ P a x) ∨ b = false ∧ failed r).
Proof.
  intros HI Hop Hr. destruct (returns_mode _ _ b _ a r d Hop (sd_holds _ _ _ _ _ HI)
    (sd_fit _ _ _ _ _ HI) Hr) as (? & ? & ?). split; [|done]. split; try done; apply HI.
Qed.

Lemma stored_reads {A} b n e a (op : St store StorageError A) f r d :
  stored b defs n e a → Implements holds fit always op (reads f) → op (e_storage e) = (r, d) →
  stored b defs n (set_storage e d) a ∧ (r = f a ∨ b = false ∧ failed r).
Proof.
  intros HI Hop Hr. destruct (read_mode _ _ b _ a r d Hop (sd_holds _ _ _ _ _ HI)
    (sd_fit _ _ _ _ _ HI) Hr) as (? & ? & ?). split; [|done]. split; try done; apply HI.
Qed.

Lemma apart_read {A} b n e a (op : St store StorageError A) r e' :
  (∀ r d, op (e_storage e) = (r, d) → stored b defs n (set_storage e d) a) →
  storage op e = (r, e') → apart b n e a e' a.
Proof.
  intros Hop. unfold storage. destruct (op (e_storage e)) as [r0 d] eqn:Hr. intros [= <- <-].
  apply apart_storage; [by eapply Hop|apply extends_refl|done].
Qed.

Lemma apart_same b n e e' a :
  stored b defs n e a → e_storage e' = e_storage e → e_uuids e <= e_uuids e' →
  e_commit_notify e' = true ∨ e_commit_notify e' = e_commit_notify e ∧ fewer e e' →
  apart b n e a e' a.
Proof.
  intros HI Hs Hu Hw. split; try done; [|apply extends_refl].
  split; rewrite ?Hs; try apply HI; [by eapply drawn_mono; [apply HI|]|].
  pose proof (sd_count _ _ _ _ _ HI). lia.
Qed.

Lemma client_step_apart b n reg e a reg' e' :
  stored b defs n e a → client_step defs reg e reg' e' → ∃ a', apart b n e a e' a'.
Proof.
  intros HI Hs. destruct Hs as [reg e def r e' Hdef Hrun|reg e nm r e' Hrun|reg e r e' Hrun
    |reg e en m r e' Hen Hm Hrun|reg e en m limit after r e' Hen Hm Hrun|reg e nm g|reg e id f after
    |reg e id|reg e|reg e cs HF|reg e clock uuids Hu].
  - destruct (stored_define _ _ _ _ _ _ _ _ HI Hdef Hrun) as (a' & d & ? & ? & ? & ->).
    exists a'. by apply apart_storage.
  - exists a. eapply apart_read; [|exact Hrun]. intros ?? Hr.
    by destruct (stored_reads _ _ _ _ _ _ _ _ HI (get_machine_ok _ _) Hr).
  - exists a. eapply apart_read; [|exact Hrun]. intros ?? Hr.
    by destruct (stored_read _ _ _ _ _ _ _ _ HI list_machines_ok Hr).
  - exists a. eapply apart_read; [|exact Hrun]. intros ?? Hr.
    by destruct (stored_reads _ _ _ _ _ _ _ _ HI (get_entity_state_ok _ _ Hen Hm) Hr).
  - exists a. eapply apart_read; [|exact Hrun]. intros ?? Hr.
    by destruct (stored_reads _ _ _ _ _ _ _ _ HI (get_history_ok _ _ _ _ Hen Hm) Hr).
  - exists a. apply apart_same; try done. right. split; [done|by apply fewer_same].
  - exists a. apply apart_same; try done. by left.
  - exists a. apply apart_same; try done. right. split; [done|]. split; [|eauto].
    by intros s [_ Hs]%list_elem_of_filter.
  - exists a. apply apart_same; try done. right. split; [done|by apply fewer_same].
  - exists a. apply apart_same; try done. right. split; [done|]. split; [done|]. cbn.
    intros x ch' Hch' Ho. destruct (Forall2_lookup_r _ _ _ _ _ HF Hch') as (ch & Hch & _ & Hop). eauto.
  - exists a. apply apart_same; try done. right. split; [done|by apply fewer_same].
Qed.

(** Marking an effect. *)
Lemma apart_mark b n e a i st (op : St store StorageError unit) r d :
  stored b defs n e a → Implements holds fit always op (writes (spec_set_status i st)) →
  op (e_storage e) = (r, d) → ∃ a', apart b n e a (set_storage e d) a'.
Proof.
  intros HI Hop Hr. destruct (impl_mode _ _ _ b _ a r d Hop (sd_holds _ _ _ _ _ HI) I
    (sd_fit _ _ _ _ _ HI) Hr) as (Hb & Hc).
  assert (∃ a', holds d a' ∧ status_only a a') as (a' & Hh & HS).
  { destruct Hc as [(a' & Hs & ?)|(_ & _ & ?)]; [|eauto using status_only_refl].
    exists a'. split; [done|]. by eapply status_only_set. }
  exists a'. apply apart_storage; [|by apply status_only_extends|by apply status_only_quiet].
  split; cbn; [done|done| | |].
  - eapply status_only_consistent; [done|apply HI].
  - eapply status_only_drawn; [done|apply HI].
  - rewrite (so_log _ _ HS). apply HI.
Qed.

(** ** The threads together *)

Abbreviation Pool := (list (Request * Pc)).

(** What each call has read, by its index and request. *)
Abbreviation PoolReads := (nat → Request → Reads).
Definition pool_le (RS RS' : PoolReads) : Prop := ∀ i q, reads_le (RS i q) (RS' i q).

Lemma pool_le_refl RS : pool_le RS RS.
Proof. by intros i q. Qed.

Record pool_ok (RS : PoolReads) (ths : Pool) (lks : gmap N nat) a (u : nat) : Prop := {
  pk_names i q pc : ths !! i = Some (q, pc) →
    nul_free (q_entity q) = true ∧ nul_free (q_machine q) = true;
  pk_locks i q pc : ths !! i = Some (q, pc) → in_critical pc = true ↔ lks !! stripe q = Some i;
  pk_owner s i : lks !! s = Some i → ∃ q pc, ths !! i = Some (q, pc) ∧ stripe q = s;
  pk_threads i q pc : ths !! i = Some (q, pc) → thread_ok (RS i q) a u q pc;
  pk_disjoint i j q1 q2 p1 p2 x : i ≠ j → ths !! i = Some (q1, PCommit p1) →
    ths !! j = Some (q2, PCommit p2) → x ∈ prep_ids p1 → x ∉ prep_ids p2;
}.

(** Two threads inside the section of one stripe are one thread. *)
Lemma pool_exclusive RS ths lks a u i j q1 q2 pc1 pc2 :
  pool_ok RS ths lks a u → ths !! i = Some (q1, pc1) → ths !! j = Some (q2, pc2) →
  in_critical pc1 = true → in_critical pc2 = true → stripe q1 = stripe q2 → i = j.
Proof.
  intros HP Hi Hj Hc1 Hc2 Hs. apply (pk_locks _ _ _ _ _ HP _ _ _ Hi) in Hc1.
  apply (pk_locks _ _ _ _ _ HP _ _ _ Hj) in Hc2. congruence.
Qed.

Lemma pool_quiet RS RS' ths lks a a' u u' :
  pool_ok RS ths lks a u → pool_le RS RS' → quiet a a' → u <= u' → pool_ok RS' ths lks a' u'.
Proof.
  intros [Hn Hl Ho Ht Hd] HR HQ Hu. split; try done. intros i q pc Hi.
  eapply thread_ok_stable; [apply HR| |intros ? _; by apply quiet_no_new_ids|done|by eapply Ht].
  intros _. by apply quiet_same_entity.
Qed.

Lemma pool_spawn RS ths lks a u q :
  pool_ok RS ths lks a u → nul_free (q_entity q) = true → nul_free (q_machine q) = true →
  pool_ok RS (ths ++ [(q, PStart)]) lks a u.
Proof.
  intros [Hn Hl Ho Ht Hd] He Hm. split.
  - intros i q' pc [Hi|[-> [= -> ->]]]%lookup_snoc; eauto.
  - intros i q' pc [Hi|[-> [= -> ->]]]%lookup_snoc; [eauto|]. split; [done|].
    intros (q' & pc & Hs%lookup_lt_Some & _)%Ho. lia.
  - intros s i (q' & pc & Hs & ?)%Ho. exists q', pc. split; [|done]. by apply lookup_app_l_Some.
  - intros i q' pc [Hi|[-> [= -> ->]]]%lookup_snoc; [eauto|done].
  - intros i j q1 q2 p1 p2 x Hij [Hi|[_ ?]]%lookup_snoc [Hj|[_ ?]]%lookup_snoc; [eauto|done..].
Qed.

(** Thread [i] moves to [pc'], which keeps or takes or releases its lock. *)
Lemma pool_move RS RS' ths lks lks' a a' u u' i q pc pc' :
  pool_ok RS ths lks a u → pool_le RS RS' → ths !! i = Some (q, pc) →
  (in_critical pc' = true ↔ lks' !! stripe q = Some i) →
  (∀ s, s ≠ stripe q → lks' !! s = lks !! s) →
  (∀ j, lks' !! stripe q = Some j → j ≠ i → lks !! stripe q = Some j) →
  (∀ j, lks !! stripe q = Some j → j ≠ i → lks' !! stripe q = Some j) →
  thread_ok (RS' i q) a' u' q pc' → u <= u' →
  (∀ j q' pc0, j ≠ i → ths !! j = Some (q', pc0) → in_critical pc0 = true → same_entity a a' q') →
  (∀ j q' p, j ≠ i → ths !! j = Some (q', PCommit p) → no_new_ids a a' p) →
  (∀ j q' p p', j ≠ i → pc' = PCommit p → ths !! j = Some (q', PCommit p') →
     ∀ x, x ∈ prep_ids p → x ∉ prep_ids p') →
  pool_ok RS' (<[i := (q, pc')]> ths) lks' a' u'.
Proof.
  intros [Hn Hl Ho Ht Hd] HR Hi Hcr Hne Hin Hout Htok Hu Hsame Hids Hdis.
  assert (∀ j q' pc0, <[i := (q, pc')]> ths !! j = Some (q', pc0) →
            j = i ∧ q' = q ∧ pc0 = pc' ∨ j ≠ i ∧ ths !! j = Some (q', pc0)) as Hlook.
  { intros j q' pc0. rewrite list_lookup_insert_Some. naive_solver. }
  split.
  - intros j q' pc0 [(-> & -> & ->)|[_ ?]]%Hlook; eauto.
  - intros j q' pc0 [(-> & -> & ->)|[Hj Hj']]%Hlook; [done|]. rewrite (Hl _ _ _ Hj').
    destruct (decide (stripe q' = stripe q)) as [->|Hs]; [|by rewrite Hne]. split; eauto.
  - intros s j Hs. destruct (decide (j = i)) as [->|Hj].
    + exists q, pc'. rewrite list_lookup_insert_eq by by eapply lookup_lt_Some. split; [done|].
      destruct (decide (s = stripe q)) as [->|Hsq]; [done|]. rewrite Hne in Hs by done.
      destruct (Ho _ _ Hs) as (q0 & pc0 & Hi0 & <-). congruence.
    + rewrite list_lookup_insert_ne by done. apply Ho.
      destruct (decide (s = stripe q)) as [->|Hsq]; [by apply Hin|by rewrite <- Hne].
  - intros j q' pc0 [(-> & -> & ->)|[Hj Hj']]%Hlook; [done|].
    eapply thread_ok_stable; [apply HR|by eapply Hsame| |done|by eapply Ht].
    intros p ->. by eapply Hids.
  - intros j k q1 q2 p1 p2 x Hjk [(-> & -> & Hp1)|[Hj Hj']]%Hlook [(-> & -> & Hp2)|[Hk Hk']]%Hlook.
    + done.
    + exact (Hdis k _ p1 p2 Hk (eq_sym Hp1) Hk' x).
    + intros H1 H2. exact (Hdis j _ p2 p1 Hj (eq_sym Hp2) Hj' x H2 H1).
    + exact (Hd j k _ _ _ _ x Hjk Hj' Hk').
Qed.

(** A move that changes neither lock nor store. *)
Lemma pool_local RS RS' ths lks a u i q pc pc' :
  pool_ok RS ths lks a u → pool_le RS RS' → ths !! i = Some (q, pc) → in_critical pc' = in_critical pc →
  thread_ok (RS' i q) a u q pc' → (∀ p, pc' ≠ PCommit p) → pool_ok RS' (<[i := (q, pc')]> ths) lks a u.
Proof.
  intros HP HR Hi Hc Ht Hp. eapply pool_move; [done|done|done| |done|done|done|done|done|done| |].
  - rewrite Hc. by eapply HP.
  - intros. split; [by left|done].
  - intros j q' p p' _ ->. by destruct (Hp p).
Qed.

(** A step of thread [i] in its section. *)
Lemma pool_step b n RS ths lks e a i q pc pc' e' a' :
  pool_ok RS ths lks a (e_uuids e) → ths !! i = Some (q, pc) → in_critical pc = true →
  stepped b n (RS i q) e a q pc pc' e' a' →
  (∀ p, pc' = PCommit p → ∀ x, x ∈ prep_ids p → ∃ j, e_uuids e <= j ∧ x = new_v4 j) →
  pool_ok RS (<[i := (q, pc')]> ths) lks a' (e_uuids e').
Proof.
  intros HP Hi Hcr [_ _ Hf _ Ht Hcr' Hch _] Hnew.
  eapply pool_move; [exact HP|apply pool_le_refl|done| |done|done|done|done|apply Hf| | |].
  - pose proof (pk_locks _ _ _ _ _ HP _ _ _ Hi) as Hl. rewrite Hcr'. rewrite Hcr in Hl. done.
  - intros j q' pc0 Hj Hj' Hc0. destruct Hch as [[-> _]|(prep & res & -> & _ & rec & st & -> & _ & He & Hm)]; [done|].
    unfold same_entity. cbn. rewrite lookup_insert_ne; [done|]. rewrite He, Hm. intros [= H1 H2].
    apply Hj. eapply pool_exclusive; [exact HP|exact Hj'|exact Hi|done|done|].
    unfold stripe. by rewrite H1, H2.
  - intros j q' p Hj Hj'. destruct Hch as [[-> _]|(prep & res & -> & _ & rec & st & -> & Hid & _ & _)]; [split; [by left|done]|].
    pose proof (λ x, pk_disjoint _ _ _ _ _ HP i j q q' prep p x (not_eq_sym Hj) Hi Hj') as Hdis. split; cbn.
    + intros r [?| ->%list_elem_of_singleton]%elem_of_app; [by left|right]. rewrite Hid. apply Hdis. constructor.
    + intros x Hx Hnone. apply eq_None_not_Some. intros [Hs|Hs]%outbox_add_dom.
      * rewrite Hnone in Hs. by destruct Hs.
      * apply (Hdis x); [by right|done].
  - intros j q' p p' Hj -> Hj' x Hx Hx'. destruct (Hnew p eq_refl x Hx) as (k & Hk & ->).
    destruct (io_drawn _ _ _ (proj2 (proj2 (pk_threads _ _ _ _ _ HP _ _ _ Hj'))) _ Hx') as (k' & Hk' & Heq).
    apply new_v4_inj in Heq. lia.
Qed.

End interleaving.
