(* ===== verification/ScanProps.v ===== *)
(** * The dispatcher among concurrent calls

    While a pass is under way the cursor of a subscriber is in two places, its
    [delivered_through] and the local [cursor], and the cursor of one whose
    receiver is gone says nothing. [flight] relates the subscriber list to a list
    [live] with the cursors that count, for which the channels are [streams]; every
    step of the dispatcher, of a call and of a client keeps it. [done_so_far] says
    what the pass has caught up with, if nothing was committed meanwhile. *)
From S2P Require Import Prelude Core Keys Storage StorageSpec StorageTrait Channel Engine EngineSpec EngineRun Dispatch System.
From S2P Require Import Scan Concurrent Interleave.

(** ** Where a pass stands *)

(** The subscribers to be pruned. *)
Definition dead_of (d : DState) : list string :=
  match d with
  | DScan _ (SSub _ dead _) | DScan _ (SRead _ _ _ dead _) | DScan _ (SRec _ _ _ _ _ dead _)
  | DScan _ (SPrune dead _) => dead
  | _ => []
  end.

(** The pass is through with the subscriber at [j]. *)
Definition visited (d : DState) (j : nat) : Prop :=
  match d with
  | DScan _ (SSub i _ _) | DScan _ (SRead i _ _ _ _) | DScan _ (SRec i _ _ _ _ _ _) => j < i
  | DScan _ (SPrune _ _) => True
  | _ => False
  end.

(** The cursor that counts. *)
Definition cursor_at (d : DState) (j : nat) (s : Subscriber) : Sequence :=
  match d with
  | DScan _ (SRec i _ cursor _ _ _ _) => if decide (j = i) then cursor else sub_delivered_through s
  | _ => sub_delivered_through s
  end.

Definition accounted (d : DState) (live : list Subscriber) (j : nat) (s : Subscriber) : Prop :=
  set_delivered_through s (cursor_at d j s) ∈ live ∨ visited d j ∧ sub_id s ∈ dead_of d.

(** [m] channels were ever created. *)
Record tracked (d : DState) (m : nat) (subs live : list Subscriber) : Prop := {
  tk_bound s : s ∈ subs → sub_sender s < m;
  tk_nodup : NoDup (sub_sender <$> subs);
  tk_sub j s : subs !! j = Some s → accounted d live j s;
}.

(** The subscriber the pass is at, and the rest of its batch. *)
Definition scan_ok (a : Abs) (subs : list Subscriber) (d : DState) : Prop :=
  match d with
  | DScan _ (SRead i sub cursor _ _) => subs !! i = Some (set_delivered_through sub cursor)
  | DScan _ (SRec i sub cursor records _ _ _) =>
      (∃ x, subs !! i = Some (set_delivered_through sub x))
      ∧ ∃ rest, log_after cursor (a_log a) = records ++ rest
  | _ => True
  end.

Lemma set_delivered_id s : set_delivered_through s (sub_delivered_through s) = s.
Proof. by destruct s. Qed.

(** The pass moves on without a change to the list. *)
Lemma tracked_mono d d' m subs live :
  tracked d m subs live →
  (∀ j s, subs !! j = Some s → cursor_at d' j s = cursor_at d j s) →
  (∀ j, visited d j → visited d' j) → (∀ x, x ∈ dead_of d → x ∈ dead_of d') →
  tracked d' m subs live.
Proof.
  intros [Hm Hn Hs] Hc Hv Hd. split; [done|done|]. intros j s Hj. unfold accounted. rewrite (Hc j s Hj).
  destruct (Hs j s Hj) as [?|[? ?]]; [by left|right; auto].
Qed.

(** Without the read lock the positions do not matter. *)
Lemma unlocked_cursor d j s : read_locked d = false → cursor_at d j s = sub_delivered_through s.
Proof. by destruct d as [| |? []| | | |]. Qed.
Lemma unlocked_visited d j j' : read_locked d = false → visited d j → visited d j'.
Proof. by destruct d as [| |? []| | | |]. Qed.
Lemma unlocked_scan a subs d : read_locked d = false → scan_ok a subs d.
Proof. by destruct d as [| |? []| | | |]. Qed.

Lemma unlocked_accounted d live j j' s :
  read_locked d = false → accounted d live j s → accounted d live j' s.
Proof.
  intros Hl. unfold accounted. rewrite !unlocked_cursor by done.
  intros [?|[?%(unlocked_visited _ _ j') ?]]; auto.
Qed.

Lemma tracked_subset d m subs subs' live :
  read_locked d = false → subs' `sublist_of` subs → tracked d m subs live → tracked d m subs' live.
Proof.
  intros Hl Hsub [Hm Hn Hs].
  assert (∀ s, s ∈ subs' → s ∈ subs) as Hin.
  { intros s Hs'. eapply elem_of_submseteq; [exact Hs'|by apply sublist_submseteq]. }
  split; [auto|by eapply sublist_NoDup; [|apply fmap_sublist]|].
  intros j s Hj%list_elem_of_lookup_2%Hin. apply list_elem_of_lookup in Hj as [k Hk]. by eapply unlocked_accounted, Hs.
Qed.

(** ** Streams *)

Section flight.
Context {SE : StorageEngine} {SO : StorageOk SE} {MP : Mpsc ChangeRecord} {MO : MpscOk ChangeRecord}.
Context {EN : Env} {EO : EnvOk EN}.
Context (defs : MachineDefinition → Prop).
Implicit Types (a : Abs) (b : bool) (e : Engine) (d : DState) (reg : Registry).

Definition flight b a reg d e : Prop :=
  ∃ live, streams b a reg live (e_channels e) ∧ tracked d (length (e_channels e)) (e_subscribers e) live
    ∧ scan_ok a (e_subscribers e) d.

Lemma log_after_snoc c log k : log_after c (log ++ k) = log_after c log ++ log_after c k.
Proof. apply filter_app. Qed.

Lemma scan_ok_extends a a' subs d : extends a a' → scan_ok a subs d → scan_ok a' subs d.
Proof.
  intros [[k Hk] _ _]. destruct d as [| |? [|?????|??? records ???| |]| | | |]; cbn; try done.
  intros [? [rest Hr]]. split; [done|]. exists (rest ++ log_after cursor k).
  by rewrite Hk, log_after_snoc, Hr, <- app_assoc.
Qed.

(** The log grows, nothing else changes. *)
Lemma flight_extends b a a' reg d e e' :
  flight b a reg d e → extends a a' →
  e_subscribers e' = e_subscribers e → e_channels e' = e_channels e → flight b a' reg d e'.
Proof.
  intros (live & HS & HT & HO) HX Hs Hc. exists live. rewrite Hs, Hc.
  split_and!; [by eapply streams_extends|done|by eapply scan_ok_extends].
Qed.

(** A subscriber's channel is given the next records after its cursor. *)
Definition advance (tx : nat) (cursor : Sequence) (live : list Subscriber) : list Subscriber :=
  (λ s, if decide (sub_sender s = tx) then set_delivered_through s cursor else s) <$> live.

Lemma advance_at tx cursor live s :
  s ∈ live → sub_sender s = tx → set_delivered_through s cursor ∈ advance tx cursor live.
Proof. intros Hs <-. apply list_elem_of_fmap. exists s. by rewrite decide_True. Qed.
Lemma advance_other tx cursor live s : s ∈ live → sub_sender s ≠ tx → s ∈ advance tx cursor live.
Proof. intros Hs Hne. apply list_elem_of_fmap. exists s. by rewrite decide_False. Qed.

Lemma streams_deliver b a reg live cs s c c' rs1 rs2 l :
  abs_wf a → (N.of_nat (length (a_log a)) < u64_max)%N →
  streams b a reg live cs → s ∈ live → cs !! sub_sender s = Some c →
  log_after (sub_delivered_through s) (a_log a) = rs1 ++ rs2 → sent c' = sent c ++ l →
  Forall2 (delivered_as b a) (wanted (sub_machine_filter s) rs1) l →
  streams b a reg
    (advance (sub_sender s) (default (sub_delivered_through s) (rec_sequence <$> last rs1)) live)
    (<[sub_sender s := c']> cs).
Proof.
  intros Hwf Hb [Hlen Hnd Hch Hsub] Hs Hc Hlog Hsent HF.
  assert (sub_sender s < length cs) as Hlt by by eapply lookup_lt_Some.
  destruct (Hsub s Hs) as (c0 & start & Hc0 & Hr0 & Hat0).
  assert (c0 = c) as -> by congruence.
  split.
  - by rewrite length_insert.
  - unfold advance. rewrite <- list_fmap_compose. erewrite list_fmap_ext; [exact Hnd|].
    intros j x _. cbn. by case_decide.
  - intros j ch f st Hj Hr Hst. apply list_lookup_insert_Some in Hj as [(<- & <- & _)|[_ Hj]]; [|eauto].
    assert (st = start ∧ f = sub_machine_filter s) as [-> ->] by (split; congruence).
    eexists. eapply stream_at_deliver; eauto.
  - intros x (s0 & -> & Hs0)%list_elem_of_fmap. case_decide as Heq; cbn.
    + assert (s0 = s) as ->.
      { apply list_elem_of_lookup in Hs as [i Hi], Hs0 as [j Hj].
        assert (i = j) as ->; [|congruence]. eapply NoDup_lookup; [exact Hnd|..].
        - by rewrite list_lookup_fmap, Hi.
        - rewrite list_lookup_fmap, Hj. cbn. by rewrite Heq. }
      exists c', start. rewrite list_lookup_insert_eq by done. split_and!; [done|done|].
      intros Hst. eapply stream_at_deliver; eauto.
    + destruct (Hsub s0 Hs0) as (c1 & st & ? & ? & ?). exists c1, st.
      by rewrite list_lookup_insert_ne.
Qed.

(** *** Clients *)

Lemma flight_client b a reg d e reg' e' :
  flight b a reg d e → client_step defs reg e reg' e' →
  (read_locked d = true → e_subscribers e' = e_subscribers e) → flight b a reg' d e'.
Proof.
  intros HF Hs Hlock.
  assert (∀ e1, e_subscribers e1 = e_subscribers e → e_channels e1 = e_channels e →
    flight b a reg d e1) as Hsame by (intros; by eapply flight_extends; [done|apply extends_refl|..]).
  assert (∀ A (op : St store StorageError A) r e1, storage op e = (r, e1) → flight b a reg d e1) as Hread.
  { intros A op r e1. unfold storage. destruct (op (e_storage e)). intros [= <- <-]. by apply Hsame. }
  destruct Hs as [reg e def r e' Hdef Hrun|reg e nm r e' Hrun|reg e r e' Hrun
    |reg e en m r e' Hen Hm Hrun|reg e en m limit after r e' Hen Hm Hrun|reg e nm g|reg e id f after
    |reg e id|reg e|reg e cs HFo|reg e clock uuids Hu]; try by apply Hsame.
  - revert Hrun. unfold define_machine, st_bind, core, st_res.
    destruct (map_err _ _); [apply Hread|]. intros [= <- <-]. by apply Hsame.
  - by eapply Hread.
  - by eapply Hread.
  - by eapply Hread.
  - by eapply Hread.
  - destruct HF as (live & HS & HT & HO). cbn in *.
    assert (read_locked d = false) as Hl.
    { apply not_true_is_false. intros Hl%Hlock%(f_equal length). rewrite length_app in Hl. cbn in Hl. lia. }
    eexists. split; [by apply streams_subscribe|]. cbn. split; [|by apply unlocked_scan].
    destruct HT as [Hm Hn Ht]. split.
    + rewrite length_app. cbn. intros s [Hs%Hm| ->%list_elem_of_singleton]%elem_of_app; cbn; lia.
    + rewrite fmap_app. apply NoDup_app. split_and!; [done| |apply NoDup_singleton].
      intros x (s & -> & Hs%Hm)%list_elem_of_fmap Hx%list_elem_of_singleton. cbn in Hx. lia.
    + intros j s [Hj|[-> ->]]%lookup_snoc.
      * destruct (Ht j s Hj) as [?|?]; [left; apply elem_of_app; by left|by right].
      * left. rewrite unlocked_cursor, set_delivered_id by done. apply elem_of_app. right. constructor.
  - destruct HF as (live & HS & HT & HO). cbn in *. exists live. cbn. split; [done|].
    destruct (read_locked d) eqn:Hl; [by rewrite Hlock|].
    split; [|by apply unlocked_scan]. eapply tracked_subset; [done|apply sublist_filter|done].
  - destruct HF as (live & HS & HT & HO). exists live. cbn.
    rewrite <- (Forall2_length _ _ _ HFo). split; [|done].
    eapply streams_receivers; [|done]. eapply Forall2_impl; [done|]. by intros ?? [? _].
Qed.

(** *** Catching up *)

(** The first [k] subscribers, those whose receiver lives, have been given the
    whole log. *)
Definition caught_upto (k : nat) a e : Prop :=
  ∀ j s ch, j < k → e_subscribers e !! j = Some s → e_channels e !! sub_sender s = Some ch →
    is_open ch → (N.of_nat (length (a_log a)) <= sub_delivered_through s)%N.

Definition caught_up a e : Prop :=
  ∀ s ch, s ∈ e_subscribers e → e_channels e !! sub_sender s = Some ch → is_open ch →
    (N.of_nat (length (a_log a)) <= sub_delivered_through s)%N.

Lemma caught_upto_all k a e : length (e_subscribers e) <= k → caught_upto k a e → caught_up a e.
Proof.
  intros Hk HC s ch [j Hj]%list_elem_of_lookup. eapply HC; [|exact Hj].
  apply lookup_lt_Some in Hj. lia.
Qed.

(** What the pass has caught up with; a batch that is not full is the last one. *)
Definition done_so_far a e d : Prop :=
  match d with
  | DWoken _ => True
  | DScan _ (SSub i _ _) | DScan _ (SRead i _ _ _ _) => caught_upto i a e
  | DScan _ (SRec i sub cursor records batch_len _ _) =>
      caught_upto i a e
      ∧ ((N.of_nat batch_len < BATCH)%N →
         (N.of_nat (length (a_log a)) <= default cursor (rec_sequence <$> last records))%N)
  | _ => caught_up a e
  end.

Lemma caught_upto_fewer k a a' e e' :
  a_log a' = a_log a → fewer e e' → e_subscribers e' = e_subscribers e →
  caught_upto k a e → caught_upto k a' e'.
Proof.
  intros Hl [_ Hop] Hs HC j s ch' Hj. rewrite Hs, Hl. intros Hjs Hch' Ho.
  destruct (Hop _ _ Hch' Ho) as (ch & Hch & Ho'). by eapply HC.
Qed.

Lemma caught_up_fewer a a' e e' :
  a_log a' = a_log a → fewer e e' → caught_up a e → caught_up a' e'.
Proof.
  intros Hl [Hin Hop] HC s ch' Hs Hch' Ho. rewrite Hl.
  destruct (Hop _ _ Hch' Ho) as (ch & Hch & Ho'). eapply HC; eauto.
Qed.

Lemma done_fewer a a' e e' d :
  a_log a' = a_log a → fewer e e' → (read_locked d = true → e_subscribers e' = e_subscribers e) →
  done_so_far a e d → done_so_far a' e' d.
Proof.
  intros Hl Hf Hs. destruct d as [| |? [i|i|i sub cur rs len| |]| | | |]; cbn in *; try done;
    try by apply caught_up_fewer.
  - apply (caught_upto_fewer _ a _ e); auto.
  - apply (caught_upto_fewer _ a _ e); auto.
  - rewrite Hl. intros [HC Hlast]. split; [|done]. apply (caught_upto_fewer _ a _ e); auto.
Qed.

(** The cursor behind all records after [cur]. *)
Lemma cursor_at_end a cur rs :
  abs_wf a → (N.of_nat (length (a_log a)) < u64_max)%N → log_after cur (a_log a) = rs →
  (N.of_nat (length (a_log a)) <= default cur (rec_sequence <$> last rs))%N.
Proof.
  intros Hwf Hb <-. rewrite (log_after_drop _ (aw_seq _ Hwf)).
  set (j := N.to_nat (add64 cur 1) - 1).
  assert (j <= N.to_nat cur) as Hj.
  { unfold j, add64. pose proof (N.Div0.mod_le (cur + 1) 18446744073709551616) as Hle.
    revert Hle. generalize ((cur + 1) mod 18446744073709551616)%N. lia. }
  destruct (decide (j < length (a_log a))) as [Hlt|Hge].
  - rewrite last_lookup, lookup_drop, length_drop.
    replace (j + pred (length (a_log a) - j)) with (pred (length (a_log a))) by lia.
    destruct (a_log a !! pred (length (a_log a))) as [r|] eqn:Hr.
    + apply log_at_lookup, (aw_seq _ Hwf) in Hr. cbn. rewrite Hr. lia.
    + apply lookup_ge_None in Hr. lia.
  - rewrite drop_ge by lia. cbn. lia.
Qed.

(** ** The steps of a pass *)

Record scanned b (n : nat) reg e a d e' d' : Prop := {
  sn_stored : stored b defs n e' a;
  sn_uuids : e_uuids e' = e_uuids e;
  sn_notify : e_commit_notify e' = e_commit_notify e;
  sn_flight : flight b a reg d' e';
  sn_done : b = true → done_so_far a e d → done_so_far a e' d';
}.

Lemma stored_eq b n e e' a :
  stored b defs n e a → e_storage e' = e_storage e → e_uuids e' = e_uuids e → stored b defs n e' a.
Proof. intros [] Hs Hu. split; rewrite ?Hs, ?Hu; done. Qed.

Lemma scan_sub_ok b n reg e a fl i dead k sc' e' :
  stored b defs n e a → flight b a reg (DScan fl (SSub i dead k)) e →
  scan_step (SSub i dead k) e = (sc', e') →
  scanned b n reg e a (DScan fl (SSub i dead k)) e' (DScan fl sc').
Proof.
  intros HI (live & HS & HT & _). cbn.
  destruct (e_subscribers e !! i) as [s|] eqn:Hi; intros [= <- <-]; (split; try done).
  - exists live. cbn. split_and!; [done| |by rewrite set_delivered_id].
    by eapply tracked_mono.
  - exists live. split_and!; [done| |done]. by eapply tracked_mono.
  - intros _. apply caught_upto_all. by apply lookup_ge_None.
Qed.

Lemma scan_read_ok b n reg e a fl i sub cur dead k sc' e' :
  stored b defs n e a → (N.of_nat n < u64_max)%N →
  flight b a reg (DScan fl (SRead i sub cur dead k)) e →
  scan_step (SRead i sub cur dead k) e = (sc', e') →
  scanned b n reg e a (DScan fl (SRead i sub cur dead k)) e' (DScan fl sc').
Proof.
  intros HI Hn (live & HS & HT & HO). cbn in HO. cbn [scan_step].
  destruct (s_get_transitions_after cur BATCH (e_storage e)) as [r d] eqn:Hr.
  destruct (stored_reads _ _ _ _ _ _ _ _ _ HI (get_transitions_after_ok cur BATCH) Hr) as [HI' Hres].
  pose proof (holds_wf _ _ (sd_holds _ _ _ _ _ HI)) as Hwf.
  pose proof (sd_count _ _ _ _ _ HI) as Hcnt.
  assert (∀ j s, e_subscribers e !! j = Some s → j < S i → j < i ∨ j = i ∧ s = set_delivered_through sub cur)
    as Hlast.
  { intros j s Hj Hlt. destruct (decide (j = i)) as [->|]; [right|left; lia]. split; [done|congruence]. }
  assert ((b = true → log_after cur (a_log a) = []) →
    scanned b n reg e a (DScan fl (SRead i sub cur dead k)) (set_storage e d)
      (DScan fl (SSub (S i) dead k))) as Hstop.
  { intros Hnil. split; try done.
    - exists live. split_and!; [done| |done]. eapply tracked_mono; [done|done| |done]. cbn. lia.
    - intros Hb HC j s ch Hj Hjs Hch Ho. destruct (Hlast j s Hjs Hj) as [?|[-> ->]]; [by eapply HC|].
      exact (cursor_at_end a cur [] Hwf ltac:(lia) (Hnil Hb)). }
  destruct r as [[|r0 rs]|err]; intros [= <- <-].
  - apply Hstop. intros ->. destruct Hres as [Heq|[? _]]; [|done]. injection Heq as Heq.
    symmetry in Heq. apply (f_equal length) in Heq. rewrite length_take in Heq. unfold BATCH in Heq. cbn [length] in Heq.
    apply nil_length_inv. lia.
  - assert (r0 :: rs = take (N.to_nat BATCH) (log_after cur (a_log a))) as Hrs.
    { destruct Hres as [Heq|(_ & err & ? & _)]; [by injection Heq|done]. }
    split; try done.
    + exists live. split_and!; [done| |].
      * eapply tracked_mono; [done| |done|done]. cbn. intros j s Hj. case_decide; [|done].
        subst j. rewrite HO in Hj. by injection Hj as <-.
      * cbn. split; [by exists cur|]. exists (drop (N.to_nat BATCH) (log_after cur (a_log a))).
        by rewrite app_comm_cons, Hrs, take_drop.
    + cbn [done_so_far]. intros _ HC. split; [done|]. intros Hlen.
      apply cursor_at_end; [done|lia|]. rewrite Hrs. rewrite take_ge; [done|].
      change (S (length rs)) with (length (r0 :: rs)) in Hlen.
      rewrite Hrs, length_take in Hlen. lia.
  - apply Hstop. intros ->. destruct Hres as [Heq|[? _]]; done.
Qed.

Lemma tracked_store d d' m subs live live' i cur :
  tracked d m subs live →
  (∀ j s, j ≠ i → subs !! j = Some s → accounted d live j s → accounted d' live' j s) →
  (∀ s, subs !! i = Some s → accounted d live i s → accounted d' live' i (set_delivered_through s cur)) →
  tracked d' m (alter (λ s, set_delivered_through s cur) i subs) live'.
Proof.
  intros [Hm Hn Hs] Hne Hat.
  assert (sub_sender <$> alter (λ s, set_delivered_through s cur) i subs = sub_sender <$> subs) as Hsnd.
  { apply list_eq. intros j. rewrite !list_lookup_fmap. destruct (decide (j = i)) as [->|].
    - rewrite list_lookup_alter_eq. by destruct (subs !! i).
    - by rewrite list_lookup_alter_ne. }
  split; [|by rewrite Hsnd|].
  - intros s Hin. apply (list_elem_of_fmap_2 sub_sender) in Hin. rewrite Hsnd in Hin.
    apply list_elem_of_fmap in Hin as (s0 & -> & ?). auto.
  - intros j s. destruct (decide (j = i)) as [->|Hj].
    + rewrite list_lookup_alter_eq, fmap_Some. intros (s0 & Hi & ->). auto.
    + rewrite list_lookup_alter_ne by done. auto.
Qed.

(** The batch is delivered: the cursor is stored. *)
Lemma scan_end_ok b n reg e a fl i sub cur len dead k sc' e' :
  stored b defs n e a → flight b a reg (DScan fl (SRec i sub cur [] len dead k)) e →
  scan_step (SRec i sub cur [] len dead k) e = (sc', e') →
  scanned b n reg e a (DScan fl (SRec i sub cur [] len dead k)) e' (DScan fl sc').
Proof.
  intros HI (live & HS & HT & [x Hi] & _). cbn [scan_step]. intros [= Hsc <-].
  assert (sc' = SSub (S i) dead k ∧ (N.of_nat len < BATCH)%N ∨ sc' = SRead i sub cur dead k) as Hcase.
  { destruct (N.ltb_spec (N.of_nat len) BATCH); [left|right]; by subst. }
  assert (∀ d', (∀ j s, cursor_at d' j s = sub_delivered_through s) → dead_of d' = dead →
    (∀ j, j < i → visited d' j) →
    tracked d' (length (e_channels e)) (e_subscribers (store_cursor i cur e)) live) as Htr.
  { intros d' Hc Hd Hv. eapply tracked_store; [exact HT|..].
    - intros j s Hj _. unfold accounted. rewrite Hc, Hd. cbn. rewrite decide_False by done. naive_solver.
    - intros s _. unfold accounted. rewrite Hc, Hd. cbn. rewrite decide_True by done.
      intros [?|[? _]]; [by left|lia]. }
  assert (e_subscribers (store_cursor i cur e) !! i = Some (set_delivered_through sub cur)) as Hi'.
  { cbn. by rewrite list_lookup_alter_eq, Hi. }
  assert (caught_upto i a e → caught_upto i a (store_cursor i cur e)) as Hup.
  { intros HC j s ch Hj. cbn. rewrite list_lookup_alter_ne by lia. by apply HC. }
  split; [by eapply stored_eq|done|done| |].
  - exists live. split; [done|]. destruct Hcase as [[-> _]| ->]; (split; [apply Htr; cbn; [done|done|lia]|done]).
  - intros _ [HC Hlast]. destruct Hcase as [[-> Hlen]| ->]; [|by apply Hup].
    intros j s ch Hj Hjs Hch Ho. destruct (decide (j = i)) as [->|].
    + rewrite Hi' in Hjs. injection Hjs as <-. by apply Hlast.
    + eapply Hup; [done| |done..]. lia.
Qed.

(** A send that fails finds the receiver gone. *)
Lemma deliver_dead f tx rec (p p' : Pass) c :
  p_channels p !! tx = Some c → deliver_batch f tx [rec] p = (false, p') →
  ∃ c', p_channels p' !! tx = Some c' ∧ ¬ is_open c'.
Proof.
  intros Hc. cbn [deliver_batch]. destruct (skips f rec); [done|].
  destruct (s_get_effects_for_transition _ _) as [re x]. unfold send_on. rewrite Hc.
  destruct (send c _) as [[[]|[]] c'] eqn:Hs; [done|]. intros [= <-]. exists c'. cbn.
  split; [|by eapply send_closed]. apply list_lookup_insert_eq. by eapply lookup_lt_Some.
Qed.

Lemma log_after_next a cur rec rest :
  abs_wf a → (N.of_nat (length (a_log a)) < u64_max)%N →
  log_after cur (a_log a) = rec :: rest → log_after (rec_sequence rec) (a_log a) = rest.
Proof.
  intros Hwf Hb Hlog. destruct (batch_next _ (aw_seq _ Hwf) cur 1 [rec] rec) as [_ ->]; try done.
  - by rewrite Hlog.
  - by rewrite Hlog.
Qed.

(** The other subscribers keep their channels and their place in [live]. *)
Lemma other_sender d m subs live i j s s0 :
  tracked d m subs live → subs !! i = Some s → subs !! j = Some s0 → j ≠ i →
  sub_sender s0 ≠ sub_sender s.
Proof.
  intros [_ Hn _] Hi Hj Hne Heq. apply Hne. eapply NoDup_lookup; [exact Hn|..].
  - rewrite list_lookup_fmap, Hj. reflexivity.
  - rewrite list_lookup_fmap, Hi. cbn. by rewrite Heq.
Qed.

Lemma deliver_one b n reg e a sub cur rec tl k live alive p :
  stored b defs n e a → (N.of_nat n < u64_max)%N → streams b a reg live (e_channels e) →
  set_delivered_through sub cur ∈ live → log_after cur (a_log a) = rec :: tl →
  deliver_batch (sub_machine_filter sub) (sub_sender sub) [rec] (pass_of e cur k) = (alive, p) →
  ∃ c' cur', stored b defs n (set_pass e p) a ∧ p_channels p = <[sub_sender sub := c']> (e_channels e)
    ∧ streams b a reg (advance (sub_sender sub) cur' live) (p_channels p)
    ∧ if alive then p_cursor p = rec_sequence rec ∧ cur' = rec_sequence rec else ¬ is_open c'.
Proof.
  intros HI Hn HS Hlive Hlog Hd.
  pose proof (holds_wf _ _ (sd_holds _ _ _ _ _ HI)) as Hwf. pose proof (sd_count _ _ _ _ _ HI) as Hcnt.
  destruct (st_sub _ _ _ _ _ HS _ Hlive) as (c & start & Hc & _). cbn in Hc.
  assert (∀ r, r ∈ [rec] → r ∈ a_log a) as Hin.
  { intros r ->%list_elem_of_singleton.
    assert (rec ∈ log_after cur (a_log a)) as Hr by (rewrite Hlog; constructor).
    unfold log_after in Hr. by apply list_elem_of_filter in Hr as [_ ?]. }
  destruct (deliver_batch_run b a _ _ _ (pass_of e cur k) c _ _ (sd_holds _ _ _ _ _ HI)
    (sd_fit _ _ _ _ _ HI) Hin Hc Hd)
    as (Hh & Hb & _ & rs1 & rs2 & Hrs & (c' & l & Hcs & Hsent & HF & _) & Hcur).
  assert (log_after cur (a_log a) = rs1 ++ rs2 ++ tl) as Hsplit by by rewrite Hlog, app_assoc, <- Hrs.
  exists c', (default cur (rec_sequence <$> last rs1)). split_and!.
  - split; cbn; try done; apply HI.
  - exact Hcs.
  - rewrite Hcs. exact (streams_deliver b a reg live _ _ c c' rs1 _ l Hwf ltac:(lia) HS Hlive Hc Hsplit Hsent HF).
  - destruct alive.
    + destruct (Hcur eq_refl) as [-> ->]. rewrite app_nil_r in Hrs. by subst rs1.
    + destruct (deliver_dead _ _ _ (pass_of e cur k) _ c Hc Hd) as (c1 & Hc1 & Hno).
      rewrite Hcs in Hc1. cbn in Hc1. rewrite list_lookup_insert_eq in Hc1 by by eapply lookup_lt_Some.
      by injection Hc1 as ->.
Qed.

Lemma others_kept d m subs live i s0 (cs : list (chan ChangeRecord)) c' cur' j s :
  tracked d m subs live → subs !! i = Some s0 → j ≠ i → subs !! j = Some s →
  (∀ c, set_delivered_through s c ∈ live →
     set_delivered_through s c ∈ advance (sub_sender s0) cur' live)
  ∧ <[sub_sender s0 := c']> cs !! sub_sender s = cs !! sub_sender s.
Proof.
  intros HT Hi Hj Hjs. pose proof (other_sender _ _ _ _ i j s0 s HT Hi Hjs Hj) as Hne. split.
  - intros c Hin. by apply advance_other.
  - by apply list_lookup_insert_ne.
Qed.

Lemma scan_rec_ok b n reg e a fl i sub cur rec rest len dead k sc' e' :
  stored b defs n e a → (N.of_nat n < u64_max)%N →
  flight b a reg (DScan fl (SRec i sub cur (rec :: rest) len dead k)) e →
  scan_step (SRec i sub cur (rec :: rest) len dead k) e = (sc', e') →
  scanned b n reg e a (DScan fl (SRec i sub cur (rec :: rest) len dead k)) e' (DScan fl sc').
Proof.
  intros HI Hn (live & HS & HT & [x Hi] & [tl Hlog]). cbn [scan_step].
  pose proof (holds_wf _ _ (sd_holds _ _ _ _ _ HI)) as Hwf. pose proof (sd_count _ _ _ _ _ HI) as Hcnt.
  assert (set_delivered_through sub cur ∈ live) as Hlive.
  { destruct (tk_sub _ _ _ _ HT _ _ Hi) as [Hin|[Hv _]]; [|cbn in Hv; lia].
    revert Hin. cbn. by rewrite decide_True. }
  destruct (deliver_batch _ _ [rec] _) as [alive p] eqn:Hd.
  destruct (deliver_one _ _ _ _ _ _ _ _ _ _ _ _ _ HI Hn HS Hlive Hlog Hd)
    as (c' & cur' & HI' & Hcs & HS' & Hal).
  pose proof (λ j s, others_kept _ _ _ _ i _ (e_channels e) c' cur' j s HT Hi) as Hother.
  cbn in Hother. rewrite <- Hcs in Hother.
  assert (length (p_channels p) = length (e_channels e)) as Hlen by by rewrite Hcs, length_insert.
  destruct alive; intros [= <- <-].
  - destruct Hal as [-> ->]. split; [done|done|done| |].
    + exists (advance (sub_sender sub) (rec_sequence rec) live). split_and!; [done| |].
      * cbn. rewrite Hlen. destruct HT as [Hm Hnd Hs]. split; [done|done|]. intros j s Hj.
        destruct (Hs j s Hj) as [Hin|?]; [left|by right]. cbn in *. case_decide as Hji; [|by apply (Hother j s)].
        subst j. rewrite Hi in Hj. injection Hj as <-.
        by apply (advance_at _ _ _ (set_delivered_through sub cur)).
      * split; [by exists x|]. exists tl. eapply (log_after_next a cur); [done|lia|exact Hlog].
    + intros _ [HC Hlast]. split.
      * intros j s ch Hj Hjs. cbn. rewrite (proj2 (Hother j s ltac:(lia) Hjs)). intros Hch Ho. exact (HC j s ch Hj Hjs Hch Ho).
      * intros Hlt. specialize (Hlast Hlt). rewrite last_cons in Hlast. by destruct (last rest).
  - split; [by eapply stored_eq|done|done| |].
    + exists (advance (sub_sender sub) cur' live). split_and!; [done| |done].
      cbn [e_channels store_cursor set_subscribers set_pass]. rewrite Hlen.
      eapply tracked_store; [exact HT|..].
      * intros j s Hj Hjs. unfold accounted. cbn. rewrite decide_False by done.
        intros [Hin|[? ?]]; [left; by apply (Hother j s)|right; split; [lia|apply elem_of_app; by left]].
      * intros s Hs _. right. cbn. split; [lia|]. cbn in Hs. rewrite Hi in Hs. injection Hs as <-.
        apply elem_of_app. right. constructor.
    + intros _ [HC _] j s ch Hj Hjs Hch Ho. cbn in Hjs, Hch. destruct (decide (j = i)) as [->|Hne].
      * exfalso. rewrite list_lookup_alter_eq, Hi in Hjs. injection Hjs as <-. cbn in Hch.
        rewrite Hcs, list_lookup_insert_eq in Hch; [by injection Hch as <-|].
        exact (tk_bound _ _ _ _ HT _ (list_elem_of_lookup_2 _ _ _ Hi)).
      * rewrite list_lookup_alter_ne in Hjs by done. rewrite (proj2 (Hother j s Hne Hjs)) in Hch.
        eapply (HC j); [lia|done..].
Qed.

Lemma scan_prune_ok b n reg e a fl dead k e' :
  stored b defs n e a → flight b a reg (DScan fl (SPrune dead k)) e →
  (scan_step (SPrune dead k) e).2 = e' →
  scanned b n reg e a (DScan fl (SPrune dead k)) e' (DPassed fl).
Proof.
  intros HI (live & HS & [Hm Hn Hs] & _) <-.
  assert (∃ subs', (scan_step (SPrune dead k) e).2 = set_subscribers e subs' (e_channels e)
    ∧ subs' `sublist_of` e_subscribers e ∧ ∀ s, s ∈ subs' → sub_id s ∉ dead) as (subs' & -> & Hsub & Hd).
  { cbn. destruct dead as [|x dead].
    - exists (e_subscribers e). split_and!; [by destruct e|done|]. intros s _. apply not_elem_of_nil.
    - eexists. split_and!; [done|apply sublist_filter|]. by intros s [? _]%list_elem_of_filter. }
  assert (∀ s, s ∈ subs' → s ∈ e_subscribers e) as Hin.
  { intros s Hs'. eapply elem_of_submseteq; [exact Hs'|by apply sublist_submseteq]. }
  split; [by eapply stored_eq|done|done| |].
  - exists live. split_and!; [done| |done]. cbn. split.
    + auto.
    + by eapply sublist_NoDup; [|apply fmap_sublist].
    + intros j s Hj%list_elem_of_lookup_2. pose proof (Hd s Hj) as Hnd. apply Hin in Hj.
      apply list_elem_of_lookup in Hj as [j' Hj]. destruct (Hs j' s Hj) as [?|[_ ?]]; [by left|done].
  - intros _ HC s ch Hs' Hch Ho. eapply HC; eauto.
Qed.

(** ** A step of the dispatcher *)

Record dispatched b (n : nat) reg e a d e' d' a' : Prop := {
  ds_stored : stored b defs (S n) e' a';
  ds_ext : extends a a';
  ds_quiet : quiet a a';
  ds_uuids : e_uuids e <= e_uuids e';
  ds_notify : e_commit_notify e' = e_commit_notify e;
  ds_flight : flight b a' reg d' e';
  ds_done : b = true → done_so_far a e d → done_so_far a' e' d';
}.

Definition in_pass d : bool := match d with DScan _ _ => true | _ => false end.

(** Outside a pass the state of the dispatcher does not matter to the streams. *)
Lemma flight_idle b a reg d d' e :
  in_pass d = false → in_pass d' = false → flight b a reg d e → flight b a reg d' e.
Proof.
  intros Hd Hd' (live & HS & HT & _). exists live. split_and!; [done| |by destruct d'].
  eapply tracked_mono; [exact HT|..]; by destruct d, d'.
Qed.

Lemma flight_streams b a reg d e :
  in_pass d = false → flight b a reg d e → streams b a reg (e_subscribers e) (e_channels e).
Proof.
  intros Hd (live & [Hlen _ Hch Hsub] & [_ Hn Ht] & _). split; [done|done|done|].
  intros s [j Hj]%list_elem_of_lookup. apply Hsub. destruct (Ht j s Hj) as [Hin|[Hv _]]; [|by destruct d].
  assert (cursor_at d j s = sub_delivered_through s) as Hc by by destruct d.
  by rewrite Hc, set_delivered_id in Hin.
Qed.

Lemma round_end_idle last : in_pass (round_end last) = false.
Proof. by destruct last. Qed.

Lemma done_round_end a e last : caught_up a e → done_so_far a e (round_end last).
Proof. by destruct last. Qed.

Lemma idle_dispatched b n reg e a d x d' a' :
  apart defs b n e a (set_storage e x) a' → flight b a reg d e →
  in_pass d = false → in_pass d' = false → done_so_far a e d = caught_up a e →
  (caught_up a' (set_storage e x) → done_so_far a' (set_storage e x) d') →
  dispatched b n reg e a d (set_storage e x) d' a'.
Proof.
  intros HA HF Hd Hd' Hc Hdone. split; try apply HA; [done| |].
  - eapply flight_idle; [exact Hd|done|]. by eapply flight_extends; [exact HF|apply HA|..].
  - intros _. rewrite Hc. intros HC. apply Hdone. eapply caught_up_fewer; [|by apply fewer_same|exact HC].
    apply HA.
Qed.

Lemma scan_dispatched b n reg e a d e' d' :
  scanned b n reg e a d e' d' → dispatched b n reg e a d e' d' a.
Proof.
  intros [HI Hu Hnt HF HD]. split; try done; [eapply stored_mono; [done|lia]|apply extends_refl|lia].
Qed.

Lemma scan_step_ok b n reg e a fl sc sc' e' :
  stored b defs n e a → (N.of_nat n < u64_max)%N → flight b a reg (DScan fl sc) e →
  scan_step sc e = (sc', e') →
  scanned b n reg e a (DScan fl sc) e'
    (match sc' with SDone _ => DPassed fl | _ => DScan fl sc' end).
Proof.
  intros HI Hn HF Hs.
  assert ((∀ k, sc' ≠ SDone k) →
    match sc' with SDone _ => DPassed fl | _ => DScan fl sc' end = DScan fl sc') as Hsc.
  { destruct sc'; try done. intros H. by destruct (H n0). }
  destruct sc as [i dead k|i sub cur dead k|i sub cur [|rec rest] len dead k|dead k|k].
  - rewrite Hsc; [by eapply scan_sub_ok|]. intros m ->. revert Hs. cbn. by destruct (_ !! i).
  - rewrite Hsc; [by eapply scan_read_ok|]. intros m ->. revert Hs. cbn.
    by destruct (s_get_transitions_after _ _ _) as [[[]|]].
  - rewrite Hsc; [by eapply scan_end_ok|]. intros m ->. revert Hs. cbn [scan_step].
    by destruct (_ <? _)%N.
  - rewrite Hsc; [by eapply scan_rec_ok|]. intros m ->. revert Hs. cbn [scan_step].
    by destruct (deliver_batch _ _ _ _) as [[]].
  - pose proof (scan_prune_ok b n reg e a fl dead k _ HI HF eq_refl) as H.
    cbn [scan_step] in Hs. injection Hs as <- <-. exact H.
  - injection Hs as <- <-. split; try done. destruct HF as (live & HS & HT & _).
    exists live. split_and!; [done| |done]. by eapply tracked_mono.
Qed.

Lemma mark_dispatched b n reg e a d d' i st (op : St store StorageError unit) r x :
  stored b defs n e a → Implements holds fit always op (writes (spec_set_status i st)) →
  op (e_storage e) = (r, x) → flight b a reg d e → in_pass d = false → in_pass d' = false →
  done_so_far a e d = caught_up a e →
  (∀ a', caught_up a' (set_storage e x) → done_so_far a' (set_storage e x) d') →
  ∃ a', dispatched b n reg e a d (set_storage e x) d' a'.
Proof.
  intros HI Hop Hr HF Hd Hd' Hc Hdone.
  destruct (apart_mark _ _ _ _ _ _ _ _ _ _ HI Hop Hr) as [a' HA]. exists a'.
  by apply idle_dispatched; auto.
Qed.

Lemma dispatch_step_ok b n reg e a d d' e' :
  stored b defs n e a → (N.of_nat n < u64_max)%N → flight b a reg d e →
  dispatch_step d e = Some (d', e') → ∃ a', dispatched b n reg e a d e' d' a'.
Proof.
  intros HI Hn HF. destruct d as [|fl|fl sc|fl|fl [|ef es]|fl ef es|]; cbn [dispatch_step]; try done.
  - intros [= <- <-]. exists a. apply scan_dispatched. split; try done; [|intros _ _ j ?; lia].
    destruct HF as (live & HS & HT & _). exists live. split_and!; [done| |done].
    by eapply tracked_mono.
  - destruct (scan_step sc e) as [sc' e1] eqn:Hs. intros [= <- <-]. exists a.
    by apply scan_dispatched, scan_step_ok.
  - destruct (s_get_pending_effects 256 (e_storage e)) as [r x] eqn:Hg.
    destruct (stored_read _ _ _ _ _ _ _ _ _ HI (get_pending_ok 256) Hg) as [HI' _].
    assert (apart defs b n e a (set_storage e x) a) as HA
      by (apply apart_storage; [done|apply extends_refl|done]).
    destruct r as [es|err]; intros [= <- <-]; exists a;
      (eapply idle_dispatched; [done|exact HF|done| |done|]);
      [done|done|apply round_end_idle|apply done_round_end].
  - intros [= <- <-]. exists a. apply scan_dispatched. split; try done; [|intros _; apply done_round_end].
    eapply flight_idle; [|apply round_end_idle|exact HF]. done.
  - destruct (s_mark_effect_published (eff_id ef) (e_storage e)) as [r x] eqn:Hm.
    destruct r; intros [= <- <-]; by eapply mark_dispatched; [exact HI|apply mark_published_ok|exact Hm|..].
  - destruct (s_mark_effect_failed (eff_id ef) (e_storage e)) as [r x] eqn:Hm. cbn [snd].
    intros [= <- <-]; by eapply mark_dispatched; [exact HI|apply mark_failed_ok|exact Hm|..].
Qed.

End flight.
