(* ===== verification/ConcurrentProps.v ===== *)
(** * Properties of concurrent runs

    The steps of one thread add up to [Engine::transition] ([solo_transition]);
    every interleaving keeps the invariant of the store, the locks exclude each
    other, every outcome is a step of the specification at the moment it is
    decided, no commit's notification is lost, and some thread can always go
    on. *)
From S2P Require Import Prelude Core Keys Storage StorageSpec StorageTrait Channel Engine EngineSpec EngineRun Dispatch System.
From S2P Require Import Scan Concurrent Interleave ScanProps.

(** ** One thread alone *)

Section solo.
Context {SE : StorageEngine} {MP : Mpsc ChangeRecord} {EN : Env}.

Fixpoint solo (fuel : nat) (q : Request) (x : Pc * Engine) : Pc * Engine :=
  match fuel with 0 => x | S fuel => solo fuel q (solo_step q x) end.

Lemma solo_done fuel q r e : solo fuel q (PDone r, e) = (PDone r, e).
Proof. by induction fuel. Qed.

Lemma solo_unlock fuel q r e : solo (S fuel) q (PUnlock r, e) = (PDone r, e).
Proof. apply solo_done. Qed.

(** What is left of [transition] at each program point. *)
Lemma solo_notify q res e : solo 2 q (PNotify res, e) = (PDone (Ok res), notify_one e).
Proof. done. Qed.

Lemma solo_after {A} fuel q (m : St Engine EngineError A) (k : A → Pc)
    (rest : A → St Engine EngineError TransitionResult) e :
  (∀ x e, solo fuel q (k x, e) = let '(r, e) := rest x e in (PDone r, e)) → 0 < fuel →
  solo fuel q (after m k e) = let '(r, e) := st_bind m rest e in (PDone r, e).
Proof.
  intros Hk Hf. unfold after, st_bind. destruct (m e) as [[x|err] e']; [apply Hk|].
  destruct fuel; [lia|]. apply solo_unlock.
Qed.

Lemma solo_commit q rule en m ev actor ctx key s v created now0 id ts effects e :
  let record := set_rec_version (FsmPlanner.build_transition_record id ts en m s
    (rule_to_state rule) ev actor ctx key) (add64 v 1) in
  let st := {| es_entity_id := en; es_machine := m; es_current_state := rule_to_state rule;
    es_version := add64 v 1; es_updated_at := now0; es_created_at := created |} in
  solo 3 q (PCommit {| pp_record := record; pp_new_state := st; pp_effects := effects |}, e)
  = let '(r, e) := st_bind (storage (s_execute_transition record st effects)) (λ p,
        st_bind (modify notify_one) (λ _, st_ret
          {| tr_entity_id := en; tr_machine := m; tr_from_state := s;
             tr_to_state := rule_to_state rule; tr_version := add64 v 1;
             tr_transition_id := rec_id p.2; tr_sequence := p.1;
             tr_timestamp := rec_timestamp p.2 |})) e in (PDone r, e).
Proof.
  intros record st. cbn [solo solo_step thread_step]. unfold after, commit_part, st_bind.
  cbn [pp_record pp_new_state pp_effects].
  by destruct (storage (s_execute_transition record st effects) e) as [[p|err] e'].
Qed.

Local Open Scope st_scope.

Lemma solo_guards q p e :
  solo 4 q (PGuards p, e) = let '(r, e') := (
    registry <- gets e_guards ;;
    updated <- now ;;
    created <- now ;;
    core (FsmPlanner.validate_guards (pl_rule p)
            (eval_guards registry (rule_guards (pl_rule p))
               {| es_entity_id := q_entity q; es_machine := q_machine q;
                  es_current_state := pl_state p; es_version := pl_version p;
                  es_updated_at := updated; es_created_at := created |} (q_ctx q))) ;;
    commit_transition (pl_definition p) (pl_rule p) (q_entity q) (q_machine q) (q_event q)
      (q_actor q) (q_ctx q) (q_key q) (pl_state p) (pl_version p) (pl_created_at p) (pl_now p)) e in
  (PDone r, e').
Proof.
  change (solo 4 q (PGuards p, e)) with (solo 3 q (after (prepare_part q p) PCommit e)).
  unfold after, prepare_part, commit_transition, st_bind, gets, core, st_res, uuid, now, st_ret.
  cbv beta iota zeta. destruct (FsmPlanner.validate_guards _ _) as [[]|err]; [|done]. cbn [map_err].
  destruct (new_effects _ _ _) as [[effects|err] e1]; [|done].
  apply (solo_commit q (pl_rule p)).
Qed.

(** The thread model is the code: run alone, the nine steps of a thread
    compute exactly what [Engine::transition] computes, result, store, permit,
    clock and identifiers included, on every store, failing ones too. *)
Lemma solo_transition (q : Request) (e : Engine) :
  solo 9 q (PStart, e) = let '(r, e') := do_transition q e in (PDone r, e').
Proof.
  unfold do_transition, transition, st_bind at 1, gets at 1.
  change (solo 9 q (PStart, e))
    with (solo 8 q (if e_shutdown e then PDone (Err ShuttingDown) else PLock, e)).
  destruct (e_shutdown e); [done|].
  change (solo 8 q (PLock, e)) with (solo 6 q (after (lookup_idempotency (q_key q))
    (λ hit, match hit with Some ex => PUnlock (Ok (replay_result ex)) | None => PMachine end) e)).
  apply solo_after; [|lia]. intros [ex|] e1; [done|].
  change (solo 6 q (PMachine, e1))
    with (solo 5 q (after (storage (s_get_machine (q_machine q) None)) PLoad e1)).
  apply solo_after; [|lia]. intros def e2.
  change (solo 5 q (PLoad def, e2)) with (solo 4 q (after (plan_part q def) PGuards e2)).
  unfold after, plan_part. unfold st_bind, now, st_ret. cbv beta iota zeta.
  destruct (load_current def _ _ _ _) as [[[[s v] created]|err] e3]; [|done].
  unfold core, st_res. cbv beta iota zeta.
  destruct (check_expected _ _ _ _) as [[]|err]; [|done]. cbn [map_err].
  destruct (FsmPlanner.plan_transition _ _ _ _) as [rule|err]; [|done]. cbn [map_err].
  apply (solo_guards q {| pl_definition := def; pl_now := _; pl_state := s; pl_version := v;
    pl_created_at := created; pl_rule := rule |}).
Qed.

End solo.

(** ** The invariant of configurations *)

Section invariant.
Context {SE : StorageEngine} {SO : StorageOk SE} {MP : Mpsc ChangeRecord} {MO : MpscOk ChangeRecord}.
Context {EN : Env} {EO : EnvOk EN}.
Context (defs : MachineDefinition → Prop).
Implicit Types (a : Abs) (b : bool) (e : Engine) (q : Request) (c : Config).

(** No notification is lost: when the log has records that a live subscriber was
    not given, the permit is set, or a thread is about to set it, or the
    dispatcher is on its way to them. *)
Definition wake_ok a e (ths : list (Request * Pc)) (d : DState) : Prop :=
  e_commit_notify e = true ∨ (∃ i q res, ths !! i = Some (q, PNotify res)) ∨ done_so_far a e d.

(** What call [i] has read in one of the configurations [cs]. *)
Definition reads_of b (cs : list Config) (i : nat) q : Reads := {|
  rd_hit hit := ∃ c a, c ∈ cs ∧ cf_threads c !! i = Some (q, PIdem)
    ∧ holds (e_storage (cf_engine c)) a ∧ looked_up b a q hit;
  rd_machine mach := ∃ c a, c ∈ cs ∧ cf_threads c !! i = Some (q, PMachine)
    ∧ holds (e_storage (cf_engine c)) a ∧ mach = a_machines a !! q_machine q;
  rd_guards reg := ∃ c plan, c ∈ cs ∧ cf_threads c !! i = Some (q, PGuards plan)
    ∧ reg = e_guards (cf_engine c);
|}.

Lemma reads_of_cons b c cs : pool_le (reads_of b cs) (reads_of b (c :: cs)).
Proof.
  intros i q. split; cbn; intros x.
  - intros (c0 & a & ? & ?). exists c0, a. split; [by right|done].
  - intros (c0 & a & ? & ?). exists c0, a. split; [by right|done].
  - intros (c0 & p & ? & ?). exists c0, p. split; [by right|done].
Qed.

Lemma reads_of_now b c h i q pc a :
  cf_threads c !! i = Some (q, pc) → holds (e_storage (cf_engine c)) a →
  reads_now b (reads_of b (c :: h) i q) (cf_engine c) a q pc.
Proof.
  intros Hi Hh. destruct pc; cbn; try done.
  - intros hit Hhit. exists c, a. split_and!; [by left|done..].
  - exists c, a. split_and!; [by left|done..].
  - exists c, plan. split_and!; [by left|done..].
Qed.

(** [h] are the configurations before [c]. *)
Record conf_inv b (n : nat) (h : list Config) c a : Prop := {
  cv_stored : stored b defs n (cf_engine c) a;
  cv_flight : flight b a (cf_registry c) (cf_dispatcher c) (cf_engine c);
  cv_pool : pool_ok defs (reads_of b (c :: h)) (cf_threads c) (cf_locks c) a (e_uuids (cf_engine c));
  cv_wake : b = true → wake_ok a (cf_engine c) (cf_threads c) (cf_dispatcher c);
}.

(** Steps that leave the threads alone. *)
Lemma wake_apart a a' e e' ths d :
  quiet a a' → e_commit_notify e' = true ∨ e_commit_notify e' = e_commit_notify e ∧ fewer e e' →
  (read_locked d = true → e_subscribers e' = e_subscribers e) →
  wake_ok a e ths d → wake_ok a' e' ths d.
Proof.
  intros HQ [Hn|[Hn Hf]] Hl; [by left|]. intros [H|[H|H]].
  - left. by rewrite Hn.
  - by right; left.
  - right; right. eapply done_fewer; [apply HQ|done..].
Qed.

(** A thread in its section. *)
Lemma conf_thread b n h c a i q pc pc' e' :
  conf_inv b n h c a → (N.of_nat (S n) < u64_max)%N → cf_threads c !! i = Some (q, pc) →
  running pc = true → in_critical pc = true → (∀ res, pc ≠ PNotify res) →
  thread_step q pc (cf_engine c) = (pc', e') →
  ∃ a', stepped defs b n (reads_of b (c :: h) i q) (cf_engine c) a q pc pc' e' a'
    ∧ pool_ok defs (reads_of b (c :: h)) (<[i := (q, pc')]> (cf_threads c)) (cf_locks c) a' (e_uuids e').
Proof.
  intros [HI _ HP HW] Hn Hi Hr Hcr Hnot Hs. destruct (pk_names _ _ _ _ _ _ HP _ _ _ Hi) as [He Hm].
  pose proof (pk_threads _ _ _ _ _ _ HP _ _ _ Hi) as Ht.
  pose proof (reads_of_now b c h i q pc a Hi (sd_holds _ _ _ _ _ HI)) as HR.
  assert (∃ a', stepped defs b n (reads_of b (c :: h) i q) (cf_engine c) a q pc pc' e' a'
    ∧ ∀ p, pc' = PCommit p → ∀ x, x ∈ prep_ids p → ∃ j, e_uuids (cf_engine c) <= j ∧ x = new_v4 j)
    as (a' & Hstep & Hnew).
  { destruct pc as [| | | |def|p|prep|res|r|r]; try done; try (by destruct (Hnot res)).
    - exists a. split; [by apply step_idem|]. intros p ->. revert Hs. cbn. unfold after.
      destruct (lookup_idempotency _ _) as [[[]|] ?]; by intros [=].
    - exists a. split; [by apply step_machine|]. intros p ->. revert Hs. cbn. unfold after.
      destruct (storage _ _) as [[]?]; by intros [=].
    - exists a. split; [by apply step_load|]. intros p ->. revert Hs. cbn. unfold after.
      destruct (plan_part _ _ _) as [[]?]; by intros [=].
    - exists a. apply step_guards; [done|lia|done|done|done].
    - destruct (step_commit defs b n (reads_of b (c :: h) i q) (cf_engine c) a q prep pc' e') as [a' ?]; [done|lia|done..|].
      exists a'. split; [done|]. intros p ->. revert Hs. cbn. unfold after.
      destruct (commit_part _ _) as [[]?]; by intros [=]. }
  exists a'. split; [done|]. by eapply pool_step.
Qed.

(** The pool's history grows by one. *)
Lemma pool_next b h c c' ths lks a u :
  pool_ok defs (reads_of b (c :: h)) ths lks a u → pool_ok defs (reads_of b (c' :: c :: h)) ths lks a u.
Proof. intros HP. eapply pool_quiet; [done|apply reads_of_cons|apply quiet_refl|done]. Qed.

Lemma done_frame a e e' d : frame e e' → done_so_far a e d → done_so_far a e' d.
Proof.
  intros Hf. apply done_fewer; [done| |intros _; apply Hf]. apply fewer_same; apply Hf.
Qed.

(** The wake-up after a thread has moved without touching the log. *)
Lemma wake_move a e e' ths i q pc pc' d :
  ths !! i = Some (q, pc) → (∀ res, pc ≠ PNotify res) →
  e_commit_notify e' = e_commit_notify e → frame e e' →
  wake_ok a e ths d → wake_ok a e' (<[i := (q, pc')]> ths) d.
Proof.
  intros Hi Hnot Hn Hf [H|[(j & q' & res & Hj)|H]].
  - left. by rewrite Hn.
  - right; left. exists j, q', res. rewrite list_lookup_insert_ne; [done|]. intros ->.
    rewrite Hi in Hj. injection Hj as -> ->. by destruct (Hnot res).
  - right; right. by eapply done_frame.
Qed.

Lemma flight_frame b a a' reg d e e' :
  flight b a reg d e → extends a a' → frame e e' → flight b a' reg d e'.
Proof. intros HF HX Hf. eapply flight_extends; [done|done|apply Hf..]. Qed.

Lemma conf_thread_inv b n h c a i q pc pc' e' :
  conf_inv b n h c a → (N.of_nat (S n) < u64_max)%N → cf_threads c !! i = Some (q, pc) →
  running pc = true → thread_step q pc (cf_engine c) = (pc', e') →
  ∃ a', conf_inv b (S n) (c :: h) (set_engine (set_thread c i q pc') e') a' ∧ extends a a'.
Proof.
  intros HV Hn Hi Hr Hs. pose proof HV as [HI HF HP HW].
  assert (i < length (cf_threads c)) as Hlt by by eapply lookup_lt_Some.
  destruct pc as [| | | |def|p|prep|res|r|r]; try done.
  1: { injection Hs as <- <-. exists a. split; [|apply extends_refl].
    split; cbn; [eapply stored_mono; [done|lia]|done| |].
    - by eapply pool_local; [done|apply reads_of_cons|exact Hi|..]; destruct (e_shutdown (cf_engine c)).
    - intros Hb. by eapply wake_move; [exact Hi|..|apply HW]. }
  6: { injection Hs as <- <-. exists a. split; [|apply extends_refl]. split; cbn.
    - eapply stored_mono; [|exact (Nat.le_succ_diag_r n)]. split; apply HI.
    - by eapply flight_extends; [exact HF|apply extends_refl|..].
    - by eapply pool_local; [done|apply reads_of_cons|exact Hi|..].
    - by left. }
  all: destruct (conf_thread b n h c a i q _ pc' e' HV Hn Hi Hr eq_refl ltac:(done) Hs)
    as (a' & Hstep & HP'); destruct Hstep as [HI' HX Hf Hnt _ _ Hch _];
    exists a'; (split; [|exact HX]);
    (split; [exact HI'|by eapply flight_frame; [exact HF|..]|by apply pool_next|]); intros Hb; cbn.
  all: destruct Hch as [[-> _]|(prep' & res & _ & -> & _)];
    [|right; left; exists i, q, res; by apply list_lookup_insert_eq].
  all: by eapply wake_move; [exact Hi|done|exact Hnt|exact Hf|apply HW].
Qed.

Lemma conf_wake_inv b n h c a w d e' :
  conf_inv b n h c a → cf_dispatcher c = DWait → on_wake w (cf_engine c) = (d, e') →
  conf_inv b (S n) (c :: h) (set_engine (set_dispatcher c d) e') a.
Proof.
  intros [HI HF HP HW] Hd Hon. rewrite Hd in HF, HW.
  assert (e_storage e' = e_storage (cf_engine c) ∧ e_uuids e' = e_uuids (cf_engine c)
    ∧ e_subscribers e' = e_subscribers (cf_engine c) ∧ e_channels e' = e_channels (cf_engine c)
    ∧ in_pass d = false) as (Hs & Hu & Hsubs & Hch & Hp).
  { by destruct w as [[]| |]; injection Hon as <- <-. }
  split; cbn.
  - eapply stored_mono; [|exact (Nat.le_succ_diag_r n)]. by eapply stored_eq.
  - eapply flight_idle; [|exact Hp|]; [|by eapply flight_extends; [exact HF|apply extends_refl|..]]. done.
  - rewrite Hu. by apply pool_next.
  - destruct w as [[]| |]; injection Hon as <- <-; [|exact HW|..]; intros _; by right; right.
Qed.

Lemma conf_dispatch_inv b n h c a d e' :
  conf_inv b n h c a → (N.of_nat (S n) < u64_max)%N →
  dispatch_step (cf_dispatcher c) (cf_engine c) = Some (d, e') →
  ∃ a', conf_inv b (S n) (c :: h) (set_engine (set_dispatcher c d) e') a' ∧ extends a a'.
Proof.
  intros [HI HF HP HW] Hn Hs.
  destruct (dispatch_step_ok defs b n _ _ a _ _ _ HI ltac:(lia) HF Hs) as (a' & [HI' HX HQ Hu Hnt HF' HD]).
  exists a'. split; [|done]. split; cbn; [done|done|by eapply pool_quiet; [done|apply reads_of_cons|..]|].
  intros Hb. destruct (HW Hb) as [H|[H|H]]; [left; by rewrite Hnt|by right; left|right; right; auto].
Qed.

Lemma conf_step_inv b n h c a c' :
  conf_inv b n h c a → (N.of_nat (S n) < u64_max)%N → conf_step defs c c' →
  ∃ a', conf_inv b (S n) (c :: h) c' a' ∧ extends a a'.
Proof.
  intros HV Hn Hs. pose proof HV as [HI HF HP HW].
  assert (stored b defs (S n) (cf_engine c) a) as HI' by (eapply stored_mono; [done|lia]).
  destruct Hs as [c q He Hm|c i q pc pc' e' Hi Hr Hs|c i q Hi Hfree|c i q r Hi|c reg' e' Hs Hl|c
    |c w d e' Hd Hw Hon|c d e' Hs].
  - exists a. split; [|apply extends_refl]. split; cbn; [done|done|apply pool_spawn; [by apply pool_next|done|done]|].
    intros Hb. destruct (HW Hb) as [H|[(j & q' & res & Hj)|H]]; [by left| |by right; right].
    right; left. exists j, q', res. by apply lookup_app_l_Some.
  - by eapply conf_thread_inv.
  - exists a. split; [|apply extends_refl]. split; cbn; [done|done| |].
    + eapply pool_move; [exact HP|apply reads_of_cons|exact Hi|..]; try done.
      * by rewrite lookup_insert_eq.
      * intros s Hne. by rewrite lookup_insert_ne.
      * intros j. rewrite lookup_insert_eq. intros [= <-]. done.
      * intros j. by rewrite Hfree.
      * by intros; split; [left|].
    + intros Hb. by eapply wake_move; [exact Hi|..|apply HW].
  - exists a. split; [|apply extends_refl]. split; cbn; [done|done| |].
    + pose proof (proj1 (pk_locks _ _ _ _ _ _ HP _ _ _ Hi) eq_refl) as Hl.
      eapply pool_move; [exact HP|apply reads_of_cons|exact Hi|..]; try done.
      * by rewrite lookup_delete_eq.
      * intros s Hne. by rewrite lookup_delete_ne.
      * intros j. by rewrite lookup_delete_eq.
      * intros j Hj Hji. congruence.
      * by intros; split; [left|].
    + intros Hb. by eapply wake_move; [exact Hi|..|apply HW].
  - destruct (client_step_apart defs b n _ _ a _ _ HI Hs) as (a' & [HIc HX HQ Hu Hwk]).
    exists a'. split; [|done]. split; cbn; [done| |by eapply pool_quiet; [done|apply reads_of_cons|..]|].
    + eapply flight_extends; [by eapply flight_client|exact HX|done|done].
    + intros Hb. by eapply wake_apart; [..|apply HW].
  - exists a. split; [|apply extends_refl]. split; [done|done|by apply pool_next|done].
  - exists a. split; [by eapply conf_wake_inv|apply extends_refl].
  - by eapply conf_dispatch_inv.
Qed.

Lemma conf_new_inv b n h d clock uuids a :
  stored b defs n (new d clock uuids) a → conf_inv b n h (conf_new d clock uuids) a.
Proof.
  intros HI. split; cbn; [done| |by split|].
  - exists []. split_and!; [apply streams_new| |done]. split; try done; [|constructor].
    by intros s ?%elem_of_nil.
  - intros _. right; right. by intros s ch ?%elem_of_nil.
Qed.

Lemma conf_reachable_inv b n c :
  conf_reachable b defs n c → (N.of_nat n < u64_max)%N → ∃ h a, conf_inv b n h c a.
Proof.
  induction 1 as [d clock uuids Hh Hb|n c c' _ IH Hs|n c d clock uuids _ IH Hd Hu]; intros Hn.
  - exists [], empty_abs. by apply conf_new_inv, (inv_stored _ _ _ []), inv_init.
  - destruct IH as (h & a & HV); [lia|].
    destruct (conf_step_inv b n h c a c' HV Hn Hs) as (a' & ? & _). eauto.
  - destruct IH as (h & a & [HI _ _ _]); [lia|]. exists [], a. apply conf_new_inv.
    eapply stored_mono; [|exact (Nat.le_succ_diag_r n)]. destruct Hd as [Hh Hf]. split; cbn; try apply HI.
    + by apply Hh, HI.
    + intros Hb. apply Hf, HI, Hb.
    + by eapply drawn_mono; [apply HI|].
Qed.

Lemma conf_run_inv b n h c :
  conf_run b defs n h c → (N.of_nat n < u64_max)%N → ∃ a, conf_inv b n h c a.
Proof.
  induction 1 as [n d clock uuids HR|n h c c' _ IH Hs]; intros Hn.
  - destruct (conf_reachable_inv b n _ HR Hn) as (h & a & [HI _ _ _]). exists a. by apply conf_new_inv.
  - destruct IH as [a HV]; [lia|]. destruct (conf_step_inv b n h c a c' HV Hn Hs) as (a' & ? & _). eauto.
Qed.

End invariant.

(** ** Results *)

Section results.
Context {SE : StorageEngine} {SO : StorageOk SE} {MP : Mpsc ChangeRecord} {MO : MpscOk ChangeRecord}.
Context {EN : Env} {EO : EnvOk EN}.
Implicit Types (a : Abs) (b : bool) (e : Engine) (q : Request) (c : Config).

(** C4. Concurrent calls keep the store consistent: after any interleaving of
    any number of [transition] calls with each other, with the dispatcher and
    with the other operations, at whatever point each call stands, and crashes of
    the process at any point that are followed by a new one, histories have
    gap-free versions and linked states that are runs of submitted machines, the
    projections match them and no idempotency key was used twice; what a further
    step does only extends that; and no two calls are inside the section of one
    lock stripe. *)
Theorem concurrent_consistent b (defs : MachineDefinition → Prop) (n : nat) c :
  conf_reachable b defs n c → (N.of_nat (S n) < u64_max)%N →
  ∃ a, holds (e_storage (cf_engine c)) a ∧ consistent defs a
    ∧ (∀ c', conf_step defs c c' →
         ∃ a', holds (e_storage (cf_engine c')) a' ∧ consistent defs a' ∧ extends a a')
    ∧ ∀ i j q1 q2 pc1 pc2, cf_threads c !! i = Some (q1, pc1) → cf_threads c !! j = Some (q2, pc2) →
        in_critical pc1 = true → in_critical pc2 = true → stripe q1 = stripe q2 → i = j.
Proof.
  intros HR Hn. destruct (conf_reachable_inv defs b n c HR) as (h & a & HV); [lia|].
  exists a. split_and!; [apply HV|apply HV| |].
  - intros c' Hs. destruct (conf_step_inv defs b n h c a c' HV Hn Hs) as (a' & HV' & HX).
    exists a'. split_and!; [apply HV'|apply HV'|done].
  - intros i j q1 q2 pc1 pc2. eapply pool_exclusive, HV.
Qed.

(** C3. Calls are linearizable up to what they read before: the step that decides a
    call's outcome takes the store, as the calls before it left it, where the
    specification takes it for that request, with the outcome the call returns.
    The specification's three inputs besides the store are the ones the code uses:
    the answer of the key lookup, made under the call's lock on the store as it
    was then; unless that answered, the machine's definition as it was when the
    call fetched it; and, for a call that came as far, the guard registry as it
    was when the guards were evaluated. The entity's state, its version and the
    used keys are those of the moment of the decision. (The shutdown refusal is
    decided before the section; a store that fails may answer the lookup with
    nothing, or the call with its failure, and stays as it is.) *)
Theorem outcome_linearizes b (defs : MachineDefinition → Prop) (n : nat) (h : list Config) c (i : nat)
    q pc pc' e' (r : Res TransitionResult EngineError) :
  conf_run b defs n h c → (N.of_nat (S n) < u64_max)%N →
  cf_threads c !! i = Some (q, pc) → running pc = true → (∀ res, pc ≠ PNotify res) →
  thread_step q pc (cf_engine c) = (pc', e') → decided pc' = Some r →
  ∃ a a', holds (e_storage (cf_engine c)) a ∧ consistent defs a
    ∧ verdict b (reads_of b (c :: h) i q) a q pc r a'
    ∧ holds (e_storage e') a' ∧ consistent defs a'.
Proof.
  intros HR Hn Hi Hrun Hnot Hs Hdec. destruct (conf_run_inv defs b n h c HR) as [a HV]; [lia|].
  assert (in_critical pc = true) as Hcr.
  { destruct pc; try done. injection Hs as <- <-. by destruct (e_shutdown (cf_engine c)). }
  destruct (conf_thread defs b n h c a i q pc pc' e' HV Hn Hi Hrun Hcr Hnot Hs) as (a' & Hstep & _).
  exists a, a'. split_and!; [apply HV|apply HV|by apply Hstep|apply Hstep|apply Hstep].
Qed.

(** C8. No wake-up is lost: on a store without faults, whenever the dispatcher
    waits with no permit pending and no call stands between its commit and its
    notification, every subscriber whose receiver lives has been sent everything
    it asked for, exactly, in order, with effects. *)
Theorem no_lost_wakeup (defs : MachineDefinition → Prop) (n : nat) c :
  conf_reachable true defs n c → (N.of_nat n < u64_max)%N →
  cf_dispatcher c = DWait → e_commit_notify (cf_engine c) = false →
  (∀ i q res, cf_threads c !! i ≠ Some (q, PNotify res)) →
  ∃ a, holds (e_storage (cf_engine c)) a
    ∧ ∀ s ch f start, s ∈ e_subscribers (cf_engine c) →
        e_channels (cf_engine c) !! sub_sender s = Some ch → is_open ch →
        cf_registry c !! sub_sender s = Some (f, start) → (start < u64_max)%N →
        Forall2 (delivered_as true a) (wanted f (drop (N.to_nat start) (a_log a))) (sent ch).
Proof.
  intros HR Hn Hd Hperm Hnot. destruct (conf_reachable_inv defs true n c HR Hn) as (h & a & [HI HF _ HW]).
  exists a. split; [apply HI|]. intros s ch f start Hs Hch Ho Hreg Hst. rewrite Hd in HF, HW.
  destruct (HW eq_refl) as [H|[(j & q & res & Hj)|Hcaught]]; [congruence|by destruct (Hnot j q res)|].
  specialize (Hcaught s ch Hs Hch Ho).
  pose proof (flight_streams _ _ _ DWait _ eq_refl HF) as HS.
  destruct (st_sub _ _ _ _ _ HS s Hs) as (ch0 & start0 & Hch0 & Hreg0 & Hat).
  assert (ch0 = ch ∧ start0 = start ∧ sub_machine_filter s = f) as (-> & -> & Hf) by (split_and!; congruence).
  destruct (Hat Hst) as (_ & _ & HFs). rewrite Hf in HFs. unfold slice in HFs.
  rewrite take_ge in HFs; [done|]. rewrite length_drop. lia.
Qed.

(** *** Progress *)

(** How many steps of its own a thread still has at most. *)
Definition remaining (pc : Pc) : nat :=
  match pc with
  | PStart => 9 | PLock => 8 | PIdem => 7 | PMachine => 6 | PLoad _ => 5 | PGuards _ => 4
  | PCommit _ => 3 | PNotify _ => 2 | PUnlock _ => 1 | PDone _ => 0
  end.
Definition work (ths : list (Request * Pc)) : nat := sum_list (remaining ∘ snd <$> ths).

Lemma work_insert ths i q pc pc' :
  ths !! i = Some (q, pc) → remaining pc' < remaining pc → work (<[i := (q, pc')]> ths) < work ths.
Proof.
  unfold work. revert i. induction ths as [|x ths IH]; intros [|i] Hi Hlt; cbn in *; try done.
  - injection Hi as ->. cbn. lia.
  - specialize (IH i Hi Hlt). by apply Nat.add_lt_mono_l.
Qed.

Lemma after_remaining {A} (m : St Engine EngineError A) (k : A → Pc) e pc' e' n :
  after m k e = (pc', e') → 1 < n → (∀ x, remaining (k x) < n) → remaining pc' < n.
Proof. unfold after. destruct (m e) as [[x|err] e1]; intros [= <- <-]; cbn; auto. Qed.

Lemma thread_step_remaining q pc e pc' e' :
  running pc = true → thread_step q pc e = (pc', e') → remaining pc' < remaining pc.
Proof.
  destruct pc as [| | | |def|p|prep|res|r|r]; cbn [thread_step running]; try done; intros _ Hs.
  1: { injection Hs as <- <-. destruct (e_shutdown e); cbn; lia. }
  6: { injection Hs as <- <-. cbn. lia. }
  all: eapply after_remaining; [exact Hs|cbn; lia|]; intros x; cbn; try lia.
  destruct x; cbn; lia.
Qed.

(** C22. No call waits forever: in every reachable configuration with an
    unfinished call some call can take a step, whoever holds a lock included, and
    each such step uses up one of the at most nine steps a call has; so calls
    cannot deadlock, and any schedule of their steps ends with all of them
    returned. *)
Theorem calls_progress b (defs : MachineDefinition → Prop) (n : nat) c :
  conf_reachable b defs n c → (N.of_nat n < u64_max)%N →
  (∀ i c', exec_thread c i = Some c' → work (cf_threads c') < work (cf_threads c))
  ∧ ((∀ i, exec_thread c i = None) →
     ∀ i q pc, cf_threads c !! i = Some (q, pc) → ∃ r, pc = PDone r).
Proof.
  intros HR Hn. destruct (conf_reachable_inv defs b n c HR Hn) as (h & a & HV). split.
  - intros i c'. unfold exec_thread. destruct (cf_threads c !! i) as [[q pc]|] eqn:Hi; [|done].
    destruct pc as [| | | |def|p|prep|res|r|r]; [| | | | | | | | |done].
    2: { destruct (cf_locks c !! stripe q); [done|]. intros [= <-]. cbn.
      by eapply work_insert; [exact Hi|cbn; lia]. }
    8: { intros [= <-]. cbn. by eapply work_insert; [exact Hi|cbn; lia]. }
    all: destruct (thread_step q _ (cf_engine c)) as [pc' e'] eqn:Hs; intros [= <-];
      cbn [set_engine set_thread cf_threads]; eapply work_insert; [exact Hi|];
      by eapply thread_step_remaining.
  - intros Hstuck i q pc Hi. pose proof (Hstuck i) as Hx. unfold exec_thread in Hx. rewrite Hi in Hx.
    destruct pc as [| | | |def|p|prep|res|r|r]; try done; try (by eexists);
      try (by destruct (thread_step q _ (cf_engine c))).
    destruct (cf_locks c !! stripe q) as [j|] eqn:Hl; [|done].
    (* the holder of the lock can move *)
    exfalso. pose proof (cv_pool _ _ _ _ _ _ HV) as HP.
    destruct (pk_owner _ _ _ _ _ _ HP _ _ Hl) as (q' & pc' & Hj & Hst).
    assert (in_critical pc' = true) as Hcr by (eapply HP; [exact Hj|by rewrite Hst]).
    pose proof (Hstuck j) as Hsj. unfold exec_thread in Hsj. rewrite Hj in Hsj.
    destruct pc'; try done; by destruct (thread_step q' _ (cf_engine c)).
Qed.

End results.
