(* ===== verification/RoundProps.v ===== *)
(** * Properties of the dispatcher beside concurrent calls

    The steps of the dispatcher add up to [Dispatcher::dispatch] ([solo_round]);
    between any two of them a channel holds a stream of the log, whatever calls
    and clients do meanwhile ([concurrent_stream_in_order]); and a round that is
    left alone gives every subscriber what is missing ([round_catches_up]). *)
From S2P Require Import Prelude Core Keys Storage StorageSpec StorageTrait Channel Engine EngineSpec EngineRun Dispatch System EngineProps.
From S2P Require Import LiveProps Scan Concurrent Interleave ScanProps ConcurrentProps.

(** ** The dispatcher alone *)

Section round.
Context {SE : StorageEngine} {MP : Mpsc ChangeRecord} {EN : Env}.
Implicit Types (e : Engine) (x y : DState * Engine).

Definition dispatch_next x y : Prop := dispatch_step x.1 x.2 = Some y.

Definition pass_state (last : bool) (sc : Scan) : DState :=
  match sc with SDone _ => DPassed last | _ => DScan last sc end.

Lemma scan_next_dispatch last (x y : Scan * Engine) :
  scan_next x y → dispatch_next (pass_state last x.1, x.2) (pass_state last y.1, y.2).
Proof.
  intros [Hx Hs]. destruct x as [sc e], y as [sc' e']. cbn in *. unfold dispatch_next. cbn [fst snd].
  assert (pass_state last sc = DScan last sc) as ->; [destruct sc; try done; by destruct (Hx n)|].
  cbn [dispatch_step]. by rewrite Hs.
Qed.

Lemma solo_marks last effects e :
  rtc dispatch_next (DMarking last effects, e)
    (round_end last, set_storage e (publish_effects effects (e_storage e))).
Proof.
  revert e. induction effects as [|ef es IH]; intros e; cbn [publish_effects].
  { rewrite set_storage_id. by apply rtc_once. }
  destruct (s_mark_effect_published (eff_id ef) (e_storage e)) as [r d] eqn:Hm.
  destruct r as [u|err].
  - eapply rtc_l; [unfold dispatch_next; cbn; by rewrite Hm|]. exact (IH (set_storage e d)).
  - eapply rtc_l; [unfold dispatch_next; cbn; by rewrite Hm|].
    eapply rtc_l; [done|]. exact (IH (set_storage _ _)).
Qed.

Lemma round_steps (fuel n : nat) (last : bool) e e' :
  dispatch fuel e = Some (n, e') → rtc dispatch_next (DWoken last, e) (round_end last, e').
Proof.
  unfold dispatch. destruct (dispatch_pass fuel e) as [[k e1]|] eqn:Hp; [|done].
  intros Hd. apply solo_scan in Hp.
  apply (rtc_congruence (λ z : Scan * Engine, (pass_state last z.1, z.2)) (R := scan_next) dispatch_next) in Hp;
    [|intros; by apply scan_next_dispatch].
  eapply rtc_l; [done|]. etrans; [exact Hp|]. cbn.
  destruct (s_get_pending_effects 256 (e_storage e1)) as [[es|err] d] eqn:Hg; injection Hd as <- <-.
  - eapply rtc_l; [unfold dispatch_next; cbn; by rewrite Hg|]. exact (solo_marks last es (set_storage e1 d)).
  - apply rtc_once. unfold dispatch_next. cbn. by rewrite Hg.
Qed.

Lemma round_end_stops last e y : ¬ dispatch_next (round_end last, e) y.
Proof. by destruct last. Qed.

(** Steps that are a function lead on from wherever they have led. *)
Lemma dispatch_onward x y z :
  rtc dispatch_next x z → (∀ w, ¬ dispatch_next z w) → rtc dispatch_next x y → rtc dispatch_next y z.
Proof.
  intros Hxz Hz Hxy. induction Hxy as [x|x x1 y Hx _ IH]; [done|]. apply IH.
  inversion Hxz as [|? x2 ? Hx2 H2]; subst; [by destruct (Hz x1)|].
  unfold dispatch_next in Hx, Hx2. congruence.
Qed.

(** The stepwise dispatcher is the code: left alone, its steps, as far as it
    has come, lead to exactly what [Dispatcher::dispatch] computes, the
    deliveries, the cursors, the prunings and the marks in the outbox, on every
    store, failing ones too; then it waits again, or has returned if this was the
    round after the shutdown. *)
Lemma solo_round (fuel n : nat) (last : bool) e e' y :
  dispatch fuel e = Some (n, e') → rtc dispatch_next (DWoken last, e) y →
  rtc dispatch_next y (round_end last, e').
Proof.
  intros Hd. apply dispatch_onward; [by eapply round_steps|apply round_end_stops].
Qed.

End round.

(** ** The dispatcher among others *)

Section streams.
Context {SE : StorageEngine} {SO : StorageOk SE} {MP : Mpsc ChangeRecord} {MO : MpscOk ChangeRecord}.
Context {EN : Env} {EO : EnvOk EN}.
Implicit Types (a : Abs) (b : bool) (c : Config).

(** *** Channels only grow *)

Lemma dispatcher_grows d e d' e' :
  dispatch_step d e = Some (d', e') → grows (e_channels e) (e_channels e').
Proof.
  destruct d as [|fl|fl sc|fl|fl [|ef es]|fl ef es|]; cbn [dispatch_step]; try done.
  - intros [= <- <-]. done.
  - destruct (scan_step sc e) as [sc' e1] eqn:Hs. intros [= _ <-].
    destruct sc as [i dead k|i sub cur dead k|i sub cur [|rec rest] len dead k|dead k|k]; cbn [scan_step] in Hs.
    + destruct (_ !! i); injection Hs as _ <-; done.
    + destruct (s_get_transitions_after _ _ _) as [[[]|] ?]; injection Hs as _ <-; done.
    + injection Hs as _ <-. done.
    + destruct (deliver_batch _ _ _ _) as [[] p] eqn:Hd; injection Hs as _ <-;
        exact (deliver_batch_grows _ _ _ _ _ _ Hd).
    + injection Hs as _ <-. destruct dead; done.
    + injection Hs as _ <-. done.
  - destruct (s_get_pending_effects _ _) as [[] ?]; intros [= _ <-]; done.
  - intros [= _ <-]. done.
  - destruct (s_mark_effect_published _ _) as [[] ?]; intros [= _ <-]; done.
  - intros [= _ <-]. done.
Qed.

Lemma client_grows defs reg e reg' e' :
  client_step defs reg e reg' e' → grows (e_channels e) (e_channels e').
Proof.
  intros Hs. destruct Hs as [reg e def r e' Hdef Hrun|reg e nm r e' Hrun|reg e r e' Hrun
    |reg e en m r e' Hen Hm Hrun|reg e en m limit after r e' Hen Hm Hrun|reg e nm g|reg e id f after
    |reg e id|reg e|reg e cs HFo|reg e clock uuids Hu]; try done;
    try by rewrite (storage_channels _ _ _ _ Hrun).
  - by rewrite (define_channels _ _ _ _ Hrun).
  - intros i ch Hi. exists ch. split; [|done]. by apply lookup_app_l_Some.
  - intros i ch Hi. destruct (Forall2_lookup_l _ _ _ _ _ HFo Hi) as (ch' & Hi' & Hsent & _).
    exists ch'. split; [done|]. by rewrite Hsent.
Qed.

Lemma conf_grows b defs n h c a c' :
  conf_inv defs b n h c a → (N.of_nat (S n) < u64_max)%N → conf_step defs c c' →
  grows (e_channels (cf_engine c)) (e_channels (cf_engine c')).
Proof.
  intros HV Hn Hs. destruct Hs as [c q He Hm|c i q pc pc' e' Hi Hr Hs|c i q Hi Hfree|c i q r Hi|c reg' e' Hs Hl|c
    |c w d e' Hd Hw Hon|c d e' Hs]; try done.
  - destruct pc as [| | | |def|p|prep|res|r|r]; try done;
      try (injection Hs as <- <-; done).
    all: destruct (conf_thread defs b n h c a i q _ pc' e' HV Hn Hi Hr eq_refl ltac:(done) Hs) as (a' & [_ _ Hf _ _ _ _ _] & _).
    all: cbn; rewrite (f_channels _ _ Hf); done.
  - by eapply client_grows.
  - destruct w as [[]| |]; injection Hon as _ <-; done.
  - by eapply dispatcher_grows.
Qed.

(** C9. The change stream is in order, gap-free and without repetition between any
    two steps: wherever the calls stand, and wherever in a pass the dispatcher
    stands, with commits and dropped receivers under it, a channel subscribed
    after [start] was given exactly one change record for each record of the
    filtered machine at the log positions [start + 1 .. cursor], in log order,
    for some cursor; and the steps of the dispatcher, of calls and of clients
    only append to it. (A storage failure while the effects of a record are read
    can lose the effects, not the record.) *)
Theorem concurrent_stream_in_order b (defs : MachineDefinition → Prop) (n : nat) c (i : nat) ch f start :
  conf_reachable b defs n c → (N.of_nat (S n) < u64_max)%N →
  e_channels (cf_engine c) !! i = Some ch → cf_registry c !! i = Some (f, start) →
  (start < u64_max)%N →
  (∃ a cursor, holds (e_storage (cf_engine c)) a ∧ (start <= cursor)%N
     ∧ Forall2 (delivered_as b a) (wanted f (slice start cursor (a_log a))) (sent ch))
  ∧ ∀ c', conf_step defs c c' →
      ∃ ch', e_channels (cf_engine c') !! i = Some ch' ∧ sent ch `prefix_of` sent ch'.
Proof.
  intros HR Hn Hch Hreg Hst. destruct (conf_reachable_inv defs b n c HR) as (h & a & HV); [lia|].
  split; [|intros c' Hs; by eapply conf_grows].
  destruct (cv_flight _ _ _ _ _ _ HV) as (live & HS & _).
  destruct (st_chan _ _ _ _ _ HS i ch f start Hch Hreg Hst) as (cursor & Hle & _ & HF).
  exists a, cursor. split_and!; [apply HV|done|done].
Qed.

(** C11. A round leaves nobody behind: on a store without faults, from any
    configuration in which the dispatcher was woken, its steps, run to the end of
    the round, give every subscriber with a live receiver everything after its
    start, with effects. It is then still subscribed, unless the pruning took it
    along with a subscriber of the same identifier whose receiver is gone. *)
Theorem round_catches_up (defs : MachineDefinition → Prop) (n : nat) c (last : bool) s ch f start :
  conf_reachable true defs n c → (N.of_nat n < u64_max)%N → cf_dispatcher c = DWoken last →
  s ∈ e_subscribers (cf_engine c) → e_channels (cf_engine c) !! sub_sender s = Some ch → is_open ch →
  cf_registry c !! sub_sender s = Some (f, start) → (start < u64_max)%N →
  ∃ e' a ch', rtc dispatch_next (cf_dispatcher c, cf_engine c) (round_end last, e')
    ∧ holds (e_storage e') a ∧ e_channels e' !! sub_sender s = Some ch'
    ∧ Forall2 (delivered_as true a) (wanted f (drop (N.to_nat start) (a_log a))) (sent ch')
    ∧ (unshared (cf_engine c) s → still_subscribed e' s).
Proof.
  intros HR Hn Hd Hs Hch Ho Hreg Hst.
  destruct (conf_reachable_inv defs true n c HR Hn) as (h & a & [HI HF _ _]).
  rewrite Hd in *. set (e := cf_engine c) in *.
  assert (inv_at true defs n (cf_registry c) e a) as HA.
  { apply inv_stored. split; [done|]. by eapply flight_streams; [|exact HF]. }
  destruct (round_complete defs n _ e a s ch f start HA Hn Hs Hch Ho Hreg Hst)
    as (count & e' & a' & ch' & Hrun & HI' & _ & Hch' & HFs & Hsub).
  exists e', a', ch'. split_and!; try done; [by eapply round_steps|apply HI'].
Qed.

End streams.
