(* ===== verification/ConcurrentExamples.v ===== *)
(** * Interleavings at work

    Schedules of two calls and the dispatcher on the document machine, and the
    properties of [ConcurrentProps] applied to them. *)
From S2P Require Import Prelude Core Redb Keys Storage StorageSpec StorageTrait Channel Engine EngineSpec EngineRun.
From S2P Require Import Dispatch System Concrete EngineProps EngineExamples Scan Concurrent Interleave ScanProps ConcurrentProps RoundProps.
Import Demo.

Definition conf0 : Config :=
  {| cf_engine := start []; cf_registry := []; cf_locks := ∅; cf_threads := [];
     cf_dispatcher := DWait; cf_stop := false |}.

Lemma conf0_reach : conf_reachable true only_document 0 conf0.
Proof. apply conf_init; [apply demo_holds|intros _; apply demo_fit]. Qed.

Definition submit (entity : string) (key : option string) : Request :=
  {| q_entity := entity; q_machine := "document"; q_event := "submit"; q_actor := "ann";
     q_ctx := VNull; q_expected := None; q_key := key |}.

(** [n] steps of thread [i]. *)
Definition steps (i n : nat) : list Action := repeat (AThread i) n.

Definition outcomes (c : option Config) : list Pc := default [] ((λ c, snd <$> cf_threads c) <$> c).

Definition is_duplicate (pc : Pc) : bool :=
  match pc with PDone (Err (EStorage (AlreadyExists _))) => true | _ => false end.
Definition reached (pc : Pc) : option (string * N) :=
  match pc with PDone (Ok r) => Some (tr_to_state r, tr_sequence r) | _ => None end.

(** Two calls with one key on different entities both miss it in the lookup; the
    store lets one of them in. *)
Example key_race :
  let c := exec conf0 ([ADefine document; ASpawn (submit "doc-1" (Some "k")); ASpawn (submit "paper-1" (Some "k"))]
                       ++ steps 0 3 ++ steps 1 3 ++ steps 0 6 ++ steps 1 5) in
  (reached <$> outcomes c, is_duplicate <$> outcomes c) = ([Some ("review", 1%N); None], [false; true]).
Proof. vm_compute. reflexivity. Qed.

(** On one entity the second call waits, then finds the first one's record. *)
Example key_retry :
  let c := exec conf0 ([ADefine document; ASpawn (submit "doc-1" (Some "k")); ASpawn (submit "doc-1" (Some "k"))]
                       ++ steps 0 3 ++ steps 1 1) in
  (bool_decide (is_Some (c ≫= λ c, exec_thread c 1)), reached <$> outcomes (c ≫= λ c, exec c (steps 0 6 ++ steps 1 3)))
  = (false, [Some ("review", 1%N); Some ("review", 1%N)]).
Proof. vm_compute. reflexivity. Qed.

(** A definition replaced in the middle of a call: the call commits the
    transition it planned with the definition it read. *)
Definition triage : MachineDefinition :=
  {| md_name := "document"; md_version := 2; md_states := ["draft"; "triage"];
     md_initial_state := "draft";
     md_transitions := [{| rule_event := "submit"; rule_from_states := ["draft"];
                           rule_to_state := "triage"; rule_guards := [] |}];
     md_effects := []; md_created_at := 0 |}.

Example stale_definition :
  reached <$> outcomes (exec conf0 ([ADefine document; ASpawn (submit "doc-1" None)] ++ steps 0 4
                                    ++ [ADefine triage] ++ steps 0 5))
  = [Some ("review", 1%N)].
Proof. vm_compute. reflexivity. Qed.

(** A commit between the pass and the reading of the outbox: the round marks its
    effect published, and the channel has not been given its record. *)
Definition pending (c : Config) : option nat :=
  match (s_get_pending_effects 256 (e_storage (cf_engine c))).1 with
  | Ok l => Some (length l)
  | Err _ => None
  end.
Definition given (c : Config) : list nat := length ∘ snd <$> e_channels (cf_engine c).

Example published_before_delivered :
  let c := exec conf0 ([ADefine document; ASubscribe "s" None 0; ASpawn (submit "doc-1" None); AWake WTimer]
                       ++ repeat ADispatch 5 ++ steps 0 9 ++ repeat ADispatch 3) in
  (c ≫= pending, given <$> c, reached <$> outcomes c) = (Some 0, Some [0], [Some ("review", 1%N)]).
Proof. vm_compute. reflexivity. Qed.

(** ** Witnesses *)

Lemma exec_default c xs :
  match exec c xs with Some _ => true | None => false end = true →
  exec c xs = Some (default c (exec c xs)).
Proof. by destruct (exec c xs). Qed.

Definition two_calls : list Action :=
  [ADefine document; ASubscribe "s" None 0; ASpawn (submit "doc-1" (Some "k"));
   ASpawn (submit "paper-1" (Some "k"))] ++ steps 0 3 ++ steps 1 3.

(** Both calls have missed the key, the first stands before its commit. *)
Definition conf1 : Config := default conf0 (exec conf0 (two_calls ++ steps 0 3)).
Lemma conf1_reach : conf_reachable true only_document 13 conf1.
Proof.
  apply (exec_sound true only_document 0 conf0 (two_calls ++ steps 0 3)); [apply conf0_reach| |].
  - repeat constructor.
  - apply exec_default. vm_compute. reflexivity.
Qed.

Lemma concurrent_consistent_witness :
  ∃ a, holds (e_storage (cf_engine conf1)) a ∧ consistent only_document a
    ∧ (∀ c', conf_step only_document conf1 c' →
         ∃ a', holds (e_storage (cf_engine c')) a' ∧ consistent only_document a' ∧ extends a a')
    ∧ ∀ i j q1 q2 pc1 pc2, cf_threads conf1 !! i = Some (q1, pc1) →
        cf_threads conf1 !! j = Some (q2, pc2) →
        in_critical pc1 = true → in_critical pc2 = true → stripe q1 = stripe q2 → i = j.
Proof. apply (concurrent_consistent true only_document 13 conf1); [apply conf1_reach|done]. Defined.

Definition pc_of (c : Config) (i : nat) : Pc := default PStart (snd <$> cf_threads c !! i).

Lemma conf1_run : ∃ h, conf_run true only_document 13 h conf1.
Proof.
  apply (exec_run true only_document 0 [] conf0 (two_calls ++ steps 0 3)).
  - apply (run_start true only_document 0). apply conf0_reach.
  - repeat constructor.
  - apply exec_default. vm_compute. reflexivity.
Qed.

Lemma outcome_linearizes_witness :
  ∃ h r a a', decided (thread_step (submit "doc-1" (Some "k")) (pc_of conf1 0) (cf_engine conf1)).1 = Some r
    ∧ holds (e_storage (cf_engine conf1)) a ∧ consistent only_document a
    ∧ verdict true (reads_of true (conf1 :: h) 0 (submit "doc-1" (Some "k"))) a (submit "doc-1" (Some "k"))
        (pc_of conf1 0) r a'
    ∧ holds (e_storage (thread_step (submit "doc-1" (Some "k")) (pc_of conf1 0) (cf_engine conf1)).2) a'
    ∧ consistent only_document a'.
Proof.
  destruct (decided (thread_step (submit "doc-1" (Some "k")) (pc_of conf1 0) (cf_engine conf1)).1)
    as [r|] eqn:Hr; [|vm_compute in Hr; discriminate Hr].
  destruct conf1_run as [h Hrun]. exists h, r.
  destruct (outcome_linearizes true only_document 13 h conf1 0 (submit "doc-1" (Some "k")) (pc_of conf1 0)
    (thread_step (submit "doc-1" (Some "k")) (pc_of conf1 0) (cf_engine conf1)).1
    (thread_step (submit "doc-1" (Some "k")) (pc_of conf1 0) (cf_engine conf1)).2 r)
    as (a & a' & H); [exact Hrun|done|vm_compute; reflexivity|vm_compute; reflexivity
      |intros res Heq; vm_compute in Heq; discriminate Heq|apply surjective_pairing|exact Hr|].
  exists a, a'. split; [reflexivity|exact H].
Defined.

(** The first call returned, the dispatcher woke on its notification and waits again. *)
Definition quiet_run : list Action :=
  [ADefine document; ASubscribe "s" None 0; ASpawn (submit "doc-1" None)] ++ steps 0 9
  ++ AWake WNotified :: repeat ADispatch 10.
Definition conf2 : Config := default conf0 (exec conf0 quiet_run).
Lemma conf2_reach : conf_reachable true only_document 23 conf2.
Proof.
  apply (exec_sound true only_document 0 conf0 quiet_run); [apply conf0_reach| |].
  - repeat constructor.
  - apply exec_default. vm_compute. reflexivity.
Qed.

Lemma no_lost_wakeup_witness :
  length (cr_sequence <$> default [] (snd <$> e_channels (cf_engine conf2) !! 0)) = 1
  ∧ ∃ a, holds (e_storage (cf_engine conf2)) a
    ∧ ∀ s ch f start, s ∈ e_subscribers (cf_engine conf2) →
        e_channels (cf_engine conf2) !! sub_sender s = Some ch → is_open ch →
        cf_registry conf2 !! sub_sender s = Some (f, start) → (start < u64_max)%N →
        Forall2 (delivered_as true a) (wanted f (drop (N.to_nat start) (a_log a))) (sent ch).
Proof.
  split; [vm_compute; reflexivity|].
  apply (no_lost_wakeup only_document 23 conf2); [apply conf2_reach|done|vm_compute; reflexivity
    |vm_compute; reflexivity|].
  intros [|i] q res Heq; vm_compute in Heq; discriminate Heq.
Defined.

Lemma calls_progress_witness :
  (∀ i c', exec_thread conf1 i = Some c' → work (cf_threads c') < work (cf_threads conf1))
  ∧ ((∀ i, exec_thread conf1 i = None) →
     ∀ i q pc, cf_threads conf1 !! i = Some (q, pc) → ∃ r, pc = PDone r).
Proof. apply (calls_progress true only_document 13 conf1); [apply conf1_reach|done]. Defined.

(** ** The dispatcher in the middle of a pass *)

(** The pass has read its batch when the second call commits; then it sends the
    record it has. *)
Definition two_commits : list Action :=
  [ADefine document; ASubscribe "s" None 0; ASpawn (submit "doc-1" None); ASpawn (submit "paper-1" None)]
  ++ steps 0 9.
Definition mid_pass : list Action :=
  two_commits ++ AWake WNotified :: repeat ADispatch 3 ++ steps 1 7 ++ [ADispatch].
Definition conf3 : Config := default conf0 (exec conf0 mid_pass).
Lemma conf3_reach : conf_reachable true only_document 25 conf3.
Proof.
  apply (exec_sound true only_document 0 conf0 mid_pass); [apply conf0_reach| |].
  - repeat constructor.
  - apply exec_default. vm_compute. reflexivity.
Qed.

Lemma concurrent_stream_in_order_witness :
  ∃ ch, e_channels (cf_engine conf3) !! 0 = Some ch ∧ read_locked (cf_dispatcher conf3) = true
    ∧ length (sent ch) = 1
    ∧ (∃ a cursor, holds (e_storage (cf_engine conf3)) a ∧ (0 <= cursor)%N
         ∧ Forall2 (delivered_as true a) (wanted None (slice 0 cursor (a_log a))) (sent ch))
    ∧ ∀ c', conf_step only_document conf3 c' →
        ∃ ch', e_channels (cf_engine c') !! 0 = Some ch' ∧ sent ch `prefix_of` sent ch'.
Proof.
  destruct (e_channels (cf_engine conf3) !! 0) as [ch|] eqn:Hch; [|exfalso; revert Hch; vm_compute; discriminate].
  exists ch. split; [reflexivity|]. split; [vm_compute; reflexivity|].
  split; [revert Hch; vm_compute; by intros [= <-]|].
  apply (concurrent_stream_in_order true only_document 25 conf3 0 ch None 0);
    [apply conf3_reach|done|exact Hch|vm_compute; reflexivity|done].
Defined.

(** The dispatcher has just been woken. *)
Definition conf4 : Config := default conf0 (exec conf0 (two_commits ++ [AWake WNotified])).
Lemma conf4_reach : conf_reachable true only_document 14 conf4.
Proof.
  apply (exec_sound true only_document 0 conf0 (two_commits ++ [AWake WNotified])); [apply conf0_reach| |].
  - repeat constructor.
  - apply exec_default. vm_compute. reflexivity.
Qed.

Definition first_subscriber : Subscriber :=
  {| sub_id := "s"; sub_machine_filter := None; sub_sender := 0; sub_delivered_through := 0 |}.

Lemma round_catches_up_witness :
  ∃ e' a ch', rtc dispatch_next (cf_dispatcher conf4, cf_engine conf4) (round_end false, e')
    ∧ holds (e_storage e') a ∧ e_channels e' !! 0 = Some ch'
    ∧ Forall2 (delivered_as true a) (wanted None (drop 0 (a_log a))) (sent ch')
    ∧ still_subscribed e' first_subscriber.
Proof.
  assert (e_subscribers (cf_engine conf4) = [first_subscriber]) as Hsubs by (vm_compute; reflexivity).
  assert (e_channels (cf_engine conf4) !! 0 = Some ((true, []) : chan ChangeRecord)) as Hch
    by (vm_compute; reflexivity).
  destruct (round_catches_up only_document 14 conf4 false first_subscriber (true, []) None 0)
    as (e' & a & ch' & Hrun & Hh & Hch' & HF & Hsub);
    [apply conf4_reach|done|vm_compute; reflexivity|rewrite Hsubs; constructor|exact Hch|reflexivity
    |vm_compute; reflexivity|done|].
  exists e', a, ch'. split; [exact Hrun|]. split; [exact Hh|]. split; [exact Hch'|]. split; [exact HF|].
  apply Hsub. intros s' ch0 Hs'. rewrite Hsubs in Hs'. apply list_elem_of_singleton in Hs' as ->. intros _ Hch0.
  pose proof (eq_trans (eq_sym Hch0) Hch) as Heq. injection Heq as ->. reflexivity.
Defined.

(** Half way through the round. *)
Lemma solo_round_witness :
  ∃ n e' y, dispatch 20 (cf_engine conf4) = Some (n, e')
    ∧ rtc dispatch_next (DWoken false, cf_engine conf4) y ∧ read_locked y.1 = true
    ∧ rtc dispatch_next y (round_end false, e').
Proof.
  destruct (dispatch 20 (cf_engine conf4)) as [[n e']|] eqn:Hd;
    [|exfalso; apply (f_equal (fmap fst)) in Hd; vm_compute in Hd; discriminate].
  exists n, e', (DScan false (SSub 0 [] 0), cf_engine conf4). split; [reflexivity|].
  assert (rtc dispatch_next (DWoken false, cf_engine conf4) (DScan false (SSub 0 [] 0), cf_engine conf4))
    as Hy by (apply rtc_once; reflexivity).
  split; [exact Hy|]. split; [reflexivity|].
  apply (solo_round 20 n false (cf_engine conf4) e' _ Hd Hy).
Defined.
