(* ===== verification/Process.v ===== *)
(** * smdbd: the process

    Models, from [crates/smdbd/src/main.rs], [run_metrics_server] and [main]: the
    start-up up to the wait for the signal ([start]), and then the process as a
    step relation over its parts: the engine with its calls and the dispatcher
    ([Concurrent]), the accept loop of the wire server ([Wire]), the metrics
    server, and [main] itself, which on the signal shuts the engine down, sends
    on the shutdown channel, waits for the accept loop and returns. *)
From S2P Require Import Daemon.
From S2P Require Import Prelude Core Redb Keys Storage StorageSpec StorageTrait Channel Engine EngineSpec EngineRun System.
From S2P Require Import Frame Messages Wire Server Text DaemonProps Concurrent Interleave ConcurrentProps.

(** ** The metrics server *)

(** Connections that are served by [handle_health], and whether the task has
    returned. *)
Record MetricsServer : Type := { ms_open : list nat; ms_returned : bool }.

(** What ends a wait of the [select]. *)
Inductive MetricsEvent : Type :=
| MetricsShutdown (flag : bool)
| MetricsAccepted (peer : nat)
| MetricsAcceptError (why : string).

Definition metrics_event (ev : MetricsEvent) (s : MetricsServer) : MetricsServer :=
  match ev with
  | MetricsShutdown true => {| ms_open := ms_open s; ms_returned := true |}
  | MetricsShutdown false => s
  | MetricsAccepted peer => {| ms_open := peer :: ms_open s; ms_returned := ms_returned s |}
  | MetricsAcceptError _ => s
  end.

(** The task at its loop, or returned at once when the address is taken. *)
Definition run_metrics_server (bound : Res unit string) : MetricsServer :=
  match bound with
  | Ok _ => {| ms_open := []; ms_returned := false |}
  | Err _ => {| ms_open := []; ms_returned := true |}
  end.

(** ** Start-up *)

(** The contexts that [main] attaches. *)
Inductive StartError : Type :=
| StartConfig (e : ConfigError)
| CreatingDataDir (dir why : string)
| OpeningDatabase (path : string) (e : StorageError)
| BuildingServer (e : WireError)
| ParsingMetricsAddr (addr why : string)
| ParsingListenAddr (addr why : string)
| Binding (addr why : string).

(** Where [main] stands: at [ctrl_c().await], between [engine.shutdown()] and
    the send, at [server_handle.await], returned. *)
Inductive Main : Type := MServing | MSignalled | MJoining | MExited.

Section process.
Context {H : Host} {TH : TlsHost} {SM : Semaphore}.
Context {SE : StorageEngine} {MP : Mpsc ChangeRecord} {EN : Env}.

Record Process : Type := {
  p_config : Daemon.Config;
  p_source : ConfigSource;
  p_server : Server;
  p_conf : Concurrent.Config;
  p_metrics : MetricsServer;
  p_listener : Listener;
  p_main : Main;
}.

(** The settings of the wire server. *)
Definition server_config (cfg : Daemon.Config) : ServerConfig :=
  {| sc_listen_addr := Daemon.listen_addr cfg; sc_tls_cert_path := Daemon.tls_cert_path cfg;
     sc_tls_key_path := Daemon.tls_key_path cfg; sc_auth_tokens := Daemon.auth_tokens cfg;
     sc_max_connections := 1024; sc_max_frame_size := MAX_FRAME_SIZE |}.

(** The outcomes of the calls to the system are arguments: creating the
    directory, opening the database, binding the two addresses. *)
Definition start (args : Args) (mkdir : Res unit string) (opened : Res store StorageError)
    (metrics_bound wire_bound : Res unit string) (clock uuids : nat) : Res Process StartError :=
  match resolve_config args with
  | Err e => Err (StartConfig e)
  | Ok (cfg, source) =>
    match mkdir with
    | Err why => Err (CreatingDataDir (Daemon.data_dir cfg) why)
    | Ok _ =>
      match opened with
      | Err e => Err (OpeningDatabase (path_join (Daemon.data_dir cfg) "statemaster.redb") e)
      | Ok d =>
        match server_new (server_config cfg) with
        | Err e => Err (BuildingServer e)
        | Ok server =>
          match socket_addr (Daemon.metrics_addr cfg) with
          | Err why => Err (ParsingMetricsAddr (Daemon.metrics_addr cfg) why)
          | Ok _ =>
            match socket_addr (Daemon.listen_addr cfg) with
            | Err why => Err (ParsingListenAddr (Daemon.listen_addr cfg) why)
            | Ok _ =>
              match wire_bound with
              | Err why => Err (Binding (Daemon.listen_addr cfg) why)
              | Ok _ =>
                Ok {| p_config := cfg; p_source := source; p_server := server;
                      p_conf := conf_new d clock uuids;
                      p_metrics := run_metrics_server metrics_bound;
                      p_listener := listener_new (sc_max_connections (srv_config server))
                                      (srv_metrics server);
                      p_main := MServing |}
              end
            end
          end
        end
      end
    end
  end.

(** ** The process *)

Definition set_conf (p : Process) (c : Concurrent.Config) : Process :=
  {| p_config := p_config p; p_source := p_source p; p_server := p_server p; p_conf := c;
     p_metrics := p_metrics p; p_listener := p_listener p; p_main := p_main p |}.
Definition set_listener (p : Process) (l : Listener) : Process :=
  {| p_config := p_config p; p_source := p_source p; p_server := p_server p;
     p_conf := p_conf p; p_metrics := p_metrics p; p_listener := l; p_main := p_main p |}.
Definition set_metrics (p : Process) (s : MetricsServer) : Process :=
  {| p_config := p_config p; p_source := p_source p; p_server := p_server p;
     p_conf := p_conf p; p_metrics := s; p_listener := p_listener p; p_main := p_main p |}.
Definition set_main (p : Process) (m : Main) : Process :=
  {| p_config := p_config p; p_source := p_source p; p_server := p_server p;
     p_conf := p_conf p; p_metrics := p_metrics p; p_listener := p_listener p; p_main := m |}.

(** [shutdown_tx.send(true)]. *)
Definition send_shutdown (c : Concurrent.Config) : Concurrent.Config :=
  {| cf_engine := cf_engine c; cf_registry := cf_registry c; cf_locks := cf_locks c;
     cf_threads := cf_threads c; cf_dispatcher := cf_dispatcher c; cf_stop := true |}.

(** [main] after the signal: the shutdown of the engine, the send, the end of
    the accept loop's task. *)
Definition main_step (p : Process) : option Process :=
  match p_main p with
  | MServing => Some (set_main (set_conf p (set_engine (p_conf p) (shutdown (cf_engine (p_conf p)))))
                        MSignalled)
  | MSignalled => Some (set_main (set_conf p (send_shutdown (p_conf p))) MJoining)
  | MJoining => if l_accepting (p_listener p) then None else Some (set_main p MExited)
  | MExited => None
  end.

(** The steps of the process until [main] returns. Only [main] shuts the engine
    down and sends on the channel. *)
Inductive proc_step {MO : MpscOk ChangeRecord} (defs : MachineDefinition → Prop)
    : Process → Process → Prop :=
| ps_engine p c :
    p_main p ≠ MExited → conf_step defs (p_conf p) c →
    cf_stop c = cf_stop (p_conf p) → e_shutdown (cf_engine c) = e_shutdown (cf_engine (p_conf p)) →
    proc_step defs p (set_conf p c)
| ps_accept p peer :
    p_main p ≠ MExited → l_accepting (p_listener p) = true →
    proc_step defs p (set_listener p (on_accept peer (p_listener p)))
| ps_accept_error p :
    p_main p ≠ MExited → l_accepting (p_listener p) = true →
    proc_step defs p (set_listener p (on_shutdown (p_listener p)))
| ps_close p i :
    p_main p ≠ MExited → i < length (l_open (p_listener p)) →
    proc_step defs p (set_listener p (on_close i (p_listener p)))
| ps_listener_shutdown p :
    p_main p ≠ MExited → cf_stop (p_conf p) = true →
    proc_step defs p (set_listener p (on_shutdown (p_listener p)))
| ps_metrics p ev :
    p_main p ≠ MExited → ms_returned (p_metrics p) = false →
    match ev with MetricsShutdown flag => flag = cf_stop (p_conf p) | _ => True end →
    proc_step defs p (set_metrics p (metrics_event ev (p_metrics p)))
| ps_main p p' : main_step p = Some p' → proc_step defs p p'.

(** The processes that a successful start-up on a new database leads to. Whether
    [main] has returned or the process was killed, the next one starts, with
    arguments of its own, on what the last storage call left. *)
Inductive proc_reachable {SO : StorageOk SE} {MO : MpscOk ChangeRecord} (b : bool)
    (defs : MachineDefinition → Prop) : nat → Process → Prop :=
| proc_start args d metrics_bound clock uuids p :
    holds d empty_abs → fit_if b d →
    start args (Ok tt) (Ok d) metrics_bound (Ok tt) clock uuids = Ok p →
    proc_reachable b defs 0 p
| proc_next n p p' :
    proc_reachable b defs n p → proc_step defs p p' → proc_reachable b defs (S n) p'
| proc_restart n p args d metrics_bound clock uuids p' :
    proc_reachable b defs n p → reopened (e_storage (cf_engine (p_conf p))) d →
    e_uuids (cf_engine (p_conf p)) <= uuids →
    start args (Ok tt) (Ok d) metrics_bound (Ok tt) clock uuids = Ok p' →
    proc_reachable b defs (S n) p'.

End process.
