(* ===== verification/ProcessProps.v ===== *)
(** * Properties of the daemon's process *)
From S2P Require Import Daemon.
From S2P Require Import Prelude Core Redb Keys Storage StorageSpec StorageTrait Channel Engine EngineSpec EngineRun System.
From S2P Require Import Frame Messages Wire Server Text DaemonProps Concurrent Interleave ConcurrentProps Process.

Section process_props.
Context {H : Host} {TH : TlsHost} {SM : Semaphore}.
Context {SE : StorageEngine} {MP : Mpsc ChangeRecord} {EN : Env}.

(** ** Start-up *)

(** A resolved configuration was validated. *)
Lemma resolve_valid args cfg source :
  resolve_config args = Ok (cfg, source) → valid_config cfg.
Proof.
  unfold resolve_config. destruct (load _ _) as [[file src]|]; [|done].
  match goal with |- context [validate ?x] => set (c := x) end.
  destruct (validate c) as [[]|] eqn:Hv; [|done]. intros [= <- <-]. by apply validate_ok.
Qed.

(** The process right after its start-up. *)
Definition started (cfg : Daemon.Config) (source : ConfigSource) (s : Server) (d : store)
    (metrics_bound : Res unit string) (clock uuids : nat) : Process :=
  {| p_config := cfg; p_source := source; p_server := s;
     p_conf := conf_new d clock uuids;
     p_metrics := run_metrics_server metrics_bound;
     p_listener := listener_new 1024 ServerMetrics_default; p_main := MServing |}.

Lemma server_new_ok config s :
  server_new config = Ok s →
  srv_config s = config ∧ srv_metrics s = ServerMetrics_default
  ∧ build_tls_config config = Ok (srv_tls_config s).
Proof. unfold server_new. by destruct (build_tls_config config); [intros [= <-]|]. Qed.

Ltac no_start := split; [done|intros (? & ? & ? & ? & ? & ? & ? & ? & ? & ?); congruence].

(** Start-up succeeds exactly when each of its calls does, and the addresses
    that the configuration passed parse again. *)
Lemma start_ok args mkdir opened mb wb clock uuids p :
  start args mkdir opened mb wb clock uuids = Ok p ↔
  ∃ cfg source d s, resolve_config args = Ok (cfg, source) ∧ mkdir = Ok tt ∧ opened = Ok d
    ∧ server_new (server_config cfg) = Ok s ∧ wb = Ok tt
    ∧ p = started cfg source s d mb clock uuids.
Proof.
  unfold start. destruct (resolve_config args) as [[cfg source]|] eqn:Hr; [|no_start].
  destruct mkdir as [[]|]; [|no_start]. destruct opened as [d|]; [|no_start].
  destruct (server_new (server_config cfg)) as [s|] eqn:Hs; [|no_start].
  destruct (resolve_valid _ _ _ Hr) as (Hl & Hm & _).
  destruct (socket_addr (Daemon.metrics_addr cfg)); [|done].
  destruct (socket_addr (Daemon.listen_addr cfg)); [|done].
  destruct (server_new_ok _ _ Hs) as (Hc & Hme & _).
  destruct wb as [[]|]; [|no_start]. rewrite Hc, Hme. clear Hr. split.
  - intros [= <-]. by exists cfg, source, d, s.
  - intros (cfg' & src' & d' & s' & E1 & _ & E2 & E3 & _ & ->).
    injection E1 as <- <-. injection E2 as <-. rewrite Hs in E3. by injection E3 as <-.
Qed.

(** Start-up fails with the error of the first call that fails, in the
    order of [main], and succeeds when none does; the two addresses, which
    [validate] has parsed, cannot be refused later. *)
Theorem start_first_failure args mkdir opened mb wb clock uuids cfg source :
  resolve_config args = Ok (cfg, source) →
  start args mkdir opened mb wb clock uuids =
  match mkdir, opened, server_new (server_config cfg), wb with
  | Err why, _, _, _ => Err (CreatingDataDir (Daemon.data_dir cfg) why)
  | _, Err e, _, _ => Err (OpeningDatabase (path_join (Daemon.data_dir cfg) "statemaster.redb") e)
  | _, _, Err e, _ => Err (BuildingServer e)
  | _, _, _, Err why => Err (Binding (Daemon.listen_addr cfg) why)
  | Ok _, Ok d, Ok s, Ok _ => Ok (started cfg source s d mb clock uuids)
  end.
Proof.
  intros Hr. unfold start. rewrite Hr.
  destruct (resolve_valid _ _ _ Hr) as (Hl & Hm & _).
  destruct mkdir; [|done]. destruct opened; [|done].
  destruct (server_new (server_config cfg)) as [s|] eqn:Hs; [|done].
  destruct (socket_addr (Daemon.metrics_addr cfg)); [|done].
  destruct (socket_addr (Daemon.listen_addr cfg)); [|done].
  destruct wb; [|done]. by destruct (server_new_ok _ _ Hs) as (-> & -> & _).
Qed.

(** ** TLS *)

(** A TLS path is set on the command line or in the configuration file. *)
Definition tls_requested (args : Args) : Prop :=
  is_Some (arg_tls_cert args) ∨ is_Some (arg_tls_key args)
  ∨ ∃ file source, load (default "statemaster.toml" (arg_config args))
                     (bool_decide (is_Some (arg_config args))) = Ok (file, source)
      ∧ (is_Some (tl_cert_path (tls file)) ∨ is_Some (tl_key_path (tls file))).

Lemma requested_set args cfg source :
  resolve_config args = Ok (cfg, source) → tls_requested args →
  is_Some (Daemon.tls_cert_path cfg) ∧ is_Some (Daemon.tls_key_path cfg).
Proof.
  intros Hr Hreq. destruct (resolve_valid _ _ _ Hr) as (_ & _ & _ & _ & Hpair).
  assert (is_Some (Daemon.tls_cert_path cfg) ∨ is_Some (Daemon.tls_key_path cfg)) as Hany.
  { revert Hr Hreq. unfold resolve_config, tls_requested.
    destruct (load _ _) as [[file src]|]; [|done]. destruct (validate _); [|done].
    intros [= <- <-] Hreq. cbn.
    destruct Hreq as [[x ->]|[[x ->]|(f & s & [= <- <-] & [[x ->]|[x ->]])]]; cbn.
    - left. by destruct (tl_cert_path _).
    - right. by destruct (tl_key_path _).
    - left. by destruct (arg_tls_cert args).
    - right. by destruct (arg_tls_key args). }
  destruct (Daemon.tls_cert_path cfg), (Daemon.tls_key_path cfg); cbn in Hpair;
    try done; by destruct Hany as [[? [=]]|[? [=]]].
Qed.

Section connections.
Context {WC : WireCodecs} {FS : FrameSink} {SV : ServerEnv} {JS : ToJson EntityState}
        {JR : ToJson (list TransitionRecord)}.

(** C20. TLS is never downgraded: when a certificate or key path is set anywhere,
    a daemon that starts has a TLS configuration, made of all certificates of the
    one file and the first private key of the other; a connection whose TLS
    handshake fails ends with that error and touches nothing, and on any other the
    bytes outside the TLS session have no influence. *)
Theorem tls_not_downgraded args mkdir opened mb wb clock uuids p :
  start args mkdir opened mb wb clock uuids = Ok p → tls_requested args →
  ∃ t cp kp cf kf certs items key rest,
    srv_tls_config (p_server p) = Some t
    ∧ file_open cp = Ok cf ∧ pem_certs cf = Ok <$> certs
    ∧ file_open kp = Ok kf ∧ pem_read_all kf = Ok <$> items ∧ keys_of items = key :: rest
    ∧ with_single_cert certs key = Ok t
    ∧ is_file cp = true ∧ is_file kp = true
    ∧ ∀ accept plain (c : Conn),
        handle_connection (p_server p) accept plain c =
        match accept t with
        | Err e => (Err (WireTls e), c)
        | Ok incoming => serve_framed (Daemon.auth_tokens (p_config p)) incoming c
        end.
Proof.
  intros (cfg & source & d & s & Hr & -> & -> & Hs & -> & ->)%start_ok Hreq. cbn.
  destruct (requested_set _ _ _ Hr Hreq) as [[cp Hcp] [kp Hkp]].
  destruct (resolve_valid _ _ _ Hr) as (_ & _ & _ & _ & Hfiles). rewrite Hcp, Hkp in Hfiles.
  destruct (server_new_ok _ _ Hs) as (Hc & _ & Ht).
  destruct (srv_tls_config s) as [t|] eqn:Htls.
  - destruct (build_tls_some _ _ Ht)
      as (cp' & kp' & cf & kf & certs & items & key & rest & Hcp' & Hkp' & ? & ? & ? & ? & ? & ?).
    cbn in Hcp', Hkp'. rewrite Hcp in Hcp'. rewrite Hkp in Hkp'.
    injection Hcp' as <-. injection Hkp' as <-.
    exists t, cp, kp, cf, kf, certs, items, key, rest. split_and!; try done; try apply Hfiles.
    intros accept plain c. unfold handle_connection. by rewrite Htls, Hc.
  - apply build_tls_none in Ht as [Ht|Ht]; cbn in Ht; congruence.
Qed.

End connections.

(** ** Serving and shutting down *)

Context {SO : StorageOk SE} {MO : MpscOk ChangeRecord} {SMO : SemaphoreOk SM} {EO : EnvOk EN}.

(** What the parts of the process know of each other. *)
Record proc_inv (p : Process) : Prop := {
  pv_flags : match p_main p with
             | MServing => e_shutdown (cf_engine (p_conf p)) = false ∧ cf_stop (p_conf p) = false
             | MSignalled => e_shutdown (cf_engine (p_conf p)) = true ∧ cf_stop (p_conf p) = false
             | MJoining => e_shutdown (cf_engine (p_conf p)) = true ∧ cf_stop (p_conf p) = true
             | MExited => e_shutdown (cf_engine (p_conf p)) = true ∧ cf_stop (p_conf p) = true
                 ∧ l_accepting (p_listener p) = false
             end;
  pv_permits : available (l_semaphore (p_listener p)) + length (l_open (p_listener p)) = 1024;
  pv_gauge : connections_active (l_metrics (p_listener p)) = Z.of_nat (length (l_open (p_listener p)));
}.

Lemma started_inv cfg source s d mb clock uuids :
  proc_inv (started cfg source s d mb clock uuids).
Proof. split; cbn [started p_main p_conf p_listener listener_new l_semaphore l_open length];
  [done|by rewrite available_new|done]. Qed.

Lemma proc_inv_step defs p p' : proc_inv p → proc_step defs p p' → proc_inv p'.
Proof.
  intros [Hf Hp Hg] Hstep.
  destruct Hstep as [p c Hm Hc Hs Hsh|p peer Hm Ha|p Hm Ha|p i Hm Hi|p Hm Hs|p ev Hm Hr He|p p' Hmain].
  - split; [|done..]. cbn. rewrite Hs, Hsh. done.
  - cbn [set_listener]. unfold on_accept.
    destruct (try_acquire_owned (l_semaphore (p_listener p))) as [s|] eqn:Hacq.
    + apply acquire_some in Hacq. split; cbn; [by destruct (p_main p)|lia|lia].
    + split; cbn; [by destruct (p_main p)|done|done].
  - split; cbn; [by destruct (p_main p); naive_solver|done|done].
  - split; cbn; [by destruct (p_main p)| |].
    + rewrite available_release, length_app, length_take, length_drop. lia.
    + rewrite length_app, length_take, length_drop. lia.
  - split; cbn; [by destruct (p_main p); naive_solver|done|done].
  - by split.
  - unfold main_step in Hmain. destruct (p_main p) eqn:Hm.
    + injection Hmain as <-. split; cbn; naive_solver.
    + injection Hmain as <-. split; cbn; naive_solver.
    + destruct (l_accepting (p_listener p)) eqn:Ha; [done|]. injection Hmain as <-.
      split; cbn; naive_solver.
    + done.
Qed.

(** The engine of the process takes at most as many steps as the process. *)
Lemma proc_conf b defs n p :
  proc_reachable b defs n p → ∃ k, k ≤ n ∧ conf_reachable b defs k (p_conf p).
Proof.
  intros HR. induction HR as [args d mb clock uuids p Hd Hfit Hst|n p p' HR (k & Hk & IH) Hstep
    |n p args d mb clock uuids p' HR (k & Hk & IH) Hd Hu Hst].
  - apply start_ok in Hst as (cfg & source & d' & s & _ & _ & [= <-] & _ & _ & ->).
    exists 0. split; [done|]. by apply conf_init.
  - destruct Hstep as [p c _ Hc _ _|p peer _ _|p _ _|p i _ _|p _ _|p ev _ _ _|p p' Hmain];
      [exists (S k); split; [lia|by eapply conf_next]|exists k; split; [lia|done]..|].
    unfold main_step in Hmain. destruct (p_main p).
    + injection Hmain as <-. exists (S k). split; [lia|]. eapply conf_next; [exact IH|].
      eapply (st_client _ (p_conf p) (cf_registry (p_conf p))); [apply cl_shutdown|done].
    + injection Hmain as <-. exists (S k). split; [lia|]. eapply conf_next; [exact IH|].
      apply st_stop.
    + destruct (l_accepting (p_listener p)); [done|]. injection Hmain as <-. exists k. by split; [lia|].
    + done.
  - apply start_ok in Hst as (cfg & source & d' & s & _ & _ & [= <-] & _ & _ & ->).
    exists (S k). split; [lia|]. by eapply conf_crash.
Qed.

Lemma proc_reachable_inv b defs n p : proc_reachable b defs n p → proc_inv p.
Proof.
  induction 1 as [args d mb clock uuids p _ _ Hst|n p p' _ IH Hstep
    |n p args d mb clock uuids p' _ _ _ _ Hst].
  2: by eapply proc_inv_step.
  all: apply start_ok in Hst as (cfg & source & d' & s & _ & _ & _ & _ & _ & ->); apply started_inv.
Qed.

(** C19. The daemon from start-up to exit, in every order of its tasks and after
    any number of earlier lives on the same file, exited or killed: the store
    is consistent at every moment, the exit included; at most 1024 connections
    are served and the gauge counts them; until the signal the engine accepts
    calls; once shutdown is announced the engine is already shut down, so a call
    that begins is refused and changes nothing; and [main] returns only after the
    accept loop has ended. *)
Theorem daemon_lifecycle b (defs : MachineDefinition → Prop) (n : nat) p :
  proc_reachable b defs n p → (N.of_nat n < u64_max)%N →
  (∃ a, holds (e_storage (cf_engine (p_conf p))) a ∧ consistent defs a)
  ∧ length (l_open (p_listener p)) ≤ 1024
  ∧ connections_active (l_metrics (p_listener p)) = Z.of_nat (length (l_open (p_listener p)))
  ∧ (p_main p = MServing → e_shutdown (cf_engine (p_conf p)) = false)
  ∧ (cf_stop (p_conf p) = true → ∀ q,
       thread_step q PStart (cf_engine (p_conf p)) = (PDone (Err ShuttingDown), cf_engine (p_conf p)))
  ∧ (p_main p = MExited → l_accepting (p_listener p) = false ∧ cf_stop (p_conf p) = true
       ∧ ∀ p', ~ proc_step defs p p').
Proof.
  intros HR Hn. destruct (proc_conf _ _ _ _ HR) as (k & Hk & HC).
  destruct (conf_reachable_inv defs b k _ HC) as (h & a & HV); [lia|].
  destruct (proc_reachable_inv _ _ _ _ HR) as [Hf Hp Hg]. split_and!.
  - exists a. split; apply HV.
  - lia.
  - exact Hg.
  - intros Hm. rewrite Hm in Hf. apply Hf.
  - intros Hs q. cbn [thread_step].
    assert (e_shutdown (cf_engine (p_conf p)) = true) as -> by (destruct (p_main p); naive_solver congruence).
    done.
  - intros Hm. rewrite Hm in Hf. split_and!; [apply Hf|apply Hf|].
    intros p' Hstep. destruct Hstep as [| | | | | |p p' Hmain]; [done..|].
    unfold main_step in Hmain. by rewrite Hm in Hmain.
Qed.

End process_props.
