(* ===== verification/ProcessExamples.v ===== *)
(** * The daemon's process at work

    A host and a TLS library for the examples, the properties of [ProcessProps]
    applied to a daemon that starts with them, and two runs of the process that
    show what [main] does not wait for. *)
From S2P Require Import Daemon.
From S2P Require Import Prelude Core Redb Keys Storage StorageSpec StorageTrait Channel Engine EngineSpec EngineRun.
From S2P Require Import Dispatch System Concrete EngineExamples Frame Messages Wire WireExamples Server Text.
From S2P Require Import Concurrent Interleave ConcurrentProps ConcurrentExamples Process ProcessProps.
Import Demo DemoWire.

(** No configuration file, no environment; every path is a file. *)
#[local] Instance demo_host : Host := {|
  read_to_string _ := Err FileNotFound;
  toml_from_str _ := Err "not TOML";
  env_var _ := None;
  socket_addr s := if decide (s = EmptyString) then Err "invalid socket address syntax" else Ok tt;
  is_file _ := true;
|}.

(** A key file with a certificate before two keys. *)
#[local] Instance demo_tls : TlsHost := {|
  tls_config := PrivateKeyDer;
  file_open _ := Ok [];
  pem_certs _ := [Ok []];
  pem_read_all _ := [Ok OtherItem; Ok (Pkcs8Key []); Ok (Sec1Key [])];
  with_single_cert _ key := Ok key;
|}.

#[local] Existing Instance counter_semaphore.

Definition plain_args : Args :=
  {| arg_config := None; arg_listen := None; arg_metrics_addr := None; arg_data_dir := None;
     arg_log_level := None; arg_tls_cert := None; arg_tls_key := None |}.
Definition tls_args : Args :=
  {| arg_config := None; arg_listen := None; arg_metrics_addr := None; arg_data_dir := None;
     arg_log_level := None; arg_tls_cert := Some "cert.pem"; arg_tls_key := Some "key.pem" |}.

Definition demo_config (cert key : option string) : Daemon.Config :=
  {| Daemon.listen_addr := "0.0.0.0:7632"; Daemon.metrics_addr := "0.0.0.0:7633";
     Daemon.data_dir := "data"; Daemon.log_level := "info"; Daemon.log_format := Json;
     Daemon.dispatcher_interval_ms := 100; Daemon.tls_cert_path := cert;
     Daemon.tls_key_path := key; Daemon.auth_tokens := [] |}.

Definition demo_server (cert key : option string) (t : option PrivateKeyDer) : Server :=
  {| srv_config := server_config (demo_config cert key); srv_tls_config := t;
     srv_metrics := ServerMetrics_default |}.

(** ** Start-up *)

(** The database does not open: nothing else is tried. *)
Lemma start_first_failure_witness :
  Process.start plain_args (Ok tt) (Err (Storage.Internal "Database already open. Cannot acquire lock.")) (Ok tt) (Err "in use") 0 0
  = Err (OpeningDatabase "data/statemaster.redb" (Storage.Internal "Database already open. Cannot acquire lock.")).
Proof.
  rewrite (start_first_failure plain_args (Ok tt) (Err (Storage.Internal "Database already open. Cannot acquire lock.")) (Ok tt) (Err "in use") 0 0
    (demo_config None None) Defaults); reflexivity.
Defined.

Definition tls_process : Process :=
  started (demo_config (Some "cert.pem") (Some "key.pem")) Defaults
    (demo_server (Some "cert.pem") (Some "key.pem") (Some (Pkcs8 []))) (demo_db []) (Ok tt) 0 0.

Lemma tls_started :
  Process.start tls_args (Ok tt) (Ok (demo_db [] : store)) (Ok tt) (Ok tt) 0 0 = Ok tls_process.
Proof. apply start_ok. do 4 eexists. split_and!; reflexivity. Qed.

(** A plain-text client of a daemon with TLS gets nowhere. *)
Lemma tls_not_downgraded_witness :
  let plain := Ok <$> [startup_frame 1; auth_frame "secret"; WireExamples.submit_frame] in
  handle_connection (p_server tls_process) (λ _, Err "corrupt message") plain (conn (run0 []))
  = (Err (WireTls "corrupt message"), conn (run0 [])).
Proof.
  intros plain.
  destruct (tls_not_downgraded tls_args _ _ _ _ _ _ tls_process tls_started) as (t & ? & ? & ? & ? & ? & ? & ? & ? & _ & _ & _ & _ & _ & _ & _ & _ & _ & Hc).
  - left. by exists "cert.pem".
  - exact (Hc (λ _, Err "corrupt message") plain (conn (run0 []))).
Defined.

(** ** Runs of the process *)

(** Steps of the engine's parts, those of [main] apart. *)
Fixpoint proc_exec (p : Process) (xs : list Action) : option Process :=
  match xs with
  | [] => Some p
  | x :: xs =>
      match exec_action (p_conf p) x with
      | Some c =>
          if Bool.eqb (cf_stop c) (cf_stop (p_conf p))
             && Bool.eqb (e_shutdown (cf_engine c)) (e_shutdown (cf_engine (p_conf p)))
          then proc_exec (set_conf p c) xs else None
      | None => None
      end
  end.

Lemma proc_exec_main p xs p' : proc_exec p xs = Some p' → p_main p' = p_main p.
Proof.
  revert p. induction xs as [|x xs IH]; intros p; cbn [proc_exec]; [by intros [= <-]|].
  destruct (exec_action (p_conf p) x) as [c|]; [|done]. destruct (_ && _); [|done].
  intros Hx. by apply IH in Hx.
Qed.

Lemma proc_exec_sound b defs n p xs p' :
  proc_reachable b defs n p → p_main p ≠ MExited → Forall (action_ok defs) xs →
  proc_exec p xs = Some p' → proc_reachable b defs (n + length xs) p'.
Proof.
  intros HR Hm HF. revert n p HR Hm. induction HF as [|x xs Hx HF IH]; intros n p HR Hm; cbn [proc_exec length].
  - intros [= <-]. by rewrite Nat.add_0_r.
  - destruct (exec_action (p_conf p) x) as [c|] eqn:H1; [|done].
    destruct (_ && _) eqn:Hb; [|done]. apply andb_true_iff in Hb as [Hb1 Hb2].
    intros Hrun. replace (n + S (length xs)) with (S n + length xs) by lia.
    apply (IH (S n) (set_conf p c)); [|done|done]. eapply proc_next; [exact HR|].
    apply ps_engine; [done|by eapply exec_action_sound|by apply eqb_prop..].
Qed.

Definition serving : Process :=
  started (demo_config None None) Defaults (demo_server None None None) (demo_db []) (Err "in use") 0 0.

Lemma serving_reach : proc_reachable true only_document 0 serving.
Proof.
  eapply (proc_start true only_document plain_args _ (Err "in use") 0 0);
    [apply (demo_holds [])|intros _; apply demo_fit|].
  apply start_ok. do 4 eexists. split_and!; reflexivity.
Qed.

(** A subscriber, and a document submitted; the call has returned. *)
Definition one_call : list Action :=
  [ADefine document; ASubscribe "s" None 0; ASpawn (ConcurrentExamples.submit "doc-1" None)]
  ++ steps 0 9.

Definition busy : Process := default serving (proc_exec serving one_call).
Lemma busy_reach : proc_reachable true only_document 12 busy.
Proof.
  apply (proc_exec_sound true only_document 0 serving one_call busy); [apply serving_reach|done| |].
  - repeat constructor.
  - unfold busy. assert (match proc_exec serving one_call with Some _ => true | None => false end = true) as Hx
      by (vm_compute; reflexivity). by destruct (proc_exec serving one_call).
Qed.

Lemma busy_serving : p_main busy = MServing.
Proof. vm_compute. reflexivity. Qed.

(** [main] from the signal to its return, the accept loop ending in between. *)
Definition signalled (p : Process) : Process :=
  set_main (set_conf p (set_engine (p_conf p) (shutdown (cf_engine (p_conf p))))) MSignalled.
Definition joining (p : Process) : Process :=
  set_main (set_conf p (send_shutdown (p_conf p))) MJoining.
Definition stopped (p : Process) : Process :=
  set_main (set_listener p (on_shutdown (p_listener p))) MExited.

Lemma exit_steps b defs n p :
  proc_reachable b defs n p → p_main p = MServing →
  proc_reachable b defs (4 + n) (stopped (joining (signalled p))).
Proof.
  intros HR Hm.
  assert (proc_reachable b defs (S n) (signalled p)) as H1.
  { eapply proc_next; [exact HR|]. apply ps_main. unfold main_step. by rewrite Hm. }
  assert (proc_reachable b defs (S (S n)) (joining (signalled p))) as H2.
  { eapply proc_next; [exact H1|]. by apply ps_main. }
  eapply (proc_next b defs (3 + n) (set_listener (joining (signalled p))
    (on_shutdown (p_listener (joining (signalled p)))))).
  - eapply proc_next; [exact H2|]. by apply ps_listener_shutdown.
  - by apply ps_main.
Qed.

(** What the subscriber was sent so far. *)
Definition delivered (p : Process) : list (list ChangeRecord) :=
  sent <$> e_channels (cf_engine (p_conf p)).

(** The first call has returned a committed transition. *)
Definition returned_ok (p : Process) : bool :=
  match cf_threads (p_conf p) !! 0 with Some (_, PDone (Ok _)) => true | _ => false end.

(** [main] does not wait for the dispatcher: it can return before the last pass,
    with a committed record that no live subscriber was sent. *)
Theorem exit_before_last_pass :
  ∃ n p, proc_reachable true only_document n p ∧ p_main p = MExited
    ∧ returned_ok p = true
    ∧ cf_dispatcher (p_conf p) = DWait ∧ delivered p = [[]].
Proof.
  exists 16, (stopped (joining (signalled busy))).
  split; [apply (exit_steps _ _ 12); [apply busy_reach|apply busy_serving]|].
  split; [done|]. split_and!; vm_compute; reflexivity.
Qed.

(** An error of [accept] ends the accept loop, and the daemon lives on without
    one: [main] looks at the task only after the signal. *)
Theorem accept_error_unnoticed :
  ∃ n p, proc_reachable true only_document n p ∧ p_main p = MServing
    ∧ l_accepting (p_listener p) = false.
Proof.
  exists 1, (set_listener serving (on_shutdown (p_listener serving))).
  split; [|done]. eapply proc_next; [apply serving_reach|]. by apply ps_accept_error.
Qed.

Lemma daemon_lifecycle_witness :
  let p := stopped (joining (signalled busy)) in
  (∃ a, holds (e_storage (cf_engine (p_conf p))) a ∧ consistent only_document a)
  ∧ p_main p = MExited ∧ l_accepting (p_listener p) = false.
Proof.
  intros p. destruct (daemon_lifecycle true only_document 16 p)
    as (Hstore & _ & _ & _ & _ & Hexit).
  - apply (exit_steps _ _ 12); [apply busy_reach|apply busy_serving].
  - reflexivity.
  - split; [exact Hstore|]. split; [reflexivity|]. by apply Hexit.
Defined.
