(* ===== verification/Conformance.v ===== *)
(** * The repository's unit tests on the model

    The inline tests of [smdb-core], [smdb-storage] and [smdb-engine], one
    definition a test, run on the instances of [Concrete] (an in-memory store
    without faults). A test is a computation that an [unwrap] of an error or a
    false assertion stops; [passes] says that it runs to its end. *)
From S2P Require Import Prelude Core Redb Keys Storage StorageSpec StorageTrait Channel Engine Concrete.
Import Demo.

(** ** Tests *)

Definition Test (S A : Type) : Type := S → option (A * S).

Definition t_ret {S A} (x : A) : Test S A := λ s, Some (x, s).
Definition t_bind {S A B} (m : Test S A) (k : A → Test S B) : Test S B :=
  λ s, match m s with Some (x, s) => k x s | None => None end.

Declare Scope test_scope.
Notation "x <~ m ;; k" := (t_bind m (λ x, k)) (at level 100, m at next level, right associativity) : test_scope.
Notation "m ;; k" := (t_bind m (λ _, k)) (at level 100, right associativity) : test_scope.
Local Open Scope test_scope.

(** [.unwrap()], the bare result, and [assert!]. *)
Definition unwrap {S E A} (m : St S E A) : Test S A :=
  λ s, match m s with (Ok x, s) => Some (x, s) | (Err _, _) => None end.
Definition attempt {S E A} (m : St S E A) : Test S (Res A E) := λ s, Some (m s).
Definition assert {S} (b : bool) : Test S unit := if b then t_ret tt else λ _, None.
Definition assert_eq {S A} `{EqDecision A} (x y : A) : Test S unit := assert (bool_decide (x = y)).
Definition assert_err {S A E} (r : Res A E) : Test S unit := assert (negb (is_ok r)).
(** A call that is no [Result]. *)
Definition run {S A} (f : S → A * S) : Test S A := λ s, Some (f s).

Definition passes {S A} (t : Test S A) (s : S) : bool :=
  match t s with Some _ => true | None => false end.

(** [.build().unwrap()] of a builder that succeeds. *)
Definition built (b : Builder.MachineBuilder) : MachineDefinition :=
  match Builder.build 0 b with
  | Ok def => def
  | Err _ => {| md_name := EmptyString; md_version := 0; md_states := []; md_initial_state := EmptyString;
                md_transitions := []; md_effects := []; md_created_at := 0 |}
  end.

Notation "b |> f" := (f b) (at level 50, left associativity, only parsing) : test_scope.

(** ** [smdb-core/src/machine.rs] and [engine.rs] *)

Module CoreTests.

Definition fulfillment_builder : Builder.MachineBuilder :=
  Builder.new
  |> Builder.name "fulfillment" |> Builder.version 1
  |> Builder.states ["pending"; "paid"; "packed"; "shipped"; "delivered"; "canceled"]
  |> Builder.initial_state "pending"
  |> Builder.transition "pay" ["pending"] "paid"
  |> Builder.transition_with_guards "pack" ["paid"] "packed" ["inventory_reserved"]
  |> Builder.transition_with_guards "ship" ["packed"] "shipped" ["payment_captured"]
  |> Builder.transition "deliver" ["shipped"] "delivered"
  |> Builder.transition "cancel" ["pending"; "paid"; "packed"] "canceled"
  |> Builder.effect "ship" "notify_customer" None
  |> Builder.effect "cancel" "release_inventory" None.

Definition fulfillment_machine : MachineDefinition := built fulfillment_builder.

Definition valid_machine_builds_and_validates : Test unit unit :=
  assert (is_ok (Builder.build 0 fulfillment_builder)) ;;
  assert_eq (md_name fulfillment_machine) "fulfillment" ;;
  assert_eq (length (md_states fulfillment_machine)) 6 ;;
  assert_eq (length (md_transitions fulfillment_machine)) 5.

Definition is_duplicate_state {A} (r : Res A CoreError) : bool :=
  match r with Err (DuplicateState _) => true | _ => false end.
Definition is_invalid_definition {A} (r : Res A CoreError) : bool :=
  match r with Err (InvalidDefinition _) => true | _ => false end.
Definition is_illegal {A} (r : Res A CoreError) : bool :=
  match r with Err (IllegalTransition _ _ _ _) => true | _ => false end.

Definition duplicate_state_is_rejected : Test unit unit :=
  assert (is_duplicate_state (Builder.build 0
    (Builder.new |> Builder.name "m" |> Builder.states ["a"; "a"] |> Builder.initial_state "a"))).

Definition unknown_initial_state_is_rejected : Test unit unit :=
  assert (is_invalid_definition (Builder.build 0
    (Builder.new |> Builder.name "m" |> Builder.state "a" |> Builder.initial_state "b"))).

Definition unknown_from_state_in_transition_is_rejected : Test unit unit :=
  assert (is_invalid_definition (Builder.build 0
    (Builder.new |> Builder.name "m" |> Builder.state "a" |> Builder.initial_state "a"
     |> Builder.transition "go" ["b"] "a"))).

Definition unknown_to_state_in_transition_is_rejected : Test unit unit :=
  assert (is_invalid_definition (Builder.build 0
    (Builder.new |> Builder.name "m" |> Builder.state "a" |> Builder.initial_state "a"
     |> Builder.transition "go" ["a"] "z"))).

Definition duplicate_event_from_state_pair_is_rejected : Test unit unit :=
  assert (is_invalid_definition (Builder.build 0
    (Builder.new |> Builder.name "m" |> Builder.states ["a"; "b"] |> Builder.initial_state "a"
     |> Builder.transition "go" ["a"] "b" |> Builder.transition "go" ["a"] "b"))).

Definition cancel_from_multiple_states_has_three_pairs : Test unit unit :=
  assert_eq
    ((λ t, length (rule_from_states t))
       <$> List.find (λ t, bool_decide (rule_event t = "cancel")) (md_transitions fulfillment_machine))
    (Some 3).

Definition plan (state event : string) : Res TransitionRule CoreError :=
  FsmPlanner.plan_transition fulfillment_machine state event "order_1".

Definition plan_transition_finds_correct_rule : Test unit unit :=
  rule <~ unwrap (st_res (plan "pending" "pay")) ;;
  assert_eq (rule_to_state rule) "paid".

Definition plan_transition_returns_illegal_transition_for_wrong_state : Test unit unit :=
  assert (is_illegal (plan "delivered" "ship")).

Definition plan_transition_returns_illegal_transition_for_unknown_event : Test unit unit :=
  assert (is_illegal (plan "pending" "teleport")).

(** The body of the loop. *)
Definition cancels_from (from : string) : Test unit unit :=
  rule <~ unwrap (st_res (plan from "cancel")) ;;
  assert_eq (rule_to_state rule) "canceled".
Definition cancel_is_legal_from_multiple_states : Test unit unit :=
  cancels_from "pending" ;; cancels_from "paid" ;; cancels_from "packed".

Definition validate_guards_passes_when_all_guards_true : Test unit unit :=
  rule <~ unwrap (st_res (plan "packed" "ship")) ;;
  assert (is_ok (FsmPlanner.validate_guards rule {["payment_captured" := true]})).

Definition validate_guards_fails_on_false_guard : Test unit unit :=
  rule <~ unwrap (st_res (plan "packed" "ship")) ;;
  assert (match FsmPlanner.validate_guards rule {["payment_captured" := false]} with
          | Err (GuardFailed guard_name _) => bool_decide (guard_name = "payment_captured")
          | _ => false
          end).

Definition validate_guards_fails_when_guard_absent_from_results : Test unit unit :=
  rule <~ unwrap (st_res (plan "packed" "ship")) ;;
  assert (match FsmPlanner.validate_guards rule ∅ with Err (GuardFailed _ _) => true | _ => false end).

Definition validate_guards_passes_when_no_guards_on_rule : Test unit unit :=
  rule <~ unwrap (st_res (plan "pending" "pay")) ;;
  assert (is_ok (FsmPlanner.validate_guards rule ∅)).

Definition compute_effects_returns_effects_for_event : Test unit unit :=
  let effects := FsmPlanner.compute_effects fulfillment_machine "ship" in
  assert_eq (length effects) 1 ;;
  assert_eq (er_effect <$> effects !! 0) (Some "notify_customer").

Definition compute_effects_returns_empty_for_event_with_no_effects : Test unit unit :=
  assert_eq (length (FsmPlanner.compute_effects fulfillment_machine "pay")) 0.

(** An identifier as [Uuid::new_v4] prints it. *)
Definition some_uuid : string := "6f0e2a4c-1d3b-4e5f-8a7b-9c0d1e2f3a4b".

Definition build_transition_record_produces_valid_record : Test unit unit :=
  let record := FsmPlanner.build_transition_record some_uuid 0 "order_1" "fulfillment" "pending"
    "paid" "pay" "svc:billing" (VObject [("amount", VNumber (PosInt 100))]) (Some "idem-key-1") in
  assert_eq (rec_entity_id record) "order_1" ;;
  assert_eq (rec_from_state record) "pending" ;;
  assert_eq (rec_to_state record) "paid" ;;
  assert_eq (rec_sequence record) 0%N ;;
  assert (bool_decide (is_Some (rec_idempotency_key record))) ;;
  assert_eq (String.length (rec_id record)) 36.

Example machine_tests :
  Forall (λ t, passes t () = true)
    [valid_machine_builds_and_validates; duplicate_state_is_rejected; unknown_initial_state_is_rejected;
     unknown_from_state_in_transition_is_rejected; unknown_to_state_in_transition_is_rejected;
     duplicate_event_from_state_pair_is_rejected; cancel_from_multiple_states_has_three_pairs].
Proof. repeat constructor. Qed.

Example planner_tests :
  Forall (λ t, passes t () = true)
    [plan_transition_finds_correct_rule; plan_transition_returns_illegal_transition_for_wrong_state;
     plan_transition_returns_illegal_transition_for_unknown_event; cancel_is_legal_from_multiple_states;
     validate_guards_passes_when_all_guards_true; validate_guards_fails_on_false_guard;
     validate_guards_fails_when_guard_absent_from_results;
     validate_guards_passes_when_no_guards_on_rule; compute_effects_returns_effects_for_event;
     compute_effects_returns_empty_for_event_with_no_effects;
     build_transition_record_produces_valid_record].
Proof. repeat constructor. Qed.

End CoreTests.

(** ** [smdb-storage/src/redb_engine.rs] *)

Module StorageTests.

(** [RedbEngine::in_memory()]. *)
Definition in_memory : store :=
  match Storage.in_memory (Ok (demo_db [])) with Ok d => d | Err _ => demo_db [] end.

Definition build_fulfillment : MachineDefinition := built (
  Builder.new
  |> Builder.name "fulfillment" |> Builder.version 1
  |> Builder.states ["pending"; "paid"; "shipped"; "delivered"]
  |> Builder.initial_state "pending"
  |> Builder.transition "pay" ["pending"] "paid"
  |> Builder.transition "ship" ["paid"] "shipped"
  |> Builder.transition "deliver" ["shipped"] "delivered").

Definition store_and_get_machine : Test store unit :=
  unwrap (s_store_machine build_fulfillment) ;;
  got <~ unwrap (s_get_machine "fulfillment" None) ;;
  assert_eq (md_name got) "fulfillment".

Definition list_machines_returns_all : Test store unit :=
  unwrap (s_store_machine build_fulfillment) ;;
  list <~ unwrap s_list_machines ;;
  assert_eq (length list) 1.

(** The state and the record of the tests, for a version, an event and a key. *)
Definition e1_state (to : string) (version : N) : EntityState :=
  {| es_entity_id := "e1"; es_machine := "fulfillment"; es_current_state := to;
     es_version := version; es_updated_at := 0; es_created_at := 0 |}.
Definition e1_record (id from to event : string) (key : option string) : TransitionRecord :=
  FsmPlanner.build_transition_record id 0 "e1" "fulfillment" from to event "actor" (VObject []) key.

Definition execute_transition_and_read_state : Test store unit :=
  unwrap (s_store_machine build_fulfillment) ;;
  committed <~ unwrap (s_execute_transition (e1_record "r1" "pending" "paid" "pay" None)
                         (e1_state "paid" 1) []) ;;
  assert_eq committed.1 1%N ;;
  assert_eq (rec_sequence committed.2) 1%N ;;
  state <~ unwrap (s_get_entity_state "e1" "fulfillment") ;;
  assert_eq (es_current_state state) "paid" ;;
  assert_eq (es_version state) 1%N.

Definition idempotency_key_prevents_duplicate : Test store unit :=
  unwrap (s_execute_transition (e1_record "r1" "pending" "paid" "pay" (Some "idem-1"))
            (e1_state "paid" 1) []) ;;
  result <~ attempt (s_execute_transition (e1_record "r2" "pending" "paid" "pay" (Some "idem-1"))
                       (e1_state "paid" 2) []) ;;
  assert (match result with Err (AlreadyExists _) => true | _ => false end).

Definition effect_lifecycle : Test store unit :=
  let effect := Effect_new "x1" 0 "tr1" "notify_customer" (VObject []) in
  let id := eff_id effect in
  unwrap (s_insert_effects [effect]) ;;
  pending <~ unwrap (s_get_pending_effects 10) ;;
  assert_eq (length pending) 1 ;;
  unwrap (s_mark_effect_published id) ;;
  still_pending <~ unwrap (s_get_pending_effects 10) ;;
  assert_eq (length still_pending) 0.

Definition get_history_returns_ordered_records : Test store unit :=
  unwrap (s_execute_transition (e1_record "r1" "pending" "paid" "pay" None) (e1_state "paid" 1) []) ;;
  unwrap (s_execute_transition (e1_record "r2" "paid" "shipped" "ship" None) (e1_state "shipped" 2) []) ;;
  history <~ unwrap (s_get_history "e1" "fulfillment" None None) ;;
  assert_eq (length history) 2 ;;
  assert_eq (rec_event <$> history !! 0) (Some "pay") ;;
  assert_eq (rec_event <$> history !! 1) (Some "ship").

Example storage_tests :
  Forall (λ t, passes t in_memory = true)
    [store_and_get_machine; list_machines_returns_all; execute_transition_and_read_state;
     idempotency_key_prevents_duplicate; effect_lifecycle; get_history_returns_ordered_records].
Proof. repeat (apply Forall_cons; split; [vm_compute; reflexivity|]). done. Qed.

End StorageTests.

(** ** [smdb-engine/src/guard.rs] *)

Module GuardTests.

Definition make_state : EntityState :=
  {| es_entity_id := "e1"; es_machine := "m1"; es_current_state := "pending"; es_version := 0;
     es_updated_at := 0; es_created_at := 0 |}.

Definition missing_guard_defaults_to_true : Test unit unit :=
  assert (GuardRegistry.evaluate GuardRegistry.new "nonexistent" make_state (VObject [])).

Definition registered_guard_returning_true_passes : Test unit unit :=
  let registry := GuardRegistry.register "always_pass" (λ _ _, true) GuardRegistry.new in
  assert (GuardRegistry.evaluate registry "always_pass" make_state (VObject [])).

Definition registered_guard_returning_false_fails : Test unit unit :=
  let registry := GuardRegistry.register "always_fail" (λ _ _, false) GuardRegistry.new in
  assert (negb (GuardRegistry.evaluate registry "always_fail" make_state (VObject []))).

(** [ctx["amount"].as_u64().unwrap_or(0)]. *)
Definition amount (ctx : Value) : N :=
  match ctx with
  | VObject m =>
      match List.find (λ kv, bool_decide (kv.1 = "amount")) m with
      | Some (_, VNumber (PosInt n)) => n
      | _ => 0%N
      end
  | _ => 0%N
  end.

Definition guard_can_inspect_context : Test unit unit :=
  let registry := GuardRegistry.register "check_amount" (λ _ ctx, (0 <? amount ctx)%N) GuardRegistry.new in
  assert (GuardRegistry.evaluate registry "check_amount" make_state
            (VObject [("amount", VNumber (PosInt 50))])) ;;
  assert (negb (GuardRegistry.evaluate registry "check_amount" make_state
                  (VObject [("amount", VNumber (PosInt 0))]))).

Example guard_tests :
  Forall (λ t, passes t () = true)
    [missing_guard_defaults_to_true; registered_guard_returning_true_passes;
     registered_guard_returning_false_fails; guard_can_inspect_context].
Proof. repeat constructor. Qed.

End GuardTests.

(** ** [smdb-engine/src/engine.rs] *)

Module EngineTests.

Definition test_engine : Engine := new (demo_db [] : store) 0 0.

Definition order_machine : MachineDefinition := built (
  Builder.new
  |> Builder.name "fulfillment" |> Builder.version 1
  |> Builder.states ["pending"; "paid"; "packed"; "shipped"; "delivered"; "canceled"]
  |> Builder.initial_state "pending"
  |> Builder.transition "pay" ["pending"] "paid"
  |> Builder.transition "pack" ["paid"] "packed"
  |> Builder.transition_with_guards "ship" ["packed"] "shipped" ["payment_captured"]
  |> Builder.transition "deliver" ["shipped"] "delivered"
  |> Builder.transition "cancel" ["pending"; "paid"; "packed"] "canceled"
  |> Builder.effect "ship" "notify_customer" None).

(** The calls of the tests, which differ in these arguments. *)
Definition fire (entity machine event actor : string) (expected : option N) (key : option string)
    : St Engine EngineError TransitionResult :=
  transition entity machine event actor (VObject []) expected key.

Definition define_and_retrieve_machine : Test Engine unit :=
  unwrap (define_machine order_machine) ;;
  retrieved <~ unwrap (get_machine "fulfillment") ;;
  assert_eq (md_name retrieved) "fulfillment" ;;
  assert_eq (length (md_states retrieved)) 6.

Definition basic_transition : Test Engine unit :=
  unwrap (define_machine order_machine) ;;
  result <~ unwrap (fire "order_1" "fulfillment" "pay" "user:alice" None None) ;;
  assert_eq (tr_from_state result) "pending" ;;
  assert_eq (tr_to_state result) "paid" ;;
  assert_eq (tr_version result) 1%N ;;
  state <~ unwrap (current "order_1" "fulfillment") ;;
  assert_eq (es_current_state state) "paid" ;;
  assert_eq (es_version state) 1%N.

Definition illegal_transition_rejected : Test Engine unit :=
  unwrap (define_machine order_machine) ;;
  result <~ attempt (fire "order_1" "fulfillment" "deliver" "user:alice" None None) ;;
  assert_err result.

Definition version_conflict : Test Engine unit :=
  unwrap (define_machine order_machine) ;;
  unwrap (fire "order_1" "fulfillment" "pay" "user:alice" None None) ;;
  result <~ attempt (fire "order_1" "fulfillment" "pack" "user:bob" (Some 0%N) None) ;;
  assert_err result.

Definition guard_blocks_transition : Test Engine unit :=
  unwrap (define_machine order_machine) ;;
  run (λ e, (tt, register_guard "payment_captured" (λ _ _, false) e)) ;;
  unwrap (fire "order_1" "fulfillment" "pay" "u" None None) ;;
  unwrap (fire "order_1" "fulfillment" "pack" "u" None None) ;;
  result <~ attempt (fire "order_1" "fulfillment" "ship" "u" None None) ;;
  assert_err result.

Definition history_tracks_transitions : Test Engine unit :=
  unwrap (define_machine order_machine) ;;
  unwrap (fire "order_1" "fulfillment" "pay" "u" None None) ;;
  unwrap (fire "order_1" "fulfillment" "pack" "u" None None) ;;
  h <~ unwrap (history "order_1" "fulfillment" None None) ;;
  assert_eq (length h) 2 ;;
  assert_eq (rec_from_state <$> h !! 0) (Some "pending") ;;
  assert_eq (rec_from_state <$> h !! 1) (Some "paid").

Definition created_at_is_preserved_across_transitions : Test Engine unit :=
  unwrap (define_machine order_machine) ;;
  unwrap (fire "order_1" "fulfillment" "pay" "u" None None) ;;
  after_first <~ unwrap (current "order_1" "fulfillment") ;;
  unwrap (fire "order_1" "fulfillment" "pack" "u" None None) ;;
  after_second <~ unwrap (current "order_1" "fulfillment") ;;
  assert_eq (es_created_at after_first) (es_created_at after_second) ;;
  assert (bool_decide (es_updated_at after_first <= es_updated_at after_second)%Z) ;;
  assert_eq (es_version after_second) 2%N.

Definition idempotent_replay_returns_real_version : Test Engine unit :=
  unwrap (define_machine order_machine) ;;
  first <~ unwrap (fire "order_1" "fulfillment" "pay" "u" None (Some "idem-1")) ;;
  replay <~ unwrap (fire "order_1" "fulfillment" "pay" "u" None (Some "idem-1")) ;;
  assert_eq (tr_sequence replay) (tr_sequence first) ;;
  assert_eq (tr_transition_id replay) (tr_transition_id first) ;;
  assert_eq (tr_version replay) 1%N.

(** [dispatch_pass()]; these logs need few rounds. *)
Definition pass : Test Engine nat := dispatch_pass 10.
(** [while let Ok(r) = rx.try_recv()]. *)
Definition received (rx : nat) : Test Engine (list ChangeRecord) :=
  λ e, Some (default [] (snd <$> e_channels e !! rx), e).

Definition dispatch_delivers_ordered_change_records_with_effects : Test Engine unit :=
  unwrap (define_machine order_machine) ;;
  run (λ e, (tt, register_guard "payment_captured" (λ _ _, true) e)) ;;
  rx <~ run (subscribe "sub1" (Some "fulfillment") 0) ;;
  unwrap (fire "o1" "fulfillment" "pay" "u" None None) ;;
  unwrap (fire "o1" "fulfillment" "pack" "u" None None) ;;
  unwrap (fire "o1" "fulfillment" "ship" "u" None None) ;;
  n1 <~ pass ;;
  assert_eq n1 3 ;;
  n2 <~ pass ;;
  assert_eq n2 0 ;;
  recs <~ received rx ;;
  assert_eq (length recs) 3 ;;
  assert_eq (cr_sequence <$> recs) [1; 2; 3]%N ;;
  assert_eq (cr_event <$> recs !! 2) (Some "ship") ;;
  assert_eq (cr_version <$> recs !! 2) (Some 3%N) ;;
  assert_eq ((λ r, ep_effect_name <$> cr_effects r) <$> recs !! 2) (Some ["notify_customer"]).

Definition dispatch_respects_machine_filter : Test Engine unit :=
  unwrap (define_machine order_machine) ;;
  unwrap (define_machine (built (
    Builder.new |> Builder.name "payment" |> Builder.version 1
    |> Builder.states ["unpaid"; "captured"] |> Builder.initial_state "unpaid"
    |> Builder.transition "capture" ["unpaid"] "captured"))) ;;
  rx <~ run (subscribe "sub1" (Some "payment") 0) ;;
  unwrap (fire "o1" "fulfillment" "pay" "u" None None) ;;
  unwrap (fire "o1" "payment" "capture" "u" None None) ;;
  pass ;;
  recs <~ received rx ;;
  assert_eq (length recs) 1 ;;
  assert_eq (cr_machine <$> recs !! 0) (Some "payment").

Definition multiple_machines_on_one_entity : Test Engine unit :=
  unwrap (define_machine order_machine) ;;
  unwrap (define_machine (built (
    Builder.new |> Builder.name "payment" |> Builder.version 1
    |> Builder.states ["unpaid"; "captured"; "refunded"] |> Builder.initial_state "unpaid"
    |> Builder.transition "capture" ["unpaid"] "captured"
    |> Builder.transition "refund" ["captured"] "refunded"))) ;;
  unwrap (fire "order_1" "fulfillment" "pay" "u" None None) ;;
  unwrap (fire "order_1" "payment" "capture" "u" None None) ;;
  f <~ unwrap (current "order_1" "fulfillment") ;;
  p <~ unwrap (current "order_1" "payment") ;;
  assert_eq (es_current_state f) "paid" ;;
  assert_eq (es_current_state p) "captured".

Example engine_tests :
  Forall (λ t, passes t test_engine = true)
    [define_and_retrieve_machine; basic_transition; illegal_transition_rejected; version_conflict;
     guard_blocks_transition; history_tracks_transitions; created_at_is_preserved_across_transitions;
     idempotent_replay_returns_real_version; dispatch_delivers_ordered_change_records_with_effects;
     dispatch_respects_machine_filter; multiple_machines_on_one_entity].
Proof. repeat (apply Forall_cons; split; [vm_compute; reflexivity|]). done. Qed.

End EngineTests.
