(* ===== verification/ConformanceProto.v ===== *)
(** * The unit tests of the protocol crate and of the daemon's configuration

    The tests of [smdb-proto/src/lib.rs] and of [smdbd/src/config.rs] (those that
    do not read TOML text, whose parser is a parameter), on the instances of
    [WireExamples] and a host that knows the addresses of the tests. *)
From S2P Require Import Prelude Redb Concrete Frame Messages Wire WireExamples Daemon Conformance.
From Stdlib Require Import Strings.Byte.
Import DemoWire.
Local Open Scope test_scope.

(** ** Frames and messages *)

Module ProtoTests.

#[local] Instance byte_eq_dec : EqDecision byte := Byte.byte_eq_dec.

(** A decoder with its buffer. *)
Definition feed (src : bytes) : Test bytes unit := λ _, Some (tt, src).
Definition put (frame : Frame) : Test bytes unit := λ dst, Some (tt, encode frame dst).
Definition take : Test bytes (option Frame) := unwrap Frame.decode.
Definition try_take : Test bytes (Res (option Frame) ProtoError) := attempt Frame.decode.
(** [.expect("expected a frame")]. *)
Definition some {S A} (o : option A) : Test S A := λ s, match o with Some x => Some (x, s) | None => None end.

Definition bytes_of (s : string) : bytes := String.list_byte_of_string s.

Definition roundtrip_frame (t : FrameTag) (b : bytes) : Test bytes Frame :=
  put {| tag := t; body := b |} ;;
  o <~ take ;;
  some o.

Definition frame_codec_roundtrip_empty_body : Test bytes unit :=
  frame <~ roundtrip_frame TPing [] ;;
  assert_eq (tag frame) TPing ;;
  assert_eq (length (body frame)) 0.

Definition frame_codec_roundtrip_with_body : Test bytes unit :=
  let b := bytes_of "hello world" in
  frame <~ roundtrip_frame TAuth b ;;
  assert_eq (tag frame) TAuth ;;
  assert_eq (body frame) b.

(** [buf.split_to(3)]. *)
Definition frame_codec_partial_read : Test bytes unit :=
  put {| tag := TPing; body := bytes_of "partial" |} ;;
  (λ buf, Some (tt, firstn 3 buf)) ;;
  o <~ take ;;
  assert (negb (bool_decide (is_Some o))).

Definition frame_codec_rejects_oversized_frame : Test bytes unit :=
  feed (tag_code TAuth :: put_u32 (17 * 1024 * 1024)) ;;
  r <~ try_take ;;
  assert (match r with Err (FrameTooLarge _ _) => true | _ => false end).

Definition frame_codec_rejects_unknown_tag : Test bytes unit :=
  feed (xff :: put_u32 0) ;;
  r <~ try_take ;;
  assert (match r with Err (InvalidFrameType xff) => true | _ => false end).

Definition message_encode_decode_startup : Test bytes unit :=
  let msg := {| su_protocol_version := PROTOCOL_VERSION; su_capabilities := ["subscribe"; "history"] |} in
  frame <~ unwrap (st_res (encode_message TStartup msg)) ;;
  assert_eq (tag frame) TStartup ;;
  decoded <~ unwrap (st_res (decode_message (A := StartupMessage) frame)) ;;
  assert_eq (su_protocol_version decoded) PROTOCOL_VERSION ;;
  assert_eq (su_capabilities decoded) ["subscribe"; "history"].

Definition message_encode_decode_auth : Test bytes unit :=
  frame <~ unwrap (st_res (encode_message TAuth {| au_token := "secret-token" |})) ;;
  decoded <~ unwrap (st_res (decode_message (A := AuthMessage) frame)) ;;
  assert_eq (au_token decoded) "secret-token".

Definition message_encode_decode_ready : Test bytes unit :=
  let msg := {| rd_session_id := "sess-abc"; rd_server_version := SERVER_VERSION;
                rd_protocol_version := PROTOCOL_VERSION; rd_capabilities := ["subscribe"] |} in
  frame <~ unwrap (st_res (encode_message TReady msg)) ;;
  decoded <~ unwrap (st_res (decode_message (A := ReadyMessage) frame)) ;;
  assert_eq (rd_session_id decoded) "sess-abc" ;;
  assert_eq (rd_protocol_version decoded) PROTOCOL_VERSION.

Definition frame_codec_multiple_frames_in_buffer : Test bytes unit :=
  put {| tag := TPing; body := bytes_of "one" |} ;;
  put {| tag := TPong; body := bytes_of "two" |} ;;
  o1 <~ take ;; d1 <~ some o1 ;;
  assert_eq (tag d1) TPing ;;
  assert_eq (body d1) (bytes_of "one") ;;
  o2 <~ take ;; d2 <~ some o2 ;;
  assert_eq (tag d2) TPong ;;
  assert_eq (body d2) (bytes_of "two") ;;
  o3 <~ take ;;
  assert (negb (bool_decide (is_Some o3))).

Example proto_tests :
  Forall (λ t, passes t [] = true)
    [frame_codec_roundtrip_empty_body; frame_codec_roundtrip_with_body; frame_codec_partial_read;
     frame_codec_rejects_oversized_frame; frame_codec_rejects_unknown_tag;
     message_encode_decode_startup; message_encode_decode_auth; message_encode_decode_ready;
     frame_codec_multiple_frames_in_buffer].
Proof. repeat (apply Forall_cons; split; [vm_compute; reflexivity|]). done. Qed.

End ProtoTests.

(** ** Configuration *)

Module ConfigTests.

#[local] Instance test_host : Host := {|
  read_to_string _ := Err FileNotFound;
  toml_from_str _ := Err "not modelled";
  env_var _ := None;
  socket_addr s :=
    if bool_decide (s ∈ ["0.0.0.0:7632"; "0.0.0.0:7633"]) then Ok tt else Err "invalid socket address syntax";
  is_file _ := false;
|}.

Definition resolved (file : FileConfig) : Config :=
  {| listen_addr := sv_listen_addr (server file); metrics_addr := sv_metrics_addr (server file);
     data_dir := st_data_dir (storage file); log_level := lg_level (logging file);
     log_format := lg_format (logging file);
     dispatcher_interval_ms := ds_interval_ms (dispatcher file);
     tls_cert_path := None; tls_key_path := None; auth_tokens := au_tokens (auth file) |}.

Definition base : Config := resolved FileConfig_default.

Definition is_json (f : LogFormat) : bool := match f with Json => true | Text => false end.

Definition default_config_validates : Test unit unit :=
  assert (is_ok (validate base)) ;;
  assert_eq (listen_addr base) "0.0.0.0:7632" ;;
  assert_eq (dispatcher_interval_ms base) 100%N ;;
  assert (is_json (log_format base)).

(** The default configuration with one field changed. *)
Definition changed (listen level : string) (interval : N) (cert : option string) : Config :=
  {| listen_addr := listen; metrics_addr := metrics_addr base; data_dir := data_dir base;
     log_level := level; log_format := log_format base; dispatcher_interval_ms := interval;
     tls_cert_path := cert; tls_key_path := None; auth_tokens := auth_tokens base |}.

Definition invalid_addr_fails_validation : Test unit unit :=
  assert_err (validate (changed "not-an-addr" "info" 100 None)).
Definition invalid_log_level_fails_validation : Test unit unit :=
  assert_err (validate (changed "0.0.0.0:7632" "verbose" 100 None)).
Definition zero_dispatcher_interval_fails_validation : Test unit unit :=
  assert_err (validate (changed "0.0.0.0:7632" "info" 0 None)).
Definition tls_paths_must_be_paired : Test unit unit :=
  assert_err (validate (changed "0.0.0.0:7632" "info" 100 (Some "/tmp/cert.pem"))).

Example config_tests :
  Forall (λ t, passes t () = true)
    [default_config_validates; invalid_addr_fails_validation; invalid_log_level_fails_validation;
     zero_dispatcher_interval_fails_validation; tls_paths_must_be_paired].
Proof. repeat constructor. Qed.

End ConfigTests.
