(* ===== verification/ConformanceWire.v ===== *)
(** * The integration tests of the server on the model

    The tests of [smdb-wire/tests/integration.rs]: clients that drive a server
    over connections. A client waits for each answer, so a connection of the
    first three tests is one run of [serve_framed]; in the last one the
    subscriber's connection is a live one, beside another connection and the
    dispatcher. The instances are those of [WireExamples]. *)
From S2P Require Import Prelude Core Redb Keys Storage StorageSpec StorageTrait Channel Engine.
From S2P Require Import EngineSpec EngineRun Dispatch System Concrete Frame Messages Wire WireExamples.
From S2P Require Import Live LiveExamples Conformance.
Import Demo DemoWire.
Local Open Scope test_scope.

Module WireTests.

Definition TOKEN : string := "test-token".

Definition order_machine : MachineDefinition := built (
  Builder.new |> Builder.name "fulfillment" |> Builder.version 1
  |> Builder.states ["pending"; "paid"; "packed"; "shipped"] |> Builder.initial_state "pending"
  |> Builder.transition "pay" ["pending"] "paid" |> Builder.transition "pack" ["paid"] "packed").

(** The engine of the server, on a new store in memory. *)
Definition start_server : Engine :=
  match Storage.in_memory (Ok (demo_db [])) with
  | Ok d => (define_machine order_machine (new (d : store) 0 0)).2
  | Err _ => new (demo_db [] : store) 0 0
  end.

Definition handshake_frames : list Frame :=
  [frame_of TStartup {| su_protocol_version := PROTOCOL_VERSION; su_capabilities := [] |};
   frame_of TAuth {| au_token := TOKEN |}].

(** A connection: the handshake, its two answers, and the answers to the frames
    sent then. *)
Definition connect_and_send (frames : list Frame) : Test Engine (list Frame) :=
  replies <~ (λ e, let c := (serve_framed [TOKEN] (Ok <$> handshake_frames ++ frames) (conn e)).2 in
                   Some (written (c_sink c), c_engine c)) ;;
  assert_eq (tag <$> take 2 replies) [TAuthOk; TReady] ;;
  t_ret (drop 2 replies).

(** [next_frame] on what is left of the answers, and [decode_message]. *)
Definition next_frame (replies : list Frame) : Test Engine (Frame * list Frame) :=
  λ e, match replies with f :: rest => Some ((f, rest), e) | [] => None end.
Definition decoded {A} `{Serde A} (f : Frame) : Test Engine A :=
  λ e, match decode_message f with Ok m => Some (m, e) | Err _ => None end.

(** [payload["key"]]. *)
Definition field (v : Value) (key : string) : Value :=
  match v with
  | VObject kvs => default VNull ((list_to_map kvs : gmap string Value) !! key)
  | _ => VNull
  end.

Definition transition_frame (request_id : N) (entity event : string) (idem : option string) : Frame :=
  frame_of TTransition
    {| tm_request_id := request_id; tm_entity_id := entity; tm_machine := "fulfillment";
       tm_event := event; tm_expected_version := None; tm_idempotency_key := idem;
       tm_ctx := VObject []; tm_actor := "user:test" |}.

Definition transition_over_the_wire_succeeds : Test Engine unit :=
  replies <~ connect_and_send [transition_frame 1 "order_1" "pay" None] ;;
  x <~ next_frame replies ;;
  assert_eq (tag x.1) TResult ;;
  result <~ decoded (A := ResultMessage) x.1 ;;
  assert_eq (rs_request_id result) 1%N ;;
  assert_eq (field (rs_payload result) "state") (VString "paid") ;;
  assert_eq (field (rs_payload result) "from") (VString "pending") ;;
  assert_eq (field (rs_payload result) "version") (VNumber (PosInt 1)).

Definition illegal_transition_is_rejected_not_fatal : Test Engine unit :=
  replies <~ connect_and_send [transition_frame 7 "order_2" "pack" None] ;;
  x <~ next_frame replies ;;
  assert_eq (tag x.1) TRejection.

Definition idempotent_retry_replays_same_result_with_real_version : Test Engine unit :=
  replies <~ connect_and_send [transition_frame 1 "order_3" "pay" (Some "key-abc");
                               transition_frame 2 "order_3" "pay" (Some "key-abc")] ;;
  x <~ next_frame replies ;;
  first <~ decoded (A := ResultMessage) x.1 ;;
  y <~ next_frame x.2 ;;
  assert_eq (tag y.1) TResult ;;
  second <~ decoded (A := ResultMessage) y.1 ;;
  assert_eq (field (rs_payload second) "sequence") (field (rs_payload first) "sequence") ;;
  assert_eq (field (rs_payload second) "transition_id") (field (rs_payload first) "transition_id") ;;
  assert_eq (field (rs_payload second) "version") (VNumber (PosInt 1)).

(** The subscriber's connection, open after its handshake (the run of the
    handshake alone ends at a stream without frames, which changes nothing). *)
Definition open_subscriber : Test Engine Live :=
  λ e, let c := (serve_framed [TOKEN] (Ok <$> handshake_frames) (conn e)).2 in
       Some (live_open c [], c_engine c).

(** What the connections share goes on elsewhere. *)
Definition share (l : Live) : Test Engine Live := λ e, Some (on_engine (λ _, e) l, e).
Definition publish (l : Live) : Test Engine unit := λ _, Some (tt, c_engine (lv_conn l)).
Definition frames_after (n : nat) (l : Live) : list Frame := drop n (written (c_sink (lv_conn l))).

Definition subscriber_receives_pushed_change_record : Test Engine unit :=
  sub <~ open_subscriber ;;
  let sub := replies (handled sub (frame_of TSubscribe
               {| sb_request_id := 100; sb_subscription_id := "s1";
                  sb_machine_filter := Some "fulfillment"; sb_after_sequence := 0 |})) in
  publish sub ;;
  x <~ next_frame (frames_after 2 sub) ;;
  assert_eq (tag x.1) TResult ;;
  writer <~ connect_and_send [transition_frame 1 "order_9" "pay" None] ;;
  y <~ next_frame writer ;;
  assert_eq (tag y.1) TResult ;;
  (λ e, Some (tt, LiveExamples.pass e)) ;;
  sub <~ share sub ;;
  let sub := sends (receives sub) in
  z <~ next_frame (frames_after 3 sub) ;;
  assert_eq (tag z.1) TChangeRecord ;;
  msg <~ decoded (A := ChangeRecordMessage) z.1 ;;
  assert_eq (cm_subscription_id msg) "s1" ;;
  assert_eq (cr_entity_id (cm_record msg)) "order_9" ;;
  assert_eq (cr_event (cm_record msg)) "pay" ;;
  assert_eq (cr_to_state (cm_record msg)) "paid" ;;
  assert_eq (cr_version (cm_record msg)) 1%N ;;
  assert_eq (cr_sequence (cm_record msg)) 1%N.

Example integration_tests :
  Forall (λ t, passes t start_server = true)
    [transition_over_the_wire_succeeds; illegal_transition_is_rejected_not_fatal;
     idempotent_retry_replays_same_result_with_real_version;
     subscriber_receives_pushed_change_record].
Proof. repeat (apply Forall_cons; split; [vm_compute; reflexivity|]). done. Qed.

End WireTests.
